(* ===== verification/_CoqProject ===== *)
-Q . S2P
Prelude.v
Policy.v
SlotBitmap.v
BucketBase.v
Bucket.v
Segment.v
SegmentInv.v
SegmentOps.v
SegmentSplit.v
DashTable.v
DashTableInv.v
DashTableGrow.v
DashTableIter.v
DashTableScan.v
DashTableValue.v
DashTableOps.v
DashTableErase.v
DashTableClear.v
DashMap.v
DashSpec.v
CompactObj.v
PrimeTable.v
StringOrView.v
DbSlice.v
DbSliceInv.v
DbSliceOps.v
DbSpec.v
Sample.v
DashWitness.v
MpmcQueue.v
MpmcInv.v
MpmcSpec.v
SpinLock.v
EventCount.v
EventCountSpec.v
DoneRef.v
ThreadEvent.v
AsyncMutex.v
AsyncScope.v
Task.v
TaskSpec.v
SpscQueue.v
MpscQueue.v
Arena.v
MiResource.v
Expected.v
PodArray.v
PodArraySpec.v
QueueWitness.v
TaskQueue.v
Pool.v
PoolSpec.v
Threads.v
Proactor.v
ProactorInv.v
ProactorSpec.v
ProactorWitness.v
ConcWitness.v
IoBuf.v
IoBufInv.v
IoBufSpec.v
Descriptors.v
SessionIo.v
Resp.v
RespInv.v
RespSpec.v
CmdArgs.v
Shards.v
Registry.v
Commands.v
CommandsInv.v
CommandsSpec.v
Server.v
ServerSpec.v
Lifecycle.v
System.v
SystemSpec.v
SystemLive.v
StoreWitness.v
SystemWitness.v
