(* ===== verification/Prelude.v ===== *)
(** * A verification of ImDragonfly, an in-memory key-value server

    The program is a small Redis server in C++: event loops on io_uring, one
    shard of the store per loop, sessions that parse requests, commands that hop
    to the shard of their key, and an extendible hash table per database. This
    library models it file by file and proves what its parts do. This file is
    the root: below this documentation it holds what all the files share.

    ** The parts, and the files that model them

    Paths are relative to src/. A definition keeps the name of the function or
    type it models.

    The table (src/sharding/DashTable/):
    - [Policy]: the operations that the templates call on their key and value
      types (table_policy.hpp), as the class [TablePolicy], and their laws, the
      classes [TablePolicyOk], [TableAssignOk] and [TableDestroyOk]. The theorems
      on tables are proved against the classes.
    - [SlotBitmap], [BucketBase], [Bucket]: a bucket: its bitmaps, fingerprints
      and stash references, its keys and values (dash_internal.hpp).
    - [Segment] with [SegmentInv], [SegmentOps], [SegmentSplit]: the regular and
      stash buckets of a segment: lookup, insertion with displacement, removal,
      split, traversal (dash_internal.hpp); the invariant and its preservation.
    - [DashTable] with [DashTableInv], [DashTableGrow], [DashTableIter],
      [DashTableScan], [DashTableValue], [DashTableOps], [DashTableErase],
      [DashTableClear]: the directory, its iterators and cursors, the constructor
      and the destructor (dash_table.hpp).
    - [DashMap], [DashSpec]: the theorems on tables. [Sample], [DashWitness]: a
      policy on integers for which the laws hold, and the theorems applied to it.

    The store (src/sharding/):
    - [CompactObj], [PrimeTable]: the tagged key and value objects
      (compact_obj.hpp and .cpp) and the table of the store. The laws of the
      policy hold of these objects, those of destruction excepted: a slot whose
      entry was erased holds a destroyed string, and the next insertion assigns
      to it ([DbSpec.erased_slot_faults]). The theorems on [PrimeTable] therefore
      say for which states they hold.
    - [StringOrView]: the key that a table iterator carries
      (src/detail/string_or_view.hpp).
    - [DbSlice] with [DbSliceInv], [DbSliceOps], [DbSpec]: the databases of one
      shard (db_slice.hpp and .cpp, db_table.hpp and .cpp, op_status.hpp).
    - [Shards]: namespaces, the routing of keys, transactions and their hop
      (engine_shard_set, namespaces, cluster_support.hpp, src/detail/tx_base,
      src/transaction_layer/).

    Sessions and commands:
    - [IoBuf] with [IoBufInv], [IoBufSpec]: the buffer of a connection
      (net/base/io_buf).
    - [Resp] with [RespInv], [RespSpec]: the parser of requests and the replies
      (src/redis/facade/).
    - [CmdArgs], [Registry], [Commands] with [CommandsInv], [CommandsSpec]: the
      argument parser, the command table and the handlers (src/command_layer/).
    - [Server] with [ServerSpec]: the sessions (src/network/redis_server.hpp) as a
      machine that takes events, its specification, and the state it starts in.
      [StoreWitness]: the theorems at concrete inputs, a run of the server included,
      with the concrete library of [Sample].
    - [SessionIo], [Descriptors]: the write loop of a session with its suspensions,
      the descriptors of its sockets, and [main] (net/base/socket, fd_wrapper.hpp).
    - [Lifecycle]: the namespaces, built and destroyed by the threads of the shards
      (src/sharding/namespaces.cpp).
    - [System] with [SystemSpec], [SystemLive], [SystemWitness]: the running server
      with the accept loop, the task queues of the shards and the queues of the
      loops (redis_server.hpp, transaction.cpp, engine_shard_set.hpp); a run of two
      clients on two shards.

    Queues, locks and loops (net/):
    - [MpmcQueue] with [MpmcInv], [MpmcSpec]: the bounded lock-free queue
      (util/lock_free_queues/mpmc_bounded_queue.h), one atomic access at a time.
    - [SpscQueue], [MpscQueue], [QueueWitness]: the queues of one consumer (util/
      lock_free_queues/ProducerConsumerQueue.h, mpsc_intrusive_queue.h).
    - [SpinLock], [EventCount] with [EventCountSpec], [DoneRef], [ThreadEvent]: the
      lock, the event counts of coroutines and of threads, the shared state of Done
      (util/spinlock.hpp, util/synchronization.hpp, util/wait_queue.hpp).
    - [Task] with [TaskSpec], [AsyncMutex], [AsyncScope]: coroutines that await
      others, the mutex they lock, the scope they join (cppcoro/).
    - [TaskQueue]: the queue of a shard and its worker (util/task_queue.hpp).
    - [Proactor] with [ProactorInv], [ProactorSpec], [ProactorWitness]: the event
      loop (base/uring_proactor, base/socket).
    - [Pool] with [PoolSpec]: work on all loops at once (base/uring_proactor_pool),
      and the shards that are built and destroyed with it (src/sharding/
      engine_shard, engine_shard_set).
    - [Threads]: thread objects, and the threads of the server from Start to Stop
      (util/thread.hpp, redis_server.hpp).
    - [ConcWitness]: the other theorems of this group at concrete inputs.

    Memory and values (net/util/, src/detail/):
    - [Arena], [PodArray] with [PodArraySpec], [Expected], [MiResource]: an arena, a
      growing array of plain objects, a value or an error, and the resource that
      counts what a shard has allocated (pmr/arena, pmr/pod_array.h, expected.hpp,
      mi_memory_resource).

    ** How the parts interact

    A read that completes gives bytes to a session ([Server.on_read]): they are
    appended to its [IoBuf], [Resp.ParseRESP] takes a request out, the command is
    looked up in [Registry] and its transaction names the shard of its key
    ([Shards.InitByArgs]). The hop runs the handler of [Commands] with the slice of
    that shard ([Shards.Scheduling]), which calls [DbSlice], which calls
    [DashTable]. The reply is a task of the thread of the session
    ([Server.on_reply]), which appends it to the send buffer and writes it out
    ([Server.DoWrite]). Tasks travel through [TaskQueue] and [Proactor], which are
    built on [MpmcQueue]. [Server] has a list of waiting tasks per session; [System]
    has the queues instead, and a theorem that nothing else changes.

    Three files look at a part of this more closely. [SessionIo] has the write of
    [Server.DoWrite], which is one piece there, as a coroutine that is suspended while
    the kernel reads its bytes. [Lifecycle] has the namespaces that [Server] starts with
    as the work of [Pool], in any order of the threads, and their end. [Threads] has
    the threads that [Pool] and [TaskQueue] take for granted.

    ** What the theorems show

    - A table stands for a finite map ([DashTableInv.rep]); every operation of the
      table implements the operation of the map: [DashMap.Insert_refines],
      [Find_refines], [Erase_refines], [EraseKey_refines], [DashSpec.Clear_refines].
      Splitting a segment and doubling the directory keep the map
      ([Split_refines], [Split_partitions]); iteration, also over one bucket, and
      cursor scans reach each entry once, cursors survive growth
      ([iteration_complete], [bucket_iteration_complete], [scan_complete],
      [cursor_stable]); the destructor frees every segment ([destroy_table_spec]).
    - The shards of a namespace together hold one map of strings
      ([CommandsInv.ns_rep]); SET, GET and DEL refine its operations, whatever shard
      the key lives on ([CommandsSpec]). [ServerSpec.server_refines] composes the
      whole path: a server run by clients that wait for their replies gives the
      replies of a machine on that map, event for event.
    - The queues between the threads are transparent
      ([SystemSpec.system_simulates]), so the system with its queues refines the
      same machine ([system_refines]), and when every thread goes on taking its
      turn every client gets its reply ([SystemLive.system_answers]). The bound of
      64 clients is the size of a shard's queue: each client has at most one task.
    - From start to end: the namespaces that the threads of the shards build are
      those of the theorems above, and clearing them after any run of disciplined
      clients destroys every object once ([Lifecycle.store_is_freed]); every thread
      that [Start] creates is joined when [Stop] returns ([Threads.server_threads]).
    - Buffers are queues of bytes ([IoBufSpec.io_buf_refines]); a request is parsed
      to its arguments, whatever follows it ([ParseRESP_roundtrip]); no input makes
      the parser read outside the buffer ([ParseRESP_bounds]); replies that wait for
      the write before them reach the client in order, whole
      ([SessionIo.replies_in_order]).
    - The bounded queue is first in, first out in every interleaving of any number
      of threads ([MpmcSpec.mpmc_fifo]), and so are the queues of one consumer
      ([SpscQueue.spsc_fifo], [MpscQueue.mpsc_fifo]); the spin lock excludes
      ([SpinLock.spin_lock_excl]), the mutex of coroutines too, and is fair
      ([async_mutex_fifo]); a scope resumes its owner once, when all work is
      finished ([async_scope_joins]); programs of coroutines that await each other do
      what the program without tasks does ([tasks_inline]).
    - A task queue is a bounded list of tasks ([TaskQueue_refines]), the event loop
      resumes each waiting coroutine once and makes progress ([proactor_once],
      [iteration_serves]), and the shards are built and destroyed whatever the order
      in which the threads get to it ([PoolSpec.shards_start_and_stop]).
    - The pieces of an arena do not overlap ([Arena.arena_pieces]), the array of plain
      objects is a list and loses no memory ([pod_array_refines]), an expected is a sum
      ([expected_refines]), the shared state of Done lives as long as it is referred
      to ([done_refs]), and a resource counts what it gave out ([mi_accounting]).
    - Some theorems show what the code does where it does not do what it means to:
      [erased_slot_faults], [split_request_aborts], [Expire_name_is_key],
      [ParseSetParams_terminates], [Delex_refines], [AddOrUpdate_refines],
      [notify_deadlocks], [Add_full_deadlocks], [full_queue_recurses],
      [lost_wakeup], [main_serves_nobody], [overlap_repeats], [closed_writer_spins],
      [from_prime_loses_key], [push_back_overflows], [resize_zero_partial],
      [throwing_assignment], [void_destroyed_twice], [forgotten_waiter].

    ** Conventions

    - A stateful function returns [res]: its result, or the fault it runs into. The
      build defaults to Debug, so a failed assertion is a fault, as are accesses
      outside an array, uses of destroyed objects and signed overflow. [runs e P]
      is total correctness: no fault, and [P] of the result. [safe e P] allows the
      fuel to run out and is used only where the code may loop for ever; a theorem
      of progress stands beside it.
    - Machine integers are [Z] reduced to their width ([u8] to [u64], [i64]).
    - Loops that are not structural take fuel. The theorems say how much is enough
      ([D < fuel] turns of the growth loop, where [D] is a directory depth at which
      the key fits; the number of options for the loop of SET); lemmas give
      enough fuel for the other loops.
    - Atomic accesses are steps of one order that all threads agree on. The
      acquire and release orders of the code are not modelled.
    - What is not in the repository is a parameter: the hash of strings and what a
      self-move leaves ([CompactObj.StdLib]), fresh memory ([raw_byte],
      [raw_word]), the clock ([now]), io_uring ([Proactor.Uring], with the laws
      [ProactorInv.UringOk]), the memory resources ([Arena.MemoryResource],
      [PodArray.PodEnv], [MiResource.MiMalloc]), the creation of threads
      ([Threads.Pthread]), the guard whose header is missing
      ([AsyncScope.ScopeExit]), and what tasks and resumed coroutines do ([code],
      [cont]). Each law has an instance ([IntPolicy], [SampleLib], [ring_uring],
      [bump], [small_blocks], [rounding], [one_call]).
    - Positions of the bounded queue below 2^62 are exact; the theorems ask that a
      run has fewer steps than that.

    ** Interfaces and automation

    [rbind], [sbind], [mbind_runs] and [mbind_may] take a proven specification
    through a bind of the fault monad, [rstep] evaluates the array accesses that
    the context knows, the rewrite database [bits] computes bits of words. The
    table is proved against the type classes of [Policy], the event loop against
    [UringOk]; [StdLib] is a class as well.

    ** Not modelled

    - The system calls, glog, mimalloc and io_uring themselves: input and output, or
      third-party; they are parameters or left out.
    - The handler of a command and its hop are one event of [Server], since the shard
      runs one task at a time; [Task] has the coroutines on their own. The rings of
      [Proactor] are not put below [System]: io_uring delivers completions, and what
      [System] takes from a loop is that it runs its tasks in order.
    - [EventCount] has no interference inside its lock: a notification that finds a
      waiter never gives the lock back ([notify_deadlocks]), so that there is no
      run to interleave beyond that point.
    - The acquire and release orders, see above; the end of the server after SHUTDOWN,
      which is the end of the process; the heaps of the shards.
    - Lifetimes of string views, [StringOrView] excepted: they are modelled by their
      characters.
    - Headers that nothing runs: iterator.hpp, which no file includes, the type traits of
      awaiter_impl.hpp, the aliases of memory resources; BucketSet of DashTable and the comparison of expected, which do not
      compile when they are used; vendored headers (function2.hpp, libdivide.h);
      tests and benchmarks.

    What is left of the program are the parts of this list; each of them is out of
    reach of a model of the source, or has no behaviour of its own. *)
From stdpp Require Export base list numbers option gmap fin_maps.
From Stdlib Require Export ZArith Lia.

(** * The fault monad

    The server is built with assertions enabled ([CMAKE_BUILD_TYPE] defaults
    to [Debug]), so a failed [assert] aborts the process; an access outside an
    array and a shift or a builtin outside its domain is undefined behaviour.
    Every stateful definition returns [res A]: either the value the C++ code
    computes or the fault it runs into. *)

Inductive fault : Set :=
  | AssertFailed      (* assert(...) is false *)
  | OutOfBounds       (* array or vector index outside its range *)
  | BuiltinUndefined  (* __builtin_ctz(0), a shift by the width or more *)
  | FatalLog          (* LOG(FATAL) << ... *)
  | UseAfterFree      (* access to a destroyed or deallocated object *)
  | SignedOverflow    (* a signed result outside its type *)
  | NullPointer       (* a null pointer is dereferenced *)
  | BadVariant        (* std::get of the alternative that is not held *)
  | Terminated        (* std::terminate *)
  | Thrown            (* an exception that nobody catches *)
  | WrongFree         (* memory given back to another owner, or with another size *)
  | NoFuel.           (* the fuel of the model's loop is exhausted *)

Inductive res (A : Type) : Type :=
  | Ok (a : A)
  | Fault (f : fault).
Arguments Ok {_} _.
Arguments Fault {_} _.

#[export] Instance res_ret : MRet res := λ A a, Ok a.
#[export] Instance res_bind : MBind res := λ A B f m,
  match m with Ok a => f a | Fault e => Fault e end.

(** [assert(b)] *)
Definition cassert (b : bool) : res unit :=
  if b then Ok tt else Fault AssertFailed.

(** [a[i]] for an array or vector [a], read and written. *)
Definition aget {A} (a : list A) (i : nat) : res A :=
  match a !! i with Some x => Ok x | None => Fault OutOfBounds end.
Definition aset {A} (a : list A) (i : nat) (x : A) : res (list A) :=
  match a !! i with Some _ => Ok (<[i := x]> a) | None => Fault OutOfBounds end.

(** What a test shows of a result. *)
Definition results {A B} (f : A → B) (x : res A) : option B := match x with Ok a => Some (f a) | Fault _ => None end.

(** ** Total correctness: the computation ends without a fault and its result
    satisfies the postcondition. *)
Definition runs {A} (e : res A) (P : A → Prop) : Prop := ∃ a, e = Ok a ∧ P a.

Section runs.
Context {A B : Type}.
Implicit Types (e : res A) (P : A → Prop).

Lemma runs_ok (a : A) P : P a → runs (Ok a) P.
Proof. intros H. exists a. done. Qed.

Lemma runs_bind e (f : A → res B) P (Q : B → Prop) :
  runs e P → (∀ a, P a → runs (f a) Q) → runs (e ≫= f) Q.
Proof. intros (a & -> & HP) Hf. simpl. by apply Hf. Qed.

Lemma bind_ok (a : A) (f : A → res B) : Ok a ≫= f = f a.
Proof. done. Qed.

Lemma bind_bind {C} e (f : A → res B) (g : B → res C) : (e ≫= f) ≫= g = e ≫= λ x, f x ≫= g.
Proof. by destruct e. Qed.

Lemma runs_mono e P (Q : A → Prop) : runs e P → (∀ a, P a → Q a) → runs e Q.
Proof. intros (a & -> & HP) HQ. exists a. auto. Qed.

Lemma bind_ok_inv e (f : A → res B) b :
  e ≫= f = Ok b → ∃ a, e = Ok a ∧ f a = Ok b.
Proof. destruct e as [a|]; simpl; [eauto|discriminate]. Qed.

Lemma runs_inv e P a : runs e P → e = Ok a → P a.
Proof. intros (a' & -> & HP). by intros [= ->]. Qed.
End runs.

(** A computation that may fail an assertion, but only when [F] holds. *)
Definition may (F : Prop) {A} (e : res A) (P : A → Prop) : Prop :=
  runs e P ∨ F ∧ e = Fault AssertFailed.

Section may.
Context (F : Prop) {A B : Type}.
Implicit Types (e : res A) (P : A → Prop).

Lemma may_runs e P : runs e P → may F e P.
Proof. by left. Qed.

Lemma may_ok (a : A) P : P a → may F (Ok a) P.
Proof. intros HP. left. by apply runs_ok. Qed.

Lemma may_bind e (f : A → res B) P (Q : B → Prop) :
  may F e P → (∀ a, P a → may F (f a) Q) → may F (e ≫= f) Q.
Proof.
  intros [(a & -> & HP)|[HF ->]] Hf; [by apply Hf|]. right. done.
Qed.

Lemma may_mono e P (Q : A → Prop) : may F e P → (∀ a, P a → Q a) → may F e Q.
Proof. intros [He|He] HQ; [left; by eapply runs_mono|by right]. Qed.

Lemma may_cassert (b : bool) : (b = false → F) → may F (cassert b) (λ _, b = true).
Proof. destruct b; [left; by apply runs_ok|right; auto]. Qed.

Lemma may_total e P : ¬ F → may F e P → runs e P.
Proof. by intros HF [He|[? _]]. Qed.

Lemma may_inv e P a : may F e P → e = Ok a → P a.
Proof. intros [He|[_ ->]]; [by apply runs_inv|done]. Qed.
End may.

(** A computation that runs without a fault, as far as its fuel goes. *)
Definition safe {A} (e : res A) (P : A → Prop) : Prop :=
  match e with Ok a => P a | Fault f => f = NoFuel end.

Section safe.
Context {A B : Type}.
Implicit Types (e : res A) (P : A → Prop).

Lemma safe_runs e P : runs e P → safe e P.
Proof. by intros (a & -> & HP). Qed.

Lemma safe_bind e (f : A → res B) P (Q : B → Prop) :
  safe e P → (∀ a, P a → safe (f a) Q) → safe (e ≫= f) Q.
Proof. destruct e as [a|]; simpl; [auto|done]. Qed.

Lemma safe_mono e P (Q : A → Prop) : safe e P → (∀ a, P a → Q a) → safe e Q.
Proof. destruct e as [a|]; simpl; [auto|done]. Qed.

Lemma safe_total e P : safe e P → e ≠ Fault NoFuel → runs e P.
Proof. destruct e as [a|f]; simpl; [intros; by exists a|congruence]. Qed.
End safe.

Lemma cassert_true b : b = true → cassert b = Ok tt.
Proof. by intros ->. Qed.

Lemma cassert_inv b u : cassert b = Ok u → b = true.
Proof. by destruct b. Qed.

Lemma aget_some {A} (a : list A) i x : a !! i = Some x → aget a i = Ok x.
Proof. unfold aget. by intros ->. Qed.

Lemma aget_inv {A} (a : list A) i x : aget a i = Ok x → a !! i = Some x.
Proof. unfold aget. destruct (a !! i); congruence. Qed.

Lemma aset_some {A} (a : list A) i x y :
  a !! i = Some y → aset a i x = Ok (<[i := x]> a).
Proof. unfold aset. by intros ->. Qed.

(** Destruct a goal [runs (e ≫= f) Q] with a proven [runs e P]. *)
Ltac rbind H := eapply runs_bind; [eapply H|].

(** The same for a goal [may F (e ≫= f) Q], from [runs e P] or [may F e P]. *)
Ltac mbind_runs H := eapply may_bind; [apply may_runs; eapply H|].
Ltac mbind_may H := eapply may_bind; [eapply H|].

(** The same for a goal [safe (e ≫= f) Q]. *)
Ltac sbind H := eapply safe_bind; [eapply H|].

(** Evaluate the array accesses and assertions whose value the context gives. *)
Ltac rstep :=
  lazymatch goal with
  | |- context [aget ?a ?i] =>
      match goal with
      | H : a !! i = Some _ |- _ => rewrite (aget_some _ _ _ H)
      end
  | |- context [aset ?a ?i ?x] =>
      match goal with
      | H : a !! i = Some _ |- _ => rewrite (aset_some _ _ x _ H)
      end
  end; simpl.

(** * Machine words

    A [w]-bit unsigned integer is a [Z] in [0, 2^w); the results of shifts,
    complements and additions are reduced to the width. *)
Definition uN (w : Z) (x : Z) : Z := Z.land x (Z.ones w).
Abbreviation u8 := (uN 8).
Abbreviation u16 := (uN 16).
Abbreviation u32 := (uN 32).
Abbreviation u64 := (uN 64).

(** Two's complement reading of a 64-bit word, and the result of a signed
    64-bit computation. *)
Definition i64 (x : Z) : Z := if (x <? 2 ^ 63)%Z then x else (x - 2 ^ 64)%Z.
Definition int64 (z : Z) : res Z :=
  if ((- 2 ^ 63 <=? z) && (z <? 2 ^ 63))%Z then Ok z else Fault SignedOverflow.

(** [__builtin_popcount] *)
Fixpoint popcount_pos (p : positive) : nat :=
  match p with
  | xH => 1
  | xO q => popcount_pos q
  | xI q => S (popcount_pos q)
  end.
Definition popcount (x : Z) : nat :=
  match x with Zpos p => popcount_pos p | _ => 0 end.

(** [__builtin_ctz], undefined on 0 *)
Fixpoint ctz_pos (p : positive) : nat :=
  match p with xO q => S (ctz_pos q) | _ => 0 end.
Definition ctz (x : Z) : res nat :=
  match x with Zpos p => Ok (ctz_pos p) | _ => Fault BuiltinUndefined end.

(** The boolean [b] as an operand of a shift: [unsigned(b) << i]. *)
Definition bit_at (b : bool) (i : nat) : Z := Z.shiftl (Z.b2z b) (Z.of_nat i).

Create Rewrite HintDb bits.
#[export] Hint Rewrite Z.land_spec Z.lor_spec Z.lxor_spec Z.testbit_0_l
  Bool.andb_false_r Bool.andb_true_r Bool.andb_false_l Bool.andb_true_l
  Bool.orb_false_r Bool.orb_true_r Bool.orb_false_l Bool.orb_true_l
  Bool.xorb_false_r Bool.xorb_false_l Bool.negb_true_iff Bool.negb_false_iff
  : bits.

Section bits.
Local Open Scope Z_scope.
Implicit Types (x y w : Z) (i j n : nat).

Lemma ones_testbit w (i : Z) : 0 ≤ w → 0 ≤ i → Z.testbit (Z.ones w) i = bool_decide (i < w).
Proof.
  intros Hw Hi. destruct (decide (i < w)).
  - rewrite bool_decide_true by done. apply Z.ones_spec_low. lia.
  - rewrite bool_decide_false by done. apply Z.ones_spec_high. lia.
Qed.

Lemma uN_testbit w x (i : Z) :
  0 ≤ w → 0 ≤ i → Z.testbit (uN w x) i = Z.testbit x i && bool_decide (i < w).
Proof. intros. unfold uN. by rewrite Z.land_spec, ones_testbit. Qed.

Lemma uN_range w x : 0 ≤ w → 0 ≤ uN w x < 2 ^ w.
Proof.
  intros Hw. unfold uN. rewrite Z.land_ones by done.
  apply Z.mod_pos_bound. apply Z.pow_pos_nonneg; lia.
Qed.

Lemma uN_small w x : 0 ≤ x < 2 ^ w → uN w x = x.
Proof.
  intros Hx. unfold uN.
  destruct (decide (0 ≤ w)) as [Hw|Hw].
  - rewrite Z.land_ones by done. by apply Z.mod_small.
  - rewrite Z.pow_neg_r in Hx by lia. lia.
Qed.

(** Sums may be reduced early. *)
Lemma uN_add_l w x y : 0 ≤ w → uN w (uN w x + y) = uN w (x + y).
Proof. intros Hw. unfold uN. rewrite !Z.land_ones by done. apply Zplus_mod_idemp_l. Qed.

Lemma testbit_high x n (i : Z) : 0 ≤ x < 2 ^ Z.of_nat n → Z.of_nat n ≤ i → Z.testbit x i = false.
Proof.
  intros Hx Hi. destruct (decide (x = 0)) as [->|]; [apply Z.testbit_0_l|].
  apply Z.bits_above_log2; [lia|].
  assert (Z.log2 x < Z.of_nat n) by (apply Z.log2_lt_pow2; lia). lia.
Qed.

Lemma testbit_range x n :
  0 ≤ x → (∀ i, (n ≤ i)%nat → Z.testbit x (Z.of_nat i) = false) → 0 ≤ x < 2 ^ Z.of_nat n.
Proof.
  intros Hx Hb. split; [done|].
  destruct (decide (x = 0)) as [->|]; [apply Z.pow_pos_nonneg; lia|].
  apply Z.log2_lt_pow2; [lia|].
  destruct (decide (Z.log2 x < Z.of_nat n)) as [|Hge]; [done|].
  pose proof (Hb (Z.to_nat (Z.log2 x))) as H0.
  rewrite Z2Nat.id in H0 by apply Z.log2_nonneg.
  rewrite Z.bit_log2 in H0 by lia. pose proof (Z.log2_nonneg x). discriminate H0. lia.
Qed.

(** Words are equal when their bits at every natural index are. *)
Lemma bits_ext x y : (∀ i, Z.testbit x (Z.of_nat i) = Z.testbit y (Z.of_nat i)) → x = y.
Proof.
  intros H. apply Z.bits_inj'. intros k Hk. by rewrite <- (Z2Nat.id k Hk), H.
Qed.

Lemma bit_at_testbit (b : bool) i j :
  Z.testbit (bit_at b i) (Z.of_nat j) = b && bool_decide (i = j).
Proof.
  unfold bit_at. rewrite Z.shiftl_spec by lia.
  destruct (decide (i = j)) as [->|Hne].
  - rewrite bool_decide_true by done. rewrite Z.sub_diag. by destruct b.
  - rewrite bool_decide_false, andb_false_r by done.
    destruct (decide (j < i)%nat).
    + by rewrite Z.testbit_neg_r by lia.
    + destruct b; simpl Z.b2z; [|apply Z.testbit_0_l].
      apply Z.bits_above_log2; simpl; lia.
Qed.

(** [x & (1 << i)] as a condition. *)
Lemma land_bit_at x i : negb (Z.land x (bit_at true i) =? 0) = Z.testbit x (Z.of_nat i).
Proof.
  destruct (Z.testbit x (Z.of_nat i)) eqn:E.
  - apply negb_true_iff, Z.eqb_neq. intros E0.
    assert (Z.testbit (Z.land x (bit_at true i)) (Z.of_nat i) = true) as Hb; [|by rewrite E0, Z.testbit_0_l in Hb].
    by rewrite Z.land_spec, bit_at_testbit, E, bool_decide_true.
  - apply negb_false_iff, Z.eqb_eq, bits_ext. intros j.
    rewrite Z.land_spec, bit_at_testbit, Z.testbit_0_l. destruct (decide (i = j)) as [<-|].
    + by rewrite E.
    + by rewrite bool_decide_false, andb_false_r.
Qed.

Lemma bit_at_range (b : bool) i : 0 ≤ bit_at b i.
Proof. unfold bit_at. apply Z.shiftl_nonneg. by destruct b. Qed.
End bits.

(** The low [n] bits of a word as a list of booleans. *)
Definition bits_of (n : nat) (x : Z) : list bool :=
  (λ i, Z.testbit x (Z.of_nat i)) <$> seq 0 n.

Section counting.
Local Open Scope Z_scope.
Implicit Types (x : Z) (n i : nat).

Lemma bits_of_length n x : length (bits_of n x) = n.
Proof. unfold bits_of. by rewrite length_fmap, length_seq. Qed.

Lemma bits_of_lookup n x i : (i < n)%nat → bits_of n x !! i = Some (Z.testbit x (Z.of_nat i)).
Proof. intros Hi. unfold bits_of. by rewrite list_lookup_fmap, lookup_seq_lt. Qed.

Lemma bits_of_succ n x : bits_of (S n) x = Z.testbit x 0 :: bits_of n (Z.div2 x).
Proof.
  unfold bits_of. simpl. f_equal. rewrite <- fmap_S_seq, <- list_fmap_compose.
  apply list_fmap_ext. intros ? i _. unfold compose.
  rewrite Z.div2_spec, Z.shiftr_spec, Nat2Z.inj_succ by lia. done.
Qed.

Lemma popcount_div2 x : 0 ≤ x → popcount x = (Nat.b2n (Z.testbit x 0) + popcount (Z.div2 x))%nat.
Proof. destruct x as [|[p|p|]|p]; simpl; try done; lia. Qed.

(** [__builtin_popcount] counts the set bits. *)
Lemma popcount_bits n x :
  0 ≤ x < 2 ^ Z.of_nat n → popcount x = length (filter (λ b, b = true) (bits_of n x)).
Proof.
  revert x. induction n as [|n IH]; intros x Hx.
  - change (2 ^ Z.of_nat 0) with 1 in Hx. by replace x with 0 by lia.
  - rewrite Nat2Z.inj_succ, Z.pow_succ_r in Hx by lia.
    rewrite bits_of_succ, popcount_div2 by lia. rewrite IH.
    { rewrite filter_cons. by destruct (Z.testbit x 0). }
    rewrite Z.div2_div. split; [apply Z.div_pos|apply Z.div_lt_upper_bound]; lia.
Qed.

Lemma ctz_pos_bit p :
  Z.testbit (Zpos p) (Z.of_nat (ctz_pos p)) = true ∧
  ∀ j, (j < ctz_pos p)%nat → Z.testbit (Zpos p) (Z.of_nat j) = false.
Proof.
  induction p as [p IH|p IH|]; simpl ctz_pos; try (split; [done|lia]).
  destruct IH as [IH1 IH2]. rewrite Pos2Z.inj_xO. split.
  - by rewrite Nat2Z.inj_succ, Z.double_bits_succ.
  - intros [|j] Hj; [by rewrite Z.testbit_even_0|].
    rewrite Nat2Z.inj_succ, Z.double_bits_succ. apply IH2. lia.
Qed.

(** [__builtin_ctz] of a nonzero word is the index of its lowest set bit. *)
Lemma ctz_spec x : 0 < x →
  ∃ k, ctz x = Ok k ∧ Z.testbit x (Z.of_nat k) = true ∧
       ∀ j, (j < k)%nat → Z.testbit x (Z.of_nat j) = false.
Proof. destruct x as [|p|p]; intros; try lia. exists (ctz_pos p). split; [done|apply ctz_pos_bit]. Qed.

Lemma nonzero_bit x : 0 < x → ∃ k, Z.testbit x (Z.of_nat k) = true.
Proof. intros Hx. destruct (ctz_spec x Hx) as (k & _ & Hk & _). eauto. Qed.

Lemma zero_bits x : 0 ≤ x → (∀ k, Z.testbit x (Z.of_nat k) = false) → x = 0.
Proof. intros Hx H. apply bits_ext. intros i. by rewrite H, Z.testbit_0_l. Qed.
End counting.

(** * Lists *)

Lemma filter_length_all {A} (P : A → Prop) `{!∀ x, Decision (P x)} (l : list A) :
  length (filter P l) = length l ↔ Forall P l.
Proof.
  induction l as [|x l IH]; [by split|]. rewrite filter_cons, Forall_cons, <- IH.
  pose proof (length_filter P l). case_decide; simpl; split; intuition lia.
Qed.

(** Replacing one element of a list, seen through [omap]. *)
Lemma omap_insert_perm {A B} (f : A → option B) (l : list A) i x y :
  l !! i = Some y →
  option_list (f x) ++ omap f l ≡ₚ option_list (f y) ++ omap f (<[i := x]> l).
Proof.
  intros Hi. pose proof (lookup_lt_Some _ _ _ Hi) as Hlt.
  rewrite insert_take_drop by done. rewrite <- (take_drop_middle l i y Hi) at 1.
  rewrite !omap_app. simpl.
  destruct (f x) as [u|], (f y) as [v|]; simpl; rewrite <- ?Permutation_middle; done || apply Permutation_swap.
Qed.

(** The same for the concatenation of a list of lists. *)
Lemma mbind_insert_perm {A B} (f : A → list B) (l : list A) i x y :
  l !! i = Some y →
  f x ++ (l ≫= f) ≡ₚ f y ++ (<[i := x]> l ≫= f).
Proof.
  intros Hi. pose proof (lookup_lt_Some _ _ _ Hi) as Hlt.
  rewrite insert_take_drop by done. rewrite <- (take_drop_middle l i y Hi) at 1.
  rewrite !bind_app, !bind_cons. rewrite !(Permutation_app_swap_app _ (take i l ≫= f)).
  apply Permutation_app_head. rewrite !(assoc_L (++)). by rewrite (Permutation_app_comm (f x)).
Qed.

Lemma filter_ext_in {A} (P P' : A → Prop) `{!∀ x, Decision (P x), !∀ x, Decision (P' x)} (l : list A) :
  (∀ x, x ∈ l → P x ↔ P' x) → filter P l = filter P' l.
Proof.
  induction l as [|x l IH]; intros Hiff; [done|]. rewrite !filter_cons, IH by (intros; apply Hiff; by right).
  assert (P x ↔ P' x) by (apply Hiff; by left). repeat case_decide; naive_solver.
Qed.

Lemma filter_fmap {A B} (f : A → B) (P : B → Prop) `{!∀ x, Decision (P x)} (l : list A) :
  filter P (f <$> l) = f <$> filter (λ x, P (f x)) l.
Proof. induction l as [|x l IH]; [done|]. csimpl. rewrite !filter_cons, IH. by case_decide. Qed.

Lemma filter_true {A} (P : A → Prop) `{!∀ x, Decision (P x)} (l : list A) :
  (∀ x, x ∈ l → P x) → filter P l = l.
Proof.
  induction l as [|x l IH]; intros Hl; [done|]. rewrite filter_cons, decide_True by (apply Hl; left).
  f_equal. apply IH. intros y Hy. apply Hl. by right.
Qed.

Lemma filter_false {A} (P : A → Prop) `{!∀ x, Decision (P x)} (l : list A) :
  (∀ x, x ∈ l → ¬ P x) → filter P l = [].
Proof.
  induction l as [|x l IH]; intros Hl; [done|]. rewrite filter_cons, decide_False by (apply Hl; left).
  apply IH. intros y Hy. apply Hl. by right.
Qed.

Lemma filter_submseteq {A} (P : A → Prop) `{!∀ x, Decision (P x)} (l l' : list A) :
  l ⊆+ l' → filter P l ⊆+ filter P l'.
Proof. intros [k ->]%submseteq_Permutation. rewrite filter_app. by apply submseteq_inserts_r. Qed.

Lemma omap_length_le {A B} (f : A → option B) (l : list A) : (length (omap f l) ≤ length l)%nat.
Proof. induction l as [|x l IH]; csimpl; [done|]. destruct (f x); simpl; lia. Qed.

(** A family with one of its values replaced. *)
Definition put {A} (J : nat → A) (i : nat) (x : A) : nat → A := λ j, if decide (j = i) then x else J j.

Lemma put_eq {A} (J : nat → A) i x : put J i x i = x.
Proof. unfold put. by rewrite decide_True. Qed.

Lemma put_ne {A} (J : nat → A) i j x : j ≠ i → put J i x j = J j.
Proof. intros. unfold put. by rewrite decide_False. Qed.

(** Changing the function of a concatenation at one index. *)
Lemma mbind_upd_perm {A B} (f g : A → list B) (l : list A) x :
  NoDup l → x ∈ l → (∀ y, y ∈ l → y ≠ x → f y = g y) →
  g x ++ (l ≫= f) ≡ₚ f x ++ (l ≫= g).
Proof.
  intros Hnd Hx Heq. apply elem_of_Permutation in Hx as [l' Hl]. rewrite Hl in Hnd |- *.
  apply NoDup_cons in Hnd as [Hn _]. rewrite !bind_cons, !(assoc_L (++)).
  assert (l' ≫= f = l' ≫= g) as ->; [|by rewrite (Permutation_app_comm (g x))].
  apply Forall_bind_ext, Forall_forall. intros y Hy. apply Heq; [rewrite Hl; by right|by intros ->].
Qed.

(** Sums over a list. *)
Lemma sum_insert {A} (f : A → nat) l i x y : l !! i = Some x →
  (sum_list_with f (<[i := y]> l) + f x = sum_list_with f l + f y)%nat.
Proof.
  revert i. induction l as [|z l IH]; intros [|i]; simpl; try done.
  - intros [= ->]. lia.
  - intros Hi. specialize (IH i Hi). lia.
Qed.

Lemma sum_pos {A} (f : A → nat) l : (0 < sum_list_with f l)%nat → ∃ i x, l !! i = Some x ∧ (0 < f x)%nat.
Proof.
  induction l as [|z l IH]; simpl; [lia|]. intros Hp. destruct (f z) as [|m] eqn:E.
  - destruct (IH Hp) as (i & x & ? & ?). by exists (S i), x.
  - exists 0%nat, z. split; [done|lia].
Qed.

Lemma sum_le {A} (f : A → nat) m l : (∀ x, (f x ≤ m)%nat) → (sum_list_with f l ≤ m * length l)%nat.
Proof. intros Hf. induction l as [|z l IH]; simpl; [lia|]. specialize (Hf z). lia. Qed.

Lemma sum_lookup_le {A} (f : A → nat) l i x : l !! i = Some x → (f x ≤ sum_list_with f l)%nat.
Proof. revert i. induction l as [|z l IH]; intros [|i]; simpl; try done; [intros [= ->]; lia|]. intros Hi. specialize (IH i Hi). lia. Qed.

(** * Loops over a list of values in the fault monad *)
Fixpoint rfold {A S} (f : A → S → res S) (l : list A) (s : S) : res S :=
  match l with [] => Ok s | x :: l' => s' ← f x s; rfold f l' s' end.

(** Total correctness of a loop from an invariant over the processed prefix. *)
Lemma rfold_runs {A S} (f : A → S → res S) (l : list A) (I : list A → S → Prop) s :
  I [] s →
  (∀ pre x post s, l = pre ++ x :: post → I pre s → runs (f x s) (I (pre ++ [x]))) →
  runs (rfold f l s) (I l).
Proof.
  intros H0 Hstep.
  assert (∀ post pre s, l = pre ++ post → I pre s → runs (rfold f post s) (I l)) as H; [|by apply (H l [])].
  induction post as [|x post IH]; intros pre s' -> HI; simpl.
  - apply runs_ok. by rewrite app_nil_r.
  - eapply runs_bind; [by eapply Hstep|]. intros s'' HI'. apply (IH (pre ++ [x])); [|done].
    by rewrite <- app_assoc.
Qed.

Lemma rfold_may {A S} (F : Prop) (f : A → S → res S) (l : list A) (I : list A → S → Prop) s :
  I [] s →
  (∀ pre x post s, l = pre ++ x :: post → I pre s → may F (f x s) (I (pre ++ [x]))) →
  may F (rfold f l s) (I l).
Proof.
  intros H0 Hstep.
  assert (∀ post pre s, l = pre ++ post → I pre s → may F (rfold f post s) (I l)) as H; [|by apply (H l [])].
  induction post as [|x post IH]; intros pre s' -> HI; simpl.
  - apply may_ok. by rewrite app_nil_r.
  - eapply may_bind; [by eapply Hstep|]. intros s'' HI'. apply (IH (pre ++ [x])); [|done].
    by rewrite <- app_assoc.
Qed.

(** Partial correctness of a loop: a run that ends keeps the invariant. *)
Lemma rfold_inv {A S} (f : A → S → res S) (l : list A) (I : list A → S → Prop) s s' :
  I [] s →
  (∀ pre x post s s', l = pre ++ x :: post → I pre s → f x s = Ok s' → I (pre ++ [x]) s') →
  rfold f l s = Ok s' → I l s'.
Proof.
  intros H0 Hstep.
  assert (∀ post pre s, l = pre ++ post → I pre s → rfold f post s = Ok s' → I l s') as H;
    [|by apply (H l [])].
  induction post as [|x post IH]; intros pre s1 -> HI; simpl.
  - intros [= ->]. by rewrite app_nil_r.
  - intros (s2 & Hf & Hr)%bind_ok_inv. apply (IH (pre ++ [x]) s2); [by rewrite <- app_assoc| |done].
    by eapply Hstep.
Qed.

Lemma rfold_app {A S} (f : A → S → res S) l1 l2 s :
  rfold f (l1 ++ l2) s = rfold f l1 s ≫= rfold f l2.
Proof. revert s. induction l1 as [|x l1 IH]; intros s; simpl; [done|]. destruct (f x s); simpl; [apply IH|done]. Qed.

Lemma rfold_fmap {A B S} (g : A → B) (f : B → S → res S) l st : rfold f (g <$> l) st = rfold (λ x, f (g x)) l st.
Proof. revert st. induction l as [|x l IH]; intros st; [done|]. csimpl. destruct (f (g x) st); simpl; done. Qed.

Lemma rfold_bind {A B S} (f : B → S → res S) (g : A → list B) l st :
  rfold f (l ≫= g) st = rfold (λ x, rfold f (g x)) l st.
Proof.
  revert st. induction l as [|x l IH]; intros st; [done|]. rewrite bind_cons, rfold_app. simpl.
  destruct (rfold f (g x) st); simpl; [apply IH|done].
Qed.

Lemma rfold_ext_in {A S} (f g : A → S → res S) l st : (∀ x st, x ∈ l → f x st = g x st) → rfold f l st = rfold g l st.
Proof.
  revert st. induction l as [|x l IH]; intros st Hfg; [done|]. simpl. rewrite Hfg by left.
  destruct (g x st); simpl; [|done]. apply IH. intros y st' Hy. apply Hfg. by right.
Qed.
