(* ===== verification/Policy.v ===== *)
(** Policy: the interface between the hash table templates and the types they
    are instantiated with. [TablePolicy] lists the operations the templates
    call (the policy class of src/src/sharding/DashTable/table_policy.hpp and
    the assignment operators of the key and value types); [TablePolicyOk] is
    what the table relies on. *)
From S2P Require Import Prelude.
Local Open Scope Z_scope.

(** The right-hand side of [key[slot] = std::forward<U>(u)]: a lookup key
    (e.g. a string view) or a stored key that is being moved. *)
Inductive KeySrc (Q K : Type) : Type :=
  | FromQuery (q : Q)
  | FromKey (k : K).
Arguments FromQuery {_ _} _.
Arguments FromKey {_ _} _.

Class TablePolicy (Q K V : Type) := {
  kSlotNum : nat;
  kBucketNum : nat;
  HashFn : K → res Z;              (* policy_.HashFn(const PrimeKey&) *)
  HashFnQ : Q → Z;                 (* policy_.HashFn(std::string_view) *)
  Equal : K → Q → bool;
  AssignKey : K → KeySrc Q K → res K;  (* key[slot] = u; first argument: old object *)
  AssignVal : V → V → res V;           (* value[slot] = v *)
  DestroyKey : K → res K;
  DestroyValue : V → res V;
  DtorKey : K → res unit;              (* ~Key_t(), ~Value_t() *)
  DtorValue : V → res unit;
  key_init : K;                        (* Key_t() *)
  val_init : V;                        (* Value_t() *)
  raw_byte : nat → nat → Z;            (* what fresh memory holds where a constructor leaves it *)
}.

Definition kStashBucketNum : nat := 4.
Definition kFingerBits : Z := 8.
Definition kFpMask : Z := Z.shiftl 1 kFingerBits - 1.

(** What a stored key and a stored value denote. *)
Class TableDenote (Q K V W : Type) := {
  key_of : K → Q;
  val_of : V → W;
}.

(** The laws of lookup: hashing and comparison of a stored key depend on what
    it denotes only. [key_ok] and [val_ok] are the objects that occupied slots
    hold, [key_asg] and [val_asg] those of any slot. *)
Class TablePolicyOk (Q K V W : Type) `{TablePolicy Q K V, TableDenote Q K V W} := {
  key_ok : K → Prop;
  val_ok : V → Prop;
  key_asg : K → Prop;
  val_asg : V → Prop;
  key_ok_asg : ∀ k, key_ok k → key_asg k;
  val_ok_asg : ∀ v, val_ok v → val_asg v;
  key_init_asg : key_asg key_init;
  val_init_asg : val_asg val_init;
  slot_bounds : (8 ≤ kSlotNum ≤ 16)%nat;
  bucket_bounds : (3 ≤ kBucketNum < 251)%nat;
  hash_range : ∀ q, 0 ≤ HashFnQ q < 2 ^ 64;
  hash_key : ∀ k, key_ok k → HashFn k = Ok (HashFnQ (key_of k));
  equal_key : ∀ k q, key_ok k → Equal k q = true ↔ key_of k = q;
}.

(** What storing an entry relies on besides: an assignment to such an object
    makes it denote what the right-hand side denotes. *)
Class TableAssignOk (Q K V W : Type) `{TablePolicyOk Q K V W} := {
  assign_query : ∀ d q, key_asg d → runs (AssignKey d (FromQuery q)) (λ k, key_ok k ∧ key_of k = q);
  assign_key : ∀ d s, key_asg d → key_ok s → runs (AssignKey d (FromKey s)) (λ k, key_ok k ∧ key_of k = key_of s);
  assign_val : ∀ d s, val_asg d → val_ok s → runs (AssignVal d s) (λ v, val_ok v ∧ val_of v = val_of s);
}.

(** What erasing relies on besides: a destroyed object may be assigned to again,
    and what is in a slot can be destroyed with its array. *)
Class TableDestroyOk (Q K V W : Type) `{TablePolicyOk Q K V W} := {
  destroy_key : ∀ k, key_ok k → runs (DestroyKey k) key_asg;
  destroy_value : ∀ v, val_ok v → runs (DestroyValue v) val_asg;
  dtor_key : ∀ k, key_asg k → DtorKey k = Ok tt;
  dtor_value : ∀ v, val_asg v → DtorValue v = Ok tt;
}.

Section KeySrc.
Context `{PT : TablePolicy Q K V, DN : TableDenote Q K V W, PO : !TablePolicyOk Q K V W, AO : !TableAssignOk Q K V W}.

(** The lookup key a source denotes, and when it may be stored. *)
Definition src_key (u : KeySrc Q K) : Q := match u with FromQuery q => q | FromKey k => key_of k end.
Definition src_ok (u : KeySrc Q K) : Prop := match u with FromQuery _ => True | FromKey k => key_ok k end.

Lemma assign_src d u : key_asg d → src_ok u → runs (AssignKey d u) (λ k, key_ok k ∧ key_of k = src_key u).
Proof. destruct u as [q|k]; intros Hd Hu; [by apply assign_query|by apply assign_key]. Qed.
End KeySrc.
