(* ===== verification/SlotBitmap.v ===== *)
(** SlotBitmap: the two 32-bit words of a bucket that say which slots are
    occupied ([val_[0]], the busy bitmap) and which of those hold an entry
    displaced from the previous bucket ([val_[1]], the probe bitmap).
    Source: src/src/sharding/DashTable/dash_internal.hpp, class SlotBitmap. *)
From S2P Require Import Prelude.
Local Open Scope Z_scope.

Record SlotBitmap : Set := mkSlotBitmap {
  val0 : Z;  (* val_[0].d, busy *)
  val1 : Z;  (* val_[1].d, probe *)
}.

(** [Unaligned() : d(0)] for both words *)
Definition empty_bitmap : SlotBitmap := mkSlotBitmap 0 0.

Definition GetBusy (b : SlotBitmap) : Z := val0 b.
Definition Size (b : SlotBitmap) : nat := popcount (val0 b).

Definition ClearSlots (b : SlotBitmap) (mask : Z) : SlotBitmap :=
  mkSlotBitmap (Z.land (val0 b) (u32 (Z.lnot mask))) (Z.land (val1 b) (u32 (Z.lnot mask))).

Definition Clear (b : SlotBitmap) : SlotBitmap := mkSlotBitmap 0 0.

Definition ClearSlot (b : SlotBitmap) (index : nat) : res SlotBitmap :=
  _ ← cassert (0 <? Size b)%nat;
  let mask := bit_at true index in
  Ok (mkSlotBitmap (Z.land (val0 b) (u32 (Z.lnot mask))) (Z.land (val1 b) (u32 (Z.lnot mask)))).

Definition SetSlot (b : SlotBitmap) (index : nat) (probe : bool) : res SlotBitmap :=
  _ ← cassert ((Z.land (Z.shiftr (val0 b) (Z.of_nat index)) 1) =? 0);
  Ok (mkSlotBitmap (Z.lor (val0 b) (u32 (bit_at true index)))
                   (Z.lor (val1 b) (u32 (bit_at probe index)))).

(** One word of [Swap]: [a = (d << (b-a)) ^ d; a &= 1 << b; a |= a >> (b-a); d ^= a]. *)
Definition swap_word (d : Z) (slot_a slot_b : nat) : Z :=
  let delta := Z.of_nat (slot_b - slot_a) in
  let a := Z.lxor (u32 (Z.shiftl d delta)) d in
  let a := Z.land a (bit_at true slot_b) in
  let a := Z.lor a (Z.shiftr a delta) in
  Z.lxor d a.

(** The whole body of the C++ function is under [if (slot_a > slot_b)]. *)
Definition Swap (b : SlotBitmap) (slot_a slot_b : nat) : SlotBitmap :=
  if (slot_b <? slot_a)%nat
  then mkSlotBitmap (swap_word (val0 b) slot_b slot_a) (swap_word (val1 b) slot_b slot_a)
  else b.

Section SlotBitmap.
Variable NUM_SLOTS : nat.

Definition kAllocMask : Z := Z.shiftl 1 (Z.of_nat NUM_SLOTS) - 1.

Definition GetProbe (b : SlotBitmap) (probe : bool) : Z :=
  Z.lxor (Z.land (val1 b) kAllocMask) (Z.b2z (negb probe) * kAllocMask).

Definition IsFull (b : SlotBitmap) : bool := (Size b =? NUM_SLOTS)%nat.

Definition FindEmptySlot (b : SlotBitmap) : res nat :=
  let mask := u32 (Z.lnot (GetBusy b)) in
  slot ← ctz mask;
  _ ← cassert (slot <? NUM_SLOTS)%nat;
  Ok slot.

Definition ShiftLeft (b : SlotBitmap) : bool * SlotBitmap :=
  let kBusyLastSlot := Z.shiftr kAllocMask 1 + 1 in
  let r := negb (Z.land (val0 b) kBusyLastSlot =? 0) in
  (r, mkSlotBitmap (Z.land (u32 (Z.shiftl (val0 b) 1)) kAllocMask)
                   (Z.land (u32 (Z.shiftl (val1 b) 1)) kAllocMask)).
End SlotBitmap.

(** * Invariant and the slot view *)

(** Bit [i] of the busy and of the probe word. *)
Definition busy_bit (b : SlotBitmap) (i : nat) : bool := Z.testbit (val0 b) (Z.of_nat i).
Definition probe_bit (b : SlotBitmap) (i : nat) : bool := Z.testbit (val1 b) (Z.of_nat i).

(** Only the low [n] bits are used, and a probe bit is set only on an occupied
    slot: [SetSlot] with [probe = false] relies on the bit being clear. *)
Record wf (n : nat) (b : SlotBitmap) : Prop := {
  wf_busy : 0 ≤ val0 b < 2 ^ Z.of_nat n;
  wf_probe : 0 ≤ val1 b;
  wf_sub : ∀ i, probe_bit b i = true → busy_bit b i = true;
}.

Section specs.
Context (n : nat) (Hn : (0 < n ≤ 28)%nat).
Implicit Types (b : SlotBitmap) (i j : nat).

Lemma empty_bitmap_wf : wf n empty_bitmap.
Proof. split; simpl; [|lia|]; [split; [lia|apply Z.pow_pos_nonneg; lia]|done]. Qed.

Lemma busy_high b i : wf n b → (n ≤ i)%nat → busy_bit b i = false.
Proof. intros [Hb _ _] Hi. eapply testbit_high; [done|lia]. Qed.

Lemma probe_high b i : wf n b → (n ≤ i)%nat → probe_bit b i = false.
Proof.
  intros Hw Hi. destruct (probe_bit b i) eqn:E; [|done].
  apply (wf_sub _ _ Hw) in E. by rewrite busy_high in E.
Qed.

Lemma kAllocMask_ones : kAllocMask n = Z.ones (Z.of_nat n).
Proof. unfold kAllocMask, Z.ones. by rewrite Z.sub_1_r. Qed.

Lemma kAllocMask_bit i : Z.testbit (kAllocMask n) (Z.of_nat i) = bool_decide (i < n)%nat.
Proof.
  rewrite kAllocMask_ones, ones_testbit by lia. apply bool_decide_ext. lia.
Qed.

(** Bit [i] of [GetProbe(p)] says that slot [i]'s probe flag is [p]; it does
    not look at the busy word. *)
Lemma GetProbe_bit b p i :
  Z.testbit (GetProbe n b p) (Z.of_nat i) = bool_decide (i < n)%nat && Bool.eqb p (probe_bit b i).
Proof.
  unfold GetProbe, probe_bit. autorewrite with bits.
  destruct p; simpl negb; cbn [Z.b2z]; rewrite ?Z.mul_0_l, ?Z.mul_1_l;
    autorewrite with bits; rewrite kAllocMask_bit;
    by destruct (bool_decide _), (Z.testbit _ _).
Qed.

Lemma GetProbe_nonneg b p : wf n b → 0 ≤ GetProbe n b p.
Proof.
  intros Hw. unfold GetProbe. rewrite kAllocMask_ones.
  assert (0 ≤ Z.ones (Z.of_nat n)) by (rewrite Z.ones_equiv; pose proof (Z.pow_pos_nonneg 2 (Z.of_nat n)); lia).
  apply Z.lxor_nonneg. rewrite Z.land_nonneg.
  pose proof (wf_probe _ _ Hw). split; [|intros _; left; done]. intros _. destruct p; simpl negb; cbn [Z.b2z]; lia.
Qed.

Lemma lnot32_bit m i :
  (i < 32)%nat → Z.testbit (u32 (Z.lnot m)) (Z.of_nat i) = negb (Z.testbit m (Z.of_nat i)).
Proof.
  intros Hi. rewrite uN_testbit, Z.lnot_spec by lia.
  rewrite bool_decide_true by lia. apply andb_true_r.
Qed.

Lemma land_lnot_bit b d m i :
  wf n b → d = val0 b ∨ d = val1 b →
  Z.testbit (Z.land d (u32 (Z.lnot m))) (Z.of_nat i) =
  Z.testbit d (Z.of_nat i) && negb (Z.testbit m (Z.of_nat i)).
Proof.
  intros Hw Hd. rewrite Z.land_spec. destruct (decide (i < 32)%nat).
  - by rewrite lnot32_bit.
  - replace (Z.testbit d (Z.of_nat i)) with false; [done|].
    destruct Hd as [-> | ->]; symmetry; [apply busy_high|apply probe_high]; lia || done.
Qed.

(** [ClearSlots] empties exactly the slots of the mask. *)
Lemma ClearSlots_spec b m : wf n b →
  wf n (ClearSlots b m) ∧
  (∀ i, busy_bit (ClearSlots b m) i = busy_bit b i && negb (Z.testbit m (Z.of_nat i))) ∧
  (∀ i, probe_bit (ClearSlots b m) i = probe_bit b i && negb (Z.testbit m (Z.of_nat i))).
Proof.
  intros Hw.
  assert (∀ i, busy_bit (ClearSlots b m) i = busy_bit b i && negb (Z.testbit m (Z.of_nat i))) as H0
    by (intros i; apply (land_lnot_bit b); auto).
  assert (∀ i, probe_bit (ClearSlots b m) i = probe_bit b i && negb (Z.testbit m (Z.of_nat i))) as H1
    by (intros i; apply (land_lnot_bit b); auto).
  split; [|done]. split.
  - apply testbit_range.
    + apply Z.land_nonneg. left. apply Hw.
    + intros i Hi. fold (busy_bit (ClearSlots b m) i). by rewrite H0, busy_high.
  - apply Z.land_nonneg. left. apply Hw.
  - intros i. rewrite H0, H1. intros [Hp Hm]%andb_true_iff. by rewrite (wf_sub _ _ Hw _ Hp), Hm.
Qed.

Lemma ClearSlot_ClearSlots b i :
  (0 < Size b)%nat → ClearSlot b i = Ok (ClearSlots b (bit_at true i)).
Proof. intros Hs. unfold ClearSlot. by rewrite cassert_true by (by apply Nat.ltb_lt). Qed.

Lemma bit_clear_test d i :
  Z.testbit d (Z.of_nat i) = false → (Z.land (Z.shiftr d (Z.of_nat i)) 1 =? 0) = true.
Proof.
  intros Hd. apply Z.eqb_eq. change 1 with (Z.ones 1). rewrite Z.land_ones by lia.
  change (2 ^ 1) with 2. rewrite Zmod_even, <- Z.negb_odd, <- Z.bit0_odd, Z.shiftr_spec by lia.
  by rewrite Z.add_0_l, Hd.
Qed.

(** [SetSlot] on a free slot occupies it with the given probe flag and leaves
    the other slots alone. *)
Lemma SetSlot_spec b i p : wf n b → (i < n)%nat → busy_bit b i = false →
  runs (SetSlot b i p) (λ b', wf n b' ∧
    (∀ j, busy_bit b' j = busy_bit b j || bool_decide (i = j)) ∧
    (∀ j, probe_bit b' j = probe_bit b j || (p && bool_decide (i = j)))).
Proof.
  intros Hw Hi Hfree. unfold SetSlot. rewrite cassert_true by by apply bit_clear_test.
  simpl. apply runs_ok.
  assert (∀ q j, Z.testbit (u32 (bit_at q i)) (Z.of_nat j) = q && bool_decide (i = j)) as Hbit.
  { intros q j. rewrite uN_testbit, bit_at_testbit by lia.
    destruct (decide (i = j)) as [->|]; [|by rewrite (bool_decide_false (i = j)), !andb_false_r].
    by rewrite (bool_decide_true (Z.of_nat j < 32)), andb_true_r by lia. }
  assert (∀ q, 0 ≤ u32 (bit_at q i)) by (intros; apply uN_range; lia).
  split; [split|split].
  - apply testbit_range; [apply Z.lor_nonneg; split; [apply Hw|done]|].
    intros j Hj. simpl. rewrite Z.lor_spec, Hbit. fold (busy_bit b j).
    rewrite busy_high, bool_decide_false by (done || lia). done.
  - apply Z.lor_nonneg. split; [apply Hw|done].
  - intros j. unfold probe_bit, busy_bit; simpl. rewrite !Z.lor_spec, !Hbit.
    intros [H1|[_ H1]%andb_true_iff]%orb_true_iff; apply orb_true_iff.
    + left. by apply (wf_sub _ _ Hw).
    + right. by rewrite H1.
  - intros j. unfold busy_bit; simpl. by rewrite Z.lor_spec, Hbit.
  - intros j. unfold probe_bit; simpl. by rewrite Z.lor_spec, Hbit.
Qed.

Lemma Size_bits b : wf n b → Size b = length (filter (λ x, x = true) (bits_of n (val0 b))).
Proof. intros Hw. apply popcount_bits, Hw. Qed.

Lemma IsFull_spec b : wf n b → IsFull n b = true ↔ ∀ i, (i < n)%nat → busy_bit b i = true.
Proof.
  intros Hw. unfold IsFull; rewrite Nat.eqb_eq, Size_bits by done.
  rewrite <- (bits_of_length n (val0 b)) at 2. rewrite filter_length_all, Forall_lookup. split.
  - intros H i Hi. by apply (H i), bits_of_lookup.
  - intros H i x Hx. assert (i < n)%nat as Hi
      by (rewrite <- (bits_of_length n (val0 b)); by eapply lookup_lt_Some).
    rewrite bits_of_lookup in Hx by done. injection Hx as <-. by apply H.
Qed.

Lemma not_full_free b : wf n b → IsFull n b = false → ∃ i, (i < n)%nat ∧ busy_bit b i = false.
Proof.
  intros Hw Hf%not_true_iff_false.
  destruct (decide (Exists (λ i, busy_bit b i = false) (seq 0 n))) as [He|Hno].
  - apply Exists_exists in He as (i & [_ Hi]%elem_of_seq & Hb). eauto.
  - exfalso. apply Hf, IsFull_spec; [done|]. intros i Hi.
    apply not_Exists_Forall in Hno; [|apply _]. rewrite Forall_forall in Hno.
    apply not_false_is_true, Hno, elem_of_seq. lia.
Qed.

Lemma Size_pos b i : wf n b → busy_bit b i = true → (0 < Size b)%nat.
Proof.
  intros [Hw _ _] Hi. unfold Size. destruct (val0 b) as [|p|p] eqn:E; [| |lia].
  - unfold busy_bit in Hi. by rewrite E, Z.testbit_0_l in Hi.
  - clear. simpl. induction p; simpl; lia.
Qed.

(** When a slot is free, [FindEmptySlot] returns the lowest free slot and
    its assertion holds. *)
Lemma FindEmptySlot_spec b : wf n b → IsFull n b = false →
  runs (FindEmptySlot n b) (λ i, (i < n)%nat ∧ busy_bit b i = false ∧
                                 ∀ j, (j < i)%nat → busy_bit b j = true).
Proof.
  intros Hw Hf.
  assert (∃ i, (i < n)%nat ∧ busy_bit b i = false) as (i & Hi & Hb).
  { by apply not_full_free. }
  unfold FindEmptySlot, GetBusy. set (m := u32 (Z.lnot (val0 b))).
  assert (Z.testbit m (Z.of_nat i) = true) as Hmi
    by (unfold m; rewrite lnot32_bit by lia; unfold busy_bit in Hb; by rewrite Hb).
  assert (0 < m) as Hm.
  { assert (0 ≤ m) by (apply uN_range; lia).
    destruct (decide (m = 0)) as [E|]; [by rewrite E, Z.testbit_0_l in Hmi|lia]. }
  destruct (ctz_spec m Hm) as (k & -> & Hk1 & Hk2). simpl.
  assert (k ≤ i)%nat by (apply Nat.nlt_ge; intros Hlt; by rewrite Hk2 in Hmi).
  rewrite cassert_true by (apply Nat.ltb_lt; lia). simpl. apply runs_ok.
  split; [lia|]. split.
  - unfold m in Hk1. rewrite lnot32_bit in Hk1 by lia. by apply negb_true_iff in Hk1.
  - intros j Hj. specialize (Hk2 j Hj). unfold m in Hk2.
    rewrite lnot32_bit in Hk2 by lia. by apply negb_false_iff in Hk2.
Qed.
End specs.
