(* ===== verification/BucketBase.v ===== *)
(** BucketBase: the metadata of one bucket of a DashTable segment: the slot
    bitmaps, an 8-bit fingerprint per slot, and up to four references to
    entries of this bucket (or of the previous one) that live in a stash bucket.
    Source: src/src/sharding/DashTable/dash_internal.hpp, class BucketBase. *)
From S2P Require Import Prelude SlotBitmap.
Local Open Scope Z_scope.

Record BucketBase : Set := mkBase {
  slotb_ : SlotBitmap;
  finger_arr_ : list Z;        (* std::array<uint8_t, NUM_SLOTS> *)
  stash_arr_ : list Z;         (* std::array<uint8_t, kStashFpLen> *)
  stash_busy_ : Z;
  stash_pos_ : Z;
  stash_probe_mask_ : Z;
  overflow_count_ : Z;
}.

Definition kStashFpLen : nat := 4.
Definition kStashPresentBit : Z := Z.shiftl 1 4.

Definition set_slotb (b : BucketBase) (s : SlotBitmap) : BucketBase :=
  mkBase s (finger_arr_ b) (stash_arr_ b) (stash_busy_ b) (stash_pos_ b)
         (stash_probe_mask_ b) (overflow_count_ b).
Definition set_stash_busy (b : BucketBase) (x : Z) : BucketBase :=
  mkBase (slotb_ b) (finger_arr_ b) (stash_arr_ b) x (stash_pos_ b)
         (stash_probe_mask_ b) (overflow_count_ b).
Definition set_overflow (b : BucketBase) (x : Z) : BucketBase :=
  mkBase (slotb_ b) (finger_arr_ b) (stash_arr_ b) (stash_busy_ b) (stash_pos_ b)
         (stash_probe_mask_ b) x.

Definition Size (b : BucketBase) : nat := SlotBitmap.Size (slotb_ b).
Definition GetBusy (b : BucketBase) : Z := SlotBitmap.GetBusy (slotb_ b).
Definition IsEmpty (b : BucketBase) : bool := GetBusy b =? 0.
Definition IsBusy (b : BucketBase) (slot : nat) : bool :=
  negb (Z.land (GetBusy b) (bit_at true slot) =? 0).

Definition Delete (b : BucketBase) (sid : nat) : res BucketBase :=
  s ← SlotBitmap.ClearSlot (slotb_ b) sid; Ok (set_slotb b s).
Definition ClearSlots (b : BucketBase) (mask : Z) : BucketBase :=
  set_slotb b (SlotBitmap.ClearSlots (slotb_ b) mask).
Definition Clear (b : BucketBase) : BucketBase :=
  set_slotb b (SlotBitmap.Clear (slotb_ b)).

Definition Fp (b : BucketBase) (i : nat) : res Z :=
  _ ← cassert (i <? length (finger_arr_ b))%nat; aget (finger_arr_ b) i.

Definition SetHash (b : BucketBase) (slot_id : nat) (meta_hash : Z) (probe : bool) : res BucketBase :=
  _ ← cassert (slot_id <? length (finger_arr_ b))%nat;
  fa ← aset (finger_arr_ b) slot_id meta_hash;
  s ← SlotBitmap.SetSlot (slotb_ b) slot_id probe;
  Ok (mkBase s fa (stash_arr_ b) (stash_busy_ b) (stash_pos_ b) (stash_probe_mask_ b) (overflow_count_ b)).

Definition ClearStashPtrs (b : BucketBase) : BucketBase :=
  mkBase (slotb_ b) (finger_arr_ b) (stash_arr_ b) 0 0 0 0.

Definition HasStash (b : BucketBase) : bool := negb (Z.land (stash_busy_ b) kStashPresentBit =? 0).
Definition HasStashOverflow (b : BucketBase) : bool := 0 <? overflow_count_ b.

Definition Swap (b : BucketBase) (slot_a slot_b : nat) : res BucketBase :=
  fa ← aget (finger_arr_ b) slot_a;
  fb ← aget (finger_arr_ b) slot_b;
  f1 ← aset (finger_arr_ b) slot_a fb;
  f2 ← aset f1 slot_b fa;
  Ok (mkBase (SlotBitmap.Swap (slotb_ b) slot_a slot_b) f2 (stash_arr_ b) (stash_busy_ b)
             (stash_pos_ b) (stash_probe_mask_ b) (overflow_count_ b)).

(** ** Stash references *)

(** The loop of [IterateStash]; [func] may update the bucket it is called on
    ([ClearStash] does), so the bucket is threaded through. [ob] and [om] are
    the copies of [stash_busy_] and of the probe mask, shifted at each turn. *)
Fixpoint iterate_stash_loop (rest i : nat) (ob om fp : Z)
    (func : BucketBase → nat → nat → res (BucketBase * option nat)) (b : BucketBase)
    : res (BucketBase * option (nat * nat)) :=
  match rest with
  | O => Ok (b, None)
  | S rest' =>
      sa ← aget (stash_arr_ b) i;
      if negb (Z.land ob 1 =? 0) && (sa =? fp) && negb (Z.land om 1 =? 0) then
        let pos := Z.to_nat (Z.land (Z.shiftr (stash_pos_ b) (2 * Z.of_nat i)) 3) in
        '(b', sid) ← func b i pos;
        match sid with
        | Some s => Ok (b', Some (pos, s))
        | None => iterate_stash_loop rest' (S i) (Z.shiftr ob 1) (Z.shiftr om 1) fp func b'
        end
      else iterate_stash_loop rest' (S i) (Z.shiftr ob 1) (Z.shiftr om 1) fp func b
  end.

Definition IterateStash (b : BucketBase) (fp : Z) (is_probe : bool)
    (func : BucketBase → nat → nat → res (BucketBase * option nat))
    : res (BucketBase * option (nat * nat)) :=
  let om := if is_probe then stash_probe_mask_ b else u32 (Z.lnot (stash_probe_mask_ b)) in
  iterate_stash_loop kStashFpLen 0 (stash_busy_ b) om fp func b.

Definition SetStash (b : BucketBase) (fp : Z) (stash_pos : nat) (probe : bool) : res (BucketBase * bool) :=
  free_slot ← ctz (u32 (Z.lnot (stash_busy_ b)));
  if (kStashFpLen <=? free_slot)%nat then Ok (b, false) else
  sa ← aset (stash_arr_ b) free_slot fp;
  let sb := u8 (Z.lor (stash_busy_ b) (bit_at true free_slot)) in
  let pm := u8 (Z.lor (stash_probe_mask_ b) (bit_at probe free_slot)) in
  let sh := 2 * Z.of_nat free_slot in
  let sp := u8 (Z.land (stash_pos_ b) (Z.lnot (Z.shiftl 3 sh))) in
  let sp := u8 (Z.lor sp (Z.shiftl (Z.of_nat stash_pos) sh)) in
  Ok (mkBase (slotb_ b) (finger_arr_ b) sa sb sp pm (overflow_count_ b), true).

(** The lambda [cb] of [ClearStash]. *)
Definition clear_stash_cb (stash_pos : nat) (b : BucketBase) (i pos : nat) : res (BucketBase * option nat) :=
  if (pos =? stash_pos)%nat then
    let sb := u8 (Z.land (stash_busy_ b) (u32 (Z.lnot (bit_at true i)))) in
    let pm := u8 (Z.land (stash_probe_mask_ b) (u32 (Z.lnot (bit_at true i)))) in
    let sp := u8 (Z.land (stash_pos_ b) (u32 (Z.lnot (Z.shiftl 3 (2 * Z.of_nat i))))) in
    _ ← cassert (Z.land (Z.shiftr sp (2 * Z.of_nat i)) 3 =? 0);
    Ok (mkBase (slotb_ b) (finger_arr_ b) (stash_arr_ b) sb sp pm (overflow_count_ b), Some 0%nat)
  else Ok (b, None).

Definition ClearStash (b : BucketBase) (fp : Z) (stash_pos : nat) (probe : bool) : res (BucketBase * bool) :=
  '(b', r) ← IterateStash b fp probe (clear_stash_cb stash_pos);
  Ok (b', match r with Some _ => true | None => false end).

(** [this] and [next] are two different buckets of the segment. *)
Definition SetStashPtr (this : BucketBase) (stash_pos : nat) (meta_hash : Z) (next : BucketBase)
    : res (BucketBase * BucketBase) :=
  _ ← cassert (stash_pos <? 4)%nat;
  '(this, ok1) ← SetStash this meta_hash stash_pos false;
  '(this, next) ←
    (if ok1 : bool then Ok (this, next) else
     '(next, ok2) ← SetStash next meta_hash stash_pos true;
     Ok (if ok2 : bool then this else set_overflow this (u8 (overflow_count_ this + 1)), next));
  Ok (set_stash_busy this (u8 (Z.lor (stash_busy_ this) kStashPresentBit)), next).

Definition UnsetStashPtr (this : BucketBase) (fp_hash : Z) (stash_pos : nat) (next : BucketBase)
    : res (BucketBase * BucketBase * nat) :=
  '(this, clear_success) ← ClearStash this fp_hash stash_pos false;
  '(next, clear_success, r) ←
    (if clear_success : bool then Ok (next, true, 0%nat) else
     '(next, cs) ← ClearStash next fp_hash stash_pos true;
     Ok (next, cs, Nat.b2n cs));
  this ←
    (if clear_success : bool then Ok this else
     _ ← cassert (0 <? overflow_count_ this);
     Ok (set_overflow this (u8 (overflow_count_ this - 1))));
  let mask1 := Z.land (stash_busy_ this) (kStashPresentBit - 1) in
  let mask2 := Z.land (stash_busy_ next) (kStashPresentBit - 1) in
  let this :=
    if (Z.land mask1 (u32 (Z.lnot (stash_probe_mask_ this))) =? 0) && (overflow_count_ this =? 0)
       && (Z.land mask2 (stash_probe_mask_ next) =? 0)
    then set_stash_busy this (u8 (Z.land (stash_busy_ this) (u32 (Z.lnot kStashPresentBit))))
    else this in
  Ok (this, next, r).

(** ** Fingerprints *)

(** [_mm_movemask_epi8] of the byte-wise comparison: bit [i] is the [i]-th flag. *)
Fixpoint movemask (l : list bool) : Z :=
  match l with [] => 0 | x :: l' => Z.b2z x + 2 * movemask l' end.

(** The 16 bytes loaded from [finger_arr_.data()]: the load runs past the
    fingerprints into the members that follow them in the object (it stays
    inside [BucketBase] for NUM_SLOTS >= 8). *)
Definition load16 (b : BucketBase) : list Z :=
  take 16 (finger_arr_ b ++ stash_arr_ b ++
           [stash_busy_ b; stash_pos_ b; stash_probe_mask_ b; overflow_count_ b]).

Definition CompareFP (b : BucketBase) (fp : Z) : Z :=
  movemask ((λ x, x =? fp) <$> load16 b).

Section BucketBase.
Variable NUM_SLOTS : nat.

Definition IsFull (b : BucketBase) : bool := (Size b =? NUM_SLOTS)%nat.
Definition GetProbe (b : BucketBase) (probe : bool) : Z := SlotBitmap.GetProbe NUM_SLOTS (slotb_ b) probe.

Definition Find (b : BucketBase) (fp_hash : Z) (probe : bool) : Z :=
  let mask := Z.land (CompareFP b fp_hash) (GetBusy b) in
  Z.land mask (GetProbe b probe).

(** [for (int i = NUM_SLOTS - 1; i > 0; --i) finger_arr_[i] = finger_arr_[i - 1];] *)
Fixpoint shift_fingers (i : nat) (fa : list Z) : res (list Z) :=
  match i with
  | O => Ok fa
  | S i' => x ← aget fa i'; fa' ← aset fa i x; shift_fingers i' fa'
  end.

Definition ShiftRight (b : BucketBase) : res (BucketBase * bool) :=
  fa ← shift_fingers (NUM_SLOTS - 1) (finger_arr_ b);
  let '(r, s) := SlotBitmap.ShiftLeft NUM_SLOTS (slotb_ b) in
  e ← SlotBitmap.FindEmptySlot NUM_SLOTS s;
  _ ← cassert (e =? 0)%nat;
  Ok (mkBase s fa (stash_arr_ b) (stash_busy_ b) (stash_pos_ b) (stash_probe_mask_ b) (overflow_count_ b), r).

(** A default-constructed bucket: the counters are zero; [finger_arr_] and
    [stash_arr_] have no initialiser, their contents are the arguments. *)
Definition new_base (fingers stash : list Z) : BucketBase :=
  mkBase empty_bitmap fingers stash 0 0 0 0.
End BucketBase.

(** * The abstract view of the stash references

    Each of the four reference cells of a bucket is empty or holds the
    fingerprint of an entry, the number of the stash bucket it lives in, and
    whether the entry's home is the previous bucket ([probe]). *)
Definition ref : Type := Z * nat * bool.

Definition pos_at (sp : Z) (i : nat) : nat :=
  Z.to_nat (Z.land (Z.shiftr sp (2 * Z.of_nat i)) 3).

Definition ref_at (b : BucketBase) (i : nat) : option ref :=
  if Z.testbit (stash_busy_ b) (Z.of_nat i)
  then fp ← stash_arr_ b !! i;
       Some (fp, pos_at (stash_pos_ b) i, Z.testbit (stash_probe_mask_ b) (Z.of_nat i))
  else None.

Definition refs (b : BucketBase) : list (option ref) := ref_at b <$> seq 0 kStashFpLen.

Definition present (b : BucketBase) : bool := Z.testbit (stash_busy_ b) 4.

(** The stash half of the invariant of a bucket. *)
Record stash_wf (b : BucketBase) : Prop := {
  swf_arr : length (stash_arr_ b) = kStashFpLen;
  swf_busy : 0 ≤ stash_busy_ b < 32;
  swf_pos : 0 ≤ stash_pos_ b < 256;
  swf_mask : 0 ≤ stash_probe_mask_ b < 16;
  swf_sub : ∀ i, Z.testbit (stash_probe_mask_ b) (Z.of_nat i) = true →
                 Z.testbit (stash_busy_ b) (Z.of_nat i) = true;
  swf_over : 0 ≤ overflow_count_ b < 256;
}.

Section stash_bits.
Implicit Types (b : BucketBase) (i j : nat) (x y : Z).

Lemma three_bit j : Z.testbit 3 (Z.of_nat j) = bool_decide (j < 2)%nat.
Proof. change 3 with (Z.ones 2). rewrite ones_testbit by lia. apply bool_decide_ext. lia. Qed.

Lemma pos_at_lt x i : (pos_at x i < 4)%nat.
Proof.
  unfold pos_at. change 3 with (Z.ones 2). rewrite Z.land_ones by lia.
  pose proof (Z.mod_pos_bound (Z.shiftr x (2 * Z.of_nat i)) (2 ^ 2)). lia.
Qed.

Lemma pos_at_ext x y i :
  (∀ k, (k < 2)%nat → Z.testbit x (Z.of_nat (2 * i + k)) = Z.testbit y (Z.of_nat (2 * i + k))) →
  pos_at x i = pos_at y i.
Proof.
  intros H. unfold pos_at. f_equal. apply bits_ext. intros k.
  rewrite !Z.land_spec, three_bit. case_bool_decide as Hk; [|by rewrite !andb_false_r].
  rewrite !andb_true_r, !Z.shiftr_spec by lia.
  replace (Z.of_nat k + 2 * Z.of_nat i) with (Z.of_nat (2 * i + k)) by lia. by apply H.
Qed.

Lemma shiftl_bit x (s : nat) j :
  Z.testbit (Z.shiftl x (2 * Z.of_nat s)) (Z.of_nat j) =
  bool_decide (2 * s ≤ j)%nat && Z.testbit x (Z.of_nat (j - 2 * s)).
Proof.
  rewrite Z.shiftl_spec by lia. case_bool_decide.
  - replace (Z.of_nat j - 2 * Z.of_nat s) with (Z.of_nat (j - 2 * s)) by lia. done.
  - apply Z.testbit_neg_r. lia.
Qed.

Lemma shiftl3_bit i j :
  Z.testbit (Z.shiftl 3 (2 * Z.of_nat i)) (Z.of_nat j) = bool_decide (2 * i ≤ j < 2 * i + 2)%nat.
Proof.
  rewrite shiftl_bit, three_bit. rewrite <- bool_decide_and. apply bool_decide_ext. lia.
Qed.

(** Writing position [p] into the two bits of cell [i]. *)
Lemma pos_at_write x i j p : (i < 4)%nat → (p < 4)%nat → (j < 4)%nat →
  pos_at (u8 (Z.lor (u8 (Z.land x (Z.lnot (Z.shiftl 3 (2 * Z.of_nat i)))))
                    (Z.shiftl (Z.of_nat p) (2 * Z.of_nat i)))) j =
  if decide (i = j) then p else pos_at x j.
Proof.
  intros Hi Hp Hj.
  assert (∀ k, Z.of_nat 2 ≤ Z.of_nat k → Z.testbit (Z.of_nat p) (Z.of_nat k) = false) as Hhigh.
  { intros k. apply testbit_high. change (2 ^ Z.of_nat 2) with 4. lia. }
  destruct (decide (i = j)) as [<-|Hne].
  - transitivity (pos_at (Z.shiftl (Z.of_nat p) (2 * Z.of_nat i)) i).
    + apply pos_at_ext. intros k Hk.
      rewrite uN_testbit, Z.lor_spec, uN_testbit, Z.land_spec, Z.lnot_spec, shiftl3_bit by lia.
      rewrite (bool_decide_true (2 * i ≤ _ < _)%nat) by lia. simpl negb.
      rewrite andb_false_r, andb_false_l, orb_false_l.
      by rewrite bool_decide_true, andb_true_r by lia.
    + unfold pos_at. rewrite Z.shiftr_shiftl_l, Z.sub_diag, Z.shiftl_0_r by lia.
      change 3 with (Z.ones 2). rewrite Z.land_ones, Z.mod_small by lia. lia.
  - apply pos_at_ext. intros k Hk.
    rewrite uN_testbit, Z.lor_spec, uN_testbit, Z.land_spec, Z.lnot_spec, shiftl3_bit, shiftl_bit by lia.
    rewrite (bool_decide_false (2 * i ≤ _ < _)%nat) by lia. simpl negb.
    rewrite (bool_decide_true (Z.of_nat (2 * j + k) < 8)), !andb_true_r by lia.
    case_bool_decide; simpl; [|by rewrite orb_false_r].
    rewrite Hhigh by lia. apply orb_false_r.
Qed.

(** Zeroing the two bits of cell [i]. *)
Lemma pos_at_clear x i j : (i < 4)%nat → (j < 4)%nat →
  pos_at (u8 (Z.land x (u32 (Z.lnot (Z.shiftl 3 (2 * Z.of_nat i)))))) j =
  if decide (i = j) then 0%nat else pos_at x j.
Proof.
  intros Hi Hj. transitivity (pos_at (if decide (i = j) then 0 else x) j);
    [|destruct (decide (i = j)); [unfold pos_at; by rewrite Z.shiftr_0_l|done]].
  apply pos_at_ext. intros k Hk.
  rewrite uN_testbit, Z.land_spec, uN_testbit, Z.lnot_spec, shiftl3_bit by lia.
  rewrite !(bool_decide_true (Z.of_nat _ < _)), !andb_true_r by lia.
  destruct (decide (i = j)) as [<-|].
  - rewrite bool_decide_true, andb_false_r, Z.testbit_0_l by lia. done.
  - rewrite bool_decide_false, andb_true_r by lia. done.
Qed.
End stash_bits.

Lemma refs_lookup b i : (i < kStashFpLen)%nat → refs b !! i = Some (ref_at b i).
Proof. intros Hi. unfold refs. by rewrite list_lookup_fmap, lookup_seq_lt. Qed.

Lemma refs_length b : length (refs b) = kStashFpLen.
Proof. done. Qed.

Lemma refs_lookup_some b i o : refs b !! i = Some o → (i < kStashFpLen)%nat ∧ o = ref_at b i.
Proof.
  intros H. assert (i < kStashFpLen)%nat by (rewrite <- (refs_length b); by eapply lookup_lt_Some).
  rewrite refs_lookup in H by done. split; congruence.
Qed.

Lemma elem_of_refs b r :
  Some r ∈ refs b ↔ ∃ i, (i < kStashFpLen)%nat ∧ ref_at b i = Some r.
Proof.
  unfold refs. rewrite list_elem_of_fmap. setoid_rewrite elem_of_seq.
  split; intros (i & Hi); exists i; intuition (auto; lia).
Qed.

(** Two reference lists are equal when their cells are. *)
Lemma refs_insert b b' i o : (i < kStashFpLen)%nat →
  (∀ j, (j < kStashFpLen)%nat → ref_at b' j = if decide (i = j) then o else ref_at b j) →
  refs b' = <[i := o]> (refs b).
Proof.
  intros Hi H. apply list_eq. intros j. destruct (decide (j < kStashFpLen)%nat) as [Hj|Hj].
  - rewrite refs_lookup, H by done. destruct (decide (i = j)) as [->|].
    + by rewrite list_lookup_insert_eq.
    + by rewrite list_lookup_insert_ne, refs_lookup.
  - rewrite !lookup_ge_None_2; rewrite ?length_insert, ?refs_length; [done|lia|lia].
Qed.

Lemma land1_test x : negb (Z.land x 1 =? 0) = Z.testbit x 0.
Proof.
  change 1 with (Z.ones 1) at 1. rewrite Z.land_ones by lia. change (2 ^ 1) with 2.
  rewrite Zmod_even, <- Z.negb_odd, Z.bit0_odd. by destruct (Z.odd x).
Qed.

Lemma stash_low_bit b i : stash_wf b → Z.testbit (stash_busy_ b) (Z.of_nat i) = true → (i < 5)%nat.
Proof.
  intros Hw Hb. apply Nat.nle_gt. intros Hge.
  rewrite (testbit_high _ 5) in Hb; [done| |lia]. apply Hw.
Qed.

Section iterate.
Context (b : BucketBase) (Hw : stash_wf b) (fp : Z) (p : bool).
Context (func : BucketBase → nat → nat → res (BucketBase * option nat)).
Context (Hfunc : ∀ i pos, (i < 4)%nat → (pos < 4)%nat →
                 runs (func b i pos) (λ '(b', o), o = None → b' = b)).

Let om := if p then stash_probe_mask_ b else u32 (Z.lnot (stash_probe_mask_ b)).

Lemma om_bit i : (i < 4)%nat →
  Z.testbit om (Z.of_nat i) = Bool.eqb p (Z.testbit (stash_probe_mask_ b) (Z.of_nat i)).
Proof.
  intros Hi. unfold om. destruct p; [by destruct (Z.testbit _ _)|].
  rewrite uN_testbit, Z.lnot_spec, bool_decide_true by lia. by destruct (Z.testbit _ _).
Qed.

Lemma ref_at_pos i fp' pos p' : ref_at b i = Some (fp', pos, p') → pos = pos_at (stash_pos_ b) i.
Proof. unfold ref_at. destruct (Z.testbit _ _), (stash_arr_ b !! i); simpl; congruence. Qed.

(** The guard of the loop at cell [i]. *)
Lemma iterate_guard i : (i < 4)%nat →
  runs (aget (stash_arr_ b) i) (λ sa,
    negb (Z.land (Z.shiftr (stash_busy_ b) (Z.of_nat i)) 1 =? 0) && (sa =? fp)
      && negb (Z.land (Z.shiftr om (Z.of_nat i)) 1 =? 0)
    = bool_decide (ref_at b i = Some (fp, pos_at (stash_pos_ b) i, p))).
Proof.
  intros Hi. destruct (lookup_lt_is_Some_2 (stash_arr_ b) i) as [sa Hsa]; [by rewrite (swf_arr _ Hw)|].
  rewrite (aget_some _ _ _ Hsa). apply runs_ok. unfold ref_at. rewrite Hsa. simpl.
  rewrite !land1_test, !Z.shiftr_spec, !Z.add_0_l, om_bit by lia.
  destruct (Z.testbit (stash_busy_ b) _); simpl; [|try case_bool_decide; done].
  destruct (Z.eqb_spec sa fp) as [->|Hne]; simpl; [|case_bool_decide; congruence].
  destruct (Bool.eqb p _) eqn:E.
  - apply eqb_prop in E as ->. by rewrite bool_decide_true.
  - rewrite bool_decide_false; [done|]. intros [= Hp]. by rewrite Hp, eqb_reflx in E.
Qed.

Definition iterate_post (i : nat) (r : BucketBase * option (nat * nat)) : Prop :=
  match r.2 with
  | Some (pos, s) => ∃ j, (j < 4)%nat ∧ ref_at b j = Some (fp, pos, p) ∧ func b j pos = Ok (r.1, Some s)
  | None => r.1 = b ∧ ∀ j pos, (i ≤ j < 4)%nat → ref_at b j = Some (fp, pos, p) → func b j pos = Ok (b, None)
  end.

Lemma iterate_loop_spec rest i : (rest + i = 4)%nat →
  runs (iterate_stash_loop rest i (Z.shiftr (stash_busy_ b) (Z.of_nat i))
          (Z.shiftr om (Z.of_nat i)) fp func b) (iterate_post i).
Proof.
  revert i. induction rest as [|rest IH]; intros i Hi; simpl.
  { apply runs_ok. split; [done|]. simpl. lia. }
  destruct (iterate_guard i) as (sa & -> & Hg); [lia|]. simpl. rewrite Hg.
  rewrite !Z.shiftr_shiftr by lia.
  replace (Z.of_nat i + 1) with (Z.of_nat (S i)) by lia.
  specialize (IH (S i) ltac:(lia)). case_bool_decide as Href.
  - fold (pos_at (stash_pos_ b) i).
    destruct (Hfunc i (pos_at (stash_pos_ b) i)) as ([b' o] & Hf & Ho); [lia|apply pos_at_lt|].
    rewrite Hf. simpl. destruct o as [s|].
    + apply runs_ok. exists i. split_and!; [lia|done|done].
    + rewrite (Ho eq_refl) in *. eapply runs_mono; [exact IH|]. intros [b1 [[pos1 s1]|]]; [done|].
      intros [Heq Hn]; simpl in Heq; subst b1. split; [done|]. intros j pos' Hj Hr. destruct (decide (i = j)) as [<-|].
      * pose proof (ref_at_pos _ _ _ _ Hr) as ->. done.
      * apply Hn; [lia|done].
  - eapply runs_mono; [exact IH|]. intros [b1 [[pos1 s1]|]]; [done|].
    intros [Heq Hn]; simpl in Heq; subst b1. split; [done|]. intros j pos' Hj Hr. destruct (decide (i = j)) as [<-|].
    + exfalso. pose proof (ref_at_pos _ _ _ _ Hr) as ->. done.
    + apply Hn; [lia|done].
Qed.
End iterate.

(** [b'] is [b] with reference cell [i] replaced by [o], nothing else changed. *)
Record stash_upd (b b' : BucketBase) (i : nat) (o : option ref) : Prop := {
  su_wf : stash_wf b';
  su_refs : refs b' = <[i := o]> (refs b);
  su_slotb : slotb_ b' = slotb_ b;
  su_finger : finger_arr_ b' = finger_arr_ b;
  su_present : present b' = present b;
  su_over : overflow_count_ b' = overflow_count_ b;
}.

Lemma ref_at_none b i : stash_wf b → (i < 4)%nat →
  ref_at b i = None → Z.testbit (stash_busy_ b) (Z.of_nat i) = false.
Proof.
  intros Hw Hi. unfold ref_at. destruct (Z.testbit _ _); [|done].
  destruct (lookup_lt_is_Some_2 (stash_arr_ b) i) as [x ->]; [by rewrite (swf_arr _ Hw)|done].
Qed.

Lemma ref_at_some b i : stash_wf b → (i < 4)%nat →
  Z.testbit (stash_busy_ b) (Z.of_nat i) = true → is_Some (ref_at b i).
Proof.
  intros Hw Hi. unfold ref_at. intros ->.
  destruct (lookup_lt_is_Some_2 (stash_arr_ b) i) as [x ->]; [by rewrite (swf_arr _ Hw)|]. simpl. eauto.
Qed.

Section words8.
Implicit Types (x : Z) (i j : nat).

Lemma lor8_bit x (q : bool) i j : 0 ≤ x < 256 → (i < 8)%nat →
  Z.testbit (u8 (Z.lor x (bit_at q i))) (Z.of_nat j) =
  Z.testbit x (Z.of_nat j) || (q && bool_decide (i = j)).
Proof.
  intros Hx Hi. rewrite uN_testbit, Z.lor_spec, bit_at_testbit by lia.
  destruct (decide (j < 8)%nat).
  - by rewrite (bool_decide_true (Z.of_nat j < 8)), andb_true_r by lia.
  - rewrite (bool_decide_false (Z.of_nat j < 8)), (bool_decide_false (i = j)) by lia.
    rewrite (testbit_high x 8); [by rewrite !andb_false_r|done|lia].
Qed.

Lemma clear8_bit x i j : 0 ≤ x < 256 →
  Z.testbit (u8 (Z.land x (u32 (Z.lnot (bit_at true i))))) (Z.of_nat j) =
  Z.testbit x (Z.of_nat j) && negb (bool_decide (i = j)).
Proof.
  intros Hx. rewrite uN_testbit, Z.land_spec, uN_testbit, Z.lnot_spec, bit_at_testbit by lia.
  rewrite andb_true_l. destruct (decide (j < 8)%nat).
  - by rewrite !(bool_decide_true (Z.of_nat j < _)), !andb_true_r by lia.
  - rewrite (testbit_high x 8); [done|done|lia].
Qed.

Lemma word8_range x (n : nat) : 0 ≤ x → (∀ i, (n ≤ i)%nat → Z.testbit x (Z.of_nat i) = false) →
  0 ≤ x < 2 ^ Z.of_nat n.
Proof. apply testbit_range. Qed.
End words8.

(** The words [SetStash] writes into a free cell [k]. *)
Lemma stash_write_upd b k fp pos p x : stash_wf b → (k < 4)%nat → (pos < 4)%nat →
  stash_arr_ b !! k = Some x → Z.testbit (stash_busy_ b) (Z.of_nat k) = false →
  stash_upd b (mkBase (slotb_ b) (finger_arr_ b) (<[k := fp]> (stash_arr_ b))
                 (u8 (Z.lor (stash_busy_ b) (bit_at true k)))
                 (u8 (Z.lor (u8 (Z.land (stash_pos_ b) (Z.lnot (Z.shiftl 3 (2 * Z.of_nat k)))))
                            (Z.shiftl (Z.of_nat pos) (2 * Z.of_nat k))))
                 (u8 (Z.lor (stash_probe_mask_ b) (bit_at p k))) (overflow_count_ b))
            k (Some (fp, pos, p)).
Proof.
  intros Hw Hk Hpos Hx Hfree. pose proof Hw as [Harr Hbusy Hp Hmask Hsub Hover].
  assert (Z.testbit (stash_probe_mask_ b) (Z.of_nat k) = false) as Hpm.
  { destruct (Z.testbit (stash_probe_mask_ b) _) eqn:E; [|done]. apply Hsub in E. congruence. }
  assert (0 ≤ stash_busy_ b < 256) by lia. assert (0 ≤ stash_probe_mask_ b < 256) by lia.
  split; [split|..]; cbn [stash_arr_ stash_busy_ stash_pos_ stash_probe_mask_ overflow_count_]; try done.
  - by rewrite length_insert.
  - apply (word8_range _ 5); [apply uN_range; lia|]. intros i Hi.
    rewrite lor8_bit, (testbit_high _ 5), bool_decide_false by (done || lia). done.
  - apply uN_range. lia.
  - apply (word8_range _ 4); [apply uN_range; lia|]. intros i Hi.
    rewrite lor8_bit, (testbit_high _ 4), bool_decide_false, andb_false_r by (done || lia). done.
  - intros i. rewrite !lor8_bit by (done || lia). intros [Hi|[_ Hi]%andb_true_iff]%orb_true_iff.
    + by rewrite Hsub.
    + by rewrite Hi, orb_true_r.
  - apply refs_insert; [done|]. intros j Hj. unfold ref_at; simpl.
    rewrite !lor8_bit, pos_at_write by (done || unfold kStashFpLen in *; lia).
    destruct (decide (k = j)) as [<-|Hne].
    + rewrite bool_decide_true, orb_true_r, list_lookup_insert_eq, Hpm by (done || by eapply lookup_lt_Some).
      simpl. by rewrite andb_true_r.
    + rewrite bool_decide_false, !andb_false_r, !orb_false_r, list_lookup_insert_ne by done. done.
  - unfold present; cbn [stash_busy_]. change 4 with (Z.of_nat 4).
    rewrite lor8_bit, bool_decide_false, orb_false_r by (done || lia). done.
Qed.

Lemma SetStash_spec b fp pos p : stash_wf b → (pos < 4)%nat →
  runs (SetStash b fp pos p) (λ '(b', ok),
    if ok : bool
    then ∃ i, (i < 4)%nat ∧ refs b !! i = Some None ∧ stash_upd b b' i (Some (fp, pos, p))
    else b' = b ∧ ∀ i, (i < 4)%nat → is_Some (ref_at b i)).
Proof.
  intros Hw Hpos. unfold SetStash. set (m := u32 (Z.lnot (stash_busy_ b))).
  assert (∀ i, (i < 32)%nat → Z.testbit m (Z.of_nat i) = negb (Z.testbit (stash_busy_ b) (Z.of_nat i))) as Hm.
  { intros i Hi. unfold m. by rewrite uN_testbit, Z.lnot_spec, bool_decide_true, andb_true_r by lia. }
  assert (0 < m) as Hm0.
  { assert (Z.testbit m (Z.of_nat 5) = true) as H5
      by (rewrite Hm, (testbit_high _ 5) by (apply Hw || lia); done).
    assert (0 ≤ m) by (apply uN_range; lia).
    destruct (decide (m = 0)) as [E|]; [by rewrite E, Z.testbit_0_l in H5|lia]. }
  destruct (ctz_spec m Hm0) as (k & -> & Hk1 & Hk2). rewrite bind_ok.
  destruct (Nat.leb_spec kStashFpLen k) as [Hge|Hlt].
  - apply runs_ok. split; [done|]. intros i Hi. apply ref_at_some; [done..|].
    specialize (Hk2 i ltac:(unfold kStashFpLen in *; lia)). rewrite Hm in Hk2 by lia.
    by apply negb_false_iff in Hk2.
  - unfold kStashFpLen in *. rewrite Hm in Hk1 by lia. apply negb_true_iff in Hk1.
    destruct (lookup_lt_is_Some_2 (stash_arr_ b) k) as [x Hx]; [by rewrite (swf_arr _ Hw)|].
    rewrite (aset_some _ _ _ _ Hx), bind_ok. apply runs_ok. exists k. split; [done|]. split.
    + rewrite refs_lookup by done. unfold ref_at. by rewrite Hk1.
    + by eapply stash_write_upd.
Qed.

(** The words the callback of [ClearStash] writes. *)
Lemma stash_clear_upd b k : stash_wf b → (k < 4)%nat →
  stash_upd b (mkBase (slotb_ b) (finger_arr_ b) (stash_arr_ b)
                 (u8 (Z.land (stash_busy_ b) (u32 (Z.lnot (bit_at true k)))))
                 (u8 (Z.land (stash_pos_ b) (u32 (Z.lnot (Z.shiftl 3 (2 * Z.of_nat k))))))
                 (u8 (Z.land (stash_probe_mask_ b) (u32 (Z.lnot (bit_at true k))))) (overflow_count_ b))
            k None.
Proof.
  intros Hw Hk. pose proof Hw as [Harr Hbusy Hp Hmask Hsub Hover].
  assert (0 ≤ stash_busy_ b < 256) by lia. assert (0 ≤ stash_probe_mask_ b < 256) by lia.
  split; [split|..]; cbn [stash_arr_ stash_busy_ stash_pos_ stash_probe_mask_ overflow_count_]; try done.
  - apply (word8_range _ 5); [apply uN_range; lia|]. intros i Hi.
    by rewrite clear8_bit, (testbit_high _ 5) by (done || lia).
  - apply uN_range. lia.
  - apply (word8_range _ 4); [apply uN_range; lia|]. intros i Hi.
    by rewrite clear8_bit, (testbit_high _ 4) by (done || lia).
  - intros i. rewrite !clear8_bit by (done || lia). intros [Hi Hne]%andb_true_iff.
    by rewrite Hsub, Hne.
  - apply refs_insert; [done|]. intros j Hj. unfold ref_at.
    cbn [stash_arr_ stash_busy_ stash_pos_ stash_probe_mask_ overflow_count_].
    rewrite !clear8_bit, pos_at_clear by (done || unfold kStashFpLen in *; lia).
    destruct (decide (k = j)) as [<-|Hne].
    + by rewrite bool_decide_true, andb_false_r by done.
    + by rewrite bool_decide_false, !andb_true_r by done.
  - unfold present; cbn [stash_busy_]. change 4 with (Z.of_nat 4).
    by rewrite clear8_bit, bool_decide_false, andb_true_r by (done || lia).
Qed.

Lemma clear_stash_cb_spec b pos i pos' : stash_wf b → (i < 4)%nat →
  runs (clear_stash_cb pos b i pos') (λ '(b', o),
    if decide (pos' = pos) then o = Some 0%nat ∧ stash_upd b b' i None else o = None ∧ b' = b).
Proof.
  intros Hw Hi. unfold clear_stash_cb. destruct (Nat.eqb_spec pos' pos) as [->|Hne].
  - rewrite cassert_true.
    + rewrite bind_ok. apply runs_ok. rewrite decide_True by done. split; [done|].
      by apply stash_clear_upd.
    + pose proof (pos_at_clear (stash_pos_ b) i i Hi Hi) as Hc. rewrite decide_True in Hc by done.
      unfold pos_at in Hc. apply Z.eqb_eq.
      assert (0 ≤ Z.land (Z.shiftr (u8 (Z.land (stash_pos_ b) (u32 (Z.lnot (Z.shiftl 3 (2 * Z.of_nat i))))))
                           (2 * Z.of_nat i)) 3) by (apply Z.land_nonneg; lia). lia.
  - apply runs_ok. by rewrite decide_False.
Qed.

(** [ClearStash] removes one matching reference, or finds that there is none. *)
Lemma ClearStash_spec b fp pos p : stash_wf b →
  runs (ClearStash b fp pos p) (λ '(b', ok),
    if ok : bool
    then ∃ i, refs b !! i = Some (Some (fp, pos, p)) ∧ stash_upd b b' i None
    else b' = b ∧ Some (fp, pos, p) ∉ refs b).
Proof.
  intros Hw. unfold ClearStash, IterateStash.
  pose proof (iterate_loop_spec b Hw fp p (clear_stash_cb pos)) as Hloop.
  rbind Hloop.
  - intros i pos' Hi _. eapply runs_mono; [by apply clear_stash_cb_spec|].
    intros [b' o]. case_decide; [by intros [-> _]|by intros [_ ->]].
  - done.
  - intros [b' [[pos' s]|]]; unfold iterate_post; simpl.
    + intros (j & Hj & Href & Hf). apply runs_ok. exists j.
      pose proof (clear_stash_cb_spec b pos j pos' Hw Hj) as Hcb.
      apply (runs_inv _ _ _ Hcb) in Hf. rewrite refs_lookup, Href by done.
      case_decide; [subst pos'|by destruct Hf]. split; [done|apply Hf].
    + intros [-> Hn]. apply runs_ok. split; [done|]. rewrite elem_of_refs. intros (j & Hj & Href).
      pose proof (clear_stash_cb_spec b pos j pos Hw Hj) as Hcb.
      specialize (Hn j pos ltac:(unfold kStashFpLen in *; lia) Href).
      apply (runs_inv _ _ _ Hcb) in Hn. simpl in Hn. rewrite decide_True in Hn by done. by destruct Hn.
Qed.

(** * Accounting of stash references

    The references held by a bucket on behalf of its own entries
    ([p = false]) or of the previous bucket's entries ([p = true]). *)
Definition ref_item (p : bool) (o : option ref) : option (Z * nat) :=
  match o with
  | Some (fp, pos, q) => if Bool.eqb p q then Some (fp, pos) else None
  | None => None
  end.
Definition refs_of (p : bool) (b : BucketBase) : list (Z * nat) := omap (ref_item p) (refs b).

(** [items] are the entries of bucket [this] that live in the stash, each as
    its fingerprint and its stash bucket. They are referenced from [this] and
    from [next]; those that found no free cell are only counted. *)
Definition acct (this next : BucketBase) (items : list (Z * nat)) : Prop :=
  ∃ ov, items ≡ₚ refs_of false this ++ refs_of true next ++ ov ∧
        Z.of_nat (length ov) = overflow_count_ this ∧
        (present this = true ↔ items ≠ []).

(** What an update of the references of [this] leaves for the other buckets:
    [this] keeps the references it holds for its predecessor, [next] keeps its
    own accounting, and neither changes its slots. *)
Record frame (this this' next next' : BucketBase) : Prop := {
  fr_wf : stash_wf this';
  fr_wf_next : stash_wf next';
  fr_slotb : slotb_ this' = slotb_ this;
  fr_finger : finger_arr_ this' = finger_arr_ this;
  fr_slotb_next : slotb_ next' = slotb_ next;
  fr_finger_next : finger_arr_ next' = finger_arr_ next;
  fr_refs : refs_of true this' ≡ₚ refs_of true this;
  fr_refs_next : refs_of false next' ≡ₚ refs_of false next;
  fr_over_next : overflow_count_ next' = overflow_count_ next;
  fr_present_next : present next' = present next;
}.

#[export] Instance acct_proper this next : Proper ((≡ₚ) ==> iff) (acct this next).
Proof.
  assert (∀ l l', l ≡ₚ l' → acct this next l → acct this next l') as H.
  { intros l l' Hl (ov & Hp & Ho & Hpr). exists ov. split_and!; [by rewrite <- Hl|done|].
    rewrite Hpr. split; intros Hne ->; apply Hne; [by apply Permutation_nil_r in Hl|by apply Permutation_nil_l in Hl]. }
  intros l l' Hl. split; apply H; done.
Qed.

Lemma stash_upd_refs_of b b' i o o' p : stash_upd b b' i o → refs b !! i = Some o' →
  option_list (ref_item p o) ++ refs_of p b ≡ₚ option_list (ref_item p o') ++ refs_of p b'.
Proof. intros Hu Hi. unfold refs_of. rewrite (su_refs _ _ _ _ Hu). by apply omap_insert_perm. Qed.

Lemma set_busy_frame b x (Hw : stash_wf b) : 0 ≤ x < 32 →
  (∀ i, (i < 4)%nat → Z.testbit x (Z.of_nat i) = Z.testbit (stash_busy_ b) (Z.of_nat i)) →
  stash_wf (set_stash_busy b x) ∧ refs (set_stash_busy b x) = refs b.
Proof.
  intros Hx Hbits. destruct Hw as [Harr Hbusy Hp Hmask Hsub Hover]. split.
  - split; cbn [set_stash_busy stash_arr_ stash_busy_ stash_pos_ stash_probe_mask_ overflow_count_]; try done.
    intros i Hi. assert (i < 4)%nat.
    { apply Nat.nle_gt. intros Hge. rewrite (testbit_high _ 4) in Hi by (done || lia). done. }
    rewrite Hbits by done. by apply Hsub.
  - unfold refs. apply list_fmap_ext. intros k i Hi. apply lookup_seq in Hi as [-> Hk].
    unfold ref_at; cbn. by rewrite Hbits by (unfold kStashFpLen in Hk; lia).
Qed.

Lemma set_over_frame b x (Hw : stash_wf b) : 0 ≤ x < 256 →
  stash_wf (set_overflow b x) ∧ refs (set_overflow b x) = refs b.
Proof. intros Hx. destruct Hw. split; [split; done|done]. Qed.

(** [stash_busy_ |= kStashPresentBit] *)
Lemma set_present b : stash_wf b →
  let b' := set_stash_busy b (u8 (Z.lor (stash_busy_ b) kStashPresentBit)) in
  stash_wf b' ∧ refs b' = refs b ∧ present b' = true.
Proof.
  intros Hw. change kStashPresentBit with (bit_at true 4). pose proof (swf_busy _ Hw) as Hb.
  assert (∀ j, Z.testbit (u8 (Z.lor (stash_busy_ b) (bit_at true 4))) (Z.of_nat j) =
               Z.testbit (stash_busy_ b) (Z.of_nat j) || (true && bool_decide (4%nat = j))) as Hbit
    by (intros j; apply lor8_bit; lia).
  cbv zeta. destruct (set_busy_frame b (u8 (Z.lor (stash_busy_ b) (bit_at true 4))) Hw) as [Hw' Hr].
  - apply (word8_range _ 5); [apply uN_range; lia|]. intros i Hi.
    rewrite Hbit, (testbit_high _ 5), bool_decide_false by (done || lia). done.
  - intros i Hi. rewrite Hbit, bool_decide_false by lia. by rewrite orb_false_r.
  - split_and!; [done..|]. unfold present; cbn [set_stash_busy stash_busy_].
    change 4 with (Z.of_nat 4). rewrite Hbit, bool_decide_true by done. by rewrite orb_true_r.
Qed.

Lemma acct_overflow_bound this next items :
  acct this next items → (length items < 255)%nat → overflow_count_ this < 255.
Proof.
  intros (ov & Hp & Ho & _) Hl. apply Permutation_length in Hp. rewrite !length_app in Hp. lia.
Qed.

Lemma stash_upd_frame_this b b' next i o o' : stash_wf next → stash_upd b b' i o → refs b !! i = Some o' →
  ref_item true o = ref_item true o' → frame b b' next next.
Proof.
  intros Hwn Hu Hi Heq. pose proof (stash_upd_refs_of _ _ _ _ _ true Hu Hi) as Hp.
  rewrite Heq in Hp. apply Permutation_app_inv_l in Hp. by destruct Hu.
Qed.

Lemma stash_upd_frame_next this b b' i o o' : stash_wf this → stash_upd b b' i o → refs b !! i = Some o' →
  ref_item false o = ref_item false o' → frame this this b b'.
Proof.
  intros Hwt Hu Hi Heq. pose proof (stash_upd_refs_of _ _ _ _ _ false Hu Hi) as Hp.
  rewrite Heq in Hp. apply Permutation_app_inv_l in Hp. by destruct Hu.
Qed.

(** The frame survives a change of [this] that keeps its references. *)
Lemma frame_this this this' this'' next next' :
  frame this this' next next' → stash_wf this'' → refs this'' = refs this' →
  slotb_ this'' = slotb_ this' → finger_arr_ this'' = finger_arr_ this' →
  frame this this'' next next'.
Proof.
  intros [] Hw Hr Hs Hf. split; try done; try congruence.
  unfold refs_of in *. by rewrite Hr.
Qed.

Lemma frame_refl this next : stash_wf this → stash_wf next → frame this this next next.
Proof. intros. by split. Qed.

(** The three ways [SetStashPtr] records a reference. *)
Lemma SetStashPtr_step this pos fp next : stash_wf this → stash_wf next → (pos < 4)%nat →
  0 ≤ overflow_count_ this < 255 →
  runs (SetStashPtr this pos fp next) (λ '(this', next'),
    frame this this' next next' ∧ present this' = true ∧
    (refs_of false this' ≡ₚ (fp, pos) :: refs_of false this ∧
       refs_of true next' ≡ₚ refs_of true next ∧ overflow_count_ this' = overflow_count_ this ∨
     refs_of false this' ≡ₚ refs_of false this ∧
       refs_of true next' ≡ₚ (fp, pos) :: refs_of true next ∧ overflow_count_ this' = overflow_count_ this ∨
     refs_of false this' ≡ₚ refs_of false this ∧
       refs_of true next' ≡ₚ refs_of true next ∧ overflow_count_ this' = overflow_count_ this + 1)).
Proof.
  intros Hw Hwn Hpos Hov. unfold SetStashPtr. rewrite cassert_true, bind_ok by by apply Nat.ltb_lt.
  rbind (SetStash_spec this fp pos false Hw Hpos). intros [t1 [|]].
  - intros (i & Hi & Hfree & Hu). rewrite bind_ok. apply runs_ok.
    destruct (set_present t1 (su_wf _ _ _ _ Hu)) as (Hw' & Hr & Hpr).
    pose proof (stash_upd_refs_of _ _ _ _ _ false Hu Hfree) as Hp. simpl in Hp.
    split_and!; [|done|].
    + by eapply frame_this; [eapply stash_upd_frame_this|..].
    + left. unfold refs_of at 1. rewrite Hr. split_and!; [done|done|apply Hu].
  - intros [-> _]. apply (runs_bind _ _ (λ '(t', n'), frame this t' next n' ∧ refs t' = refs this ∧
      (refs_of true n' ≡ₚ (fp, pos) :: refs_of true next ∧ overflow_count_ t' = overflow_count_ this ∨
       refs_of true n' ≡ₚ refs_of true next ∧ overflow_count_ t' = overflow_count_ this + 1))).
    + rbind (SetStash_spec next fp pos true Hwn Hpos). intros [n1 [|]]; intros Hpost; apply runs_ok.
      * destruct Hpost as (i & Hi & Hfree & Hu). split_and!; [by eapply stash_upd_frame_next|done|].
        left. split; [|done]. symmetry. by apply (stash_upd_refs_of _ _ _ _ _ true Hu Hfree).
      * destruct Hpost as [-> _]. rewrite uN_small by lia.
        destruct (set_over_frame this (overflow_count_ this + 1) Hw) as [Hw' Hr]; [lia|].
        split_and!; [|done|by right]. by eapply frame_this; [apply frame_refl|..].
    + intros [t2 n2] (Hfr & Hr2 & Hcase). apply runs_ok.
      destruct (set_present t2 (fr_wf _ _ _ _ Hfr)) as (Hw' & Hr & Hpr).
      split_and!; [by eapply frame_this|done|]. right.
      assert (∀ x, refs x = refs t2 → refs_of false x = refs_of false this) as E
        by (intros x Hx; unfold refs_of; by rewrite Hx, Hr2).
      rewrite !(E _ Hr). destruct Hcase as [[]|[]]; [left|right]; split_and!; done.
Qed.

(** [SetStashPtr] accounts for one more entry of [this] in stash bucket [pos]. *)
Lemma SetStashPtr_spec this pos fp next items : stash_wf this → stash_wf next → (pos < 4)%nat →
  acct this next items → (length items < 255)%nat →
  runs (SetStashPtr this pos fp next) (λ '(this', next'),
    frame this this' next next' ∧ acct this' next' ((fp, pos) :: items)).
Proof.
  intros Hw Hwn Hpos Hacct Hlen. pose proof (acct_overflow_bound _ _ _ Hacct Hlen) as Hov.
  pose proof (swf_over _ Hw). eapply runs_mono; [apply SetStashPtr_step; done || lia|].
  intros [t' n'] (Hfr & Hpr & Hcase). split; [done|].
  destruct Hacct as (ov & Hp & Ho & _).
  destruct Hcase as [(H1 & H2 & H3)|[(H1 & H2 & H3)|(H1 & H2 & H3)]].
  - exists ov. split_and!; [by rewrite H1, H2, Hp|lia|done].
  - exists ov. split_and!; [|lia|done]. rewrite H1, H2, Hp. simpl. by rewrite <- Permutation_middle.
  - exists ((fp, pos) :: ov). split_and!; [|simpl; lia|done]. rewrite H1, H2, Hp.
    by rewrite !app_assoc, <- Permutation_middle.
Qed.

(** ** [UnsetStashPtr] *)

Lemma refs_of_nil p b : refs_of p b = [] ↔ ∀ i r, (i < 4)%nat → ref_at b i = Some r → r.2 ≠ p.
Proof.
  split.
  - intros Hnil i [[fp pos] q] Hi Hr Hq. simpl in Hq. subst q.
    assert ((fp, pos) ∈ refs_of p b) as Hin; [|rewrite Hnil in Hin; by apply elem_of_nil in Hin].
    apply list_elem_of_omap. exists (Some (fp, pos, p)). split; [apply elem_of_refs; eauto|].
    simpl. by rewrite eqb_reflx.
  - intros H. destruct (refs_of p b) as [|x l] eqn:E; [done|]. exfalso.
    assert (x ∈ refs_of p b) as Hin by (rewrite E; left).
    apply list_elem_of_omap in Hin as ([[[fp pos] q]|] & Hr & Hq); [|done]. simpl in Hq.
    destruct (Bool.eqb p q) eqn:Eq; [|done]. apply eqb_prop in Eq as ->.
    apply elem_of_refs in Hr as (i & Hi & Hr). by apply (H i (fp, pos, q)) in Hr.
Qed.

(** The tests of [UnsetStashPtr] on the masks. *)
Lemma mask_nil (b : BucketBase) (p : bool) (m : Z) : stash_wf b → 0 ≤ m →
  (∀ i, (i < 4)%nat → Z.testbit m (Z.of_nat i) = Bool.eqb p (Z.testbit (stash_probe_mask_ b) (Z.of_nat i))) →
  (Z.land (Z.land (stash_busy_ b) (kStashPresentBit - 1)) m =? 0) = bool_decide (refs_of p b = []).
Proof.
  intros Hw Hm Hbits. change (kStashPresentBit - 1) with (Z.ones 4).
  set (x := Z.land _ m).
  assert (∀ i, Z.testbit x (Z.of_nat i) = bool_decide (i < 4)%nat &&
                 (Z.testbit (stash_busy_ b) (Z.of_nat i) && Z.testbit m (Z.of_nat i))) as Hx.
  { intros i. unfold x. rewrite !Z.land_spec, ones_testbit by lia.
    replace (bool_decide (Z.of_nat i < 4)) with (bool_decide (i < 4)%nat) by (apply bool_decide_ext; lia).
    by rewrite (andb_comm (Z.testbit _ _) (bool_decide _)), andb_assoc. }
  assert (0 ≤ x) as Hx0 by (apply Z.land_nonneg; right; done).
  case_bool_decide as Hnil.
  - apply Z.eqb_eq, zero_bits; [done|]. intros i. rewrite Hx. case_bool_decide as Hi; [|done].
    destruct (Z.testbit (stash_busy_ b) (Z.of_nat i)) eqn:Eb; [|done]. rewrite Hbits by done. simpl.
    destruct (ref_at_some b i Hw Hi Eb) as [r Hr]. pose proof (proj1 (refs_of_nil _ _) Hnil i r Hi Hr) as Hq.
    unfold ref_at in Hr. rewrite Eb in Hr. destruct (stash_arr_ b !! i); [|done].
    injection Hr as <-. simpl in Hq. destruct (Bool.eqb p _) eqn:Eq; [|done].
    apply eqb_prop in Eq. congruence.
  - apply Z.eqb_neq. intros E. apply Hnil, refs_of_nil. intros i r Hi Hr Hq.
    assert (Z.testbit x (Z.of_nat i) = false) as Hf by by rewrite E, Z.testbit_0_l.
    rewrite Hx, bool_decide_true, Hbits in Hf by done. unfold ref_at in Hr.
    destruct (Z.testbit (stash_busy_ b) _); [|done]. destruct (stash_arr_ b !! i); [|done].
    injection Hr as <-. simpl in Hq. subst p. by rewrite eqb_reflx in Hf.
Qed.

Lemma own_mask_nil b : stash_wf b →
  (Z.land (Z.land (stash_busy_ b) (kStashPresentBit - 1)) (u32 (Z.lnot (stash_probe_mask_ b))) =? 0)
  = bool_decide (refs_of false b = []).
Proof.
  intros Hw. apply mask_nil; [done|apply uN_range; lia|]. intros i Hi.
  rewrite uN_testbit, Z.lnot_spec, bool_decide_true by lia. by destruct (Z.testbit _ _).
Qed.

Lemma probe_mask_nil b : stash_wf b →
  (Z.land (Z.land (stash_busy_ b) (kStashPresentBit - 1)) (stash_probe_mask_ b) =? 0)
  = bool_decide (refs_of true b = []).
Proof. intros Hw. apply mask_nil; [done|apply Hw|]. intros i Hi. by destruct (Z.testbit _ _). Qed.

(** [stash_busy_ &= ~kStashPresentBit] *)
Lemma clear_present b : stash_wf b →
  let b' := set_stash_busy b (u8 (Z.land (stash_busy_ b) (u32 (Z.lnot kStashPresentBit)))) in
  stash_wf b' ∧ refs b' = refs b ∧ present b' = false.
Proof.
  intros Hw. change kStashPresentBit with (bit_at true 4). pose proof (swf_busy _ Hw) as Hb.
  assert (∀ j, Z.testbit (u8 (Z.land (stash_busy_ b) (u32 (Z.lnot (bit_at true 4))))) (Z.of_nat j) =
               Z.testbit (stash_busy_ b) (Z.of_nat j) && negb (bool_decide (4%nat = j))) as Hbit
    by (intros j; apply clear8_bit; lia).
  cbv zeta. edestruct (set_busy_frame b) as [Hw' Hr]; [done| | |split_and!; [exact Hw'|exact Hr|]].
  - apply (word8_range _ 5); [apply uN_range; lia|]. intros i Hi.
    by rewrite Hbit, (testbit_high _ 5) by (done || lia).
  - intros i Hi. rewrite Hbit, bool_decide_false by lia. by rewrite andb_true_r.
  - unfold present; cbn [set_stash_busy stash_busy_].
    change 4 with (Z.of_nat 4). rewrite Hbit, bool_decide_true by done. by rewrite andb_false_r.
Qed.

Lemma stash_upd_remove b b' i fp pos p :
  stash_upd b b' i None → refs b !! i = Some (Some (fp, pos, p)) →
  refs_of p b ≡ₚ (fp, pos) :: refs_of p b'.
Proof.
  intros Hu Hi. pose proof (stash_upd_refs_of _ _ _ _ _ p Hu Hi) as Hp.
  simpl in Hp. by rewrite eqb_reflx in Hp.
Qed.

Lemma not_in_refs_of b fp pos p : Some (fp, pos, p) ∉ refs b → (fp, pos) ∉ refs_of p b.
Proof.
  intros Hn Hin. apply Hn. apply list_elem_of_omap in Hin as ([[[fp' pos'] q]|] & Hr & Hq); [|done].
  simpl in Hq. destruct (Bool.eqb p q) eqn:E; [|done]. apply eqb_prop in E as ->. by injection Hq as -> ->.
Qed.

(** What remains of the accounting once the entry's reference is gone: all of
    [acct] but the present bit. *)
Definition acct_refs (this next : BucketBase) (items : list (Z * nat)) : Prop :=
  ∃ ov, items ≡ₚ refs_of false this ++ refs_of true next ++ ov ∧
        Z.of_nat (length ov) = overflow_count_ this.

(** The last test of [UnsetStashPtr] drops the present bit when the last
    reference is gone. *)
Lemma acct_present_update this next items (this1 this' next' : BucketBase) :
  frame this this' next next' → present this' = true → acct_refs this' next' items →
  this1 = (if (Z.land (Z.land (stash_busy_ this') (kStashPresentBit - 1)) (u32 (Z.lnot (stash_probe_mask_ this'))) =? 0)
        && (overflow_count_ this' =? 0)
        && (Z.land (Z.land (stash_busy_ next') (kStashPresentBit - 1)) (stash_probe_mask_ next') =? 0)
     then set_stash_busy this' (u8 (Z.land (stash_busy_ this') (u32 (Z.lnot kStashPresentBit))))
     else this') →
  frame this this1 next next' ∧ acct this1 next' items.
Proof.
  intros Hfr Hpr (ov & Hp & Ho) ->. pose proof (fr_wf _ _ _ _ Hfr) as Hw.
  rewrite own_mask_nil, probe_mask_nil by apply Hfr.
  destruct (clear_present this' Hw) as (Hw' & Hr & Hpr').
  destruct (bool_decide_reflect (refs_of false this' = [])) as [E1|E1]; simpl.
  destruct (Z.eqb_spec (overflow_count_ this') 0) as [E2|E2]; simpl.
  destruct (bool_decide_reflect (refs_of true next' = [])) as [E3|E3]; simpl.
  { destruct ov; [|simpl in *; lia]. rewrite E1, E3 in Hp. apply Permutation_nil_r in Hp as ->.
    split; [by eapply frame_this|]. exists []. unfold refs_of at 1. rewrite Hr. fold (refs_of false this').
    rewrite E1, E3, Hpr'. split_and!; [done..|]. split; congruence. }
  all: split; [done|]; exists ov; split_and!; [done..|]; split; [intros _ ->|done];
    apply Permutation_nil_l in Hp; symmetry in Hp; apply app_nil in Hp as [? Hp]; apply app_nil in Hp as [? ->]; auto.
Qed.

(** [UnsetStashPtr] removes one reference to an entry of [this] in stash bucket
    [pos] with fingerprint [fp]; its assertion holds because the entry is
    accounted for. *)
Lemma UnsetStashPtr_spec this fp pos next items : stash_wf this → stash_wf next →
  acct this next ((fp, pos) :: items) →
  runs (UnsetStashPtr this fp pos next) (λ '(this', next', _),
    frame this this' next next' ∧ acct this' next' items).
Proof.
  intros Hw Hwn (ov & Hp & Ho & Hpr). assert (present this = true) as Hpt by by apply Hpr.
  unfold UnsetStashPtr. rbind (ClearStash_spec this fp pos false Hw). intros [t1 [|]].
  { intros (i & Hi & Hu). rewrite !bind_ok. apply runs_ok.
    apply (acct_present_update _ _ _ _ t1 next); [by eapply stash_upd_frame_this| |..|done].
    - by rewrite (su_present _ _ _ _ Hu).
    - exists ov. rewrite (su_over _ _ _ _ Hu). split; [|done].
      rewrite (stash_upd_remove _ _ _ _ _ _ Hu Hi) in Hp. by apply Permutation_cons_inv in Hp. }
  intros [-> Hno1]. apply not_in_refs_of in Hno1.
  eapply runs_bind; [rbind (ClearStash_spec next fp pos true Hwn)|].
  { instantiate (1 := λ '(n', cs, _), frame this this next n' ∧
      if cs : bool then acct_refs this n' items else n' = next ∧ (fp, pos) ∉ refs_of true next).
    intros [n1 [|]]; intros Hpost; apply runs_ok.
    - destruct Hpost as (i & Hi & Hu). split; [by eapply stash_upd_frame_next|].
      exists ov. split; [|done]. rewrite (stash_upd_remove _ _ _ _ _ _ Hu Hi) in Hp. simpl in Hp.
      rewrite <- Permutation_middle in Hp. by apply Permutation_cons_inv in Hp.
    - destruct Hpost as [-> Hno2]. split; [by apply frame_refl|]. split; [done|by apply not_in_refs_of]. }
  intros [[n1 [|]] r] [Hfr Hpost].
  { rewrite bind_ok. apply runs_ok. by apply (acct_present_update _ _ _ _ this n1). }
  destruct Hpost as [-> Hno2].
  assert ((fp, pos) ∈ ov) as Hin.
  { assert ((fp, pos) ∈ refs_of false this ++ refs_of true next ++ ov) as Hin by (rewrite <- Hp; left).
    rewrite !elem_of_app in Hin. destruct Hin as [?|[?|?]]; done. }
  apply elem_of_Permutation in Hin as (ov' & Hov).
  assert (length ov = S (length ov')) as Hlen by by rewrite Hov.
  rewrite cassert_true, !bind_ok by (apply Z.ltb_lt; lia). apply runs_ok.
  pose proof (swf_over _ Hw). rewrite uN_small by lia.
  destruct (set_over_frame this (overflow_count_ this - 1) Hw) as [Hw' Hr]; [lia|].
  apply (acct_present_update _ _ _ _ (set_overflow this (overflow_count_ this - 1)) next); [|done| |done].
  - by eapply frame_this; [apply frame_refl|..].
  - exists ov'. split; [|simpl; lia]. rewrite Hov, !app_assoc in Hp.
    rewrite <- Permutation_middle in Hp. apply Permutation_cons_inv in Hp. by rewrite app_assoc.
Qed.

(** * Fingerprint search *)

(** The slot half of the invariant of a bucket. *)
Record base_wf (n : nat) (b : BucketBase) : Prop := {
  bwf_slots : SlotBitmap.wf n (slotb_ b);
  bwf_finger : length (finger_arr_ b) = n;
  bwf_stash : stash_wf b;
}.

Lemma movemask_bit l i : Z.testbit (movemask l) (Z.of_nat i) = default false (l !! i).
Proof.
  revert i. induction l as [|x l IH]; intros i; simpl movemask; [apply Z.testbit_0_l|].
  destruct i as [|i]; simpl lookup.
  - apply Z.add_b2z_double_bit0.
  - rewrite Nat2Z.inj_succ.
    rewrite <- Z.div2_bits by lia.
    replace ((Z.b2z x + 2 * movemask l) / 2) with (movemask l); [apply IH|].
    rewrite Z.mul_comm, Z.div_add by lia. by destruct x.
Qed.

Lemma movemask_nonneg l : 0 ≤ movemask l.
Proof. induction l as [|x l IH]; simpl; [done|]. destruct x; simpl Z.b2z; lia. Qed.

(** [Find] selects exactly the occupied slots with the fingerprint and the
    probe flag, although the vector comparison reads 16 bytes. *)
Lemma Find_bit n b fp p i : (0 < n ≤ 16)%nat → base_wf n b →
  Z.testbit (Find n b fp p) (Z.of_nat i) =
  bool_decide (i < n)%nat && busy_bit (slotb_ b) i && Bool.eqb p (probe_bit (slotb_ b) i)
    && bool_decide (finger_arr_ b !! i = Some fp).
Proof.
  intros Hn [Hs Hf _]. unfold Find, CompareFP, GetBusy, GetProbe.
  rewrite !Z.land_spec, movemask_bit, SlotBitmap.GetProbe_bit by lia.
  change (Z.testbit (SlotBitmap.GetBusy (slotb_ b)) (Z.of_nat i)) with (busy_bit (slotb_ b) i).
  case_bool_decide as Hi; [|by rewrite andb_false_r].
  destruct (lookup_lt_is_Some_2 (finger_arr_ b) i) as [x Hx]; [by rewrite Hf|].
  rewrite list_lookup_fmap. unfold load16. rewrite lookup_take_lt by lia.
  rewrite lookup_app_l, Hx by lia. simpl.
  destruct (Z.eqb_spec x fp) as [->|Hne].
  - rewrite (bool_decide_true (Some fp = Some fp)) by done.
    by destruct (busy_bit _ _), (Bool.eqb _ _).
  - rewrite bool_decide_false by congruence. by rewrite andb_false_r.
Qed.

Lemma Find_nonneg n b fp p : 0 ≤ Find n b fp p.
Proof. unfold Find. apply Z.land_nonneg. left. apply Z.land_nonneg. left. apply movemask_nonneg. Qed.
