(* ===== verification/Bucket.v ===== *)
(** Bucket: [Segment::Bucket], a BucketBase with the keys and the values of its
    slots. Source: src/src/sharding/DashTable/dash_internal.hpp. *)
From S2P Require Import Prelude Policy SlotBitmap BucketBase.
Local Open Scope Z_scope.

Record Bucket (K V : Type) : Type := mkBucket {
  base : BucketBase;
  key : list K;
  value : list V;
}.
Arguments mkBucket {_ _} _ _ _.
Arguments base {_ _} _.
Arguments key {_ _} _.
Arguments value {_ _} _.

Section Bucket.
Context `{TablePolicy Q K V}.
Implicit Types (b : Bucket K V).

Definition with_base (b : Bucket K V) (x : BucketBase) : Bucket K V := mkBucket x (key b) (value b).

Definition Insert (b : Bucket K V) (slot : nat) (u : KeySrc Q K) (v : V) (meta_hash : Z) (probe : bool)
    : res (Bucket K V) :=
  _ ← cassert (slot <? kSlotNum)%nat;
  k0 ← aget (key b) slot;
  k1 ← AssignKey k0 u;
  ks ← aset (key b) slot k1;
  v0 ← aget (value b) slot;
  v1 ← AssignVal v0 v;
  vs ← aset (value b) slot v1;
  x ← BucketBase.SetHash (base b) slot meta_hash probe;
  Ok (mkBucket x ks vs).

(** Returns the slot, or [None] for -1. *)
Definition TryInsertToBucket (b : Bucket K V) (new_key : KeySrc Q K) (new_value : V) (meta_hash : Z)
    (probe : bool) : res (Bucket K V * option nat) :=
  if BucketBase.IsFull kSlotNum (base b) then Ok (b, None) else
  slot ← SlotBitmap.FindEmptySlot kSlotNum (slotb_ (base b));
  b' ← Insert b slot new_key new_value meta_hash probe;
  Ok (b', Some slot).

(** [for (unsigned i = delta; i < kSlotNum; ++i)], with [rest] turns left. *)
Fixpoint find_loop (b : Bucket K V) (pred : K → bool) (rest i : nat) (mask : Z) : res (option nat) :=
  match rest with
  | O => Ok None
  | S rest' =>
      if negb (Z.land mask 1 =? 0) then
        k ← aget (key b) i;
        if pred k then Ok (Some i) else find_loop b pred rest' (S i) (Z.shiftr mask 1)
      else find_loop b pred rest' (S i) (Z.shiftr mask 1)
  end.

(** Returns the slot, or [None] for [kNanSlot]. *)
Definition FindByFp (b : Bucket K V) (fp_hash : Z) (probe : bool) (pred : K → bool) : res (option nat) :=
  let mask := BucketBase.Find kSlotNum (base b) fp_hash probe in
  if mask =? 0 then Ok None else
  delta ← ctz mask;
  find_loop b pred (kSlotNum - delta) delta (Z.shiftr mask (Z.of_nat delta)).

(** The loop of [ForEachSlot]: the two masks are copies taken before it, the
    callback [cb(this, j, probe)] acts on a state of its own. *)
Fixpoint foreach_loop {S} (rest j : nat) (mask probe_mask : Z) (cb : nat → bool → S → res S) (s : S) : res S :=
  match rest with
  | O => Ok s
  | Datatypes.S rest' =>
      s' ← (if negb (Z.land mask 1 =? 0) then cb j (negb (Z.land probe_mask 1 =? 0)) s else Ok s);
      foreach_loop rest' (Datatypes.S j) (Z.shiftr mask 1) (Z.shiftr probe_mask 1) cb s'
  end.

Definition ForEachSlot {S} (b : Bucket K V) (cb : nat → bool → S → res S) (s : S) : res S :=
  foreach_loop kSlotNum 0 (BucketBase.GetBusy (base b)) (BucketBase.GetProbe kSlotNum (base b) true) cb s.

Definition swap_at {A} (l : list A) (i j : nat) : res (list A) :=
  x ← aget l i; y ← aget l j; l1 ← aset l i y; aset l1 j x.

Definition Swap (b : Bucket K V) (slot_a slot_b : nat) : res (Bucket K V) :=
  x ← BucketBase.Swap (base b) slot_a slot_b;
  ks ← swap_at (key b) slot_a slot_b;
  vs ← swap_at (value b) slot_a slot_b;
  Ok (mkBucket x ks vs).

(** [for (int i = kSlotNum - 1; i > 0; i--) swap(a[i], a[i - 1]);] *)
Fixpoint rotate {A} (i : nat) (l : list A) : res (list A) :=
  match i with O => Ok l | S i' => l' ← swap_at l (S i') i'; rotate i' l' end.

Definition ShiftRight (b : Bucket K V) : res (Bucket K V * bool) :=
  '(x, r) ← BucketBase.ShiftRight kSlotNum (base b);
  ks ← rotate (kSlotNum - 1) (key b);
  vs ← rotate (kSlotNum - 1) (value b);
  Ok (mkBucket x ks vs, r).

Definition Delete (b : Bucket K V) (sid : nat) : res (Bucket K V) :=
  x ← BucketBase.Delete (base b) sid; Ok (with_base b x).
Definition ClearSlots (b : Bucket K V) (mask : Z) : Bucket K V :=
  with_base b (BucketBase.ClearSlots (base b) mask).
End Bucket.

(** * The abstract view: a bucket as an array of optional entries *)

Record entry (Q W : Type) : Type := Entry {
  e_key : Q;
  e_val : W;
  e_fp : Z;
  e_probe : bool;
}.
Arguments Entry {_ _} _ _ _ _.
Arguments e_key {_ _} _.
Arguments e_val {_ _} _.
Arguments e_fp {_ _} _.
Arguments e_probe {_ _} _.

Section view.
Context `{PT : TablePolicy Q K V, DN : TableDenote Q K V W, PO : !TablePolicyOk Q K V W}.
Implicit Types (b : Bucket K V) (i j : nat).

Definition occupied b i : bool := busy_bit (slotb_ (base b)) i.

Definition slot_at b i : option (entry Q W) :=
  if occupied b i then
    k ← key b !! i; v ← value b !! i; f ← finger_arr_ (base b) !! i;
    Some (Entry (key_of k) (val_of v) f (probe_bit (slotb_ (base b)) i))
  else None.

Definition slots b : list (option (entry Q W)) := slot_at b <$> seq 0 kSlotNum.
Definition entries b : list (entry Q W) := omap id (slots b).

(** The stash half of the metadata. *)
Definition stash_part (x : BucketBase) :=
  (stash_arr_ x, stash_busy_ x, stash_pos_ x, stash_probe_mask_ x, overflow_count_ x).

Record bucket_wf b : Prop := {
  bk_base : base_wf kSlotNum (base b);
  bk_keys : length (key b) = kSlotNum;
  bk_vals : length (value b) = kSlotNum;
  bk_ok : ∀ i k v, occupied b i = true → key b !! i = Some k → value b !! i = Some v →
                   key_ok k ∧ val_ok v;
  bk_key_asg : Forall key_asg (key b);
  bk_val_asg : Forall val_asg (value b);
}.

Lemma slot_num_pos : (0 < kSlotNum ≤ 28)%nat.
Proof. pose proof slot_bounds. lia. Qed.
Lemma slot_num_16 : (0 < kSlotNum ≤ 16)%nat.
Proof. pose proof slot_bounds. lia. Qed.

Lemma occupied_lt b i : bucket_wf b → occupied b i = true → (i < kSlotNum)%nat.
Proof.
  intros Hw Hb. apply Nat.nle_gt. intros Hge. unfold occupied in Hb.
  rewrite (busy_high kSlotNum) in Hb; [done|apply slot_num_pos|apply Hw|done].
Qed.

Lemma slots_length b : length (slots b) = kSlotNum.
Proof. unfold slots. by rewrite length_fmap, length_seq. Qed.

Lemma slots_lookup b i : (i < kSlotNum)%nat → slots b !! i = Some (slot_at b i).
Proof. intros Hi. unfold slots. by rewrite list_lookup_fmap, lookup_seq_lt. Qed.

Lemma slots_lookup_inv b i o : slots b !! i = Some o → (i < kSlotNum)%nat ∧ o = slot_at b i.
Proof.
  intros Hi. assert (i < kSlotNum)%nat by (rewrite <- (slots_length b); by eapply lookup_lt_Some).
  rewrite slots_lookup in Hi by done. split; congruence.
Qed.

Lemma slots_insert b b' i o : (i < kSlotNum)%nat →
  (∀ j, (j < kSlotNum)%nat → slot_at b' j = if decide (i = j) then o else slot_at b j) →
  slots b' = <[i := o]> (slots b).
Proof.
  intros Hi Hj. apply list_eq. intros j. destruct (decide (j < kSlotNum)%nat).
  - rewrite slots_lookup, Hj by done. destruct (decide (i = j)) as [->|].
    + by rewrite list_lookup_insert_eq by by rewrite slots_length.
    + by rewrite list_lookup_insert_ne, slots_lookup.
  - rewrite !lookup_ge_None_2; rewrite ?length_insert, ?slots_length; [done|lia|lia].
Qed.

(** The contents of an occupied slot. *)
Lemma occupied_inv b i : bucket_wf b → occupied b i = true →
  ∃ k v f, key b !! i = Some k ∧ value b !! i = Some v ∧ finger_arr_ (base b) !! i = Some f ∧
    key_ok k ∧ val_ok v ∧
    slot_at b i = Some (Entry (key_of k) (val_of v) f (probe_bit (slotb_ (base b)) i)).
Proof.
  intros Hw Hb. pose proof (occupied_lt b i Hw Hb) as Hi.
  destruct (lookup_lt_is_Some_2 (key b) i) as [k Hk]; [by rewrite (bk_keys _ Hw)|].
  destruct (lookup_lt_is_Some_2 (value b) i) as [v Hv]; [by rewrite (bk_vals _ Hw)|].
  destruct (lookup_lt_is_Some_2 (finger_arr_ (base b)) i) as [f Hf];
    [by rewrite (bwf_finger _ _ (bk_base _ Hw))|].
  exists k, v, f. destruct (bk_ok _ Hw i k v Hb Hk Hv). split_and!; try done.
  unfold slot_at. by rewrite Hb, Hk, Hv, Hf.
Qed.

Lemma slot_at_occupied b i : bucket_wf b → occupied b i = true ↔ is_Some (slot_at b i).
Proof.
  intros Hw. split.
  - intros Hb. destruct (occupied_inv b i Hw Hb) as (k & v & f & _ & _ & _ & _ & _ & ->). eauto.
  - unfold slot_at. by destruct (occupied b i); [|intros [? ?]].
Qed.

Lemma slot_at_free b i : bucket_wf b → occupied b i = false → slot_at b i = None.
Proof. unfold slot_at. by intros _ ->. Qed.

Lemma elem_of_entries b e :
  e ∈ entries b ↔ ∃ i, (i < kSlotNum)%nat ∧ slot_at b i = Some e.
Proof.
  unfold entries. rewrite list_elem_of_omap. setoid_rewrite list_elem_of_lookup. split.
  - intros (o & (i & Hi) & He). apply slots_lookup_inv in Hi as [Hi ->]. exists i. split; done.
  - intros (i & Hi & He). exists (Some e). split; [|done]. exists i. by rewrite slots_lookup, He.
Qed.

Lemma entries_alt b : entries b = omap (slot_at b) (seq 0 kSlotNum).
Proof.
  unfold entries, slots. induction (seq 0 kSlotNum) as [|i l IH]; [done|]. csimpl.
  rewrite <- IH. by destruct (slot_at b i).
Qed.

Lemma entries_upd b b' i o o' : slots b' = <[i := o]> (slots b) → slots b !! i = Some o' →
  option_list o ++ entries b ≡ₚ option_list o' ++ entries b'.
Proof. intros Hs Hi. unfold entries. rewrite Hs. by apply (omap_insert_perm id). Qed.
End view.

Section specs.
Context `{PT : TablePolicy Q K V, DN : TableDenote Q K V W, PO : !TablePolicyOk Q K V W, AO : !TableAssignOk Q K V W}.
Implicit Types (b : Bucket K V) (i j : nat).

(** [b'] is [b] with slot [i] replaced by [o] in the abstract view. *)
Record slot_upd b b' i (o : option (entry Q W)) : Prop := {
  sl_wf : bucket_wf b';
  sl_slots : slots b' = <[i := o]> (slots b);
  sl_stash : stash_part (base b') = stash_part (base b);
}.

Lemma stash_part_wf x y : stash_part x = stash_part y → stash_wf y → stash_wf x.
Proof. intros [= H1 H2 H3 H4 H5] []. split; congruence || (rewrite ?H2, ?H3, ?H4, ?H5; done). Qed.

Lemma SetHash_spec (x : BucketBase) i fp p : base_wf kSlotNum x → (i < kSlotNum)%nat →
  busy_bit (slotb_ x) i = false →
  runs (BucketBase.SetHash x i fp p) (λ x', base_wf kSlotNum x' ∧ stash_part x' = stash_part x ∧
    finger_arr_ x' = <[i := fp]> (finger_arr_ x) ∧
    (∀ j, busy_bit (slotb_ x') j = busy_bit (slotb_ x) j || bool_decide (i = j)) ∧
    (∀ j, probe_bit (slotb_ x') j = probe_bit (slotb_ x) j || (p && bool_decide (i = j)))).
Proof.
  intros [Hs Hf Hst] Hi Hfree. unfold BucketBase.SetHash.
  rewrite cassert_true, bind_ok by (apply Nat.ltb_lt; lia).
  destruct (lookup_lt_is_Some_2 (finger_arr_ x) i) as [f Hfi]; [lia|].
  rewrite (aset_some _ _ _ _ Hfi), bind_ok.
  rbind (SetSlot_spec kSlotNum slot_num_pos (slotb_ x) i p Hs Hi Hfree).
  intros s (Hws & Hb & Hp). apply runs_ok. split_and!; try done.
  split; [done|by simpl; rewrite length_insert|by apply (stash_part_wf _ x)].
Qed.

Lemma bucket_Insert_spec b i u v fp p : bucket_wf b → (i < kSlotNum)%nat → occupied b i = false →
  src_ok u → val_ok v →
  runs (Insert b i u v fp p)
       (λ b', slot_upd b b' i (Some (Entry (src_key u) (val_of v) fp p))).
Proof.
  intros Hw Hi Hfree Hu Hv. pose proof Hw as [Hbase Hks Hvs Hok Hka Hva]. unfold Insert.
  rewrite cassert_true, bind_ok by by apply Nat.ltb_lt.
  destruct (lookup_lt_is_Some_2 (key b) i) as [k0 Hk0]; [lia|].
  destruct (lookup_lt_is_Some_2 (value b) i) as [v0 Hv0]; [lia|].
  rewrite (aget_some _ _ _ Hk0), bind_ok. rbind (assign_src k0 u (Forall_lookup_1 _ _ _ _ Hka Hk0) Hu). intros k1 [Hk1 Ek1].
  rewrite (aset_some _ _ _ _ Hk0), bind_ok, (aget_some _ _ _ Hv0), bind_ok.
  rbind (assign_val v0 v (Forall_lookup_1 _ _ _ _ Hva Hv0) Hv). intros v1 [Hv1 Ev1]. rewrite (aset_some _ _ _ _ Hv0), bind_ok.
  rbind (SetHash_spec (base b) i fp p Hbase Hi Hfree).
  intros x (Hwx & Hst & Hfing & Hb & Hp). apply runs_ok.
  pose proof (bwf_finger _ _ Hbase) as Hfl.
  assert (probe_bit (slotb_ (base b)) i = false) as Hpf.
  { destruct (probe_bit (slotb_ (base b)) i) eqn:E; [|done].
    apply (wf_sub _ _ (bwf_slots _ _ Hbase)) in E. unfold occupied in Hfree. congruence. }
  split; [split|..]; simpl; rewrite ?length_insert; try done.
  - intros j k v' Hj Hk Hv'. unfold occupied in Hj; simpl in Hj. rewrite Hb in Hj.
    destruct (decide (i = j)) as [<-|Hne].
    + rewrite list_lookup_insert_eq in Hk by lia. rewrite list_lookup_insert_eq in Hv' by lia. naive_solver.
    + rewrite list_lookup_insert_ne in Hk by done. rewrite list_lookup_insert_ne in Hv' by done.
      rewrite bool_decide_false, orb_false_r in Hj by done. by apply (Hok j).
  - by apply Forall_insert, key_ok_asg.
  - by apply Forall_insert, val_ok_asg.
  - apply slots_insert; [done|]. intros j Hj. unfold slot_at, occupied. simpl.
    rewrite Hb, Hp, Hfing. destruct (decide (i = j)) as [<-|Hne].
    + rewrite bool_decide_true, orb_true_r, !list_lookup_insert_eq by (done || lia). simpl.
      by rewrite Ek1, Ev1, Hpf, andb_true_r.
    + by rewrite bool_decide_false, andb_false_r, !orb_false_r, !list_lookup_insert_ne by done.
Qed.

Definition full b : bool := BucketBase.IsFull kSlotNum (base b).

Lemma full_spec b : bucket_wf b → full b = true ↔ ∀ i, (i < kSlotNum)%nat → occupied b i = true.
Proof. intros Hw. apply (SlotBitmap.IsFull_spec kSlotNum), Hw. Qed.

(** [TryInsertToBucket] fails exactly on a full bucket; otherwise it fills the
    lowest free slot. *)
Lemma TryInsertToBucket_spec b u v fp p : bucket_wf b → src_ok u → val_ok v →
  runs (TryInsertToBucket b u v fp p) (λ '(b', r),
    match r with
    | None => full b = true ∧ b' = b
    | Some i => full b = false ∧ (i < kSlotNum)%nat ∧ slots b !! i = Some None ∧
                slot_upd b b' i (Some (Entry (src_key u) (val_of v) fp p))
    end).
Proof.
  intros Hw Hu Hv. unfold TryInsertToBucket. fold (full b). destruct (full b) eqn:Hf; [by apply runs_ok|].
  rbind (FindEmptySlot_spec kSlotNum slot_num_pos (slotb_ (base b)) (bwf_slots _ _ (bk_base _ Hw)) Hf).
  intros i (Hi & Hfree & _). rbind (bucket_Insert_spec b i u v fp p Hw Hi Hfree Hu Hv).
  intros b' Hupd. apply runs_ok. split_and!; try done.
  rewrite slots_lookup by done. f_equal. by apply slot_at_free.
Qed.
End specs.

Section search.
Context `{PT : TablePolicy Q K V, DN : TableDenote Q K V W, PO : !TablePolicyOk Q K V W}.
Implicit Types (b : Bucket K V) (i j : nat) (q : Q).

(** What a search for key [q] among the slots from [i] on returns. *)
Definition find_post b fp p q i (r : option nat) : Prop :=
  match r with
  | Some j => ∃ e, slot_at b j = Some e ∧ e_key e = q ∧ e_fp e = fp ∧ e_probe e = p
  | None => ∀ j e, (i ≤ j)%nat → slot_at b j = Some e → e_fp e = fp → e_probe e = p → e_key e ≠ q
  end.

(** Bit [j] of the mask of [Find] in the abstract view. *)
Lemma Find_slot b fp p j : bucket_wf b →
  Z.testbit (BucketBase.Find kSlotNum (base b) fp p) (Z.of_nat j) = true ↔
  ∃ e, slot_at b j = Some e ∧ e_fp e = fp ∧ e_probe e = p.
Proof.
  intros Hw. rewrite (Find_bit _ _ _ _ _ slot_num_16 (bk_base _ Hw)).
  rewrite !andb_true_iff, !bool_decide_eq_true, eqb_true_iff. split.
  - intros [[[Hj Hb] Hp] Hf]. destruct (occupied_inv b j Hw Hb) as (k & v & f & _ & _ & Hf' & _ & _ & Hs).
    rewrite Hs. eexists. split_and!; [done|simpl; congruence|done].
  - intros (e & Hs & Hf & Hp). assert (occupied b j = true) as Hb by (apply slot_at_occupied; eauto).
    destruct (occupied_inv b j Hw Hb) as (k & v & f & _ & _ & Hf' & _ & _ & Hs').
    rewrite Hs in Hs'. injection Hs' as ->. simpl in *. subst.
    split_and!; [by apply occupied_lt in Hb|done..].
Qed.

Lemma slot_at_key b j e : bucket_wf b → slot_at b j = Some e →
  ∃ k, key b !! j = Some k ∧ key_ok k ∧ key_of k = e_key e.
Proof.
  intros Hw Hs. assert (occupied b j = true) as Hb by (apply slot_at_occupied; eauto).
  destruct (occupied_inv b j Hw Hb) as (k & v & f & Hk & _ & _ & Hok & _ & Hs').
  rewrite Hs in Hs'. injection Hs' as ->. eauto.
Qed.

Lemma find_loop_spec b fp p q rest i : bucket_wf b → (rest + i = kSlotNum)%nat →
  runs (find_loop b (λ k, Equal k q) rest i
          (Z.shiftr (BucketBase.Find kSlotNum (base b) fp p) (Z.of_nat i)))
       (find_post b fp p q i).
Proof.
  intros Hw. revert i. induction rest as [|rest IH]; intros i Hi; simpl.
  { apply runs_ok. intros j e Hj Hs. assert (occupied b j = true) as Hb by (apply slot_at_occupied; eauto).
    apply occupied_lt in Hb; [lia|done]. }
  rewrite land1_test, Z.shiftr_spec, Z.add_0_l, Z.shiftr_shiftr by lia.
  replace (Z.of_nat i + 1) with (Z.of_nat (S i)) by lia.
  assert (find_post b fp p q (S i) None →
          (∀ e, slot_at b i = Some e → e_fp e = fp → e_probe e = p → e_key e ≠ q) →
          find_post b fp p q i None) as Hstep.
  { intros Hn Hi' j e Hj. destruct (decide (i = j)) as [<-|]; [apply Hi'|apply Hn; lia]. }
  pose proof (Find_slot b fp p i Hw) as Hbit.
  destruct (Z.testbit _ _).
  - destruct (proj1 Hbit eq_refl) as (e & Hs & Hf & Hp).
    destruct (slot_at_key b i e Hw Hs) as (k & Hk & Hok & Ek).
    rewrite (aget_some _ _ _ Hk), bind_ok. destruct (Equal k q) eqn:Eq.
    + apply equal_key in Eq; [|done]. apply runs_ok. exists e. split_and!; congruence.
    + eapply runs_mono; [apply IH; lia|]. intros [j|]; [done|]. intros Hn.
      apply Hstep; [done|]. intros e' Hs' _ _ Ee. rewrite Hs in Hs'. injection Hs' as <-.
      apply not_true_iff_false in Eq. apply Eq, equal_key; [done|congruence].
  - eapply runs_mono; [apply IH; lia|]. intros [j|]; [done|]. intros Hn.
    apply Hstep; [done|]. intros e Hs Hf Hp _. assert (false = true); [|done].
    apply Hbit. eauto.
Qed.

(** [FindByFp] finds an entry with the key, the fingerprint and the probe flag,
    or there is none. *)
Lemma FindByFp_spec b fp p q : bucket_wf b →
  runs (FindByFp b fp p (λ k, Equal k q)) (find_post b fp p q 0).
Proof.
  intros Hw. unfold FindByFp. pose proof (Find_nonneg kSlotNum (base b) fp p) as Hnn.
  destruct (Z.eqb_spec (BucketBase.Find kSlotNum (base b) fp p) 0) as [E|E].
  - apply runs_ok. intros j e _ Hs Hf Hp. exfalso.
    assert (Z.testbit 0 (Z.of_nat j) = true) as Hb; [|by rewrite Z.testbit_0_l in Hb].
    rewrite <- E. apply Find_slot; [done|]. eauto.
  - destruct (ctz_spec (BucketBase.Find kSlotNum (base b) fp p)) as (k & -> & Hk1 & Hk2); [lia|].
    rewrite bind_ok. apply Find_slot in Hk1 as (e & Hs & _); [|done].
    assert (k < kSlotNum)%nat by (eapply occupied_lt; [done|apply slot_at_occupied; eauto]).
    eapply runs_mono; [apply find_loop_spec; [done|lia]|]. intros [j|]; [done|].
    intros Hn j e' _ Hs' Hf Hp. destruct (decide (k ≤ j)%nat); [by apply (Hn j)|]. exfalso.
    specialize (Hk2 j ltac:(lia)). apply not_true_iff_false in Hk2. apply Hk2, Find_slot; [done|]. eauto.
Qed.
End search.

Section updates.
Context `{PT : TablePolicy Q K V, DN : TableDenote Q K V W, PO : !TablePolicyOk Q K V W}.
Implicit Types (b : Bucket K V) (i j : nat).

(** A bucket whose metadata words are updated without touching the keys. *)
Lemma with_base_wf b (x : BucketBase) : bucket_wf b → base_wf kSlotNum x →
  (∀ i, busy_bit (slotb_ x) i = true → occupied b i = true) → bucket_wf (with_base b x).
Proof.
  intros Hw Hx Hsub. split; simpl; try apply Hw; [done|].
  intros i k v Hi Hk Hv. by eapply (bk_ok _ Hw); [apply Hsub|..].
Qed.

(** The occupied slots, in order, as [ForEachSlot] visits them. *)
Definition occ_list b : list (nat * entry Q W) :=
  omap (λ j, e ← slot_at b j; Some (j, e)) (seq 0 kSlotNum).

(** The slots of a list that the mask selects. *)
Definition gone (m : Z) (l : list (nat * entry Q W)) : list (nat * entry Q W) :=
  filter (λ x, Z.testbit m (Z.of_nat x.1) = true) l.

(** [ClearSlots] empties the slots of the mask and keeps the others. *)
Lemma bucket_ClearSlots_spec b (m : Z) : bucket_wf b →
  bucket_wf (ClearSlots b m) ∧
  stash_part (base (ClearSlots b m)) = stash_part (base b) ∧
  (∀ i, slot_at (ClearSlots b m) i = if Z.testbit m (Z.of_nat i) then None else slot_at b i) ∧
  entries b ≡ₚ (snd <$> gone m (occ_list b)) ++ entries (ClearSlots b m).
Proof.
  intros Hw. pose proof (bk_base _ Hw) as Hb.
  destruct (SlotBitmap.ClearSlots_spec kSlotNum slot_num_pos (slotb_ (base b)) m (bwf_slots _ _ Hb))
    as (Hws & Hbusy & Hprobe).
  assert (∀ i, slot_at (ClearSlots b m) i = if Z.testbit m (Z.of_nat i) then None else slot_at b i) as Hslot.
  { intros i. unfold slot_at at 1, occupied. simpl. rewrite Hbusy, Hprobe.
    fold (occupied b i). destruct (occupied b i) eqn:Hi; [|rewrite slot_at_free by done; by destruct (Z.testbit m _)].
    destruct (occupied_inv b i Hw Hi) as (k & v & f & Hk & Hv & Hf & _ & _ & Hs).
    rewrite Hs, Hk, Hv, Hf. simpl. destruct (Z.testbit m _); simpl; by rewrite ?andb_true_r. }
  split_and!; [|done|done|].
  - apply with_base_wf; [done|split; try apply Hb; [done|by apply (stash_part_wf _ (base b)), Hb]|].
    intros i Hi. simpl in Hi. rewrite Hbusy in Hi. by apply andb_true_iff in Hi as [Hi _].
  - unfold gone, occ_list. rewrite !entries_alt. induction (seq 0 kSlotNum) as [|i l IH]; [done|]. csimpl.
    rewrite Hslot. destruct (slot_at b i) as [e|]; simpl.
    + rewrite filter_cons. simpl. destruct (Z.testbit m (Z.of_nat i)); simpl.
      * by rewrite IH.
      * by rewrite IH, Permutation_middle.
    + by destruct (Z.testbit m _).
Qed.

Lemma bucket_Delete_spec b i : bucket_wf b → occupied b i = true →
  runs (Delete b i) (λ b', slot_upd b b' i None).
Proof.
  intros Hw Hi. unfold Delete, BucketBase.Delete. pose proof (bk_base _ Hw) as Hb.
  pose proof (Size_pos kSlotNum slot_num_pos (slotb_ (base b)) i (bwf_slots _ _ Hb) Hi) as Hsz.
  rewrite ClearSlot_ClearSlots, !bind_ok by done. apply runs_ok.
  destruct (SlotBitmap.ClearSlots_spec kSlotNum slot_num_pos (slotb_ (base b)) (bit_at true i) (bwf_slots _ _ Hb))
    as (Hws & Hbusy & Hprobe).
  split; [| |done].
  - apply with_base_wf; [done|split; try apply Hb; [done|by apply (stash_part_wf _ (base b)), Hb]|].
    intros j Hj. simpl in Hj. rewrite Hbusy in Hj. by apply andb_true_iff in Hj as [Hj _].
  - apply slots_insert; [by apply occupied_lt in Hi|]. intros j Hj. unfold slot_at, occupied. simpl.
    rewrite Hbusy, Hprobe, bit_at_testbit. case_decide as E.
    + rewrite (bool_decide_true (i = j)) by done. by rewrite andb_false_r.
    + rewrite (bool_decide_false (i = j)) by done. by rewrite !andb_true_r.
Qed.

Lemma foreach_loop_spec {S} b (cb : nat → bool → S → res S) rest j (s : S) : bucket_wf b →
  (rest + j = kSlotNum)%nat →
  foreach_loop rest j (Z.shiftr (BucketBase.GetBusy (base b)) (Z.of_nat j))
    (Z.shiftr (BucketBase.GetProbe kSlotNum (base b) true) (Z.of_nat j)) cb s =
  rfold (λ x, cb x.1 (e_probe x.2)) (omap (λ j, e ← slot_at b j; Some (j, e)) (seq j rest)) s.
Proof.
  intros Hw. revert j s. induction rest as [|rest IH]; intros j s Hj; [done|]. simpl.
  rewrite !land1_test, !Z.shiftr_spec, !Z.add_0_l by lia.
  unfold BucketBase.GetProbe. rewrite SlotBitmap.GetProbe_bit by apply slot_num_pos.
  change (Z.testbit (BucketBase.GetBusy (base b)) (Z.of_nat j)) with (occupied b j).
  rewrite !Z.shiftr_shiftr by lia. replace (Z.of_nat j + 1) with (Z.of_nat (Datatypes.S j)) by lia.
  fold (BucketBase.GetProbe kSlotNum (base b) true). assert (∀ s1, foreach_loop rest (Datatypes.S j) (Z.shiftr (BucketBase.GetBusy (base b)) (Z.of_nat (Datatypes.S j)))
    (Z.shiftr (BucketBase.GetProbe kSlotNum (base b) true) (Z.of_nat (Datatypes.S j))) cb s1 =
    rfold (λ x, cb x.1 (e_probe x.2)) (omap (λ j, e ← slot_at b j; Some (j, e)) (seq (Datatypes.S j) rest)) s1)
    as IH' by (intros s1; apply IH; lia).
  destruct (occupied b j) eqn:Hb; simpl; [|by rewrite slot_at_free by done; apply IH'].
  destruct (occupied_inv b j Hw Hb) as (k & v & f & _ & _ & _ & _ & _ & ->). simpl.
  rewrite bool_decide_true by lia. rewrite andb_true_l.
  destruct (probe_bit (slotb_ (base b)) j); simpl; destruct (cb _ _ s); done || apply IH'.
Qed.

(** [ForEachSlot] calls back once per entry, in slot order, with its probe flag. *)
Lemma ForEachSlot_spec {S} b (cb : nat → bool → S → res S) (s : S) : bucket_wf b →
  ForEachSlot b cb s = rfold (λ x, cb x.1 (e_probe x.2)) (occ_list b) s.
Proof. intros Hw. apply (foreach_loop_spec b cb kSlotNum 0 s Hw). lia. Qed.

Lemma occ_list_entries b : snd <$> occ_list b = entries b.
Proof.
  unfold occ_list. rewrite entries_alt. induction (seq 0 kSlotNum) as [|j l IH]; [done|]. csimpl.
  rewrite <- IH. by destruct (slot_at b j).
Qed.

Lemma elem_of_occ_list b j e : (j, e) ∈ occ_list b ↔ (j < kSlotNum)%nat ∧ slot_at b j = Some e.
Proof.
  unfold occ_list. rewrite list_elem_of_omap. split.
  - intros (i & [_ Hi]%elem_of_seq & Hs). destruct (slot_at b i) eqn:E; [|done].
    simpl in Hs. injection Hs as -> ->. done.
  - intros [Hj Hs]. exists j. rewrite elem_of_seq, Hs. split; [lia|done].
Qed.

Lemma occ_list_NoDup b : NoDup (occ_list b).*1.
Proof.
  unfold occ_list. assert (NoDup (seq 0 kSlotNum)) as Hnd by apply NoDup_seq. revert Hnd.
  generalize (seq 0 kSlotNum). induction l as [|j l IH]; csimpl; intros Hnd; [constructor|].
  apply NoDup_cons in Hnd as [Hn Hnd]. destruct (slot_at b j); simpl; [|by apply IH].
  constructor; [|by apply IH]. intros ([i e'] & -> & Hi)%list_elem_of_fmap. apply Hn.
  apply list_elem_of_omap in Hi as (k & Hk & E). destruct (slot_at b k); simplify_eq/=. done.
Qed.

(** In a visit [pre ++ (j, e) :: post], slot [j] was not seen before. *)
Lemma occ_list_split b pre j e post : occ_list b = pre ++ (j, e) :: post →
  slot_at b j = Some e ∧ (j < kSlotNum)%nat ∧ j ∉ pre.*1.
Proof.
  intros E. assert ((j, e) ∈ occ_list b) as Hin by (rewrite E; apply elem_of_app; right; left).
  apply elem_of_occ_list in Hin as [Hj He]. split_and!; [done..|]. pose proof (occ_list_NoDup b) as Hnd.
  rewrite E, fmap_app, fmap_cons in Hnd. apply NoDup_app in Hnd as (_ & Hdis & _).
  intros Hin. apply (Hdis j Hin). by left.
Qed.

Lemma gone_app m l l' : gone m (l ++ l') = gone m l ++ gone m l'.
Proof. apply filter_app. Qed.

Lemma gone_mark m pre j e : (j < 32)%nat → j ∉ pre.*1 →
  gone (Z.lor m (u32 (bit_at true j))) (pre ++ [(j, e)]) = gone m pre ++ [(j, e)].
Proof.
  intros Hj Hn. assert (∀ i, Z.testbit (Z.lor m (u32 (bit_at true j))) (Z.of_nat i) =
    Z.testbit m (Z.of_nat i) || bool_decide (j = i)) as Hbit.
  { intros i. rewrite Z.lor_spec, uN_testbit, bit_at_testbit by lia. case_bool_decide; [|done].
    subst i. by rewrite (bool_decide_true (Z.of_nat j < 32)) by lia. }
  rewrite gone_app. f_equal.
  - unfold gone. apply filter_ext_in. intros [i e'] Hin. simpl. rewrite Hbit.
    rewrite bool_decide_false, orb_false_r; [done|]. intros ->. apply Hn. apply list_elem_of_fmap.
    by exists (i, e').
  - unfold gone. rewrite filter_cons. simpl. by rewrite Hbit, bool_decide_true, orb_true_r.
Qed.

Lemma gone_keep m pre j e : Z.testbit m (Z.of_nat j) = false → gone m (pre ++ [(j, e)]) = gone m pre.
Proof.
  intros Hb. rewrite gone_app. unfold gone at 2. rewrite filter_cons. simpl. rewrite Hb. apply app_nil_r.
Qed.
End updates.
