(* ===== verification/Segment.v ===== *)
(** Segment: kBucketNum regular buckets and four stash buckets. A key lives in
    its home bucket, in the next one (with the probe flag), or in a stash bucket
    that the home bucket (or the next one) refers to.
    Source: src/src/sharding/DashTable/dash_internal.hpp, class Segment.

    The [on_move_cb] arguments have no effect for the only eviction policy of
    the program (DefaultEvictionPolicy) and are left out. A slot whose key was
    moved out keeps its old contents in the model until the code clears it. *)
From S2P Require Import Prelude Policy SlotBitmap BucketBase Bucket.
Local Open Scope Z_scope.

Record Segment (K V : Type) : Type := mkSegment {
  bucket_ : list (Bucket K V);
  local_depth_ : Z;
  segment_id_ : Z;
}.
Arguments mkSegment {_ _} _ _ _.
Arguments bucket_ {_ _} _.
Arguments local_depth_ {_ _} _.
Arguments segment_id_ {_ _} _.

(** A found [Segment::Iterator]; [Iterator{}] is [None]. *)
Record Iterator : Set := mkIt { index : nat; slot : nat }.

Section Segment.
Context `{TablePolicy Q K V}.
Implicit Types (s : Segment K V).

Definition kTotalBuckets : nat := kBucketNum + kStashBucketNum.

Definition set_buckets s (l : list (Bucket K V)) : Segment K V := mkSegment l (local_depth_ s) (segment_id_ s).
Definition set_local_depth s (d : Z) : Segment K V := mkSegment (bucket_ s) d (segment_id_ s).
Definition set_segment_id s (i : Z) : Segment K V := mkSegment (bucket_ s) (local_depth_ s) i.

Definition GetBucket s (i : nat) : res (Bucket K V) := aget (bucket_ s) i.
Definition set_bucket s (i : nat) (b : Bucket K V) : res (Segment K V) :=
  l ← aset (bucket_ s) i b; Ok (set_buckets s l).

(** Run a member function of [bucket_[i]] that updates it. *)
Definition on_bucket {A} s (i : nat) (f : Bucket K V → res (Bucket K V * A)) : res (Segment K V * A) :=
  b ← GetBucket s i; '(b', r) ← f b; s' ← set_bucket s i b'; Ok (s', r).

Definition HomeIndex (hash : Z) : nat := Z.to_nat (Z.shiftr hash kFingerBits mod Z.of_nat kBucketNum).
Definition NextBid (bid : nat) : nat := if (bid <? kBucketNum - 1)%nat then S bid else 0%nat.
Definition PrevBid (bid : nat) : nat := if (bid =? 0)%nat then (kBucketNum - 1)%nat else (bid - 1)%nat.

Definition IsBusy s (bid slot : nat) : res bool :=
  b ← GetBucket s bid; Ok (BucketBase.IsBusy (base b) slot).
Definition Key s (bid slot : nat) : res K :=
  busy ← IsBusy s bid slot; _ ← cassert busy; b ← GetBucket s bid; aget (key b) slot.
Definition Value s (bid slot : nat) : res V :=
  busy ← IsBusy s bid slot; _ ← cassert busy; b ← GetBucket s bid; aget (value b) slot.

(** ** Lookup *)

Definition stash_cb s (fp : Z) (pred : K → bool) (pos : nat) : res (option nat) :=
  _ ← cassert (pos <? kStashBucketNum)%nat;
  b ← GetBucket s (pos + kBucketNum)%nat;
  FindByFp b fp false pred.

(** [for (unsigned i = 0; i < kStashBucketNum; ++i)] of the overflow case. *)
Fixpoint find_overflow s (fp : Z) (pred : K → bool) (rest i : nat) : res (option Iterator) :=
  match rest with
  | O => Ok None
  | S rest' =>
      sid ← stash_cb s fp pred i;
      match sid with
      | Some j => Ok (Some (mkIt (kBucketNum + i) j))
      | None => find_overflow s fp pred rest' (S i)
      end
  end.

Definition iterate_stash s (b : Bucket K V) (fp : Z) (probe : bool) (pred : K → bool) : res (option Iterator) :=
  '(_, r) ← BucketBase.IterateStash (base b) fp probe
              (λ x _ pos, sid ← stash_cb s fp pred pos; Ok (x, sid));
  Ok (match r with Some (pos, sid) => Some (mkIt (kBucketNum + pos) sid) | None => None end).

Definition FindIt s (key_hash : Z) (pred : K → bool) : res (option Iterator) :=
  let bidx := HomeIndex key_hash in
  target ← GetBucket s bidx;
  let fp := Z.land key_hash kFpMask in
  sid ← FindByFp target fp false pred;
  match sid with Some j => Ok (Some (mkIt bidx j)) | None =>
  let nid := NextBid bidx in
  probe ← GetBucket s nid;
  sid ← FindByFp probe fp true pred;
  match sid with Some j => Ok (Some (mkIt nid j)) | None =>
  if negb (HasStash (base target)) then Ok None else
  if HasStashOverflow (base target) then find_overflow s fp pred kStashBucketNum 0 else
  r ← iterate_stash s target fp false pred;
  match r with Some it => Ok (Some it) | None => iterate_stash s probe fp true pred end
  end end.

(** ** Insertion *)

Definition TryInsertTo s (i : nat) (u : KeySrc Q K) (v : V) (fp : Z) (probe : bool)
    : res (Segment K V * option nat) :=
  on_bucket s i (λ b, TryInsertToBucket b u v fp probe).

Definition InsertAt s (i slot : nat) (u : KeySrc Q K) (v : V) (fp : Z) (probe : bool) : res (Segment K V) :=
  '(s', _) ← on_bucket s i (λ b, b' ← Bucket.Insert b slot u v fp probe; Ok (b', tt)); Ok s'.

Definition DeleteAt s (i slot : nat) : res (Segment K V) :=
  '(s', _) ← on_bucket s i (λ b, b' ← Bucket.Delete b slot; Ok (b', tt)); Ok s'.

Definition MoveToOther s (own_items : bool) (from_bid to_bid : nat) : res (Segment K V * option nat) :=
  _ ← cassert ((from_bid <? kBucketNum) && (to_bid <? kBucketNum))%nat;
  src ← GetBucket s from_bid;
  let mask := BucketBase.GetProbe kSlotNum (base src) (negb own_items) in
  if mask =? 0 then Ok (s, None) else
  src_slot ← ctz mask;
  k ← aget (key src) src_slot;
  v ← aget (value src) src_slot;
  fp ← BucketBase.Fp (base src) src_slot;
  '(s1, dst_slot) ← TryInsertTo s to_bid (FromKey k) v fp own_items;
  match dst_slot with
  | None => Ok (s1, None)
  | Some _ => s2 ← DeleteAt s1 from_bid src_slot; Ok (s2, Some src_slot)
  end.

(** [target.SetStashPtr(stash_pos, meta_hash, &neighbor)] *)
Definition set_stash_ptr s (bid : nat) (stash_pos : nat) (fp : Z) : res (Segment K V) :=
  target ← GetBucket s bid;
  neighbor ← GetBucket s (NextBid bid);
  '(t, n) ← SetStashPtr (base target) stash_pos fp (base neighbor);
  s1 ← set_bucket s bid (with_base target t);
  set_bucket s1 (NextBid bid) (with_base neighbor n).

(** [for (unsigned i = 0; i < kStashBucketNum; ++i)] of [InsertUniq]. *)
Fixpoint insert_stash s (bid : nat) (u : KeySrc Q K) (v : V) (fp : Z) (rest i : nat)
    : res (Segment K V * option Iterator) :=
  match rest with
  | O => Ok (s, None)
  | S rest' =>
      let stash_pos := ((bid + i) mod kStashBucketNum)%nat in
      '(s1, stash_slot) ← TryInsertTo s (kBucketNum + stash_pos) u v fp false;
      match stash_slot with
      | Some j => s2 ← set_stash_ptr s1 bid stash_pos fp; Ok (s2, Some (mkIt (kBucketNum + stash_pos) j))
      | None => insert_stash s1 bid u v fp rest' (S i)
      end
  end.

Definition InsertUniq s (u : KeySrc Q K) (v : V) (key_hash : Z) (spread : bool)
    : res (Segment K V * option Iterator) :=
  let bid := HomeIndex key_hash in
  let nid := NextBid bid in
  target ← GetBucket s bid;
  neighbor ← GetBucket s nid;
  let fp := Z.land key_hash kFpMask in
  let probe := spread && (BucketBase.Size (base neighbor) <? BucketBase.Size (base target))%nat in
  let insert_first := if probe then nid else bid in
  '(s, slot) ← TryInsertTo s insert_first u v fp probe;
  match slot with Some j => Ok (s, Some (mkIt insert_first j)) | None =>
  '(s, slot) ← (if spread then Ok (s, None) else TryInsertTo s nid u v fp true);
  match slot with Some j => Ok (s, Some (mkIt nid j)) | None =>
  '(s, displace) ← MoveToOther s true nid (NextBid nid);
  match displace with Some j => s ← InsertAt s nid j u v fp true; Ok (s, Some (mkIt nid j)) | None =>
  '(s, displace) ← MoveToOther s false bid (PrevBid bid);
  match displace with Some j => s ← InsertAt s bid j u v fp false; Ok (s, Some (mkIt bid j)) | None =>
  insert_stash s bid u v fp kStashBucketNum 0
  end end end end.

(** [Insert] of a key; the flag says whether it is new. *)
Definition Insert s (u : KeySrc Q K) (v : V) (key_hash : Z) (pred : K → bool)
    : res (Segment K V * option Iterator * bool) :=
  it ← FindIt s key_hash pred;
  match it with
  | Some i => Ok (s, Some i, false)
  | None => '(s', it) ← InsertUniq s u v key_hash true;
            Ok (s', it, match it with Some _ => true | None => false end)
  end.

(** ** Deletion and splitting *)

(** The results of [UnsetStashPtr] are not used. *)
Definition RemoveStashReference s (stash_pos : nat) (key_hash : Z) : res (Segment K V) :=
  let y := HomeIndex key_hash in
  target ← GetBucket s y;
  next ← GetBucket s (NextBid y);
  '(t, n, _) ← UnsetStashPtr (base target) (Z.land key_hash kFpMask) stash_pos (base next);
  s1 ← set_bucket s y (with_base target t);
  set_bucket s1 (NextBid y) (with_base next n).

Definition Delete s (it : Iterator) (key_hash : Z) : res (Segment K V) :=
  s1 ← (if (kBucketNum <=? index it)%nat
        then RemoveStashReference s (index it - kBucketNum) key_hash else Ok s);
  DeleteAt s1 (index it) (slot it).

Definition clear_bucket (b : Bucket K V) : Bucket K V :=
  with_base b (ClearStashPtrs (BucketBase.Clear (base b))).
Definition Clear s : Segment K V := set_buckets s (clear_bucket <$> bucket_ s).

(** The destructor: [Clear], and the objects of all slots are destroyed with
    their arrays, the last ones first. *)
Definition destroy_bucket (b : Bucket K V) : res unit :=
  _ ← rfold (λ v _, DtorValue v) (rev (value b)) tt;
  rfold (λ k _, DtorKey k) (rev (key b)) tt.
Definition destroy_segment s : res unit := rfold (λ b _, destroy_bucket b) (rev (bucket_ (Clear s))) tt.

Definition TryMoveFromStash s (stash_id stash_slot_id : nat) (key_hash : Z)
    : res (Segment K V * option Iterator) :=
  let bid := HomeIndex key_hash in
  let fp := Z.land key_hash kFpMask in
  let stash_bid := (kBucketNum + stash_id)%nat in
  k ← Key s stash_bid stash_slot_id;
  v ← Value s stash_bid stash_slot_id;
  '(s, reg_slot) ← TryInsertTo s bid (FromKey k) v fp false;
  '(s, bid, reg_slot) ←
    match reg_slot with
    | Some j => Ok (s, bid, Some j)
    | None => let bid := NextBid bid in
              '(s, reg_slot) ← TryInsertTo s bid (FromKey k) v fp true; Ok (s, bid, reg_slot)
    end;
  match reg_slot with
  | Some j => s ← RemoveStashReference s stash_id key_hash; Ok (s, Some (mkIt bid j))
  | None => Ok (s, None)
  end.

(** [is_mine]: the hash bit that the split looks at, for the new depth. *)
Definition is_mine (local_depth hash : Z) : bool := Z.land (Z.shiftr hash (64 - local_depth)) 1 =? 0.

Definition move_right s (dest : Segment K V) (bid slot : nat) (hash : Z) : res (Segment K V) :=
  b ← GetBucket s bid;
  k ← aget (key b) slot;
  v ← aget (value b) slot;
  '(dest, it) ← InsertUniq dest (FromKey k) v hash false;
  _ ← cassert (match it with Some _ => true | None => false end);
  Ok dest.

Definition slot_hash s (bid slot : nat) : res Z :=
  b ← GetBucket s bid; k ← aget (key b) slot; HashFn k.

(** The callback of the loop over the regular buckets; its state is the
    destination and [invalid_mask]. *)
Definition split_regular_cb s (i slot : nat) (_probe : bool) (st : Segment K V * Z) : res (Segment K V * Z) :=
  let '(dest, invalid_mask) := st in
  hash ← slot_hash s i slot;
  if is_mine (local_depth_ s) hash then Ok (dest, invalid_mask) else
  dest ← move_right s dest i slot hash;
  Ok (dest, Z.lor invalid_mask (u32 (bit_at true slot))).

Definition split_regular (i : nat) (st : Segment K V * Segment K V) : res (Segment K V * Segment K V) :=
  let '(s, dest) := st in
  b ← GetBucket s i;
  '(dest, invalid_mask) ← ForEachSlot b (split_regular_cb s i) (dest, 0);
  s ← set_bucket s i (Bucket.ClearSlots b invalid_mask);
  Ok (s, dest).

(** The callback of the loop over the stash buckets, which also updates the
    regular buckets of the source. *)
Definition split_stash_cb (i slot : nat) (_probe : bool) (st : Segment K V * Segment K V * Z)
    : res (Segment K V * Segment K V * Z) :=
  let '(s, dest, invalid_mask) := st in
  hash ← slot_hash s (kBucketNum + i) slot;
  if is_mine (local_depth_ s) hash then
    '(s, it) ← TryMoveFromStash s i slot hash;
    Ok (s, dest, match it with Some _ => Z.lor invalid_mask (u32 (bit_at true slot)) | None => invalid_mask end)
  else
    dest ← move_right s dest (kBucketNum + i) slot hash;
    s ← RemoveStashReference s i hash;
    Ok (s, dest, Z.lor invalid_mask (u32 (bit_at true slot))).

Definition split_stash (i : nat) (st : Segment K V * Segment K V) : res (Segment K V * Segment K V) :=
  let '(s, dest) := st in
  stash ← GetBucket s (kBucketNum + i);
  '(s, dest, invalid_mask) ← ForEachSlot stash (split_stash_cb i) (s, dest, 0);
  stash ← GetBucket s (kBucketNum + i);
  s ← set_bucket s (kBucketNum + i) (Bucket.ClearSlots stash invalid_mask);
  Ok (s, dest).

Definition Split s (dest_right : Segment K V) : res (Segment K V * Segment K V) :=
  let s := set_local_depth s (u8 (local_depth_ s + 1)) in
  let dest := set_local_depth dest_right (local_depth_ s) in
  st ← rfold split_regular (seq 0 kBucketNum) (s, dest);
  rfold split_stash (seq 0 kStashBucketNum) st.

(** ** Traversal *)

Definition TraverseAll {S} s (cb : Iterator → S → res S) (st : S) : res S :=
  rfold (λ i st, b ← GetBucket s i; ForEachSlot b (λ slot _, cb (mkIt i slot)) st)
    (seq 0 kTotalBuckets) st.

(** [while (bid < kTotalBuckets)] with [rest] turns left. *)
Fixpoint find_valid s (rest bid slot : nat) : res (option Iterator) :=
  match rest with
  | O => Ok None
  | Datatypes.S rest' =>
      b ← GetBucket s bid;
      let mask := Z.shiftr (BucketBase.GetBusy (base b)) (Z.of_nat slot) in
      if negb (mask =? 0) then d ← ctz mask; Ok (Some (mkIt bid (slot + d)))
      else find_valid s rest' (Datatypes.S bid) 0
  end.

Definition FindValidStartingFrom s (bid slot : nat) : res (option Iterator) :=
  find_valid s (kTotalBuckets - bid) bid slot.

(** The callback may change the segment: [self] reads it from the state. *)
Definition TraverseLogicalBucket {S} (self : S → res (Segment K V)) (bid : nat) (hfun : K → res Z)
    (cb : Iterator → S → res S) (st : S) : res (bool * S) :=
  _ ← cassert (bid <? kBucketNum)%nat;
  s ← self st; b ← GetBucket s bid;
  '(found, st) ←
    (if BucketBase.GetProbe kSlotNum (base b) false =? 0 then Ok (false, st) else
     ForEachSlot b (λ slot probe '(found, st),
       if negb probe then st ← cb (mkIt bid slot) st; Ok (true, st) else Ok (found, st)) (false, st));
  let nid := NextBid bid in
  s ← self st; next ← GetBucket s nid;
  '(found, st) ←
    (if BucketBase.GetProbe kSlotNum (base next) true =? 0 then Ok (found, st) else
     ForEachSlot next (λ slot probe '(found, st),
       if probe : bool then
         h ← (s ← self st; next ← GetBucket s nid; k ← aget (key next) slot; hfun k);
         _ ← cassert (HomeIndex h =? bid)%nat;
         st ← cb (mkIt nid slot) st; Ok (true, st)
       else Ok (found, st)) (found, st));
  s ← self st; b ← GetBucket s bid;
  if HasStash (base b) then
    rfold (λ j '(found, st),
      s ← self st; stashb ← GetBucket s j;
      ForEachSlot stashb (λ slot _ '(found, st),
        h ← (s ← self st; stashb ← GetBucket s j; k ← aget (key stashb) slot; hfun k);
        if (HomeIndex h =? bid)%nat then st ← cb (mkIt j slot) st; Ok (true, st)
        else Ok (found, st)) (found, st)) (seq kBucketNum kStashBucketNum) (found, st)
  else Ok (found, st).
End Segment.
