(* ===== verification/SegmentInv.v ===== *)
(** SegmentInv: the invariant of a Segment, its abstract contents, and how both
    change when one slot or the stash references of one bucket change. *)
From S2P Require Import Prelude Policy SlotBitmap BucketBase Bucket Segment.
Local Open Scope Z_scope.

Section bids.
Context `{PT : TablePolicy Q K V, DN : TableDenote Q K V W, PO : !TablePolicyOk Q K V W}.
Implicit Types (i h : nat).

Lemma home_index_lt (hash : Z) : (HomeIndex hash < kBucketNum)%nat.
Proof.
  unfold HomeIndex. pose proof bucket_bounds.
  pose proof (Z.mod_pos_bound (Z.shiftr hash kFingerBits) (Z.of_nat kBucketNum)). lia.
Qed.

Ltac bids := unfold NextBid, PrevBid; pose proof bucket_bounds;
  repeat match goal with
  | |- context [(?a <? ?b)%nat] =>
      lazymatch a with context [if _ then _ else _] => fail | _ => destruct (Nat.ltb_spec a b) end
  | |- context [(?a =? ?b)%nat] =>
      lazymatch a with context [if _ then _ else _] => fail | _ => destruct (Nat.eqb_spec a b) end
  end; lia.

Lemma next_lt i : (i < kBucketNum)%nat → (NextBid i < kBucketNum)%nat.
Proof. bids. Qed.
Lemma prev_lt i : (i < kBucketNum)%nat → (PrevBid i < kBucketNum)%nat.
Proof. bids. Qed.
Lemma next_ne i : (i < kBucketNum)%nat → NextBid i ≠ i.
Proof. bids. Qed.
Lemma prev_ne i : (i < kBucketNum)%nat → PrevBid i ≠ i.
Proof. bids. Qed.
Lemma next_next_ne i : (i < kBucketNum)%nat → NextBid (NextBid i) ≠ i.
Proof. bids. Qed.
Lemma prev_next i : (i < kBucketNum)%nat → PrevBid (NextBid i) = i.
Proof. bids. Qed.
Lemma next_inj i h : (i < kBucketNum)%nat → (h < kBucketNum)%nat → NextBid i = NextBid h → i = h.
Proof. intros Hi Hh E. rewrite <- (prev_next i Hi), E. by apply prev_next. Qed.

Lemma total_regular i : (i < kBucketNum)%nat → (i < kTotalBuckets)%nat.
Proof. unfold kTotalBuckets. lia. Qed.
Lemma total_stash p : (p < kStashBucketNum)%nat → (kBucketNum + p < kTotalBuckets)%nat.
Proof. unfold kTotalBuckets. lia. Qed.
End bids.

Section invariant.
Context `{PT : TablePolicy Q K V, DN : TableDenote Q K V W, PO : !TablePolicyOk Q K V W}.
Implicit Types (s : Segment K V) (b : Bucket K V) (i j y p : nat) (e : entry Q W).

Definition home (q : Q) : nat := HomeIndex (HashFnQ q).
Definition fp_of (q : Q) : Z := Z.land (HashFnQ q) kFpMask.

(** An entry may live in bucket [i]. *)
Definition pos_ok i e : Prop :=
  e_fp e = fp_of (e_key e) ∧
  if decide (i < kBucketNum)%nat then i = (if e_probe e then NextBid (home (e_key e)) else home (e_key e))
  else e_probe e = false.

Record seg_shape s : Prop := {
  sh_len : length (bucket_ s) = kTotalBuckets;
  sh_wf : ∀ i b, bucket_ s !! i = Some b → bucket_wf b;
  sh_pos : ∀ i b j e, bucket_ s !! i = Some b → slot_at b j = Some e → pos_ok i e;
}.

(** The entries of bucket [i]. *)
Definition bk s i : list (entry Q W) := from_option entries [] (bucket_ s !! i).
Definition seg_entries s : list (entry Q W) := seq 0 kTotalBuckets ≫= bk s.

(** The entries with home [y] that live in stash bucket [p], as [acct] wants them. *)
Definition items_in y p (l : list (entry Q W)) : list (Z * nat) :=
  (λ e, (e_fp e, p)) <$> filter (λ e, home (e_key e) = y) l.
Definition stash_items s y : list (Z * nat) :=
  seq 0 kStashBucketNum ≫= λ p, items_in y p (bk s (kBucketNum + p)).

(** Every home bucket accounts for its stash entries [its y]. *)
Definition accts s (its : nat → list (Z * nat)) : Prop :=
  ∀ y t n, (y < kBucketNum)%nat → bucket_ s !! y = Some t → bucket_ s !! NextBid y = Some n →
    acct (base t) (base n) (its y).

Definition seg_wf s : Prop := seg_shape s ∧ accts s (stash_items s).

(** The contents: keys with their values. *)
Definition kv e : Q * W := (e_key e, e_val e).
Definition seg_items s : list (Q * W) := kv <$> seg_entries s.

(** Depth and id. *)
Definition keep s s' : Prop := local_depth_ s' = local_depth_ s ∧ segment_id_ s' = segment_id_ s.

Lemma keep_refl s : keep s s.
Proof. done. Qed.
Lemma keep_trans s1 s2 s3 : keep s1 s2 → keep s2 s3 → keep s1 s3.
Proof. intros [] []. split; congruence. Qed.

Lemma get_bucket s i : seg_shape s → (i < kTotalBuckets)%nat →
  ∃ b, bucket_ s !! i = Some b ∧ GetBucket s i = Ok b ∧ bucket_wf b.
Proof.
  intros Hs Hi. destruct (lookup_lt_is_Some_2 (bucket_ s) i) as [b Hb]; [by rewrite (sh_len _ Hs)|].
  exists b. split_and!; [done|by apply aget_some|by eapply sh_wf].
Qed.

Definition seg_set s i b : Segment K V := set_buckets s (<[i := b]> (bucket_ s)).

Lemma set_bucket_ok s i b b' : bucket_ s !! i = Some b → set_bucket s i b' = Ok (seg_set s i b').
Proof. intros Hb. unfold set_bucket. by rewrite (aset_some _ _ _ _ Hb). Qed.

Lemma seg_set_lookup s i b b' j : bucket_ s !! i = Some b →
  bucket_ (seg_set s i b') !! j = if decide (i = j) then Some b' else bucket_ s !! j.
Proof.
  intros Hb. simpl. destruct (decide (i = j)) as [<-|].
  - apply list_lookup_insert_eq. by eapply lookup_lt_Some.
  - by apply list_lookup_insert_ne.
Qed.

(** ** Changing one slot *)

(** [s'] is [s] with slot [j] of bucket [i] changed from [o'] to [o]. *)
Definition seg_upd s s' i j (o' o : option (entry Q W)) : Prop :=
  ∃ b b', bucket_ s !! i = Some b ∧ slots b !! j = Some o' ∧ slot_upd b b' j o ∧ s' = seg_set s i b'.

Lemma slot_upd_slot_at b b' j o i : bucket_wf b → (j < kSlotNum)%nat → slot_upd b b' j o →
  slot_at b' i = if decide (j = i) then o else slot_at b i.
Proof.
  intros Hw Hj [Hw' Hs _]. destruct (decide (i < kSlotNum)%nat) as [Hi|Hi].
  - assert (slots b' !! i = Some (slot_at b' i)) as H1 by by apply slots_lookup.
    rewrite Hs in H1. destruct (decide (j = i)) as [<-|].
    + rewrite list_lookup_insert_eq in H1 by by rewrite slots_length. congruence.
    + rewrite list_lookup_insert_ne, slots_lookup in H1 by done. congruence.
  - rewrite decide_False by lia. rewrite !slot_at_free; [done|done| |done|].
    all: apply not_true_iff_false; intros Ho; apply occupied_lt in Ho; done.
Qed.

Lemma seg_upd_shape s s' i j o' o : seg_shape s → seg_upd s s' i j o' o →
  (∀ e, o = Some e → pos_ok i e) → seg_shape s'.
Proof.
  intros Hs (b & b' & Hb & Hj & Hu & ->) Ho. pose proof (sh_wf _ Hs _ _ Hb) as Hw.
  apply slots_lookup_inv in Hj as [Hj ->]. split.
  - simpl. by rewrite length_insert, (sh_len _ Hs).
  - intros k b1. rewrite (seg_set_lookup _ _ b) by done. case_decide.
    + intros [= <-]. apply Hu.
    + apply (sh_wf _ Hs).
  - intros k b1 j1 e. rewrite (seg_set_lookup _ _ b) by done. case_decide as E; [subst k|].
    + intros [= <-]. rewrite (slot_upd_slot_at b b' j o) by done.
      case_decide; [apply Ho|]. by apply (sh_pos _ Hs).
    + by apply (sh_pos _ Hs).
Qed.

Lemma stash_part_refs (x y : BucketBase) : stash_part x = stash_part y → refs x = refs y ∧ present x = present y ∧ overflow_count_ x = overflow_count_ y.
Proof.
  intros [= H1 H2 H3 H4 H5]. split_and!; [|unfold present; congruence|done].
  unfold refs. apply list_fmap_ext. intros ? i _. unfold ref_at. by rewrite H1, H2, H3, H4.
Qed.

Lemma acct_ext (t t' n n' : BucketBase) l : stash_part t' = stash_part t → stash_part n' = stash_part n →
  acct t n l → acct t' n' l.
Proof.
  intros (Ht & Htp & Hto)%stash_part_refs (Hn & _ & _)%stash_part_refs.
  unfold acct, refs_of. by rewrite Ht, Htp, Hto, Hn.
Qed.

Lemma accts_stash_part s i b b' its : accts s its → bucket_ s !! i = Some b →
  stash_part (base b') = stash_part (base b) → accts (seg_set s i b') its.
Proof.
  intros Ha Hb Hst y t n Hy. rewrite !(seg_set_lookup _ _ b) by done. intros Ht Hn.
  assert (∀ k b1, (if decide (i = k) then Some b' else bucket_ s !! k) = Some b1 →
    ∃ b0, bucket_ s !! k = Some b0 ∧ stash_part (base b1) = stash_part (base b0)) as Hold.
  { intros k b1. destruct (decide (i = k)) as [E|]; [|eauto]. intros [= E1]. rewrite <- E, <- E1. eauto. }
  destruct (Hold _ _ Ht) as (t0 & Ht0 & Et). destruct (Hold _ _ Hn) as (n0 & Hn0 & En).
  eapply acct_ext; [exact Et|exact En|]. by apply (Ha y).
Qed.

Lemma seg_upd_accts s s' i j o' o its : accts s its → seg_upd s s' i j o' o → accts s' its.
Proof. intros Ha (b & b' & Hb & _ & Hu & ->). eapply accts_stash_part; [done..|apply Hu]. Qed.

Lemma seg_upd_keep s s' i j o' o : seg_upd s s' i j o' o → keep s s'.
Proof. by intros (b & b' & _ & _ & _ & ->). Qed.

Lemma bk_seg_set s i b b' k : bucket_ s !! i = Some b →
  bk (seg_set s i b') k = if decide (i = k) then entries b' else bk s k.
Proof. intros Hb. unfold bk. rewrite (seg_set_lookup _ _ b) by done. by case_decide. Qed.

Lemma seg_upd_bk s s' i j o' o : seg_upd s s' i j o' o →
  option_list o ++ bk s i ≡ₚ option_list o' ++ bk s' i ∧ ∀ k, k ≠ i → bk s' k = bk s k.
Proof.
  intros (b & b' & Hb & Hj & Hu & ->). split.
  - rewrite (bk_seg_set _ _ b), decide_True by done. unfold bk. rewrite Hb. simpl.
    eapply entries_upd; [apply Hu|done].
  - intros k Hk. by rewrite (bk_seg_set _ _ b), decide_False by done.
Qed.

Lemma seg_upd_lt s s' i j o' o : seg_shape s → seg_upd s s' i j o' o → (i < kTotalBuckets)%nat.
Proof. intros Hs (b & _ & Hb & _). rewrite <- (sh_len _ Hs). by eapply lookup_lt_Some. Qed.

Lemma bk_upd_perm (f g : nat → list (entry Q W)) (l : list nat) i (x x' : list (entry Q W)) :
  NoDup l → i ∈ l → (∀ k, k ≠ i → f k = g k) → x ++ f i ≡ₚ x' ++ g i →
  x ++ (l ≫= f) ≡ₚ x' ++ (l ≫= g).
Proof.
  intros Hnd Hi Heq Hp. apply (Permutation_app_inv_l (g i)).
  rewrite (Permutation_app_swap_app _ x), (mbind_upd_perm f g l i); [|done|done|auto].
  rewrite (app_assoc x), Hp, <- app_assoc. by rewrite (Permutation_app_swap_app (g i)).
Qed.

Lemma seg_upd_entries s s' i j o' o : seg_shape s → seg_upd s s' i j o' o →
  option_list o ++ seg_entries s ≡ₚ option_list o' ++ seg_entries s'.
Proof.
  intros Hs Hu. destruct (seg_upd_bk _ _ _ _ _ _ Hu) as [Hp Hne].
  apply (bk_upd_perm _ _ _ i); [apply NoDup_seq| |by intros; rewrite Hne|done].
  apply elem_of_seq. pose proof (seg_upd_lt _ _ _ _ _ _ Hs Hu). lia.
Qed.

Lemma stash_items_ext s s' y : (∀ p, (p < kStashBucketNum)%nat → bk s' (kBucketNum + p) = bk s (kBucketNum + p)) →
  stash_items s' y = stash_items s y.
Proof.
  intros Hbk. unfold stash_items. apply Forall_bind_ext, Forall_forall. intros p [_ Hp]%elem_of_seq.
  by rewrite Hbk by done.
Qed.

Lemma seg_upd_stash_regular s s' i j o' o y : seg_upd s s' i j o' o → (i < kBucketNum)%nat →
  stash_items s' y = stash_items s y.
Proof.
  intros Hu Hi. destruct (seg_upd_bk _ _ _ _ _ _ Hu) as [_ Hne].
  apply stash_items_ext. intros p _. apply Hne. lia.
Qed.

#[export] Instance items_in_proper y p : Proper ((≡ₚ) ==> (≡ₚ)) (items_in y p).
Proof. intros l l' Hl. unfold items_in. by rewrite Hl. Qed.

Lemma items_in_app y p l l' : items_in y p (l ++ l') = items_in y p l ++ items_in y p l'.
Proof. unfold items_in. by rewrite filter_app, fmap_app. Qed.

Lemma seg_upd_stash s s' p j o' o y : seg_upd s s' (kBucketNum + p) j o' o → (p < kStashBucketNum)%nat →
  items_in y p (option_list o) ++ stash_items s y ≡ₚ items_in y p (option_list o') ++ stash_items s' y.
Proof.
  intros Hu Hp. destruct (seg_upd_bk _ _ _ _ _ _ Hu) as [Hperm Hne].
  unfold stash_items.
  apply (Permutation_app_inv_l (items_in y p (bk s' (kBucketNum + p)))).
  rewrite (Permutation_app_swap_app _ (items_in y p (option_list o))).
  rewrite (mbind_upd_perm (λ p, items_in y p (bk s (kBucketNum + p)))
             (λ p, items_in y p (bk s' (kBucketNum + p))) (seq 0 kStashBucketNum) p).
  - rewrite app_assoc, <- items_in_app, Hperm, items_in_app, <- app_assoc.
    by rewrite (Permutation_app_swap_app (items_in y p (bk s' _))).
  - apply NoDup_seq.
  - apply elem_of_seq. lia.
  - intros p' _ Hp'. by rewrite Hne by lia.
Qed.

(** A change of a slot of a regular bucket keeps the invariant. *)
Lemma seg_wf_upd_regular s s' i j o' o : seg_wf s → seg_upd s s' i j o' o → (i < kBucketNum)%nat →
  (∀ e, o = Some e → pos_ok i e) → seg_wf s'.
Proof.
  intros [Hs Ha] Hu Hi Ho. split; [by eapply seg_upd_shape|].
  intros y t n Hy Ht Hn. rewrite (seg_upd_stash_regular _ _ _ _ _ _ y Hu Hi).
  by eapply (seg_upd_accts _ _ _ _ _ _ _ Ha Hu).
Qed.

Lemma accts_ext s its its' : accts s its → (∀ y, its y ≡ₚ its' y) → accts s its'.
Proof. intros Ha Hi y t n Hy Ht Hn. rewrite <- Hi. by apply Ha. Qed.

Lemma stash_items_bound s y : seg_shape s → (length (stash_items s y) ≤ 64)%nat.
Proof.
  intros Hs. unfold stash_items.
  assert (∀ p, length (items_in y p (bk s (kBucketNum + p))) ≤ 16)%nat as Hb.
  { intros p. unfold items_in, bk. rewrite length_fmap. etrans; [apply length_filter|].
    destruct (bucket_ s !! _) as [b|]; simpl; [|lia]. rewrite entries_alt.
    etrans; [apply omap_length_le|]. rewrite length_seq. pose proof slot_bounds. lia. }
  change (seq 0 kStashBucketNum) with [0; 1; 2; 3]%nat. rewrite !bind_cons. simpl.
  rewrite !length_app. simpl. pose proof (Hb 0%nat). pose proof (Hb 1%nat). pose proof (Hb 2%nat). pose proof (Hb 3%nat). lia.
Qed.
End invariant.
