(* ===== verification/SegmentOps.v ===== *)
(** SegmentOps: what the lookup, the insertion and the deletion of a Segment
    compute, for segments that satisfy the invariant of SegmentInv. *)
From S2P Require Import Prelude Policy SlotBitmap BucketBase Bucket Segment SegmentInv.
Local Open Scope Z_scope.

Section stash_refs.
Context `{PT : TablePolicy Q K V, DN : TableDenote Q K V W, PO : !TablePolicyOk Q K V W}.
Implicit Types (s : Segment K V) (b : Bucket K V) (i j y p : nat) (e : entry Q W).

(** Only the stash references of [s'] differ from those of [s]. *)
Record same_slots s s' : Prop := {
  ss_len : length (bucket_ s') = length (bucket_ s);
  ss_at : ∀ i b', bucket_ s' !! i = Some b' →
            ∃ b, bucket_ s !! i = Some b ∧ ∀ j, slot_at b' j = slot_at b j;
  ss_keep : keep s s';
}.

Lemma same_slots_refl s : same_slots s s.
Proof. split; [done| |done]. eauto. Qed.

Lemma same_slots_trans s1 s2 s3 : same_slots s1 s2 → same_slots s2 s3 → same_slots s1 s3.
Proof.
  intros [L1 A1 K1] [L2 A2 K2]. split; [congruence| |by eapply keep_trans].
  intros i b3 (b2 & Hb2 & E2)%A2. apply A1 in Hb2 as (b1 & Hb1 & E1). exists b1. split; [done|].
  intros j. by rewrite E2, E1.
Qed.

Lemma same_slots_bk s s' i : same_slots s s' → bk s' i = bk s i.
Proof.
  intros [Hlen Hat _]. unfold bk. destruct (bucket_ s' !! i) as [b'|] eqn:Hb'.
  - destruct (Hat i b' Hb') as (b & -> & Hj). simpl. rewrite !entries_alt.
    apply list_omap_ext. apply Forall2_same_length_lookup_2; [done|].
    intros k x y Hx Hy. rewrite Hx in Hy. injection Hy as <-. done.
  - apply lookup_ge_None in Hb'. rewrite Hlen in Hb'. by rewrite lookup_ge_None_2.
Qed.

Lemma same_slots_entries s s' : same_slots s s' → seg_entries s' = seg_entries s.
Proof.
  intros Hs. unfold seg_entries. apply list_bind_ext; [|done]. intros i. by apply same_slots_bk.
Qed.

Lemma same_slots_stash s s' y : same_slots s s' → stash_items s' y = stash_items s y.
Proof. intros Hs. apply stash_items_ext. intros p _. by apply same_slots_bk. Qed.

Lemma with_base_frame b (x : BucketBase) : bucket_wf b → stash_wf x →
  slotb_ x = slotb_ (base b) → finger_arr_ x = finger_arr_ (base b) →
  bucket_wf (with_base b x) ∧ ∀ j, slot_at (with_base b x) j = slot_at b j.
Proof.
  intros Hw Hx Hs Hf. split.
  - apply with_base_wf; [done| |].
    + pose proof (bk_base _ Hw) as [H1 H2 _]. split; [by rewrite Hs|by rewrite Hf|done].
    + intros i. by rewrite Hs.
  - intros j. unfold slot_at, occupied. simpl. by rewrite Hs, Hf.
Qed.

Lemma same_slots_set s i b b' : bucket_ s !! i = Some b → (∀ j, slot_at b' j = slot_at b j) →
  same_slots s (seg_set s i b').
Proof.
  intros Hb Hj. split; [apply length_insert| |done]. intros k b1.
  rewrite (seg_set_lookup _ _ b) by done. destruct (decide (i = k)) as [<-|]; [|eauto].
  intros E. injection E as <-. eauto.
Qed.

Lemma same_slots_shape s s' : seg_shape s → same_slots s s' →
  (∀ i b, bucket_ s' !! i = Some b → bucket_wf b) → seg_shape s'.
Proof.
  intros Hs [Hl Ha _] Hw. split; [by rewrite Hl, (sh_len _ Hs)|done|].
  intros i b' j e Hb' He. destruct (Ha _ _ Hb') as (b & Hb & Hat). rewrite Hat in He. by eapply (sh_pos _ Hs).
Qed.

(** Replacing the metadata of bucket [y] and of its successor, when the new
    metadata accounts for [l] as the stash entries of [y]. *)
Lemma seg_frame s y (t n : Bucket K V) (t' n' : BucketBase) its l :
  seg_shape s → accts s its → (y < kBucketNum)%nat →
  bucket_ s !! y = Some t → bucket_ s !! NextBid y = Some n →
  frame (base t) t' (base n) n' → acct t' n' l →
  runs (s1 ← set_bucket s y (with_base t t'); set_bucket s1 (NextBid y) (with_base n n')) (λ s',
    seg_shape s' ∧ same_slots s s' ∧ accts s' (λ z, if decide (z = y) then l else its z)).
Proof.
  intros Hs Ha Hy Ht Hn Hf Hl. pose proof (next_ne y Hy) as Hne.
  rewrite (set_bucket_ok _ _ t) by done. rewrite bind_ok.
  assert (bucket_ (seg_set s y (with_base t t')) !! NextBid y = Some n) as Hn1
    by (rewrite (seg_set_lookup _ _ t), decide_False by done; done).
  rewrite (set_bucket_ok _ _ n) by done. apply runs_ok.
  destruct (with_base_frame t t') as [Hwt Hat]; [by eapply sh_wf|apply Hf..|].
  destruct (with_base_frame n n') as [Hwn Han]; [by eapply sh_wf|apply Hf..|].
  set (s1 := seg_set s y (with_base t t')) in *. set (s2 := seg_set s1 _ _).
  assert (same_slots s s2) as Hss.
  { eapply same_slots_trans; [|eapply same_slots_set; [exact Hn1|done]]. by eapply same_slots_set. }
  assert (∀ k, bucket_ s2 !! k = if decide (NextBid y = k) then Some (with_base n n')
                                  else if decide (y = k) then Some (with_base t t') else bucket_ s !! k) as Hlk.
  { intros k. unfold s2. rewrite (seg_set_lookup _ _ n) by done.
    destruct (decide (NextBid y = k)); [done|]. unfold s1. by rewrite (seg_set_lookup _ _ t). }
  split_and!; [|done|].
  - eapply same_slots_shape; [done..|]. intros i b. rewrite Hlk.
    repeat case_decide; try (intros E; injection E as <-; done). apply (sh_wf _ Hs).
  - intros z tz nz Hz. rewrite !Hlk.
    destruct (decide (z = y)) as [->|Hzy].
    + rewrite decide_False, decide_True by done. intros E1. injection E1 as <-.
      rewrite decide_True by done. intros E2. injection E2 as <-. done.
    + rewrite (decide_False (P := y = z)) by done.
      rewrite (decide_False (P := NextBid y = NextBid z)) by (intros E; by apply next_inj in E).
      destruct (decide (NextBid y = z)) as [<-|Hnz].
      * rewrite decide_False by (intros E; by apply (next_next_ne y)). intros E1 Hnz'. injection E1 as <-.
        pose proof (Ha _ _ _ Hz Hn Hnz') as (ov & Hp & Ho & Hpr). exists ov. simpl.
        rewrite (fr_refs_next _ _ _ _ Hf), (fr_over_next _ _ _ _ Hf), (fr_present_next _ _ _ _ Hf). done.
      * intros Htz. destruct (decide (y = NextBid z)) as [E|].
        -- intros E1. injection E1 as <-. rewrite E in Ht.
           pose proof (Ha _ _ _ Hz Htz Ht) as (ov & Hp & Ho & Hpr). exists ov. simpl.
           rewrite (fr_refs _ _ _ _ Hf). done.
        -- intros Hnz'. by apply (Ha z).
Qed.

(** [SetStashPtr] on bucket [y] and its successor. *)
Lemma set_stash_ptr_spec s y p fp its : seg_shape s → accts s its → (y < kBucketNum)%nat →
  (p < 4)%nat → (length (its y) < 255)%nat →
  runs (set_stash_ptr s y p fp) (λ s', seg_shape s' ∧ same_slots s s' ∧
    accts s' (λ z, if decide (z = y) then (fp, p) :: its y else its z)).
Proof.
  intros Hs Ha Hy Hp Hlen. unfold set_stash_ptr.
  destruct (get_bucket s y Hs) as (t & Ht & -> & Hwt); [by apply total_regular|].
  destruct (get_bucket s (NextBid y) Hs) as (n & Hn & -> & Hwn); [by apply total_regular, next_lt|].
  rewrite !bind_ok. rbind SetStashPtr_spec; [apply Hwt|apply Hwn|done|by apply (Ha y)|done|].
  intros [t' n'] [Hf Hac]. by eapply seg_frame.
Qed.

(** [RemoveStashReference] drops one accounted reference. *)
Lemma RemoveStashReference_spec s p q its l : seg_shape s → accts s its →
  its (home q) ≡ₚ (fp_of q, p) :: l →
  runs (RemoveStashReference s p (HashFnQ q)) (λ s', seg_shape s' ∧ same_slots s s' ∧
    accts s' (λ z, if decide (z = home q) then l else its z)).
Proof.
  intros Hs Ha Hp. unfold RemoveStashReference. fold (home q) (fp_of q).
  assert (home q < kBucketNum)%nat as Hy by apply home_index_lt.
  destruct (get_bucket s (home q) Hs) as (t & Ht & -> & Hwt); [by apply total_regular|].
  destruct (get_bucket s (NextBid (home q)) Hs) as (n & Hn & -> & Hwn); [by apply total_regular, next_lt|].
  rewrite !bind_ok. rbind (UnsetStashPtr_spec (base t) (fp_of q) p (base n) l); [apply Hwt|apply Hwn| |].
  { rewrite <- Hp. by apply (Ha (home q)). }
  intros [[t' n'] r] [Hf Hac]. by eapply seg_frame.
Qed.
End stash_refs.

Section lookup.
Context `{PT : TablePolicy Q K V, DN : TableDenote Q K V W, PO : !TablePolicyOk Q K V W}.
Implicit Types (s : Segment K V) (b : Bucket K V) (i j y p : nat) (e : entry Q W) (q : Q).

(** Slot [j] of bucket [i] holds [e]. *)
Definition holds s i j e : Prop := ∃ b, bucket_ s !! i = Some b ∧ slot_at b j = Some e.

Lemma elem_of_bk s i e : seg_shape s → e ∈ bk s i ↔ ∃ j, holds s i j e.
Proof.
  intros Hs. unfold bk, holds. destruct (bucket_ s !! i) as [b|] eqn:Hb; simpl.
  - rewrite elem_of_entries. split.
    + intros (j & _ & Hj). eauto.
    + intros (j & b' & E & Hj). injection E as <-. exists j. split; [|done].
      apply (occupied_lt b); [by eapply sh_wf|]. apply slot_at_occupied; [by eapply sh_wf|eauto].
  - split; [by intros ?%elem_of_nil|]. by intros (j & b' & ? & _).
Qed.

Lemma elem_of_seg_entries s e : seg_shape s → e ∈ seg_entries s ↔ ∃ i j, holds s i j e.
Proof.
  intros Hs. unfold seg_entries. rewrite list_elem_of_bind. split.
  - intros (i & He%elem_of_bk & _); [|done]. destruct He as [j Hj]. eauto.
  - intros (i & j & Hh). exists i. rewrite elem_of_bk, elem_of_seq by done. split; [eauto|].
    destruct Hh as (b & Hb & _). apply lookup_lt_Some in Hb. rewrite (sh_len _ Hs) in Hb. lia.
Qed.

Lemma elem_of_stash_items s p j e : seg_shape s → (p < kStashBucketNum)%nat →
  holds s (kBucketNum + p) j e → (fp_of (e_key e), p) ∈ stash_items s (home (e_key e)).
Proof.
  intros Hs Hp Hh. unfold stash_items. apply list_elem_of_bind. exists p. split; [|apply elem_of_seq; lia].
  unfold items_in. apply list_elem_of_fmap. exists e. split.
  - destruct Hh as (b & Hb & He). by rewrite (proj1 (sh_pos _ Hs _ _ _ _ Hb He)).
  - apply list_elem_of_filter. split; [done|]. apply elem_of_bk; eauto.
Qed.

Lemma HasStash_present (x : BucketBase) : HasStash x = present x.
Proof. apply (land_bit_at (stash_busy_ x) 4). Qed.

(** What is known of the result of a search for [q]. *)
Definition found_or_absent s q (r : option Iterator) : Prop :=
  match r with
  | Some it => ∃ e, holds s (index it) (slot it) e ∧ e_key e = q
  | None => ∀ e, e ∈ seg_entries s → e_key e ≠ q
  end.

Definition absent_in s q i (probe : bool) : Prop :=
  ∀ j e, holds s i j e → e_fp e = fp_of q → e_probe e = probe → e_key e ≠ q.

Lemma FindByFp_at s q i (p : bool) : seg_shape s → (i < kTotalBuckets)%nat →
  ∃ b, bucket_ s !! i = Some b ∧ GetBucket s i = Ok b ∧
    runs (FindByFp b (fp_of q) p (λ k, Equal k q)) (λ r,
      match r with
      | Some j => ∃ e, holds s i j e ∧ e_key e = q
      | None => absent_in s q i p
      end).
Proof.
  intros Hs Hi. destruct (get_bucket s i Hs Hi) as (b & Hb & Hg & Hw). exists b. split_and!; [done..|].
  eapply runs_mono; [by apply FindByFp_spec|]. intros [j|]; simpl.
  - intros (e & He & Hk & _). exists e. split; [|done]. exists b. done.
  - intros Hn j e (b' & Hb' & He). rewrite Hb in Hb'. injection Hb' as <-. apply (Hn j); [lia|done].
Qed.

Lemma stash_cb_spec s q p : seg_shape s → (p < kStashBucketNum)%nat →
  runs (stash_cb s (fp_of q) (λ k, Equal k q) p) (λ r,
    match r with
    | Some j => ∃ e, holds s (kBucketNum + p) j e ∧ e_key e = q
    | None => absent_in s q (kBucketNum + p) false
    end).
Proof.
  intros Hs Hp. unfold stash_cb. rewrite cassert_true, bind_ok by by apply Nat.ltb_lt.
  rewrite (Nat.add_comm p). destruct (FindByFp_at s q (kBucketNum + p) false) as (b & _ & -> & Hf); [done|by apply total_stash|].
  by rewrite bind_ok.
Qed.

(** Absence from the three places a key may live in is absence. *)
Lemma absent_everywhere s q : seg_shape s →
  absent_in s q (home q) false → absent_in s q (NextBid (home q)) true →
  (∀ p, (p < kStashBucketNum)%nat → absent_in s q (kBucketNum + p) false) →
  ∀ e, e ∈ seg_entries s → e_key e ≠ q.
Proof.
  intros Hs H1 H2 H3 e (i & j & Hh)%elem_of_seg_entries Hq; [|done].
  pose proof Hh as (b & Hb & He). destruct (sh_pos _ Hs _ _ _ _ Hb He) as [Hfp Hpos].
  rewrite Hq in *. case_decide as Hi.
  - destruct (e_probe e) eqn:Hp; subst i; [by eapply H2|by eapply H1].
  - apply lookup_lt_Some in Hb. rewrite (sh_len _ Hs) in Hb. unfold kTotalBuckets in Hb.
    replace i with (kBucketNum + (i - kBucketNum))%nat in Hh by lia.
    eapply (H3 (i - kBucketNum)%nat); [lia|done..].
Qed.

Lemma find_overflow_spec s q rest i : seg_shape s → (rest + i = kStashBucketNum)%nat →
  runs (find_overflow s (fp_of q) (λ k, Equal k q) rest i) (λ r,
    match r with
    | Some it => ∃ e, holds s (index it) (slot it) e ∧ e_key e = q
    | None => ∀ p, (i ≤ p < kStashBucketNum)%nat → absent_in s q (kBucketNum + p) false
    end).
Proof.
  intros Hs. revert i. induction rest as [|rest IH]; intros i Hi; simpl.
  - apply runs_ok. lia.
  - rbind (stash_cb_spec s q i Hs); [lia|]. intros [j|].
    + intros Hf. by apply runs_ok.
    + intros Hn. eapply runs_mono; [apply IH; lia|]. intros [it|]; [done|]. intros Hr p Hp.
      destruct (decide (i = p)) as [<-|]; [done|apply Hr; lia].
Qed.

Lemma iterate_stash_spec s q b probe : seg_shape s → bucket_wf b →
  runs (iterate_stash s b (fp_of q) probe (λ k, Equal k q)) (λ r,
    match r with
    | Some it => ∃ e, holds s (index it) (slot it) e ∧ e_key e = q
    | None => ∀ p, (fp_of q, p) ∈ refs_of probe (base b) → absent_in s q (kBucketNum + p) false
    end).
Proof.
  intros Hs Hw. unfold iterate_stash, IterateStash.
  pose proof (iterate_loop_spec (base b) (bwf_stash _ _ (bk_base _ Hw)) (fp_of q) probe
    (λ x _ pos, sid ← stash_cb s (fp_of q) (λ k, Equal k q) pos; Ok (x, sid))) as Hloop.
  rbind Hloop; [|done|].
  { intros i pos _ Hpos. rbind (stash_cb_spec s q pos Hs Hpos). intros sid _. by apply runs_ok. }
  intros [b' [[pos sid]|]] Hpost; unfold iterate_post in Hpost; simpl in Hpost; apply runs_ok; simpl.
  - destruct Hpost as (j & Hj & Href & Hf). apply ref_at_pos in Href as Hpos.
    assert (pos < kStashBucketNum)%nat as Hlt by (rewrite Hpos; apply pos_at_lt).
    destruct (stash_cb_spec s q pos Hs Hlt) as (o & Eo & Ho). rewrite Eo in Hf. by destruct o; simplify_eq/=.
  - destruct Hpost as [_ Hn]. intros p Hp. apply list_elem_of_omap in Hp as (o & Hr & Ho).
    destruct o as [[[fp pos] pr]|]; [|done]. simpl in Ho. destruct (Bool.eqb probe pr) eqn:Epr; [|done].
    apply eqb_prop in Epr as <-. injection Ho as -> <-. apply elem_of_refs in Hr as (j & Hj & Hr).
    apply ref_at_pos in Hr as Hpos.
    assert (pos < kStashBucketNum)%nat as Hlt by (rewrite Hpos; apply pos_at_lt).
    destruct (stash_cb_spec s q pos Hs Hlt) as (o & Eo & Ho).
    specialize (Hn j pos ltac:(unfold kStashFpLen in *; lia) Hr). rewrite Eo in Hn. by destruct o; simplify_eq/=.
Qed.

(** [FindIt] finds the key exactly when the segment holds it. *)
Lemma FindIt_spec s q : seg_wf s →
  runs (FindIt s (HashFnQ q) (λ k, Equal k q)) (found_or_absent s q).
Proof.
  intros [Hs Ha]. unfold FindIt. fold (home q) (fp_of q).
  assert (home q < kBucketNum)%nat as Hy by apply home_index_lt.
  destruct (FindByFp_at s q (home q) false) as (t & Ht & -> & Hf1); [done|by apply total_regular|].
  rewrite bind_ok. rbind Hf1. intros [j|]; [intros Hf; by apply runs_ok|]. intros Hn1.
  destruct (FindByFp_at s q (NextBid (home q)) true) as (n & Hn & -> & Hf2); [done|by apply total_regular, next_lt|].
  rewrite bind_ok. rbind Hf2. intros [j|]; [intros Hf; by apply runs_ok|]. intros Hn2.
  rewrite HasStash_present. destruct (Ha _ _ _ Hy Ht Hn) as (ov & Hp & Ho & Hpr).
  assert (∀ r, (match r with
    | Some it => ∃ e, holds s (index it) (slot it) e ∧ e_key e = q
    | None => ∀ p, (p < kStashBucketNum)%nat → absent_in s q (kBucketNum + p) false
    end) → found_or_absent s q r) as Hfin.
  { intros [it|]; [done|]. intros Hst. exact (absent_everywhere s q Hs Hn1 Hn2 Hst). }
  assert (∀ p, (p < kStashBucketNum)%nat → (fp_of q, p) ∉ stash_items s (home q) →
               absent_in s q (kBucketNum + p) false) as Hno.
  { intros p Hlt Hnin j e Hh _ _ Hq. apply Hnin. rewrite <- Hq. by eapply elem_of_stash_items. }
  destruct (present (base t)) eqn:Epr; cbn [negb].
  - destruct (HasStashOverflow (base t)) eqn:Eov.
    + eapply runs_mono; [by apply find_overflow_spec|]. intros [it|] Hr; apply Hfin; [done|].
      intros p Hp'. apply Hr. lia.
    + assert (ov = []) as ->.
      { unfold HasStashOverflow in Eov. apply Z.ltb_ge in Eov. destruct ov; [done|]. simpl in Ho. lia. }
      rewrite app_nil_r in Hp.
      rbind iterate_stash_spec; [done|by eapply sh_wf|]. intros [it|] Hr1; [apply runs_ok; by apply Hfin|].
      eapply runs_mono; [apply iterate_stash_spec; [done|by eapply sh_wf]|].
      intros [it|] Hr2; apply Hfin; [done|]. intros p Hlt.
      destruct (decide ((fp_of q, p) ∈ stash_items s (home q))) as [Hin|Hnin]; [|by apply Hno].
      rewrite Hp, elem_of_app in Hin. destruct Hin; [by apply Hr1|by apply Hr2].
  - apply runs_ok. apply Hfin. intros p Hlt. apply Hno; [done|].
    destruct (stash_items s (home q)) as [|x l]; [by intros ?%elem_of_nil|].
    assert (false = true); [by apply Hpr|done].
Qed.
End lookup.

Section insertion.
Context `{PT : TablePolicy Q K V, DN : TableDenote Q K V W, PO : !TablePolicyOk Q K V W, AO : !TableAssignOk Q K V W}.
Implicit Types (s : Segment K V) (b : Bucket K V) (i j y p : nat) (e : entry Q W) (q : Q).

Definition is_full s i : Prop := ∃ b, bucket_ s !! i = Some b ∧ full b = true.

Lemma seg_upd_holds s s' i j o e : seg_upd s s' i j o (Some e) → holds s' i j e.
Proof.
  intros (b & b' & Hb & Hj & Hu & ->). exists b'. rewrite (seg_set_lookup _ _ b), decide_True by done.
  split; [done|]. pose proof (sl_slots _ _ _ _ Hu) as Hs.
  assert (slots b' !! j = Some (Some e)) as Hj'.
  { rewrite Hs. apply list_lookup_insert_eq. by eapply lookup_lt_Some. }
  by apply slots_lookup_inv in Hj' as [_ <-].
Qed.

Lemma holds_full s i j e : seg_shape s → holds s i j e → (i < kTotalBuckets)%nat ∧ (j < kSlotNum)%nat.
Proof.
  intros Hs (b & Hb & He). split.
  - rewrite <- (sh_len _ Hs). by eapply lookup_lt_Some.
  - apply (occupied_lt b); [by eapply sh_wf|]. apply slot_at_occupied; [by eapply sh_wf|eauto].
Qed.

Lemma on_bucket_spec {A} s i b (f : Bucket K V → res (Bucket K V * A)) P :
  bucket_ s !! i = Some b → runs (f b) P →
  runs (on_bucket s i f) (λ '(s', r), ∃ b', P (b', r) ∧ s' = seg_set s i b').
Proof.
  intros Hb Hf. unfold on_bucket, GetBucket. rewrite (aget_some _ _ _ Hb), bind_ok.
  rbind Hf. intros [b' r] HP. rewrite (set_bucket_ok _ _ b) by done. rewrite bind_ok.
  apply runs_ok. eauto.
Qed.

(** [TryInsertToBucket] on bucket [i] of the segment. *)
Lemma TryInsertTo_spec s i u v fp pr : seg_shape s → (i < kTotalBuckets)%nat → src_ok u → val_ok v →
  runs (TryInsertTo s i u v fp pr) (λ '(s', r),
    match r with
    | None => s' = s ∧ is_full s i
    | Some j => seg_upd s s' i j None (Some (Entry (src_key u) (val_of v) fp pr))
    end).
Proof.
  intros Hs Hi Hu Hv. destruct (get_bucket s i Hs Hi) as (b & Hb & _ & Hw).
  eapply runs_mono; [apply (on_bucket_spec _ _ b); [done|by apply TryInsertToBucket_spec]|].
  intros [s' [j|]] (b' & Hr & ->).
  - destruct Hr as (_ & Hj & Hsl & Hupd). by exists b, b'.
  - destruct Hr as [Hf ->]. split; [|by exists b]. unfold seg_set, set_buckets.
    rewrite list_insert_id by done. by destruct s.
Qed.

Lemma InsertAt_spec s i j u v fp pr b : seg_shape s → bucket_ s !! i = Some b → slots b !! j = Some None →
  src_ok u → val_ok v →
  runs (InsertAt s i j u v fp pr) (λ s', seg_upd s s' i j None (Some (Entry (src_key u) (val_of v) fp pr))).
Proof.
  intros Hs Hb Hj Hu Hv. pose proof (sh_wf _ Hs _ _ Hb) as Hw.
  pose proof (slots_lookup_inv _ _ _ Hj) as [Hlt Hnone].
  assert (occupied b j = false) as Hfree.
  { apply not_true_iff_false. intros Ho. apply slot_at_occupied in Ho as [e He]; [|done]. congruence. }
  unfold InsertAt. rbind (on_bucket_spec s i b
    (λ b, b' ← Bucket.Insert b j u v fp pr; Ok (b', tt))
    (λ '(b', _), slot_upd b b' j (Some (Entry (src_key u) (val_of v) fp pr))) Hb).
  - rbind (bucket_Insert_spec b j u v fp pr Hw Hlt Hfree Hu Hv). intros b' Hb'. by apply runs_ok.
  - intros [s' []] (b' & Hupd & ->). apply runs_ok. by exists b, b'.
Qed.

Lemma DeleteAt_spec s i j e : seg_shape s → holds s i j e →
  runs (DeleteAt s i j) (λ s', seg_upd s s' i j (Some e) None).
Proof.
  intros Hs (b & Hb & He). pose proof (sh_wf _ Hs _ _ Hb) as Hw.
  assert (occupied b j = true) as Ho by (apply slot_at_occupied; eauto).
  unfold DeleteAt. rbind (on_bucket_spec s i b
    (λ b, b' ← Bucket.Delete b j; Ok (b', tt)) (λ '(b', _), slot_upd b b' j None) Hb).
  - rbind (bucket_Delete_spec b j Hw Ho). intros b' Hb'. by apply runs_ok.
  - intros [s' []] (b' & Hupd & ->). apply runs_ok. exists b, b'. split_and!; try done.
    rewrite slots_lookup by by apply (occupied_lt b). by f_equal.
Qed.

(** Entries after a change of a slot. *)
Lemma seg_upd_items s s' i j o' o : seg_shape s → seg_upd s s' i j o' o →
  (kv <$> option_list o) ++ seg_items s ≡ₚ (kv <$> option_list o') ++ seg_items s'.
Proof.
  intros Hs Hu. unfold seg_items. rewrite <- !fmap_app. by rewrite (seg_upd_entries _ _ _ _ _ _ Hs Hu).
Qed.

(** A freshly filled slot may be emptied again, and so on: the slot view of
    [s'] at the changed position. *)
Lemma seg_upd_slot s s' i j o' o : seg_upd s s' i j o' o →
  ∃ b', bucket_ s' !! i = Some b' ∧ slots b' !! j = Some o.
Proof.
  intros (b & b' & Hb & Hj & Hu & ->). exists b'. rewrite (seg_set_lookup _ _ b), decide_True by done.
  split; [done|]. rewrite (sl_slots _ _ _ _ Hu). apply list_lookup_insert_eq. by eapply lookup_lt_Some.
Qed.

Lemma seg_upd_holds_ne s s' i j o' o k l e : seg_shape s → seg_upd s s' i j o' o →
  (k, l) ≠ (i, j) → holds s k l e ↔ holds s' k l e.
Proof.
  intros Hs (b & b' & Hb & Hj & Hu & ->) Hne. pose proof (sh_wf _ Hs _ _ Hb) as Hw.
  apply slots_lookup_inv in Hj as [Hj ->]. unfold holds. rewrite (seg_set_lookup _ _ b) by done.
  destruct (decide (i = k)) as [<-|]; [|done].
  assert (slot_at b' l = slot_at b l) as E
    by (rewrite (slot_upd_slot_at b b' j o) by done; apply decide_False; congruence).
  split; intros (b1 & Hb1 & He); simplify_eq; [exists b'|exists b]; by rewrite E in *.
Qed.
End insertion.

Section displacement.
Context `{PT : TablePolicy Q K V, DN : TableDenote Q K V W, PO : !TablePolicyOk Q K V W, AO : !TableAssignOk Q K V W}.
Implicit Types (s : Segment K V) (b : Bucket K V) (i j y p : nat) (e : entry Q W) (q : Q).

(** The slot that [MoveToOther] picks: its entry has the probe flag [negb own]. *)
Lemma move_source_spec b (own : bool) : bucket_wf b → (own = true → full b = true) →
  BucketBase.GetProbe kSlotNum (base b) (negb own) ≠ 0 →
  ∃ j k v f, ctz (BucketBase.GetProbe kSlotNum (base b) (negb own)) = Ok j ∧
    key b !! j = Some k ∧ value b !! j = Some v ∧ key_ok k ∧ val_ok v ∧
    BucketBase.Fp (base b) j = Ok f ∧
    slot_at b j = Some (Entry (key_of k) (val_of v) f (negb own)).
Proof.
  intros Hw Hfull Hne. unfold BucketBase.GetProbe in *. pose proof (bk_base _ Hw) as Hb.
  pose proof (GetProbe_nonneg kSlotNum slot_num_pos (slotb_ (base b)) (negb own) (bwf_slots _ _ Hb)) as Hnn.
  destruct (ctz_spec (SlotBitmap.GetProbe kSlotNum (slotb_ (base b)) (negb own))) as (j & Hc & Hj & _); [lia|].
  rewrite GetProbe_bit in Hj by apply slot_num_pos.
  apply andb_true_iff in Hj as [Hlt%bool_decide_eq_true Hp%eqb_prop].
  assert (occupied b j = true) as Ho.
  { destruct own; simpl in Hp; [by eapply full_spec; [..|apply Hfull|]|].
    apply (wf_sub _ _ (bwf_slots _ _ Hb)). by rewrite <- Hp. }
  destruct (occupied_inv b j Hw Ho) as (k & v & f & Hk & Hv & Hf & Hok & Hvok & Hs).
  rewrite <- Hp in Hs. exists j, k, v, f. split_and!; try done.
  unfold BucketBase.Fp. rewrite cassert_true, bind_ok; [by apply aget_some|].
  apply Nat.ltb_lt. by eapply lookup_lt_Some.
Qed.

Lemma move_pos_ok (own : bool) from to (e : entry Q W) : (from < kBucketNum)%nat →
  to = (if own then NextBid from else PrevBid from) → pos_ok from e → e_probe e = negb own →
  pos_ok to (Entry (e_key e) (e_val e) (e_fp e) own).
Proof.
  intros Hf -> [Hfp Hpos] Hp. split; [done|]. cbn [e_probe e_key].
  rewrite (decide_True _ _ Hf), Hp in Hpos. assert (home (e_key e) < kBucketNum)%nat by apply home_index_lt.
  rewrite decide_True by (destruct own; [by apply next_lt|by apply prev_lt]).
  destruct own; simpl in Hpos; subst from; [done|by apply prev_next].
Qed.

Lemma MoveToOther_spec s (own : bool) from to : seg_wf s → (from < kBucketNum)%nat →
  to = (if own then NextBid from else PrevBid from) → (own = true → is_full s from) →
  runs (MoveToOther s own from to) (λ '(s', r),
    match r with
    | None => s' = s
    | Some j => seg_wf s' ∧ keep s s' ∧ seg_items s' ≡ₚ seg_items s ∧
                ∃ b', bucket_ s' !! from = Some b' ∧ slots b' !! j = Some None
    end).
Proof.
  intros Hw Hf Hto Hfull. pose proof Hw as [Hs Ha].
  assert (to < kBucketNum)%nat as Ht by (subst to; destruct own; [by apply next_lt|by apply prev_lt]).
  assert (to ≠ from) as Hne by (subst to; destruct own; [by apply next_ne|by apply prev_ne]).
  unfold MoveToOther. rewrite cassert_true, bind_ok by (apply andb_true_iff; split; by apply Nat.ltb_lt).
  destruct (get_bucket s from Hs) as (b & Hb & -> & Hwb); [by apply total_regular|]. rewrite bind_ok.
  destruct (Z.eqb_spec (BucketBase.GetProbe kSlotNum (base b) (negb own)) 0) as [|Hnz]; [by apply runs_ok|].
  destruct (move_source_spec b own Hwb) as (j & k & v & f & -> & Hk & Hv & Hok & Hvok & Hfp & He); [|done|].
  { intros Ho. destruct (Hfull Ho) as (b1 & Hb1 & Hfb). rewrite Hb in Hb1. by injection Hb1 as <-. }
  rewrite bind_ok, (aget_some _ _ _ Hk), bind_ok, (aget_some _ _ _ Hv), bind_ok, Hfp, bind_ok.
  assert (holds s from j (Entry (key_of k) (val_of v) f (negb own))) as Hh by by exists b.
  rbind (TryInsertTo_spec s to (FromKey k) v f own Hs); [by apply total_regular|done|done|].
  intros [s1 [d|]]; [|intros [-> _]; by apply runs_ok]. intros Hu1.
  assert (seg_wf s1) as Hw1.
  { eapply seg_wf_upd_regular; [done..|]. intros e E. injection E as <-.
    apply (move_pos_ok own from to (Entry (key_of k) (val_of v) f (negb own))); [done..| |done].
    by apply (sh_pos _ Hs _ _ _ _ Hb He). }
  assert (holds s1 from j (Entry (key_of k) (val_of v) f (negb own))) as Hh1.
  { eapply (seg_upd_holds_ne s s1); [done..| |done]. congruence. }
  rbind (DeleteAt_spec s1 from j _ (proj1 Hw1) Hh1). intros s2 Hu2. apply runs_ok. split_and!.
  - eapply (seg_wf_upd_regular s1 s2); [done|exact Hu2|done|by intros].
  - exact (keep_trans _ _ _ (seg_upd_keep _ _ _ _ _ _ Hu1) (seg_upd_keep _ _ _ _ _ _ Hu2)).
  - apply (Permutation_app_inv_l [(key_of k, val_of v)]).
    rewrite (seg_upd_items _ _ _ _ _ _ Hs Hu1 : [(key_of k, val_of v)] ++ _ ≡ₚ _). simpl.
    by rewrite <- (seg_upd_items _ _ _ _ _ _ (proj1 Hw1) Hu2).
  - by apply (seg_upd_slot _ _ _ _ _ _ Hu2).
Qed.
End displacement.

Section insert_uniq.
Context `{PT : TablePolicy Q K V, DN : TableDenote Q K V W, PO : !TablePolicyOk Q K V W, AO : !TableAssignOk Q K V W}.
Implicit Types (s : Segment K V) (b : Bucket K V) (i j y p : nat) (e : entry Q W) (q : Q).
Implicit Types (u : KeySrc Q K) (v : V).

(** The key and the value are added at [it]; the other contents stay. *)
Record inserted s s' u v (it : Iterator) : Prop := {
  ins_wf : seg_wf s';
  ins_keep : keep s s';
  ins_items : seg_items s' ≡ₚ (src_key u, val_of v) :: seg_items s;
  ins_at : ∃ e, holds s' (index it) (slot it) e ∧ kv e = (src_key u, val_of v);
}.

Lemma inserted_after s s1 s' u v it : keep s s1 → seg_items s1 ≡ₚ seg_items s →
  inserted s1 s' u v it → inserted s s' u v it.
Proof. intros Hk Hi []. split; [done|by eapply keep_trans|by rewrite <- Hi|done]. Qed.

(** No bucket in which the key could be stored has a free slot. *)
Definition crowded s y : Prop :=
  is_full s y ∧ is_full s (NextBid y) ∧ ∀ p, (p < kStashBucketNum)%nat → is_full s (kBucketNum + p).

Definition new_entry u v (pr : bool) : entry Q W := Entry (src_key u) (val_of v) (fp_of (src_key u)) pr.

Lemma new_entry_home u v (pr : bool) i :
  i = (if pr then NextBid (home (src_key u)) else home (src_key u)) → pos_ok i (new_entry u v pr).
Proof.
  intros ->. split; [done|]. cbn [new_entry e_probe e_key].
  assert (home (src_key u) < kBucketNum)%nat by apply home_index_lt.
  rewrite decide_True; [done|]. destruct pr; [by apply next_lt|done].
Qed.

Lemma insert_regular s s' u v (pr : bool) i j : seg_wf s → 
  i = (if pr then NextBid (home (src_key u)) else home (src_key u)) →
  seg_upd s s' i j None (Some (new_entry u v pr)) → inserted s s' u v (mkIt i j).
Proof.
  intros Hw Hi Hu. split.
  - eapply (seg_wf_upd_regular s s'); [done|exact Hu| |].
    + subst i. assert (home (src_key u) < kBucketNum)%nat by apply home_index_lt.
      destruct pr; [by apply next_lt|done].
    + intros e E. injection E as <-. by apply new_entry_home.
  - by eapply seg_upd_keep.
  - symmetry. apply (seg_upd_items _ _ _ _ _ _ (proj1 Hw) Hu).
  - eexists. split; [by apply (seg_upd_holds _ _ _ _ _ _ Hu)|done].
Qed.

Lemma items_in_one y p (e : entry Q W) :
  items_in y p [e] = if decide (home (e_key e) = y) then [(e_fp e, p)] else [].
Proof. unfold items_in. rewrite filter_cons. by case_decide. Qed.

Lemma insert_stash_slot s s1 u v p j : seg_wf s → (p < kStashBucketNum)%nat →
  seg_upd s s1 (kBucketNum + p) j None (Some (new_entry u v false)) →
  runs (set_stash_ptr s1 (home (src_key u)) p (fp_of (src_key u)))
       (λ s2, inserted s s2 u v (mkIt (kBucketNum + p) j)).
Proof.
  intros [Hs Ha] Hp Hu. pose proof (λ y, seg_upd_stash _ _ _ _ _ _ y Hu Hp) as Hst.
  assert (seg_shape s1) as Hs1.
  { eapply seg_upd_shape; [done..|]. intros e E. injection E as <-. split; [done|]. by rewrite decide_False by lia. }
  pose proof (stash_items_bound s (home (src_key u)) Hs).
  eapply runs_mono; [eapply (set_stash_ptr_spec s1); [done|by eapply seg_upd_accts|apply home_index_lt|done|lia]|].
  intros s2 (Hs2 & Hss & Ha2). split.
  - split; [done|]. eapply accts_ext; [exact Ha2|]. intros y. rewrite (same_slots_stash _ _ y Hss).
    etrans; [|apply Hst].
    change (option_list (Some ?e)) with [e]. rewrite items_in_one. cbn [new_entry e_key e_fp].
    destruct (decide (y = home (src_key u))) as [->|]; [by rewrite decide_True|by rewrite decide_False].
  - eapply keep_trans; [by eapply seg_upd_keep|apply Hss].
  - unfold seg_items. rewrite (same_slots_entries _ _ Hss). symmetry. apply (seg_upd_items _ _ _ _ _ _ Hs Hu).
  - exists (new_entry u v false). split; [|done]. apply seg_upd_holds in Hu as (b1 & Hb1 & He).
    destruct (lookup_lt_is_Some_2 (bucket_ s2) (kBucketNum + p)) as [b2 Hb2].
    { rewrite (ss_len _ _ Hss). by eapply lookup_lt_Some. }
    exists b2. split; [done|]. destruct (ss_at _ _ Hss _ _ Hb2) as (b1' & Hb1' & Hat).
    cbn [slot]. rewrite Hb1 in Hb1'. injection Hb1' as <-. by rewrite Hat.
Qed.

Lemma insert_stash_spec s u v rest i : seg_wf s → src_ok u → val_ok v → (rest + i = kStashBucketNum)%nat →
  runs (insert_stash s (home (src_key u)) u v (fp_of (src_key u)) rest i) (λ '(s', r),
    match r with
    | Some it => inserted s s' u v it
    | None => s' = s ∧ ∀ k, (i ≤ k < kStashBucketNum)%nat →
                is_full s (kBucketNum + (home (src_key u) + k) mod kStashBucketNum)
    end).
Proof.
  intros Hw Hu Hv. revert i. induction rest as [|rest IH]; intros i Hi; simpl.
  { apply runs_ok. split; [done|]. lia. }
  set (p := ((home (src_key u) + i) mod kStashBucketNum)%nat).
  assert (p < kStashBucketNum)%nat as Hp by by apply Nat.mod_upper_bound.
  rbind (TryInsertTo_spec s (kBucketNum + p) u v (fp_of (src_key u)) false (proj1 Hw)); [by apply total_stash|done..|].
  intros [s1 [j|]].
  - intros Hupd. rbind (insert_stash_slot s s1 u v p j); [done..|]. intros s2 Hins. by apply runs_ok.
  - intros [-> Hf]. eapply runs_mono; [apply IH; lia|]. intros [s2 [it|]]; [done|].
    intros [-> Hn]. split; [done|]. intros k Hk. destruct (decide (i = k)) as [<-|]; [done|apply Hn; lia].
Qed.

Lemma mod4_surj y p : (p < kStashBucketNum)%nat → ∃ k, (k < kStashBucketNum)%nat ∧ p = ((y + k) mod kStashBucketNum)%nat.
Proof.
  unfold kStashBucketNum. intros Hp. exists ((p + 3 * y) mod 4)%nat.
  pose proof (Nat.mod_upper_bound (p + 3 * y) 4). split; [lia|].
  rewrite Nat.Div0.add_mod_idemp_r. replace (y + (p + 3 * y))%nat with (p + y * 4)%nat by lia.
  rewrite Nat.Div0.mod_add. symmetry. by apply Nat.mod_small.
Qed.

Lemma bucket_size_le b : bucket_wf b → (SlotBitmap.Size (slotb_ (base b)) ≤ kSlotNum)%nat.
Proof.
  intros Hw. rewrite (Size_bits kSlotNum) by apply Hw. etrans; [apply length_filter|].
  by rewrite bits_of_length.
Qed.

(** [InsertUniq] adds the key, or the segment is crowded around its home.
    Without [spread] it uses the home bucket while that has a free slot. *)
Lemma InsertUniq_spec s u v spread : seg_wf s → src_ok u → val_ok v →
  runs (InsertUniq s u v (HashFnQ (src_key u)) spread) (λ '(s', r),
    match r with
    | Some it => inserted s s' u v it ∧
        (spread = false → is_full s (home (src_key u)) ∨
           seg_upd s s' (home (src_key u)) (slot it) None (Some (new_entry u v false)))
    | None => s' = s ∧ crowded s (home (src_key u))
    end).
Proof.
  intros Hw Hu Hv. pose proof Hw as [Hs Ha]. unfold InsertUniq.
  fold (home (src_key u)) (fp_of (src_key u)). set (y := home (src_key u)).
  assert (y < kBucketNum)%nat as Hy by apply home_index_lt. pose proof (next_lt y Hy) as Hny.
  destruct (get_bucket s y Hs) as (t & Ht & -> & Hwt); [by apply total_regular|].
  destruct (get_bucket s (NextBid y) Hs) as (n & Hn & -> & Hwn); [by apply total_regular|].
  rewrite !bind_ok. set (pr := spread && _).
  rbind (TryInsertTo_spec s (if pr then NextBid y else y) u v (fp_of (src_key u)) pr Hs);
    [destruct pr; by apply total_regular|done..|].
  intros [s0 [j|]].
  { intros Hupd. apply runs_ok. split; [by eapply insert_regular|]. intros ->. by right. }
  intros [-> Hf1].
  assert (pr = false) as Hpr.
  { destruct pr eqn:Epr; [exfalso|done]. apply andb_true_iff in Epr as [_ Hlt%Nat.ltb_lt].
    destruct Hf1 as (n1 & Hn1 & Hfn). rewrite Hn in Hn1. injection Hn1 as <-.
    apply Nat.eqb_eq in Hfn. pose proof (bucket_size_le t Hwt). unfold BucketBase.Size in *. lia. }
  rewrite Hpr in Hf1. assert (spread = true → is_full s (NextBid y)) as Hfs.
  { intros ->. exists n. split; [done|]. apply Nat.eqb_eq. destruct Hf1 as (t1 & Ht1 & Hft).
    rewrite Ht in Ht1. injection Ht1 as <-. apply Nat.eqb_eq in Hft. apply Nat.ltb_ge in Hpr.
    pose proof (bucket_size_le n Hwn). unfold BucketBase.Size in *. lia. }
  apply (runs_bind _ _ (λ '(s1, r), match r with
    | Some j => inserted s s1 u v (mkIt (NextBid y) j)
    | None => s1 = s ∧ is_full s (NextBid y) end)).
  { destruct spread; [apply runs_ok; auto|].
    eapply runs_mono; [by apply (TryInsertTo_spec s (NextBid y)), Hv; [|apply total_regular|]|].
    intros [s1 [j|]]; [|done]. intros Hupd. by apply (insert_regular s s1 u v true). }
  intros [s1 [j|]]; [intros Hins; apply runs_ok; by auto|]. intros [-> Hf2].
  rbind (MoveToOther_spec s true (NextBid y) (NextBid (NextBid y)) Hw Hny); [done|done|].
  intros [s2 [j|]].
  { intros (Hw2 & Hk2 & Hi2 & b2 & Hb2 & Hj2).
    rbind (InsertAt_spec s2 (NextBid y) j u v (fp_of (src_key u)) true b2 (proj1 Hw2)); [done..|].
    intros s3 Hupd. apply runs_ok. split; [|by auto]. eapply inserted_after; [done..|]. by apply (insert_regular s2 s3 u v true). }
  intros ->. rbind (MoveToOther_spec s false y (PrevBid y) Hw Hy); [done|done|].
  intros [s2 [j|]].
  { intros (Hw2 & Hk2 & Hi2 & b2 & Hb2 & Hj2).
    rbind (InsertAt_spec s2 y j u v (fp_of (src_key u)) false b2 (proj1 Hw2)); [done..|].
    intros s3 Hupd. apply runs_ok. split; [|by auto]. eapply inserted_after; [done..|]. by apply (insert_regular s2 s3 u v false). }
  intros ->. eapply runs_mono; [by apply insert_stash_spec|]. intros [s2 [it|]]; [by auto|].
  intros [-> Hst]. split; [done|]. split; [done|]. split; [done|]. intros p Hp.
  destruct (mod4_surj y p Hp) as (k & Hk & ->). apply Hst. lia.
Qed.
End insert_uniq.

Section deletion.
Context `{PT : TablePolicy Q K V, DN : TableDenote Q K V W, PO : !TablePolicyOk Q K V W}.
Implicit Types (s : Segment K V) (b : Bucket K V) (i j y p : nat) (e : entry Q W) (q : Q).

Lemma same_slots_holds s s' i j e : same_slots s s' → holds s' i j e ↔ holds s i j e.
Proof.
  intros [Hl Ha _]. split.
  - intros (b' & Hb' & He). destruct (Ha _ _ Hb') as (b & Hb & Hat). exists b. by rewrite <- Hat.
  - intros (b & Hb & He). destruct (lookup_lt_is_Some_2 (bucket_ s') i) as [b' Hb'];
      [rewrite Hl; by eapply lookup_lt_Some|].
    exists b'. split; [done|]. destruct (Ha _ _ Hb') as (b1 & Hb1 & Hat).
    rewrite Hb in Hb1. injection Hb1 as <-. by rewrite Hat.
Qed.

(** The effect of [Delete]: one slot is emptied, the others are left alone. *)
Record removed s s' i j e : Prop := {
  rem_wf : seg_wf s';
  rem_keep : keep s s';
  rem_items : seg_items s ≡ₚ kv e :: seg_items s';
  rem_others : ∀ k l e', (k, l) ≠ (i, j) → holds s' k l e' ↔ holds s k l e';
  rem_at : ∀ e', ¬ holds s' i j e';
}.

Lemma seg_upd_empty s s' i j o : seg_upd s s' i j o None → ∀ e, ¬ holds s' i j e.
Proof.
  intros Hu e (b & Hb & He). destruct (seg_upd_slot _ _ _ _ _ _ Hu) as (b' & Hb' & Hj).
  rewrite Hb in Hb'. injection Hb' as <-. apply slots_lookup_inv in Hj as [_ Hj]. congruence.
Qed.

Lemma removed_upd s s' s'' i j e : seg_shape s → same_slots s s' → seg_wf s'' → 
  seg_shape s' → seg_upd s' s'' i j (Some e) None → removed s s'' i j e.
Proof.
  intros Hs Hss Hw Hs' Hu. split.
  - done.
  - eapply keep_trans; [apply Hss|by eapply seg_upd_keep].
  - unfold seg_items at 1. rewrite <- (same_slots_entries _ _ Hss).
    apply (seg_upd_items _ _ _ _ _ _ Hs' Hu).
  - intros k l e' Hne. rewrite <- (same_slots_holds s s') by done. symmetry. by eapply seg_upd_holds_ne.
  - by eapply seg_upd_empty.
Qed.

(** Once its reference is gone, a stash entry can be removed. *)
Lemma stash_slot_removed s s' p j e l : seg_shape s → (p < kStashBucketNum)%nat →
  seg_upd s s' (kBucketNum + p) j (Some e) None → e_fp e = fp_of (e_key e) →
  accts s (λ z, if decide (z = home (e_key e)) then l else stash_items s z) →
  stash_items s (home (e_key e)) ≡ₚ (fp_of (e_key e), p) :: l → seg_wf s'.
Proof.
  intros Hs Hp Hu Hfp Ha Hl. split; [eapply seg_upd_shape; [done..|by intros]|].
  pose proof (seg_upd_accts _ _ _ _ _ _ _ Ha Hu) as Ha'. eapply accts_ext; [exact Ha'|].
  intros y. pose proof (seg_upd_stash _ _ _ _ _ _ y Hu Hp) as Hst. simpl in Hst.
  change (items_in y p []) with ([] : list (Z * nat)) in Hst. rewrite items_in_one, Hfp in Hst. cbn [app] in Hst.
  destruct (decide (y = home (e_key e))) as [->|].
  - rewrite decide_True in Hst by done. rewrite Hl in Hst.
    apply Permutation_cons_inv in Hst. by rewrite decide_True.
  - rewrite decide_False in Hst by done. by rewrite decide_False.
Qed.

Lemma Delete_spec s i j e : seg_wf s → holds s i j e →
  runs (Delete s (mkIt i j) (HashFnQ (e_key e))) (λ s', removed s s' i j e).
Proof.
  intros [Hs Ha] Hh. pose proof Hh as (b & Hb & He). destruct (sh_pos _ Hs _ _ _ _ Hb He) as [Hfp Hpos].
  unfold Delete. cbn [index slot]. destruct (Nat.leb_spec kBucketNum i) as [Hge|Hlt].
  - destruct (holds_full s i j e Hs Hh) as [Hi _]. unfold kTotalBuckets in Hi.
    assert (∃ p, i = kBucketNum + p ∧ i - kBucketNum = p ∧ p < kStashBucketNum)%nat as (p & -> & Ep & Hp)
      by (exists (i - kBucketNum)%nat; lia). rewrite Ep.
    pose proof (elem_of_stash_items s p j e Hs Hp Hh) as Hin. apply elem_of_Permutation in Hin as [l Hl].
    rbind (RemoveStashReference_spec s p (e_key e) (stash_items s) l Hs Ha Hl). intros s1 (Hs1 & Hss & Ha1).
    assert (holds s1 (kBucketNum + p) j e) as Hh1 by by apply (same_slots_holds s s1).
    eapply runs_mono; [by apply (DeleteAt_spec s1)|]. intros s2 Hu.
    eapply removed_upd; [done|exact Hss| |done|done].
    apply (stash_slot_removed s1 s2 p j e l); [done|done|exact Hu|done| |].
    + eapply accts_ext; [exact Ha1|]. intros y. cbv beta. destruct (decide (y = home (e_key e))); [done|]. by rewrite (same_slots_stash s s1).
    + by rewrite (same_slots_stash s s1).
  - rewrite bind_ok. eapply runs_mono; [by apply (DeleteAt_spec s i j e)|]. intros s2 Hu.
    eapply removed_upd; [done|apply same_slots_refl| |done|done].
    eapply (seg_wf_upd_regular s s2); [done|exact Hu|done|by intros].
Qed.

Lemma seg_items_length s : length (seg_items s) = length (seg_entries s).
Proof. unfold seg_items. by rewrite length_fmap. Qed.

Lemma full_entries b : bucket_wf b → full b = true → length (entries b) = kSlotNum.
Proof.
  intros Hw Hf. rewrite entries_alt. rewrite <- (length_seq kSlotNum 0) at 2.
  assert (∀ l, (∀ i, i ∈ l → is_Some (slot_at b i)) → length (omap (slot_at b) l) = length l) as Hl.
  { induction l as [|i l IH]; intros Hl; [done|]. csimpl. destruct (Hl i) as [e ->]; [by left|].
    simpl. f_equal. apply IH. intros k Hk. apply Hl. by right. }
  apply Hl. intros i [_ Hi]%elem_of_seq. apply slot_at_occupied; [done|].
  by apply (proj1 (full_spec b Hw) Hf).
Qed.

Lemma is_full_length s i : seg_shape s → is_full s i → length (bk s i) = kSlotNum.
Proof. intros Hs (b & Hb & Hf). unfold bk. rewrite Hb. apply full_entries; [by eapply sh_wf|done]. Qed.

(** A segment that is crowded around some bucket holds at least six buckets
    of entries. *)
Lemma crowded_size s y : seg_shape s → (y < kBucketNum)%nat → crowded s y →
  (6 * kSlotNum ≤ length (seg_items s))%nat.
Proof.
  intros Hs Hy (H1 & H2 & H3). rewrite seg_items_length. unfold seg_entries, kTotalBuckets.
  rewrite seq_app, bind_app, length_app. rewrite Nat.add_0_l.
  assert (2 * kSlotNum ≤ length (seq 0 kBucketNum ≫= bk s))%nat.
  { assert ([y; NextBid y] ⊆+ seq 0 kBucketNum) as Hsub.
    { apply NoDup_submseteq.
      - repeat constructor; rewrite ?list_elem_of_singleton; [|by intros ?%elem_of_nil].
        intros E. by apply (next_ne y).
      - intros x. rewrite elem_of_cons, list_elem_of_singleton, elem_of_seq.
        pose proof (next_lt y Hy). intros [-> | ->]; lia. }
    apply submseteq_Permutation in Hsub as [k ->]. rewrite bind_app, !bind_cons, !length_app.
    rewrite !is_full_length by done. simpl. lia. }
  assert (seq kBucketNum kStashBucketNum = [kBucketNum + 0; kBucketNum + 1; kBucketNum + 2; kBucketNum + 3]%nat) as ->.
  { unfold kStashBucketNum. simpl. repeat f_equal; lia. }
  rewrite !bind_cons, !length_app. rewrite !is_full_length by (done || apply H3; unfold kStashBucketNum; lia).
  simpl. lia.
Qed.

(** ** Empty buckets, as [Clear] and the constructor leave them *)

Definition blank b : Prop :=
  bucket_wf b ∧ (∀ j, slot_at b j = None) ∧ (∀ pr, refs_of pr (base b) = []) ∧ present (base b) = false ∧
  overflow_count_ (base b) = 0.

Lemma blank_intro (x : BucketBase) (ks : list K) (vs : list V) :
  slotb_ x = empty_bitmap → length (finger_arr_ x) = kSlotNum → length (stash_arr_ x) = kStashFpLen →
  stash_busy_ x = 0 → stash_pos_ x = 0 → stash_probe_mask_ x = 0 → overflow_count_ x = 0 →
  length ks = kSlotNum → length vs = kSlotNum → Forall key_asg ks → Forall val_asg vs →
  blank (mkBucket x ks vs).
Proof.
  destruct x as [sb fa sa bu po pm ov]. cbn [slotb_ finger_arr_ stash_arr_ stash_busy_ stash_pos_ stash_probe_mask_ overflow_count_].
  intros -> Hf Hst -> -> -> -> Hk Hv Hka Hva. split_and!.
  - split; [split|done|done| |done|done]; simpl.
    + apply (empty_bitmap_wf kSlotNum slot_num_pos).
    + done.
    + split; simpl; try lia. by intros i; rewrite Z.testbit_0_l.
    + intros i k v Ho. unfold occupied, busy_bit in Ho. simpl in Ho. by rewrite Z.testbit_0_l in Ho.
  - intros j. unfold slot_at, occupied, busy_bit. simpl. by rewrite Z.testbit_0_l.
  - intros pr. unfold refs_of, refs, ref_at. simpl. done.
  - done.
  - done.
Qed.

Lemma blank_segment s : length (bucket_ s) = kTotalBuckets →
  (∀ i b, bucket_ s !! i = Some b → blank b) → seg_wf s ∧ seg_items s = [].
Proof.
  intros Hlen Hbl. assert (∀ i, bk s i = []) as Hbk.
  { intros i. unfold bk. destruct (bucket_ s !! i) as [b|] eqn:Hb; [|done]. simpl.
    destruct (Hbl _ _ Hb) as (_ & Hnone & _). rewrite entries_alt.
    induction (seq 0 kSlotNum) as [|j l IH]; [done|]. csimpl. by rewrite Hnone. }
  split; [split|].
  - split; [done|intros i b Hb; apply (Hbl _ _ Hb)|].
    intros i b j e Hb He. destruct (Hbl _ _ Hb) as (_ & Hnone & _). by rewrite Hnone in He.
  - intros y t n Hy Ht Hn. assert (stash_items s y = []) as ->.
    { unfold stash_items. change (seq 0 kStashBucketNum) with [0;1;2;3]%nat. rewrite !bind_cons, !Hbk. done. }
    destruct (Hbl _ _ Ht) as (_ & _ & Hr & Hpr & Ho). destruct (Hbl _ _ Hn) as (_ & _ & Hr' & _).
    exists []. rewrite !Hr, Hr', Hpr, Ho. split_and!; [done..|]. split; [done|by intros].
  - unfold seg_items, seg_entries. induction (seq 0 kTotalBuckets) as [|i l IH]; [done|].
    rewrite bind_cons, Hbk. done.
Qed.

Lemma clear_bucket_blank b : bucket_wf b → blank (clear_bucket b).
Proof.
  intros [Hb Hk Hv _ Hka Hva]. destruct Hb as [Hs Hf Hst]. apply blank_intro; try done. apply Hst.
Qed.

Lemma Clear_spec s : seg_shape s → seg_wf (Clear s) ∧ keep s (Clear s) ∧ seg_items (Clear s) = [].
Proof.
  intros Hs. destruct (blank_segment (Clear s)) as [Hw Hi]; [| |by split_and!].
  - simpl. rewrite length_fmap. apply Hs.
  - intros i b. simpl. rewrite list_lookup_fmap. destruct (bucket_ s !! i) as [b0|] eqn:Hb; [|done].
    intros E. injection E as <-. apply clear_bucket_blank. by eapply sh_wf.
Qed.
End deletion.
