(* ===== verification/SegmentSplit.v ===== *)
(** SegmentSplit: [Segment::Split] divides the entries of a segment between it
    and a fresh segment by one hash bit, and when its assertion can fail. *)
From S2P Require Import Prelude Policy SlotBitmap BucketBase Bucket Segment SegmentInv SegmentOps.
Local Open Scope Z_scope.

Section parts.
Context `{PT : TablePolicy Q K V, DN : TableDenote Q K V W, PO : !TablePolicyOk Q K V W}.
Implicit Types (s : Segment K V) (b : Bucket K V) (i j y p : nat) (e : entry Q W) (q : Q).

Lemma holds_contents s i j e : seg_shape s → holds s i j e →
  ∃ b k v, GetBucket s i = Ok b ∧ bucket_ s !! i = Some b ∧ aget (key b) j = Ok k ∧ aget (value b) j = Ok v ∧
    key_ok k ∧ val_ok v ∧ key_of k = e_key e ∧ val_of v = e_val e ∧ occupied b j = true.
Proof.
  intros Hs (b & Hb & He). pose proof (sh_wf _ Hs _ _ Hb) as Hw.
  assert (occupied b j = true) as Ho by (apply slot_at_occupied; eauto).
  destruct (occupied_inv b j Hw Ho) as (k & v & f & Hk & Hv & _ & Hok & Hvok & He').
  rewrite He in He'. injection He' as ->. exists b, k, v. split_and!; try done; by apply aget_some.
Qed.

Lemma slot_hash_spec s i j e : seg_shape s → holds s i j e → slot_hash s i j = Ok (HashFnQ (e_key e)).
Proof.
  intros Hs Hh. destruct (holds_contents s i j e Hs Hh) as (b & k & v & Hg & _ & Hk & _ & Hok & _ & <- & _).
  unfold slot_hash. rewrite Hg, bind_ok, Hk, bind_ok. by apply hash_key.
Qed.

(** [ClearSlots] on bucket [i] of the segment. *)
Lemma clear_slots_seg s i b m : seg_shape s → bucket_ s !! i = Some b →
  let s' := seg_set s i (Bucket.ClearSlots b m) in
  seg_shape s' ∧ (∀ its, accts s its → accts s' its) ∧
  bk s i ≡ₚ (snd <$> gone m (occ_list b)) ++ bk s' i ∧ (∀ k, k ≠ i → bk s' k = bk s k) ∧
  seg_items s ≡ₚ (kv <$> (snd <$> gone m (occ_list b))) ++ seg_items s' ∧
  (∀ j e, holds s' i j e → holds s i j e ∧ Z.testbit m (Z.of_nat j) = false).
Proof.
  intros Hs Hb. pose proof (sh_wf _ Hs _ _ Hb) as Hw. cbv zeta. set (s' := seg_set _ _ _).
  destruct (bucket_ClearSlots_spec b m Hw) as (Hw' & Hst & Hat & Hent).
  assert (bk s i ≡ₚ (snd <$> gone m (occ_list b)) ++ bk s' i) as Hbk.
  { unfold s'. rewrite (bk_seg_set _ _ b), decide_True by done. unfold bk. by rewrite Hb. }
  assert (∀ k, k ≠ i → bk s' k = bk s k) as Hne.
  { intros k Hk. unfold s'. by rewrite (bk_seg_set _ _ b), decide_False by done. }
  assert (∀ j e, holds s' i j e → holds s i j e ∧ Z.testbit m (Z.of_nat j) = false) as Hh.
  { intros j e (b1 & Hb1 & He). unfold s' in Hb1. rewrite (seg_set_lookup _ _ b), decide_True in Hb1 by done.
    injection Hb1 as <-. rewrite Hat in He. destruct (Z.testbit m _); [done|]. split; [by exists b|done]. }
  split_and!; try done.
  - split.
    + simpl. by rewrite length_insert, (sh_len _ Hs).
    + intros k b1. unfold s'. rewrite (seg_set_lookup _ _ b) by done.
      destruct (decide (i = k)); [intros E; by injection E as <-|apply (sh_wf _ Hs)].
    + intros k b1 j e Hb1 He. destruct (decide (i = k)) as [<-|Hik].
      * destruct (Hh j e) as [(b2 & Hb2 & He2) _]; [by exists b1|]. by apply (sh_pos _ Hs _ b2 j).
      * unfold s' in Hb1. rewrite (seg_set_lookup _ _ b), decide_False in Hb1 by done. by apply (sh_pos _ Hs _ b1 j).
  - intros its Ha. by eapply accts_stash_part.
  - unfold seg_items. rewrite <- fmap_app. f_equiv. 
    apply (bk_upd_perm (bk s) (bk s') (seq 0 kTotalBuckets) i []); [apply NoDup_seq| |by intros; rewrite Hne|done].
    apply lookup_lt_Some in Hb. rewrite (sh_len _ Hs) in Hb. apply elem_of_seq. lia.
Qed.

(** ** How many entries a home bucket receives *)

Definition count (y : nat) (l : list (Q * W)) : nat := length (filter (λ x, home x.1 = y) l).

#[export] Instance count_proper y : Proper ((≡ₚ) ==> eq) (count y).
Proof. intros l l' Hl. unfold count. by rewrite Hl. Qed.

Lemma count_cons y x l : count y (x :: l) = ((if decide (home x.1 = y) then 1 else 0) + count y l)%nat.
Proof. unfold count. rewrite filter_cons. by case_decide. Qed.

Lemma count_submseteq y l l' : l ⊆+ l' → (count y l ≤ count y l')%nat.
Proof. intros Hl. by apply submseteq_length, filter_submseteq. Qed.

Lemma bk_submseteq s i : (i < kTotalBuckets)%nat → bk s i ⊆+ seg_entries s.
Proof.
  intros Hi. unfold seg_entries. assert (i ∈ seq 0 kTotalBuckets) as Hin by (apply elem_of_seq; lia).
  apply elem_of_Permutation in Hin as [l ->]. rewrite bind_cons. by apply submseteq_inserts_r.
Qed.

(** While no home bucket has more than [kSlotNum] entries, none is displaced. *)
Definition direct s : Prop :=
  (∀ y, count y (seg_items s) ≤ kSlotNum)%nat → ∀ i e, e ∈ bk s i → i = home (e_key e).

Lemma full_home_count s y : seg_shape s → (y < kBucketNum)%nat →
  (∀ e, e ∈ bk s y → y = home (e_key e)) → is_full s y → (kSlotNum ≤ count y (seg_items s))%nat.
Proof.
  intros Hs Hy Hall Hf. rewrite <- (is_full_length s y Hs Hf). unfold count, seg_items.
  rewrite filter_fmap, length_fmap.
  apply submseteq_length. rewrite <- (filter_true (λ e, home (e_key e) = y) (bk s y)).
  - apply filter_submseteq, bk_submseteq, total_regular, Hy.
  - intros e He. symmetry. by apply Hall.
Qed.

Lemma direct_insert s s' u v it : seg_wf s → direct s → inserted s s' u v it →
  is_full s (home (src_key u)) ∨ seg_upd s s' (home (src_key u)) (slot it) None (Some (new_entry u v false)) →
  direct s'.
Proof.
  intros Hw Hd Hins Hcase Hcnt. set (y := home (src_key u)) in *.
  assert (∀ z, count z (seg_items s') = ((if decide (y = z) then 1 else 0) + count z (seg_items s))%nat) as Hc.
  { intros z. by rewrite (ins_items _ _ _ _ _ Hins), count_cons. }
  assert (∀ i e, e ∈ bk s i → i = home (e_key e)) as Hhome.
  { apply Hd. intros z. specialize (Hcnt z). rewrite Hc in Hcnt. lia. }
  destruct Hcase as [Hf|Hu].
  - exfalso. specialize (Hcnt y). rewrite Hc, decide_True in Hcnt by done.
    pose proof (full_home_count s y (proj1 Hw) (home_index_lt _) (Hhome y) Hf). lia.
  - destruct (seg_upd_bk _ _ _ _ _ _ Hu) as [Hp Hne]. intros i e. destruct (decide (i = y)) as [->|].
    + simpl in Hp. rewrite <- Hp, elem_of_cons. intros [->|He]; [done|by apply Hhome].
    + rewrite Hne by done. apply Hhome.
Qed.

(** The entries [rights] cannot all be inserted into an empty segment: after
    some of them the segment is crowded around the home of another one. *)
Definition overflows (rights : list (Q * W)) : Prop :=
  ∃ dst x, seg_wf dst ∧ direct dst ∧ crowded dst (home x.1) ∧ x :: seg_items dst ⊆+ rights.

Lemma small_fits rights : (length rights ≤ 6 * kSlotNum)%nat → ¬ overflows rights.
Proof.
  intros Hl (dst & x & [Hs _] & _ & Hc & Hsub). apply submseteq_length in Hsub. simpl in Hsub.
  pose proof (crowded_size dst _ Hs (home_index_lt _) Hc). lia.
Qed.

Lemma balanced_fits rights : (∀ y, count y rights ≤ kSlotNum)%nat → ¬ overflows rights.
Proof.
  intros Hl (dst & x & [Hs _] & Hd & (Hf & _) & Hsub). set (y := home x.1) in *.
  assert (∀ z, count z (x :: seg_items dst) ≤ kSlotNum)%nat as Hcnt
    by (intros z; etrans; [by apply count_submseteq|done]).
  assert (∀ e, e ∈ bk dst y → y = home (e_key e)) as Hall.
  { intros e. apply Hd. intros z. specialize (Hcnt z). rewrite count_cons in Hcnt. lia. }
  pose proof (full_home_count dst y Hs (home_index_lt _) Hall Hf).
  specialize (Hcnt y). rewrite count_cons, decide_True in Hcnt by done. lia.
Qed.
End parts.

Section moving.
Context `{PT : TablePolicy Q K V, DN : TableDenote Q K V W, PO : !TablePolicyOk Q K V W, AO : !TableAssignOk Q K V W}.
Implicit Types (s dst : Segment K V) (b : Bucket K V) (i j y p : nat) (e : entry Q W) (q : Q).
Context (d : Z).

(** The keys that the split at depth [d] sends to the right. *)
Definition right (q : Q) : Prop := is_mine d (HashFnQ q) = false.
#[export] Instance right_dec q : Decision (right q).
Proof. unfold right. apply _. Defined.

Definition rights (l : list (Q * W)) : list (Q * W) := filter (λ x, right x.1) l.

(** The destination holds [l], all of which goes to the right. *)
Record dest_ok dst (l : list (Q * W)) : Prop := {
  do_wf : seg_wf dst;
  do_items : seg_items dst ≡ₚ l;
  do_direct : direct dst;
  do_right : Forall (λ x, right x.1) l;
  do_depth : local_depth_ dst = d;
}.

Lemma move_right_spec s dst l i j e all : seg_shape s → holds s i j e → dest_ok dst l → right (e_key e) →
  kv e :: l ⊆+ rights all →
  may (overflows (rights all)) (move_right s dst i j (HashFnQ (e_key e)))
      (λ dst', dest_ok dst' (kv e :: l) ∧ keep dst dst').
Proof.
  intros Hs Hh [Hw Hi Hd Hr Hdep] Hright Hsub.
  destruct (holds_contents s i j e Hs Hh) as (b & k & v & Hg & _ & Hk & Hv & Hok & Hvok & Ek & Ev & _).
  unfold move_right. rewrite Hg, bind_ok, Hk, bind_ok, Hv, bind_ok.
  pose proof (InsertUniq_spec dst (FromKey k) v false Hw Hok Hvok) as Hiu. cbn [src_key] in Hiu.
  rewrite Ek in Hiu. mbind_runs Hiu. intros [dst' [it|]].
  - intros [Hins Hcase]. rewrite cassert_true, bind_ok by done. apply may_ok.
    pose proof (ins_items _ _ _ _ _ Hins) as Hit. cbn [src_key] in Hit. rewrite Ek, Ev in Hit.
    split; [split|apply Hins].
    + apply Hins.
    + by rewrite Hit, Hi.
    + eapply (direct_insert dst); [done..|]. cbn [src_key]. rewrite Ek. auto.
    + by constructor.
    + by rewrite (proj1 (ins_keep _ _ _ _ _ Hins)).
  - intros [-> Hc]. right. split; [|done]. exists dst, (kv e). split_and!; try done. by rewrite Hi.
Qed.

(** ** The loop over the regular buckets *)

(** Bookkeeping of a visit of [ForEachSlot] over bucket [b]: [pre] has been
    seen, the mask selects some of it, all that goes to the right included. *)
Record visited (m : Z) (pre : list (nat * entry Q W)) : Prop := {
  vi_sub : ∀ j, Z.testbit m (Z.of_nat j) = true → j ∈ pre.*1;
  vi_right : ∀ x, x ∈ pre → right (e_key x.2) → Z.testbit m (Z.of_nat x.1) = true;
}.

Lemma visited_nil : visited 0 [].
Proof. split; [intros j; by rewrite Z.testbit_0_l|by intros x ?%elem_of_nil]. Qed.

Lemma visited_mark m pre j e : (j < 32)%nat → visited m pre →
  visited (Z.lor m (u32 (bit_at true j))) (pre ++ [(j, e)]).
Proof.
  intros Hj [Hs Hr]. assert (∀ i, Z.testbit (Z.lor m (u32 (bit_at true j))) (Z.of_nat i) =
    Z.testbit m (Z.of_nat i) || bool_decide (j = i)) as Hbit.
  { intros i. rewrite Z.lor_spec, uN_testbit, bit_at_testbit by lia. case_bool_decide; [|done].
    subst i. by rewrite (bool_decide_true (Z.of_nat j < 32)) by lia. }
  split.
  - intros i. rewrite Hbit, fmap_app, elem_of_app. intros [Hi|Hi%bool_decide_eq_true]%orb_true_iff; [auto|].
    right. subst i. by left.
  - intros x. rewrite elem_of_app, list_elem_of_singleton. intros [Hx| ->] Hright; rewrite Hbit.
    + by rewrite Hr.
    + simpl. by rewrite bool_decide_true, orb_true_r.
Qed.

Lemma visited_keep m pre j e : visited m pre → ¬ right (e_key e) → visited m (pre ++ [(j, e)]).
Proof.
  intros [Hs Hr] Hn. split.
  - intros i Hi. rewrite fmap_app, elem_of_app. auto.
  - intros x. rewrite elem_of_app, list_elem_of_singleton. intros [Hx| ->]; [auto|by intros].
Qed.

Lemma visited_unset m pre j : visited m pre → j ∉ pre.*1 → Z.testbit m (Z.of_nat j) = false.
Proof. intros [Hs _] Hn. destruct (Z.testbit m _) eqn:E; [|done]. by apply Hs in E. Qed.

(** The entries in [l] come with the slots of bucket [b]: *)
Definition marked (m : Z) (l : list (nat * entry Q W)) : list (entry Q W) := snd <$> gone m l.

Lemma marked_mark m pre j e : (j < 32)%nat → j ∉ pre.*1 →
  marked (Z.lor m (u32 (bit_at true j))) (pre ++ [(j, e)]) = marked m pre ++ [e].
Proof. intros. unfold marked. by rewrite gone_mark, fmap_app. Qed.

Lemma marked_keep m pre j e : Z.testbit m (Z.of_nat j) = false → marked m (pre ++ [(j, e)]) = marked m pre.
Proof. intros. unfold marked. by rewrite gone_keep. Qed.

(** The marked entries together with the next one are part of the bucket. *)
Lemma marked_entries b m pre j e post : occ_list b = pre ++ (j, e) :: post →
  ∃ r, entries b ≡ₚ marked m pre ++ e :: r.
Proof.
  intros E. rewrite <- occ_list_entries, E, fmap_app, fmap_cons. simpl.
  exists ((filter (λ x, ¬ Z.testbit m (Z.of_nat x.1) = true) pre).*2 ++ post.*2). unfold marked, gone.
  pose proof (filter_app_complement (λ x : nat * entry Q W, Z.testbit m (Z.of_nat x.1) = true) pre) as Hp.
  rewrite <- Hp at 1. rewrite fmap_app, <- app_assoc. f_equiv. by rewrite Permutation_middle.
Qed.

Lemma rights_sub l all : l ⊆+ all → Forall (λ x, right x.1) l → l ⊆+ rights all.
Proof.
  intros Hsub Hr. unfold rights. rewrite <- (filter_true (λ x, right x.1) l) by by apply Forall_forall.
  by apply filter_submseteq.
Qed.

Lemma split_regular_cb_spec all s i b dst l pre j e post m :
  seg_shape s → local_depth_ s = d → bucket_ s !! i = Some b → (i < kTotalBuckets)%nat →
  occ_list b = pre ++ (j, e) :: post → visited m pre →
  dest_ok dst ((kv <$> marked m pre) ++ l) → Forall (λ x, right x.1) l → seg_items s ++ l ≡ₚ all →
  may (overflows (rights all)) (split_regular_cb s i j (e_probe e) (dst, m)) (λ '(dst', m'),
    visited m' (pre ++ [(j, e)]) ∧ keep dst dst' ∧
    dest_ok dst' ((kv <$> marked m' (pre ++ [(j, e)])) ++ l)).
Proof.
  intros Hs Hdep Hb Hi Hocc Hvis Hdst Hl Hall.
  destruct (occ_list_split b pre j e post Hocc) as (He & Hj & Hn). pose proof slot_bounds.
  assert (holds s i j e) as Hh by by exists b.
  unfold split_regular_cb. rewrite (slot_hash_spec s i j e) by done. rewrite bind_ok, Hdep.
  destruct (is_mine d (HashFnQ (e_key e))) eqn:Hmine.
  - apply may_ok. assert (¬ right (e_key e)) by (unfold right; congruence).
    rewrite marked_keep by by eapply visited_unset. split_and!; [by apply visited_keep|done|done].
  - pose proof (do_right _ _ Hdst) as Hr.
    mbind_may (move_right_spec s dst ((kv <$> marked m pre) ++ l) i j e all); [done..| |].
    { apply rights_sub; [|by constructor]. destruct (marked_entries b m pre j e post Hocc) as [r Hent].
      rewrite <- Hall. unfold seg_items. assert (entries b ⊆+ seg_entries s) as Hsub.
      { pose proof (bk_submseteq s i Hi) as Hsub. unfold bk in Hsub. by rewrite Hb in Hsub. }
      apply submseteq_Permutation in Hsub as [r' ->]. rewrite Hent.
      rewrite !fmap_app, fmap_cons, <- !app_assoc.
      change (kv e :: (kv <$> marked m pre) ++ l) with ([kv e] ++ (kv <$> marked m pre) ++ l).
      rewrite (Permutation_app_swap_app [kv e]). apply submseteq_skips_l. 
      simpl. apply submseteq_skip. rewrite app_assoc. by apply submseteq_inserts_l. }
    intros dst' [Hdst' Hk]. apply may_ok. rewrite marked_mark by (done || lia).
    split_and!; [by apply visited_mark; [lia|]|done|]. destruct Hdst'. split; try done.
    + rewrite do_items0, fmap_app, <- app_assoc. csimpl. by rewrite <- Permutation_middle.
    + rewrite fmap_app. apply Forall_app. split; [|done]. apply Forall_app in Hr as [Hr1 _].
      apply Forall_app. split; [done|by repeat constructor].
Qed.

Lemma split_regular_spec all i s dst l : (i < kBucketNum)%nat → seg_wf s → local_depth_ s = d →
  dest_ok dst l → seg_items s ++ l ≡ₚ all →
  may (overflows (rights all)) (split_regular i (s, dst)) (λ '(s', dst'), ∃ l',
    seg_wf s' ∧ keep s s' ∧ keep dst dst' ∧ dest_ok dst' l' ∧ seg_items s' ++ l' ≡ₚ all ∧
    (∀ k, k ≠ i → bk s' k = bk s k) ∧ (∀ e, e ∈ bk s' i → ¬ right (e_key e))).
Proof.
  intros Hi [Hs Ha] Hdep Hdst Hall. pose proof (total_regular i Hi) as Hit.
  destruct (get_bucket s i Hs Hit) as (b & Hb & Hg & Hwb).
  unfold split_regular. rewrite Hg, bind_ok, ForEachSlot_spec by done.
  mbind_may (rfold_may (overflows (rights all)) (λ x, split_regular_cb s i x.1 (e_probe x.2)) (occ_list b)
    (λ pre '(dst', m), visited m pre ∧ keep dst dst' ∧ dest_ok dst' ((kv <$> marked m pre) ++ l))).
  { split_and!; [apply visited_nil|done|done]. }
  { intros pre [j e] post [dst1 m] Hocc (Hvis & Hk & Hd1). eapply may_mono.
    - eapply (split_regular_cb_spec all s i b dst1 l pre j e post m); try done. apply Hdst.
    - intros [dst2 m2] (Hvis2 & Hk2 & Hd2). split_and!; [done|by eapply keep_trans|done]. }
  intros [dst' m] (Hvis & Hk & Hd'). rewrite (set_bucket_ok _ _ b), bind_ok by done. apply may_ok.
  destruct (clear_slots_seg s i b m Hs Hb) as (Hs' & Ha' & _ & Hne & Hit' & Hh').
  set (s' := seg_set s i _) in *. exists ((kv <$> marked m (occ_list b)) ++ l).
  assert (∀ y, stash_items s' y = stash_items s y) as Hst.
  { intros y. apply stash_items_ext. intros p _. apply Hne. lia. }
  split_and!; try done.
  - split; [done|]. eapply accts_ext; [by apply Ha'|]. intros y. by rewrite Hst.
  - rewrite <- Hall, Hit'. fold (marked m (occ_list b)). by rewrite app_assoc, (Permutation_app_comm (seg_items s')).
  - intros e He Hr. apply (elem_of_bk s' i e Hs') in He as [j Hj].
    apply Hh' in Hj as [(b1 & Hb1 & He) Hbit]. rewrite Hb in Hb1. injection Hb1 as <-.
    assert (Z.testbit m (Z.of_nat j) = true); [|congruence].
    apply (vi_right _ _ Hvis (j, e)); [|done]. apply elem_of_occ_list.
    split; [|done]. apply (occupied_lt b); [done|]. apply slot_at_occupied; eauto.
Qed.
End moving.

Section stash_phase.
Context `{PT : TablePolicy Q K V, DN : TableDenote Q K V W, PO : !TablePolicyOk Q K V W, AO : !TableAssignOk Q K V W}.
Implicit Types (s dst : Segment K V) (b : Bucket K V) (i j y p : nat) (e : entry Q W) (q : Q).

(** The stash buckets hold the same entries. *)
Definition stash_same s s' : Prop :=
  ∀ p, bk s' (kBucketNum + p) = bk s (kBucketNum + p) ∧
       ∀ j e, holds s' (kBucketNum + p) j e ↔ holds s (kBucketNum + p) j e.

Lemma stash_same_refl s : stash_same s s.
Proof. done. Qed.

Lemma stash_same_trans s1 s2 s3 : stash_same s1 s2 → stash_same s2 s3 → stash_same s1 s3.
Proof.
  intros H1 H2 p. destruct (H1 p) as [E1 I1], (H2 p) as [E2 I2]. split; [congruence|].
  intros j e. by rewrite I2, I1.
Qed.

Lemma same_slots_stash_same s s' : same_slots s s' → stash_same s s'.
Proof. intros Hs p. split; [by apply same_slots_bk|]. intros. by apply same_slots_holds. Qed.

Lemma seg_upd_stash_same s s' i j o' o : seg_shape s → (i < kBucketNum)%nat →
  seg_upd s s' i j o' o → stash_same s s'.
Proof.
  intros Hs Hi Hu p. destruct (seg_upd_bk _ _ _ _ _ _ Hu) as [_ Hne]. split; [apply Hne; lia|].
  intros l e. symmetry. eapply seg_upd_holds_ne; [done..|]. intros [= ? ?]. lia.
Qed.

Lemma Key_spec s i j e : seg_shape s → holds s i j e →
  runs (Key s i j) (λ k, key_ok k ∧ key_of k = e_key e).
Proof.
  intros Hs Hh. destruct (holds_contents s i j e Hs Hh) as (b & k & v & Hg & _ & Hk & _ & Hok & _ & Ek & _ & Ho).
  unfold Key, IsBusy. rewrite Hg, !bind_ok, cassert_true, bind_ok, Hk; [by apply runs_ok|].
  unfold BucketBase.IsBusy. by rewrite land_bit_at.
Qed.

Lemma Value_spec s i j e : seg_shape s → holds s i j e →
  runs (Value s i j) (λ v, val_ok v ∧ val_of v = e_val e).
Proof.
  intros Hs Hh. destruct (holds_contents s i j e Hs Hh) as (b & k & v & Hg & _ & _ & Hv & _ & Hok & _ & Ev & Ho).
  unfold Value, IsBusy. rewrite Hg, !bind_ok, cassert_true, bind_ok, Hv; [by apply runs_ok|].
  unfold BucketBase.IsBusy. by rewrite land_bit_at.
Qed.

(** The key of a stash entry is copied to a regular bucket and its reference
    is dropped; the stash slot itself is left to the caller. *)
Record unstashed s s' its l e : Prop := {
  un_shape : seg_shape s';
  un_keep : keep s s';
  un_accts : accts s' (λ z, if decide (z = home (e_key e)) then l else its z);
  un_items : seg_items s' ≡ₚ kv e :: seg_items s;
  un_stash : stash_same s s';
  un_regular : ∀ k e', (k < kBucketNum)%nat → e' ∈ bk s' k → e' ∈ bk s k ∨ e_key e' = e_key e;
}.

Lemma unstash_spec s s1 its l i j (pr : bool) p e u v : seg_shape s → accts s its →
  its (home (e_key e)) ≡ₚ (fp_of (e_key e), p) :: l →
  src_key u = e_key e → val_of v = e_val e →
  i = (if pr then NextBid (home (e_key e)) else home (e_key e)) →
  seg_upd s s1 i j None (Some (new_entry u v pr)) →
  runs (RemoveStashReference s1 p (HashFnQ (e_key e))) (λ s', unstashed s s' its l e).
Proof.
  intros Hs Ha Hl Ek Ev Hi Hu. assert (home (e_key e) < kBucketNum)%nat as Hhome by apply home_index_lt.
  assert (i < kBucketNum)%nat as Hilt by (subst i; destruct pr; [by apply next_lt|done]).
  assert (seg_shape s1) as Hs1.
  { eapply seg_upd_shape; [done..|]. intros e1 E. injection E as <-. apply new_entry_home. by rewrite Ek. }
  eapply runs_mono; [apply (RemoveStashReference_spec s1 p (e_key e) its l); [done|by eapply seg_upd_accts|done]|].
  intros s2 (Hs2 & Hss & Ha2). split; [done| |done|..].
  - eapply keep_trans; [by eapply seg_upd_keep|apply Hss].
  - unfold seg_items at 1. rewrite (same_slots_entries _ _ Hss).
    pose proof (seg_upd_items _ _ _ _ _ _ Hs Hu) as Hit. simpl in Hit. unfold kv in Hit at 1. simpl in Hit.
    rewrite Ek, Ev in Hit. by symmetry.
  - eapply stash_same_trans; [by eapply seg_upd_stash_same|by apply same_slots_stash_same].
  - intros k e' Hk. rewrite (same_slots_bk _ _ k Hss). destruct (seg_upd_bk _ _ _ _ _ _ Hu) as [Hp Hne].
    destruct (decide (k = i)) as [->|]; [|rewrite Hne by done; auto].
    simpl in Hp. rewrite <- Hp, elem_of_cons. intros [->|He]; [right; done|by left].
Qed.

Lemma TryMoveFromStash_spec s its l p j e : seg_shape s → accts s its →
  holds s (kBucketNum + p) j e → its (home (e_key e)) ≡ₚ (fp_of (e_key e), p) :: l →
  runs (TryMoveFromStash s p j (HashFnQ (e_key e))) (λ '(s', r),
    match r with
    | None => s' = s
    | Some it => unstashed s s' its l e
    end).
Proof.
  intros Hs Ha Hh Hl. unfold TryMoveFromStash. fold (home (e_key e)) (fp_of (e_key e)).
  assert (home (e_key e) < kBucketNum)%nat as Hhome by apply home_index_lt.
  rbind (Key_spec s (kBucketNum + p) j e Hs Hh). intros k [Hok Ek].
  rbind (Value_spec s (kBucketNum + p) j e Hs Hh). intros v [Hvok Ev].
  rbind (TryInsertTo_spec s (home (e_key e)) (FromKey k) v (fp_of (e_key e)) false Hs);
    [by apply total_regular|done|done|].
  intros [s1 [sl|]].
  - intros Hu. rewrite bind_ok.
    rbind (unstash_spec s s1 its l (home (e_key e)) sl false p e (FromKey k) v); try done.
    { unfold new_entry. cbn [src_key] in *. by rewrite Ek in *. }
    intros s2 Hun. by apply runs_ok.
  - intros [-> _]. eapply (runs_bind _ _ (λ '(s2, b2, r), b2 = NextBid (home (e_key e)) ∧ match r with
      | Some sl => seg_upd s s2 (NextBid (home (e_key e))) sl None (Some (new_entry (FromKey k) v true))
      | None => s2 = s end)).
    { rbind (TryInsertTo_spec s (NextBid (home (e_key e))) (FromKey k) v (fp_of (e_key e)) true Hs);
        [by apply total_regular, next_lt|done|done|].
      intros [s2 [sl|]]; intros Hu; apply runs_ok; (split; [done|]); [|by apply Hu].
      unfold new_entry. cbn [src_key] in *. by rewrite Ek in *. }
    intros [[s2 b2] [sl|]] [-> Hu]; [|by apply runs_ok].
    rbind (unstash_spec s s2 its l (NextBid (home (e_key e))) sl true p e (FromKey k) v); try done.
    intros s3 Hun. by apply runs_ok.
Qed.
End stash_phase.

Section split_stash.
Context `{PT : TablePolicy Q K V, DN : TableDenote Q K V W, PO : !TablePolicyOk Q K V W, AO : !TableAssignOk Q K V W}.
Implicit Types (s dst : Segment K V) (b : Bucket K V) (i j y p : nat) (e : entry Q W) (q : Q).
Context (d : Z) (all : list (Q * W)).

(** The state of the loop over stash bucket [i] of [sA], after the slots [pre]. *)
Record stash_loop sA dstA i (pre : list (nat * entry Q W)) s dst (m : Z) (l : list (Q * W))
    (its : nat → list (Z * nat)) : Prop := {
  sl_visited : visited d m pre;
  sl_shape : seg_shape s;
  sl_keep : keep sA s;
  sl_same : stash_same sA s;
  sl_accts : accts s its;
  sl_its : ∀ y, items_in y i (marked m pre) ++ its y ≡ₚ stash_items sA y;
  sl_dest : dest_ok d dst l;
  sl_keep_dest : keep dstA dst;
  sl_items : seg_items s ++ l ≡ₚ (kv <$> marked m pre) ++ all;
  sl_regular : ∀ k e, (k < kBucketNum)%nat → e ∈ bk s k → ¬ right d (e_key e);
}.

Lemma stash_items_part s i y : (i < kStashBucketNum)%nat →
  ∃ r, stash_items s y ≡ₚ items_in y i (bk s (kBucketNum + i)) ++ r.
Proof.
  intros Hi. unfold stash_items. assert (i ∈ seq 0 kStashBucketNum) as Hin by (apply elem_of_seq; lia).
  apply elem_of_Permutation in Hin as [r Hr]. eexists. rewrite Hr, bind_cons. done.
Qed.

(** What the next slot of the visit contributes: its reference is still
    accounted for and its entry is not in the destination yet. *)
Lemma stash_loop_next sA dstA i b pre j e post s dst m l its : (i < kStashBucketNum)%nat →
  bucket_ sA !! (kBucketNum + i)%nat = Some b → occ_list b = pre ++ (j, e) :: post →
  stash_loop sA dstA i pre s dst m l its → seg_shape sA →
  holds s (kBucketNum + i) j e ∧ e_fp e = fp_of (e_key e) ∧
  (∃ r, its (home (e_key e)) ≡ₚ (fp_of (e_key e), i) :: r) ∧
  (∃ r, all ≡ₚ kv e :: r ++ l).
Proof.
  intros Hi Hb Hocc [Hvis Hs Hk Hsame Ha Hits Hd Hkd Hit Hreg] HsA.
  destruct (occ_list_split b pre j e post Hocc) as (He & Hj & Hn).
  assert (holds sA (kBucketNum + i) j e) as HhA by by exists b.
  assert (holds s (kBucketNum + i) j e) as Hh by by apply Hsame.
  assert (e_fp e = fp_of (e_key e)) as Hfp by apply (sh_pos _ HsA _ _ _ _ Hb He).
  destruct (marked_entries b m pre j e post Hocc) as [r Hent].
  assert (bk sA (kBucketNum + i) = entries b) as HbkA by (unfold bk; by rewrite Hb).
  split_and!; [done|done|..].
  - destruct (stash_items_part sA i (home (e_key e)) Hi) as [r' Hr']. exists (items_in (home (e_key e)) i r ++ r').
    apply (Permutation_app_inv_l (items_in (home (e_key e)) i (marked m pre))).
    rewrite Hits, Hr', HbkA, Hent, items_in_app, <- app_assoc. f_equiv.
    change (e :: r) with ([e] ++ r). by rewrite items_in_app, items_in_one, decide_True, Hfp by done.
  - assert (bk s (kBucketNum + i) ⊆+ seg_entries s) as Hsub by by apply bk_submseteq, total_stash.
    rewrite (proj1 (Hsame i)), HbkA, Hent in Hsub. apply submseteq_Permutation in Hsub as [r' Hr'].
    exists ((kv <$> r) ++ (kv <$> r')). apply (Permutation_app_inv_l (kv <$> marked m pre)).
    rewrite <- Hit. unfold seg_items. rewrite Hr', !fmap_app, fmap_cons, <- !app_assoc. done.
Qed.

Lemma stash_loop_mark sA dstA i pre j e s dst m l its s' dst' l' r :
  stash_loop sA dstA i pre s dst m l its →
  (j < 32)%nat → j ∉ pre.*1 → e_fp e = fp_of (e_key e) →
  its (home (e_key e)) ≡ₚ (fp_of (e_key e), i) :: r →
  seg_shape s' → keep s s' → stash_same s s' →
  accts s' (λ z, if decide (z = home (e_key e)) then r else its z) →
  dest_ok d dst' l' → keep dst dst' → seg_items s' ++ l' ≡ₚ kv e :: seg_items s ++ l →
  (∀ k e', (k < kBucketNum)%nat → e' ∈ bk s' k → ¬ right d (e_key e')) →
  stash_loop sA dstA i (pre ++ [(j, e)]) s' dst' (Z.lor m (u32 (bit_at true j))) l'
    (λ z, if decide (z = home (e_key e)) then r else its z).
Proof.
  intros [Hvis Hs Hk Hsame Ha Hits Hd Hkd Hit Hreg] Hj Hn Hfp Hr Hs' Hk' Hsame' Ha' Hd' Hkd' Hit' Hreg'.
  split; try done; rewrite ?marked_mark by done.
  - by apply visited_mark.
  - by eapply keep_trans.
  - by eapply stash_same_trans.
  - intros y. rewrite <- Hits, items_in_app, items_in_one, <- app_assoc. f_equiv.
    destruct (decide (y = home (e_key e))) as [->|].
    + by rewrite decide_True, Hr, Hfp by done.
    + by rewrite decide_False by done.
  - by eapply keep_trans.
  - rewrite Hit', Hit, fmap_app, <- app_assoc. csimpl. by rewrite Permutation_middle.
Qed.

Lemma split_stash_cb_spec sA dstA i b pre j e post s dst m l its : (i < kStashBucketNum)%nat →
  bucket_ sA !! (kBucketNum + i)%nat = Some b → occ_list b = pre ++ (j, e) :: post → seg_shape sA →
  local_depth_ sA = d → stash_loop sA dstA i pre s dst m l its →
  may (overflows (rights d all)) (split_stash_cb i j (e_probe e) (s, dst, m)) (λ '(s', dst', m'),
    ∃ l' its', stash_loop sA dstA i (pre ++ [(j, e)]) s' dst' m' l' its').
Proof.
  intros Hi Hb Hocc HsA Hdep Hl.
  destruct (stash_loop_next _ _ _ _ _ _ _ _ _ _ _ _ _ Hi Hb Hocc Hl HsA) as (Hh & Hfp & [r Hr] & [r' Hall]).
  destruct (occ_list_split b pre j e post Hocc) as (_ & Hj & Hn). pose proof slot_bounds.
  pose proof Hl as [Hvis Hs Hk Hsame Ha Hits Hd Hkd Hit Hreg].
  assert (local_depth_ s = d) as Hds by (rewrite <- Hdep; apply Hk).
  unfold split_stash_cb. rewrite (slot_hash_spec s _ j e), bind_ok, Hds by done.
  destruct (is_mine d (HashFnQ (e_key e))) eqn:Hmine.
  - assert (¬ right d (e_key e)) as Hnr by (unfold right; congruence).
    mbind_runs (TryMoveFromStash_spec s its r i j e Hs Ha Hh Hr). intros [s' [it|]].
    + intros [Hs' Hk' Ha' Hit' Hsame' Hreg']. apply may_ok. exists l. eexists.
      eapply stash_loop_mark; try done; [lia| |].
      * by rewrite Hit'.
      * intros k e' Hlt Hin. destruct (Hreg' k e' Hlt Hin) as [?|Eq]; [by eapply Hreg|by rewrite Eq].
    + intros ->. apply may_ok. exists l, its. split; rewrite ?marked_keep by (by eapply visited_unset); try done.
      by apply visited_keep.
  - mbind_may (move_right_spec d s dst l (kBucketNum + i) j e all); [done..| |].
    { apply rights_sub; [|constructor; [done|apply Hd]]. rewrite Hall. apply submseteq_skip.
      by apply submseteq_inserts_l. }
    intros dst' [Hd' Hk']. mbind_runs (RemoveStashReference_spec s i (e_key e) its r Hs Ha Hr).
    intros s' (Hs' & Hss & Ha'). apply may_ok. exists (kv e :: l). eexists.
    eapply stash_loop_mark; try done; [lia|apply Hss|by apply same_slots_stash_same| |].
    + unfold seg_items. rewrite (same_slots_entries _ _ Hss). by rewrite <- Permutation_middle.
    + intros k e' Hlt. rewrite (same_slots_bk _ _ k Hss). by apply Hreg.
Qed.

Lemma split_stash_spec i s dst l : (i < kStashBucketNum)%nat → seg_wf s → local_depth_ s = d →
  dest_ok d dst l → seg_items s ++ l ≡ₚ all →
  (∀ k e, (k < kBucketNum)%nat → e ∈ bk s k → ¬ right d (e_key e)) →
  may (overflows (rights d all)) (split_stash i (s, dst)) (λ '(s', dst'), ∃ l',
    seg_wf s' ∧ keep s s' ∧ keep dst dst' ∧ dest_ok d dst' l' ∧ seg_items s' ++ l' ≡ₚ all ∧
    (∀ k e, (k < kBucketNum)%nat → e ∈ bk s' k → ¬ right d (e_key e)) ∧
    (∀ k, (k ≠ i) → bk s' (kBucketNum + k) = bk s (kBucketNum + k)) ∧
    (∀ e, e ∈ bk s' (kBucketNum + i) → ¬ right d (e_key e))).
Proof.
  intros Hi [Hs Ha] Hdep Hdst Hall Hreg.
  destruct (get_bucket s (kBucketNum + i) Hs) as (b & Hb & Hg & Hwb); [by apply total_stash|].
  unfold split_stash. rewrite Hg, bind_ok, ForEachSlot_spec by done.
  mbind_may (rfold_may (overflows (rights d all)) (λ x, split_stash_cb i x.1 (e_probe x.2)) (occ_list b)
    (λ pre '(s', dst', m), ∃ l' its, stash_loop s dst i pre s' dst' m l' its)).
  { exists l, (stash_items s). split; try done. apply visited_nil. }
  { intros pre [j e] post [[s1 dst1] m] Hocc (l1 & its & Hl). by eapply split_stash_cb_spec. }
  intros [[s1 dst1] m] (l1 & its & [Hvis Hs1 Hk Hsame Ha1 Hits Hd1 Hkd Hit Hreg1]).
  destruct (get_bucket s1 (kBucketNum + i) Hs1) as (b1 & Hb1 & -> & Hwb1); [by apply total_stash|].
  rewrite bind_ok, (set_bucket_ok _ _ b1), bind_ok by done. apply may_ok. exists l1.
  assert (∀ j, slot_at b1 j = slot_at b j) as Hat.
  { intros j. destruct (slot_at b j) as [e|] eqn:E.
    - assert (holds s1 (kBucketNum + i) j e) as (b2 & Hb2 & He) by (apply Hsame; by exists b). congruence.
    - destruct (slot_at b1 j) as [e|] eqn:E1; [|done].
      assert (holds s (kBucketNum + i) j e) as (b2 & Hb2 & He) by (apply Hsame; by exists b1). congruence. }
  assert (occ_list b1 = occ_list b) as Hocc.
  { unfold occ_list. apply list_omap_ext, Forall_Forall2_diag, Forall_forall. intros j _. by rewrite Hat. }
  destruct (clear_slots_seg s1 (kBucketNum + i) b1 m Hs1 Hb1) as (Hs' & Ha' & Hbk' & Hne & Hit' & Hh').
  set (s' := seg_set s1 _ _) in *. rewrite Hocc in *. fold (marked m (occ_list b)) in *.
  split_and!; try done.
  - split; [done|]. eapply accts_ext; [by apply Ha'|]. intros y.
    apply (Permutation_app_inv_l (items_in y i (marked m (occ_list b)))). rewrite Hits.
    assert (stash_items s y = stash_items s1 y) as ->.
    { symmetry. apply stash_items_ext. intros p _. apply Hsame. }
    unfold stash_items. apply (Permutation_app_inv_l (items_in y i (bk s' (kBucketNum + i)))).
    rewrite (mbind_upd_perm (λ p, items_in y p (bk s1 (kBucketNum + p)))
             (λ p, items_in y p (bk s' (kBucketNum + p))) (seq 0 kStashBucketNum) i).
    + rewrite Hbk', items_in_app, <- app_assoc. by rewrite (Permutation_app_swap_app (items_in y i (bk s' _))).
    + apply NoDup_seq.
    + apply elem_of_seq. lia.
    + intros p _ Hp. by rewrite Hne by lia.
  - apply (Permutation_app_inv_l (kv <$> marked m (occ_list b))). by rewrite <- Hit, Hit', app_assoc.
  - intros k e Hk'. rewrite Hne by lia. by apply Hreg1.
  - intros k Hk'. rewrite Hne by lia. apply Hsame.
  - intros e He Hr. apply (elem_of_bk s' _ e Hs') in He as [j Hj].
    apply Hh' in Hj as [(b2 & Hb2 & He) Hbit]. rewrite Hb1 in Hb2. injection Hb2 as <-.
    assert (Z.testbit m (Z.of_nat j) = true); [|congruence].
    apply (vi_right _ _ _ Hvis (j, e)); [|done]. rewrite <- Hocc. apply elem_of_occ_list.
    split; [|done]. apply (occupied_lt b1); [done|]. apply slot_at_occupied; eauto.
Qed.
End split_stash.

Section split.
Context `{PT : TablePolicy Q K V, DN : TableDenote Q K V W, PO : !TablePolicyOk Q K V W, AO : !TableAssignOk Q K V W}.
Implicit Types (s dst : Segment K V) (b : Bucket K V) (i j y p : nat) (e : entry Q W) (q : Q).

Lemma seg_wf_buckets s s' : bucket_ s' = bucket_ s → seg_wf s → seg_wf s' ∧ seg_items s' = seg_items s.
Proof.
  intros E. destruct s, s'. simpl in E. subst. intros [[H1 H2 H3] Ha]. split; [|done].
  split; [by split|done].
Qed.

Lemma seq_split n pre x post : seq 0 n = pre ++ x :: post → x = length pre ∧ pre = seq 0 x ∧ (x < n)%nat.
Proof.
  intros E. assert (seq 0 n !! length pre = Some x) as Hx by (rewrite E; apply list_lookup_middle; done).
  apply lookup_seq in Hx as [Hx Hlt]. simpl in Hx. split_and!; [done| |lia].
  assert (take (length pre) (seq 0 n) = pre) as <- by (rewrite E; apply take_app_length).
  rewrite take_seq. f_equal. lia.
Qed.

(** What holds of source and destination between two steps of [Split]; the
    source buckets in [done] hold no entry that goes to the right. *)
Definition splitting (d : Z) (all : list (Q * W)) s0 dst0 (done : nat → Prop) (st : Segment K V * Segment K V) : Prop :=
  ∃ l, seg_wf st.1 ∧ keep s0 st.1 ∧ keep dst0 st.2 ∧ dest_ok d st.2 l ∧ seg_items st.1 ++ l ≡ₚ all ∧
    ∀ k e, done k → e ∈ bk st.1 k → ¬ right d (e_key e).

Lemma split_regular_all d all s dst l : seg_wf s → local_depth_ s = d → dest_ok d dst l →
  seg_items s ++ l ≡ₚ all →
  may (overflows (rights d all)) (rfold split_regular (seq 0 kBucketNum) (s, dst))
      (splitting d all s dst (λ k, k < kBucketNum)%nat).
Proof.
  intros Hw Hd Hdst Hall.
  eapply may_mono; [apply (rfold_may (overflows (rights d all)) split_regular (seq 0 kBucketNum)
    (λ pre, splitting d all s dst (λ k, k ∈ pre)))|].
  - exists l. split_and!; try done. by intros k e ?%elem_of_nil.
  - intros pre i post [s1 dst1] Hseq (l1 & Hw1 & Hk1 & Hkd1 & Hd1 & Hi1 & Hm1).
    apply seq_split in Hseq as (_ & _ & Hlt). simpl in *.
    eapply may_mono; [eapply split_regular_spec; [done|done| |done|done]; rewrite <- Hd; apply Hk1|].
    intros [s2 dst2] (l2 & Hw2 & Hk2 & Hkd2 & Hd2 & Hi2 & Hne & Hm2). exists l2. simpl.
    split_and!; try done; try by eapply keep_trans.
    intros k e. rewrite elem_of_app, list_elem_of_singleton. intros Hk.
    destruct (decide (k = i)) as [->|Hki]; [apply Hm2|]. rewrite Hne by done.
    apply Hm1. destruct Hk; done.
  - intros [s1 dst1] (l1 & Hw1 & Hk1 & Hkd1 & Hd1 & Hi1 & Hm1). exists l1. split_and!; try done.
    intros k e Hk. apply Hm1, elem_of_seq. lia.
Qed.

Lemma split_stash_all d all s dst l : seg_wf s → local_depth_ s = d → dest_ok d dst l →
  seg_items s ++ l ≡ₚ all → (∀ k e, (k < kBucketNum)%nat → e ∈ bk s k → ¬ right d (e_key e)) →
  may (overflows (rights d all)) (rfold split_stash (seq 0 kStashBucketNum) (s, dst))
      (splitting d all s dst (λ k, k < kTotalBuckets)%nat).
Proof.
  intros Hw Hd Hdst Hall Hreg.
  eapply may_mono; [apply (rfold_may (overflows (rights d all)) split_stash (seq 0 kStashBucketNum)
    (λ pre, splitting d all s dst (λ k, k < kBucketNum + length pre)%nat))|].
  - exists l. split_and!; try done. intros k e Hk. apply Hreg. simpl in Hk. lia.
  - intros pre i post [s1 dst1] Hseq (l1 & Hw1 & Hk1 & Hkd1 & Hd1 & Hi1 & Hm1).
    apply seq_split in Hseq as (Hi & _ & Hlt). simpl in *.
    eapply may_mono; [eapply split_stash_spec; [done|done| |done|done|]|].
    { rewrite <- Hd. apply Hk1. }
    { intros k e Hk. apply Hm1. lia. }
    intros [s2 dst2] (l2 & Hw2 & Hk2 & Hkd2 & Hd2 & Hi2 & Hreg2 & Hne & Hm2). exists l2. simpl.
    split_and!; try done; try by eapply keep_trans.
    intros k e. rewrite length_app. simpl. intros Hk. destruct (decide (k < kBucketNum)%nat); [by apply Hreg2|].
    destruct (decide (k = (kBucketNum + i)%nat)) as [->|Hki]; [apply Hm2|].
    replace k with (kBucketNum + (k - kBucketNum))%nat by lia. rewrite Hne by lia. apply Hm1. lia.
  - intros [s1 dst1] (l1 & Hw1 & Hk1 & Hkd1 & Hd1 & Hi1 & Hm1). exists l1. split_and!; try done.
Qed.

(** The effect of [Split]: both segments are well formed and at depth [d];
    the source keeps the keys whose hash bit is 0, the destination gets the
    others. *)
Record split_post d s dst s' dst' : Prop := {
  sp_wf : seg_wf s';
  sp_wf_dest : seg_wf dst';
  sp_depth : local_depth_ s' = d ∧ local_depth_ dst' = d;
  sp_id : segment_id_ s' = segment_id_ s ∧ segment_id_ dst' = segment_id_ dst;
  sp_items : seg_items s' ≡ₚ filter (λ x, ¬ right d x.1) (seg_items s);
  sp_items_dest : seg_items dst' ≡ₚ rights d (seg_items s);
}.

Lemma Split_spec s dst : seg_wf s → seg_wf dst → seg_items dst = [] → 0 ≤ local_depth_ s < 64 →
  may (overflows (rights (local_depth_ s + 1) (seg_items s))) (Split s dst)
      (λ '(s', dst'), split_post (local_depth_ s + 1) s dst s' dst').
Proof.
  intros Hw Hwd Hempty Hld. set (d := local_depth_ s + 1). unfold Split.
  rewrite (uN_small 8) by lia. fold d. set (s1 := set_local_depth s d).
  change (local_depth_ s1) with d. set (dst1 := set_local_depth dst d).
  destruct (seg_wf_buckets s s1 eq_refl Hw) as [Hw1 Hi1].
  destruct (seg_wf_buckets dst dst1 eq_refl Hwd) as [Hwd1 Hid1].
  assert (dest_ok d dst1 []) as Hd1.
  { split; [done|by rewrite Hid1, Hempty| |constructor|done]. intros _ i e He.
    exfalso. assert (length (bk dst1 i) = 0)%nat as Hl.
    { destruct (bucket_ dst1 !! i) as [b|] eqn:Hb; [|unfold bk; by rewrite Hb].
      assert (i < kTotalBuckets)%nat by (rewrite <- (sh_len _ (proj1 Hwd1)); by eapply lookup_lt_Some).
      pose proof (submseteq_length _ _ (bk_submseteq dst1 i ltac:(done))) as Hl.
      rewrite <- seg_items_length, Hid1, Hempty in Hl. simpl in Hl. lia. }
    destruct (bk dst1 i); [by apply elem_of_nil in He|done]. }
  mbind_may (split_regular_all d (seg_items s) s1 dst1 []); [done..|by rewrite app_nil_r, Hi1|].
  intros [s2 dst2] (l2 & Hw2 & Hk2 & Hkd2 & Hd2 & Hi2 & Hm2). simpl in *.
  eapply may_mono; [eapply (split_stash_all d (seg_items s) s2 dst2 l2); [done|apply Hk2|done|done|exact Hm2]|].
  intros [s3 dst3] (l3 & Hw3 & Hk3 & Hkd3 & Hd3 & Hi3 & Hm3). simpl in *.
  assert (Forall (λ x, ¬ right d x.1) (seg_items s3)) as Hleft.
  { apply Forall_forall. intros x (e & -> & He)%list_elem_of_fmap.
    apply list_elem_of_bind in He as (k & He & Hk%elem_of_seq). simpl. apply (Hm3 k); [lia|done]. }
  pose proof (do_right _ _ _ Hd3) as Hright. rewrite Forall_forall in Hleft. rewrite Forall_forall in Hright.
  split; try done.
  - apply Hd3.
  - split; [by rewrite (proj1 Hk3), (proj1 Hk2)|apply Hd3].
  - by rewrite (proj2 Hk3), (proj2 Hk2), (proj2 Hkd3), (proj2 Hkd2).
  - rewrite <- Hi3, filter_app, (filter_true _ (seg_items s3)) by done.
    rewrite (filter_false _ l3), app_nil_r; [done|]. intros x Hx Hn. by apply Hn, Hright.
  - rewrite (do_items _ _ _ Hd3). unfold rights. rewrite <- Hi3, filter_app, (filter_true _ l3) by done.
    by rewrite (filter_false _ (seg_items s3)).
Qed.
End split.
