(* ===== verification/DashTable.v ===== *)
(** DashTable: the extendible hash table over segments: a directory of
    2^global_depth_ pointers to segments, several of which may point to the
    same one; a segment is found with the first global_depth_ bits of the hash.
    Source: src/src/sharding/DashTable/dash_table.hpp, and DashTableBase and
    DashCursor of src/src/sharding/DashTable/dash_internal.hpp.

    Segments are objects on a heap ([heap_]), the directory holds their
    addresses; address 0 is the null pointer. *)
From stdpp Require Import gmap.
From S2P Require Import Prelude Policy SlotBitmap BucketBase Bucket Segment.
Local Open Scope Z_scope.

Record DashTable (K V : Type) : Type := mkTable {
  size_ : Z;                            (* size_t *)
  unique_segments_ : Z;                 (* uint32_t *)
  bucket_count_ : Z;                    (* uint32_t *)
  initial_depth_ : Z;                   (* uint8_t *)
  global_depth_ : Z;                    (* uint8_t *)
  segment_ : list nat;                  (* std::vector<SegmentType*> *)
  heap_ : gmap nat (Segment K V);       (* the live segments *)
  next_ : nat;                          (* the next address the allocator hands out *)
}.
Arguments mkTable {_ _} _ _ _ _ _ _ _ _.
Arguments size_ {_ _} _.
Arguments unique_segments_ {_ _} _.
Arguments bucket_count_ {_ _} _.
Arguments initial_depth_ {_ _} _.
Arguments global_depth_ {_ _} _.
Arguments segment_ {_ _} _.
Arguments heap_ {_ _} _.
Arguments next_ {_ _} _.

(** [DashTable::Iterator] with an owner; [iterator{}] is [None]. *)
Record TableIterator : Set := mkTIt { seg_id_ : nat; bucket_id_ : nat; slot_id_ : nat }.

(** ** DashCursor *)

Definition Cursor (depth seg_id bid : Z) : Z := Z.lor (u64 (Z.shiftl seg_id (40 - depth))) bid.
Definition cursor_end : Z := 0.
Definition cursor_bucket_id (val : Z) : Z := Z.land val 255.
Definition cursor_segment_id (val depth : Z) : Z := u32 (Z.shiftr val (40 - depth)).

(** [1u << n] *)
Definition shl32 (n : Z) : res Z :=
  if (0 <=? n) && (n <? 32) then Ok (Z.shiftl 1 n) else Fault BuiltinUndefined.

(** [std::fill(v.begin() + offs, v.begin() + offs + cnt, x)] *)
Definition fill_range {A} (l : list A) (offs cnt : nat) (x : A) : res (list A) :=
  if (offs + cnt <=? length l)%nat then Ok (take offs l ++ replicate cnt x ++ drop (offs + cnt) l)
  else Fault OutOfBounds.

(** [v.resize(n)] of a vector of pointers *)
Definition vresize (l : list nat) (n : nat) : list nat := take n l ++ replicate (n - length l) 0%nat.

Section DashTable.
Context `{TablePolicy Q K V}.
Implicit Types (t : DashTable K V).

Definition set_size t (n : Z) : DashTable K V :=
  mkTable n (unique_segments_ t) (bucket_count_ t) (initial_depth_ t) (global_depth_ t) (segment_ t) (heap_ t) (next_ t).
Definition set_unique t (n : Z) : DashTable K V :=
  mkTable (size_ t) n (bucket_count_ t) (initial_depth_ t) (global_depth_ t) (segment_ t) (heap_ t) (next_ t).
Definition set_bucket_count t (n : Z) : DashTable K V :=
  mkTable (size_ t) (unique_segments_ t) n (initial_depth_ t) (global_depth_ t) (segment_ t) (heap_ t) (next_ t).
Definition set_global_depth t (n : Z) : DashTable K V :=
  mkTable (size_ t) (unique_segments_ t) (bucket_count_ t) (initial_depth_ t) n (segment_ t) (heap_ t) (next_ t).
Definition set_segments t (l : list nat) : DashTable K V :=
  mkTable (size_ t) (unique_segments_ t) (bucket_count_ t) (initial_depth_ t) (global_depth_ t) l (heap_ t) (next_ t).
Definition set_heap t (h : gmap nat (Segment K V)) : DashTable K V :=
  mkTable (size_ t) (unique_segments_ t) (bucket_count_ t) (initial_depth_ t) (global_depth_ t) (segment_ t) h (next_ t).

(** [*p] for a pointer to a segment, and an update of the object. *)
Definition deref t (p : nat) : res (Segment K V) :=
  match heap_ t !! p with Some s => Ok s | None => Fault UseAfterFree end.
Definition store t (p : nat) (s : Segment K V) : DashTable K V := set_heap t (<[p := s]> (heap_ t)).

Definition seg_at t (sid : nat) : res (nat * Segment K V) :=
  p ← aget (segment_ t) sid; s ← deref t p; Ok (p, s).

Definition SegmentId t (hash : Z) : nat :=
  if global_depth_ t =? 0 then 0%nat else Z.to_nat (u32 (Z.shiftr hash (64 - global_depth_ t))).

Definition NextSeg t (sid : nat) : res nat :=
  '(_, s) ← seg_at t sid;
  delta ← shl32 (global_depth_ t - local_depth_ s);
  Ok (sid + Z.to_nat delta)%nat.

(** ** Construction *)

Definition new_bucket (raw : nat → Z) : Bucket K V :=
  mkBucket (new_base (raw <$> seq 0 kSlotNum) (raw <$> seq kSlotNum kStashFpLen))
           (replicate kSlotNum key_init) (replicate kSlotNum val_init).
Definition new_segment (depth id : Z) : Segment K V :=
  mkSegment ((λ i, new_bucket (raw_byte i)) <$> seq 0 kTotalBuckets) depth id.

Definition ConstructSegment t (depth id : Z) : DashTable K V * nat :=
  let p := next_ t in
  (mkTable (size_ t) (unique_segments_ t) (u32 (bucket_count_ t + Z.of_nat kTotalBuckets)) (initial_depth_ t)
     (global_depth_ t) (segment_ t) (<[p := new_segment depth id]> (heap_ t)) (S p), p).

Definition new_table (capacity_log : Z) : res (DashTable K V) :=
  unique ← shl32 capacity_log;
  let t := mkTable 0 unique 0 capacity_log capacity_log (vresize [] (Z.to_nat unique)) ∅ 1 in
  rfold (λ i t, let '(t', p) := ConstructSegment t (global_depth_ t) (Z.of_nat i) in
                l ← aset (segment_ t') i p; Ok (set_segments t' l))
    (seq 0 (length (segment_ t))) t.

(** ** Lookup *)

Definition FindFirst t (key_hash : Z) (pred : K → bool) : res (option TableIterator) :=
  let seg_id := SegmentId t key_hash in
  '(_, s) ← seg_at t seg_id;
  it ← FindIt s key_hash pred;
  Ok (match it with Some i => Some (mkTIt seg_id (index i) (slot i)) | None => None end).

Definition Find t (q : Q) : res (option TableIterator) := FindFirst t (HashFnQ q) (λ k, Equal k q).

(** [it->first] and [it->second] *)
Definition it_key t (it : TableIterator) : res K :=
  '(_, s) ← seg_at t (seg_id_ it); Key s (bucket_id_ it) (slot_id_ it).
Definition it_value t (it : TableIterator) : res V :=
  '(_, s) ← seg_at t (seg_id_ it); Value s (bucket_id_ it) (slot_id_ it).

(** An update through the references [it->first] and [it->second]. *)
Definition update_key {A} t (it : TableIterator) (f : K → res (K * A)) : res (DashTable K V * A) :=
  '(p, s) ← seg_at t (seg_id_ it);
  k ← Key s (bucket_id_ it) (slot_id_ it);
  _ ← Value s (bucket_id_ it) (slot_id_ it);
  '(k', r) ← f k;
  '(s', _) ← on_bucket s (bucket_id_ it)
               (λ b, ks ← aset (key b) (slot_id_ it) k'; Ok (mkBucket (base b) ks (value b), tt));
  Ok (store t p s', r).
Definition update_value {A} t (it : TableIterator) (f : V → res (V * A)) : res (DashTable K V * A) :=
  '(p, s) ← seg_at t (seg_id_ it);
  _ ← Key s (bucket_id_ it) (slot_id_ it);
  v ← Value s (bucket_id_ it) (slot_id_ it);
  '(v', r) ← f v;
  '(s', _) ← on_bucket s (bucket_id_ it)
               (λ b, vs ← aset (value b) (slot_id_ it) v'; Ok (mkBucket (base b) (key b) vs, tt));
  Ok (store t p s', r).

Definition IsOccupied t (it : TableIterator) : res bool :=
  if (seg_id_ it <? length (segment_ t))%nat
  then '(_, s) ← seg_at t (seg_id_ it); IsBusy s (bucket_id_ it) (slot_id_ it)
  else Ok false.

(** ** Insertion *)

(** [for (int i = prev_sz - 1; i >= 0; --i)]: [i] turns are left. *)
Fixpoint increase_loop (repl_cnt i : nat) t : res (DashTable K V) :=
  match i with
  | O => Ok t
  | S i' =>
      let offs := (i' * repl_cnt)%nat in
      p ← aget (segment_ t) i';
      l ← fill_range (segment_ t) offs repl_cnt p;
      let t := set_segments t l in
      '(p, s) ← seg_at t i';
      increase_loop repl_cnt i' (store t p (set_segment_id s (Z.of_nat offs)))
  end.

Definition IncreaseDepth t (new_depth : Z) : res (DashTable K V) :=
  _ ← cassert (negb (length (segment_ t) =? 0)%nat);
  _ ← cassert (global_depth_ t <? new_depth);
  let prev_sz := length (segment_ t) in
  let repl_cnt := Z.to_nat (Z.shiftl 1 (new_depth - global_depth_ t)) in
  let t := set_segments t (vresize (segment_ t) (Z.to_nat (Z.shiftl 1 new_depth))) in
  t ← increase_loop repl_cnt prev_sz t;
  Ok (set_global_depth t (u8 new_depth)).

Definition Split t (seg_id : nat) : res (DashTable K V) :=
  '(src, source) ← seg_at t seg_id;
  chunk_size ← shl32 (global_depth_ t - local_depth_ source);
  let start_idx := Z.land (Z.of_nat seg_id) (u32 (Z.lnot (chunk_size - 1))) in
  let target_id := u32 (start_idx + chunk_size / 2) in
  let '(t, target) := ConstructSegment t (u8 (local_depth_ source + 1)) target_id in
  dest ← deref t target;
  '(source, dest) ← Segment.Split source dest;
  let t := store (store t src source) target dest in
  let t := set_unique t (u32 (unique_segments_ t + 1)) in
  l ← rfold (λ i l, aset l i target)
        (seq (Z.to_nat target_id) (Z.to_nat (u32 (start_idx + chunk_size) - target_id))) (segment_ t);
  Ok (set_segments t l).

(** The [InsertMode]: [force] is [kForceInsert]. *)
Fixpoint insert_loop (fuel : nat) t (target_seg_id : nat) (u : KeySrc Q K) (v : V) (key_hash : Z)
    (pred : K → bool) (force : bool) : res (DashTable K V * TableIterator * bool) :=
  match fuel with
  | O => Fault NoFuel
  | S fuel' =>
      _ ← cassert (target_seg_id <? length (segment_ t))%nat;
      '(target, s) ← seg_at t target_seg_id;
      '(s', it, r) ←
        (if force
         then '(s', it) ← InsertUniq s u v key_hash true;
              Ok (s', it, match it with Some _ => true | None => false end)
         else Segment.Insert s u v key_hash pred);
      let t := store t target s' in
      match it with
      | Some i =>
          let t := if r : bool then set_size t (u64 (size_ t + 1)) else t in
          Ok (t, mkTIt target_seg_id (index i) (slot i), r)
      | None =>
          '(t, target_seg_id) ←
            (if local_depth_ s' =? global_depth_ t then
               t ← IncreaseDepth t (global_depth_ t + 1);
               let target_seg_id := SegmentId t key_hash in
               p ← aget (segment_ t) target_seg_id;
               _ ← cassert (p =? target)%nat;
               Ok (t, target_seg_id)
             else Ok (t, target_seg_id));
          t ← Split t target_seg_id;
          insert_loop fuel' t target_seg_id u v key_hash pred force
      end
  end.

Definition InsertInternal (fuel : nat) t (q : Q) (v : V) (force : bool)
    : res (DashTable K V * TableIterator * bool) :=
  insert_loop fuel t (SegmentId t (HashFnQ q)) (FromQuery q) v (HashFnQ q) (λ k, Equal k q) force.

Definition Insert (fuel : nat) t (q : Q) (v : V) := InsertInternal fuel t q v false.
Definition InsertNew (fuel : nat) t (q : Q) (v : V) : res (DashTable K V * TableIterator) :=
  '(t', it, _) ← InsertInternal fuel t q v true; Ok (t', it).

(** ** Removal *)

(** [policy_.DestroyKey(target->Key(i, j)); policy_.DestroyValue(target->Value(i, j));] *)
Definition destroy_slot (s : Segment K V) (i j : nat) : res (Segment K V) :=
  k ← Key s i j;
  k' ← DestroyKey k;
  '(s, _) ← on_bucket s i (λ b, ks ← aset (key b) j k'; Ok (mkBucket (base b) ks (value b), tt));
  v ← Value s i j;
  v' ← DestroyValue v;
  '(s, _) ← on_bucket s i (λ b, vs ← aset (value b) j v'; Ok (mkBucket (base b) (key b) vs, tt));
  Ok s.

Definition EraseKey t (q : Q) : res (DashTable K V * nat) :=
  let key_hash := HashFnQ q in
  '(p, s) ← seg_at t (SegmentId t key_hash);
  it ← FindIt s key_hash (λ k, Equal k q);
  match it with
  | None => Ok (t, 0%nat)
  | Some i =>
      s1 ← destroy_slot s (index i) (slot i);
      s2 ← Segment.Delete s1 i key_hash;
      Ok (set_size (store t p s2) (u64 (size_ t - 1)), 1%nat)
  end.

Definition Erase t (it : TableIterator) : res (DashTable K V) :=
  '(p, s) ← seg_at t (seg_id_ it);
  k ← it_key t it;
  key_hash ← HashFn k;
  s1 ← destroy_slot s (bucket_id_ it) (slot_id_ it);
  s2 ← Segment.Delete s1 (mkIt (bucket_id_ it) (slot_id_ it)) key_hash;
  Ok (set_size (store t p s2) (u64 (size_ t - 1))).

(** [while (i < segment_.size())]; [cb] is called with the address. *)
Fixpoint iterate_distinct (fuel : nat) (i : nat) t (cb : nat → DashTable K V → res (DashTable K V)) : res (DashTable K V) :=
  if (i <? length (segment_ t))%nat then
    match fuel with
    | O => Fault NoFuel
    | S fuel' =>
        p ← aget (segment_ t) i;
        next_id ← NextSeg t i;
        t' ← cb p t;
        iterate_distinct fuel' next_id t' cb
    end
  else Ok t.

(** The lambda of [Clear]: destroys the contents of one segment. *)
Definition clear_segment (p : nat) t : res (DashTable K V) :=
  s ← deref t p;
  s' ← TraverseAll s (λ it s', destroy_slot s' (index it) (slot it)) s;
  Ok (store t p (Segment.Clear s')).

(** [while (src < segment_.size())] of [Clear]. *)
Fixpoint shrink_loop (fuel : nat) (src dest new_size : nat) t : res (DashTable K V) :=
  if (src <? length (segment_ t))%nat then
    match fuel with
    | O => Fault NoFuel
    | S fuel' =>
        '(p, s) ← seg_at t src;
        next_src ← NextSeg t src;
        if (dest <? new_size)%nat then
          let t := store t p (set_local_depth s (initial_depth_ t)) in
          let t := set_bucket_count t (u32 (bucket_count_ t + Z.of_nat kTotalBuckets)) in
          l ← aset (segment_ t) dest p;
          shrink_loop fuel' next_src (S dest) new_size (set_segments t l)
        else
          _ ← destroy_segment s;
          shrink_loop fuel' next_src dest new_size (set_heap t (delete p (heap_ t)))
    end
  else Ok t.

Definition Clear t : res (DashTable K V) :=
  t ← iterate_distinct (length (segment_ t)) 0 t clear_segment;
  let t := set_size t 0 in
  if initial_depth_ t <? global_depth_ t then
    let new_size := Z.to_nat (Z.shiftl 1 (initial_depth_ t)) in
    t ← shrink_loop (length (segment_ t)) 0 0 new_size (set_bucket_count t 0);
    let t := set_global_depth t (initial_depth_ t) in
    let t := set_unique t (Z.of_nat new_size) in
    Ok (set_segments t (vresize (segment_ t) new_size))
  else Ok t.

(** [~DashTable()]: the lambda destroys a segment and gives its memory back. *)
Definition free_segment (p : nat) t : res (DashTable K V) :=
  s ← deref t p; _ ← destroy_segment s; Ok (set_heap t (delete p (heap_ t))).
Definition destroy_table t : res (DashTable K V) :=
  t ← Clear t; iterate_distinct (length (segment_ t)) 0 t free_segment.

(** ** Iteration *)

(** The loop of [Seek2Occupied] over the whole table. *)
Fixpoint seek (fuel : nat) t (seg bucket slot_id : nat) : res (option TableIterator) :=
  if (seg <? length (segment_ t))%nat then
    match fuel with
    | O => Fault NoFuel
    | S fuel' =>
        '(_, s) ← seg_at t seg;
        it ← FindValidStartingFrom s bucket slot_id;
        match it with
        | Some i => Ok (Some (mkTIt seg (index i) (slot i)))
        | None => seg' ← NextSeg t seg; seek fuel' t seg' 0 0
        end
    end
  else Ok None.

Definition Seek2Occupied t (it : TableIterator) : res (option TableIterator) :=
  _ ← cassert (seg_id_ it <? length (segment_ t))%nat;
  seek (length (segment_ t)) t (seg_id_ it) (bucket_id_ it) (slot_id_ it).

(** The single-bucket variant; the mask is a [uint32_t]. *)
Definition Seek2Occupied_bucket t (it : TableIterator) : res (option TableIterator) :=
  _ ← cassert (seg_id_ it <? length (segment_ t))%nat;
  '(_, s) ← seg_at t (seg_id_ it);
  b ← GetBucket s (bucket_id_ it);
  if (32 <=? slot_id_ it)%nat then Fault BuiltinUndefined else
  let mask := Z.shiftr (BucketBase.GetBusy (base b)) (Z.of_nat (slot_id_ it)) in
  if mask =? 0 then Ok None else
  d ← ctz mask; Ok (Some (mkTIt (seg_id_ it) (bucket_id_ it) (slot_id_ it + d))).

Definition begin t : res (option TableIterator) := Seek2Occupied t (mkTIt 0 0 0).
(** [operator++] and [operator+=]; [slot_id_] is a [uint8_t]. *)
Definition next t (it : TableIterator) : res (option TableIterator) :=
  Seek2Occupied t (mkTIt (seg_id_ it) (bucket_id_ it) (Z.to_nat (u8 (Z.of_nat (slot_id_ it) + 1)))).
Definition add_slots (it : TableIterator) (delta : Z) : TableIterator :=
  mkTIt (seg_id_ it) (bucket_id_ it) (Z.to_nat (u8 (Z.of_nat (slot_id_ it) + delta))).
Definition next_bucket t (it : TableIterator) : res (option TableIterator) := Seek2Occupied_bucket t (add_slots it 1).
Definition advance_bucket t (it : TableIterator) (delta : Z) : res (option TableIterator) := Seek2Occupied_bucket t (add_slots it delta).

(** The conversions between the two kinds of iterators; [operator==] and [is_done]
    of iterators of one table. *)
Definition to_bucket t (it : option TableIterator) : res (option TableIterator) :=
  match it with None => Ok None | Some it => Seek2Occupied_bucket t (mkTIt (seg_id_ it) (bucket_id_ it) 0) end.
Definition from_bucket (it : option TableIterator) : option TableIterator := it.
Definition it_eq (a b : option TableIterator) : bool :=
  match a, b with
  | None, None => true
  | Some a, Some b => (seg_id_ a =? seg_id_ b)%nat && (bucket_id_ a =? bucket_id_ b)%nat && (slot_id_ a =? slot_id_ b)%nat
  | _, _ => false
  end.
Definition it_is_done (it : option TableIterator) : bool := match it with None => true | Some _ => false end.

(** The [do ... while (!fetched)] of [Traverse]. The callback may change the
    table: [tbl] reads it from the state. *)
Fixpoint traverse_loop {S} (tbl : S → DashTable K V) (fuel : nat) (sid bid : nat)
    (cb : TableIterator → S → res S) (st : S) : res (Z * S) :=
  match fuel with
  | O => Fault NoFuel
  | Datatypes.S fuel' =>
      '(p, _) ← seg_at (tbl st) sid;
      '(fetched, st) ← TraverseLogicalBucket (λ st, deref (tbl st) p) bid HashFn
                         (λ it, cb (mkTIt sid (index it) (slot it))) st;
      sid' ← NextSeg (tbl st) sid;
      let wrap := (length (segment_ (tbl st)) <=? sid')%nat in
      let sid' := if wrap then 0%nat else sid' in
      let bid' := if wrap then Datatypes.S bid else bid in
      if wrap && (kBucketNum <=? bid')%nat then Ok (cursor_end, st) else
      if fetched : bool then Ok (Cursor (global_depth_ (tbl st)) (Z.of_nat sid') (Z.of_nat bid'), st)
      else traverse_loop tbl fuel' sid' bid' cb st
  end.

Definition Traverse {S} (tbl : S → DashTable K V) (curs : Z) (cb : TableIterator → S → res S) (st : S) : res (Z * S) :=
  let t := tbl st in
  let sid := Z.to_nat (cursor_segment_id curs (global_depth_ t)) in
  let bid := Z.to_nat (cursor_bucket_id curs) in
  if (kBucketNum <=? bid)%nat || (length (segment_ t) <=? sid)%nat then Ok (cursor_end, st) else
  traverse_loop tbl (kBucketNum * length (segment_ t)) sid bid cb st.
End DashTable.

(** [do { cursor = table.Traverse(cursor, cb); } while (cursor);] of the
    callers of [Traverse] (DbSlice::ExpireAllIfNeeded). *)
Fixpoint traverse_all `{TablePolicy Q K V} {S} (tbl : S → DashTable K V) (fuel : nat) (curs : Z)
    (cb : TableIterator → S → res S) (st : S) : res S :=
  match fuel with
  | O => Fault NoFuel
  | Datatypes.S fuel' =>
      '(curs, st) ← Traverse tbl curs cb st;
      if curs =? cursor_end then Ok st else traverse_all tbl fuel' curs cb st
  end.
