(* ===== verification/DashTableInv.v ===== *)
(** DashTableInv: the invariant of the DashTable directory, the contents of a
    table, and lookup. *)
From stdpp Require Import gmap.
From S2P Require Import Prelude Policy SlotBitmap BucketBase Bucket Segment SegmentInv SegmentOps SegmentSplit DashTable.
Local Open Scope Z_scope.

(** * Directory arithmetic *)

Section arith.
Local Open Scope nat_scope.

Lemma div_iff (j h b : nat) : 0 < h → j / h = b ↔ b * h ≤ j < b * h + h.
Proof.
  intros Hh. split.
  - intros <-. pose proof (Nat.div_mod_eq j h). pose proof (Nat.mod_upper_bound j h). nia.
  - intros Hj. symmetry. apply (Nat.div_unique j h b (j - b * h)); nia.
Qed.

Lemma pow2_pos n : 0 < 2 ^ n.
Proof. pose proof (Nat.pow_nonzero 2 n). lia. Qed.

Lemma pow2_split a b : b ≤ a → 2 ^ a = 2 ^ (a - b) * 2 ^ b.
Proof. intros Hb. rewrite <- Nat.pow_add_r. f_equal. lia. Qed.

Lemma div_block_lt j G L : L ≤ G → j < 2 ^ G → j / 2 ^ (G - L) < 2 ^ L.
Proof.
  intros HL Hj. apply Nat.Div0.div_lt_upper_bound. rewrite <- pow2_split; done.
Qed.

Lemma div2_block j G L : L ≤ G → j / 2 ^ (S G - L) = (j / 2) / 2 ^ (G - L).
Proof.
  intros HL. rewrite Nat.Div0.div_div. f_equal. replace (S G - L) with (S (G - L)) by lia. simpl. lia.
Qed.
End arith.

Lemma shl32_ok (n : nat) : (n < 32)%nat → shl32 (Z.of_nat n) = Ok (Z.of_nat (2 ^ n)).
Proof.
  intros Hn. unfold shl32. rewrite (proj2 (Z.leb_le 0 _)), (proj2 (Z.ltb_lt _ 32)) by lia. simpl.
  f_equal. rewrite Z.shiftl_1_l. by rewrite Nat2Z.inj_pow.
Qed.

Section prefix.
Context `{PT : TablePolicy Q K V, DN : TableDenote Q K V W, PO : !TablePolicyOk Q K V W}.
Implicit Types (q : Q) (n m : nat).

(** The first [n] bits of the hash of [q]. *)
Definition prefix (n : nat) (q : Q) : nat := Z.to_nat (Z.shiftr (HashFnQ q) (64 - Z.of_nat n)).

Lemma prefix_Z n q : (n ≤ 64)%nat → Z.of_nat (prefix n q) = Z.shiftr (HashFnQ q) (64 - Z.of_nat n).
Proof.
  intros Hn. unfold prefix. pose proof (hash_range q). rewrite Z2Nat.id; [done|].
  apply Z.shiftr_nonneg. lia.
Qed.

Lemma prefix_lt n q : (n ≤ 64)%nat → (prefix n q < 2 ^ n)%nat.
Proof.
  intros Hn. apply Nat2Z.inj_lt. rewrite prefix_Z, Nat2Z.inj_pow, Z.shiftr_div_pow2 by lia.
  pose proof (hash_range q). apply Z.div_lt_upper_bound; [apply Z.pow_pos_nonneg; lia|].
  rewrite <- Z.pow_add_r by lia. replace (64 - Z.of_nat n + Z.of_nat n) with 64 by lia. lia.
Qed.

Lemma prefix_prefix n m q : (m ≤ n ≤ 64)%nat → prefix m q = (prefix n q / 2 ^ (n - m))%nat.
Proof.
  intros Hn. apply Nat2Z.inj. rewrite Nat2Z.inj_div, !prefix_Z, Nat2Z.inj_pow, Nat2Z.inj_sub by lia.
  change (Z.of_nat 2) with 2. rewrite <- Z.shiftr_div_pow2, Z.shiftr_shiftr by lia. f_equal. lia.
Qed.

(** One more bit of the prefix is the bit the split looks at. *)
Lemma prefix_succ n q : (n < 64)%nat →
  prefix (S n) q = (2 * prefix n q + (if decide (right (Z.of_nat n + 1) q) then 1 else 0))%nat.
Proof.
  intros Hn. rewrite (prefix_prefix (S n) n q) by lia. replace (S n - n)%nat with 1%nat by lia.
  change (2 ^ 1)%nat with 2%nat. pose proof (Nat.div_mod_eq (prefix (S n) q) 2) as Hdm. rewrite Hdm at 1. f_equal.
  assert (Z.of_nat (prefix (S n) q) mod 2 = Z.land (Z.shiftr (HashFnQ q) (64 - (Z.of_nat n + 1))) 1) as Hbit.
  { rewrite prefix_Z by lia. change 1 with (Z.ones 1) at 2. rewrite Z.land_ones by lia.
    repeat f_equal; lia. }
  pose proof (Nat.mod_upper_bound (prefix (S n) q) 2 ltac:(done)) as Hlt.
  apply (f_equal Z.to_nat) in Hbit. rewrite <- (Nat2Z.inj_mod _ 2), Nat2Z.id in Hbit.
  destruct (decide (right (Z.of_nat n + 1) q)) as [E|E]; unfold right, is_mine in E.
  - apply Z.eqb_neq in E.
    assert (0 ≤ Z.land (Z.shiftr (HashFnQ q) (64 - (Z.of_nat n + 1))) 1) by (apply Z.land_nonneg; lia). lia.
  - apply not_false_iff_true, Z.eqb_eq in E. by rewrite Hbit, E.
Qed.
End prefix.

(** * The invariant *)

Section invariant.
Context `{PT : TablePolicy Q K V, DN : TableDenote Q K V W, PO : !TablePolicyOk Q K V W}.
Implicit Types (t : DashTable K V) (s : Segment K V) (p i j G L : nat) (q : Q).

(** The live segment at [p] serves the directory block [b] of depth [L]. *)
Record block_ok t G p s L b : Prop := {
  bo_depth : local_depth_ s = Z.of_nat L;
  bo_le : (L ≤ G)%nat;
  bo_init : (initial_depth_ t ≤ Z.of_nat L);
  bo_block : (b < 2 ^ L)%nat;
  bo_dir : ∀ j, (j < 2 ^ G)%nat → segment_ t !! j = Some p ↔ (j / 2 ^ (G - L) = b)%nat;
  bo_wf : seg_wf s;
  bo_keys : ∀ x, x ∈ seg_items s → prefix L x.1 = b;
}.

Record dir_wf t G : Prop := {
  dw_depth : global_depth_ t = Z.of_nat G;
  dw_max : (G ≤ 31)%nat;
  dw_init : 0 ≤ initial_depth_ t ≤ Z.of_nat G;
  dw_len : length (segment_ t) = (2 ^ G)%nat;
  dw_live : ∀ j p, segment_ t !! j = Some p → is_Some (heap_ t !! p);
  dw_block : ∀ p s, heap_ t !! p = Some s → ∃ L b, block_ok t G p s L b;
  dw_next : ∀ p, (next_ t ≤ p)%nat → heap_ t !! p = None;
  dw_unique : unique_segments_ t = u32 (Z.of_nat (size (heap_ t)));
  dw_buckets : bucket_count_ t = u32 (Z.of_nat (kTotalBuckets * size (heap_ t)));
}.

(** The contents of the table. *)
Definition items t : list (Q * W) := (map_to_list (heap_ t)).*2 ≫= seg_items.

Definition table_wf t : Prop :=
  ∃ G, dir_wf t G ∧ NoDup (items t).*1 ∧ size_ t = u64 (Z.of_nat (length (items t))).

Lemma elem_of_items t x : x ∈ items t ↔ ∃ p s, heap_ t !! p = Some s ∧ x ∈ seg_items s.
Proof.
  unfold items. rewrite list_elem_of_bind. split.
  - intros (s & Hx & ([p s'] & -> & Hp)%list_elem_of_fmap). apply elem_of_map_to_list in Hp. eauto.
  - intros (p & s & Hp & Hx). exists s. split; [done|]. apply list_elem_of_fmap. exists (p, s).
    by rewrite elem_of_map_to_list.
Qed.

Lemma items_heap t t' : heap_ t' = heap_ t → items t' = items t.
Proof. unfold items. by intros ->. Qed.

Lemma heap_items_insert (h : gmap nat (Segment K V)) p s : h !! p = None →
  ((map_to_list (<[p := s]> h)).*2 ≫= seg_items) ≡ₚ seg_items s ++ ((map_to_list h).*2 ≫= seg_items).
Proof. intros Hp. rewrite map_to_list_insert by done. by rewrite fmap_cons, bind_cons. Qed.

Lemma items_store_new t p s : heap_ t !! p = None → items (store t p s) ≡ₚ seg_items s ++ items t.
Proof. apply heap_items_insert. Qed.

Lemma items_lookup t p s : heap_ t !! p = Some s →
  items t ≡ₚ seg_items s ++ ((map_to_list (delete p (heap_ t))).*2 ≫= seg_items).
Proof.
  intros Hp. rewrite <- heap_items_insert by apply lookup_delete_eq. unfold items.
  by rewrite insert_delete_id.
Qed.

Lemma items_store t p s s' : heap_ t !! p = Some s →
  seg_items s' ++ items t ≡ₚ seg_items s ++ items (store t p s').
Proof.
  intros Hp. rewrite (items_lookup t p s Hp). rewrite (items_lookup (store t p s') p s') by apply lookup_insert_eq.
  simpl. rewrite delete_insert_eq. by rewrite (Permutation_app_swap_app (seg_items s')).
Qed.

(** ** Which segment a key belongs to *)

Lemma SegmentId_prefix t G q : dir_wf t G → SegmentId t (HashFnQ q) = prefix G q.
Proof.
  intros Hd. unfold SegmentId. rewrite (dw_depth _ _ Hd). pose proof (dw_max _ _ Hd).
  destruct (Z.eqb_spec (Z.of_nat G) 0) as [E|E].
  - replace G with 0%nat by lia. pose proof (prefix_lt 0 q ltac:(lia)) as Hlt. simpl in Hlt. lia.
  - rewrite uN_small; [done|]. rewrite <- prefix_Z by lia. split; [lia|].
    pose proof (prefix_lt G q ltac:(lia)) as Hlt. apply Nat2Z.inj_lt in Hlt. rewrite Nat2Z.inj_pow in Hlt.
    eapply Z.lt_le_trans; [exact Hlt|]. apply Z.pow_le_mono_r; lia.
Qed.

Lemma dir_lookup t G j : dir_wf t G → (j < 2 ^ G)%nat →
  ∃ p s L b, segment_ t !! j = Some p ∧ heap_ t !! p = Some s ∧ block_ok t G p s L b ∧ (j / 2 ^ (G - L))%nat = b.
Proof.
  intros Hd Hj. destruct (lookup_lt_is_Some_2 (segment_ t) j) as [p Hp]; [by rewrite (dw_len _ _ Hd)|].
  destruct (dw_live _ _ Hd _ _ Hp) as [s Hs]. destruct (dw_block _ _ Hd _ _ Hs) as (L & b & Hb).
  exists p, s, L, b. split_and!; try done. by apply (bo_dir _ _ _ _ _ _ Hb).
Qed.

Lemma seg_at_ok t j p s : segment_ t !! j = Some p → heap_ t !! p = Some s → seg_at t j = Ok (p, s).
Proof. intros Hj Hp. unfold seg_at, deref. by rewrite (aget_some _ _ _ Hj), bind_ok, Hp. Qed.

Lemma block_prefix t G p s L b q : dir_wf t G → block_ok t G p s L b →
  segment_ t !! (prefix G q) = Some p ↔ prefix L q = b.
Proof.
  intros Hd Hb. pose proof (dw_max _ _ Hd). pose proof (bo_le _ _ _ _ _ _ Hb).
  rewrite (bo_dir _ _ _ _ _ _ Hb) by (apply prefix_lt; lia). by rewrite (prefix_prefix G L q) by lia.
Qed.

(** A segment holds exactly the contents with its prefix. *)
Lemma items_of_segment t G p s L b : dir_wf t G → heap_ t !! p = Some s → block_ok t G p s L b →
  seg_items s ≡ₚ filter (λ x, prefix L x.1 = b) (items t).
Proof.
  intros Hd Hp Hb. rewrite (items_lookup t p s Hp), filter_app.
  rewrite (filter_true _ (seg_items s)) by apply Hb. rewrite (filter_false _ _), app_nil_r; [done|].
  intros x Hx Hpre. apply list_elem_of_bind in Hx as (s' & Hx & ([p' s''] & -> & Hin)%list_elem_of_fmap).
  apply elem_of_map_to_list in Hin. simpl in Hx. apply lookup_delete_Some in Hin as [Hne Hp'].
  destruct (dw_block _ _ Hd _ _ Hp') as (L' & b' & Hb'). apply Hne.
  pose proof (bo_keys _ _ _ _ _ _ Hb' _ Hx) as Hpre'.
  apply (block_prefix _ _ _ _ _ _ _ Hd Hb) in Hpre. apply (block_prefix _ _ _ _ _ _ _ Hd Hb') in Hpre'.
  congruence.
Qed.

(** Everything stored under a key is in the segment that the key maps to. *)
Lemma key_segment t G q : dir_wf t G →
  ∃ p s L, segment_ t !! (prefix G q) = Some p ∧ heap_ t !! p = Some s ∧ block_ok t G p s L (prefix L q) ∧
    (L ≤ G)%nat ∧ seg_at t (SegmentId t (HashFnQ q)) = Ok (p, s) ∧
    (∀ w, (q, w) ∈ items t → (q, w) ∈ seg_items s).
Proof.
  intros Hd. pose proof (dw_max _ _ Hd).
  destruct (dir_lookup t G (prefix G q) Hd) as (p & s & L & b & Hp & Hs & Hb & Hj); [apply prefix_lt; lia|].
  pose proof (bo_le _ _ _ _ _ _ Hb). rewrite <- prefix_prefix in Hj by lia. subst b.
  exists p, s, L. split_and!; try done.
  - rewrite (SegmentId_prefix t G) by done. by apply seg_at_ok.
  - intros w Hw. rewrite (items_of_segment t G p s L) by done. by apply list_elem_of_filter.
Qed.

(** ** Lookup *)

(** The iterator points to an entry of the table. *)
Definition t_holds t (it : TableIterator) (e : entry Q W) : Prop :=
  ∃ p s, segment_ t !! seg_id_ it = Some p ∧ heap_ t !! p = Some s ∧ holds s (bucket_id_ it) (slot_id_ it) e.

Lemma seg_items_key s q : seg_shape s → (∃ e, e ∈ seg_entries s ∧ e_key e = q) ↔ q ∈ (seg_items s).*1.
Proof.
  intros Hs. unfold seg_items. rewrite <- list_fmap_compose, list_elem_of_fmap. unfold compose, kv. simpl.
  split; intros (e & ? & ?); exists e; done.
Qed.

Lemma t_holds_items t G it e : dir_wf t G → t_holds t it e → kv e ∈ items t.
Proof.
  intros Hd (p & s & _ & Hs & Hh). apply elem_of_items. exists p, s. split; [done|].
  destruct (dw_block _ _ Hd _ _ Hs) as (L & b & Hb). apply list_elem_of_fmap. exists e. split; [done|].
  apply (elem_of_seg_entries s); [apply (bo_wf _ _ _ _ _ _ Hb)|eauto].
Qed.

Lemma Find_spec t G q : dir_wf t G →
  runs (Find t q) (λ r,
    match r with
    | Some it => seg_id_ it = SegmentId t (HashFnQ q) ∧ ∃ e, t_holds t it e ∧ e_key e = q
    | None => q ∉ (items t).*1
    end).
Proof.
  intros Hd. destruct (key_segment t G q Hd) as (p & s & L & Hp & Hs & Hb & _ & Hat & Hin).
  unfold Find, FindFirst. rewrite Hat, bind_ok. pose proof (bo_wf _ _ _ _ _ _ Hb) as Hw.
  rbind (FindIt_spec s q Hw). intros [i|] Hf; apply runs_ok.
  - split; [done|]. destruct Hf as (e & Hh & Hk). exists e. split; [|done]. exists p, s. cbn [seg_id_].
    by rewrite (SegmentId_prefix t G).
  - intros ([k w] & Hk & Hx)%list_elem_of_fmap. simpl in Hk. subst k. apply Hin in Hx.
    apply list_elem_of_fmap in Hx as (e & He & Hin'). unfold kv in He. simplify_eq.
    by apply (Hf e Hin').
Qed.
End invariant.
