(* ===== verification/DashTableGrow.v ===== *)
(** DashTableGrow: doubling the directory and splitting a segment keep the
    contents of a DashTable and the invariant of its directory, and the constructor
    establishes it. *)
From stdpp Require Import gmap.
From S2P Require Import Prelude Policy SlotBitmap BucketBase Bucket Segment SegmentInv SegmentOps SegmentSplit DashTable DashTableInv.
Local Open Scope Z_scope.

Section store.
Context `{PT : TablePolicy Q K V, DN : TableDenote Q K V W, PO : !TablePolicyOk Q K V W}.
Implicit Types (t : DashTable K V) (s : Segment K V) (p i j G L b : nat) (q : Q).

(** Replacing a segment by one of the same depth whose keys belong to it. *)
Lemma block_store t G p s s' L b : block_ok t G p s L b → local_depth_ s' = local_depth_ s → seg_wf s' →
  (∀ x, x ∈ seg_items s' → prefix L x.1 = b) → block_ok (store t p s') G p s' L b.
Proof. intros [H1 H2 H3 H4 H5 H6 H7] Hd Hw Hk. split; try done. by rewrite Hd. Qed.

Lemma dir_store t G p s s' L b : dir_wf t G → heap_ t !! p = Some s → block_ok t G p s L b →
  local_depth_ s' = local_depth_ s → seg_wf s' → (∀ x, x ∈ seg_items s' → prefix L x.1 = b) →
  dir_wf (store t p s') G.
Proof.
  intros [Hdep Hmax Hinit Hlen Hlive Hblk Hnext Hun Hbk] Hp Hb Hld Hw Hk.
  assert (size (<[p := s']> (heap_ t)) = size (heap_ t)) as Hsz
    by (apply map_size_insert_Some; by eexists).
  split; simpl; rewrite ?Hsz; try done.
  - intros j p' Hj. destruct (Hlive j p' Hj) as [s1 Hs1]. destruct (decide (p = p')) as [<-|].
    + by rewrite lookup_insert_eq.
    + rewrite lookup_insert_ne; eauto.
  - intros p' s1. destruct (decide (p = p')) as [<-|].
    + rewrite lookup_insert_eq. intros E. injection E as <-. exists L, b. by apply (block_store t G p s).
    + rewrite lookup_insert_ne by done. intros Hs1. destruct (Hblk _ _ Hs1) as (L1 & b1 & [? ? ? ? ? ? ?]).
      exists L1, b1. by split.
  - intros p' Hp'. rewrite lookup_insert_ne; [by apply Hnext|]. intros ->. rewrite Hnext in Hp; done.
Qed.
End store.

Section increase.
Context `{PT : TablePolicy Q K V, DN : TableDenote Q K V W, PO : !TablePolicyOk Q K V W}.
Implicit Types (t : DashTable K V) (s : Segment K V) (h : gmap nat (Segment K V)) (p i j G L b : nat) (q : Q).

(** Only the ids of segments differ. *)
Definition ids_only h h' : Prop :=
  ∀ p, h' !! p = None ∧ h !! p = None ∨ ∃ s id, h !! p = Some s ∧ h' !! p = Some (set_segment_id s id).

Lemma ids_only_refl h : ids_only h h.
Proof.
  intros p. destruct (h !! p) as [s|] eqn:E; [right|by left]. exists s, (segment_id_ s). split; [done|]. by destruct s.
Qed.

Lemma ids_only_store h h' p s id : ids_only h h' → h' !! p = Some s → ids_only h (<[p := set_segment_id s id]> h').
Proof.
  intros Hi Hp p'. destruct (decide (p = p')) as [<-|]; [|rewrite lookup_insert_ne by done; apply Hi].
  right. destruct (Hi p) as [[E _]|(s0 & id0 & H0 & H1)]; [congruence|]. rewrite Hp in H1. injection H1 as ->.
  exists s0, id. split; [done|]. rewrite lookup_insert_eq. done.
Qed.

Lemma ids_only_fmap h h' : ids_only h h' → seg_items <$> h' = seg_items <$> h.
Proof.
  intros Hi. apply map_eq. intros p. rewrite !lookup_fmap.
  destruct (Hi p) as [[-> ->]|(s & id & -> & ->)]; [done|]. simpl. done.
Qed.

Lemma heap_items_fmap h : ((map_to_list h).*2 ≫= seg_items) = concat ((map_to_list (seg_items <$> h)).*2).
Proof.
  rewrite map_to_list_fmap. rewrite <- list_fmap_compose.
  induction (map_to_list h) as [|[p s] l IH]; [done|]. csimpl. by rewrite IH.
Qed.

Lemma ids_only_items t t' : ids_only (heap_ t) (heap_ t') → items t' = items t.
Proof. intros Hi. unfold items. by rewrite !heap_items_fmap, (ids_only_fmap _ _ Hi). Qed.

Lemma ids_only_size h h' : ids_only h h' → size h' = size h.
Proof.
  intros Hi. rewrite <- (map_size_fmap seg_items h), <- (map_size_fmap seg_items h').
  by rewrite (ids_only_fmap _ _ Hi).
Qed.

Lemma fill_range_spec {A} (l : list A) offs cnt x : (offs + cnt ≤ length l)%nat →
  runs (fill_range l offs cnt x) (λ l', length l' = length l ∧
    ∀ j, l' !! j = if decide (offs ≤ j < offs + cnt)%nat then Some x else l !! j).
Proof.
  intros Hle. unfold fill_range. rewrite (proj2 (Nat.leb_le _ _)) by done. apply runs_ok. split.
  - rewrite !length_app, length_take, length_replicate, length_drop. lia.
  - intros j. destruct (decide (j < offs)%nat).
    + rewrite decide_False by lia. rewrite lookup_app_l by (rewrite length_take; lia).
      by rewrite lookup_take_lt.
    + rewrite lookup_app_r by (rewrite length_take; lia). rewrite length_take, Nat.min_l by lia.
      destruct (decide (j < offs + cnt)%nat).
      * rewrite decide_True by lia. rewrite lookup_app_l by (rewrite length_replicate; lia).
        apply lookup_replicate_2. lia.
      * rewrite decide_False by lia. rewrite lookup_app_r by (rewrite length_replicate; lia).
        rewrite length_replicate, lookup_drop. f_equal. lia.
Qed.

(** The other fields of the table stay. *)
Definition same_counts t t' : Prop :=
  size_ t' = size_ t ∧ unique_segments_ t' = unique_segments_ t ∧ bucket_count_ t' = bucket_count_ t ∧
  initial_depth_ t' = initial_depth_ t ∧ global_depth_ t' = global_depth_ t ∧ next_ t' = next_ t.

(** The loop that doubles the directory, from the directory [old]. *)
Lemma increase_loop_spec (old : list nat) t0 t i : (i ≤ length old)%nat →
  length (segment_ t) = (2 * length old)%nat →
  (∀ j p, old !! j = Some p → is_Some (heap_ t0 !! p)) →
  ids_only (heap_ t0) (heap_ t) → same_counts t0 t →
  (∀ j, (j < i)%nat → segment_ t !! j = old !! j) →
  (∀ j, (2 * i ≤ j)%nat → segment_ t !! j = old !! (j / 2)%nat) →
  runs (increase_loop 2 i t) (λ t', ids_only (heap_ t0) (heap_ t') ∧ same_counts t0 t' ∧
    length (segment_ t') = (2 * length old)%nat ∧ ∀ j, segment_ t' !! j = old !! (j / 2)%nat).
Proof.
  intros Hi Hlen Hlive Hids Hsame Hlow Hhigh. revert t Hi Hlen Hids Hsame Hlow Hhigh.
  induction i as [|i IH]; intros t Hi Hlen Hids Hsame Hlow Hhigh; simpl.
  { apply runs_ok. split_and!; try done; try apply Hsame. intros j. apply Hhigh. lia. }
  destruct (lookup_lt_is_Some_2 old i) as [p Hp]; [lia|].
  assert (segment_ t !! i = Some p) as Hti by (rewrite Hlow by lia; done).
  rewrite (aget_some _ _ _ Hti), bind_ok.
  rbind (fill_range_spec (segment_ t) (i * 2) 2 p); [lia|]. intros l [Hl Hlk].
  assert (l !! i = Some p) as Hli by (rewrite Hlk; by case_decide).
  destruct (Hlive _ _ Hp) as [s0 Hs0].
  destruct (Hids p) as [[_ E]|(s1 & id & Hs1 & Hs)]; [congruence|].
  rewrite (seg_at_ok (set_segments t l) i p _ Hli Hs), bind_ok. apply IH.
  - lia.
  - simpl. by rewrite Hl.
  - by apply ids_only_store.
  - done.
  - intros j Hj. simpl. rewrite Hlk, decide_False by lia. apply Hlow. lia.
  - intros j Hj. cbn [segment_ store set_heap set_segments]. rewrite Hlk. destruct (decide (i * 2 ≤ j < i * 2 + 2)%nat).
    + assert (j / 2 = i)%nat as -> by (symmetry; apply (Nat.div_unique j 2 i (j - 2 * i)); lia). by rewrite Hp.
    + apply Hhigh. lia.
Qed.

Lemma vresize_grow (l : list nat) n : (length l ≤ n)%nat →
  length (vresize l n) = n ∧ ∀ j, (j < length l)%nat → vresize l n !! j = l !! j.
Proof.
  intros Hn. unfold vresize. rewrite take_ge by done. split.
  - rewrite length_app, length_replicate. lia.
  - intros j Hj. by apply lookup_app_l.
Qed.

(** The table after doubling: every directory entry is repeated. *)
Record doubled t t' G : Prop := {
  db_dir : dir_wf t' (S G);
  db_ids : ids_only (heap_ t) (heap_ t');
  db_size : size_ t' = size_ t;
  db_seg : ∀ j, segment_ t' !! j = segment_ t !! (j / 2)%nat;
}.

Lemma block_doubled t t' G p s id L b : initial_depth_ t' = initial_depth_ t →
  length (segment_ t) = (2 ^ G)%nat → (∀ j, segment_ t' !! j = segment_ t !! (j / 2)%nat) →
  block_ok t G p s L b → block_ok t' (S G) p (set_segment_id s id) L b.
Proof.
  intros Hinit Hlen Hseg [H1 H2 H3 H4 H5 H6 H7].
  destruct (seg_wf_buckets s (set_segment_id s id) eq_refl H6) as [Hw Hi].
  split; try done; [lia|by rewrite Hinit|].
  intros j Hj. assert (j / 2 < 2 ^ G)%nat as Hj2.
  { apply Nat.Div0.div_lt_upper_bound. simpl in Hj. lia. }
  by rewrite Hseg, H5, div2_block by done.
Qed.

Lemma IncreaseDepth_spec t G : dir_wf t G → (G < 31)%nat →
  runs (IncreaseDepth t (Z.of_nat G + 1)) (λ t', doubled t t' G).
Proof.
  intros Hd HG. pose proof Hd as [Hdep Hmax Hinit Hlen Hlive Hblk Hnext Hun Hbk]. pose proof (pow2_pos G).
  assert (negb (length (segment_ t) =? 0)%nat = true) as Hne by (apply negb_true_iff, Nat.eqb_neq; lia).
  unfold IncreaseDepth. rewrite (cassert_true _ Hne), bind_ok.
  rewrite (cassert_true (_ <? _)), bind_ok by (apply Z.ltb_lt; lia). rewrite Hdep.
  replace (Z.of_nat G + 1 - Z.of_nat G) with 1 by lia. change (Z.to_nat (Z.shiftl 1 1)) with 2%nat.
  assert (Z.to_nat (Z.shiftl 1 (Z.of_nat G + 1)) = 2 * length (segment_ t))%nat as ->.
  { rewrite Z.shiftl_1_l, Hlen. replace (Z.of_nat G + 1) with (Z.of_nat (S G)) by lia.
    change 2 with (Z.of_nat 2) at 1. rewrite <- Nat2Z.inj_pow, Nat2Z.id. simpl. lia. }
  destruct (vresize_grow (segment_ t) (2 * length (segment_ t))) as [Hvl Hvlk]; [lia|].
  rbind (increase_loop_spec (segment_ t) t (set_segments t (vresize (segment_ t) (2 * length (segment_ t))))
           (length (segment_ t))); [done|done|exact Hlive|apply ids_only_refl|done|exact Hvlk| |].
  { intros j Hj. cbn [segment_ set_segments].
    rewrite !lookup_ge_None_2; [done|apply Nat.div_le_lower_bound; lia|lia]. }
  intros t' (Hids & (Hsz & Hun' & Hbk' & Hinit' & _ & Hnx') & Hlen' & Hlk). apply runs_ok.
  rewrite uN_small by lia. split; [|done|done|done].
  pose proof (ids_only_size _ _ Hids) as Hsize. split; simpl; rewrite ?Hsize, ?Hun', ?Hbk', ?Hinit', ?Hnx'; try done.
  - lia.
  - lia.
  - lia.
  - intros j p Hj. rewrite Hlk in Hj. destruct (Hlive _ _ Hj) as [s Hs].
    destruct (Hids p) as [[_ E]|(s1 & id & _ & Hs1)]; [congruence|eauto].
  - intros p s Hs. destruct (Hids p) as [[E _]|(s1 & id & Hs0 & Hs1)]; [congruence|].
    rewrite Hs in Hs1. injection Hs1 as ->. destruct (Hblk _ _ Hs0) as (L & b & Hb). exists L, b.
    by eapply (block_doubled t).
  - intros p Hp. destruct (Hids p) as [[E _]|(s1 & id & Hs0 & _)]; [done|]. rewrite Hnext in Hs0; done.
Qed.
End increase.

Section split.
Context `{PT : TablePolicy Q K V, DN : TableDenote Q K V W, PO : !TablePolicyOk Q K V W, AO : !TableAssignOk Q K V W}.
Implicit Types (t : DashTable K V) (s : Segment K V) (p i j G L b : nat) (q : Q).

Lemma new_segment_wf d id : seg_wf (new_segment (K:=K) (V:=V) d id) ∧ seg_items (new_segment (K:=K) (V:=V) d id) = [].
Proof.
  apply blank_segment.
  - simpl. by rewrite length_fmap, length_seq.
  - intros i bu. simpl. rewrite list_lookup_fmap. destruct (seq 0 kTotalBuckets !! i); [|done].
    intros E. injection E as <-. apply blank_intro; try done; simpl; rewrite ?length_fmap, ?length_seq, ?length_replicate;
      try done; apply Forall_replicate; [apply key_init_asg|apply val_init_asg].
Qed.

(** [x & ~(2^k - 1)] rounds down to a multiple of [2^k]. *)
Lemma align_down (x k : nat) : Z.of_nat x < 2 ^ 32 →
  Z.land (Z.of_nat x) (u32 (Z.lnot (Z.of_nat (2 ^ k) - 1))) = Z.of_nat ((x / 2 ^ k) * 2 ^ k).
Proof.
  intros Hx. rewrite Nat2Z.inj_pow, Z.sub_1_r. change (Z.of_nat 2) with 2.
  replace (Z.pred (2 ^ Z.of_nat k)) with (Z.ones (Z.of_nat k)) by (rewrite Z.ones_equiv; done).
  rewrite Nat2Z.inj_mul, Nat2Z.inj_div, Nat2Z.inj_pow. change (Z.of_nat 2) with 2.
  rewrite <- Z.shiftr_div_pow2, <- Z.shiftl_mul_pow2 by lia. apply bits_ext. intros j.
  rewrite Z.land_spec, uN_testbit, Z.lnot_spec, ones_testbit by lia. rewrite Z.shiftl_spec by lia.
  destruct (decide (Z.of_nat j < Z.of_nat k)).
  - rewrite bool_decide_true by done. rewrite (Z.testbit_neg_r (Z.shiftr _ _)) by lia. by rewrite andb_false_r.
  - rewrite bool_decide_false by done. rewrite Z.shiftr_spec by lia.
    replace (Z.of_nat j - Z.of_nat k + Z.of_nat k) with (Z.of_nat j) by lia. simpl.
    case_bool_decide; [by rewrite andb_true_r|]. rewrite andb_false_r. symmetry.
    apply (testbit_high _ 32); [change (Z.of_nat 32) with 32; lia|lia].
Qed.

(** [for (i = target_id; i < start_idx + chunk_size; ++i) segment_[i] = target;] *)
Lemma assign_range (l : list nat) a n p : (a + n ≤ length l)%nat →
  runs (rfold (λ i l, aset l i p) (seq a n) l) (λ l', length l' = length l ∧
    ∀ j, l' !! j = if decide (a ≤ j < a + n)%nat then Some p else l !! j).
Proof.
  revert a l. induction n as [|n IH]; intros a l Hle; simpl.
  - apply runs_ok. split; [done|]. intros j. rewrite decide_False by lia. done.
  - destruct (lookup_lt_is_Some_2 l a) as [y Hy]; [lia|]. rewrite (aset_some _ _ _ _ Hy), bind_ok.
    eapply runs_mono; [apply IH; rewrite length_insert; lia|]. intros l' [Hl Hlk].
    rewrite length_insert in Hl. split; [done|]. intros j. rewrite Hlk.
    destruct (decide (S a ≤ j < S a + n)%nat); [by rewrite decide_True by lia|].
    destruct (decide (a = j)) as [<-|].
    + rewrite decide_True by lia. apply list_lookup_insert_eq. lia.
    + rewrite decide_False by lia. by apply list_lookup_insert_ne.
Qed.

(** The table after a split of the segment at [p], block [b] of depth [L]. *)
Record was_split t t' G L b : Prop := {
  ws_dir : dir_wf t' G;
  ws_items : items t' ≡ₚ items t;
  ws_size : size_ t' = size_ t;
  ws_init : initial_depth_ t' = initial_depth_ t;
  ws_block : ∀ q, prefix L q = b → ∃ p s, segment_ t' !! prefix G q = Some p ∧ heap_ t' !! p = Some s ∧
               block_ok t' G p s (S L) (prefix (S L) q);
}.

(** The directory after the split. *)
Lemma split_blocks (l l' : list nat) (p p' G L b : nat) : (L < G)%nat → p ≠ p' →
  (∀ j, l !! j ≠ Some p') →
  (∀ j, (j < 2 ^ G)%nat → l !! j = Some p ↔ (j / 2 ^ (G - L) = b)%nat) →
  (∀ j, l' !! j = if decide (b * 2 ^ (G - L) + 2 ^ (G - S L) ≤ j <
                             b * 2 ^ (G - L) + 2 ^ (G - S L) + 2 ^ (G - S L))%nat then Some p' else l !! j) →
  (∀ j, (j < 2 ^ G)%nat → l' !! j = Some p ↔ (j / 2 ^ (G - S L) = 2 * b)%nat) ∧
  (∀ j, (j < 2 ^ G)%nat → l' !! j = Some p' ↔ (j / 2 ^ (G - S L) = 2 * b + 1)%nat) ∧
  (∀ j p2, p2 ≠ p → p2 ≠ p' → (j < 2 ^ G)%nat → l' !! j = Some p2 ↔ l !! j = Some p2).
Proof.
  intros HL Hne Hno Hold Hnew. pose proof (pow2_pos (G - S L)) as Hh. pose proof (pow2_pos (G - L)) as Hc.
  assert (2 ^ (G - L) = 2 * 2 ^ (G - S L))%nat as Ec.
  { replace (G - L)%nat with (S (G - S L)) by lia. simpl. lia. }
  assert (∀ j, (j < 2 ^ G)%nat → l !! j = Some p ↔ (b * 2 ^ (G - L) ≤ j < b * 2 ^ (G - L) + 2 ^ (G - L))%nat) as Hold'.
  { intros j Hj. rewrite Hold by done. by apply div_iff. }
  split_and!.
  - intros j Hj. rewrite div_iff, Hnew by done. destruct (decide _).
    + split; [intros E; injection E; congruence|nia].
    + rewrite Hold' by done. nia.
  - intros j Hj. rewrite div_iff, Hnew by done. destruct (decide _).
    + split; [nia|done].
    + split; [intros E; by apply Hno in E|nia].
  - intros j p2 H1 H2 Hj. rewrite Hnew. destruct (decide _); [|done].
    assert (l !! j = Some p) as -> by (apply Hold'; [done|nia]). split; intros E; injection E; congruence.
Qed.

(** The addresses computed by [Split]. *)
Lemma split_range (i G L b : nat) : (L < G ≤ 31)%nat → (i < 2 ^ G)%nat → (i / 2 ^ (G - L))%nat = b →
  let chunk := Z.of_nat (2 ^ (G - L)) in
  let start := Z.land (Z.of_nat i) (u32 (Z.lnot (chunk - 1))) in
  let target := u32 (start + chunk / 2) in
  Z.to_nat target = (b * 2 ^ (G - L) + 2 ^ (G - S L))%nat ∧
  Z.to_nat (u32 (start + chunk) - target) = (2 ^ (G - S L))%nat ∧
  (b * 2 ^ (G - L) + 2 ^ (G - S L) + 2 ^ (G - S L) ≤ 2 ^ G)%nat.
Proof.
  intros HG Hi Hb. cbv zeta.
  assert (2 ^ (G - L) = 2 * 2 ^ (G - S L))%nat as Ec.
  { replace (G - L)%nat with (S (G - S L)) by lia. simpl. lia. }
  assert (2 ^ G ≤ 2 ^ 31)%nat as Hmax by (apply Nat.pow_le_mono_r; lia).
  assert (Z.of_nat (2 ^ 31) = 2147483648) as E31 by by rewrite Nat2Z.inj_pow.
  assert (b * 2 ^ (G - L) + 2 ^ (G - L) ≤ 2 ^ G)%nat as Hle.
  { pose proof (div_block_lt i G L ltac:(lia) Hi) as Hlt. rewrite Hb in Hlt.
    rewrite (pow2_split G L) by lia. nia. }
  change (2 ^ 32) with 4294967296 in *.
  rewrite align_down by (change (2 ^ 32) with 4294967296; lia). rewrite Hb.
  assert (Z.of_nat (2 ^ (G - L)) / 2 = Z.of_nat (2 ^ (G - S L))) as ->.
  { rewrite Ec, Nat2Z.inj_mul, Z.mul_comm. by apply Z.div_mul. }
  rewrite !uN_small by (change (2 ^ 32) with 4294967296; lia). lia.
Qed.

Lemma split_children s s' dst' nw L b : (∀ x, x ∈ seg_items s → prefix L x.1 = b) → split_post (Z.of_nat L + 1) s nw s' dst' → (L < 64)%nat →
  (∀ x, x ∈ seg_items s' → prefix (S L) x.1 = 2 * b)%nat ∧
  (∀ x, x ∈ seg_items dst' → prefix (S L) x.1 = 2 * b + 1)%nat.
Proof.
  intros Hk [_ _ _ _ Hi Hid] HL. split; intros x Hx.
  - rewrite Hi in Hx. apply list_elem_of_filter in Hx as [Hr Hx].
    rewrite prefix_succ, decide_False by done. rewrite (Hk x Hx). lia.
  - rewrite Hid in Hx. apply list_elem_of_filter in Hx as [Hr Hx].
    rewrite prefix_succ, decide_True by done. by rewrite (Hk x Hx).
Qed.

Lemma split_items t t' p p' s s' dst' nw d : heap_ t !! p = Some s → heap_ t !! p' = None → p ≠ p' →
  heap_ t' = <[p' := dst']> (<[p := s']> (heap_ t)) → split_post d s nw s' dst' → items t' ≡ₚ items t.
Proof.
  intros Hp Hp' Hne Hh [_ _ _ _ Hi Hid].
  assert (items t' = items (store (store t p s') p' dst')) as -> by by apply items_heap.
  rewrite items_store_new by (simpl; by rewrite lookup_insert_ne).
  apply (Permutation_app_inv_l (seg_items s')). rewrite (items_store t p s s' Hp).
  rewrite app_assoc, Hi, Hid. unfold rights.
  rewrite (Permutation_app_comm (filter _ (seg_items s))). by rewrite filter_app_complement.
Qed.

Lemma split_dir t t' G p s s' dst' nw L b : dir_wf t G → heap_ t !! p = Some s → block_ok t G p s L b →
  (L < G)%nat → split_post (Z.of_nat L + 1) s nw s' dst' →
  heap_ t' = <[next_ t := dst']> (<[p := s']> (heap_ t)) → next_ t' = S (next_ t) →
  size_ t' = size_ t → initial_depth_ t' = initial_depth_ t → global_depth_ t' = global_depth_ t →
  unique_segments_ t' = u32 (unique_segments_ t + 1) →
  bucket_count_ t' = u32 (bucket_count_ t + Z.of_nat kTotalBuckets) →
  length (segment_ t') = length (segment_ t) →
  (∀ j, segment_ t' !! j = if decide (b * 2 ^ (G - L) + 2 ^ (G - S L) ≤ j <
                             b * 2 ^ (G - L) + 2 ^ (G - S L) + 2 ^ (G - S L))%nat then Some (next_ t) else segment_ t !! j) →
  was_split t t' G L b.
Proof.
  intros Hd Hp Hb HL Hpost Hh Hnx Hsz Hin Hgd Hun Hbc Hlen Hlk.
  pose proof Hd as [Hdep Hmax Hinit Hlen0 Hlive Hblk Hnext Hun0 Hbk0]. pose proof Hb as [HbL HbG HbI Hbb Hbdir Hbwf Hbkeys].
  set (p' := next_ t) in *. assert (heap_ t !! p' = None) as Hp' by by apply Hnext.
  assert (p ≠ p') as Hne by (intros ->; congruence).
  assert (∀ j, segment_ t !! j ≠ Some p') as Hno by (intros j Hj; destruct (Hlive _ _ Hj); congruence).
  destruct (split_blocks (segment_ t) (segment_ t') p p' G L b HL Hne Hno Hbdir Hlk) as (B1 & B2 & B3).
  destruct (split_children s s' dst' nw L b Hbkeys Hpost ltac:(lia)) as [K1 K2].
  assert (block_ok t' G p s' (S L) (2 * b)) as Hb1.
  { destruct Hpost as [Hw' Hwd' [Hd1 Hd2] _ _ _]. split; try done; simpl; lia. }
  assert (block_ok t' G p' dst' (S L) (2 * b + 1)) as Hb2.
  { destruct Hpost as [Hw' Hwd' [Hd1 Hd2] _ _ _]. split; try done; simpl; lia. }
  assert (size (heap_ t') = S (size (heap_ t))) as Hsize.
  { rewrite Hh, map_size_insert_None by by rewrite lookup_insert_ne.
    by rewrite map_size_insert_Some by by eexists. }
  assert (heap_ t' !! p = Some s') as Hlp by (by rewrite Hh, lookup_insert_ne, lookup_insert_eq).
  assert (heap_ t' !! p' = Some dst') as Hlp' by (by rewrite Hh, lookup_insert_eq).
  split; [split|..]; rewrite ?Hgd, ?Hin; try done.
  - by rewrite Hlen.
  - intros j p2. rewrite Hlk, Hh. intros Hj. destruct (decide (p2 = p')) as [->|]; [rewrite lookup_insert_eq; eauto|].
    rewrite lookup_insert_ne by done. destruct (decide (p2 = p)) as [->|]; [rewrite lookup_insert_eq; eauto|].
    rewrite lookup_insert_ne by done. destruct (decide _) in Hj; [congruence|eauto].
  - intros p2 s2 Hs2. destruct (decide (p2 = p')) as [->|Hn1]; [rewrite Hlp' in Hs2; injection Hs2 as <-; eauto|].
    destruct (decide (p2 = p)) as [->|Hn2]; [rewrite Hlp in Hs2; injection Hs2 as <-; eauto|].
    rewrite Hh, !lookup_insert_ne in Hs2 by done. destruct (Hblk _ _ Hs2) as (L2 & b2 & [? ? ? ? Hdir2 ? ?]).
    exists L2, b2. split; try done; [by rewrite Hin|]. intros j Hj. by rewrite B3, Hdir2.
  - intros p2 Hp2. rewrite Hh, !lookup_insert_ne; [apply Hnext; lia|intros ->; rewrite Hnext in Hp; [done|lia]|lia].
  - rewrite Hun, Hun0, uN_add_l, Hsize by done. f_equal. lia.
  - rewrite Hbc, Hbk0, uN_add_l, Hsize by done. f_equal. lia.
  - by eapply split_items.
  - intros q Hq. assert (prefix (S L) q = 2 * b ∨ prefix (S L) q = 2 * b + 1)%nat as Hc.
    { rewrite prefix_succ, Hq by lia. destruct (decide _); lia. }
    rewrite (prefix_prefix G (S L) q) in Hc |- * by lia. pose proof (prefix_lt G q ltac:(lia)) as Hlt.
    destruct Hc as [Hc|Hc]; rewrite Hc; [exists p, s'|exists p', dst']; split_and!; try done; [by apply B1|by apply B2].
Qed.

Lemma Split_table_spec t G i p s L b : dir_wf t G → segment_ t !! i = Some p → heap_ t !! p = Some s →
  block_ok t G p s L b → (L < G)%nat → (i < 2 ^ G)%nat →
  may (overflows (rights (Z.of_nat L + 1) (seg_items s))) (DashTable.Split t i) (λ t', was_split t t' G L b).
Proof.
  intros Hd Hi Hp Hb HL Hi2. pose proof Hd as [Hdep Hmax Hinit Hlen Hlive Hblk Hnext Hun Hbk].
  pose proof Hb as [HbL HbG HbI Hbb Hbdir Hbwf Hbkeys].
  assert ((i / 2 ^ (G - L))%nat = b) as Hib by (apply Hbdir; done).
  unfold DashTable.Split. rewrite (seg_at_ok t i p s Hi Hp), bind_ok, Hdep, HbL.
  rewrite <- Nat2Z.inj_sub, shl32_ok, bind_ok by lia.
  destruct (split_range i G L b ltac:(lia) Hi2 Hib) as (Et & En & Hle).
  set (start := Z.land _ _) in *. set (target := u32 (start + _)) in *.
  unfold ConstructSegment, deref. cbn [heap_]. rewrite lookup_insert_eq, bind_ok.
  set (p' := next_ t). assert (p ≠ p') as Hne by (intros ->; rewrite Hnext in Hp; done).
  assert (heap_ t !! p' = None) as Hp' by by apply Hnext.
  destruct (new_segment_wf (u8 (Z.of_nat L + 1)) target) as [Hnw Hni].
  pose proof (Split_spec s (new_segment (u8 (Z.of_nat L + 1)) target) Hbwf Hnw Hni ltac:(lia)) as Hsplit.
  rewrite HbL in Hsplit. mbind_may Hsplit. intros [s' dst'] Hpost.
  cbn [segment_ set_unique store set_heap set_segments]. rewrite Et, En.
  mbind_runs (assign_range (segment_ t) (b * 2 ^ (G - L) + 2 ^ (G - S L)) (2 ^ (G - S L)) p'); [lia|].
  intros l [Hl Hlk]. apply may_ok.
  eapply (split_dir t _ G p s s' dst' _ L b); try done.
  simpl. fold p'. rewrite (insert_insert_ne (heap_ t) p p') by done. by rewrite insert_insert_eq.
Qed.
End split.

(** * The constructor

    It establishes the invariant, with one empty segment per directory entry. *)

Section new_table.
Context `{PT : TablePolicy Q K V, DN : TableDenote Q K V W, PO : !TablePolicyOk Q K V W}.
Implicit Types (t : DashTable K V) (p i j n : nat).

(** The state of the constructor's loop after [i] of [n] segments. *)
Record building (c : Z) (n i : nat) t : Prop := {
  bd_size : size_ t = 0;
  bd_unique : unique_segments_ t = Z.of_nat n;
  bd_buckets : bucket_count_ t = u32 (Z.of_nat (kTotalBuckets * i));
  bd_init : initial_depth_ t = c;
  bd_depth : global_depth_ t = c;
  bd_next : next_ t = S i;
  bd_len : length (segment_ t) = n;
  bd_dir : ∀ j, (j < i)%nat → segment_ t !! j = Some (S j);
  bd_heap : ∀ p, heap_ t !! p = if decide (1 ≤ p ≤ i)%nat then Some (new_segment c (Z.of_nat p - 1)) else None;
  bd_heap_size : size (heap_ t) = i;
}.

Lemma building_step c n i t : (i < n)%nat → building c n i t →
  runs (let '(t', p) := ConstructSegment t (global_depth_ t) (Z.of_nat i) in
        l ← aset (segment_ t') i p; Ok (set_segments t' l)) (building c n (S i)).
Proof.
  intros Hi [Hsz Hun Hbk Hin Hgd Hnx Hlen Hdir Hheap Hhs]. unfold ConstructSegment. rewrite Hnx, Hgd, Hbk. cbn [segment_].
  destruct (lookup_lt_is_Some_2 (segment_ t) i) as [y Hy]; [lia|]. rewrite (aset_some _ _ _ _ Hy), bind_ok.
  apply runs_ok. split; simpl; try done.
  - rewrite uN_add_l by done. f_equal. lia.
  - by rewrite length_insert.
  - intros j Hj. destruct (decide (i = j)) as [<-|].
    + apply list_lookup_insert_eq. lia.
    + rewrite list_lookup_insert_ne by done. apply Hdir. lia.
  - intros p. destruct (decide (S i = p)) as [<-|].
    + rewrite lookup_insert_eq, decide_True by lia. do 2 f_equal. lia.
    + rewrite lookup_insert_ne, Hheap by done. destruct (decide (1 ≤ p ≤ i)%nat).
      * by rewrite decide_True by lia.
      * by rewrite decide_False by lia.
  - rewrite map_size_insert_None; [by rewrite Hhs|]. rewrite Hheap, decide_False by lia. done.
Qed.

Lemma building_done c G t : c = Z.of_nat G → (G ≤ 31)%nat → building c (2 ^ G) (2 ^ G) t → dir_wf t G ∧ items t = [].
Proof.
  intros -> HG [Hsz Hun Hbk Hin Hgd Hnx Hlen Hdir Hheap Hhs].
  assert (∀ p s, heap_ t !! p = Some s → (1 ≤ p ≤ 2 ^ G)%nat ∧ s = new_segment (Z.of_nat G) (Z.of_nat p - 1)) as Hlk.
  { intros p s. rewrite Hheap. destruct (decide _); [|done]. intros E. injection E as <-. done. }
  split; [split|]; try done.
  - rewrite Hin. lia.
  - intros j p Hj. assert (j < 2 ^ G)%nat as Hlt by (rewrite <- Hlen; by eapply lookup_lt_Some).
    rewrite Hdir in Hj by done. injection Hj as <-. rewrite Hheap, decide_True by lia. eauto.
  - intros p s (Hp & ->)%Hlk. destruct (new_segment_wf (Z.of_nat G) (Z.of_nat p - 1)) as [Hw Hi].
    exists G, (p - 1)%nat. split; try done; [rewrite Hin; lia|lia| |rewrite Hi; by intros x ?%elem_of_nil].
    intros j Hj. rewrite Hdir by done. replace (G - G)%nat with 0%nat by lia. rewrite Nat.div_1_r.
    split; [intros E; injection E; lia|intros ->; f_equal; lia].
  - intros p Hp. rewrite Hnx in Hp. rewrite Hheap, decide_False by lia. done.
  - rewrite Hhs, Hun, uN_small; [done|]. split; [lia|].
    apply (Z.le_lt_trans _ (2 ^ 31)); [|apply Z.pow_lt_mono_r; lia]. rewrite Nat2Z.inj_pow.
    apply Z.pow_le_mono_r; lia.
  - by rewrite Hhs.
  - destruct (items t) as [|x l] eqn:E; [done|]. assert (x ∈ items t) as Hx by (rewrite E; left).
    apply elem_of_items in Hx as (p & s & Hp & Hx). apply Hlk in Hp as (_ & ->).
    destruct (new_segment_wf (Z.of_nat G) (Z.of_nat p - 1)) as [_ Hi]. rewrite Hi in Hx. by apply elem_of_nil in Hx.
Qed.

Lemma new_table_spec G : (G ≤ 31)%nat →
  runs (new_table (Z.of_nat G)) (λ t, dir_wf t G ∧ items t = [] ∧ size_ t = 0).
Proof.
  intros HG. unfold new_table. rewrite shl32_ok, bind_ok by lia. rewrite Nat2Z.id. cbv zeta.
  assert (length (vresize [] (2 ^ G)) = 2 ^ G)%nat as Hlen.
  { unfold vresize. rewrite length_app, length_replicate, take_nil. simpl. lia. }
  cbn [segment_]. rewrite Hlen. eapply runs_mono; [apply (rfold_runs _ _
    (λ pre t, building (Z.of_nat G) (2 ^ G) (length pre) t))|].
  - split; simpl; try done; try lia; [by rewrite Nat.mul_0_r|]. intros p. rewrite decide_False by lia. apply lookup_empty.
  - intros pre i post t Hseq Hb. apply seq_split in Hseq as (-> & _ & Hlt). rewrite length_app. simpl.
    rewrite Nat.add_1_r. by apply building_step.
  - intros t Hb. rewrite length_seq in Hb. destruct (building_done (Z.of_nat G) G t) as [Hd Hi]; [done..|].
    split_and!; [done|done|apply Hb].
Qed.
End new_table.
