(* ===== verification/DashTableIter.v ===== *)
(** DashTableIter: iterating over a DashTable. [walk] is the sequence of
    distinct segments that the loops over the directory visit; an iterator that
    starts at [begin()] reaches every entry exactly once; one that is made for a
    bucket goes through the entries of the bucket. *)
From stdpp Require Import gmap.
From S2P Require Import Prelude Policy SlotBitmap BucketBase Bucket Segment SegmentInv SegmentOps SegmentSplit DashTable DashTableInv DashTableGrow.
Local Open Scope Z_scope.

(** * Positions inside a bucket and a segment *)

Section positions.
Context `{PT : TablePolicy Q K V, DN : TableDenote Q K V W, PO : !TablePolicyOk Q K V W}.
Implicit Types (s : Segment K V) (b : Bucket K V) (i j : nat) (e : entry Q W).

(** The occupied slots from [j] on. *)
Definition occ_from b j : list (nat * entry Q W) :=
  omap (λ j, e ← slot_at b j; Some (j, e)) (seq j (kSlotNum - j)).

Lemma occ_from_0 b : occ_from b 0 = occ_list b.
Proof. unfold occ_from, occ_list. by rewrite Nat.sub_0_r. Qed.

Lemma occ_from_step b j : (j < kSlotNum)%nat →
  occ_from b j = option_list (pair j <$> slot_at b j) ++ occ_from b (S j).
Proof.
  intros Hj. unfold occ_from. replace (kSlotNum - j)%nat with (S (kSlotNum - S j)) by lia. csimpl.
  by destruct (slot_at b j).
Qed.

Lemma occ_from_skip b j d : (∀ k, (j ≤ k < j + d)%nat → slot_at b k = None) → (j + d ≤ kSlotNum)%nat →
  occ_from b j = occ_from b (j + d).
Proof.
  revert j. induction d as [|d IH]; intros j Hn Hd; [by rewrite Nat.add_0_r|].
  rewrite occ_from_step, Hn by lia. simpl. rewrite IH; [f_equal; lia|intros; apply Hn; lia|lia].
Qed.

Lemma none_from b j n : (∀ k, (j ≤ k)%nat → slot_at b k = None) →
  omap (λ j, e ← slot_at b j; Some (j, e)) (seq j n) = [].
Proof.
  revert j. induction n as [|n IH]; intros j Hn; [done|]. csimpl. rewrite Hn by lia. apply IH. intros; apply Hn; lia.
Qed.

(** The busy mask shifted to [j], as the searches use it. *)
Lemma mask_from b j : bucket_wf b →
  let mask := Z.shiftr (BucketBase.GetBusy (base b)) (Z.of_nat j) in
  if mask =? 0 then occ_from b j = [] else
  ∃ d e, ctz mask = Ok d ∧ (j + d < kSlotNum)%nat ∧ slot_at b (j + d) = Some e ∧
         occ_from b j = (j + d, e)%nat :: occ_from b (S (j + d)).
Proof.
  intros Hw mask. assert (∀ d, Z.testbit mask (Z.of_nat d) = occupied b (j + d)) as Hbit.
  { intros d. unfold mask. rewrite Z.shiftr_spec by lia. unfold occupied, busy_bit, BucketBase.GetBusy.
    f_equal. lia. }
  assert (0 ≤ mask) as Hpos.
  { unfold mask. apply Z.shiftr_nonneg. unfold BucketBase.GetBusy, SlotBitmap.GetBusy.
    pose proof (wf_busy _ _ (bwf_slots _ _ (bk_base _ Hw))). lia. }
  destruct (Z.eqb_spec mask 0) as [E|E].
  - assert (∀ k, (j ≤ k)%nat → slot_at b k = None) as Hn.
    { intros k Hk. apply slot_at_free; [done|]. replace k with (j + (k - j))%nat by lia.
      by rewrite <- Hbit, E, Z.testbit_0_l. }
    unfold occ_from. apply none_from. done.
  - destruct (ctz_spec mask) as (d & Hd & H1 & H0); [lia|]. rewrite Hbit in H1.
    pose proof (occupied_lt b _ Hw H1) as Hlt. apply slot_at_occupied in H1 as [e He]; [|done].
    exists d, e. split_and!; [done..|]. rewrite (occ_from_skip b j d); [|intros k Hk|lia].
    + rewrite occ_from_step by done. by rewrite He.
    + apply slot_at_free; [done|]. replace k with (j + (k - j))%nat by lia. rewrite <- Hbit. apply H0. lia.
Qed.

(** The occupied positions of a segment from bucket [i], slot [j] on. *)
Definition at_bucket i (x : nat * entry Q W) : Iterator * entry Q W := (mkIt i x.1, x.2).
Definition occ_at s i j : list (Iterator * entry Q W) :=
  at_bucket i <$> from_option (λ b, occ_from b j) [] (bucket_ s !! i).
Definition seg_from s i j : list (Iterator * entry Q W) :=
  occ_at s i j ++ (seq (S i) (kTotalBuckets - S i) ≫= λ k, occ_at s k 0).

Lemma seg_from_bucket s i j : (S i < kTotalBuckets)%nat → occ_at s i j = [] → seg_from s i j = seg_from s (S i) 0.
Proof.
  intros Hi Ho. unfold seg_from. rewrite Ho.
  replace (kTotalBuckets - S i)%nat with (S (kTotalBuckets - S (S i))) by lia. done.
Qed.

(** The first position from [(i, j)] on, and what follows it. *)
Lemma find_valid_spec s rest i j : seg_shape s → (rest + i = kTotalBuckets)%nat → (0 < rest)%nat →
  runs (find_valid s rest i j) (λ r,
    match r with
    | None => seg_from s i j = []
    | Some it => ∃ e, holds s (index it) (slot it) e ∧ (slot it < kSlotNum)%nat ∧ (index it < kTotalBuckets)%nat ∧
                      seg_from s i j = (it, e) :: seg_from s (index it) (S (slot it))
    end).
Proof.
  intros Hs. revert i j. induction rest as [|rest IH]; intros i j Hr Hpos; [lia|]. simpl.
  destruct (get_bucket s i Hs) as (b & Hb & Hg & Hw); [lia|]. rewrite Hg, bind_ok.
  pose proof (mask_from b j Hw) as Hm. cbv zeta in Hm.
  assert (∀ k, occ_at s i k = at_bucket i <$> occ_from b k) as Hocc by (intros k; unfold occ_at; by rewrite Hb).
  destruct (Z.shiftr _ _ =? 0); simpl.
  - destruct rest as [|rest].
    + simpl. apply runs_ok. unfold seg_from. rewrite Hocc, Hm.
      replace (kTotalBuckets - S i)%nat with 0%nat by lia. done.
    + rewrite seg_from_bucket by (try lia; by rewrite Hocc, Hm). apply IH; lia.
  - destruct Hm as (d & e & -> & Hlt & He & Heq). rewrite bind_ok. apply runs_ok. exists e.
    cbn [index slot]. split_and!; [by exists b|done|lia|]. unfold seg_from. rewrite !Hocc, Heq. done.
Qed.

Lemma seg_from_entries s : snd <$> seg_from s 0 0 = seg_entries s.
Proof.
  unfold seg_entries. assert (0 < kTotalBuckets)%nat as Hpos by (unfold kTotalBuckets; pose proof bucket_bounds; lia).
  assert (∀ k, snd <$> occ_at s k 0 = bk s k) as Hk.
  { intros k. unfold occ_at, bk. destruct (bucket_ s !! k) as [b|]; [|done]. simpl.
    rewrite occ_from_0, <- occ_list_entries, <- list_fmap_compose. done. }
  assert (seg_from s 0 0 = seq 0 kTotalBuckets ≫= λ k, occ_at s k 0) as ->.
  { unfold seg_from. replace kTotalBuckets with (S (kTotalBuckets - 1)) at 2 by lia. done. }
  induction (seq 0 kTotalBuckets) as [|k l IH]; [done|]. by rewrite !bind_cons, fmap_app, IH, Hk.
Qed.
Lemma kTotal_pos : (0 < kTotalBuckets)%nat.
Proof. unfold kTotalBuckets. pose proof bucket_bounds. lia. Qed.

Lemma seg_from_bind s : seg_from s 0 0 = seq 0 kTotalBuckets ≫= λ k, occ_at s k 0.
Proof.
  pose proof kTotal_pos as Hpos. unfold seg_from. replace kTotalBuckets with (S (kTotalBuckets - 1)) at 2 by lia. done.
Qed.

Lemma elem_of_seg_from s it e : seg_shape s → (it, e) ∈ seg_from s 0 0 → holds s (index it) (slot it) e.
Proof.
  intros Hs. rewrite seg_from_bind, list_elem_of_bind. intros (i & Hx & _). unfold occ_at in Hx.
  destruct (bucket_ s !! i) as [b|] eqn:Hb; simpl in Hx; [|by apply elem_of_nil in Hx].
  rewrite occ_from_0 in Hx. apply list_elem_of_fmap in Hx as ([j e'] & E & Hx). unfold at_bucket in E. simpl in E.
  injection E as -> ->. apply elem_of_occ_list in Hx as [_ Hx]. by exists b.
Qed.

Lemma seg_from_NoDup s : NoDup (seg_from s 0 0).*1.
Proof.
  rewrite seg_from_bind. generalize (NoDup_seq 0 kTotalBuckets).
  induction (seq 0 kTotalBuckets) as [|i l IH]; intros Hnd; [constructor|].
  apply NoDup_cons in Hnd as [Hn Hnd]. rewrite bind_cons, fmap_app. apply NoDup_app.
  assert (∀ k it, it ∈ (occ_at s k 0).*1 → index it = k) as Hix.
  { intros k it ([it' e] & -> & Hin)%list_elem_of_fmap. unfold occ_at in Hin.
    apply list_elem_of_fmap in Hin as ([j e'] & E & _). unfold at_bucket in E. by simplify_eq/=. }
  split_and!; [| |by apply IH].
  - unfold occ_at. destruct (bucket_ s !! i) as [b|]; simpl; [|constructor]. rewrite occ_from_0.
    assert ((at_bucket i <$> occ_list b).*1 = mkIt i <$> (occ_list b).*1) as -> by by rewrite <- !list_fmap_compose.
    pose proof (occ_list_NoDup b) as Ho. apply NoDup_fmap_2; [|done]. intros x y E. by injection E.
  - intros it Hit Hit'. apply Hix in Hit. apply list_elem_of_fmap in Hit' as ([it' e] & -> & Hin).
    apply list_elem_of_bind in Hin as (k & Hin & Hk). apply Hn. simpl in Hit. rewrite <- Hit.
    rewrite (Hix k it') ; [done|]. apply list_elem_of_fmap. by exists (it', e).
Qed.

Lemma elem_of_occ_at s i it e : seg_shape s → (it, e) ∈ occ_at s i 0 ↔ index it = i ∧ holds s i (slot it) e.
Proof.
  intros Hs. unfold occ_at, holds. destruct (bucket_ s !! i) as [b|] eqn:Hb; simpl.
  - rewrite occ_from_0, list_elem_of_fmap. unfold at_bucket. split.
    + intros ([j e'] & E & Hx%elem_of_occ_list). simpl in E. injection E as -> ->. simpl. split; [done|]. exists b. naive_solver.
    + intros (<- & b' & E & He). injection E as <-. exists (slot it, e). split; [by destruct it|].
      apply elem_of_occ_list. split; [|done]. apply (occupied_lt b); [by eapply sh_wf|].
      apply slot_at_occupied; [by eapply sh_wf|eauto].
  - split; [by intros ?%elem_of_nil|]. by intros (_ & b' & ? & _).
Qed.

Lemma seg_from_elem s it e : seg_shape s → (it, e) ∈ seg_from s 0 0 ↔ holds s (index it) (slot it) e.
Proof.
  intros Hs. split; [by apply elem_of_seg_from|]. intros Hh. rewrite seg_from_bind, list_elem_of_bind.
  exists (index it). split; [by apply elem_of_occ_at|]. apply elem_of_seq. destruct Hh as (b & Hb & _).
  apply lookup_lt_Some in Hb. rewrite (sh_len _ Hs) in Hb. lia.
Qed.

Lemma occ_at_NoDup s i : NoDup (occ_at s i 0).
Proof.
  unfold occ_at. destruct (bucket_ s !! i) as [b|]; simpl; [|constructor]. rewrite occ_from_0.
  apply NoDup_fmap_2; [|by eapply NoDup_fmap_1, occ_list_NoDup].
  intros [j1 e1] [j2 e2] E. unfold at_bucket in E. by simplify_eq/=.
Qed.
End positions.

(** * The walk over the distinct segments *)

Section walk.
Context `{PT : TablePolicy Q K V, DN : TableDenote Q K V W, PO : !TablePolicyOk Q K V W}.
Implicit Types (t : DashTable K V) (s : Segment K V) (p sid G L b : nat).

(** The visits (directory index, address, segment) from index [sid] on. *)
Inductive walk t : nat → list (nat * nat * Segment K V) → Prop :=
  | walk_end sid : (length (segment_ t) ≤ sid)%nat → walk t sid []
  | walk_seg sid sid' p s l : seg_at t sid = Ok (p, s) → NextSeg t sid = Ok sid' → (sid < sid')%nat →
      (sid < length (segment_ t))%nat → heap_ t !! p = Some s →
      walk t sid' l → walk t sid ((sid, p, s) :: l).

Definition ptr_seg (x : nat * nat * Segment K V) : nat * Segment K V := (x.1.2, x.2).

Lemma walk_length t sid l : walk t sid l → (length l ≤ length (segment_ t) - sid)%nat.
Proof. induction 1; simpl; lia. Qed.

Lemma NextSeg_spec t G sid p s L b : dir_wf t G → segment_ t !! sid = Some p → heap_ t !! p = Some s →
  block_ok t G p s L b → NextSeg t sid = Ok (sid + 2 ^ (G - L))%nat.
Proof.
  intros Hd Hp Hs Hb. unfold NextSeg. rewrite (seg_at_ok t sid p s) by done. rewrite bind_ok.
  rewrite (dw_depth _ _ Hd), (bo_depth _ _ _ _ _ _ Hb). pose proof (bo_le _ _ _ _ _ _ Hb). pose proof (dw_max _ _ Hd).
  rewrite <- Nat2Z.inj_sub, shl32_ok by lia. rewrite bind_ok, Nat2Z.id. done.
Qed.

(** A directory index where a block starts (or the end of the directory). *)
Definition boundary t sid : Prop :=
  match sid with O => True | S i => segment_ t !! i ≠ segment_ t !! sid end.

Lemma boundary_block t G sid p s L b : dir_wf t G → block_ok t G p s L b → segment_ t !! sid = Some p →
  boundary t sid → (sid = b * 2 ^ (G - L))%nat.
Proof.
  intros Hd Hb Hp Hbd. assert (sid < 2 ^ G)%nat as Hlt by (rewrite <- (dw_len _ _ Hd); by eapply lookup_lt_Some).
  pose proof (bo_dir _ _ _ _ _ _ Hb sid Hlt) as [Hdir _]. specialize (Hdir Hp).
  apply div_iff in Hdir; [|apply pow2_pos]. destruct sid as [|i]; [lia|]. simpl in Hbd.
  destruct (decide (S i = b * 2 ^ (G - L))%nat) as [|Hne]; [done|]. exfalso. apply Hbd. rewrite Hp.
  apply (bo_dir _ _ _ _ _ _ Hb); [lia|]. apply div_iff; [apply pow2_pos|lia].
Qed.

Lemma boundary_next t G p s L b : dir_wf t G → block_ok t G p s L b →
  let h := (2 ^ (G - L))%nat in (b * h + h ≤ 2 ^ G)%nat ∧ boundary t (b * h + h) ∧
  ∀ j, (b * h ≤ j)%nat → segment_ t !! j = Some p ↔ (j < b * h + h)%nat.
Proof.
  intros Hd Hb h. pose proof (pow2_pos (G - L)) as Hh. fold h in Hh.
  pose proof (bo_le _ _ _ _ _ _ Hb) as HL. pose proof (bo_block _ _ _ _ _ _ Hb) as Hbk.
  assert (2 ^ G = h * 2 ^ L)%nat as HG by by apply pow2_split.
  assert (b * h + h ≤ 2 ^ G)%nat as Hle by nia.
  assert (∀ j, (j < 2 ^ G)%nat → segment_ t !! j = Some p ↔ (b * h ≤ j < b * h + h)%nat) as Hdir.
  { intros j Hj. rewrite (bo_dir _ _ _ _ _ _ Hb j Hj). by apply div_iff. }
  assert (∀ j, (b * h ≤ j)%nat → segment_ t !! j = Some p ↔ (j < b * h + h)%nat) as Hiff.
  { intros j Hj. split; [|intros; apply Hdir; lia]. intros Hp. apply Hdir; [|done].
    rewrite <- (dw_len _ _ Hd). by eapply lookup_lt_Some. }
  split_and!; [done| |done]. unfold boundary. destruct (b * h + h)%nat as [|i] eqn:E; [done|].
  intros Heq. assert (segment_ t !! i = Some p) as Hi by (apply Hiff; lia).
  rewrite Heq in Hi. apply Hiff in Hi; lia.
Qed.

(** From a boundary the walk reaches every segment that starts there or later, once. *)
Lemma walk_from t G sid : dir_wf t G → (sid ≤ 2 ^ G)%nat → boundary t sid →
  ∃ l, walk t sid l ∧ NoDup (ptr_seg <$> l).*1 ∧
    (∀ p s, (p, s) ∈ ptr_seg <$> l ↔ heap_ t !! p = Some s ∧ ∃ j, (sid ≤ j)%nat ∧ segment_ t !! j = Some p).
Proof.
  intros Hd. remember (2 ^ G - sid)%nat as n eqn:Hn. revert sid Hn.
  induction n as [n IH] using lt_wf_ind. intros sid Hn Hle Hbd.
  destruct (decide (sid = 2 ^ G)%nat) as [->|Hne].
  { exists []. split_and!; [constructor; by rewrite (dw_len _ _ Hd)|constructor|].
    intros p s. split; [by intros ?%elem_of_nil|]. intros (_ & j & Hj & Hp).
    apply lookup_lt_Some in Hp. rewrite (dw_len _ _ Hd) in Hp. lia. }
  destruct (dir_lookup t G sid Hd) as (p & s & L & b & Hp & Hs & Hb & _); [lia|].
  pose proof (boundary_block t G sid p s L b Hd Hb Hp Hbd) as E.
  destruct (boundary_next t G p s L b Hd Hb) as (Hle' & Hbd' & Hin). rewrite <- E in Hle', Hbd', Hin.
  pose proof (pow2_pos (G - L)).
  destruct (IH (2 ^ G - (sid + 2 ^ (G - L)))%nat ltac:(lia) (sid + 2 ^ (G - L))%nat eq_refl Hle' Hbd') as (l & Hw & Hnd & Hl).
  exists ((sid, p, s) :: l). split_and!.
  - eapply walk_seg; [by apply seg_at_ok|by eapply NextSeg_spec|lia|rewrite (dw_len _ _ Hd); lia|done|done].
  - rewrite !fmap_cons. apply NoDup_cons. split; [|done]. simpl.
    intros ([p' s'] & Ep & (_ & j & Hj & Hpj)%Hl)%list_elem_of_fmap. simpl in Ep. subst p'.
    apply Hin in Hpj; lia.
  - intros p' s'. rewrite fmap_cons, elem_of_cons, Hl. split.
    + intros [[= -> ->]|(Hs' & j & Hj & Hpj)]; [split; [done|]; by exists sid|].
      split; [done|]. exists j. split; [lia|done].
    + intros (Hs' & j & Hj & Hpj). destruct (decide (p' = p)) as [->|]; [left; unfold ptr_seg; simpl; congruence|].
      right. split; [done|]. exists j. split; [|done]. apply Nat.nlt_ge. intros Hlt.
      assert (segment_ t !! j = Some p) by by apply Hin. congruence.
Qed.

(** The loops over the directory visit every live segment exactly once. *)
Lemma walk_all t G : dir_wf t G →
  ∃ l, walk t 0 l ∧ ptr_seg <$> l ≡ₚ map_to_list (heap_ t) ∧ (length l ≤ length (segment_ t))%nat.
Proof.
  intros Hd. destruct (walk_from t G 0 Hd) as (l & Hw & Hnd & Hl); [lia|done|].
  exists l. split_and!; [done| |pose proof (walk_length _ _ _ Hw); lia].
  apply NoDup_Permutation; [by apply (NoDup_fmap_1 fst)|apply NoDup_map_to_list|].
  intros [p s]. rewrite Hl, elem_of_map_to_list. split; [by intros [? _]|]. intros Hs. split; [done|].
  destruct (dw_block _ _ Hd _ _ Hs) as (L & b & Hb). exists (b * 2 ^ (G - L))%nat. split; [lia|].
  destruct (boundary_next t G p s L b Hd Hb) as (_ & _ & Hin). apply Hin; pose proof (pow2_pos (G - L)); lia.
Qed.
End walk.

(** * Iteration *)

Section iteration.
Context `{PT : TablePolicy Q K V, DN : TableDenote Q K V W, PO : !TablePolicyOk Q K V W}.
Implicit Types (t : DashTable K V) (s : Segment K V) (p sid i j G L b : nat) (it : TableIterator) (e : entry Q W).

Definition in_seg sid (x : Iterator * entry Q W) : TableIterator * entry Q W :=
  (mkTIt sid (index x.1) (slot x.1), x.2).

(** The entries that the visits [l] reach, with their positions. *)
Definition positions (l : list (nat * nat * Segment K V)) : list (TableIterator * entry Q W) :=
  l ≫= λ x, in_seg x.1.1 <$> seg_from x.2 0 0.

(** What is left to visit from position [(sid, i, j)]. *)
Definition left_from t sid i j (todo : list (TableIterator * entry Q W)) : Prop :=
  ∃ p s l, walk t sid ((sid, p, s) :: l) ∧ (i < kTotalBuckets)%nat ∧
           todo = (in_seg sid <$> seg_from s i j) ++ positions l.

Lemma FindValid_spec s i j : seg_shape s → (i < kTotalBuckets)%nat →
  runs (FindValidStartingFrom s i j) (λ r,
    match r with
    | None => seg_from s i j = []
    | Some it => ∃ e, holds s (index it) (slot it) e ∧ (slot it < kSlotNum)%nat ∧ (index it < kTotalBuckets)%nat ∧
                      seg_from s i j = (it, e) :: seg_from s (index it) (S (slot it))
    end).
Proof. intros Hs Hi. apply find_valid_spec; [done|lia|lia]. Qed.

Lemma heap_shape t G p s : dir_wf t G → heap_ t !! p = Some s → seg_shape s.
Proof. intros Hd Hs. destruct (dw_block _ _ Hd _ _ Hs) as (L & b & Hb). apply (bo_wf _ _ _ _ _ _ Hb). Qed.

(** [seek] stops at the first entry that is left, or ends. *)
Lemma seek_spec t G fuel sid i j todo : dir_wf t G → left_from t sid i j todo →
  (length (segment_ t) - sid ≤ fuel)%nat →
  runs (seek fuel t sid i j) (λ r,
    match r with
    | None => todo = []
    | Some it => ∃ e rest, todo = (it, e) :: rest ∧ t_holds t it e ∧ (slot_id_ it < kSlotNum)%nat ∧
                           left_from t (seg_id_ it) (bucket_id_ it) (S (slot_id_ it)) rest
    end).
Proof.
  intros Hd. revert sid i j todo. induction fuel as [|fuel IH]; intros sid i j todo (p & s & l & Hw & Hi & ->) Hf;
    inversion Hw as [|? sid' ? ? ? Hat Hnext Hlt Hlen Hs Hw']; subst; [lia|].
  simpl. rewrite (proj2 (Nat.ltb_lt _ _)) by done. rewrite Hat, bind_ok.
  rbind (FindValid_spec s i j (heap_shape _ _ _ _ Hd Hs) Hi). intros [it|].
  - intros (e & Hh & Hsl & Hix & Heq). apply runs_ok. exists e. rewrite Heq. eexists. split; [done|].
    cbn [seg_id_ bucket_id_ slot_id_]. split_and!; [|done|].
    + exists p, s. cbn [seg_id_ bucket_id_ slot_id_]. split_and!; [|done|done].
      unfold seg_at in Hat. destruct (aget (segment_ t) sid) as [p'|] eqn:Hp; [|done]. apply aget_inv in Hp.
      rewrite bind_ok in Hat. destruct (deref t p'); [|done]. rewrite bind_ok in Hat. by injection Hat as -> _.
    + exists p, s, l. by split_and!.
  - intros ->. rewrite Hnext, bind_ok. simpl.
    inversion Hw' as [|? ? p' s' l' Hat' Hnext' Hlt' Hlen' Hs' Hw'']; subst.
    + destruct fuel; simpl; rewrite (proj2 (Nat.ltb_ge _ _)) by done; by apply runs_ok.
    + apply IH; [|lia]. exists p', s', l'. split_and!; [done|apply kTotal_pos|done].
Qed.

(** [for (auto it = from; it; ++it)]: the positions it goes through. *)
Fixpoint collect (fuel : nat) t (from : option TableIterator) : res (list TableIterator) :=
  match from with
  | None => Ok []
  | Some it =>
      match fuel with
      | O => Fault NoFuel
      | S fuel' => it' ← next t it; l ← collect fuel' t it'; Ok (it :: l)
      end
  end.

Lemma next_spec t G it rest : dir_wf t G → left_from t (seg_id_ it) (bucket_id_ it) (S (slot_id_ it)) rest →
  (slot_id_ it < kSlotNum)%nat →
  runs (next t it) (λ r,
    match r with
    | None => rest = []
    | Some it' => ∃ e rest', rest = (it', e) :: rest' ∧ t_holds t it' e ∧ (slot_id_ it' < kSlotNum)%nat ∧
                             left_from t (seg_id_ it') (bucket_id_ it') (S (slot_id_ it')) rest'
    end).
Proof.
  intros Hd Hl Hs. unfold next, Seek2Occupied. cbn [seg_id_ bucket_id_ slot_id_].
  assert (u8 (Z.of_nat (slot_id_ it) + 1) = Z.of_nat (S (slot_id_ it))) as ->.
  { pose proof slot_bounds. rewrite uN_small; lia. }
  rewrite Nat2Z.id. rewrite cassert_true, bind_ok.
  - apply (seek_spec t G); [done|done|lia].
  - destruct Hl as (p & s & l & Hw & _). inversion Hw; subst. by apply Nat.ltb_lt.
Qed.

Lemma collect_spec t G fuel from todo : dir_wf t G → (length todo ≤ fuel)%nat →
  match from with
  | None => todo = []
  | Some it => ∃ e rest, todo = (it, e) :: rest ∧ t_holds t it e ∧ (slot_id_ it < kSlotNum)%nat ∧
                         left_from t (seg_id_ it) (bucket_id_ it) (S (slot_id_ it)) rest
  end →
  runs (collect fuel t from) (λ its, ∃ es, todo = zip its es ∧ Forall2 (t_holds t) its es).
Proof.
  intros Hd. revert from todo. induction fuel as [|fuel IH]; intros from todo Hlen Hfrom.
  - destruct from as [it|].
    + destruct Hfrom as (e & rest & -> & _). simpl in Hlen. lia.
    + subst todo. apply runs_ok. exists []. split; [done|constructor].
  - destruct from as [it|]; simpl; [|subst todo; apply runs_ok; exists []; split; [done|constructor]].
    destruct Hfrom as (e & rest & -> & Hh & Hs & Hl). rbind (next_spec t G it rest Hd Hl Hs).
    intros it' Hit'. simpl in Hlen. rbind (IH it' rest ltac:(lia) Hit'). intros its (es & -> & Hes).
    apply runs_ok. exists (e :: es). split; [done|by constructor].
Qed.

Lemma positions_items l : kv <$> (positions l).*2 = (ptr_seg <$> l).*2 ≫= seg_items.
Proof.
  unfold positions. induction l as [|[[sid p] s] l IH]; [done|]. csimpl. rewrite !fmap_app, IH. f_equal.
  unfold seg_items. rewrite <- seg_from_entries. by rewrite <- !list_fmap_compose.
Qed.

Lemma walk_items t l : ptr_seg <$> l ≡ₚ map_to_list (heap_ t) → kv <$> (positions l).*2 ≡ₚ items t.
Proof. intros Hp. rewrite positions_items. unfold items. by rewrite Hp. Qed.

Lemma begin_spec t G : dir_wf t G →
  ∃ todo, kv <$> todo.*2 ≡ₚ items t ∧
  runs (begin t) (λ r,
    match r with
    | None => todo = []
    | Some it => ∃ e rest, todo = (it, e) :: rest ∧ t_holds t it e ∧ (slot_id_ it < kSlotNum)%nat ∧
                           left_from t (seg_id_ it) (bucket_id_ it) (S (slot_id_ it)) rest
    end).
Proof.
  intros Hd. destruct (walk_all t G Hd) as (l & Hw & Hp & _). exists (positions l). split; [by apply walk_items|].
  assert (0 < length (segment_ t))%nat as Hlen by (rewrite (dw_len _ _ Hd); apply pow2_pos).
  unfold begin, Seek2Occupied. cbn [seg_id_ bucket_id_ slot_id_]. rewrite cassert_true, bind_ok by by apply Nat.ltb_lt.
  apply (seek_spec t G); [done| |lia]. inversion Hw; subst; [lia|]. do 3 eexists. split_and!; [done|apply kTotal_pos|].
  done.
Qed.
End iteration.

(** * The iterators over one bucket *)

Section buckets.
Context `{PT : TablePolicy Q K V, DN : TableDenote Q K V W, PO : !TablePolicyOk Q K V W}.
Implicit Types (t : DashTable K V) (s : Segment K V) (p sid i j : nat) (it : TableIterator) (e : entry Q W).

(** [for (bucket_iterator it = from; it != end; ++it)]: the positions it goes through. *)
Fixpoint collect_bucket (fuel : nat) t (from : option TableIterator) : res (list TableIterator) :=
  if it_eq from None then Ok [] else
  match fuel, from with
  | S fuel', Some it => it' ← next_bucket t it; l ← collect_bucket fuel' t it'; Ok (it :: l)
  | _, _ => Fault NoFuel
  end.

(** The occupied slots of a bucket from slot [j] on. *)
Definition rest_of_bucket t sid i j : list (TableIterator * entry Q W) :=
  match segment_ t !! sid ≫= (λ p, heap_ t !! p) with Some s => in_seg sid <$> occ_at s i j | None => [] end.

Lemma seek_bucket_spec t G sid i j : dir_wf t G → (sid < 2 ^ G)%nat → (i < kTotalBuckets)%nat → (j < 32)%nat →
  runs (Seek2Occupied_bucket t (mkTIt sid i j)) (λ r,
    match r with
    | None => rest_of_bucket t sid i j = []
    | Some it => seg_id_ it = sid ∧ bucket_id_ it = i ∧ (j ≤ slot_id_ it < kSlotNum)%nat ∧
        ∃ e, t_holds t it e ∧ rest_of_bucket t sid i j = (it, e) :: rest_of_bucket t sid i (S (slot_id_ it))
    end).
Proof.
  intros Hd Hsid Hi Hj. destruct (dir_lookup t G sid Hd Hsid) as (p & s & L & bl & Hp & Hs & Hb & _).
  unfold Seek2Occupied_bucket. cbn [seg_id_ bucket_id_ slot_id_]. rewrite cassert_true, bind_ok by (apply Nat.ltb_lt; by rewrite (dw_len _ _ Hd)).
  rewrite (seg_at_ok t sid p s Hp Hs), bind_ok. destruct (get_bucket s i (heap_shape _ _ _ _ Hd Hs) Hi) as (b & Hbk & -> & Hw). rewrite bind_ok.
  rewrite (proj2 (Nat.leb_gt _ _)) by done. unfold rest_of_bucket. rewrite Hp. cbn [mbind option_bind]. rewrite Hs. unfold occ_at. rewrite Hbk. cbn [from_option].
  pose proof (mask_from b j Hw) as Hm. cbv zeta in Hm. destruct (Z.shiftr _ _ =? 0).
  - apply runs_ok. by rewrite Hm.
  - destruct Hm as (d & e & -> & Hlt & He & ->). rewrite bind_ok. apply runs_ok. cbn [seg_id_ bucket_id_ slot_id_]. split_and!; [done|done|lia|done|].
    exists e. split; [|done]. exists p, s. split_and!; [done..|]. by exists b.
Qed.

Lemma add_slots_small it delta : 0 ≤ delta → Z.of_nat (slot_id_ it) + delta < 256 →
  add_slots it delta = mkTIt (seg_id_ it) (bucket_id_ it) (slot_id_ it + Z.to_nat delta).
Proof. intros H0 H1. unfold add_slots. rewrite uN_small by lia. f_equal. lia. Qed.

Lemma collect_bucket_spec t G sid i fuel : dir_wf t G → (sid < 2 ^ G)%nat → (i < kTotalBuckets)%nat → ∀ j from,
  (kSlotNum - j ≤ fuel)%nat →
  match from with
  | None => rest_of_bucket t sid i j = []
  | Some it => seg_id_ it = sid ∧ bucket_id_ it = i ∧ (j ≤ slot_id_ it < kSlotNum)%nat ∧
      ∃ e, t_holds t it e ∧ rest_of_bucket t sid i j = (it, e) :: rest_of_bucket t sid i (S (slot_id_ it))
  end →
  runs (collect_bucket fuel t from) (λ its, ∃ es, rest_of_bucket t sid i j = zip its es ∧ Forall2 (t_holds t) its es).
Proof.
  intros Hd Hsid Hi. pose proof slot_bounds. induction fuel as [|fuel IH]; intros j [it|] Hf Hfrom; cbn [collect_bucket it_eq].
  1: destruct Hfrom as (_ & _ & Hlt & _); lia. 1, 3: apply runs_ok; exists []; by rewrite Hfrom.
  destruct Hfrom as (Es & Eb & Hlt & e & He & ->). unfold next_bucket. rewrite add_slots_small, Es, Eb by lia.
  rbind (seek_bucket_spec t G sid i (slot_id_ it + Z.to_nat 1) Hd Hsid Hi ltac:(lia)). intros it' Hit'.
  rewrite Nat.add_1_r in Hit'. rbind (IH (S (slot_id_ it)) it' ltac:(lia) Hit'). intros its (es & -> & Hes).
  apply runs_ok. exists (e :: es). split; [done|by constructor].
Qed.

(** A bucket iterator made from any position of a bucket goes through all of its
    occupied slots, once each, and stays in the bucket. *)
Theorem bucket_iteration_complete t G it : dir_wf t G → (seg_id_ it < 2 ^ G)%nat → (bucket_id_ it < kTotalBuckets)%nat →
  runs (r ← to_bucket t (Some it); collect_bucket kSlotNum t r) (λ its, NoDup its ∧
    ∀ it', it' ∈ its ↔ seg_id_ it' = seg_id_ it ∧ bucket_id_ it' = bucket_id_ it ∧ ∃ e, t_holds t it' e).
Proof.
  intros Hd Hsid Hi. pose proof slot_bounds. cbn [to_bucket]. rbind (seek_bucket_spec t G _ _ 0 Hd Hsid Hi ltac:(lia)). intros r Hr.
  eapply runs_mono; [apply (collect_bucket_spec t G _ _ kSlotNum Hd Hsid Hi 0 r ltac:(lia) Hr)|]. intros its (es & Eq & Hes).
  destruct (dir_lookup t G _ Hd Hsid) as (p & s & L & bl & Hp & Hs & Hb & _). pose proof (heap_shape _ _ _ _ Hd Hs) as Hsh.
  unfold rest_of_bucket in Eq. rewrite Hp in Eq. cbn [mbind option_bind] in Eq. rewrite Hs in Eq.
  assert (its = (in_seg (seg_id_ it) <$> occ_at s (bucket_id_ it) 0).*1) as ->.
  { rewrite Eq. symmetry. apply fst_zip. rewrite (Forall2_length _ _ _ Hes). done. }
  split.
  - rewrite <- list_fmap_compose. pose proof (occ_at_NoDup s (bucket_id_ it)) as Hnd. apply NoDup_fmap_2_strong; [|done].
    intros [x1 e1] [x2 e2] H1 H2 E. apply elem_of_occ_at in H1 as [Hx1 (b1 & Hb1 & He1)], H2 as [Hx2 (b2 & Hb2 & He2)]; [|done..].
    unfold in_seg in E. cbn in E. injection E as Ei Ej. destruct x1, x2. cbn in *. simplify_eq. done.
  - intros it'. rewrite list_elem_of_fmap. split.
    + intros ([y e] & -> & Hy). apply list_elem_of_fmap in Hy as ([x e'] & [= -> ->] & Hx). apply elem_of_occ_at in Hx as [Hix Hh]; [|done].
      cbn. split_and!; [done|done|]. exists e', p, s. cbn. rewrite Hix. done.
    + intros (Es & Eb & e & p' & s' & Hp' & Hs' & Hh). destruct it' as [sid' i' j']. cbn in *. subst. simplify_eq.
      exists (mkTIt (seg_id_ it) (bucket_id_ it) j', e). split; [done|]. apply list_elem_of_fmap. exists (mkIt (bucket_id_ it) j', e). split; [done|].
      apply elem_of_occ_at; [done|]. by split.
Qed.

(** [operator+=] skips slots; past the 32 bits of the mask it shifts by too much. *)
Theorem advance_bucket_spec t G it delta : dir_wf t G → (seg_id_ it < 2 ^ G)%nat → (bucket_id_ it < kTotalBuckets)%nat →
  0 ≤ delta → Z.of_nat (slot_id_ it) + delta < 256 →
  (Z.of_nat (slot_id_ it) + delta < 32 →
    runs (advance_bucket t it delta) (λ r, match r with
      | None => rest_of_bucket t (seg_id_ it) (bucket_id_ it) (slot_id_ it + Z.to_nat delta) = []
      | Some it' => ∃ e rest, t_holds t it' e ∧ rest_of_bucket t (seg_id_ it) (bucket_id_ it) (slot_id_ it + Z.to_nat delta) = (it', e) :: rest
      end)) ∧
  (32 ≤ Z.of_nat (slot_id_ it) + delta → advance_bucket t it delta = Fault BuiltinUndefined).
Proof.
  intros Hd Hsid Hi H0 H1. unfold advance_bucket. rewrite add_slots_small by done. split.
  - intros Hlt. eapply runs_mono; [apply (seek_bucket_spec t G _ _ _ Hd Hsid Hi); lia|]. intros [it'|]; [|done].
    intros (_ & _ & _ & e & He & ->). by exists e; eexists.
  - intros Hge. destruct (dir_lookup t G _ Hd Hsid) as (p & s & L & bl & Hp & Hs & Hb & _). unfold Seek2Occupied_bucket. cbn [seg_id_ bucket_id_ slot_id_].
    rewrite cassert_true, bind_ok by (apply Nat.ltb_lt; by rewrite (dw_len _ _ Hd)).
    rewrite (seg_at_ok t _ p s Hp Hs), bind_ok. destruct (get_bucket s _ (heap_shape _ _ _ _ Hd Hs) Hi) as (b & Hbk & -> & Hw). rewrite bind_ok.
    by rewrite (proj2 (Nat.leb_le _ _)) by lia.
Qed.
End buckets.
