(* ===== verification/DashTableScan.v ===== *)
(** DashTableScan: scanning a DashTable with a cursor. One call of Traverse
    visits the entries of some logical buckets; following the cursors from 0
    until the end visits every entry exactly once. *)
From stdpp Require Import gmap.
From S2P Require Import Prelude Policy SlotBitmap BucketBase Bucket Segment SegmentInv SegmentOps SegmentSplit DashTable DashTableInv DashTableGrow DashTableIter.
Local Open Scope Z_scope.

(** * Cursors *)

Section cursor.
Implicit Types (d s b : nat).

Lemma Cursor_testbit d s b i : (d ≤ 31)%nat → (s < 2 ^ d)%nat → (b < 256)%nat →
  Z.testbit (Cursor (Z.of_nat d) (Z.of_nat s) (Z.of_nat b)) (Z.of_nat i) =
  if decide (i < 40 - d)%nat then Z.testbit (Z.of_nat b) (Z.of_nat i)
  else Z.testbit (Z.of_nat s) (Z.of_nat (i - (40 - d))).
Proof.
  intros Hd Hs Hb. unfold Cursor. rewrite Z.lor_spec, uN_testbit, Z.shiftl_spec by lia.
  assert (0 ≤ Z.of_nat s < 2 ^ Z.of_nat d) as Hs'.
  { split; [lia|]. change 2 with (Z.of_nat 2). rewrite <- Nat2Z.inj_pow. lia. }
  destruct (decide (i < 40 - d)%nat).
  - by rewrite Z.testbit_neg_r by lia.
  - rewrite (testbit_high (Z.of_nat b) 8) by lia. rewrite orb_false_r.
    replace (Z.of_nat i - (40 - Z.of_nat d)) with (Z.of_nat (i - (40 - d))) by lia.
    destruct (decide (i < 64)%nat).
    + by rewrite bool_decide_true, andb_true_r by lia.
    + rewrite (testbit_high _ d) by (done || lia). done.
Qed.

Lemma Cursor_nonneg d s b : (d ≤ 31)%nat → 0 ≤ Cursor (Z.of_nat d) (Z.of_nat s) (Z.of_nat b).
Proof. intros Hd. unfold Cursor. apply Z.lor_nonneg. split; [|lia]. by apply uN_range. Qed.

Lemma Cursor_bucket d s b : (d ≤ 31)%nat → (s < 2 ^ d)%nat → (b < 256)%nat →
  cursor_bucket_id (Cursor (Z.of_nat d) (Z.of_nat s) (Z.of_nat b)) = Z.of_nat b.
Proof.
  intros Hd Hs Hb. apply bits_ext. intros i. unfold cursor_bucket_id. rewrite Z.land_spec, Cursor_testbit by done.
  change 255 with (Z.ones 8). rewrite ones_testbit by lia. destruct (decide (i < 8)%nat).
  - by rewrite bool_decide_true, andb_true_r, decide_True by lia.
  - rewrite bool_decide_false, andb_false_r by lia. symmetry. apply (testbit_high _ 8); lia.
Qed.

(** A directory that has grown from depth [d] to [d + k] finds its place again. *)
Lemma Cursor_segment d k s b : (d + k ≤ 31)%nat → (s < 2 ^ d)%nat → (b < 256)%nat →
  cursor_segment_id (Cursor (Z.of_nat d) (Z.of_nat s) (Z.of_nat b)) (Z.of_nat (d + k)) = Z.of_nat (s * 2 ^ k)%nat.
Proof.
  intros Hd Hs Hb. apply bits_ext. intros i. unfold cursor_segment_id.
  rewrite uN_testbit, Z.shiftr_spec by lia.
  replace (Z.of_nat i + (40 - Z.of_nat (d + k))) with (Z.of_nat (i + (40 - (d + k)))) by lia.
  rewrite Cursor_testbit by (done || lia).
  rewrite Nat2Z.inj_mul, Nat2Z.inj_pow. change (Z.of_nat 2) with 2. rewrite <- Z.shiftl_mul_pow2 by lia.
  rewrite Z.shiftl_spec by lia.
  assert (0 ≤ Z.of_nat s < 2 ^ Z.of_nat d) as Hs'.
  { split; [lia|]. change 2 with (Z.of_nat 2). rewrite <- Nat2Z.inj_pow. lia. }
  destruct (decide (i + (40 - (d + k)) < 40 - d)%nat).
  - rewrite (Z.testbit_neg_r (Z.of_nat s)) by lia. rewrite (testbit_high (Z.of_nat b) 8) by lia. done.
  - replace (i + (40 - (d + k)) - (40 - d))%nat with (i - k)%nat by lia.
    replace (Z.of_nat i - Z.of_nat k) with (Z.of_nat (i - k)) by lia.
    destruct (decide (i < 32)%nat).
    + by rewrite bool_decide_true, andb_true_r by lia.
    + rewrite bool_decide_false, andb_false_r by lia. symmetry. apply (testbit_high _ d); [done|lia].
Qed.

Lemma Cursor_end d s b : (d ≤ 31)%nat → (s < 2 ^ d)%nat → (b < 256)%nat → (0 < s ∨ 0 < b)%nat →
  Cursor (Z.of_nat d) (Z.of_nat s) (Z.of_nat b) ≠ cursor_end.
Proof.
  intros Hd Hs Hb Hnz E. pose proof (Cursor_bucket d s b Hd Hs Hb) as H1.
  pose proof (Cursor_segment d 0 s b ltac:(lia) Hs Hb) as H2. rewrite E in H1, H2.
  change (cursor_bucket_id cursor_end) with 0 in H1.
  assert (cursor_segment_id cursor_end (Z.of_nat (d + 0)) = 0) as H0.
  { unfold cursor_segment_id, cursor_end. by rewrite Z.shiftr_0_l. }
  rewrite H0 in H2. simpl in H2. lia.
Qed.
End cursor.

(** * One logical bucket *)

Section logical.
Context `{PT : TablePolicy Q K V, DN : TableDenote Q K V W, PO : !TablePolicyOk Q K V W}.
Implicit Types (s : Segment K V) (b : Bucket K V) (i j y : nat) (e : entry Q W).

(** A loop whose body calls back only for the elements that satisfy [P]. *)
Lemma rfold_filter {A S} (P : A → Prop) `{!∀ x, Decision (P x)} (f : A → bool * S → res (bool * S)) (cb : A → S → res S)
    (l : list A) (found : bool) (st : S) :
  (∀ x found st, x ∈ l →
    f x (found, st) = if decide (P x) then st ← cb x st; Ok (true, st) else Ok (found, st)) →
  rfold f l (found, st) =
  (st' ← rfold cb (filter P l) st; Ok (found || bool_decide (filter P l ≠ []), st')).
Proof.
  revert found st. induction l as [|x l IH]; intros found st Hf; simpl; [by rewrite orb_false_r|].
  rewrite Hf by left. rewrite filter_cons. destruct (decide (P x)).
  - rewrite bool_decide_true by done. rewrite orb_true_r. simpl. destruct (cb x st) as [st1|]; [|done]. simpl.
    rewrite IH by (intros; apply Hf; by right). done.
  - simpl. apply IH. intros; apply Hf; by right.
Qed.

(** The entries of logical bucket [y] in the order of the visit. *)
Definition logical s y : list (Iterator * entry Q W) :=
  filter (λ x, e_probe x.2 = false) (occ_at s y 0) ++
  filter (λ x, e_probe x.2 = true) (occ_at s (NextBid y) 0) ++
  (seq kBucketNum kStashBucketNum ≫= λ j, filter (λ x, home (e_key x.2) = y) (occ_at s j 0)).

Lemma logical_elem s y it e : seg_shape s → (y < kBucketNum)%nat →
  (it, e) ∈ logical s y ↔ (it, e) ∈ seg_from s 0 0 ∧ home (e_key e) = y.
Proof.
  intros Hs Hy. rewrite seg_from_elem by done. unfold logical.
  rewrite !elem_of_app, !list_elem_of_filter, list_elem_of_bind. setoid_rewrite list_elem_of_filter.
  setoid_rewrite (elem_of_occ_at s); [|done..]. setoid_rewrite elem_of_seq. simpl. split.
  - intros [(Hp & <- & Hh)|[(Hp & Hix & Hh)|(j & (Hhome & <- & Hh) & Hj)]].
    + split; [done|]. destruct Hh as (b & Hb & He). destruct (sh_pos _ Hs _ _ _ _ Hb He) as [_ Hpos].
      rewrite decide_True, Hp in Hpos by done. done.
    + rewrite <- Hix in Hh. split; [done|]. destruct Hh as (b & Hb & He). destruct (sh_pos _ Hs _ _ _ _ Hb He) as [_ Hpos].
      pose proof (next_lt y Hy). rewrite decide_True, Hp in Hpos by lia. symmetry.
      apply next_inj; [done|apply home_index_lt|congruence].
    + done.
  - intros [Hh Hhome]. pose proof Hh as (b & Hb & He). destruct (sh_pos _ Hs _ _ _ _ Hb He) as [_ Hpos].
    rewrite Hhome in Hpos. destruct (decide (index it < kBucketNum)%nat) as [Hlt|Hge].
    + destruct (e_probe e); [right; left|left]; rewrite <- Hpos; done.
    + right; right. exists (index it). split_and!; try done; [lia|].
      apply lookup_lt_Some in Hb. rewrite (sh_len _ Hs) in Hb. unfold kTotalBuckets in Hb. lia.
Qed.

Lemma occ_at_index s i it e : (it, e) ∈ occ_at s i 0 → index it = i.
Proof. unfold occ_at. intros ([j e'] & E & _)%list_elem_of_fmap. unfold at_bucket in E. by simplify_eq/=. Qed.

Lemma logical_NoDup s y : (y < kBucketNum)%nat → NoDup (logical s y).
Proof.
  intros Hy. unfold logical. pose proof (next_lt y Hy). pose proof (next_ne y Hy).
  apply NoDup_app. split_and!; [apply NoDup_filter, occ_at_NoDup| |apply NoDup_app; split_and!].
  - intros [it e] (_ & Hi%occ_at_index)%list_elem_of_filter [(_ & Hi'%occ_at_index)%list_elem_of_filter|Hin]%elem_of_app; [congruence|].
    apply list_elem_of_bind in Hin as (j & (_ & Hi'%occ_at_index)%list_elem_of_filter & [Hj _]%elem_of_seq). lia.
  - apply NoDup_filter, occ_at_NoDup.
  - intros [it e] (_ & Hi%occ_at_index)%list_elem_of_filter Hin.
    apply list_elem_of_bind in Hin as (j & (_ & Hi'%occ_at_index)%list_elem_of_filter & [Hj _]%elem_of_seq). lia.
  - generalize (NoDup_seq kBucketNum kStashBucketNum). induction (seq kBucketNum kStashBucketNum) as [|j l IH]; intros Hnd; [constructor|].
    apply NoDup_cons in Hnd as [Hn Hnd]. rewrite bind_cons. apply NoDup_app. split_and!; [apply NoDup_filter, occ_at_NoDup| |by apply IH].
    intros [it e] (_ & Hi%occ_at_index)%list_elem_of_filter Hin.
    apply list_elem_of_bind in Hin as (j' & (_ & Hi'%occ_at_index)%list_elem_of_filter & Hj'). congruence.
Qed.

(** Grouping a list by an index below [n]. *)
Lemma group_perm {A} (f : A → nat) (l : list A) n : (∀ x, x ∈ l → (f x < n)%nat) →
  (seq 0 n ≫= λ y, filter (λ x, f x = y) l) ≡ₚ l.
Proof.
  induction l as [|x l IH]; intros Hl.
  - induction (seq 0 n) as [|y k IHk]; [done|]. by rewrite bind_cons, IHk.
  - pose proof (mbind_upd_perm (λ y, filter (λ x, f x = y) l) (λ y, filter (λ x, f x = y) (x :: l)) (seq 0 n) (f x)
      (NoDup_seq 0 n)) as Hp.
    rewrite IH in Hp by (intros; apply Hl; by right). rewrite (filter_cons _ x l), decide_True in Hp by done.
    apply (Permutation_app_inv_l (filter (λ x', f x' = f x) l)). rewrite <- Hp.
    + simpl. by rewrite Permutation_middle.
    + apply elem_of_seq. split; [lia|]. apply Hl. left.
    + intros y _ Hne. rewrite filter_cons, decide_False by congruence. done.
Qed.

(** The logical buckets partition the segment. *)
Lemma logical_partition s : seg_shape s → (seq 0 kBucketNum ≫= logical s) ≡ₚ seg_from s 0 0.
Proof.
  intros Hs. rewrite <- (group_perm (λ x, home (e_key x.2)) (seg_from s 0 0) kBucketNum) at 1.
  - assert (∀ l, (∀ y, y ∈ l → (y < kBucketNum)%nat) →
      (l ≫= logical s) ≡ₚ (l ≫= λ y, filter (λ x, home (e_key x.2) = y) (seg_from s 0 0))) as Hg.
    { induction l as [|y l IH]; intros Hl; [done|]. rewrite !bind_cons, IH by (intros; apply Hl; by right).
      apply Permutation_app_tail, NoDup_Permutation.
      - apply logical_NoDup, Hl. left.
      - apply NoDup_filter. eapply NoDup_fmap_1, seg_from_NoDup.
      - intros [it e]. rewrite logical_elem, list_elem_of_filter by (done || apply Hl; left). naive_solver. }
    apply Hg. by intros y [_ Hy]%elem_of_seq.
  - intros x _. apply home_index_lt.
Qed.

Lemma hash_of s i b e k : seg_shape s → bucket_ s !! i = Some b → (k, e) ∈ occ_list b →
  (kk ← aget (key b) k; HashFn kk) = Ok (HashFnQ (e_key e)).
Proof.
  intros Hs Hb Hx. apply elem_of_occ_list in Hx as [Hk He]. pose proof (sh_wf _ Hs _ _ Hb) as Hw.
  destruct (occupied_inv b k Hw) as (kk & v & f & Hkk & _ & _ & Hok & _ & E); [apply slot_at_occupied; [done|eauto]|].
  rewrite (aget_some _ _ _ Hkk), bind_ok, hash_key by done. rewrite He in E. by injection E as ->.
Qed.

Lemma no_probes b (p : bool) : bucket_wf b → BucketBase.GetProbe kSlotNum (base b) p = 0 →
  filter (λ x, e_probe x.2 = p) (occ_list b) = [].
Proof.
  intros Hw Hz. apply filter_false. intros [j e] Hx Hp. simpl in Hp. apply elem_of_occ_list in Hx as [Hj He].
  assert (occupied b j = true) as Ho by (apply slot_at_occupied; [done|eauto]).
  destruct (occupied_inv b j Hw Ho) as (k & v & f & _ & _ & _ & _ & _ & E). rewrite He in E. injection E as ->.
  simpl in Hp. pose proof (SlotBitmap.GetProbe_bit kSlotNum slot_num_pos (slotb_ (base b)) p j) as Hb.
  unfold BucketBase.GetProbe in Hz. rewrite Hz, Z.testbit_0_l in Hb. rewrite bool_decide_true in Hb by done.
  rewrite Hp in Hb. by destruct p.
Qed.

Lemma filter_occ_at s i b (P : Iterator * entry Q W → Prop) `{!∀ x, Decision (P x)} : bucket_ s !! i = Some b →
  filter P (occ_at s i 0) = at_bucket i <$> filter (λ x, P (at_bucket i x)) (occ_list b).
Proof. intros Hb. unfold occ_at. rewrite Hb. simpl. by rewrite occ_from_0, filter_fmap. Qed.

(** Some entry of a stash bucket has home [y] only if bucket [y] says so. *)
Lemma no_stash_entries s y b j : seg_wf s → (y < kBucketNum)%nat → bucket_ s !! y = Some b →
  HasStash (base b) = false → (kBucketNum ≤ j < kTotalBuckets)%nat →
  filter (λ x, home (e_key x.2) = y) (occ_at s j 0) = [].
Proof.
  intros [Hs Ha] Hy Hb Hst Hj. apply filter_false. intros [it e] Hx Hh. simpl in Hh.
  apply elem_of_occ_at in Hx as [_ Hh']; [|done].
  destruct (get_bucket s (NextBid y) Hs) as (n & Hn & _); [by apply total_regular, next_lt|].
  destruct (Ha y b n Hy Hb Hn) as (ov & _ & _ & Hp). rewrite HasStash_present in Hst.
  assert (stash_items s y ≠ []) as Hne.
  { intros E. pose proof (elem_of_stash_items s (j - kBucketNum) (slot it) e Hs) as Hin.
    rewrite Hh, E in Hin. apply (not_elem_of_nil (fp_of (e_key e), (j - kBucketNum)%nat)), Hin.
    - unfold kTotalBuckets in Hj. lia.
    - by replace (kBucketNum + (j - kBucketNum))%nat with j by lia. }
  apply Hp in Hne. congruence.
Qed.

Context {S : Type} (s : Segment K V) (y : nat) (self : S → res (Segment K V)) (cb : Iterator → S → res S).
Context (Hwf : seg_wf s) (Hy : (y < kBucketNum)%nat) (Hself : ∀ st, self st = Ok s).

(** The three parts of the visit. *)
Lemma own_entries b (st : S) : bucket_ s !! y = Some b →
  (if BucketBase.GetProbe kSlotNum (base b) false =? 0 then Ok (false, st) else
   ForEachSlot b (λ slot probe '(found, st),
     if negb probe then st ← cb (mkIt y slot) st; Ok (true, st) else Ok (found, st)) (false, st)) =
  (let l := filter (λ x, e_probe x.2 = false) (occ_at s y 0) in
   st' ← rfold (λ x, cb x.1) l st; Ok (bool_decide (l ≠ []), st')).
Proof.
  intros Hb. pose proof (sh_wf _ (proj1 Hwf) _ _ Hb) as Hw. cbv zeta.
  rewrite (filter_occ_at s y b), rfold_fmap by done. unfold at_bucket. cbn [fst snd].
  destruct (Z.eqb_spec (BucketBase.GetProbe kSlotNum (base b) false) 0) as [Hz|_].
  - rewrite no_probes by done. done.
  - rewrite ForEachSlot_spec by done. rewrite (rfold_filter (λ x, e_probe x.2 = false) _ (λ x, cb (mkIt y x.1))).
    + destruct (rfold _ _ st); [|done]. by destruct (filter _ _).
    + intros [j e] found st' _. simpl. by destruct (e_probe e).
Qed.

Lemma probing_entries n found (st : S) : bucket_ s !! NextBid y = Some n →
  (if BucketBase.GetProbe kSlotNum (base n) true =? 0 then Ok (found, st) else
   ForEachSlot n (λ slot probe '(found, st),
     if probe : bool then
       h ← (s ← self st; next ← GetBucket s (NextBid y); k ← aget (key next) slot; HashFn k);
       _ ← cassert (HomeIndex h =? y)%nat;
       st ← cb (mkIt (NextBid y) slot) st; Ok (true, st)
     else Ok (found, st)) (found, st)) =
  (let l := filter (λ x, e_probe x.2 = true) (occ_at s (NextBid y) 0) in
   st' ← rfold (λ x, cb x.1) l st; Ok (found || bool_decide (l ≠ []), st')).
Proof.
  intros Hn. pose proof Hwf as [Hs _]. pose proof (sh_wf _ Hs _ _ Hn) as Hw. pose proof (next_lt y Hy). cbv zeta.
  rewrite (filter_occ_at s (NextBid y) n), rfold_fmap by done. unfold at_bucket. cbn [fst snd].
  destruct (Z.eqb_spec (BucketBase.GetProbe kSlotNum (base n) true) 0) as [Hz|_].
  - rewrite no_probes by done. simpl. by rewrite orb_false_r.
  - rewrite ForEachSlot_spec by done. rewrite (rfold_filter (λ x, e_probe x.2 = true) _ (λ x, cb (mkIt (NextBid y) x.1))).
    + destruct (rfold _ _ st); [|done]. by destruct (filter _ _).
    + intros [j e] found' st' Hin. simpl. destruct (e_probe e) eqn:Hp; [|done]. simpl.
      unfold GetBucket. rewrite Hself, bind_ok, (aget_some _ _ _ Hn), bind_ok, (hash_of s (NextBid y) n e j), bind_ok by done.
      apply elem_of_occ_list in Hin as [_ He]. destruct (sh_pos _ Hs _ _ _ _ Hn He) as [_ Hpos].
      rewrite decide_True, Hp in Hpos by done. apply next_inj in Hpos; [|done|apply home_index_lt].
      unfold home in Hpos. by rewrite <- Hpos, Nat.eqb_refl, cassert_true, bind_ok.
Qed.

Definition stash_visits (l : list nat) : list (Iterator * entry Q W) :=
  l ≫= λ j, filter (λ x, home (e_key x.2) = y) (occ_at s j 0).

Lemma stash_entries l found (st : S) : (∀ j, j ∈ l → (j < kTotalBuckets)%nat) →
  rfold (λ j '(found, st),
    s ← self st; stashb ← GetBucket s j;
    ForEachSlot stashb (λ slot _ '(found, st),
      h ← (s ← self st; stashb ← GetBucket s j; k ← aget (key stashb) slot; HashFn k);
      if (HomeIndex h =? y)%nat then st ← cb (mkIt j slot) st; Ok (true, st)
      else Ok (found, st)) (found, st)) l (found, st) =
  (st' ← rfold (λ x, cb x.1) (stash_visits l) st; Ok (found || bool_decide (stash_visits l ≠ []), st')).
Proof.
  pose proof Hwf as [Hs _]. revert found st. induction l as [|j l IH]; intros found st Hl; [simpl; by rewrite orb_false_r|].
  unfold stash_visits. rewrite bind_cons, rfold_app. fold (stash_visits l). cbn [rfold]. rewrite Hself, bind_ok.
  destruct (get_bucket s j Hs) as (c & Hc & Hgc & Hwc); [apply Hl; left|]. rewrite Hgc, bind_ok.
  rewrite ForEachSlot_spec, (rfold_filter (λ x, home (e_key x.2) = y) _ (λ x, cb (mkIt j x.1))); [|intros [k e] found' st' Hin|done].
  - rewrite (filter_occ_at s j c), rfold_fmap by done. unfold at_bucket. cbn [fst snd].
    destruct (rfold _ (filter _ (occ_list c)) st) as [st'|]; [|done]. rewrite !bind_ok, IH by (intros; apply Hl; by right).
    destruct (rfold (λ x, cb x.1) (stash_visits l) st') as [st''|]; [|done]. rewrite !bind_ok.
    by destruct (filter _ (occ_list c)), (stash_visits l), found.
  - simpl. rewrite Hself, bind_ok, Hgc, bind_ok, (hash_of s j c e k), bind_ok by done.
    unfold home. destruct (Nat.eqb_spec (HomeIndex (HashFnQ (e_key e))) y); [by rewrite decide_True|by rewrite decide_False].
Qed.

Lemma no_stash_visits b : bucket_ s !! y = Some b → HasStash (base b) = false →
  stash_visits (seq kBucketNum kStashBucketNum) = [].
Proof.
  intros Hb Hst. assert (∀ j, j ∈ seq kBucketNum kStashBucketNum → (kBucketNum ≤ j < kTotalBuckets)%nat) as Hr
    by (intros j [? ?]%elem_of_seq; unfold kTotalBuckets; lia).
  unfold stash_visits. revert Hr. induction (seq kBucketNum kStashBucketNum) as [|j l IH]; intros Hr; [done|].
  rewrite bind_cons, (no_stash_entries s y b j), IH by (done || (intros; apply Hr; (by right) || left)). done.
Qed.

(** [TraverseLogicalBucket] with a callback that does not change the segment
    calls back once per entry of the logical bucket. *)
Lemma TraverseLogicalBucket_spec (st : S) :
  TraverseLogicalBucket self y HashFn cb st =
  (st' ← rfold (λ x, cb x.1) (logical s y) st; Ok (bool_decide (logical s y ≠ []), st')).
Proof.
  pose proof Hwf as [Hs _]. unfold TraverseLogicalBucket.
  rewrite cassert_true, bind_ok by by apply Nat.ltb_lt. rewrite Hself, bind_ok.
  destruct (get_bucket s y Hs) as (b & Hb & Hg & _); [by apply total_regular|].
  destruct (get_bucket s (NextBid y) Hs) as (n & Hn & Hgn & _); [by apply total_regular, next_lt|].
  rewrite Hg, bind_ok, own_entries by done. cbv zeta. unfold logical. fold (stash_visits (seq kBucketNum kStashBucketNum)).
  set (l1 := filter (λ x, e_probe x.2 = false) _). set (l2 := filter (λ x, e_probe x.2 = true) _).
  set (l3 := stash_visits _). rewrite !rfold_app.
  destruct (rfold (λ x, cb x.1) l1 st) as [st1|]; [|done]. rewrite !bind_ok, Hself, bind_ok, Hgn, bind_ok.
  rewrite probing_entries by done. fold l2. cbv zeta.
  rewrite rfold_app. destruct (rfold (λ x, cb x.1) l2 st1) as [st2|]; [|done]. rewrite !bind_ok, Hself, bind_ok, Hg, bind_ok.
  assert (bool_decide (l1 ++ l2 ++ l3 ≠ []) = bool_decide (l1 ≠ []) || bool_decide (l2 ≠ []) || bool_decide (l3 ≠ [])) as ->
    by by destruct l1, l2, l3.
  destruct (HasStash (base b)) eqn:Hst.
  - apply stash_entries. intros j [_ Hj]%elem_of_seq. unfold kTotalBuckets. lia.
  - assert (l3 = []) as -> by by eapply no_stash_visits. simpl. by rewrite orb_false_r.
Qed.
End logical.

(** * The whole table *)

Section scan.
Context `{PT : TablePolicy Q K V, DN : TableDenote Q K V W, PO : !TablePolicyOk Q K V W}.
Implicit Types (s : Segment K V) (sid y G : nat).
Context {S : Type} (t : DashTable K V) (G : nat) (Hd : dir_wf t G) (f : TableIterator → S → S).
Context (all : list (nat * nat * Segment K V)) (Hall : walk t 0 all).

Abbreviation tbl := (λ _ : S, t).
Abbreviation cb := (λ it st, Ok (f it st) : res S).

(** What the callback made of a list of visits. *)
Definition called (todo : list (TableIterator * entry Q W)) (st : S) : S := foldl (λ st x, f x.1 st) st todo.

(** The visits of logical bucket [y] in the segments [l], and all that is left
    from there. *)
Definition visits y (l : list (nat * nat * Segment K V)) : list (TableIterator * entry Q W) :=
  l ≫= λ x, in_seg x.1.1 <$> logical x.2 y.
Definition left_over (l : list (nat * nat * Segment K V)) y : list (TableIterator * entry Q W) :=
  visits y l ++ (seq (Datatypes.S y) (kBucketNum - Datatypes.S y) ≫= λ y', visits y' all).
Definition turns (l : list (nat * nat * Segment K V)) y : nat :=
  length l + (kBucketNum - Datatypes.S y) * length all.

Lemma called_rfold sid l (st : S) :
  rfold (λ x st, cb (mkTIt sid (index x.1) (slot x.1)) st) l st = Ok (called (in_seg sid <$> l) st).
Proof. revert st. induction l as [|x l IH]; intros st; [done|]. csimpl. by rewrite IH. Qed.

Lemma called_app l1 l2 st : called (l1 ++ l2) st = called l2 (called l1 st).
Proof. apply foldl_app. Qed.

Lemma all_nonempty : all ≠ [].
Proof.
  pose proof (pow2_pos G). pose proof (dw_len _ _ Hd). inversion Hall; [lia|done].
Qed.

Lemma left_over_next y : (Datatypes.S y < kBucketNum)%nat → left_over [] y = left_over all (Datatypes.S y).
Proof.
  intros Hy. unfold left_over. simpl.
  replace (kBucketNum - Datatypes.S y)%nat with (Datatypes.S (kBucketNum - Datatypes.S (Datatypes.S y))) by lia. done.
Qed.

Lemma left_over_end y : (kBucketNum ≤ Datatypes.S y)%nat → left_over [] y = [].
Proof. intros Hy. unfold left_over. simpl. by replace (kBucketNum - Datatypes.S y)%nat with 0%nat by lia. Qed.

(** Where a call of [Traverse] stops: at the end, or at a cursor. *)
Definition stops (todo : list (TableIterator * entry Q W)) (n : nat) (st : S) (r : Z * S) : Prop :=
  ∃ now rest, todo = now ++ rest ∧ r.2 = called now st ∧
    (r.1 = cursor_end ∧ rest = [] ∨
     ∃ sid y l, r.1 = Cursor (Z.of_nat G) (Z.of_nat sid) (Z.of_nat y) ∧ (0 < sid ∨ 0 < y)%nat ∧ (y < kBucketNum)%nat ∧
       walk t sid l ∧ l ≠ [] ∧ rest = left_over l y ∧ (turns l y < n)%nat).

Lemma stops_more now todo n n' st r : stops todo n (called now st) r → (n ≤ n')%nat → stops (now ++ todo) n' st r.
Proof.
  intros (now' & rest & -> & E & Hr) Hn. exists (now ++ now'), rest. rewrite app_assoc, called_app. split_and!; [done..|].
  destruct Hr as [?|(sid & y & l & ? & ? & ? & ? & ? & ? & ?)]; [by left|right]. exists sid, y, l. split_and!; done || lia.
Qed.

Lemma traverse_loop_spec fuel sid y l (st : S) : walk t sid l → l ≠ [] → (y < kBucketNum)%nat → (turns l y ≤ fuel)%nat →
  runs (traverse_loop tbl fuel sid y cb st) (stops (left_over l y) (turns l y) st).
Proof.
  revert sid y l st. induction fuel as [|fuel IH]; intros sid y l st Hw Hne Hy Hf.
  { apply Nat.le_0_r, Nat.eq_add_0 in Hf as [E _]. by destruct l. }
  inversion Hw as [|? sid' p s l' Hat Hnext Hlt Hlen Hs Hw']; [done|]; subst. cbn [traverse_loop].
  rewrite Hat, bind_ok. destruct (dw_block _ _ Hd _ _ Hs) as (L & b & Hb).
  rewrite (TraverseLogicalBucket_spec s y); [|apply (bo_wf _ _ _ _ _ _ Hb)|done|intros; unfold deref; by rewrite Hs].
  rewrite called_rfold, !bind_ok, Hnext, bind_ok.
  assert (left_over ((sid, p, s) :: l') y = (in_seg sid <$> logical s y) ++ left_over l' y) as ->
    by (unfold left_over, visits; by rewrite bind_cons, app_assoc).
  assert (turns ((sid, p, s) :: l') y = Datatypes.S (turns l' y)) as Et by done. rewrite Et in *.
  rewrite (dw_depth _ _ Hd). destruct (Nat.leb_spec (length (segment_ t)) sid') as [Hend|Hmore]; simpl.
  - (* past the last segment: the next logical bucket *)
    assert (l' = []) as -> by (inversion Hw'; [done|lia]).
    destruct (Nat.leb_spec kBucketNum (Datatypes.S y)) as [Hlast|Hgo]; simpl.
    { apply runs_ok. exists (in_seg sid <$> logical s y), []. rewrite left_over_end by done. split_and!; [done..|by left]. }
    rewrite left_over_next by done.
    assert (turns all (Datatypes.S y) < Datatypes.S (turns [] y))%nat as Hlt'.
    { unfold turns. assert (kBucketNum - Datatypes.S y = Datatypes.S (kBucketNum - Datatypes.S (Datatypes.S y)))%nat as -> by lia.
      rewrite Nat.mul_succ_l. cbn [length]. lia. }
    destruct (bool_decide _).
    + apply runs_ok. exists (in_seg sid <$> logical s y), (left_over all (Datatypes.S y)). split_and!; [done..|right].
      exists 0%nat, (Datatypes.S y), all. split_and!; try done; [lia|apply all_nonempty].
    + eapply runs_mono; [apply (IH 0%nat (Datatypes.S y) all); [done|apply all_nonempty|done|lia]|].
      intros r Hr. eapply stops_more; [done|lia].
  - assert (l' ≠ []) as Hne' by (inversion Hw'; [lia|done]).
    destruct (bool_decide _).
    + apply runs_ok. exists (in_seg sid <$> logical s y), (left_over l' y). split_and!; [done..|right].
      exists sid', y, l'. split_and!; try done; lia.
    + eapply runs_mono; [apply (IH sid' y l'); done || lia|]. intros r Hr. eapply stops_more; [done|lia].
Qed.

Lemma turns_le l y : (length l ≤ length all)%nat → (y < kBucketNum)%nat → (turns l y ≤ kBucketNum * length all)%nat.
Proof. intros Hl Hy. unfold turns. replace kBucketNum with (Datatypes.S y + (kBucketNum - Datatypes.S y))%nat at 2 by lia. nia. Qed.

Lemma Traverse_spec sid y l (st : S) : walk t sid l → l ≠ [] → (y < kBucketNum)%nat →
  (length all ≤ length (segment_ t))%nat → 
  runs (Traverse tbl (Cursor (Z.of_nat G) (Z.of_nat sid) (Z.of_nat y)) cb st) (stops (left_over l y) (turns l y) st).
Proof.
  intros Hw Hne Hy Hlen. pose proof (dw_max _ _ Hd). pose proof bucket_bounds. pose proof (dw_len _ _ Hd) as Hl2.
  assert (sid < 2 ^ G)%nat as Hsid by (inversion Hw; subst; [done|lia]).
  unfold Traverse. rewrite (dw_depth _ _ Hd). rewrite Cursor_bucket by lia.
  pose proof (Cursor_segment G 0 sid y ltac:(lia) Hsid ltac:(lia)) as Hseg. rewrite Nat.add_0_r in Hseg. rewrite Hseg.
  rewrite !Nat2Z.id. simpl Nat.pow. rewrite Nat.mul_1_r.
  rewrite (proj2 (Nat.leb_gt _ _)), (proj2 (Nat.leb_gt _ _)) by lia. simpl.
  apply traverse_loop_spec; try done. unfold turns. pose proof (walk_length _ _ _ Hw).
  replace kBucketNum with (Datatypes.S y + (kBucketNum - Datatypes.S y))%nat at 2 by lia. nia.
Qed.

(** Following the cursors visits all that is left. *)
Lemma traverse_all_spec fuel sid y l (st : S) : walk t sid l → l ≠ [] → (y < kBucketNum)%nat → (turns l y ≤ fuel)%nat →
  (length all ≤ length (segment_ t))%nat →
  traverse_all tbl fuel (Cursor (Z.of_nat G) (Z.of_nat sid) (Z.of_nat y)) cb st = Ok (called (left_over l y) st).
Proof.
  intros Hw Hne Hy Hf Hlen. revert sid y l st Hw Hne Hy Hf. induction fuel as [|fuel IH]; intros sid y l st Hw Hne Hy Hf.
  { apply Nat.le_0_r, Nat.eq_add_0 in Hf as [E _]. by destruct l. }
  cbn [traverse_all]. destruct (Traverse_spec sid y l st Hw Hne Hy Hlen) as ([c st'] & -> & Hst). rewrite bind_ok.
  destruct Hst as (now & rest & -> & E & Hc). simpl in E, Hc. subst st'. rewrite called_app.
  destruct Hc as [[-> ->]|(sid' & y' & l' & -> & Hpos & Hy' & Hw' & Hne' & -> & Hlt)]; [done|].
  pose proof (dw_max _ _ Hd). pose proof bucket_bounds. pose proof (dw_len _ _ Hd).
  destruct (Z.eqb_spec (Cursor (Z.of_nat G) (Z.of_nat sid') (Z.of_nat y')) cursor_end) as [E|_].
  - apply Cursor_end in E; [done|lia|inversion Hw'; subst; done || lia|lia|done].
  - apply IH; done || lia.
Qed.

Lemma visits_positions : (seq 0 kBucketNum ≫= λ y, visits y all) ≡ₚ positions all.
Proof.
  assert (∀ l, (∀ x, x ∈ l → seg_shape x.2) → (seq 0 kBucketNum ≫= λ y, visits y l) ≡ₚ positions l) as Hl.
  { induction l as [|x l IH]; intros Hs; unfold visits, positions.
    - by induction (seq 0 kBucketNum).
    - rewrite bind_cons. fold (positions l). rewrite <- IH by (intros; apply Hs; by right).
      rewrite <- (logical_partition x.2) by (apply Hs; left). clear IH Hs. induction (seq 0 kBucketNum) as [|y k IHk]; [done|].
      rewrite !bind_cons, IHk. unfold visits. rewrite fmap_app, <- !app_assoc. apply Permutation_app_head.
      apply Permutation_app_swap_app. }
  apply Hl. clear Hl f. induction Hall as [|sid sid' p s l Hat Hnext Hlt Hlen Hs Hw IH]; intros x Hx; [by apply elem_of_nil in Hx|].
  apply elem_of_cons in Hx as [->|Hx]; [|by apply IH]. by eapply heap_shape.
Qed.
End scan.

(** A scan from the start calls back once per entry of the table. *)
Section full_scan.
Context `{PT : TablePolicy Q K V, DN : TableDenote Q K V W, PO : !TablePolicyOk Q K V W}.

Lemma positions_holds (t : DashTable K V) G sid l it e : dir_wf t G → walk t sid l →
  (it, e) ∈ positions l → t_holds t it e.
Proof.
  intros Hd. induction 1 as [|sid sid' p s l Hat Hnext Hlt Hlen Hs Hw IH]; [by intros ?%elem_of_nil|].
  unfold positions. rewrite bind_cons, elem_of_app. intros [([i e'] & E & Hx)%list_elem_of_fmap|Hx]; [|by apply IH].
  unfold in_seg in E. simpl in E. injection E as -> ->. exists p, s. simpl. split_and!; [|done|].
  - unfold seg_at in Hat. destruct (aget (segment_ t) sid) as [p'|] eqn:Hp; [|done]. apply aget_inv in Hp.
    rewrite bind_ok in Hat. destruct (deref t p'); [|done]. rewrite bind_ok in Hat. by injection Hat as -> _.
  - apply elem_of_seg_from in Hx; [done|]. by eapply heap_shape.
Qed.

Lemma full_scan_spec {S} (t : DashTable K V) G (f : TableIterator → S → S) (st : S) : dir_wf t G →
  ∃ todo, kv <$> todo.*2 ≡ₚ items t ∧ (∀ it e, (it, e) ∈ todo → t_holds t it e) ∧
    traverse_all (λ _, t) (kBucketNum * length (segment_ t)) 0 (λ it st, Ok (f it st)) st =
    Ok (foldl (λ st x, f x st) st todo.*1).
Proof.
  intros Hd. destruct (walk_all t G Hd) as (all & Hall & Hp & Hlen). exists (left_over all all 0).
  pose proof bucket_bounds. pose proof (all_nonempty t G Hd all Hall) as Hne.
  assert (left_over all all 0 ≡ₚ positions all) as Hpos.
  { rewrite <- (visits_positions t G Hd all Hall). unfold left_over.
    assert (seq 0 kBucketNum = 0%nat :: seq 1 (kBucketNum - 1)) as ->; [|done].
    replace kBucketNum with (Datatypes.S (kBucketNum - 1)) at 1 by lia. done. }
  split_and!.
  - rewrite Hpos. by apply walk_items.
  - intros it e Hx. rewrite Hpos in Hx. by eapply positions_holds.
  - pose proof (traverse_all_spec t G Hd f all Hall (kBucketNum * length (segment_ t)) 0 0 all st Hall Hne ltac:(lia)) as E.
    change (Cursor (Z.of_nat G) (Z.of_nat 0) (Z.of_nat 0)) with (Cursor (Z.of_nat G) 0 0) in E.
    assert (Cursor (Z.of_nat G) 0 0 = 0) as E0 by (unfold Cursor; by rewrite Z.shiftl_0_l). rewrite E0 in E.
    rewrite E; [|pose proof (turns_le all all 0 ltac:(done) ltac:(lia)); nia|done].
    unfold called. f_equal. generalize (left_over all all 0). intros todo. clear. revert st.
    induction todo as [|x todo IH]; intros st; [done|]. csimpl. apply IH.
Qed.
End full_scan.
