(* ===== verification/DashTableValue.v ===== *)
(** DashTableValue: changing the value of an entry in place, through the
    reference an iterator gives. *)
From stdpp Require Import gmap.
From S2P Require Import Prelude Policy SlotBitmap BucketBase Bucket Segment SegmentInv SegmentOps SegmentSplit DashTable DashTableInv DashTableGrow.
Local Open Scope Z_scope.

Section value.
Context `{PT : TablePolicy Q K V, DN : TableDenote Q K V W, PO : !TablePolicyOk Q K V W}.
Implicit Types (t : DashTable K V) (s : Segment K V) (b : Bucket K V) (i j p G : nat) (e : entry Q W).

(** The entry with another value. *)
Definition with_val e (w : W) : entry Q W := Entry (e_key e) w (e_fp e) (e_probe e).

Lemma set_value_bucket b j e k v v' : bucket_wf b → slot_at b j = Some e → key b !! j = Some k → value b !! j = Some v →
  key_ok k → val_ok v' →
  slot_upd b (mkBucket (base b) (key b) (<[j := v']> (value b))) j (Some (with_val e (val_of v'))).
Proof.
  intros Hw He Hk Hv Hok Hv'. pose proof Hw as [Hbase Hks Hvs Hoks Hka Hva].
  assert (occupied b j = true) as Ho by (apply slot_at_occupied; [done|eauto]).
  pose proof (occupied_lt b j Hw Ho) as Hj. split; [split|..]; simpl; rewrite ?length_insert; try done.
  - intros l k1 v1 Hl Hk1 Hv1. destruct (decide (j = l)) as [<-|Hne].
    + rewrite list_lookup_insert_eq in Hv1 by lia. rewrite Hk in Hk1. by simplify_eq.
    + rewrite list_lookup_insert_ne in Hv1 by done. by apply (Hoks l).
  - by apply Forall_insert, val_ok_asg.
  - apply slots_insert; [done|]. intros l Hl. unfold slot_at. change (occupied (mkBucket _ _ _) l) with (occupied b l). simpl.
    destruct (decide (j = l)) as [<-|].
    + rewrite Ho, Hk, list_lookup_insert_eq by lia. destruct (occupied_inv b j Hw Ho) as (k1 & v1 & f & Hk1 & _ & Hf & _ & _ & E).
      rewrite Hf. simpl. rewrite He in E. rewrite Hk in Hk1. by simplify_eq.
    + by rewrite list_lookup_insert_ne.
Qed.

Lemma set_value_seg s s' i j e w : seg_wf s → holds s i j e → seg_upd s s' i j (Some e) (Some (with_val e w)) →
  seg_wf s' ∧ kv e :: seg_items s' ≡ₚ (e_key e, w) :: seg_items s ∧ keep s s' ∧ holds s' i j (with_val e w).
Proof.
  intros [Hs Ha] Hh Hu. pose proof Hh as (b & Hb & He). pose proof (sh_pos _ Hs _ _ _ _ Hb He) as Hpos.
  assert (seg_shape s') as Hs' by (eapply seg_upd_shape; [done|exact Hu|]; by intros e' [= <-]).
  split_and!.
  - split; [done|]. eapply accts_ext; [eapply (seg_upd_accts s s'); [exact Ha|exact Hu]|]. intros y.
    destruct (decide (i < kBucketNum)%nat) as [Hlt|Hge].
    + by rewrite (seg_upd_stash_regular s s' i j _ _ y Hu Hlt).
    + pose proof (seg_upd_lt _ _ _ _ _ _ Hs Hu) as Hi. unfold kTotalBuckets in Hi.
      assert (∃ p, i = kBucketNum + p ∧ p < kStashBucketNum)%nat as (p & -> & Hp) by (exists (i - kBucketNum)%nat; lia).
      pose proof (seg_upd_stash s s' p j _ _ y Hu Hp) as Hperm.
      assert (items_in y p (option_list (Some (with_val e w))) = items_in y p (option_list (Some e))) as E.
      { unfold items_in. simpl. rewrite !filter_cons. cbn [with_val e_key]. by destruct (decide (home (e_key e) = y)). }
      rewrite E in Hperm. by apply Permutation_app_inv_l in Hperm.
  - pose proof (seg_upd_entries _ _ _ _ _ _ Hs Hu) as Hp. simpl in Hp.
    apply (fmap_Permutation kv) in Hp. rewrite !fmap_cons in Hp. symmetry. exact Hp.
  - by eapply seg_upd_keep.
  - destruct (seg_upd_slot _ _ _ _ _ _ Hu) as (b' & Hb' & Hj). apply slots_lookup_inv in Hj as [_ Hj]. by exists b'.
Qed.

Lemma set_key_bucket b j e k k' : bucket_wf b → slot_at b j = Some e → key b !! j = Some k →
  key_ok k' → key_of k' = key_of k →
  slot_upd b (mkBucket (base b) (<[j := k']> (key b)) (value b)) j (Some e).
Proof.
  intros Hw He Hk Hok' Ek. pose proof Hw as [Hbase Hks Hvs Hoks Hka Hva].
  assert (occupied b j = true) as Ho by (apply slot_at_occupied; [done|eauto]).
  pose proof (occupied_lt b j Hw Ho) as Hj.
  destruct (occupied_inv b j Hw Ho) as (k1 & v1 & f & Hk1 & Hv1 & Hf & Hok1 & Hvok1 & E). rewrite Hk in Hk1. injection Hk1 as <-.
  split; [split|..]; simpl; rewrite ?length_insert; try done.
  - intros l k2 v2 Hl Hk2 Hv2. destruct (decide (j = l)) as [<-|Hne].
    + rewrite list_lookup_insert_eq in Hk2 by lia. rewrite Hv1 in Hv2. by simplify_eq.
    + rewrite list_lookup_insert_ne in Hk2 by done. by apply (Hoks l).
  - by apply Forall_insert, key_ok_asg.
  - apply slots_insert; [done|]. intros l Hl. unfold slot_at. change (occupied (mkBucket _ _ _) l) with (occupied b l). simpl.
    destruct (decide (j = l)) as [<-|].
    + rewrite Ho, Hv1, list_lookup_insert_eq by lia. rewrite Hf. simpl. by rewrite Ek, <- E, He.
    + by rewrite list_lookup_insert_ne.
Qed.

(** What an update of one slot in place does to the table. *)
Lemma update_slot_table t G it e w p s b b' : dir_wf t G → segment_ t !! seg_id_ it = Some p → heap_ t !! p = Some s →
  bucket_ s !! bucket_id_ it = Some b → slot_at b (slot_id_ it) = Some e →
  slot_upd b b' (slot_id_ it) (Some (with_val e w)) →
  let t' := store t p (seg_set s (bucket_id_ it) b') in
  dir_wf t' G ∧ kv e :: items t' ≡ₚ (e_key e, w) :: items t ∧ t_holds t' it (with_val e w).
Proof.
  intros Hd Hp Hs Hbk He Hsl. cbv zeta. destruct (dw_block _ _ Hd _ _ Hs) as (L & bl & Hb).
  pose proof (bo_wf _ _ _ _ _ _ Hb) as Hw. set (s' := seg_set s (bucket_id_ it) b').
  assert (occupied b (slot_id_ it) = true) as Ho by (apply slot_at_occupied; [by eapply (sh_wf _ (proj1 Hw))|eauto]).
  assert (seg_upd s s' (bucket_id_ it) (slot_id_ it) (Some e) (Some (with_val e w))) as Hu.
  { exists b, b'. split_and!; [done| |done|done].
    rewrite slots_lookup, He; [done|]. apply (occupied_lt b); [by eapply (sh_wf _ (proj1 Hw))|done]. }
  destruct (set_value_seg s s' _ _ e w Hw (ex_intro _ b (conj Hbk He)) Hu) as (Hw' & Hi' & [Hkd Hki] & Hh').
  assert (∀ x, x ∈ seg_items s' → prefix L x.1 = bl) as Hkeys.
  { intros x Hx. assert (x ∈ (e_key e, w) :: seg_items s) as Hx2 by (rewrite <- Hi'; by right).
    assert (kv e ∈ seg_items s) as Hke by (apply list_elem_of_fmap; exists e; split; [done|];
      apply elem_of_seg_entries; [apply Hw|]; exists (bucket_id_ it), (slot_id_ it), b; done).
    apply elem_of_cons in Hx2 as [-> |Hx2]; [|by apply Hb]. by apply (bo_keys _ _ _ _ _ _ Hb _ Hke). }
  split_and!.
  - by apply (dir_store t G p s s' L bl).
  - pose proof (items_store t p s s' Hs) as Hst.
    apply (Permutation_app_inv_l (seg_items s)). rewrite <- (Permutation_middle (seg_items s) _ (kv e)), <- Hst.
    rewrite <- (Permutation_middle (seg_items s)). change (kv e :: seg_items s' ++ items t) with ((kv e :: seg_items s') ++ items t).
    rewrite Hi'. done.
  - exists p, s'. split_and!; [done|simpl; by rewrite lookup_insert_eq|done].
Qed.

(** The checks and the accesses of the update of a slot that holds an entry. *)
Lemma holds_access t it p s e : segment_ t !! seg_id_ it = Some p → heap_ t !! p = Some s → seg_wf s →
  holds s (bucket_id_ it) (slot_id_ it) e →
  ∃ b k v, GetBucket s (bucket_id_ it) = Ok b ∧ bucket_ s !! bucket_id_ it = Some b ∧ slot_at b (slot_id_ it) = Some e ∧
    key b !! slot_id_ it = Some k ∧ value b !! slot_id_ it = Some v ∧ key_ok k ∧ val_ok v ∧
    key_of k = e_key e ∧ val_of v = e_val e ∧
    Key s (bucket_id_ it) (slot_id_ it) = Ok k ∧ Value s (bucket_id_ it) (slot_id_ it) = Ok v ∧ bucket_wf b.
Proof.
  intros Hp Hs Hw Hh. pose proof Hh as (b0 & Hb0 & He0).
  destruct (holds_contents s _ _ e (proj1 Hw) Hh) as (b & k & v & Hg & Hbk & Hk & Hv & Hok & Hvok & Ek & Ev & Ho).
  rewrite Hbk in Hb0. injection Hb0 as <-. exists b, k, v. pose proof Hk as Hk'. pose proof Hv as Hv'.
  apply aget_inv in Hk', Hv'. assert (BucketBase.IsBusy (base b) (slot_id_ it) = true) as Hbusy
    by (unfold BucketBase.IsBusy; by rewrite land_bit_at).
  unfold Key, Value, Segment.IsBusy. rewrite !Hg, !bind_ok, !Hbusy, !cassert_true, !bind_ok by done.
  split_and!; try done. by eapply (sh_wf _ (proj1 Hw)).
Qed.

(** [it->second = ...] changes the value of the key it points to, and nothing else. *)
Lemma update_value_spec {A} t G it e w (f : V → res (V * A)) (P : A → Prop) : dir_wf t G → t_holds t it e →
  (∀ v, val_ok v → val_of v = e_val e → runs (f v) (λ '(v', r), val_ok v' ∧ val_of v' = w ∧ P r)) →
  runs (update_value t it f) (λ '(t', r), P r ∧ dir_wf t' G ∧ size_ t' = size_ t ∧ initial_depth_ t' = initial_depth_ t ∧
    segment_ t' = segment_ t ∧
    kv e :: items t' ≡ₚ (e_key e, w) :: items t ∧ t_holds t' it (with_val e w)).
Proof.
  intros Hd (p & s & Hp & Hs & Hh) Hf. destruct (dw_block _ _ Hd _ _ Hs) as (L & bl & Hb).
  pose proof (bo_wf _ _ _ _ _ _ Hb) as Hw.
  destruct (holds_access t it p s e Hp Hs Hw Hh) as (b & k & v & Hg & Hbk & He & Hk & Hv & Hok & Hvok & Ek & Ev & HK & HV & Hbw).
  unfold update_value. rewrite (seg_at_ok t _ p s Hp Hs), bind_ok, HK, bind_ok, HV, bind_ok.
  rbind (Hf v Hvok); [done|]. intros [v' r] (Hv' & Ew & HP). unfold on_bucket. rewrite Hg, bind_ok, (aset_some _ _ _ _ Hv), bind_ok.
  rewrite bind_ok. cbv beta iota. rewrite (set_bucket_ok s _ b _ Hbk), !bind_ok. apply runs_ok. split; [done|].
  destruct (update_slot_table t G it e w p s b (mkBucket (base b) (key b) (<[slot_id_ it:=v']> (value b)))) as (? & ? & ?); try done.
  rewrite <- Ew. by eapply (set_value_bucket b _ e k v v').
Qed.

(** An update of [it->first] that keeps what the key denotes changes nothing. *)
Lemma update_key_spec {A} t G it e (f : K → res (K * A)) (P : A → Prop) : dir_wf t G → t_holds t it e →
  (∀ k, key_ok k → key_of k = e_key e → runs (f k) (λ '(k', r), key_ok k' ∧ key_of k' = e_key e ∧ P r)) →
  runs (update_key t it f) (λ '(t', r), P r ∧ dir_wf t' G ∧ size_ t' = size_ t ∧
    kv e :: items t' ≡ₚ kv e :: items t ∧ t_holds t' it e).
Proof.
  intros Hd (p & s & Hp & Hs & Hh) Hf. destruct (dw_block _ _ Hd _ _ Hs) as (L & bl & Hb).
  pose proof (bo_wf _ _ _ _ _ _ Hb) as Hw.
  destruct (holds_access t it p s e Hp Hs Hw Hh) as (b & k & v & Hg & Hbk & He & Hk & Hv & Hok & Hvok & Ek & Ev & HK & HV & Hbw).
  unfold update_key. rewrite (seg_at_ok t _ p s Hp Hs), bind_ok, HK, bind_ok, HV, bind_ok.
  rbind (Hf k Hok Ek). intros [k' r] (Hk' & Ek' & HP). unfold on_bucket. rewrite Hg, bind_ok, (aset_some _ _ _ _ Hk), bind_ok.
  rewrite bind_ok. cbv beta iota. rewrite (set_bucket_ok s _ b _ Hbk), !bind_ok. apply runs_ok. split; [done|].
  assert (with_val e (e_val e) = e) as Eta by by destruct e.
  destruct (update_slot_table t G it e (e_val e) p s b (mkBucket (base b) (<[slot_id_ it:=k']> (key b)) (value b))) as (? & Hi & Hh'); try done.
  { rewrite Eta. eapply set_key_bucket; try done. congruence. }
  rewrite Eta in Hh'. done.
Qed.
End value.
