(* ===== verification/DashTableOps.v ===== *)
(** DashTableOps: what insertion, removal and clearing do to the contents of a
    DashTable. *)
From stdpp Require Import gmap.
From S2P Require Import Prelude Policy SlotBitmap BucketBase Bucket Segment SegmentInv SegmentOps SegmentSplit DashTable DashTableInv DashTableGrow.
Local Open Scope Z_scope.

Lemma filter_length_le {A} (P P' : A → Prop) `{!∀ x, Decision (P x), !∀ x, Decision (P' x)} (l : list A) :
  (∀ x, P x → P' x) → (length (filter P l) ≤ length (filter P' l))%nat.
Proof.
  intros Himp. induction l as [|x l IH]; [done|]. rewrite !filter_cons.
  destruct (decide (P x)); [rewrite decide_True by auto; simpl; lia|]. destruct (decide (P' x)); simpl; lia.
Qed.

Section insert.
Context `{PT : TablePolicy Q K V, DN : TableDenote Q K V W, PO : !TablePolicyOk Q K V W, AO : !TableAssignOk Q K V W}.
Implicit Types (t : DashTable K V) (s : Segment K V) (p i j G L b : nat) (q : Q) (u : KeySrc Q K) (v : V).

(** The keys that share the first [d] hash bits with [q]. *)
Definition sharing (d : nat) (q : Q) (l : list (Q * W)) : list (Q * W) :=
  filter (λ x, prefix d x.1 = prefix d q) l.

(** [q] can be inserted by growing the table to depth [D] at most: at that
    depth the segment is not crowded, and no split on the way overflows. *)
Record can_insert (D : nat) (q : Q) (l : list (Q * W)) : Prop := {
  ci_depth : (D ≤ 31)%nat;
  ci_room : (length (sharing D q l) < 6 * kSlotNum)%nat;
  ci_split : ∀ d, (d < D)%nat → ¬ overflows (rights (Z.of_nat d + 1) (sharing d q l));
}.

Lemma overflows_perm (l l' : list (Q * W)) : l ≡ₚ l' → overflows l → overflows l'.
Proof. intros Hl (dst & x & ? & ? & ? & Hs). exists dst, x. split_and!; try done. by rewrite <- Hl. Qed.

Lemma sharing_perm d q (l l' : list (Q * W)) : l ≡ₚ l' → sharing d q l ≡ₚ sharing d q l'.
Proof. intros Hl. unfold sharing. by rewrite Hl. Qed.

Lemma rights_perm d (l l' : list (Q * W)) : l ≡ₚ l' → rights d l ≡ₚ rights d l'.
Proof. intros Hl. unfold rights. by rewrite Hl. Qed.

Lemma can_insert_perm D q (l l' : list (Q * W)) : l ≡ₚ l' → can_insert D q l → can_insert D q l'.
Proof.
  intros Hl [H1 H2 H3]. split; [done|by rewrite <- (sharing_perm _ _ _ _ Hl)|]. intros d Hd Ho. apply (H3 d Hd).
  eapply overflows_perm; [|exact Ho]. by apply rights_perm, sharing_perm.
Qed.

(** A table with fewer than six buckets of entries has room for every key. *)
Lemma can_insert_small q (l : list (Q * W)) : (length l < 6 * kSlotNum)%nat → can_insert 0 q l.
Proof.
  intros Hl. split; [lia| |lia]. eapply Nat.le_lt_trans; [apply length_filter|done].
Qed.

(** ** One attempt *)

Definition attempt s u v (force : bool) (pred : K → bool) (key_hash : Z) : res (Segment K V * option Iterator * bool) :=
  if force
  then '(s', it) ← InsertUniq s u v key_hash true; Ok (s', it, match it with Some _ => true | None => false end)
  else Segment.Insert s u v key_hash pred.

Lemma attempt_spec s u v force : seg_wf s → src_ok u → val_ok v →
  runs (attempt s u v force (λ k, Equal k (src_key u)) (HashFnQ (src_key u))) (λ '(s', it, r),
    match it with
    | Some i =>
        if r : bool then inserted s s' u v i ∧ (force = false → src_key u ∉ (seg_items s).*1)
        else force = false ∧ s' = s ∧ ∃ e, holds s (index i) (slot i) e ∧ e_key e = src_key u
    | None => s' = s ∧ crowded s (home (src_key u))
    end).
Proof.
  intros Hw Hu Hv. unfold attempt. destruct force.
  - rbind (InsertUniq_spec s u v true Hw Hu Hv). intros [s' [i|]] Hr; apply runs_ok; [|done].
    split; [apply Hr|done].
  - unfold Segment.Insert. rbind (FindIt_spec s (src_key u) Hw). intros [i|] Hf; [by apply runs_ok|].
    rbind (InsertUniq_spec s u v true Hw Hu Hv). intros [s' [i|]] Hr; apply runs_ok; [|done].
    split; [apply Hr|]. intros _ Hin. apply seg_items_key in Hin as (e & He & Hk); [|apply Hw]. by apply (Hf e).
Qed.

Lemma store_id t p s : heap_ t !! p = Some s → store t p s = t.
Proof. intros Hp. unfold store, set_heap. rewrite insert_id by done. by destruct t. Qed.

(** ** Growing until the key fits *)

(** The segment of [q] has depth [L]. *)
Definition depth_at t G q L : Prop :=
  ∃ p s, segment_ t !! prefix G q = Some p ∧ heap_ t !! p = Some s ∧ block_ok t G p s L (prefix L q).

Lemma crowded_depth t G p s L q D : dir_wf t G → heap_ t !! p = Some s → block_ok t G p s L (prefix L q) →
  crowded s (home q) → can_insert D q (items t) → (L < D)%nat.
Proof.
  intros Hd Hp Hb Hc [HD Hroom _]. apply Nat.nle_gt. intros Hge.
  pose proof (bo_le _ _ _ _ _ _ Hb). pose proof (dw_max _ _ Hd).
  pose proof (crowded_size s (home q) (proj1 (bo_wf _ _ _ _ _ _ Hb)) (home_index_lt _) Hc) as Hsz.
  rewrite (items_of_segment t G p s L _ Hd Hp Hb) in Hsz.
  assert (length (filter (λ x, prefix L x.1 = prefix L q) (items t)) ≤ length (sharing D q (items t)))%nat; [|lia].
  apply filter_length_le. intros x Hx. by rewrite (prefix_prefix L D x.1), (prefix_prefix L D q), Hx by lia.
Qed.

(** One turn of the growth: the directory is doubled if it has to be, then
    the segment is split. *)
Definition grow t (target target_seg_id : nat) (local_depth key_hash : Z) : res (DashTable K V * nat) :=
  '(t, target_seg_id) ←
    (if local_depth =? global_depth_ t then
       t ← IncreaseDepth t (global_depth_ t + 1);
       let target_seg_id := SegmentId t key_hash in
       p ← aget (segment_ t) target_seg_id;
       _ ← cassert (p =? target)%nat;
       Ok (t, target_seg_id)
     else Ok (t, target_seg_id));
  t ← DashTable.Split t target_seg_id; Ok (t, target_seg_id).

Lemma double_spec t G p s L q : dir_wf t G → segment_ t !! prefix G q = Some p → heap_ t !! p = Some s →
  block_ok t G p s L (prefix L q) → (L < 31)%nat →
  runs (if local_depth_ s =? global_depth_ t then
         t ← IncreaseDepth t (global_depth_ t + 1);
         let target_seg_id := SegmentId t (HashFnQ q) in
         p' ← aget (segment_ t) target_seg_id;
         _ ← cassert (p' =? p)%nat;
         Ok (t, target_seg_id)
       else Ok (t, prefix G q)) (λ '(t', id), ∃ G' s', dir_wf t' G' ∧ items t' = items t ∧ size_ t' = size_ t ∧
    id = prefix G' q ∧ segment_ t' !! id = Some p ∧ heap_ t' !! p = Some s' ∧
    block_ok t' G' p s' L (prefix L q) ∧ (L < G')%nat).
Proof.
  intros Hd Hp Hs Hb HL. pose proof (dw_max _ _ Hd) as Hmax. pose proof (bo_le _ _ _ _ _ _ Hb) as HG.
  rewrite (dw_depth _ _ Hd), (bo_depth _ _ _ _ _ _ Hb). destruct (Z.eqb_spec (Z.of_nat L) (Z.of_nat G)) as [E|E].
  - assert (L = G) as -> by lia. rbind (IncreaseDepth_spec t G Hd HL). intros t' [Hd' Hids Hsz Hseg]. cbv zeta.
    rewrite (SegmentId_prefix t' (S G)) by done.
    assert (segment_ t' !! prefix (S G) q = Some p) as Hp'.
    { rewrite Hseg. pose proof (prefix_prefix (S G) G q ltac:(lia)) as E2.
      replace (S G - G)%nat with 1%nat in E2 by lia. change (2 ^ 1)%nat with 2%nat in E2. by rewrite <- E2. }
    rewrite (aget_some _ _ _ Hp'), bind_ok, cassert_true, bind_ok by by apply Nat.eqb_refl. apply runs_ok.
    destruct (Hids p) as [[_ E']|(s0 & id & Hs0 & Hs')]; [congruence|].
    destruct (dw_block _ _ Hd' _ _ Hs') as (L' & b' & Hb'). rewrite Hs in Hs0. injection Hs0 as <-.
    assert (L' = G) as ->.
    { pose proof (bo_depth _ _ _ _ _ _ Hb') as E1. pose proof (bo_depth _ _ _ _ _ _ Hb) as E2. simpl in E1. lia. }
    assert (b' = prefix G q) as -> by (symmetry; by apply (block_prefix t' (S G) p _ G b' q Hd' Hb')).
    exists (S G), (set_segment_id s id). split_and!; try done; [by apply ids_only_items|lia].
  - apply runs_ok. exists G, s. split_and!; try done. lia.
Qed.

Lemma grow_spec t G p s L q D : dir_wf t G → segment_ t !! prefix G q = Some p → heap_ t !! p = Some s →
  block_ok t G p s L (prefix L q) → (L < D)%nat → can_insert D q (items t) →
  runs (grow t p (prefix G q) (local_depth_ s) (HashFnQ q)) (λ '(t', id), ∃ G', dir_wf t' G' ∧
    items t' ≡ₚ items t ∧ size_ t' = size_ t ∧ id = prefix G' q ∧ depth_at t' G' q (S L)).
Proof.
  intros Hd Hp Hs Hb HL [HD Hroom Hsplit]. unfold grow.
  rbind (double_spec t G p s L q Hd Hp Hs Hb); [lia|].
  intros [t1 id] (G1 & s1 & Hd1 & Hi1 & Hz1 & -> & Hp1 & Hs1 & Hb1 & HLG). pose proof (dw_max _ _ Hd1).
  pose proof (Split_table_spec t1 G1 (prefix G1 q) p s1 L _ Hd1 Hp1 Hs1 Hb1 HLG ltac:(apply prefix_lt; lia)) as Hsp.
  apply may_total in Hsp.
  - rbind Hsp. intros t2 [Hd2 Hi2 Hz2 _ Hblk]. apply runs_ok. exists G1. split_and!; try done.
    + by rewrite Hi2, Hi1.
    + by rewrite Hz2, Hz1.
    + by apply Hblk.
  - intros Ho. apply (Hsplit L HL). eapply overflows_perm; [|exact Ho]. apply rights_perm.
    rewrite (items_of_segment t1 G1 p s1 L _ Hd1 Hs1 Hb1). by rewrite Hi1.
Qed.

(** The effect of [InsertInternal]. *)
Definition insert_post t q w t' (it : TableIterator) (r : bool) : Prop :=
  (∃ G, dir_wf t' G) ∧ NoDup (items t').*1 ∧
  if r then (q ∉ (items t).*1) ∧ items t' ≡ₚ (q, w) :: items t ∧ size_ t' = u64 (size_ t + 1) ∧
            ∃ e, t_holds t' it e ∧ kv e = (q, w)
  else items t' ≡ₚ items t ∧ size_ t' = size_ t ∧ ∃ e, t_holds t' it e ∧ e_key e = q.

Lemma insert_done t G p s s' L u v (i : Iterator) : dir_wf t G → NoDup (items t).*1 → src_key u ∉ (items t).*1 →
  segment_ t !! prefix G (src_key u) = Some p → heap_ t !! p = Some s →
  block_ok t G p s L (prefix L (src_key u)) → inserted s s' u v i →
  insert_post t (src_key u) (val_of v) (set_size (store t p s') (u64 (size_ t + 1)))
    (mkTIt (prefix G (src_key u)) (index i) (slot i)) true.
Proof.
  intros Hd Hnd Hnin Hp Hs Hb [Hw Hk Hi (e & He & Hkv)].
  assert (items (store t p s') ≡ₚ (src_key u, val_of v) :: items t) as Hit.
  { apply (Permutation_app_inv_l (seg_items s)). rewrite <- (items_store t p s s' Hs), Hi. simpl.
    by rewrite Permutation_middle. }
  split_and!.
  - exists G. assert (dir_wf (store t p s') G) as Hd'.
    { eapply dir_store; [done..|apply Hk|done|]. intros x. rewrite Hi, elem_of_cons.
      intros [->|Hx]; [done|by apply (bo_keys _ _ _ _ _ _ Hb)]. }
    destruct Hd' as [? ? ? ? ? Hblk ? ? ?]. split; try done. intros p1 s1 Hs1.
    destruct (Hblk p1 s1 Hs1) as (L1 & b1 & [? ? ? ? ? ? ?]). exists L1, b1. by split.
  - rewrite (items_heap (store t p s') (set_size (store t p s') (u64 (size_ t + 1)))) by done.
    rewrite Hit, fmap_cons. by constructor.
  - done.
  - by rewrite (items_heap (store t p s') (set_size (store t p s') (u64 (size_ t + 1)))) by done.
  - done.
  - exists e. split; [|done]. exists p, s'. split_and!; [done|apply lookup_insert_eq|done].
Qed.

Lemma insert_loop_spec D fuel t G L u v force : dir_wf t G → NoDup (items t).*1 → src_ok u → val_ok v →
  can_insert D (src_key u) (items t) → (force = true → src_key u ∉ (items t).*1) →
  depth_at t G (src_key u) L → (0 < fuel)%nat → (D < fuel + L)%nat →
  runs (insert_loop fuel t (prefix G (src_key u)) u v (HashFnQ (src_key u)) (λ k, Equal k (src_key u)) force)
       (λ '(t', it, r), insert_post t (src_key u) (val_of v) t' it r).
Proof.
  intros Hd Hnd Hu Hv Hci Hf Hdep Hfu Hfuel. revert t G L Hd Hnd Hci Hf Hdep Hfu Hfuel.
  induction fuel as [|fuel IH]; intros t G L Hd Hnd Hci Hf (p & s & Hp & Hs & Hb) Hfu Hfuel; [lia|].
  pose proof (dw_max _ _ Hd). set (q := src_key u) in *. simpl insert_loop. fold q.
  rewrite cassert_true, bind_ok.
  2: { apply Nat.ltb_lt. rewrite (dw_len _ _ Hd). apply prefix_lt. lia. }
  rewrite (seg_at_ok t _ p s Hp Hs), bind_ok. fold (attempt s u v force (λ k, Equal k q) (HashFnQ q)).
  rbind (attempt_spec s u v force (bo_wf _ _ _ _ _ _ Hb) Hu Hv). fold q. intros [[s' [i|]] r].
  { destruct r; intros Hr; apply runs_ok.
    - destruct Hr as [Hins Hnin]. eapply insert_done; try done. destruct force; [by apply Hf|].
      intros Hin. apply (Hnin eq_refl). apply list_elem_of_fmap in Hin as ([q' w] & Eq & Hin). simpl in Eq. subst q'.
      apply list_elem_of_fmap. exists (q, w). split; [done|].
      rewrite (items_of_segment t G p s L _ Hd Hs Hb). by apply list_elem_of_filter.
    - destruct Hr as (-> & -> & e & He & Hk). rewrite store_id by done. split_and!; [by exists G|done|done|done|].
      exists e. split; [|done]. exists p, s. done. }
  intros [-> Hc]. rewrite store_id by done.
  pose proof (crowded_depth t G p s L q D Hd Hs Hb Hc Hci) as HLD.
  pose proof (grow_spec t G p s L q D Hd Hp Hs Hb HLD Hci) as Hgrow. unfold grow in Hgrow.
  destruct Hgrow as ([t2 id] & Eg & G2 & Hd2 & Hi2 & Hz2 & -> & Hdep2).
  apply bind_ok_inv in Eg as ([t1 id1] & E1 & E2). rewrite E1, bind_ok.
  apply bind_ok_inv in E2 as (t3 & E3 & E4). injection E4 as -> ->. rewrite E3, bind_ok.
  eapply runs_mono; [apply (IH t2 G2 (S L)); try done|].
  - by rewrite Hi2.
  - by eapply can_insert_perm.
  - by rewrite Hi2.
  - lia.
  - lia.
  - intros [[t' it] r'] (Hd' & Hnd' & Hr). split_and!; [done|done|]. rewrite <- Hz2. destruct r'.
    + by rewrite <- Hi2.
    + by rewrite <- Hi2.
Qed.
End insert.
