(* ===== verification/DashTableErase.v ===== *)
(** DashTableErase: removing an entry and clearing a table. The code destroys
    the key and the value of a slot while the slot is still marked busy; the
    lemmas show that the metadata operations that follow do not depend on them. *)
From stdpp Require Import gmap.
From S2P Require Import Prelude Policy SlotBitmap BucketBase Bucket Segment SegmentInv SegmentOps SegmentSplit DashTable DashTableInv DashTableGrow DashTableOps.
Local Open Scope Z_scope.

Section recell.
Context `{TablePolicy Q K V}.
Implicit Types (s : Segment K V) (b : Bucket K V).
Context (i : nat) (ks : list K) (vs : list V).

(** The segment with other objects in the cells of bucket [i]. *)
Definition recell_bucket (k : nat) b : Bucket K V := if decide (i = k) then mkBucket (base b) ks vs else b.
Definition recell s : Segment K V := set_buckets s (imap recell_bucket (bucket_ s)).

Lemma recell_base k b : base (recell_bucket k b) = base b.
Proof. unfold recell_bucket. by case_decide. Qed.

Lemma recell_with_base k b x : with_base (recell_bucket k b) x = recell_bucket k (with_base b x).
Proof. unfold recell_bucket. by case_decide. Qed.

Lemma recell_lookup s k : bucket_ (recell s) !! k = recell_bucket k <$> bucket_ s !! k.
Proof. simpl. apply list_lookup_imap. Qed.

Lemma GetBucket_recell s k : GetBucket (recell s) k = (b ← GetBucket s k; Ok (recell_bucket k b)).
Proof. unfold GetBucket, aget. rewrite recell_lookup. by destruct (bucket_ s !! k). Qed.

Lemma set_bucket_recell s k b :
  set_bucket (recell s) k (recell_bucket k b) = (s' ← set_bucket s k b; Ok (recell s')).
Proof.
  unfold set_bucket, aset. rewrite recell_lookup. destruct (bucket_ s !! k) eqn:E; [|done]. simpl. f_equal.
  unfold recell, set_buckets. simpl. f_equal. apply list_eq. intros k'.
  rewrite list_lookup_imap. assert (k < length (bucket_ s))%nat by by eapply lookup_lt_Some.
  destruct (decide (k = k')) as [<-|].
  - by rewrite !list_lookup_insert_eq by (rewrite ?length_imap; done).
  - by rewrite !list_lookup_insert_ne, list_lookup_imap by done.
Qed.

Lemma RemoveStashReference_recell s p h :
  RemoveStashReference (recell s) p h = (s' ← RemoveStashReference s p h; Ok (recell s')).
Proof.
  unfold RemoveStashReference. rewrite !GetBucket_recell. destruct (GetBucket s (HomeIndex h)) as [t|]; [|done].
  rewrite !bind_ok. destruct (GetBucket s (NextBid (HomeIndex h))) as [n|]; [|done]. rewrite !bind_ok, !recell_base.
  destruct (UnsetStashPtr _ _ _ _) as [[[t' n'] r]|]; [|done]. rewrite !bind_ok, !recell_with_base, set_bucket_recell.
  destruct (set_bucket s _ _) as [s1|]; [|done]. by rewrite !bind_ok, set_bucket_recell.
Qed.

Lemma Delete_recell s it h : Segment.Delete (recell s) it h = (s' ← Segment.Delete s it h; Ok (recell s')).
Proof.
  unfold Segment.Delete. assert (∀ s1, DeleteAt (recell s1) (index it) (slot it) =
    (s' ← DeleteAt s1 (index it) (slot it); Ok (recell s'))) as Hdel.
  { intros s1. unfold DeleteAt, on_bucket. rewrite GetBucket_recell.
    destruct (GetBucket s1 (index it)) as [b|]; [|done]. rewrite !bind_ok. unfold Bucket.Delete.
    rewrite recell_base. destruct (BucketBase.Delete _ _) as [x|]; [|done].
    rewrite !bind_ok, recell_with_base, set_bucket_recell. by destruct (set_bucket s1 _ _). }
  destruct (kBucketNum <=? index it)%nat; [|by rewrite !bind_ok].
  rewrite RemoveStashReference_recell. destruct (RemoveStashReference s _ _) as [s1|]; [|done]. by rewrite !bind_ok.
Qed.
End recell.

Section destroy.
Context `{PT : TablePolicy Q K V, DN : TableDenote Q K V W, PO : !TablePolicyOk Q K V W, DO : !TableDestroyOk Q K V W}.
Implicit Types (s : Segment K V) (b : Bucket K V) (i j : nat) (e : entry Q W).

Lemma cell_Key s i j b k : bucket_ s !! i = Some b → BucketBase.IsBusy (base b) j = true →
  key b !! j = Some k → Key s i j = Ok k.
Proof.
  intros Hb Ho Hk. unfold Key, Segment.IsBusy, GetBucket.
  by rewrite (aget_some _ _ _ Hb), !bind_ok, cassert_true, bind_ok, (aget_some _ _ _ Hk).
Qed.

Lemma cell_Value s i j b v : bucket_ s !! i = Some b → BucketBase.IsBusy (base b) j = true →
  value b !! j = Some v → Value s i j = Ok v.
Proof.
  intros Hb Ho Hk. unfold Value, Segment.IsBusy, GetBucket.
  by rewrite (aget_some _ _ _ Hb), !bind_ok, cassert_true, bind_ok, (aget_some _ _ _ Hk).
Qed.

(** [DestroyKey] and [DestroyValue] on an occupied slot. *)
Lemma destroy_slot_spec s i j b k v : bucket_ s !! i = Some b → occupied b j = true →
  key b !! j = Some k → value b !! j = Some v → key_ok k → val_ok v →
  runs (destroy_slot s i j) (λ s', ∃ k' v', key_asg k' ∧ val_asg v' ∧
    s' = seg_set s i (mkBucket (base b) (<[j := k']> (key b)) (<[j := v']> (value b)))).
Proof.
  intros Hb Ho Hk Hv Hok Hvok. unfold destroy_slot.
  assert (BucketBase.IsBusy (base b) j = true) as Hbusy by (unfold BucketBase.IsBusy; by rewrite land_bit_at).
  rewrite (cell_Key s i j b k) by done. rewrite bind_ok. rbind (destroy_key k Hok). intros k' Hk'.
  rbind (on_bucket_spec s i b (λ b, ks ← aset (key b) j k'; Ok (mkBucket (base b) ks (value b), tt))
           (λ '(b', _), b' = mkBucket (base b) (<[j := k']> (key b)) (value b)) Hb).
  { rewrite (aset_some _ _ _ _ Hk), bind_ok. by apply runs_ok. }
  intros [s1 []] (b1 & -> & ->). set (b1 := mkBucket _ _ _). set (s1 := seg_set s i b1).
  assert (bucket_ s1 !! i = Some b1) as Hb1 by (unfold s1; by rewrite (seg_set_lookup _ _ b), decide_True).
  rewrite (cell_Value s1 i j b1 v) by done. rewrite bind_ok. rbind (destroy_value v Hvok). intros v' Hv'.
  rbind (on_bucket_spec s1 i b1 (λ b, vs ← aset (value b) j v'; Ok (mkBucket (base b) (key b) vs, tt))
           (λ '(b', _), b' = mkBucket (base b1) (key b1) (<[j := v']> (value b1))) Hb1).
  { rewrite (aset_some (value b1) _ _ _ Hv), bind_ok. by apply runs_ok. }
  intros [s2 []] (b2 & -> & ->). apply runs_ok. exists k', v'. split_and!; [done|done|].
  unfold s1, seg_set, set_buckets. simpl. f_equal. by rewrite list_insert_insert_eq.
Qed.

(** Once the slot is free, its objects do not matter. *)
Lemma recell_wf s i j b k' v' : seg_shape s → bucket_ s !! i = Some b → occupied b j = false →
  key_asg k' → val_asg v' →
  let s' := recell i (<[j := k']> (key b)) (<[j := v']> (value b)) s in
  same_slots s s' ∧ (∀ k b', bucket_ s' !! k = Some b' → bucket_wf b').
Proof.
  intros Hs Hb Hfree Hk Hv. cbv zeta. set (s' := recell _ _ _ s).
  assert (∀ k b', bucket_ s' !! k = Some b' → ∃ b0, bucket_ s !! k = Some b0 ∧ bucket_wf b' ∧
            ∀ l, slot_at b' l = slot_at b0 l) as Hlk.
  { intros k b'. unfold s'. rewrite recell_lookup. destruct (bucket_ s !! k) as [b0|] eqn:Hb0; [|done].
    intros E. injection E as <-. exists b0. split; [done|]. unfold recell_bucket.
    destruct (decide (i = k)) as [<-|]; [|split; [by eapply sh_wf|done]].
    rewrite Hb in Hb0. injection Hb0 as <-. pose proof (sh_wf _ Hs _ _ Hb) as [Hbase Hlk Hlv Hok Hka Hva]. split.
    - split; simpl; rewrite ?length_insert; try done;
        [|by apply Forall_insert..].
      intros l k1 v1 Hl. destruct (decide (j = l)) as [<-|].
      + unfold occupied in *. simpl in Hl. congruence.
      + rewrite !list_lookup_insert_ne by done. by apply Hok.
    - intros l. unfold slot_at. change (occupied (mkBucket _ _ _) l) with (occupied b l). simpl.
      destruct (decide (j = l)) as [<-|]; [by rewrite Hfree|]. by rewrite !list_lookup_insert_ne. }
  split.
  - split; [simpl; apply length_imap| |done]. intros k b' Hb'. destruct (Hlk _ _ Hb') as (b0 & ? & _ & ?). eauto.
  - intros k b' Hb'. by destruct (Hlk _ _ Hb') as (b0 & _ & ? & _).
Qed.

Lemma same_slots_wf s s' : seg_wf s → same_slots s s' →
  (∀ i b, bucket_ s' !! i = Some b → bucket_wf b) →
  (∀ i b b', bucket_ s !! i = Some b → bucket_ s' !! i = Some b' → stash_part (base b') = stash_part (base b)) →
  seg_wf s' ∧ seg_items s' = seg_items s.
Proof.
  intros [Hs Ha] Hss Hw Hst. split; [split|].
  - by eapply same_slots_shape.
  - intros y t n Hy Ht Hn. destruct (ss_at _ _ Hss _ _ Ht) as (t0 & Ht0 & _). destruct (ss_at _ _ Hss _ _ Hn) as (n0 & Hn0 & _).
    rewrite (same_slots_stash _ _ _ Hss). eapply acct_ext; [by apply (Hst y)|by apply (Hst (NextBid y))|by apply (Ha y)].
  - unfold seg_items. by rewrite (same_slots_entries _ _ Hss).
Qed.

Lemma recell_same s i b : bucket_ s !! i = Some b → recell i (key b) (value b) s = s.
Proof.
  intros Hb. destruct s as [l d id]. unfold recell, set_buckets. simpl in *. f_equal. apply list_eq. intros k.
  rewrite list_lookup_imap. destruct (l !! k) as [b0|] eqn:Hb0; [|done]. simpl. f_equal. unfold recell_bucket.
  destruct (decide (i = k)) as [<-|]; [|done]. rewrite Hb in Hb0. injection Hb0 as <-. by destruct b.
Qed.

Lemma delete_keeps_cells s i b it h s' b' : bucket_ s !! i = Some b → Segment.Delete s it h = Ok s' →
  bucket_ s' !! i = Some b' → key b' = key b ∧ value b' = value b.
Proof.
  intros Hb Hd Hb'. pose proof (Delete_recell i (key b) (value b) s it h) as E.
  rewrite recell_same, Hd, bind_ok in E by done. injection E as E.
  assert (bucket_ (recell i (key b) (value b) s') !! i = Some b') as Hb2 by (rewrite <- E; done).
  rewrite recell_lookup, Hb' in Hb2. simpl in Hb2. unfold recell_bucket in Hb2. rewrite decide_True in Hb2 by done.
  injection Hb2 as Hb2. by rewrite <- Hb2.
Qed.

(** [DestroyKey], [DestroyValue] and [Delete] of an entry. *)
Lemma destroy_delete_spec s i j e : seg_wf s → holds s i j e →
  runs (s1 ← destroy_slot s i j; Segment.Delete s1 (mkIt i j) (HashFnQ (e_key e)))
       (λ s', seg_wf s' ∧ keep s s' ∧ seg_items s ≡ₚ kv e :: seg_items s').
Proof.
  intros Hw Hh. pose proof Hw as [Hs Ha].
  destruct (holds_contents s i j e Hs Hh) as (b & k & v & _ & Hb & Hk & Hv & Hok & Hvok & _ & _ & Ho).
  apply aget_inv in Hk, Hv. rbind (destroy_slot_spec s i j b k v Hb Ho Hk Hv Hok Hvok).
  intros s1 (k' & v' & Hk' & Hv' & ->). set (ks := <[j := k']> (key b)). set (vs := <[j := v']> (value b)).
  assert (seg_set s i (mkBucket (base b) ks vs) = recell i ks vs s) as ->.
  { unfold seg_set, recell, set_buckets. f_equal. apply list_eq. intros l. rewrite list_lookup_imap.
    destruct (decide (i = l)) as [<-|].
    - rewrite list_lookup_insert_eq by by eapply lookup_lt_Some. rewrite Hb. simpl. unfold recell_bucket. by rewrite decide_True.
    - rewrite list_lookup_insert_ne by done. destruct (bucket_ s !! l); [|done]. simpl. unfold recell_bucket. by rewrite decide_False. }
  rewrite Delete_recell. destruct (Delete_spec s i j e Hw Hh) as (s2 & Ed & [Hw2 Hk2 Hi2 _ Hat]).
  rewrite Ed, bind_ok. apply runs_ok.
  destruct (lookup_lt_is_Some_2 (bucket_ s2) i) as [b2 Hb2].
  { rewrite (sh_len _ (proj1 Hw2)), <- (sh_len _ Hs). by eapply lookup_lt_Some. }
  destruct (delete_keeps_cells s i b (mkIt i j) (HashFnQ (e_key e)) s2 b2 Hb Ed Hb2) as [Ek Ev].
  assert (occupied b2 j = false) as Hfree.
  { apply not_true_iff_false. intros Ho2. apply slot_at_occupied in Ho2 as [e2 He2]; [|by eapply (sh_wf _ (proj1 Hw2))].
    apply (Hat e2). by exists b2. }
  unfold ks, vs. rewrite <- Ek, <- Ev.
  destruct (recell_wf s2 i j b2 k' v' (proj1 Hw2) Hb2 Hfree Hk' Hv') as [Hss Hwf].
  destruct (same_slots_wf s2 _ Hw2 Hss Hwf) as [Hw' Hi'].
  - intros l b3 b3' Hb3 Hb3'. rewrite recell_lookup, Hb3 in Hb3'. injection Hb3' as <-. by rewrite recell_base.
  - split; [done|]. split; [|by rewrite Hi']. eapply keep_trans; [exact Hk2|apply Hss].
Qed.
End destroy.

Section erase.
Context `{PT : TablePolicy Q K V, DN : TableDenote Q K V W, PO : !TablePolicyOk Q K V W, DO : !TableDestroyOk Q K V W}.
Implicit Types (t : DashTable K V) (s : Segment K V) (p i j G L : nat) (e : entry Q W) (q : Q).

(** Changing [size_] only. *)
Lemma dir_set_size t G n : dir_wf t G → dir_wf (set_size t n) G.
Proof.
  intros [? ? ? ? ? Hblk ? ? ?]. split; try done. intros p s Hs.
  destruct (Hblk p s Hs) as (L & b & [? ? ? ? ? ? ?]). exists L, b. by split.
Qed.

Record erased t t' G e : Prop := {
  er_dir : dir_wf t' G;
  er_items : items t ≡ₚ kv e :: items t';
  er_size : size_ t' = u64 (size_ t - 1);
}.

Lemma erase_done t G p s s' e : dir_wf t G → heap_ t !! p = Some s → seg_wf s' → keep s s' →
  seg_items s ≡ₚ kv e :: seg_items s' → erased t (set_size (store t p s') (u64 (size_ t - 1))) G e.
Proof.
  intros Hd Hp Hw Hk Hi. destruct (dw_block _ _ Hd _ _ Hp) as (L & b & Hb). split; [|..|done].
  - apply dir_set_size. eapply dir_store; [done..|apply Hk|done|]. intros x Hx.
    apply (bo_keys _ _ _ _ _ _ Hb). rewrite Hi. by right.
  - rewrite (items_heap (store t p s') (set_size _ _)) by done. apply (Permutation_app_inv_l (seg_items s')).
    rewrite (items_store t p s s' Hp), Hi. simpl. by rewrite Permutation_middle.
Qed.

Lemma Erase_spec t G it e : dir_wf t G → t_holds t it e → runs (Erase t it) (λ t', erased t t' G e).
Proof.
  intros Hd (p & s & Hp & Hs & Hh). destruct (dw_block _ _ Hd _ _ Hs) as (L & b & Hb).
  pose proof (bo_wf _ _ _ _ _ _ Hb) as Hw. unfold Erase, it_key. rewrite (seg_at_ok t _ p s Hp Hs), !bind_ok.
  rbind (Key_spec s _ _ e (proj1 Hw) Hh). intros k [Hok Ek].
  rewrite (hash_key k Hok), bind_ok, Ek.
  destruct (destroy_delete_spec s _ _ e Hw Hh) as (s2 & E & Hw2 & Hk2 & Hi2).
  apply bind_ok_inv in E as (s1 & E1 & E2). rewrite E1, bind_ok, E2, bind_ok. apply runs_ok.
  by eapply erase_done.
Qed.

Lemma EraseKey_spec t G q : dir_wf t G →
  runs (EraseKey t q) (λ '(t', n),
    (n = 0%nat ∧ t' = t ∧ q ∉ (items t).*1) ∨ (n = 1%nat ∧ ∃ e, e_key e = q ∧ erased t t' G e)).
Proof.
  intros Hd. destruct (key_segment t G q Hd) as (p & s & L & Hp & Hs & Hb & _ & Hat & Hin).
  unfold EraseKey. rewrite Hat, bind_ok. pose proof (bo_wf _ _ _ _ _ _ Hb) as Hw.
  rbind (FindIt_spec s q Hw). intros [i|] Hf.
  - destruct Hf as (e & Hh & <-). destruct (destroy_delete_spec s _ _ e Hw Hh) as (s2 & E & Hw2 & Hk2 & Hi2).
    apply bind_ok_inv in E as (s1 & E1 & E2). rewrite E1, bind_ok. destruct i as [i j].
    cbn [index slot] in *. rewrite E2, bind_ok. apply runs_ok. right. split; [done|]. exists e. split; [done|].
    by eapply erase_done.
  - apply runs_ok. left. split_and!; [done|done|].
    intros ([k w] & Hk & Hx)%list_elem_of_fmap. simpl in Hk. subst k. apply Hin in Hx.
    apply list_elem_of_fmap in Hx as (e & He & Hin'). unfold kv in He. simplify_eq. by apply (Hf e Hin').
Qed.
End erase.
