(* ===== verification/DashTableClear.v ===== *)
(** DashTableClear: DashTable::Clear destroys every entry and shrinks the
    directory back to its initial size. *)
From stdpp Require Import gmap.
From S2P Require Import Prelude Policy SlotBitmap BucketBase Bucket Segment SegmentInv SegmentOps SegmentSplit DashTable DashTableInv DashTableGrow DashTableIter DashTableOps DashTableErase.
Local Open Scope Z_scope.

(** * Clearing one segment *)

Section traverse_all.
Context `{PT : TablePolicy Q K V, DN : TableDenote Q K V W, PO : !TablePolicyOk Q K V W}.
Implicit Types (s : Segment K V) (b : Bucket K V) (i j : nat) (e : entry Q W).

(** [TraverseAll] calls back once per entry. *)
Lemma TraverseAll_spec {S} s (cb : Iterator → S → res S) (st : S) : seg_shape s →
  TraverseAll s cb st = rfold (λ x, cb x.1) (seg_from s 0 0) st.
Proof.
  intros Hs. unfold TraverseAll. rewrite seg_from_bind, rfold_bind. apply rfold_ext_in.
  intros i st' [_ Hi]%elem_of_seq. destruct (get_bucket s i Hs) as (b & Hb & Hg & Hw); [lia|].
  rewrite Hg, bind_ok, ForEachSlot_spec by done. unfold occ_at. rewrite Hb. simpl.
  by rewrite occ_from_0, rfold_fmap.
Qed.

End traverse_all.

Section clear_segment.
Context `{PT : TablePolicy Q K V, DN : TableDenote Q K V W, PO : !TablePolicyOk Q K V W, DO : !TableDestroyOk Q K V W}.
Implicit Types (s : Segment K V) (b : Bucket K V) (i j p : nat) (e : entry Q W).

Lemma rfold_tt {A} (f : A → res unit) (l : list A) : Forall (λ x, f x = Ok tt) l → rfold (λ x _, f x) l tt = Ok tt.
Proof. induction 1 as [|x l Hx _ IH]; [done|]. cbn [rfold]. by rewrite Hx, bind_ok. Qed.

Lemma destroy_segment_ok s : seg_shape s → destroy_segment s = Ok tt.
Proof.
  intros Hs. apply rfold_tt, Forall_rev, Forall_forall. intros b (b0 & -> & Hb)%list_elem_of_fmap.
  apply list_elem_of_lookup_1 in Hb as [i Hb]. pose proof (sh_wf _ Hs _ _ Hb) as [_ _ _ _ Hka Hva].
  unfold destroy_bucket. rewrite !rfold_tt; [done|apply Forall_rev; eapply Forall_impl; eauto using dtor_key, dtor_value..].
Qed.

(** [s'] is [s] after the objects at the positions [seen] were destroyed. *)
Record destroyed s s' (seen : list Iterator) : Prop := {
  de_len : length (bucket_ s') = length (bucket_ s);
  de_keep : keep s s';
  de_bucket : ∀ i b, bucket_ s !! i = Some b → ∃ b', bucket_ s' !! i = Some b' ∧ base b' = base b ∧
    length (key b') = kSlotNum ∧ length (value b') = kSlotNum ∧
    Forall key_asg (key b') ∧ Forall val_asg (value b') ∧
    ∀ j, mkIt i j ∉ seen → key b' !! j = key b !! j ∧ value b' !! j = value b !! j;
}.

Lemma destroyed_refl s : seg_shape s → destroyed s s [].
Proof.
  intros Hs. split; [done|done|]. intros i b Hb. exists b. pose proof (sh_wf _ Hs _ _ Hb) as [].
  split_and!; done.
Qed.

Lemma destroyed_step s s' seen it e : seg_shape s → destroyed s s' seen → holds s (index it) (slot it) e →
  it ∉ seen → runs (destroy_slot s' (index it) (slot it)) (λ s'', destroyed s s'' (seen ++ [it])).
Proof.
  intros Hs [Hl Hk Hb] Hh Hn. destruct it as [i j]. cbn [index slot] in *.
  destruct (holds_contents s i j e Hs Hh) as (b & k & v & _ & Hbi & Hk0 & Hv0 & Hok & Hvok & _ & _ & Ho).
  apply aget_inv in Hk0, Hv0. destruct (Hb i b Hbi) as (b' & Hb' & Hbase & Hlk & Hlv & Hka & Hva & Hsame).
  destruct (Hsame j Hn) as [Ek Ev].
  eapply runs_mono; [apply (destroy_slot_spec s' i j b' k v Hb');
    [unfold occupied; by rewrite Hbase|by rewrite Ek|by rewrite Ev|done|done]|].
  intros s'' (k' & v' & Hk' & Hv' & ->). split; simpl.
  - by rewrite length_insert.
  - done.
  - intros i1 b1 Hb1. destruct (decide (i = i1)) as [<-|Hne].
    + rewrite Hbi in Hb1. injection Hb1 as <-. eexists. rewrite list_lookup_insert_eq by by eapply lookup_lt_Some.
      split; [done|]. simpl. rewrite !length_insert. split_and!; try done; [by apply Forall_insert..|].
      intros j1 Hj1. rewrite elem_of_app, list_elem_of_singleton in Hj1.
      rewrite !list_lookup_insert_ne by naive_solver. apply Hsame. naive_solver.
    + destruct (Hb i1 b1 Hb1) as (b1' & Hb1' & ? & ? & ? & ? & ? & Hsame1). exists b1'.
      rewrite list_lookup_insert_ne by done. split_and!; try done.
      intros j1 Hj1. apply Hsame1. intros Hin. apply Hj1, elem_of_app. by left.
Qed.

Lemma clear_segment_spec (t : DashTable K V) p s : heap_ t !! p = Some s → seg_wf s →
  runs (clear_segment p t) (λ t', ∃ s', t' = store t p s' ∧ seg_wf s' ∧ keep s s' ∧ seg_items s' = []).
Proof.
  intros Hp [Hs _]. unfold clear_segment, deref. rewrite Hp, bind_ok, TraverseAll_spec by done.
  rbind (rfold_runs (λ x s', destroy_slot s' (index x.1) (slot x.1)) (seg_from s 0 0)
           (λ pre s', destroyed s s' pre.*1)).
  - by apply destroyed_refl.
  - intros pre [it e] post s' Heq Hd. rewrite fmap_app. simpl.
    pose proof (seg_from_NoDup s) as Hnd. rewrite Heq, fmap_app in Hnd. apply NoDup_app in Hnd as (_ & Hdis & _).
    apply (destroyed_step s s' _ it e); [done|done| |].
    + apply elem_of_seg_from; [done|]. rewrite Heq. apply elem_of_app. right. by left.
    + intros Hin. apply (Hdis it Hin). by left.
  - intros s' [Hl Hk Hb]. apply runs_ok. exists (Segment.Clear s'). split; [done|].
    destruct (blank_segment (Segment.Clear s')) as [Hw Hi].
    + simpl. by rewrite length_fmap, Hl, (sh_len _ Hs).
    + intros i b. simpl. rewrite list_lookup_fmap. destruct (bucket_ s' !! i) as [b'|] eqn:Hb'; [|done].
      intros E. injection E as <-. destruct (lookup_lt_is_Some_2 (bucket_ s) i) as [b Hbi].
      { rewrite <- Hl. by eapply lookup_lt_Some. }
      destruct (Hb i b Hbi) as (b2 & Hb2 & Hbase & Hlk & Hlv & Hka & Hva & _). rewrite Hb' in Hb2. injection Hb2 as <-.
      pose proof (bk_base _ (sh_wf _ Hs _ _ Hbi)) as [Hsl Hf Hst]. rewrite <- Hbase in Hsl, Hf, Hst.
      apply blank_intro; try done. apply Hst.
    + split_and!; done.
Qed.
End clear_segment.

(** * Clearing all segments *)

Section clear_all.
Context `{PT : TablePolicy Q K V, DN : TableDenote Q K V W, PO : !TablePolicyOk Q K V W, DO : !TableDestroyOk Q K V W}.
Implicit Types (t : DashTable K V) (s : Segment K V) (p i j G L b : nat).

(** [h] is the heap of [t] with the segments at the addresses [seen] emptied. *)
Definition cleared t (seen : list nat) (h : gmap nat (Segment K V)) : Prop :=
  ∀ p, h !! p = None ∧ heap_ t !! p = None ∨
    ∃ s s', heap_ t !! p = Some s ∧ h !! p = Some s' ∧ keep s s' ∧ seg_wf s' ∧ (p ∈ seen → seg_items s' = []).

Lemma cleared_refl t G : dir_wf t G → cleared t [] (heap_ t).
Proof.
  intros Hd p. destruct (heap_ t !! p) as [s|] eqn:Hp; [right|by left]. exists s, s.
  destruct (dw_block _ _ Hd _ _ Hp) as (L & b & Hb). split_and!; try done; [apply (bo_wf _ _ _ _ _ _ Hb)|by intros ?%elem_of_nil].
Qed.

Lemma cleared_seg_at t seen h sid p s : cleared t seen h → seg_at t sid = Ok (p, s) →
  ∃ s', seg_at (set_heap t h) sid = Ok (p, s') ∧ h !! p = Some s' ∧ keep s s' ∧ seg_wf s'.
Proof.
  intros Hc. unfold seg_at. destruct (aget (segment_ t) sid) as [p'|] eqn:Ep; [|done]. rewrite bind_ok. unfold deref at 1.
  destruct (Hc p') as [[_ ->]|(s0 & s' & Hs0 & Hs' & Hk & Hw & _)]; [done|]. rewrite Hs0, bind_ok. intros E. injection E as <- <-.
  exists s'. simpl. rewrite Ep, bind_ok. unfold deref. simpl. by rewrite Hs', bind_ok.
Qed.

Lemma cleared_NextSeg t seen h sid sid' : cleared t seen h → NextSeg t sid = Ok sid' → NextSeg (set_heap t h) sid = Ok sid'.
Proof.
  intros Hc. unfold NextSeg. intros Hn. apply bind_ok_inv in Hn as ([p s] & Hat & Hn).
  destruct (cleared_seg_at t seen h sid p s Hc Hat) as (s' & -> & _ & [Hk _] & _). rewrite bind_ok. simpl. by rewrite Hk.
Qed.

Lemma iterate_clear_spec t fuel sid l seen h : walk t sid l → (length l ≤ fuel)%nat → cleared t seen h →
  runs (iterate_distinct fuel sid (set_heap t h) clear_segment)
       (λ t', ∃ h', t' = set_heap t h' ∧ cleared t (seen ++ (ptr_seg <$> l).*1) h').
Proof.
  intros Hw. revert fuel seen h. induction Hw as [sid Hlen|sid sid' p s l Hat Hnext Hlt Hlen Hs Hw IH]; intros fuel seen h Hf Hc.
  - destruct fuel; simpl; rewrite (proj2 (Nat.ltb_ge _ _)) by done; apply runs_ok; exists h; by rewrite app_nil_r.
  - destruct fuel as [|fuel]; simpl in Hf; [lia|]. simpl. rewrite (proj2 (Nat.ltb_lt _ _)) by done.
    destruct (cleared_seg_at t seen h sid p s Hc Hat) as (s1 & Hat1 & Hs1 & Hk1 & Hw1).
    assert (aget (segment_ t) sid = Ok p) as ->.
    { unfold seg_at in Hat. apply bind_ok_inv in Hat as (p' & Ep & Hd). apply bind_ok_inv in Hd as (? & _ & E). by injection E as <- _. }
    rewrite bind_ok, (cleared_NextSeg t seen h sid sid'), bind_ok by done.
    rbind (clear_segment_spec (set_heap t h) p s1 Hs1 Hw1). intros t' (s2 & -> & Hw2 & Hk2 & Hi2).
    change (store (set_heap t h) p s2) with (set_heap t (<[p := s2]> h)).
    eapply runs_mono; [apply (IH fuel (seen ++ [p])); [lia|]|].
    + intros p'. destruct (decide (p = p')) as [<-|Hne].
      * right. exists s, s2. rewrite lookup_insert_eq. split_and!; try done. by apply (keep_trans s s1 s2).
      * rewrite lookup_insert_ne by done. destruct (Hc p') as [?|(s0 & s0' & ? & ? & ? & ? & Hin)]; [by left|right].
        exists s0, s0'. split_and!; try done. rewrite elem_of_app, list_elem_of_singleton. naive_solver.
    + intros t' (h' & -> & Hc'). exists h'. split; [done|]. by rewrite <- app_assoc in Hc'.
Qed.

(** After the first loop every segment is there and empty. *)
Definition emptied t (h : gmap nat (Segment K V)) : Prop :=
  ∀ p, h !! p = None ∧ heap_ t !! p = None ∨
    ∃ s s', heap_ t !! p = Some s ∧ h !! p = Some s' ∧ keep s s' ∧ seg_wf s' ∧ seg_items s' = [].

Lemma clear_all_spec t G : dir_wf t G →
  runs (iterate_distinct (length (segment_ t)) 0 t clear_segment) (λ t', ∃ h, t' = set_heap t h ∧ emptied t h).
Proof.
  intros Hd. destruct (walk_all t G Hd) as (l & Hw & Hp & Hlen).
  assert (t = set_heap t (heap_ t)) as E by by destruct t. rewrite E at 2.
  eapply runs_mono; [apply (iterate_clear_spec t _ 0 l []); [done..|by eapply cleared_refl]|].
  intros t' (h & -> & Hc). exists h. split; [done|]. intros p.
  destruct (Hc p) as [?|(s & s' & Hs & Hs' & Hk & Hw' & Hi)]; [by left|right]. exists s, s'. split_and!; try done.
  apply Hi. simpl. rewrite Hp. apply list_elem_of_fmap. exists (p, s). by rewrite elem_of_map_to_list.
Qed.

Lemma emptied_size t h : emptied t h → size h = size (heap_ t).
Proof.
  intros He. rewrite <- !size_dom. f_equal. apply set_eq. intros p. rewrite !elem_of_dom.
  destruct (He p) as [[-> ->]|(s & s' & -> & -> & _)]; [done|]. split; eauto.
Qed.

Lemma no_items t : (∀ p s, heap_ t !! p = Some s → seg_items s = []) → items t = [].
Proof.
  intros Hn. destruct (items t) as [|x l] eqn:E; [done|]. assert (x ∈ items t) as Hx by (rewrite E; left).
  apply elem_of_items in Hx as (p & s & Hp & Hx). rewrite (Hn p s Hp) in Hx. by apply elem_of_nil in Hx.
Qed.

Lemma emptied_wf t G h : dir_wf t G → emptied t h → dir_wf (set_size (set_heap t h) 0) G.
Proof.
  intros [Hdep Hmax Hinit Hlen Hlive Hblk Hnext Hun Hbk] He. split; simpl; rewrite ?(emptied_size t h He); try done.
  - intros j p Hj. destruct (Hlive j p Hj) as [s Hs]. destruct (He p) as [[_ ?]|(? & s' & _ & Hs' & _)]; [congruence|eauto].
  - intros p s' Hs'. destruct (He p) as [[? _]|(s & s1 & Hs & Hs1 & [Hk _] & Hw & Hi)]; [congruence|].
    rewrite Hs1 in Hs'. injection Hs' as <-. destruct (Hblk p s Hs) as (L & b & [H1 H2 H3 H4 H5 H6 H7]).
    exists L, b. split; try done; [by rewrite Hk|]. rewrite Hi. by intros x ?%elem_of_nil.
  - intros p Hp. destruct (He p) as [[? _]|(s & _ & Hs & _)]; [done|]. rewrite Hnext in Hs; done.
Qed.
End clear_all.

(** * Shrinking the directory *)

Section shrink.
Context `{PT : TablePolicy Q K V, DN : TableDenote Q K V W, PO : !TablePolicyOk Q K V W, DO : !TableDestroyOk Q K V W}.
Implicit Types (t : DashTable K V) (s : Segment K V) (p i j G I L b : nat) (ps : list nat).

(** The addresses of a walk. *)
Definition addrs (l : list (nat * nat * Segment K V)) : list nat := (ptr_seg <$> l).*1.

(** The state of the loop of [Clear] that keeps the first [2^I] segments, after
    the segments [ps] were visited up to directory index [src]. *)
Record shrinking t I ps src dest t' : Prop := {
  sk_dest : dest = (length ps `min` 2 ^ I)%nat;
  sk_le : (length ps ≤ src)%nat;
  sk_len : length (segment_ t') = length (segment_ t);
  sk_rest : ∀ j, (src ≤ j)%nat → segment_ t' !! j = segment_ t !! j;
  sk_kept : ∀ j, (j < dest)%nat → segment_ t' !! j = ps !! j;
  sk_heap : ∀ p, heap_ t' !! p =
    if decide (p ∈ take (2 ^ I) ps) then (λ s, set_local_depth s (initial_depth_ t)) <$> heap_ t !! p
    else if decide (p ∈ ps) then None else heap_ t !! p;
  sk_size : size_ t' = size_ t;
  sk_buckets : bucket_count_ t' = u32 (Z.of_nat (kTotalBuckets * dest));
  sk_init : initial_depth_ t' = initial_depth_ t;
  sk_depth : global_depth_ t' = global_depth_ t;
  sk_next : next_ t' = next_ t;
}.

Lemma take_snoc_lt {A} n (l : list A) x : (length l < n)%nat → take n (l ++ [x]) = take n l ++ [x].
Proof. intros Hl. rewrite !take_ge; [done|lia|rewrite length_app; simpl; lia]. Qed.

Lemma take_snoc_ge {A} n (l : list A) x : (n ≤ length l)%nat → take n (l ++ [x]) = take n l.
Proof. intros Hl. by rewrite take_app_le. Qed.

Lemma shrink_step t I ps src dest t' p s sid' : shrinking t I ps src dest t' →
  seg_at t src = Ok (p, s) → segment_ t !! src = Some p → heap_ t !! p = Some s → p ∉ ps → (src < sid')%nat →
  (dest < 2 ^ I)%nat →
  runs (l ← aset (segment_ t') dest p;
        Ok (set_segments (set_bucket_count (store t' p (set_local_depth s (initial_depth_ t)))
             (u32 (bucket_count_ t' + Z.of_nat kTotalBuckets))) l))
       (shrinking t I (ps ++ [p]) sid' (S dest)).
Proof.
  intros [Hdest Hle Hlen Hrest Hkept Hheap Hsz Hbk Hin Hgd Hnx] Hat Hp Hs Hn Hlt Hd.
  pose proof (lookup_lt_Some _ _ _ Hp) as Hsrc.
  destruct (lookup_lt_is_Some_2 (segment_ t') dest) as [y Hy]; [lia|]. rewrite (aset_some _ _ _ _ Hy), bind_ok.
  apply runs_ok. assert (length ps < 2 ^ I)%nat as Hps by lia.
  split; simpl; rewrite ?length_app; simpl; try done; try lia.
  - by rewrite length_insert.
  - intros j Hj. rewrite list_lookup_insert_ne by lia. apply Hrest. lia.
  - intros j Hj. destruct (decide (j = dest)) as [->|].
    + rewrite list_lookup_insert_eq by lia. rewrite lookup_app_r by lia. by replace (dest - length ps)%nat with 0%nat by lia.
    + rewrite list_lookup_insert_ne by done. rewrite Hkept by lia. rewrite lookup_app_l by lia. done.
  - intros p'. rewrite take_snoc_lt by done. destruct (decide (p = p')) as [<-|Hne].
    + rewrite lookup_insert_eq, decide_True by (apply elem_of_app; right; by left). by rewrite Hs.
    + rewrite lookup_insert_ne, Hheap by done.
      assert (p' ∈ take (2 ^ I) ps ++ [p] ↔ p' ∈ take (2 ^ I) ps) as E1
        by (rewrite elem_of_app, list_elem_of_singleton; naive_solver).
      assert (p' ∈ ps ++ [p] ↔ p' ∈ ps) as E2 by (rewrite elem_of_app, list_elem_of_singleton; naive_solver).
      by rewrite (decide_ext _ _ _ _ E1), (decide_ext _ _ _ _ E2).
  - rewrite Hbk, uN_add_l by done. f_equal. lia.
Qed.

Lemma shrink_drop t I ps src dest t' p s sid' : shrinking t I ps src dest t' →
  heap_ t !! p = Some s → p ∉ ps → (src < sid')%nat → (2 ^ I ≤ dest)%nat →
  shrinking t I (ps ++ [p]) sid' dest (set_heap t' (delete p (heap_ t'))).
Proof.
  intros [Hdest Hle Hlen Hrest Hkept Hheap Hsz Hbk Hin Hgd Hnx] Hs Hn Hlt Hd.
  assert (2 ^ I ≤ length ps)%nat as Hps by lia.
  split; simpl; rewrite ?length_app; simpl; try done; try lia.
  - intros j Hj. apply Hrest. lia.
  - intros j Hj. rewrite Hkept by done. rewrite lookup_app_l by lia. done.
  - intros p'. rewrite take_snoc_ge by done. destruct (decide (p = p')) as [<-|Hne].
    + rewrite lookup_delete_eq, decide_False, decide_True; [done|apply elem_of_app; right; by left|].
      intros Hin'. apply Hn. by eapply subseteq_take in Hin'.
    + rewrite lookup_delete_ne, Hheap by done.
      assert (p' ∈ ps ++ [p] ↔ p' ∈ ps) as E2 by (rewrite elem_of_app, list_elem_of_singleton; naive_solver).
      by rewrite (decide_ext _ _ _ _ E2).
Qed.

Lemma seg_at_inv t j p s : seg_at t j = Ok (p, s) → segment_ t !! j = Some p ∧ heap_ t !! p = Some s.
Proof.
  unfold seg_at. intros (p' & Hp & Hd)%bind_ok_inv. apply bind_ok_inv in Hd as (s' & Hs & E). injection E as -> ->.
  apply aget_inv in Hp. split; [done|]. unfold deref in Hs. destruct (heap_ t !! p); congruence.
Qed.

Lemma shrinking_live t I ps src dest t' p s : shrinking t I ps src dest t' → p ∉ ps → seg_at t src = Ok (p, s) →
  seg_at t' src = Ok (p, s) ∧ ∀ sid', NextSeg t src = Ok sid' → NextSeg t' src = Ok sid'.
Proof.
  intros Hsk Hn Hat. destruct (seg_at_inv _ _ _ _ Hat) as [Hp Hs].
  assert (seg_at t' src = Ok (p, s)) as Hat'.
  { apply seg_at_ok; [by rewrite (sk_rest _ _ _ _ _ _ Hsk)|]. rewrite (sk_heap _ _ _ _ _ _ Hsk).
    rewrite decide_False by (intros Hin; apply Hn; by eapply subseteq_take). by rewrite decide_False. }
  split; [done|]. intros sid'. unfold NextSeg. rewrite Hat, Hat', !bind_ok. by rewrite (sk_depth _ _ _ _ _ _ Hsk).
Qed.

Lemma shrink_loop_spec t G I fuel src l ps dest t' : dir_wf t G → (I ≤ G)%nat →
  initial_depth_ t = Z.of_nat I → walk t src l → NoDup (ps ++ addrs l) → (length l ≤ fuel)%nat →
  shrinking t I ps src dest t' → (src ≤ length ps * 2 ^ (G - I))%nat →
  runs (shrink_loop fuel src dest (2 ^ I) t')
       (λ t'', ∃ src' dest', shrinking t I (ps ++ addrs l) src' dest' t'' ∧
               (2 ^ G ≤ length (ps ++ addrs l) * 2 ^ (G - I))%nat).
Proof.
  intros Hd HI Hinit Hw. revert fuel ps dest t'.
  induction Hw as [src Hlen|src sid' p s l Hat Hnext Hlt Hlen Hs Hw IH]; intros fuel ps dest t' Hnd Hf Hsk Hsrc.
  - change (addrs []) with (@nil nat). rewrite app_nil_r. rewrite (dw_len _ _ Hd) in Hlen.
    destruct fuel; simpl; rewrite (sk_len _ _ _ _ _ _ Hsk), (dw_len _ _ Hd), (proj2 (Nat.ltb_ge _ _)) by done;
      apply runs_ok; exists src, dest; (split; [done|lia]).
  - destruct fuel as [|fuel]; simpl in Hf; [lia|]. cbn [shrink_loop].
    rewrite (sk_len _ _ _ _ _ _ Hsk), (proj2 (Nat.ltb_lt _ _)) by done.
    change (addrs ((src, p, s) :: l)) with (p :: addrs l) in *.
    assert (p ∉ ps) as Hn by (apply NoDup_app in Hnd as (_ & Hdis & _); intros Hin; apply (Hdis p Hin); left).
    destruct (shrinking_live t I ps src dest t' p s Hsk Hn Hat) as [-> Hnx]. rewrite bind_ok, (Hnx _ Hnext), bind_ok.
    destruct (seg_at_inv _ _ _ _ Hat) as [Hp _].
    assert ((sid' ≤ length (ps ++ [p]) * 2 ^ (G - I))%nat) as Hsid'.
    { destruct (dw_block _ _ Hd _ _ Hs) as (L & b & Hb). rewrite (NextSeg_spec t G src p s L b) in Hnext by done.
      injection Hnext as <-. pose proof (bo_init _ _ _ _ _ _ Hb). rewrite length_app. simpl.
      assert (2 ^ (G - L) ≤ 2 ^ (G - I))%nat by (apply Nat.pow_le_mono_r; lia). lia. }
    rewrite (cons_middle p ps), (app_assoc ps [p]) in Hnd. rewrite (cons_middle p ps), (app_assoc ps [p]).
    destruct (Nat.ltb_spec dest (2 ^ I)) as [Hlt'|Hge].
    + rewrite (sk_init _ _ _ _ _ _ Hsk).
      pose proof (shrink_step t I ps src dest t' p s sid' Hsk Hat Hp Hs Hn Hlt Hlt') as Hst.
      destruct Hst as (t1 & E & Hst). apply bind_ok_inv in E as (l1 & El & E). injection E as <-.
      cbn [segment_ set_bucket_count store set_heap]. rewrite El, bind_ok. apply IH; done || lia.
    + destruct (dw_block _ _ Hd _ _ Hs) as (L & b & Hb). rewrite destroy_segment_ok, bind_ok by apply (bo_wf _ _ _ _ _ _ Hb).
      apply IH; [done|lia|by eapply shrink_drop|done].
Qed.

Lemma shrunk_wf t G I ps src dest t' : dir_wf t G → (I ≤ G)%nat → initial_depth_ t = Z.of_nat I →
  (∀ p s, heap_ t !! p = Some s → seg_wf s ∧ seg_items s = [] ∧ p ∈ ps) → NoDup ps → (∀ p, p ∈ ps → is_Some (heap_ t !! p)) →
  (2 ^ I ≤ length ps)%nat → shrinking t I ps src dest t' →
  let t'' := set_segments (set_unique (set_global_depth t' (Z.of_nat I)) (Z.of_nat (2 ^ I))) (take (2 ^ I) (segment_ t')) in
  dir_wf t'' I ∧ items t'' = [].
Proof.
  intros Hd HI Hinit Hemp Hnd Hlive Hps [Hdest Hle Hlen Hrest Hkept Hheap Hsz Hbk Hin Hgd Hnx] t''.
  assert (dest = 2 ^ I)%nat as E by lia. rewrite E in *.
  assert (∀ p, heap_ t' !! p = if decide (p ∈ take (2 ^ I) ps)
    then (λ s, set_local_depth s (Z.of_nat I)) <$> heap_ t !! p else None) as Hheap'.
  { intros p. rewrite Hheap, Hinit. destruct (decide (p ∈ take _ ps)); [done|]. destruct (decide (p ∈ ps)); [done|].
    destruct (heap_ t !! p) as [s|] eqn:Hs; [|done]. by destruct (Hemp p s Hs) as (_ & _ & ?). }
  assert (∀ p s, heap_ t' !! p = Some s → p ∈ take (2 ^ I) ps ∧ local_depth_ s = Z.of_nat I ∧ seg_wf s ∧ seg_items s = []) as Hlk.
  { intros p s. rewrite Hheap'. destruct (decide _) as [Hp|]; [|done]. destruct (heap_ t !! p) as [s0|] eqn:Hs0; [|done].
    intros Es. injection Es as <-. destruct (Hemp p s0 Hs0) as (Hw & Hi & _).
    destruct (seg_wf_buckets s0 (set_local_depth s0 (Z.of_nat I)) eq_refl Hw) as [Hw' Hi']. by rewrite Hi'. }
  assert (size (heap_ t') = 2 ^ I)%nat as Hsize.
  { assert (dom (heap_ t') = list_to_set (take (2 ^ I) ps)) as Hdom.
    { apply set_eq. intros p. rewrite elem_of_dom, elem_of_list_to_set, Hheap'.
      destruct (decide _) as [Hp|]; [|split; [by intros []|done]]. split; [done|]. intros _.
      apply fmap_is_Some, Hlive. by eapply subseteq_take. }
    rewrite <- size_dom, Hdom, size_list_to_set, length_take; [lia|]. rewrite <- (take_drop (2 ^ I) ps) in Hnd. by apply NoDup_app in Hnd as (? & _). }
  assert (Z.of_nat (2 ^ I) < 2 ^ 32) as H32.
  { rewrite Nat2Z.inj_pow. apply Z.pow_lt_mono_r; try lia. pose proof (dw_max _ _ Hd). lia. }
  split; [|apply no_items; intros p s Hp; apply (Hlk p s Hp)].
  split; simpl.
  - done.
  - pose proof (dw_max _ _ Hd). lia.
  - rewrite Hin, Hinit. lia.
  - rewrite length_take, Hlen, (dw_len _ _ Hd). assert (2 ^ I ≤ 2 ^ G)%nat by (apply Nat.pow_le_mono_r; lia). lia.
  - intros j p Hj. apply lookup_take_Some in Hj as [Hj Hlt]. rewrite Hkept in Hj by lia.
    rewrite Hheap', decide_True by (apply elem_of_take; by exists j). apply fmap_is_Some, Hlive.
    by eapply list_elem_of_lookup_2.
  - intros p s Hs. destruct (Hlk p s Hs) as (Hp & Hld & Hw & Hi). apply elem_of_take in Hp as (b & Hb & Hlt).
    exists I, b. split; simpl; try done.
    + rewrite Hin, Hinit. lia.
    + intros j Hj. rewrite Nat.sub_diag, Nat.div_1_r. rewrite lookup_take_lt, Hkept by lia. split; [|by intros ->].
      intros Hj'. by eapply NoDup_lookup.
    + rewrite Hi. by intros x ?%elem_of_nil.
  - intros p Hp. destruct (heap_ t' !! p) as [s|] eqn:Hs; [|done]. apply Hlk in Hs as (Hin' & _).
    destruct (Hlive p) as [s0 Hs0]; [by eapply subseteq_take|]. rewrite Hnx in Hp. by rewrite (dw_next _ _ Hd) in Hs0.
  - rewrite Hsize, uN_small; [done|lia].
  - by rewrite Hbk, Hsize.
Qed.
End shrink.

(** * Clear *)

Section clear.
Context `{PT : TablePolicy Q K V, DN : TableDenote Q K V W, PO : !TablePolicyOk Q K V W, DO : !TableDestroyOk Q K V W}.
Implicit Types (t : DashTable K V) (G I : nat).

Lemma vresize_take (l : list nat) n : (n ≤ length l)%nat → vresize l n = take n l.
Proof. intros Hn. unfold vresize. replace (n - length l)%nat with 0%nat by lia. apply app_nil_r. Qed.

Lemma shrinking_start t I : shrinking t I [] 0 0 (set_bucket_count t 0).
Proof.
  split; simpl; try done; try lia; try (by intros j Hj; lia); try (by rewrite Nat.mul_0_r).
  intros p. by rewrite take_nil, !decide_False by apply not_elem_of_nil.
Qed.

Lemma Clear_table_spec t G : dir_wf t G →
  runs (DashTable.Clear t) (λ t', ∃ I, initial_depth_ t = Z.of_nat I ∧ dir_wf t' I ∧ items t' = [] ∧ size_ t' = 0).
Proof.
  intros Hd. destruct (dw_init _ _ Hd) as [Hi0 HiG]. destruct (Z_of_nat_complete (initial_depth_ t) Hi0) as [I HI].
  unfold DashTable.Clear. rbind (clear_all_spec t G Hd). intros t1 (h & -> & He). cbv zeta.
  set (t1 := set_size (set_heap t h) 0). pose proof (emptied_wf t G h Hd He) as Hd1. fold t1 in Hd1.
  assert (∀ p s, heap_ t1 !! p = Some s → seg_wf s ∧ seg_items s = []) as Hemp.
  { intros p s Hs. destruct (He p) as [[? _]|(s0 & s1 & _ & Hs1 & _ & Hw & Hi)]; simpl in Hs; [congruence|].
    rewrite Hs1 in Hs. by injection Hs as <-. }
  change (initial_depth_ t1) with (initial_depth_ t). change (global_depth_ t1) with (global_depth_ t).
  rewrite HI, (dw_depth _ _ Hd). destruct (Z.ltb_spec (Z.of_nat I) (Z.of_nat G)) as [Hlt|Hge].
  - assert (Z.to_nat (Z.shiftl 1 (Z.of_nat I)) = 2 ^ I)%nat as ->.
    { rewrite Z.shiftl_1_l. apply Nat2Z.inj. rewrite Z2Nat.id by (apply Z.pow_nonneg; lia). by rewrite Nat2Z.inj_pow. }
    destruct (walk_all t1 G Hd1) as (l & Hw & Hp & Hlen).
    assert (addrs l ≡ₚ (map_to_list (heap_ t1)).*1) as Had by (unfold addrs; by rewrite Hp).
    assert (NoDup (addrs l)) as Hnd by (rewrite Had; apply NoDup_fst_map_to_list).
    rbind (shrink_loop_spec t1 G I _ 0 l [] 0 _ Hd1 ltac:(lia) HI Hw Hnd Hlen (shrinking_start t1 I)); [simpl; lia|].
    intros t2 (src & dest & Hsk & Hbig). rewrite app_nil_l in Hsk, Hbig. apply runs_ok. exists I.
    pose proof (shrunk_wf t1 G I (addrs l) src dest t2 Hd1) as Hfin.
    assert (2 ^ I ≤ length (addrs l))%nat as Hps.
    { rewrite (pow2_split G I) in Hbig by lia. pose proof (pow2_pos (G - I)). nia. }
    assert (2 ^ I ≤ length (segment_ t2))%nat as Hlen2.
    { rewrite (sk_len _ _ _ _ _ _ Hsk), (dw_len _ _ Hd1). apply Nat.pow_le_mono_r; lia. }
    assert (∀ p, p ∈ addrs l ↔ is_Some (heap_ t1 !! p)) as Hin.
    { intros p. rewrite Had, list_elem_of_fmap. split.
      - intros ([p' s] & -> & Hps')%id. apply elem_of_map_to_list in Hps'. eauto.
      - intros [s Hs]. exists (p, s). by rewrite elem_of_map_to_list. }
    destruct Hfin as [Hd2 Hi2]; try done; [lia| |by intros p ?%Hin|].
    { intros p s Hs. destruct (Hemp p s Hs). split_and!; [done..|]. apply Hin. eauto. }
    cbn [segment_ set_unique set_global_depth]. rewrite vresize_take by done.
    rewrite (sk_init _ _ _ _ _ _ Hsk). change (initial_depth_ t1) with (initial_depth_ t). rewrite HI.
    split_and!; [done..|]. apply (sk_size _ _ _ _ _ _ Hsk).
  - replace G with I in * by lia. apply runs_ok. exists I. split_and!; [done|done| |done].
    apply no_items. intros p s Hs. by apply Hemp in Hs as [_ ?].
Qed.
End clear.
