(* ===== verification/DashMap.v ===== *)
(** DashMap: a DashTable refines a finite map from keys to values. *)
From stdpp Require Import gmap.
From S2P Require Import Prelude Policy SlotBitmap BucketBase Bucket Segment SegmentInv SegmentOps SegmentSplit DashTable DashTableInv DashTableGrow DashTableOps DashTableErase.
Local Open Scope Z_scope.

Section map.
Context `{PT : TablePolicy Q K V, DN : TableDenote Q K V W, PO : !TablePolicyOk Q K V W, AO : !TableAssignOk Q K V W} `{EqDecision Q, Countable Q}.
Implicit Types (t : DashTable K V) (m : gmap Q W) (q : Q) (w : W).

(** The map a table stands for. *)
Definition to_map t : gmap Q W := list_to_map (items t).
Definition rep t m : Prop := table_wf t ∧ to_map t = m.

Lemma rep_lookup t m q w : rep t m → (q, w) ∈ items t ↔ m !! q = Some w.
Proof.
  intros [(G & _ & Hnd & _) <-]. unfold to_map. split; [by apply elem_of_list_to_map_1|].
  apply elem_of_list_to_map_2.
Qed.

Lemma rep_keys t m q : rep t m → q ∈ (items t).*1 ↔ is_Some (m !! q).
Proof.
  intros Hr. rewrite list_elem_of_fmap. split.
  - intros ([q' w] & -> & Hin). exists w. by apply (rep_lookup t m q' w).
  - intros [w Hw]. exists (q, w). split; [done|]. by apply (rep_lookup t m q w).
Qed.

(** [size()] is the size of the map, as a [size_t]. *)
Lemma rep_size t m : rep t m → size_ t = u64 (Z.of_nat (size m)).
Proof.
  intros [(G & _ & Hnd & Hsz) <-]. rewrite Hsz. do 2 f_equal. unfold to_map.
  rewrite <- (length_map_to_list (list_to_map (items t) : gmap Q W)).
  apply Permutation_length. symmetry. by apply map_to_list_to_map.
Qed.

Lemma to_map_perm t t' : NoDup (items t').*1 → items t' ≡ₚ items t → to_map t' = to_map t.
Proof. intros Hnd Hp. unfold to_map. by apply list_to_map_proper. Qed.

Lemma to_map_cons t t' q w : NoDup (items t').*1 → items t' ≡ₚ (q, w) :: items t → to_map t' = <[q := w]> (to_map t).
Proof. intros Hnd Hp. unfold to_map. by rewrite (list_to_map_proper _ _ Hnd Hp). Qed.

Lemma insert_post_true t m q w t' it : rep t m → insert_post t q w t' it true →
  m !! q = None ∧ rep t' (<[q := w]> m) ∧ ∃ e, t_holds t' it e ∧ kv e = (q, w).
Proof.
  intros Hr ([G Hd] & Hnd & Hnin & Hi & Hsz & He). split; [|split; [|done]].
  - apply eq_None_not_Some. by rewrite <- (rep_keys t m q Hr).
  - split; [exists G; split_and!; try done|].
    + rewrite Hsz, Hi. destruct Hr as [(_ & _ & _ & ->) _]. rewrite uN_add_l by done. simpl. f_equal. lia.
    + rewrite (to_map_cons t t' q w Hnd Hi). by destruct Hr as [_ <-].
Qed.

Lemma insert_post_false t m q w t' it : rep t m → insert_post t q w t' it false →
  is_Some (m !! q) ∧ rep t' m ∧ ∃ e, t_holds t' it e ∧ e_key e = q.
Proof.
  intros Hr ([G Hd] & Hnd & Hi & Hsz & e & He & Hk). split; [|split; [|by exists e]].
  - rewrite <- (rep_keys t m q Hr), <- Hi, <- Hk. pose proof (t_holds_items t' G it e Hd He) as Hin.
    apply list_elem_of_fmap. by exists (kv e).
  - split; [exists G; split_and!; try done|].
    + rewrite Hsz, Hi. by destruct Hr as [(_ & _ & _ & ->) _].
    + rewrite (to_map_perm t t' Hnd Hi). by destruct Hr as [_ <-].
Qed.

Lemma InsertInternal_spec t m q v D fuel force : rep t m → val_ok v → can_insert D q (items t) → (D < fuel)%nat →
  (force = true → m !! q = None) →
  runs (InsertInternal fuel t q v force) (λ '(t', it, r), insert_post t q (val_of v) t' it r).
Proof.
  intros Hr Hv Hci Hfuel Hf. pose proof Hr as [(G & Hd & Hnd & _) _]. unfold InsertInternal.
  rewrite (SegmentId_prefix t G q Hd).
  destruct (key_segment t G q Hd) as (p & s & L & Hp & Hs & Hb & _).
  apply (insert_loop_spec D fuel t G L (FromQuery q) v force); try done; [|by exists p, s|lia|lia].
  intros Hforce. cbn [src_key]. rewrite (rep_keys t m q Hr), (Hf Hforce). by apply is_Some_None.
Qed.

Lemma InsertNew_spec t m q v D fuel : rep t m → val_ok v → can_insert D q (items t) → (D < fuel)%nat →
  m !! q = None →
  runs (InsertNew fuel t q v) (λ '(t', it), rep t' (<[q := val_of v]> m) ∧
    ∃ e, t_holds t' it e ∧ kv e = (q, val_of v)).
Proof.
  intros Hr Hv Hci Hfuel Hnone. unfold InsertNew.
  rbind (InsertInternal_spec t m q v D fuel true Hr Hv Hci Hfuel); [done|]. intros [[t' it] [|]] Hpost; apply runs_ok.
  - by destruct (insert_post_true _ _ _ _ _ _ Hr Hpost) as (_ & Hrep & He).
  - destruct (insert_post_false _ _ _ _ _ _ Hr Hpost) as ([w Hw] & _). congruence.
Qed.

(** A table whose value at one key was changed. *)
Lemma updated_rep t m t' G e w : rep t m → kv e ∈ items t → dir_wf t' G → size_ t' = size_ t →
  kv e :: items t' ≡ₚ (e_key e, w) :: items t → rep t' (<[e_key e := w]> m).
Proof.
  intros Hr Hin Hd Hsz Hp. pose proof Hr as [(_ & _ & Hnd & Hsz0) Hm].
  apply elem_of_Permutation in Hin as [l Hl]. rewrite Hl, Permutation_swap in Hp. apply Permutation_cons_inv in Hp.
  rewrite Hl in Hnd. unfold kv in Hnd. simpl in Hnd.
  assert (NoDup (items t').*1) as Hnd' by by rewrite Hp.
  split; [exists G; split_and!; [done..|]|].
  - by rewrite Hsz, Hsz0, Hp, Hl.
  - unfold to_map. rewrite (list_to_map_proper _ _ Hnd' Hp), <- Hm. unfold to_map.
    rewrite (list_to_map_proper (items t) (kv e :: l)); [|by rewrite Hl|done]. simpl. by rewrite insert_insert_eq.
Qed.

Lemma erased_rep t m t' G e : rep t m → erased t t' G e →
  m !! e_key e = Some (e_val e) ∧ rep t' (delete (e_key e) m).
Proof.
  intros Hr [Hd Hi Hsz]. pose proof Hr as [(_ & _ & Hnd & Hsz0) Hm].
  assert (NoDup ((kv e :: items t').*1)) as Hnd' by by rewrite <- Hi.
  pose proof Hnd' as Hnd2. rewrite fmap_cons in Hnd2. apply NoDup_cons in Hnd2 as [Hn Hnd2].
  assert (m = <[e_key e := e_val e]> (to_map t')) as Em.
  { rewrite <- Hm. by apply to_map_cons; [..|rewrite Hi]. }
  split; [rewrite Em; apply lookup_insert_eq|]. split.
  - exists G. split_and!; [done..|]. rewrite Hsz, Hsz0, Hi. change (u64 (?x) - 1) with (u64 x + -1).
    rewrite uN_add_l by done. simpl. f_equal. lia.
  - rewrite Em, delete_insert_id; [done|]. apply not_elem_of_list_to_map_1. done.
Qed.
End map.

Section refinement.
Context `{PT : TablePolicy Q K V, DN : TableDenote Q K V W, PO : !TablePolicyOk Q K V W, DO : !TableDestroyOk Q K V W, AO : !TableAssignOk Q K V W} `{EqDecision Q, Countable Q}.
Implicit Types (t : DashTable K V) (m : gmap Q W) (q : Q) (w : W).

(** (C5) [Insert] implements insertion of a new key into the map and reports an
    existing key without changing the map; the iterator it returns points to
    the key. The growth loop ends within [fuel] turns, no assertion fails,
    when the key fits at directory depth [D < fuel]. *)
Theorem Insert_refines t m q v D fuel : rep t m → val_ok v → can_insert D q (items t) → (D < fuel)%nat →
  runs (DashTable.Insert fuel t q v) (λ '(t', it, r),
    rep t' (if r : bool then <[q := val_of v]> m else m) ∧ (r = true ↔ m !! q = None) ∧
    ∃ e, t_holds t' it e ∧ e_key e = q ∧ (r = true → e_val e = val_of v)).
Proof.
  intros Hr Hv Hci Hfuel. unfold DashTable.Insert.
  eapply runs_mono; [by eapply (InsertInternal_spec t m q v D fuel false)|]. intros [[t' it] [|]] Hpost.
  - destruct (insert_post_true _ _ _ _ _ _ Hr Hpost) as (Hnone & Hrep & e & He & Hkv). unfold kv in Hkv.
    split_and!; [done|by split|]. exists e. by simplify_eq.
  - destruct (insert_post_false _ _ _ _ _ _ Hr Hpost) as ([w Hw] & Hrep & e & He & Hk).
    split_and!; [done|by rewrite Hw|]. by exists e.
Qed.

(** [InsertNew] of an absent key implements insertion into the map. *)
Theorem InsertNew_refines t m q v D fuel : rep t m → val_ok v → can_insert D q (items t) → (D < fuel)%nat →
  m !! q = None →
  runs (InsertNew fuel t q v) (λ '(t', it), rep t' (<[q := val_of v]> m) ∧
    ∃ e, t_holds t' it e ∧ kv e = (q, val_of v)).
Proof. apply InsertNew_spec. Qed.

(** (C6) [Find] decides membership in the map, and the iterator it returns
    reads back the key and its value. *)
Theorem Find_refines t m q : rep t m →
  runs (Find t q) (λ r,
    match r with
    | Some it => ∃ w, m !! q = Some w ∧ runs (it_key t it) (λ k, key_ok k ∧ key_of k = q) ∧
                      runs (it_value t it) (λ v, val_ok v ∧ val_of v = w)
    | None => m !! q = None
    end).
Proof.
  intros Hr. pose proof Hr as [(G & Hd & _) _]. eapply runs_mono; [by eapply Find_spec|]. intros [it|].
  - intros (_ & e & He & <-). exists (e_val e). split.
    { apply (rep_lookup t m _ _ Hr). by apply (t_holds_items t G it e). }
    destruct He as (p & s & Hp & Hs & Hh). destruct (dw_block _ _ Hd _ _ Hs) as (L & b & Hb).
    unfold it_key, it_value. rewrite (seg_at_ok t _ p s Hp Hs), !bind_ok.
    split; [eapply Key_spec|eapply Value_spec]; try done; apply (bo_wf _ _ _ _ _ _ Hb).
  - intros Hn. apply eq_None_not_Some. by rewrite <- (rep_keys t m q Hr).
Qed.

(** (C7) [Erase] of an iterator removes exactly the key it points to. *)
Theorem Erase_refines t m it e : rep t m → t_holds t it e →
  runs (Erase t it) (λ t', rep t' (delete (e_key e) m)).
Proof.
  intros Hr He. pose proof Hr as [(G & Hd & _) _]. eapply runs_mono; [by eapply Erase_spec|].
  intros t' Her. by apply (erased_rep t m t' G e).
Qed.

(** [Erase] of a key removes it and returns 1, or returns 0 when the key
    is not stored and leaves the table as it is. *)
Theorem EraseKey_refines t m q : rep t m →
  runs (EraseKey t q) (λ '(t', n), rep t' (delete q m) ∧
    (n = 1%nat ∧ is_Some (m !! q) ∨ n = 0%nat ∧ m !! q = None ∧ t' = t)).
Proof.
  intros Hr. pose proof Hr as [(G & Hd & _) _]. eapply runs_mono; [by eapply EraseKey_spec|].
  intros [t' n] [(-> & -> & Hn)|(-> & e & <- & Her)].
  - assert (m !! q = None) as Hnone by (apply eq_None_not_Some; by rewrite <- (rep_keys t m q Hr)).
    split; [by rewrite delete_id|]. by right.
  - destruct (erased_rep t m t' G e Hr Her) as [Hw Hrep]. split; [done|]. left. eauto.
Qed.

(** A new table of [2^G] segments stands for the empty map. *)
Theorem new_table_refines G : (G ≤ 31)%nat → runs (new_table (Z.of_nat G)) (λ t, rep t ∅).
Proof.
  intros HG. eapply runs_mono; [by apply new_table_spec|]. intros t (Hd & Hi & Hsz).
  split; [|unfold to_map; by rewrite Hi]. exists G. rewrite Hi, Hsz. split_and!; [done|constructor|done].
Qed.
End refinement.
