(* ===== verification/DashSpec.v ===== *)
(** DashSpec: what the operations below and beside insertion promise: the
    whole-table operations (Clear, iteration, cursor scans, growth) in terms of
    the map a table stands for, and the operations of segments and buckets; and the
    destructor. *)
From stdpp Require Import gmap.
From S2P Require Import Prelude Policy SlotBitmap BucketBase Bucket Segment SegmentInv SegmentOps SegmentSplit DashTable DashTableInv DashTableGrow DashTableIter DashTableScan DashTableOps DashTableErase DashTableClear DashMap.
Local Open Scope Z_scope.

Section tables.
Context `{PT : TablePolicy Q K V, DN : TableDenote Q K V W, PO : !TablePolicyOk Q K V W, AO : !TableAssignOk Q K V W} `{EqDecision Q, Countable Q}.
Implicit Types (t : DashTable K V) (m : gmap Q W) (q : Q).

Lemma rep_items t m : rep t m → items t ≡ₚ map_to_list m.
Proof. intros [(G & _ & Hnd & _) <-]. unfold to_map. by rewrite map_to_list_to_map. Qed.

Lemma rep_of_items t t' m G : rep t m → dir_wf t' G → size_ t' = size_ t → items t' ≡ₚ items t → rep t' m.
Proof.
  intros [(G0 & _ & Hnd & Hsz) <-] Hd Hs Hi. split; [|by apply to_map_perm; [rewrite Hi|]].
  exists G. split_and!; [done|by rewrite Hi|by rewrite Hs, Hi].
Qed.

(** (C14) [for (auto it = t.begin(); it; ++it)] reaches every key of the map,
    with its value, exactly once. *)
Theorem iteration_complete t m : rep t m →
  runs (it ← begin t; collect (size m) t it)
       (λ its, ∃ es, Forall2 (t_holds t) its es ∧ kv <$> es ≡ₚ map_to_list m).
Proof.
  intros Hr. pose proof Hr as [(G & Hd & _) _]. destruct (begin_spec t G Hd) as (todo & Hp & Hb).
  rewrite (rep_items t m Hr) in Hp. rbind Hb. intros it Hit.
  assert (length todo = size m) as Hlen.
  { rewrite <- length_map_to_list, <- Hp, !length_fmap. done. }
  eapply runs_mono; [apply (collect_spec t G (size m) it todo Hd); [lia|exact Hit]|].
  intros its (es & -> & Hes). exists es. split; [done|]. rewrite snd_zip in Hp; [done|].
  apply Forall2_length in Hes. lia.
Qed.

(** (C15) Following the cursors of [Traverse] from 0 until the end calls back
    for every key of the map exactly once, whatever the callback computes, as
    long as it leaves the table alone. *)
Theorem scan_complete {S} t m (f : TableIterator → S → S) (st : S) : rep t m →
  runs (traverse_all (λ _, t) (kBucketNum * length (segment_ t)) 0 (λ it st, Ok (f it st)) st)
       (λ st', ∃ its es, st' = foldl (λ st it, f it st) st its ∧ Forall2 (t_holds t) its es ∧
                         kv <$> es ≡ₚ map_to_list m).
Proof.
  intros Hr. pose proof Hr as [(G & Hd & _) _].
  destruct (full_scan_spec t G f st Hd) as (todo & Hp & Hh & ->). apply runs_ok. exists todo.*1, todo.*2.
  split_and!; [done| |by rewrite <- (rep_items t m Hr)]. rewrite Forall2_fmap. apply Forall_Forall2_diag, Forall_forall.
  intros [it e] Hx. by apply Hh.
Qed.

(** A cursor names its position, and after the directory has doubled [k]
    times it names the first entry of the same block. *)
Theorem cursor_stable (d k s b : nat) : (d + k ≤ 31)%nat → (s < 2 ^ d)%nat → (b < 256)%nat →
  let c := Cursor (Z.of_nat d) (Z.of_nat s) (Z.of_nat b) in
  cursor_bucket_id c = Z.of_nat b ∧ cursor_segment_id c (Z.of_nat (d + k)) = Z.of_nat (s * 2 ^ k).
Proof. intros Hd Hs Hb. split; [apply Cursor_bucket; done || lia|by apply Cursor_segment]. Qed.

(** Doubling the directory keeps the map, and every key keeps its segment. *)
Theorem IncreaseDepth_refines t m G : rep t m → global_depth_ t = Z.of_nat G → (G < 31)%nat →
  runs (IncreaseDepth t (global_depth_ t + 1)) (λ t', rep t' m ∧ global_depth_ t' = Z.of_nat (S G) ∧
    ∀ q, segment_ t' !! SegmentId t' (HashFnQ q) = segment_ t !! SegmentId t (HashFnQ q)).
Proof.
  intros Hr HG Hlt. pose proof Hr as [(G' & Hd & _) _]. assert (G' = G) as -> by (pose proof (dw_depth _ _ Hd); lia).
  rewrite HG. eapply runs_mono; [by apply IncreaseDepth_spec|]. intros t' [Hd' Hids Hsz Hseg].
  split_and!; [|by apply Hd'|].
  - eapply rep_of_items; [done..|]. by rewrite (ids_only_items t t' Hids).
  - intros q. rewrite (SegmentId_prefix t' (S G)), (SegmentId_prefix t G), Hseg by done.
    rewrite (prefix_prefix (S G) G q) by lia. by replace (S G - G)%nat with 1%nat by lia.
Qed.

(** Splitting a segment that more than one directory entry points to
    keeps the map and puts its keys at one more bit of depth, unless too many
    of its keys move to the new segment with the same home bucket. *)
Theorem Split_refines t m i p s : rep t m → segment_ t !! i = Some p → heap_ t !! p = Some s →
  local_depth_ s < global_depth_ t → (∀ y, count y (rights (local_depth_ s + 1) (seg_items s)) ≤ kSlotNum)%nat →
  runs (DashTable.Split t i) (λ t', rep t' m ∧
    ∀ q, segment_ t !! SegmentId t (HashFnQ q) = Some p →
      ∃ p' s', segment_ t' !! SegmentId t' (HashFnQ q) = Some p' ∧ heap_ t' !! p' = Some s' ∧
               local_depth_ s' = local_depth_ s + 1).
Proof.
  intros Hr Hi Hp Hlt Hcnt. pose proof Hr as [(G & Hd & _) _].
  destruct (dw_block _ _ Hd _ _ Hp) as (L & b & Hb). pose proof (bo_depth _ _ _ _ _ _ Hb) as HL.
  rewrite (dw_depth _ _ Hd), HL in Hlt. rewrite HL in Hcnt |- *.
  assert (i < 2 ^ G)%nat as Hi2 by (rewrite <- (dw_len _ _ Hd); by eapply lookup_lt_Some).
  eapply runs_mono; [eapply may_total; [|by eapply (Split_table_spec t G i p s L b); try done; lia]|].
  { by apply balanced_fits. }
  intros t' [Hd' Hit Hsz Hin Hbl]. split; [by eapply rep_of_items|]. intros q Hq.
  rewrite (SegmentId_prefix t G) in Hq by done. rewrite (SegmentId_prefix t' G) by done.
  apply (block_prefix t G p s L b q Hd Hb) in Hq. destruct (Hbl q Hq) as (p' & s' & Hp' & Hs' & Hb').
  exists p', s'. split_and!; [done..|]. rewrite (bo_depth _ _ _ _ _ _ Hb'). lia.
Qed.
End tables.

Section clear.
Context `{PT : TablePolicy Q K V, DN : TableDenote Q K V W, PO : !TablePolicyOk Q K V W, DO : !TableDestroyOk Q K V W} `{EqDecision Q, Countable Q}.
Implicit Types (t : DashTable K V) (m : gmap Q W).

(** [Clear] empties the table and takes the directory back to the depth it
    was built with; nothing is used after it was destroyed. *)
Theorem Clear_refines t m : rep t m →
  runs (DashTable.Clear t) (λ t', rep t' (∅ : gmap Q W) ∧ size_ t' = 0 ∧ global_depth_ t' = initial_depth_ t).
Proof.
  intros Hr. pose proof Hr as [(G & Hd & _) _]. eapply runs_mono; [by eapply Clear_table_spec|].
  intros t' (I & HI & Hd' & Hi & Hsz). split_and!; [|done|by rewrite HI, (dw_depth _ _ Hd')].
  split; [|unfold to_map; by rewrite Hi]. exists I. rewrite Hi, Hsz. split_and!; [done|constructor|done].
Qed.
End clear.

(** * Segments and buckets *)

Section segments.
Context `{PT : TablePolicy Q K V, DN : TableDenote Q K V W, PO : !TablePolicyOk Q K V W, AO : !TableAssignOk Q K V W}.
Implicit Types (s : Segment K V) (q : Q) (u : KeySrc Q K) (v : V).

(** [FindIt] finds a key of the segment wherever it lives: its home
    bucket, the next one or the stash; and nothing else. *)
Theorem FindIt_correct s q : seg_wf s →
  runs (FindIt s (HashFnQ q) (λ k, Equal k q)) (λ r, (is_Some r ↔ q ∈ (seg_items s).*1) ∧
    ∀ it, r = Some it → ∃ e, holds s (index it) (slot it) e ∧ e_key e = q).
Proof.
  intros Hw. eapply runs_mono; [by apply FindIt_spec|]. intros [it|] Hf; unfold found_or_absent in Hf.
  - destruct Hf as (e & Hh & Hk). split; [|intros ? [= <-]; eauto]. split; [intros _|done].
    rewrite <- seg_items_key by apply Hw. exists e. split; [|done]. apply elem_of_seg_entries; [apply Hw|eauto].
  - split; [|done]. split; [by intros []|]. rewrite <- seg_items_key by apply Hw. intros (e & He & Hk). by destruct (Hf e He).
Qed.

(** (C13) [InsertUniq] adds exactly the new entry, displacing others if need
    be; it fails only when the home bucket, the next one and the whole stash
    are full, and then changes nothing. *)
Theorem InsertUniq_correct s u v spread : seg_wf s → src_ok u → val_ok v →
  runs (InsertUniq s u v (HashFnQ (src_key u)) spread) (λ '(s', r),
    match r with
    | Some it => seg_wf s' ∧ seg_items s' ≡ₚ (src_key u, val_of v) :: seg_items s ∧
                 ∃ e, holds s' (index it) (slot it) e ∧ kv e = (src_key u, val_of v)
    | None => s' = s ∧ crowded s (home (src_key u))
    end).
Proof.
  intros Hw Hu Hv. eapply runs_mono; [by apply InsertUniq_spec|]. intros [s' [it|]]; [|done].
  intros [[Hw' _ Hi Hat] _]. done.
Qed.

(** [Delete] removes exactly the entry at the position, with its stash
    reference when it lives in the stash. *)
Theorem Delete_correct s i j e : seg_wf s → holds s i j e →
  runs (Segment.Delete s (mkIt i j) (HashFnQ (e_key e))) (λ s', seg_wf s' ∧ seg_items s ≡ₚ kv e :: seg_items s' ∧
    ∀ k l e', (k, l) ≠ (i, j) → holds s' k l e' ↔ holds s k l e').
Proof. intros Hw Hh. eapply runs_mono; [by apply Delete_spec|]. intros s' []. done. Qed.

End segments.

Section stash.
Implicit Types (this next : BucketBase) (items : list (Z * nat)).

(** [UnsetStashPtr] undoes [SetStashPtr]: the references of a bucket and
    its neighbour account for the same stash entries again, also when the
    entry was only counted for want of a free cell. *)
Theorem stash_ptr_roundtrip this next fp pos items : stash_wf this → stash_wf next → (pos < 4)%nat →
  acct this next items → (length items < 255)%nat →
  runs ('(this, next) ← SetStashPtr this pos fp next; UnsetStashPtr this fp pos next)
       (λ '(this', next', _), acct this' next' items ∧ slotb_ this' = slotb_ this ∧ finger_arr_ this' = finger_arr_ this).
Proof.
  intros Hw Hwn Hpos Ha Hlen. rbind (SetStashPtr_spec this pos fp next items Hw Hwn Hpos Ha Hlen).
  intros [this1 next1] [Hf Ha1].
  eapply runs_mono; [apply (UnsetStashPtr_spec this1 fp pos next1 items (fr_wf _ _ _ _ Hf) (fr_wf_next _ _ _ _ Hf) Ha1)|].
  intros [[this2 next2] r] [Hf2 Ha2]. split; [done|].
  by rewrite (fr_slotb _ _ _ _ Hf2), (fr_finger _ _ _ _ Hf2), (fr_slotb _ _ _ _ Hf), (fr_finger _ _ _ _ Hf).
Qed.
End stash.

(** The SIMD search of a bucket returns the mask of the occupied slots
    with the fingerprint and the probe flag asked for. *)
Theorem Find_mask n b fp p i : (0 < n ≤ 16)%nat → base_wf n b →
  Z.testbit (BucketBase.Find n b fp p) (Z.of_nat i) = true ↔
  (i < n)%nat ∧ busy_bit (slotb_ b) i = true ∧ probe_bit (slotb_ b) i = p ∧ finger_arr_ b !! i = Some fp.
Proof.
  intros Hn Hb. rewrite Find_bit by done. rewrite !andb_true_iff, !bool_decide_eq_true, eqb_true_iff. naive_solver.
Qed.

(** [FindEmptySlot] of a bitmap that is not full returns its lowest free
    slot, and [SetSlot] then occupies exactly that slot. *)
Theorem FindEmptySlot_lowest n (b : SlotBitmap) p : (0 < n ≤ 28)%nat → wf n b → SlotBitmap.IsFull n b = false →
  runs (i ← FindEmptySlot n b; b' ← SlotBitmap.SetSlot b i p; Ok (i, b')) (λ '(i, b'),
    wf n b' ∧ busy_bit b i = false ∧ (∀ j, (j < i)%nat → busy_bit b j = true) ∧
    ∀ j, busy_bit b' j = busy_bit b j || bool_decide (i = j)).
Proof.
  intros Hn Hw Hf. rbind (FindEmptySlot_spec n Hn b Hw Hf). intros i (Hi & Hfree & Hlow).
  rbind (SetSlot_spec n Hn b i p Hw Hi Hfree). intros b' (Hw' & Hb & _). by apply runs_ok.
Qed.

Lemma swap_word_bit (d : Z) i j k : (i < j < 32)%nat →
  Z.testbit (swap_word d i j) (Z.of_nat k) =
  Z.testbit d (Z.of_nat (if decide (k = i) then j else if decide (k = j) then i else k)).
Proof.
  intros Hij. unfold swap_word. set (a := Z.land _ _).
  assert (∀ l, Z.testbit a (Z.of_nat l) =
    bool_decide (j = l) && xorb (Z.testbit d (Z.of_nat i)) (Z.testbit d (Z.of_nat j))) as Ha.
  { intros l. unfold a. rewrite Z.land_spec, Z.lxor_spec, bit_at_testbit, uN_testbit, Z.shiftl_spec by lia.
    rewrite andb_true_l. destruct (decide (j = l)) as [<-|]; [|by rewrite (bool_decide_false (j = l)), andb_false_r].
    rewrite !bool_decide_true, !andb_true_r by lia.
    simpl. by replace (Z.of_nat j - Z.of_nat (j - i)) with (Z.of_nat i) by lia. }
  rewrite Z.lxor_spec, Z.lor_spec, Z.shiftr_spec, Ha by lia.
  replace (Z.of_nat k + Z.of_nat (j - i)) with (Z.of_nat (k + (j - i))) by lia. rewrite Ha.
  destruct (decide (k = i)) as [->|]; [|destruct (decide (k = j)) as [->|]].
  - rewrite bool_decide_false, bool_decide_true by lia. simpl. by destruct (Z.testbit d _), (Z.testbit d _).
  - rewrite bool_decide_true, bool_decide_false by lia. simpl. by destruct (Z.testbit d _), (Z.testbit d _).
  - rewrite !bool_decide_false by lia. apply xorb_false_r.
Qed.

(** [SlotBitmap::Swap] exchanges two slots only when the first index is
    the larger one; in the other order it does nothing. *)
Theorem Swap_one_order (b : SlotBitmap) i j : (i < j < 32)%nat →
  SlotBitmap.Swap b i j = b ∧
  ∀ k, let k' := if decide (k = i) then j else if decide (k = j) then i else k in
    busy_bit (SlotBitmap.Swap b j i) k = busy_bit b k' ∧ probe_bit (SlotBitmap.Swap b j i) k = probe_bit b k'.
Proof.
  intros Hij. unfold SlotBitmap.Swap. rewrite (proj2 (Nat.ltb_ge _ _)), (proj2 (Nat.ltb_lt _ _)) by lia.
  split; [done|]. intros k. split; by apply swap_word_bit.
Qed.

(** * The destructor

    It destroys every segment once and gives its memory back. *)

Section dtor.
Context `{PT : TablePolicy Q K V, DN : TableDenote Q K V W, PO : !TablePolicyOk Q K V W, DO : !TableDestroyOk Q K V W}.
Implicit Types (t : DashTable K V) (s : Segment K V) (p G : nat).

(** [h] is the heap of [t] after the segments at the addresses [seen] are gone. *)
Definition freed t (seen : list nat) (h : gmap nat (Segment K V)) : Prop :=
  ∀ p, h !! p = if decide (p ∈ seen) then None else heap_ t !! p.

Lemma freed_seg_at t seen h sid p s : freed t seen h → p ∉ seen → seg_at t sid = Ok (p, s) → seg_at (set_heap t h) sid = Ok (p, s).
Proof. intros Hf Hn [Hp Hs]%seg_at_inv. apply seg_at_ok; [done|]. simpl. by rewrite Hf, decide_False. Qed.

Lemma freed_step t seen h p : freed t seen h → freed t (seen ++ [p]) (delete p h).
Proof.
  intros Hf q. destruct (decide (q = p)) as [->|Hne].
  - rewrite lookup_delete_eq, decide_True by set_solver. done.
  - rewrite lookup_delete_ne, Hf by done. by rewrite (decide_ext (q ∈ seen) (q ∈ seen ++ [p])) by set_solver.
Qed.

Lemma iterate_free_spec t G fuel sid l : dir_wf t G → walk t sid l → (length l ≤ fuel)%nat → ∀ seen h, NoDup (seen ++ addrs l) → freed t seen h →
  runs (iterate_distinct fuel sid (set_heap t h) free_segment) (λ t', ∃ h', t' = set_heap t h' ∧ freed t (seen ++ addrs l) h').
Proof.
  intros Hd Hw. revert fuel. induction Hw as [sid Hlen|sid sid' p s l Hat Hnext Hlt Hlen Hs Hw IH]; intros fuel Hf seen h Hnd Hh.
  - destruct fuel; simpl; rewrite (proj2 (Nat.ltb_ge _ _)) by done; apply runs_ok; exists h; by rewrite app_nil_r.
  - destruct fuel as [|fuel]; simpl in Hf; [lia|]. cbn [iterate_distinct]. cbn [segment_ set_heap]. rewrite (proj2 (Nat.ltb_lt _ _)) by done.
    change (addrs ((sid, p, s) :: l)) with (p :: addrs l) in *. rewrite (cons_middle p seen), (app_assoc seen [p]) in *.
    assert (p ∉ seen) as Hn by (apply NoDup_app in Hnd as ([_ Hnd]%NoDup_app & _); set_solver).
    pose proof (freed_seg_at t seen h sid p s Hh Hn Hat) as Hat'. pose proof (seg_at_inv _ _ _ _ Hat') as [Hp Hs'].
    cbn [segment_ heap_ set_heap] in Hp, Hs'. rewrite (aget_some _ _ _ Hp), bind_ok.
    assert (NextSeg (set_heap t h) sid = Ok sid') as -> by (unfold NextSeg in *; rewrite Hat in Hnext; by rewrite Hat').
    destruct (dw_block _ _ Hd _ _ Hs) as (L & b & Hb). rewrite bind_ok.
    assert (free_segment p (set_heap t h) = Ok (set_heap t (delete p h))) as ->.
    { unfold free_segment, deref. cbn [heap_ set_heap]. rewrite Hs', bind_ok, destroy_segment_ok by apply (bo_wf _ _ _ _ _ _ Hb). done. }
    rewrite bind_ok.
    apply (IH fuel ltac:(lia) (seen ++ [p]) (delete p h)); [done|by apply freed_step].
Qed.

(** [~DashTable()] on any table: nothing is used or destroyed twice, and no
    segment is left. *)
Lemma destroy_table_spec t G : dir_wf t G → runs (destroy_table t) (λ t', heap_ t' = ∅).
Proof.
  intros Hd0. unfold destroy_table. rbind (Clear_table_spec t G Hd0). intros t1 (I & _ & Hd & _ & _).
  destruct (walk_all t1 I Hd) as (l & Hw & Hp & Hlen).
  assert (addrs l ≡ₚ (map_to_list (heap_ t1)).*1) as Had by (unfold addrs; by rewrite Hp).
  assert (NoDup (addrs l)) as Hnd by (rewrite Had; apply NoDup_fst_map_to_list).
  assert (t1 = set_heap t1 (heap_ t1)) as E by by destruct t1. rewrite E at 2.
  eapply runs_mono; [apply (iterate_free_spec t1 I _ 0 l Hd Hw Hlen [] _ Hnd)|].
  - intros p. by rewrite decide_False by apply not_elem_of_nil.
  - intros t' (h & -> & Hf). simpl. apply map_eq. intros p. rewrite Hf, lookup_empty. case_decide as Hn; [done|].
    destruct (heap_ t1 !! p) as [s|] eqn:Hs; [|done]. destruct Hn. simpl. rewrite Had. apply list_elem_of_fmap. exists (p, s).
    by rewrite elem_of_map_to_list.
Qed.
End dtor.

Section map.
Context `{PT : TablePolicy Q K V, DN : TableDenote Q K V W, PO : !TablePolicyOk Q K V W, DO : !TableDestroyOk Q K V W} `{EqDecision Q, Countable Q}.

Lemma destroy_table_rep (t : DashTable K V) (m : gmap Q W) : rep t m → runs (destroy_table t) (λ t', heap_ t' = ∅).
Proof. intros [(G & Hd & _) _]. by apply (destroy_table_spec t G). Qed.
End map.
