(* ===== verification/CompactObj.v ===== *)
(** CompactObj: the key and value objects of the store, a tagged union of a
    string, a string with an expiry time and an integer.
    Source: src/src/sharding/DashTable/compact_obj.hpp and compact_obj.cpp.

    The members of the union share their storage: [u_.str_] and
    [u_.ttl_str_.str_] are the same string object, and [u_.ival_] overwrites it.
    [cell] says what the storage holds; using the string when it is not alive
    is a fault. What the C++ standard leaves to the library (the values of
    std::hash, and what a string holds after it was move-assigned to itself)
    is a parameter. *)
From stdpp Require Import strings pretty.
From S2P Require Import Prelude.
Local Open Scope Z_scope.

Class StdLib := {
  std_hash : string → Z;           (* std::hash<std::string>, std::hash<std::string_view> *)
  std_hash_int : Z → Z;            (* std::hash<int64_t> *)
  self_move : string → string;     (* what [s = std::move(s)] leaves in [s] *)
  raw_word : Z;                    (* what an uninitialised uint64_t holds *)
  raw_mem : nat → nat → Z;         (* what fresh memory holds *)
  std_hash_range : ∀ s, 0 ≤ std_hash s < 2 ^ 64;
}.

Inductive str_cell : Set :=
  | Live (s : string)    (* a string object *)
  | Dead                 (* a destroyed string object *)
  | IntBits (z : Z).     (* an int64_t written over it *)

Record CompactObj : Set := mkObj {
  cell : str_cell;       (* u_.str_, u_.ttl_str_.str_, u_.ival_ *)
  exp_ms_ : Z;           (* u_.ttl_str_.exp_ms_ *)
  is_key_ : bool;
  tag_ : Z;
}.

Definition INT_TAG : Z := 17.
Definition STR_TAG : Z := 18.
Definition TTL_STR_TAG : Z := 24.

(** The string and the integer member. *)
Definition read_str (c : str_cell) : res string :=
  match c with Live s => Ok s | _ => Fault UseAfterFree end.
Definition read_int (c : str_cell) : res Z :=
  match c with IntBits z => Ok z | _ => Fault UseAfterFree end.
(** [u_.str_ = s]: needs a string to assign to. *)
Definition assign_str (c : str_cell) (s : string) : res str_cell :=
  match c with Live _ => Ok (Live s) | _ => Fault UseAfterFree end.
(** [u_.str_.~string()] *)
Definition destroy_str (c : str_cell) : res str_cell :=
  match c with Live _ => Ok Dead | _ => Fault UseAfterFree end.

Section CompactObj.
Context `{StdLib}.
Implicit Types (o : CompactObj) (s : string).

Definition SetMeta o (t : Z) : CompactObj := mkObj (cell o) (exp_ms_ o) (is_key_ o) t.
Definition set_cell o (c : str_cell) : CompactObj := mkObj c (exp_ms_ o) (is_key_ o) (tag_ o).
Definition set_exp o (e : Z) : CompactObj := mkObj (cell o) e (is_key_ o) (tag_ o).

(** [CompactObj(bool is_key)] *)
Definition new_obj (is_key : bool) : CompactObj := mkObj (Live "") raw_word is_key 0.

Definition SetString o s : res CompactObj :=
  c ← assign_str (cell o) s; Ok (SetMeta (set_cell o c) STR_TAG).
Definition SetInt o (z : Z) : CompactObj := SetMeta (set_cell o (IntBits z)) INT_TAG.
(** The tag is not set. *)
Definition SetTtlStr o s (exp : Z) : res CompactObj :=
  c ← assign_str (cell o) s; Ok (set_exp (set_cell o c) exp).

Definition obj_of_string s (is_key : bool) : res CompactObj := SetString (new_obj is_key) s.
Definition obj_of_int (z : Z) : CompactObj := SetInt (new_obj false) z.
Definition obj_of_ttl s (exp : Z) : res CompactObj := SetTtlStr (new_obj true) s exp.

(** [operator=(CompactObj&&)] *)
Definition move_assign o (src : CompactObj) : res CompactObj :=
  if tag_ src =? 0 then Ok o
  else if tag_ src =? INT_TAG then z ← read_int (cell src); Ok (SetInt o z)
  else if tag_ src =? STR_TAG then s ← read_str (cell src); SetString o s
  else if tag_ src =? TTL_STR_TAG then s ← read_str (cell src); SetTtlStr o s (exp_ms_ src)
  else Fault FatalLog.

(** [CompactObj(CompactObj&&)] *)
Definition move_construct (src : CompactObj) : res CompactObj := move_assign (new_obj (is_key_ src)) src.

(** [operator==(const CompactObj&)] *)
Definition obj_eq o1 o2 : res bool :=
  if negb (tag_ o1 =? tag_ o2) then Ok false
  else if tag_ o1 =? 0 then Ok true
  else if tag_ o1 =? INT_TAG then z1 ← read_int (cell o1); z2 ← read_int (cell o2); Ok (z2 =? z1)
  else if tag_ o1 =? STR_TAG then s1 ← read_str (cell o1); s2 ← read_str (cell o2); Ok (bool_decide (s2 = s1))
  else if tag_ o1 =? TTL_STR_TAG then
    s1 ← read_str (cell o1); s2 ← read_str (cell o2);
    Ok (bool_decide (s2 = s1) && (exp_ms_ o2 =? exp_ms_ o1))
  else Fault FatalLog.

Definition Reset o : res CompactObj :=
  o ← (if tag_ o =? 0 then Ok o
       else if tag_ o =? INT_TAG then Ok o
       else if tag_ o =? STR_TAG then c ← destroy_str (cell o); Ok (set_cell o c)
       else if tag_ o =? TTL_STR_TAG then c ← destroy_str (cell o); Ok (set_cell o c)
       else Fault FatalLog);
  Ok (SetMeta o 0).

(** [~CompactObj()] *)
Definition destroy_obj o : res unit := _ ← Reset o; Ok tt.

Definition ToString o : res string :=
  if tag_ o =? INT_TAG then z ← read_int (cell o); Ok (pretty z)
  else if tag_ o =? STR_TAG then read_str (cell o)
  else if tag_ o =? TTL_STR_TAG then read_str (cell o)
  else Fault FatalLog.

(** The characters of the view; the scratch buffer of an integer is its text. *)
Definition GetSlice o : res string :=
  if tag_ o =? INT_TAG then z ← read_int (cell o); Ok (pretty z)
  else if tag_ o =? STR_TAG then read_str (cell o)
  else if tag_ o =? TTL_STR_TAG then read_str (cell o)
  else Fault FatalLog.

Definition HashCode o : res Z :=
  if tag_ o =? INT_TAG then z ← read_int (cell o); Ok (std_hash_int z)
  else if tag_ o =? STR_TAG then s ← read_str (cell o); Ok (std_hash s)
  else if tag_ o =? TTL_STR_TAG then s ← read_str (cell o); Ok (std_hash s)
  else Fault FatalLog.
(** [HashCode(std::string_view)] *)
Definition HashCodeView s : Z := std_hash s.

(** ** CompactKey *)

Definition HasExpire o : bool := tag_ o =? TTL_STR_TAG.

(** [u_.ttl_str_.str_ = std::move(u_.str_)] moves the string to itself. *)
Definition SetExpireTime o (abs_ms : Z) : res CompactObj :=
  if tag_ o =? TTL_STR_TAG then Ok (set_exp o abs_ms) else
  s ← read_str (cell o);
  Ok (SetMeta (set_exp (set_cell o (Live (self_move s))) abs_ms) TTL_STR_TAG).

Definition ClearExpireTime o : res (CompactObj * bool) :=
  if negb (tag_ o =? TTL_STR_TAG) then Ok (o, false) else
  s ← read_str (cell o); o' ← SetString o s; Ok (o', true).

Definition GetExpireTime o : Z :=
  if negb (tag_ o =? TTL_STR_TAG) then 0 else exp_ms_ o.

(** [operator=(std::string_view)] and [operator==(std::string_view)] *)
Definition assign_view o s : res CompactObj := SetString o s.
Definition eq_view o s : res bool := s' ← read_str (cell o); Ok (bool_decide (s' = s)).
End CompactObj.
