(* ===== verification/PrimeTable.v ===== *)
(** PrimeTable: DashTable instantiated with the key and value objects of the
    store (PrimeTablePolicy), and what of the table's laws these objects obey.
    Source: src/src/sharding/DashTable/table_policy.hpp, db_table.hpp.

    [Fresh] slots hold live strings; they are what an insertion assigns to. The
    laws of assignment hold for them. [Reset] destroys the string of a slot for
    good, so that erasing keeps the laws of lookup and removal but not those of
    assignment: a table that only grows obeys [prime_ok true], a table that was
    erased from obeys [prime_ok false]. *)
From stdpp Require Import gmap strings.
From S2P Require Import Prelude Policy SlotBitmap BucketBase Bucket Segment SegmentInv SegmentOps SegmentSplit DashTable DashTableInv DashTableGrow DashTableOps DashTableErase DashMap CompactObj.
Local Open Scope Z_scope.

(** A CompactValue in a slot. [written] is bookkeeping of the proofs: it is
    false while the object is still what the slot held before (a value with no
    tag, which move assignment skips). *)
Record PrimeValue : Set := mkValue { pv_obj : CompactObj; written : bool }.

(** [PrimeValue{}] and [PrimeValue{str}] *)
Definition value_default `{StdLib} : PrimeValue := mkValue (new_obj false) false.
Definition value_of_string `{StdLib} (s : string) : res PrimeValue :=
  o ← obj_of_string s false; Ok (mkValue o true).

(** [eq_view] as the boolean that the searches ask for; they only ask for
    slots that hold a key. *)
Definition key_equal (k : CompactObj) (q : string) : bool :=
  match eq_view k q with Ok b => b | Fault _ => false end.

#[export] Instance PrimeTablePolicy `{StdLib} : TablePolicy string CompactObj PrimeValue := {
  kSlotNum := 14;
  kBucketNum := 56;
  HashFn k := HashCode k;
  HashFnQ q := HashCodeView q;
  Equal k q := key_equal k q;
  AssignKey d u := match u with FromQuery q => assign_view d q | FromKey k => move_assign d k end;
  AssignVal d v := o ← move_assign (pv_obj d) (pv_obj v); Ok (mkValue o (written v));
  DestroyKey k := Reset k;
  DestroyValue v := o ← Reset (pv_obj v); Ok (mkValue o false);
  DtorKey k := destroy_obj k;
  DtorValue v := destroy_obj (pv_obj v);
  key_init := new_obj true;
  val_init := value_default;
  raw_byte := raw_mem;
}.

Definition str_of (c : str_cell) : string := match c with Live s => s | _ => "" end.
Definition alive (c : str_cell) : Prop := match c with Live _ => True | _ => False end.

(** The value a slot denotes: a string, or nothing in particular. *)
Definition value_of (v : PrimeValue) : option string := if written v then Some (str_of (cell (pv_obj v))) else None.

#[export] Instance PrimeDenote : TableDenote string CompactObj PrimeValue (option string) := {
  key_of k := str_of (cell k);
  val_of := value_of;
}.

Section laws.
Context `{StdLib}.

Definition prime_key_ok (fresh : bool) (k : CompactObj) : Prop :=
  alive (cell k) ∧ (tag_ k = STR_TAG ∨ fresh = false ∧ tag_ k = TTL_STR_TAG).
Definition assignable (o : CompactObj) : Prop := alive (cell o) ∧ (tag_ o = STR_TAG ∨ tag_ o = 0).
Definition prime_val_ok (v : PrimeValue) : Prop :=
  assignable (pv_obj v) ∧ (written v = true → tag_ (pv_obj v) = STR_TAG).

(** Its destructor can run: the string is alive, or the tag says that it is not. *)
Definition destructible (o : CompactObj) : Prop := tag_ o = 0 ∨ alive (cell o) ∧ (tag_ o = STR_TAG ∨ tag_ o = TTL_STR_TAG).

Lemma destroy_obj_ok o : destructible o → destroy_obj o = Ok tt.
Proof. destruct o as [[s| |] e ik tg]. all: unfold destructible, destroy_obj, Reset; simpl; intros [->|[Ha [->| ->]]]; done. Qed.

Lemma prime_ok (fresh : bool) : TablePolicyOk string CompactObj PrimeValue (option string).
Proof.
  refine {| key_ok := prime_key_ok fresh; val_ok := prime_val_ok;
            key_asg := λ k, destructible k ∧ (fresh = true → alive (cell k));
            val_asg := λ v, destructible (pv_obj v) ∧ (fresh = true → assignable (pv_obj v)) |}; simpl; try lia.
  - intros k [Ha Ht]. split; [right; naive_solver|done].
  - intros v [[Ha Ht] _]. split; [|done]. destruct Ht as [Ht|Ht]; [right|left]; auto.
  - split; [by left|done].
  - split; [by left|]. intros _. split; [done|by right].
  - intros q. apply std_hash_range.
  - intros [[s| |] e ik tg] [Ha Ht]; simpl in *; try done. destruct Ht as [->|[_ ->]]; done.
  - intros [[s| |] e ik tg] q [Ha Ht]; simpl in *; try done. unfold key_equal, eq_view. simpl. apply bool_decide_eq_true.
Defined.

Lemma prime_assign_ok : @TableAssignOk _ _ _ _ _ _ (prime_ok true).
Proof.
  split; simpl.
  - intros [[s| |] e ik tg] q [_ Ha]; simpl in *; try (by destruct (Ha eq_refl)). apply runs_ok. split; [|done]. split; [done|by left].
  - intros [[s| |] e ik tg] [[s2| |] e2 ik2 tg2] [_ Ha] [Ha2 Ht]; simpl in *; try done; try (by destruct (Ha eq_refl)).
    destruct Ht as [->|[? _]]; [|done]. apply runs_ok. split; [|done]. split; [done|by left].
  - intros [[[s| |] e ik tg] w] [[[s2| |] e2 ik2 tg2] w2] [_ Ha] [[Ha2 Ht] Hw]; simpl in *; try done;
      try (by destruct (Ha eq_refl)). destruct Ht as [->| ->].
    + apply runs_ok. split; [|done]. split; [split; [done|by left]|done].
    + apply runs_ok. assert (w2 = false) as -> by (destruct w2; [by discriminate Hw|done]).
      split; [|done]. split; [by apply Ha|done].
Qed.

Lemma prime_destroy_ok : @TableDestroyOk _ _ _ _ _ _ (prime_ok false).
Proof.
  split; simpl.
  - intros [[s| |] e ik tg] [Ha Ht]; simpl in *; try done. unfold Reset. simpl.
    destruct Ht as [->|[_ ->]]; apply runs_ok; (split; [by left|done]).
  - intros [[[s| |] e ik tg] w] [[Ha Ht] _]; simpl in *; try done. unfold Reset. simpl.
    destruct Ht as [->| ->]; apply runs_ok; (split; [by left|done]).
  - intros k [Hk _]. by apply destroy_obj_ok.
  - intros v [Hv _]. by apply destroy_obj_ok.
Qed.
End laws.

(** * From a table that only grew to a table that may be erased from *)

Section weaken.
Context `{StdLib}.
Abbreviation grown := (prime_ok true).
Abbreviation loose := (prime_ok false).

Lemma bucket_wf_loose (b : Bucket CompactObj PrimeValue) :
  bucket_wf (PO:=grown) b → bucket_wf (PO:=loose) b.
Proof.
  intros [Hb Hk Hv Hok Hka Hva]. split; try done; simpl in *.
  - intros i k v Ho Hk' Hv'. destruct (Hok i k v Ho Hk' Hv') as [[Ha [Ht|[? _]]] Hval]; [|done].
    split; [|done]. split; [done|by left].
  - eapply Forall_impl; [exact Hka|]. by intros k [? _].
  - eapply Forall_impl; [exact Hva|]. by intros v [? _].
Qed.

Lemma seg_wf_loose (s : Segment CompactObj PrimeValue) : seg_wf (PO:=grown) s → seg_wf (PO:=loose) s.
Proof.
  intros [[Hl Hw Hp] Ha]. split; [|exact Ha]. split; [exact Hl| |exact Hp]. intros i b Hb.
  exact (bucket_wf_loose b (Hw i b Hb)).
Qed.

Lemma dir_wf_loose (t : DashTable CompactObj PrimeValue) G : dir_wf (PO:=grown) t G → dir_wf (PO:=loose) t G.
Proof.
  intros [H1 H2 H3 H4 H5 H6 H7 H8 H9]. split; try done. intros p s Hs.
  destruct (H6 p s Hs) as (L & b & [B1 B2 B3 B4 B5 B6 B7]). exists L, b. split; try done. by apply seg_wf_loose.
Qed.

Lemma rep_loose (t : DashTable CompactObj PrimeValue) (m : gmap string (option string)) :
  rep (PO:=grown) t m → rep (PO:=loose) t m.
Proof. intros [(G & Hd & Hnd & Hsz) Hm]. split; [|exact Hm]. exists G. split; [by apply dir_wf_loose|done]. Qed.
End weaken.
