(* ===== verification/StringOrView.v ===== *)
(** StringOrView: the key of a table iterator of [DbSlice]: a string of its own, or
    a view of a string that somebody else owns.
    Source: src/src/detail/string_or_view.hpp.

    The strings that can be viewed are a store; a string that was destroyed is
    not in it. *)
From Stdlib Require Import String.
From stdpp Require Import gmap strings.
From S2P Require Import Prelude.

Definition Store : Type := gmap nat string.

(** [std::variant<std::string_view, std::string>]: a view is the number of the
    viewed string; the view of a default object is null and empty. *)
Inductive StringOrView : Set := SView (owner : option nat) | SString (s : string).

Definition default_sov : StringOrView := SView None.
Definition FromString (s : string) : StringOrView := SString s.
Definition FromView (owner : nat) : StringOrView := SView (Some owner).

Definition view (m : Store) (v : StringOrView) : res string :=
  match v with
  | SString s => Ok s
  | SView None => Ok ""%string
  | SView (Some o) => match m !! o with Some s => Ok s | None => Fault UseAfterFree end
  end.

Definition eq_string (m : Store) (v : StringOrView) (o : string) : res bool := s ← view m v; Ok (bool_decide (s = o)).
Definition eq_sov (m : Store) (v o : StringOrView) : res bool := s ← view m o; eq_string m v s.
Definition ne_string (m : Store) (v : StringOrView) (o : string) : res bool := r ← eq_string m v o; Ok (negb r).
Definition ne_sov (m : Store) (v o : StringOrView) : res bool := s ← view m o; ne_string m v s.
Definition empty (m : Store) (v : StringOrView) : res bool := s ← view m v; Ok (bool_decide (s = ""%string)).

Definition MakeOwned (m : Store) (v : StringOrView) : res StringOrView :=
  match v with SView _ => s ← view m v; Ok (SString s) | SString _ => Ok v end.

(** The string that is moved out; the object keeps a moved-from string, which
    nobody reads. *)
Definition Take (m : Store) (v : StringOrView) : res string :=
  v ← MakeOwned m v; match v with SString s => Ok s | SView _ => Fault BadVariant end.

(** A write through the pointer that [GetMutable] answers. *)
Definition GetMutable (m : Store) (f : string → string) (v : StringOrView) : res StringOrView :=
  v ← MakeOwned m v; match v with SString s => Ok (SString (f s)) | SView _ => Fault BadVariant end.

(** What an object stands for, as long as its owner lives. *)
Definition stands_for (m : Store) (v : StringOrView) (s : string) : Prop := view m v = Ok s.

Lemma view_compare m v o s t : stands_for m v s → stands_for m o t →
  eq_sov m v o = Ok (bool_decide (s = t)) ∧ ne_sov m v o = Ok (negb (bool_decide (s = t))) ∧ empty m v = Ok (bool_decide (s = ""%string)).
Proof.
  unfold stands_for. intros Hv Ho. unfold eq_sov, ne_sov, ne_string, eq_string, empty. rewrite Ho, !bind_ok, Hv, !bind_ok. done.
Qed.

(** An owned string needs the owner of the view no longer; writing to it changes
    nobody else. *)
Theorem owned_survives m v s f : stands_for m v s →
  runs (MakeOwned m v) (λ v', ∀ m', stands_for m' v' s) ∧ Take m v = Ok s ∧ runs (GetMutable m f v) (λ v', ∀ m', stands_for m' v' (f s)).
Proof.
  unfold stands_for. intros Hv. destruct v as [o|s0].
  - unfold Take, GetMutable, MakeOwned. rewrite Hv, !bind_ok. split_and!; [by apply runs_ok|done|by apply runs_ok].
  - injection Hv as ->. split_and!; [by apply runs_ok|done|by apply runs_ok].
Qed.

(** A view does not: once its owner is destroyed every use is a fault. *)
Theorem view_dangles m o : let v := FromView o in ∀ m', m' = delete o m →
  view m' v = Fault UseAfterFree ∧ MakeOwned m' v = Fault UseAfterFree ∧ Take m' v = Fault UseAfterFree.
Proof.
  intros v m' ->. assert (delete o m !! o = None) as E by apply lookup_delete_eq.
  unfold v, Take, MakeOwned, FromView, view. by rewrite E.
Qed.
