(* ===== verification/DbSlice.v ===== *)
(** DbSlice: the databases of one shard, and the operations that the commands
    run on them.
    Source: src/src/sharding/db_slice.hpp, db_slice.cpp, db_table.hpp,
    db_table.cpp and op_status.hpp.

    Every operation returns the new state of the slice with its result. The
    iterators that the operations hand out are the pairs of a table iterator
    and the key it was found under; each use repairs them first ([launder]). *)
From stdpp Require Import gmap strings.
From S2P Require Import Prelude Policy SlotBitmap BucketBase Bucket Segment DashTable CompactObj PrimeTable.
Local Open Scope Z_scope.

(** ** facade::OpStatus and OpResult *)

Inductive OpStatus : Set := OK | KEY_NOTFOUND | WRONG_TYPE | SKIPPED.
#[export] Instance OpStatus_eq_dec : EqDecision OpStatus.
Proof. solve_decision. Defined.

(** On an error the value is the default-constructed one. *)
Record OpResult (A : Type) : Type := mkResult { st_ : OpStatus; v_ : A }.
Arguments mkResult {_} _ _.
Arguments st_ {_} _.
Arguments v_ {_} _.

Definition op_ok {A} (v : A) : OpResult A := mkResult OK v.
Definition is_ok {A} (r : OpResult A) : bool := bool_decide (st_ r = OK).
Definition value_or {A} (r : OpResult A) (v : A) : A := if is_ok r then v_ r else v.

(** ** DbTable and DbSlice *)

Abbreviation PrimeTable := (DashTable CompactObj PrimeValue).

Record DbTable : Type := mkDb { prime_ : PrimeTable; index_ : Z }.
Definition kInitSegmentLog : Z := 3.

Record DbSlice : Type := mkSlice {
  shard_id_ : Z;
  db_arr_ : list (option DbTable);   (* intrusive_ptr<DbTable>, possibly null *)
}.

Record DbContext : Set := mkCntx { db_index_ : nat; time_now_ms_ : Z }.

(** [IteratorT<PrimeIterator>]; [None] is the end iterator. *)
Record SliceIt : Set := mkSliceIt { it_ : option TableIterator; key_ : string }.
Definition end_it : SliceIt := mkSliceIt None "".
Record ItAndUpdater : Set := mkItUpd { iu_it_ : SliceIt; is_new_ : bool }.
Definition no_it : ItAndUpdater := mkItUpd end_it false.

Section DbSlice.
Context `{StdLib}.
Implicit Types (t : PrimeTable) (sl : DbSlice) (cntx : DbContext) (i : SliceIt).

Definition new_db (db_ind : Z) : res DbTable := t ← new_table kInitSegmentLog; Ok (mkDb t db_ind).

(** [CreateDb]; the slot of the array exists. *)
Definition CreateDb sl (db_ind : nat) : res DbSlice :=
  db ← aget (db_arr_ sl) db_ind;
  match db with
  | Some _ => Ok sl
  | None => d ← new_db (Z.of_nat db_ind); l ← aset (db_arr_ sl) db_ind (Some d); Ok (mkSlice (shard_id_ sl) l)
  end.

Definition new_slice (index : Z) : res DbSlice := CreateDb (mkSlice index [None]) 0.

(** [~DbSlice()] with [~DbTable()]: the slice has the only reference to each
    table. *)
Definition reset_db (db : option DbTable) : res unit :=
  match db with Some d => _ ← destroy_table (prime_ d); Ok tt | None => Ok tt end.
Definition destroy_slice sl : res unit := rfold (λ db _, reset_db db) (db_arr_ sl) tt.

Definition IsDbValid sl (id : nat) : bool :=
  match db_arr_ sl !! id with Some (Some _) => true | _ => false end.

(** [*db_arr_[id]] and an update of that table. *)
Definition get_db sl (id : nat) : res PrimeTable :=
  db ← aget (db_arr_ sl) id;
  match db with Some d => Ok (prime_ d) | None => Fault UseAfterFree end.
Definition set_db sl (id : nat) (t : PrimeTable) : DbSlice :=
  mkSlice (shard_id_ sl)
    (alter (λ db, match db with Some d => Some (mkDb t (index_ d)) | None => None end) id (db_arr_ sl)).

(** [LaunderIfNeeded]: an iterator that no longer points to its key is replaced
    by a new lookup of the key. *)
Definition launder t i : res SliceIt :=
  match it_ i with
  | None => Ok i
  | Some it =>
      occ ← IsOccupied t it;
      stale ← (if occ : bool then k ← it_key t it; same ← eq_view k (key_ i); Ok (negb same) else Ok true);
      if stale : bool then r ← Find t (key_ i); Ok (mkSliceIt r (key_ i)) else Ok i
  end.

(** [it_] after the repair, where the end iterator must not be dereferenced. *)
Definition deref_it t i : res TableIterator :=
  i ← launder t i; match it_ i with Some it => Ok it | None => Fault UseAfterFree end.

(** ** Lookup *)

Definition OBJ_STRING : Z := 0.
Definition ObjType (v : PrimeValue) : Z := OBJ_STRING.

Definition FindInternal sl cntx (key : string) (req_obj_type : option Z) : res (OpResult (option TableIterator)) :=
  if negb (IsDbValid sl (db_index_ cntx)) then Ok (mkResult KEY_NOTFOUND None) else
  t ← get_db sl (db_index_ cntx);
  it ← Find t key;
  match it with
  | None => Ok (mkResult KEY_NOTFOUND None)
  | Some i =>
      wrong ← match req_obj_type with
              | Some ty => _ ← it_key t i; v ← it_value t i; Ok (negb (ObjType v =? ty))
              | None => Ok false
              end;
      if wrong : bool then Ok (mkResult WRONG_TYPE None) else
      _ ← it_key t i; _ ← it_value t i;
      Ok (op_ok (Some i))
  end.

Definition FindReadOnly sl cntx (key : string) : res SliceIt :=
  r ← FindInternal sl cntx key None; Ok (mkSliceIt (v_ r) key).

Definition FindMutableInternal sl cntx (key : string) (req_obj_type : option Z) : res (OpResult ItAndUpdater) :=
  r ← FindInternal sl cntx key req_obj_type;
  if negb (is_ok r) then Ok (mkResult (st_ r) no_it) else
  t ← get_db sl (db_index_ cntx);
  match v_ r with
  | None => Fault UseAfterFree
  | Some it =>
      occ ← IsOccupied t it;
      if occ : bool then Ok (op_ok (mkItUpd (mkSliceIt (Some it) key) false)) else Ok (mkResult KEY_NOTFOUND no_it)
  end.

Definition FindMutable sl cntx (key : string) : res ItAndUpdater :=
  r ← FindMutableInternal sl cntx key None; Ok (v_ r).

(** ** Insertion; [fuel] bounds the turns of the insertion loop of the table *)

Definition AddOrFindInternal (fuel : nat) sl cntx (key : string) (req_obj_type : option Z)
    : res (DbSlice * OpResult ItAndUpdater) :=
  t ← get_db sl (db_index_ cntx);
  r ← FindInternal sl cntx key req_obj_type;
  found ← (if is_ok r then
             match v_ r with None => Fault UseAfterFree | Some it => IsOccupied t it end
           else Ok false);
  if found : bool then Ok (sl, op_ok (mkItUpd (mkSliceIt (v_ r) key) false)) else
  if bool_decide (st_ r = WRONG_TYPE) then Ok (sl, mkResult WRONG_TYPE no_it) else
  '(t', it) ← InsertNew fuel t key value_default;
  Ok (set_db sl (db_index_ cntx) t', op_ok (mkItUpd (mkSliceIt (Some it) key) true)).

Definition AddOrFind fuel sl cntx key req_obj_type := AddOrFindInternal fuel sl cntx key req_obj_type.

(** [main_it->first.SetExpireTime(at)] *)
Definition AddExpire sl (db_ind : nat) i (at_ms : Z) : res DbSlice :=
  t ← get_db sl db_ind;
  it ← deref_it t i;
  '(t', _) ← update_key t it (λ k, k' ← SetExpireTime k at_ms; Ok (k', tt));
  Ok (set_db sl db_ind t').

(** [HasExpire] and [ClearExpireTime] of the key. *)
Definition RemoveExpire sl (db_ind : nat) i : res (DbSlice * bool) :=
  t ← get_db sl db_ind;
  it ← deref_it t i;
  k ← it_key t it; _ ← it_value t it;
  if negb (HasExpire k) then Ok (sl, false) else
  it ← deref_it t i;
  '(t', _) ← update_key t it ClearExpireTime;
  Ok (set_db sl db_ind t', true).

(** [UpdateExpire]: the seconds are taken for an absolute time. *)
Definition UpdateExpire sl cntx i (sec : Z) : res (DbSlice * OpResult unit) :=
  sl ← AddExpire sl (db_index_ cntx) i (u64 sec); Ok (sl, op_ok tt).

(** [it->second = std::move(obj)] *)
Definition assign_value sl (db_ind : nat) i (obj : PrimeValue) : res DbSlice :=
  t ← get_db sl db_ind;
  it ← deref_it t i;
  '(t', _) ← update_value t it (λ v, v' ← AssignVal v obj; Ok (v', tt));
  Ok (set_db sl db_ind t').

(** A key that is there already is returned as it is. *)
Definition AddOrUpdateInternal fuel sl cntx (key : string) (obj : PrimeValue) (expire_at_ms : Z)
    : res (DbSlice * OpResult ItAndUpdater) :=
  '(sl, r) ← AddOrFind fuel sl cntx key None;
  if negb (is_ok r) then Ok (sl, mkResult (st_ r) no_it) else
  if negb (is_new_ (v_ r)) then Ok (sl, r) else
  sl ← assign_value sl (db_index_ cntx) (iu_it_ (v_ r)) obj;
  sl ← (if negb (expire_at_ms =? 0) then AddExpire sl (db_index_ cntx) (iu_it_ (v_ r)) expire_at_ms
        else '(sl, _) ← RemoveExpire sl (db_index_ cntx) (iu_it_ (v_ r)); Ok sl);
  Ok (sl, r).

Definition AddOrUpdate fuel sl cntx key obj expire_at_ms := AddOrUpdateInternal fuel sl cntx key obj expire_at_ms.

Definition AddNew fuel sl cntx key obj expire_at_ms : res (DbSlice * OpResult ItAndUpdater) :=
  '(sl, r) ← AddOrUpdateInternal fuel sl cntx key obj expire_at_ms;
  Ok (sl, op_ok (mkItUpd (iu_it_ (v_ r)) false)).

(** ** Removal and expiry *)

Definition PerformDeletionAtomic t i : res PrimeTable := it ← deref_it t i; Erase t it.

Definition Del sl cntx i : res DbSlice :=
  t ← get_db sl (db_index_ cntx);
  t' ← PerformDeletionAtomic t i;
  Ok (set_db sl (db_index_ cntx) t').

Definition DelMutable sl cntx (iu : ItAndUpdater) : res DbSlice := Del sl cntx (iu_it_ iu).

(** [ExpireIfNeeded] of a table iterator, on the table itself. *)
Definition ExpireIfNeeded (now : Z) t (it : TableIterator) : res (PrimeTable * option TableIterator) :=
  k ← it_key t it; _ ← it_value t it;
  if negb (HasExpire k) then Ok (t, Some it) else
  if i64 now <? i64 (GetExpireTime k) then Ok (t, Some it) else
  key ← GetSlice k;
  t' ← PerformDeletionAtomic t (mkSliceIt (Some it) key);
  Ok (t', None).

(** [IteratorT::FromPrime]: the string it takes for the key is empty. *)
Definition FromPrime (it : option TableIterator) : SliceIt :=
  match it with Some _ => mkSliceIt it "" | None => end_it end.

(** [ExpireIfNeeded] of an iterator that carries its key. *)
Definition ExpireIfNeeded_key (now : Z) t i : res (PrimeTable * SliceIt) :=
  it ← deref_it t i;
  '(t', it') ← ExpireIfNeeded now t it;
  Ok (t', FromPrime it').

(** The callback of [ExpireAllIfNeeded]; [now] is the clock, which is read for
    every key that has an expiry time. *)
Definition expire_cb (now : nat → Z) (it : TableIterator) (st : PrimeTable * nat) : res (PrimeTable * nat) :=
  let '(t, reads) := st in
  k ← it_key t it; _ ← it_value t it;
  if negb (HasExpire k) then Ok (t, reads) else
  '(t', _) ← ExpireIfNeeded (now reads) t it; Ok (t', S reads).

Definition ExpireTable (now : nat → Z) t (reads : nat) : res (PrimeTable * nat) :=
  traverse_all fst (kBucketNum * length (segment_ t)) 0 (expire_cb now) (t, reads).

Definition ExpireAllIfNeeded (now : nat → Z) sl : res DbSlice :=
  '(l, _) ← rfold (λ db '(acc, reads),
      match db with
      | None => Ok (acc ++ [None], reads)
      | Some d => '(t, reads) ← ExpireTable now (prime_ d) reads;
                  Ok (acc ++ [Some (mkDb t (index_ d))], reads)
      end) (db_arr_ sl) ([], 0%nat);
  Ok (mkSlice (shard_id_ sl) l).
End DbSlice.
