(* ===== verification/DbSliceInv.v ===== *)
(** DbSliceInv: what the tables of a DbSlice stand for, and the lemmas on the
    operations of a DbSlice that its theorems are built from. *)
From stdpp Require Import gmap strings.
From S2P Require Import Prelude Policy SlotBitmap BucketBase Bucket Segment SegmentInv SegmentOps SegmentSplit DashTable DashTableInv DashTableGrow DashTableValue DashTableOps DashTableErase DashMap CompactObj PrimeTable DbSlice.
Local Open Scope Z_scope.

(** * Any position of a table *)

Section position.
Context `{PT : TablePolicy Q K V, DN : TableDenote Q K V W, PO : !TablePolicyOk Q K V W}.
Implicit Types (t : DashTable K V) (it : TableIterator).

(** A position that a table iterator can have. *)
Definition in_range it : Prop := (bucket_id_ it < kTotalBuckets)%nat ∧ (slot_id_ it < kSlotNum)%nat.

(** [IsOccupied] tells whether a position holds an entry; it never fails. *)
Lemma IsOccupied_spec t G it : dir_wf t G → in_range it →
  runs (IsOccupied t it) (λ b, b = true ↔ ∃ e, t_holds t it e).
Proof.
  intros Hd [Hb Hj]. unfold IsOccupied. destruct (Nat.ltb_spec (seg_id_ it) (length (segment_ t))) as [Hlt|Hge].
  - rewrite (dw_len _ _ Hd) in Hlt. destruct (dir_lookup t G _ Hd Hlt) as (p & s & L & bl & Hp & Hs & Hbl & _).
    rewrite (seg_at_ok t _ p s Hp Hs), bind_ok. pose proof (proj1 (bo_wf _ _ _ _ _ _ Hbl)) as Hsh.
    destruct (lookup_lt_is_Some_2 (bucket_ s) (bucket_id_ it)) as [b Hbk]; [by rewrite (sh_len _ Hsh)|].
    unfold Segment.IsBusy, GetBucket. rewrite (aget_some _ _ _ Hbk), bind_ok. apply runs_ok.
    unfold BucketBase.IsBusy. rewrite land_bit_at. change (Z.testbit _ _) with (occupied b (slot_id_ it)).
    rewrite (slot_at_occupied b _ (sh_wf _ Hsh _ _ Hbk)). split.
    + intros [e He]. exists e, p, s. split_and!; [done..|]. by exists b.
    + intros (e & p' & s' & Hp' & Hs' & b' & Hb' & He'). simplify_eq. by exists e.
  - apply runs_ok. split; [done|]. intros (e & p & s & Hp & _). apply lookup_lt_Some in Hp. lia.
Qed.

Lemma holds_in_range t G it e : dir_wf t G → t_holds t it e → in_range it.
Proof.
  intros Hd (p & s & _ & Hs & b & Hb & He). destruct (dw_block _ _ Hd _ _ Hs) as (L & bl & Hbl).
  pose proof (proj1 (bo_wf _ _ _ _ _ _ Hbl)) as Hsh. pose proof (sh_wf _ Hsh _ _ Hb) as Hw. split.
  - apply lookup_lt_Some in Hb. by rewrite (sh_len _ Hsh) in Hb.
  - apply (occupied_lt b _ Hw), slot_at_occupied; eauto.
Qed.

Lemma it_key_spec t G it e : dir_wf t G → t_holds t it e → runs (it_key t it) (λ k, key_ok k ∧ key_of k = e_key e).
Proof.
  intros Hd (p & s & Hp & Hs & Hh). destruct (dw_block _ _ Hd _ _ Hs) as (L & b & Hb).
  unfold it_key. rewrite (seg_at_ok t _ p s Hp Hs), bind_ok. eapply Key_spec; [apply (bo_wf _ _ _ _ _ _ Hb)|done].
Qed.

Lemma it_value_spec t G it e : dir_wf t G → t_holds t it e → runs (it_value t it) (λ v, val_ok v ∧ val_of v = e_val e).
Proof.
  intros Hd (p & s & Hp & Hs & Hh). destruct (dw_block _ _ Hd _ _ Hs) as (L & b & Hb).
  unfold it_value. rewrite (seg_at_ok t _ p s Hp Hs), bind_ok. eapply Value_spec; [apply (bo_wf _ _ _ _ _ _ Hb)|done].
Qed.
End position.

(** * The databases of a slice *)

Lemma get_db_inv sl d t : get_db sl d = Ok t → ∃ ix, db_arr_ sl !! d = Some (Some (mkDb t ix)).
Proof.
  unfold get_db, aget. destruct (db_arr_ sl !! d) as [[[t' ix]|]|]; simpl; intros; simplify_eq. by exists ix.
Qed.

Lemma get_db_valid sl d t : get_db sl d = Ok t → IsDbValid sl d = true.
Proof. intros (ix & E)%get_db_inv. unfold IsDbValid. by rewrite E. Qed.

Lemma get_set_db sl d t t' : get_db sl d = Ok t → get_db (set_db sl d t') d = Ok t'.
Proof.
  intros (ix & E)%get_db_inv. unfold get_db, aget, set_db. simpl.
  by rewrite list_lookup_alter_eq, E.
Qed.

Lemma get_set_db_ne sl d d' t' : d' ≠ d → get_db (set_db sl d t') d' = get_db sl d'.
Proof. intros Hne. unfold get_db, aget, set_db. simpl. by rewrite list_lookup_alter_ne. Qed.

Section slice.
Context `{StdLib}.
Implicit Types (t : PrimeTable) (sl : DbSlice) (m : gmap string (option string)) (key s : string) (i : SliceIt).

(** Database [d] of the slice stands for the map [m]. A [fresh] database has
    only grown; one that is not may have been erased from. *)
Definition slice_rep (fresh : bool) sl (d : nat) m : Prop :=
  ∃ t, get_db sl d = Ok t ∧ rep (PO:=prime_ok fresh) t m.

(** The other databases of the slice are as they were. *)
Definition others_kept sl sl' (d : nat) : Prop := ∀ d', d' ≠ d → get_db sl' d' = get_db sl d'.

(** They hold some maps. *)
Definition others_ok sl (d : nat) : Prop := ∀ d' t, d' ≠ d → get_db sl d' = Ok t → ∃ m, rep (PO:=prime_ok false) t m.

Lemma others_ok_kept sl sl' d : others_ok sl d → others_kept sl sl' d → others_ok sl' d.
Proof. intros Ho Hk d' t Hne. rewrite (Hk d' Hne). by apply Ho. Qed.

Lemma slice_rep_loose sl d m : slice_rep true sl d m → slice_rep false sl d m.
Proof. intros (t & Hdb & Hr). exists t. split; [done|by apply rep_loose]. Qed.

(** The iterator points to the key it carries. *)
Definition points_to t i : Prop :=
  match it_ i with Some it => ∃ e : entry string (option string), t_holds t it e ∧ e_key e = key_ i | None => False end.

Lemma key_denotes fresh (k : CompactObj) : prime_key_ok fresh k → cell k = Live (str_of (cell k)).
Proof. intros [Ha _]. by destruct (cell k). Qed.

Lemma eq_view_spec fresh (k : CompactObj) s : prime_key_ok fresh k → eq_view k s = Ok (bool_decide (str_of (cell k) = s)).
Proof. intros Hk%key_denotes. unfold eq_view. by rewrite Hk. Qed.

Lemma Find_points fresh t G key : dir_wf (PO:=prime_ok fresh) t G →
  runs (Find t key) (λ r, match r with
    | Some it => ∃ e : entry string (option string), t_holds t it e ∧ e_key e = key
    | None => key ∉ (items t).*1 end).
Proof.
  intros Hd. eapply runs_mono; [apply (Find_spec (PO:=prime_ok fresh) t G key Hd)|].
  intros [it|] Hr; [by destruct Hr as (_ & e & He & Hk); exists e|done].
Qed.

Lemma holds_lookup fresh t m it (e : entry string (option string)) :
  rep (PO:=prime_ok fresh) t m → t_holds t it e → m !! e_key e = Some (e_val e).
Proof.
  intros Hr He. pose proof Hr as [(G & Hd & _) _]. apply (rep_lookup (PO:=prime_ok fresh) t m _ _ Hr).
  by apply (t_holds_items (PO:=prime_ok fresh) t G it e).
Qed.

(** A repaired iterator points to its key, or is the end iterator when the key
    is not stored. *)
Lemma launder_points fresh t m i : rep (PO:=prime_ok fresh) t m → (∀ it, it_ i = Some it → in_range it) →
  runs (launder t i) (λ i', key_ i' = key_ i ∧
    (points_to t i' ∧ is_Some (m !! key_ i) ∨ it_ i' = None ∧ (it_ i = None ∨ m !! key_ i = None))).
Proof.
  intros Hr Hin. pose proof Hr as [(G & Hd & _) _]. unfold launder. destruct i as [[it|] q]; simpl in *.
  2: { apply runs_ok. split; [done|]. right. auto. }
  rbind (IsOccupied_spec (PO:=prime_ok fresh) t G it Hd (Hin _ eq_refl)). intros occ Hocc.
  assert (runs (r ← Find t q; Ok (mkSliceIt r q)) (λ i', key_ i' = q ∧
    (points_to t i' ∧ is_Some (m !! q) ∨ it_ i' = None ∧ (Some it = None ∨ m !! q = None)))) as Hfind.
  { rbind (Find_points fresh t G q Hd). intros [it'|] Hit; apply runs_ok; (split; [done|]).
    - left. destruct Hit as (e & He & <-). split; [by exists e|]. by rewrite (holds_lookup fresh t m it' e Hr He).
    - right. split; [done|]. right. apply eq_None_not_Some. by rewrite <- (rep_keys (PO:=prime_ok fresh) t m q Hr). }
  destruct occ; [|by rewrite bind_ok]. destruct (proj1 Hocc eq_refl) as [e He].
  eapply runs_bind.
  { rbind (it_key_spec (PO:=prime_ok fresh) t G it e Hd He). intros k [Hk Ek].
    rewrite (eq_view_spec fresh k q Hk), bind_ok. apply runs_ok.
    instantiate (1 := λ stale, stale = negb (bool_decide (e_key e = q))). f_equal. simpl in Ek. by rewrite Ek. }
  intros stale ->. case_bool_decide as Heq; [|done]. simpl. apply runs_ok. split; [done|]. left.
  split; [by exists e|]. simpl. rewrite <- Heq. by rewrite (holds_lookup fresh t m it e Hr He).
Qed.

Lemma deref_points fresh t m i : rep (PO:=prime_ok fresh) t m → (∀ it, it_ i = Some it → in_range it) →
  it_ i ≠ None → is_Some (m !! key_ i) →
  runs (deref_it t i) (λ it, ∃ e : entry string (option string), t_holds t it e ∧ e_key e = key_ i).
Proof.
  intros Hr Hin Hne [w Hw]. unfold deref_it. rbind (launder_points fresh t m i Hr Hin).
  intros i' (Hk & [[Hp _]|[_ [Hn|Hn]]]); [|done|congruence]. unfold points_to in Hp. destruct (it_ i'); [|done].
  apply runs_ok. by rewrite <- Hk.
Qed.

Lemma points_in_range fresh t m i : rep (PO:=prime_ok fresh) t m → points_to t i →
  (∀ it, it_ i = Some it → in_range it) ∧ it_ i ≠ None ∧ is_Some (m !! key_ i).
Proof.
  intros Hr Hp. pose proof Hr as [(G & Hd & _) _]. unfold points_to in Hp. destruct (it_ i) as [it|]; [|done].
  destruct Hp as (e & He & <-). split_and!; [|done|by rewrite (holds_lookup fresh t m it e Hr He)].
  intros it' [= <-]. by apply (holds_in_range (PO:=prime_ok fresh) t G it e).
Qed.
End slice.
