(* ===== verification/DbSliceOps.v ===== *)
(** DbSliceOps: the operations of a DbSlice as operations on the maps that its
    databases stand for. *)
From stdpp Require Import gmap strings.
From S2P Require Import Prelude Policy SlotBitmap BucketBase Bucket Segment SegmentInv SegmentOps SegmentSplit DashTable DashTableInv DashTableGrow DashTableValue DashTableOps DashTableErase DashMap CompactObj PrimeTable DbSlice DbSliceInv.
Local Open Scope Z_scope.

Section ops.
Context `{StdLib}.
Implicit Types (t : PrimeTable) (sl : DbSlice) (m : gmap string (option string)) (key s : string) (i : SliceIt)
  (cntx : DbContext) (w : option string).

(** The key finds room in the table, with a directory of at most [D] bits. *)
Definition fits (D : nat) t key : Prop := can_insert (PO:=prime_ok true) D key (items t).

Lemma FindInternal_spec fresh sl cntx t m key : get_db sl (db_index_ cntx) = Ok t → rep (PO:=prime_ok fresh) t m →
  runs (FindInternal sl cntx key None) (λ r,
    match m !! key with
    | Some w => ∃ it (e : entry string (option string)), r = op_ok (Some it) ∧ t_holds t it e ∧ kv e = (key, w)
    | None => r = mkResult KEY_NOTFOUND None
    end).
Proof.
  intros Hdb Hr. pose proof Hr as [(G & Hd & _) _]. unfold FindInternal. rewrite (get_db_valid _ _ _ Hdb), Hdb, bind_ok.
  rbind (Find_points fresh t G key Hd). intros [it|] Hit.
  - destruct Hit as (e & He & <-). cbn [negb]. rewrite bind_ok.
    rbind (it_key_spec (PO:=prime_ok fresh) t G it e Hd He). intros _ _.
    rbind (it_value_spec (PO:=prime_ok fresh) t G it e Hd He). intros _ _. apply runs_ok.
    rewrite (holds_lookup fresh t m it e Hr He). by exists it, e.
  - apply runs_ok. rewrite (rep_keys (PO:=prime_ok fresh) t m key Hr) in Hit. by apply eq_None_not_Some in Hit as ->.
Qed.

Lemma FindMutable_spec fresh sl cntx t m key : get_db sl (db_index_ cntx) = Ok t → rep (PO:=prime_ok fresh) t m →
  runs (FindMutable sl cntx key) (λ r,
    match m !! key with
    | Some _ => points_to t (iu_it_ r) ∧ key_ (iu_it_ r) = key ∧ is_new_ r = false
    | None => r = no_it
    end).
Proof.
  intros Hdb Hr. unfold FindMutable, FindMutableInternal. pose proof Hr as [(G & Hd & _) _].
  destruct (FindInternal_spec fresh sl cntx t m key Hdb Hr) as (r & E & HP).
  rewrite E, bind_ok. destruct (m !! key) as [w|] eqn:Em.
  - destruct HP as (it & e & -> & He & Hkv). cbn. rewrite Hdb, bind_ok.
    destruct (IsOccupied_spec (PO:=prime_ok fresh) t G it Hd) as (b & Eb & Hb); [by eapply (holds_in_range (PO:=prime_ok fresh))|].
    rewrite Eb, bind_ok. assert (b = true) as -> by (apply Hb; by exists e). apply runs_ok. cbn.
    split_and!; [|done|done]. exists e. split; [done|]. by injection Hkv.
  - subst r. by apply runs_ok.
Qed.

Lemma FindReadOnly_spec fresh sl cntx t m key : get_db sl (db_index_ cntx) = Ok t → rep (PO:=prime_ok fresh) t m →
  runs (FindReadOnly sl cntx key) (λ i, key_ i = key ∧
    match m !! key with Some _ => points_to t i | None => it_ i = None end).
Proof.
  intros Hdb Hr. unfold FindReadOnly. rbind (FindInternal_spec fresh sl cntx t m key Hdb Hr). intros r HP.
  apply runs_ok. split; [done|]. destruct (m !! key) as [w|].
  - destruct HP as (it & e & -> & He & Hkv). exists e. split; [done|]. by injection Hkv.
  - by subst r.
Qed.

(** The state after an operation on database [d]. *)
Definition now_rep (fresh : bool) sl sl' (d : nat) m i : Prop :=
  others_kept sl sl' d ∧ ∃ t', get_db sl' d = Ok t' ∧ rep (PO:=prime_ok fresh) t' m ∧ points_to t' i.

Lemma others_kept_set sl d t' : others_kept sl (set_db sl d t') d.
Proof. intros d' Hne. by apply get_set_db_ne. Qed.

Lemma others_kept_trans sl1 sl2 sl3 d : others_kept sl1 sl2 d → others_kept sl2 sl3 d → others_kept sl1 sl3 d.
Proof. intros H12 H23 d' Hne. by rewrite (H23 d' Hne), (H12 d' Hne). Qed.

(** A key that is stored is found, and nothing changes. *)
Lemma AddOrFind_found fresh sl cntx t m key w fuel : get_db sl (db_index_ cntx) = Ok t → rep (PO:=prime_ok fresh) t m →
  m !! key = Some w →
  runs (AddOrFind fuel sl cntx key None) (λ '(sl', r), sl' = sl ∧ is_ok r = true ∧ is_new_ (v_ r) = false ∧
    key_ (iu_it_ (v_ r)) = key ∧ points_to t (iu_it_ (v_ r))).
Proof.
  intros Hdb Hr Hw. unfold AddOrFind, AddOrFindInternal. rewrite Hdb, bind_ok.
  pose proof Hr as [(G & Hd & _) _].
  destruct (FindInternal_spec fresh sl cntx t m key Hdb Hr) as (r & E & HP). rewrite E, bind_ok, Hw in *.
  destruct HP as (it & e & -> & He & Hkv). cbn [is_ok op_ok st_ v_].
  destruct (IsOccupied_spec (PO:=prime_ok fresh) t G it Hd) as (b & Eb & Hb); [by eapply (holds_in_range (PO:=prime_ok fresh))|].
  rewrite Eb. assert (b = true) as -> by (apply Hb; by exists e). cbn.
  apply runs_ok. cbn. split_and!; try done. exists e. split; [done|]. by injection Hkv.
Qed.

(** A new key is added with the value that stands for nothing. *)
Lemma AddOrFind_new sl cntx t m key fuel D : get_db sl (db_index_ cntx) = Ok t → rep (PO:=prime_ok true) t m →
  m !! key = None → fits D t key → (D < fuel)%nat →
  runs (AddOrFind fuel sl cntx key None) (λ '(sl', r), is_ok r = true ∧ is_new_ (v_ r) = true ∧
    key_ (iu_it_ (v_ r)) = key ∧ now_rep true sl sl' (db_index_ cntx) (<[key := None]> m) (iu_it_ (v_ r))).
Proof.
  intros Hdb Hr Hw Hfit Hfuel. unfold AddOrFind, AddOrFindInternal. rewrite Hdb, bind_ok.
  destruct (FindInternal_spec true sl cntx t m key Hdb Hr) as (r & E & HP). rewrite E, bind_ok, Hw in *. subst r.
  assert (is_ok (@mkResult (option TableIterator) KEY_NOTFOUND None) = false) as -> by done. cbn. rbind (InsertNew_spec (PO:=prime_ok true) (AO:=prime_assign_ok) t m key value_default D fuel Hr); try done.
  { simpl. split; [|done]. split; [done|by right]. }
  intros [t' it] (Hr' & e & He & Hkv). apply runs_ok. cbn. split_and!; try done.
  split; [by apply others_kept_set|]. exists t'. split_and!; [by eapply get_set_db|done|].
  exists e. split; [done|]. by injection Hkv.
Qed.

(** ** Updates through an iterator *)

(** An update of the value of the key that the iterator points to. *)
Lemma update_through fresh t m i it (e : entry string (option string)) (f : PrimeValue → res (PrimeValue * unit)) w :
  rep (PO:=prime_ok fresh) t m → t_holds t it e → e_key e = key_ i → it_ i = Some it →
  (∀ v, prime_val_ok v → runs (f v) (λ '(v', _), prime_val_ok v' ∧ value_of v' = w)) →
  runs (update_value t it f) (λ '(t', _), rep (PO:=prime_ok fresh) t' (<[key_ i := w]> m) ∧ points_to t' i).
Proof.
  intros Hr He Hk Hi Hf. pose proof Hr as [(G & Hd & Hnd & Hsz) Hm].
  eapply runs_mono; [apply (update_value_spec (PO:=prime_ok fresh) t G it e w f (λ _, True) Hd He)|].
  { intros v Hv _. eapply runs_mono; [by apply Hf|]. intros [v' u] [? ?]. done. }
  intros [t' u] (_ & Hd' & Hsz' & _ & _ & Hp & He'). split.
  - rewrite <- Hk. apply (updated_rep (PO:=prime_ok fresh) t m t' G e w Hr); try done.
    by apply (t_holds_items (PO:=prime_ok fresh) t G it e).
  - unfold points_to. rewrite Hi. by exists (with_val e w).
Qed.

(** An iterator that points to its key needs no repair. *)
Lemma deref_valid fresh t m i : rep (PO:=prime_ok fresh) t m → points_to t i →
  ∃ it (e : entry string (option string)), it_ i = Some it ∧ t_holds t it e ∧ e_key e = key_ i ∧ deref_it t i = Ok it.
Proof.
  intros Hr Hp. pose proof Hr as [(G & Hd & _) _]. unfold points_to in Hp.
  destruct (it_ i) as [it|] eqn:Hi; [|done]. destruct Hp as (e & He & Hk). exists it, e. split_and!; [done..|].
  unfold deref_it, launder. rewrite Hi.
  destruct (IsOccupied_spec (PO:=prime_ok fresh) t G it Hd) as (b & Eb & Hb); [by eapply (holds_in_range (PO:=prime_ok fresh))|].
  rewrite Eb, bind_ok. assert (b = true) as -> by (apply Hb; by exists e). cbn [negb].
  destruct (it_key_spec (PO:=prime_ok fresh) t G it e Hd He) as (k & Ek & Hok & Ekk). rewrite Ek, bind_ok.
  rewrite (eq_view_spec fresh k _ Hok). simpl in Ekk. rewrite Ekk, Hk, bool_decide_true, !bind_ok by done. cbn [negb].
  by rewrite bind_ok, Hi.
Qed.

(** An update of the value through an iterator of the slice. *)
Lemma update_points fresh sl d t m i (f : PrimeValue → res (PrimeValue * unit)) w :
  get_db sl d = Ok t → rep (PO:=prime_ok fresh) t m → points_to t i →
  (∀ v, prime_val_ok v → runs (f v) (λ '(v', _), prime_val_ok v' ∧ value_of v' = w)) →
  runs (it ← deref_it t i; '(t', _) ← update_value t it f; Ok (set_db sl d t'))
    (λ sl', now_rep fresh sl sl' d (<[key_ i := w]> m) i).
Proof.
  intros Hdb Hr Hp Hf. destruct (deref_valid fresh t m i Hr Hp) as (it & e & Hi & He & Hk & ->). rewrite bind_ok.
  rbind (update_through fresh t m i it e f w Hr He Hk Hi Hf). intros [t' u] [Hr' Hp']. apply runs_ok.
  split; [by apply others_kept_set|]. exists t'. split_and!; [by eapply get_set_db|done|done].
Qed.

(** An update of the key that keeps its string. *)
Lemma update_key_points {A} fresh sl d t m i (f : CompactObj → res (CompactObj * A)) :
  get_db sl d = Ok t → rep (PO:=prime_ok fresh) t m → points_to t i →
  (∀ k, prime_key_ok fresh k → str_of (cell k) = key_ i →
        runs (f k) (λ '(k', _), prime_key_ok fresh k' ∧ str_of (cell k') = key_ i)) →
  runs (it ← deref_it t i; '(t', _) ← update_key t it f; Ok (set_db sl d t'))
    (λ sl', now_rep fresh sl sl' d m i).
Proof.
  intros Hdb Hr Hp Hf. destruct (deref_valid fresh t m i Hr Hp) as (it & e & Hi & He & Hk & ->). rewrite bind_ok.
  pose proof Hr as [(G & Hd & Hnd & Hsz) Hm].
  eapply runs_bind; [eapply (update_key_spec (PO:=prime_ok fresh) t G it e f (λ _, True) Hd He)|].
  { intros k Hok Ek. rewrite Hk in *. eapply runs_mono; [by apply Hf|]. intros [k' r] [? ?]. done. }
  intros [t' r] (_ & Hd' & Hsz' & Hi' & He'). apply Permutation_cons_inv in Hi'. apply runs_ok.
  split; [by apply others_kept_set|]. exists t'. split_and!; [by eapply get_set_db| |].
  - split; [exists G; split_and!; [done|by rewrite Hi'|by rewrite Hsz', Hi']|].
    rewrite <- Hm. apply to_map_perm; [by rewrite Hi'|done].
  - unfold points_to. rewrite Hi. by exists e.
Qed.

Lemma now_rep_trans fresh sl sl1 sl2 d m1 m2 i : now_rep fresh sl sl1 d m1 i → now_rep fresh sl1 sl2 d m2 i →
  now_rep fresh sl sl2 d m2 i.
Proof. intros [Ho _] [Ho2 Ht]. split; [by eapply others_kept_trans|done]. Qed.

(** [it->second = PrimeValue{s}] *)
Lemma assign_value_spec sl d t m i s (obj : PrimeValue) : value_of_string s = Ok obj →
  get_db sl d = Ok t → rep (PO:=prime_ok true) t m → points_to t i →
  runs (assign_value sl d i obj) (λ sl', now_rep true sl sl' d (<[key_ i := Some s]> m) i).
Proof.
  intros Hobj Hdb Hr Hp. unfold assign_value. rewrite Hdb, bind_ok.
  apply (update_points true sl d t m i (λ v, v' ← AssignVal v obj; Ok (v', tt)) (Some s)); try done.
  intros v Hv. unfold value_of_string, obj_of_string in Hobj. cbn in Hobj. injection Hobj as <-.
  destruct v as [[[s'| |] e ik tg] w]; destruct Hv as [[Ha Ht] _]; simpl in *; try done.
  apply runs_ok. split; [|done]. split; [|done]. split; [done|by left].
Qed.

(** [it->second.SetString(s)] *)
Definition set_value_string s (v : PrimeValue) : res (PrimeValue * unit) :=
  o ← SetString (pv_obj v) s; Ok (mkValue o true, tt).

Lemma set_value_string_spec s (v : PrimeValue) : prime_val_ok v →
  runs (set_value_string s v) (λ '(v', _), prime_val_ok v' ∧ value_of v' = Some s).
Proof.
  destruct v as [[[s'| |] e ik tg] w]; intros [[Ha Ht] _]; simpl in *; try done.
  apply runs_ok. split; [|done]. split; [|done]. split; [done|by left].
Qed.

(** The expiry time of the key is cleared; the map stays. *)
Lemma RemoveExpire_spec fresh sl d t m i : get_db sl d = Ok t → rep (PO:=prime_ok fresh) t m → points_to t i →
  runs (RemoveExpire sl d i) (λ '(sl', _), now_rep fresh sl sl' d m i).
Proof.
  intros Hdb Hr Hp. unfold RemoveExpire. rewrite Hdb, bind_ok.
  destruct (deref_valid fresh t m i Hr Hp) as (it & e & Hi & He & Hk & E). pose proof Hr as [(G & Hd & _) _].
  rewrite E, bind_ok. rbind (it_key_spec (PO:=prime_ok fresh) t G it e Hd He). intros k [Hok Ek].
  rbind (it_value_spec (PO:=prime_ok fresh) t G it e Hd He). intros _ _.
  destruct (HasExpire k); cbn [negb].
  - destruct (update_key_points fresh sl d t m i ClearExpireTime Hdb Hr Hp) as (sl' & E' & Hn).
    { intros [[s'| |] ex ik tg] [Ha Ht] Ek'; simpl in *; try done. unfold ClearExpireTime. simpl.
      destruct (tg =? TTL_STR_TAG); simpl; apply runs_ok; (split; [|done]); (split; [done|]); [by left|done]. }
    rewrite E, bind_ok in E'. rewrite bind_ok. apply bind_ok_inv in E' as ([t' b] & -> & E'). rewrite bind_ok.
    injection E' as <-. by apply runs_ok.
  - apply runs_ok. split; [done|]. exists t. done.
Qed.

(** The expiry time is set; the map stays when assigning the key to itself keeps it. *)
Lemma AddExpire_spec sl d t m i at_ms : get_db sl d = Ok t → rep (PO:=prime_ok false) t m → points_to t i →
  self_move (key_ i) = key_ i →
  runs (AddExpire sl d i at_ms) (λ sl', now_rep false sl sl' d m i).
Proof.
  intros Hdb Hr Hp Hself. unfold AddExpire. rewrite Hdb, bind_ok.
  apply (update_key_points false sl d t m i (λ k, k' ← SetExpireTime k at_ms; Ok (k', tt))); try done.
  intros [[s'| |] ex ik tg] [Ha Ht] Ek'; simpl in *; try done. subst s'. unfold SetExpireTime. simpl.
  destruct (tg =? TTL_STR_TAG) eqn:Etg; simpl; apply runs_ok; rewrite ?Hself; (split; [|done]); (split; [done|]); right; simpl.
  - split; [done|lia].
  - done.
Qed.

(** Deletion through an iterator that may be stale. *)
Lemma Del_spec sl cntx t m i : get_db sl (db_index_ cntx) = Ok t → rep (PO:=prime_ok false) t m →
  (∀ it, it_ i = Some it → in_range it) → it_ i ≠ None → is_Some (m !! key_ i) →
  runs (Del sl cntx i) (λ sl', others_kept sl sl' (db_index_ cntx) ∧
    slice_rep false sl' (db_index_ cntx) (delete (key_ i) m)).
Proof.
  intros Hdb Hr Hin Hne Hw. unfold Del, PerformDeletionAtomic. rewrite Hdb, bind_ok.
  destruct (deref_points false t m i Hr Hin Hne Hw) as (it & E & e & He & Hk). rewrite E, bind_ok.
  pose proof Hr as [(G & Hd & _) _].
  rbind (Erase_spec (PO:=prime_ok false) (DO:=prime_destroy_ok) t G it e Hd He). intros t' Her. apply runs_ok.
  split; [apply others_kept_set|]. exists t'. split; [by eapply get_set_db|]. rewrite <- Hk.
  by apply (erased_rep (PO:=prime_ok false) t m t' G e).
Qed.
End ops.
