(* ===== verification/DbSpec.v ===== *)
(** DbSpec: the theorems on the store of one shard: the key and value objects,
    the slots of the table that holds them, and the operations of DbSlice. *)
From stdpp Require Import gmap strings.
From S2P Require Import Prelude Policy SlotBitmap BucketBase Bucket Segment SegmentInv SegmentOps SegmentSplit DashTable DashTableInv DashTableGrow DashTableValue DashTableOps DashTableErase DashMap CompactObj PrimeTable DbSlice DbSliceInv DbSliceOps.
Local Open Scope Z_scope.

Section objects.
Context `{StdLib}.
Implicit Types (o src : CompactObj) (s : string).

(** What an object is to its users: nothing, an integer, a string, a string
    with an expiry time. The storage agrees with the tag. *)
Definition obj_ok o : Prop :=
  match cell o with
  | Live _ => tag_ o = 0 ∨ tag_ o = STR_TAG ∨ tag_ o = TTL_STR_TAG
  | Dead => tag_ o = 0
  | IntBits _ => tag_ o = INT_TAG
  end.

(** Move assignment on every pair of well-formed objects. It copies a
    string and an integer; it leaves the destination as it was when the source
    holds nothing; it copies the string and the expiry time of a source with an
    expiry time but not its tag; and it fails exactly when a string is assigned
    over an integer or over a destroyed string. *)
Theorem move_assign_branches o src : obj_ok o → obj_ok src →
  match cell src with
  | IntBits z => move_assign o src = Ok (SetInt o z)
  | Dead => move_assign o src = Ok o
  | Live s =>
      if tag_ src =? 0 then move_assign o src = Ok o else
      match cell o with
      | Live _ => ∃ o', move_assign o src = Ok o' ∧ cell o' = Live s ∧
                    (tag_ src = STR_TAG → tag_ o' = STR_TAG ∧ exp_ms_ o' = exp_ms_ o) ∧
                    (tag_ src = TTL_STR_TAG → tag_ o' = tag_ o ∧ exp_ms_ o' = exp_ms_ src)
      | _ => move_assign o src = Fault UseAfterFree
      end
  end.
Proof.
  destruct o as [c e k tg], src as [[s| |z] e2 k2 tg2]; unfold obj_ok; simpl; intros Ho Hs.
  - destruct Hs as [->|[->| ->]]; simpl; [done|..]; destruct c; simpl; try done; eexists; split_and!; try done.
  - by rewrite Hs.
  - by rewrite Hs.
Qed.

(** The tables keep their objects well formed: a fresh slot and its updates. *)
Lemma prime_objects_ok fresh (k : CompactObj) (v : PrimeValue) :
  prime_key_ok fresh k → prime_val_ok v → obj_ok k ∧ obj_ok (pv_obj v).
Proof.
  intros [Hk Ht] [[Hv Hvt] _]. unfold obj_ok. destruct (cell k); [|done..]. destruct (cell (pv_obj v)); [|done..].
  split; [destruct Ht as [?|[_ ?]]|destruct Hvt as [?|?]]; auto.
Qed.
End objects.

(** A freed slot is the next one to be taken when the slots below it are in use. *)
Lemma freed_slot_first n (Hn : (0 < n ≤ 28)%nat) (b : SlotBitmap) j : SlotBitmap.wf n b → (j < n)%nat →
  (∀ l, (l < j)%nat → busy_bit b l = true) →
  let b' := SlotBitmap.ClearSlots b (bit_at true j) in
  SlotBitmap.IsFull n b' = false ∧ SlotBitmap.FindEmptySlot n b' = Ok j.
Proof.
  intros Hw Hj Hlow b'. destruct (ClearSlots_spec n Hn b (bit_at true j) Hw) as (Hwf & Hbusy & _).
  assert (busy_bit b' j = false) as Hfree
    by (unfold b'; by rewrite Hbusy, bit_at_testbit, bool_decide_true, andb_false_r).
  assert (SlotBitmap.IsFull n b' = false) as Hfull.
  { apply not_true_iff_false. intros Hf. apply (IsFull_spec n _ Hwf) with (i := j) in Hf; [|done]. by unfold b' in Hfree; rewrite Hf in Hfree. }
  split; [done|]. destruct (FindEmptySlot_spec n Hn b' Hwf Hfull) as (x & -> & Hx & Hfx & Hl). f_equal.
  destruct (Nat.lt_total x j) as [Hlt|[?|Hgt]]; [|done|by rewrite (Hl j Hgt) in Hfree].
  unfold b' in Hfx. rewrite Hbusy, (Hlow x Hlt), bit_at_testbit, bool_decide_false in Hfx by lia. done.
Qed.

Section slots.
Context `{StdLib}.
Implicit Types (s : Segment CompactObj PrimeValue).

Lemma destroy_slot_dead s i j b k v : bucket_ s !! i = Some b → occupied b j = true →
  key b !! j = Some k → value b !! j = Some v → prime_key_ok false k → prime_val_ok v →
  ∃ k' v', destroy_slot s i j = Ok (seg_set s i (mkBucket (base b) (<[j := k']> (key b)) (<[j := v']> (value b)))) ∧
    cell k' = Dead.
Proof.
  intros Hb Ho Hk Hv Hok Hvok. unfold destroy_slot.
  assert (BucketBase.IsBusy (base b) j = true) as Hbusy by (unfold BucketBase.IsBusy; by rewrite land_bit_at).
  rewrite (cell_Key s i j b k) by done. rewrite bind_ok.
  assert (∃ k', DestroyKey k = Ok k' ∧ cell k' = Dead) as (k' & Ek & Hdead).
  { destruct k as [[s0| |] e ik tg]; destruct Hok as [Ha Ht]; simpl in *; try done. unfold Reset. simpl.
    destruct Ht as [->|[_ ->]]; simpl; eexists; split; done. }
  assert (∃ v', DestroyValue v = Ok v') as [v' Ev].
  { destruct v as [[[s0| |] e ik tg] w]; destruct Hvok as [[Ha Ht] _]; simpl in *; try done. unfold Reset. simpl.
    destruct Ht as [->| ->]; simpl; eexists; done. }
  rewrite Ek, bind_ok. unfold on_bucket, GetBucket. rewrite (aget_some _ _ _ Hb), bind_ok, (aset_some _ _ _ _ Hk), !bind_ok.
  cbv beta iota. rewrite (set_bucket_ok s i b _ Hb), !bind_ok. cbv beta iota. set (b1 := mkBucket _ _ _). set (s1 := seg_set s i b1).
  assert (bucket_ s1 !! i = Some b1) as Hb1 by (unfold s1; by rewrite (seg_set_lookup _ _ b), decide_True).
  rewrite (cell_Value s1 i j b1 v) by done. rewrite bind_ok, Ev, bind_ok.
  rewrite (aget_some _ _ _ Hb1), bind_ok. change (value b1) with (value b). rewrite (aset_some _ _ _ _ Hv), !bind_ok. cbv beta iota.
  rewrite (set_bucket_ok s1 i b1 _ Hb1), !bind_ok. exists k', v'. split; [|done].
  unfold s1, seg_set, set_buckets. simpl. by rewrite list_insert_insert_eq.
Qed.

End slots.

Section store.
Context `{StdLib}.
Implicit Types (sl : DbSlice) (m : gmap string (option string)) (key s : string) (i : SliceIt) (cntx : DbContext).


(** A stale iterator is repaired: whatever position it has, using it
    reaches its key, or yields the end iterator when the key is gone. *)
Theorem launder_repairs fresh sl d t m i : slice_rep fresh sl d m → get_db sl d = Ok t →
  (∀ it, it_ i = Some it → in_range it) →
  runs (launder t i) (λ i', key_ i' = key_ i ∧
    match it_ i' with
    | Some it => runs (it_key t it) (λ k, cell k = Live (key_ i)) ∧ is_Some (m !! key_ i)
    | None => it_ i = None ∨ m !! key_ i = None
    end).
Proof.
  intros (t' & Hdb' & Hr) Hdb Hin. rewrite Hdb in Hdb'. injection Hdb' as <-.
  eapply runs_mono; [by apply (launder_points fresh t m i Hr)|]. intros i' (Hk & [[Hp Hm]|[-> Hm]]); (split; [done|]); [|done].
  unfold points_to in Hp. destruct (it_ i') as [it|]; [|done]. destruct Hp as (e & He & Hke). split; [|done].
  pose proof Hr as [(G & Hd & _) _].
  eapply runs_mono; [apply (it_key_spec (PO:=prime_ok fresh) t G it e Hd He)|]. intros k [Hok Ek]. simpl in Ek.
  rewrite (key_denotes fresh k Hok). congruence.
Qed.

(** An iterator made by [FromPrime] has lost its key: its first use looks for the
    empty string, and unless that is stored there is nothing to dereference. *)
Theorem from_prime_loses_key fresh sl d t m it : slice_rep fresh sl d m → get_db sl d = Ok t → in_range it → m !! "" = None →
  deref_it t (FromPrime (Some it)) = Fault UseAfterFree.
Proof.
  intros (t' & Hdb' & Hr) Hdb Hin Hno. rewrite Hdb in Hdb'. injection Hdb' as <-. unfold deref_it.
  destruct (launder_points fresh t m (FromPrime (Some it)) Hr) as (i' & -> & Hk & [[_ Hm]|[Hn _]]); [by intros ? [= <-]| |].
  - simpl in Hm. rewrite Hno in Hm. by destruct Hm.
  - by rewrite bind_ok, Hn.
Qed.

(** Del removes the key of the iterator, also when the iterator is stale,
    and no other database changes. *)
Theorem Del_refines sl cntx m i : slice_rep false sl (db_index_ cntx) m →
  (∀ it, it_ i = Some it → in_range it) → it_ i ≠ None → is_Some (m !! key_ i) →
  runs (Del sl cntx i) (λ sl', others_kept sl sl' (db_index_ cntx) ∧
    slice_rep false sl' (db_index_ cntx) (delete (key_ i) m)).
Proof. intros (t & Hdb & Hr). by apply (Del_spec sl cntx t m i). Qed.

(** Setting the expiry time of a key moves its string onto itself. With a
    library whose self-move keeps the string the databases keep their maps;
    otherwise the key object holds what the library leaves in the string. *)
Theorem AddExpire_self_move sl d t m i at_ms : slice_rep false sl d m → get_db sl d = Ok t → points_to t i →
  (self_move (key_ i) = key_ i → runs (AddExpire sl d i at_ms) (λ sl', slice_rep false sl' d m)) ∧
  (∀ (k : CompactObj), prime_key_ok true k → str_of (cell k) = key_ i →
     ∃ k', SetExpireTime k at_ms = Ok k' ∧ cell k' = Live (self_move (key_ i)) ∧
           HasExpire k' = true ∧ GetExpireTime k' = at_ms).
Proof.
  intros (t' & Hdb' & Hr) Hdb Hp. rewrite Hdb in Hdb'. injection Hdb' as <-. split.
  - intros Hself. eapply runs_mono; [by apply (AddExpire_spec sl d t m i at_ms Hdb Hr Hp)|].
    intros sl' [_ (t' & ? & ? & _)]. by exists t'.
  - intros [[s| |] e ik tg] [Ha [Ht|[? _]]] Es; simpl in *; try done. subst. unfold SetExpireTime. simpl. eexists. split_and!; done.
Qed.
End store.
