(* ===== verification/Sample.v ===== *)
(** Sample: a concrete table policy, integers hashed by a multiplication, with
    the slot and bucket numbers of PrimeTablePolicy. It shows that the laws of
    TablePolicyOk can hold, and the theorems on tables are tried on it. Below it, a
    concrete library for the objects of the store. *)
From Stdlib Require Import Ascii String.
From S2P Require Import Prelude Policy CompactObj.
Local Open Scope Z_scope.

#[export] Instance IntPolicy : TablePolicy Z Z Z := {
  kSlotNum := 14;
  kBucketNum := 56;
  HashFn k := Ok (u64 (k * 11400714819323198485));
  HashFnQ q := u64 (q * 11400714819323198485);
  Equal k q := k =? q;
  AssignKey _ u := Ok (match u with FromQuery q => q | FromKey k => k end);
  AssignVal _ v := Ok v;
  DestroyKey _ := Ok 0;
  DestroyValue _ := Ok 0;
  DtorKey _ := Ok tt;
  DtorValue _ := Ok tt;
  key_init := 0;
  val_init := 0;
  raw_byte i j := u8 (Z.of_nat (7 * i + 3 * j));
}.

#[export] Instance IntDenote : TableDenote Z Z Z Z := { key_of := id; val_of := id }.

#[export] Instance IntPolicyOk : TablePolicyOk Z Z Z Z.
Proof.
  refine {| key_ok := λ _, True; val_ok := λ _, True;
            key_asg := λ _, True; val_asg := λ _, True |}; simpl; try done; try lia.
  - intros q. apply uN_range. lia.
Defined.

#[export] Instance IntAssignOk : TableAssignOk Z Z Z Z.
Proof. split; intros; by apply runs_ok. Qed.

#[export] Instance IntDestroyOk : TableDestroyOk Z Z Z Z.
Proof. split; intros ? _; [by apply runs_ok..|done|done]. Qed.

(** * The library of the store

    A concrete choice for what the C++ library decides: a string hash, an
    uninitialised word, and a string that is empty after it was moved to itself, as
    libstdc++ leaves it. *)

Fixpoint sample_hash (s : string) (acc : Z) : Z :=
  match s with
  | EmptyString => acc
  | String c s' => sample_hash s' (u64 (Z.lxor acc (Z.of_nat (nat_of_ascii c)) * 1099511628211))
  end.

Definition SampleLib (self : string → string) : StdLib.
Proof.
  refine {| std_hash s := u64 (sample_hash s 14695981039346656037); std_hash_int z := u64 z; self_move := self;
            raw_word := 12345; raw_mem i j := u8 (Z.of_nat (7 * i + 3 * j)) |}.
  intros s. apply uN_range. lia.
Defined.
