(* ===== verification/DashWitness.v ===== *)
(** DashWitness: the theorems on tables applied to concrete tables. *)
From stdpp Require Import gmap.
From S2P Require Import Prelude Policy SlotBitmap BucketBase Bucket Segment SegmentInv SegmentOps SegmentSplit DashTable DashTableInv DashTableGrow DashTableOps DashTableErase DashTableClear DashTableIter DashTableScan DashMap DashSpec Sample.
Local Open Scope Z_scope.

(** A table of two segments, with or without the keys 1 and 2. *)
Lemma sample_empty : runs (new_table (K:=Z) (V:=Z) 1) (λ t, rep t (∅ : gmap Z Z) ∧ items t = []).
Proof.
  eapply runs_mono; [apply (new_table_spec (W:=Z) 1); lia|]. intros t (Hd & Hi & Hsz). split; [|done].
  split; [|unfold to_map; by rewrite Hi]. exists 1%nat. rewrite Hi, Hsz. split_and!; [done|constructor|done].
Qed.

Lemma sample_one : runs (t ← new_table (K:=Z) (V:=Z) 1; '(t', it, _) ← InsertInternal 1 t 1 10 true; Ok (t', it))
  (λ '(t, it), rep t ({[1 := 10]} : gmap Z Z) ∧ ∃ e : entry Z Z, t_holds t it e ∧ kv e = (1, 10)).
Proof.
  rbind sample_empty. intros t [Hr Hi].
  rbind (InsertInternal_spec t ∅ 1 10 0 1 true Hr); [done|rewrite Hi; apply can_insert_small; simpl; lia|lia|done|].
  intros [[t' it] [|]] Hpost; apply runs_ok.
  - by destruct (insert_post_true _ _ _ _ _ _ Hr Hpost) as (_ & Hrep & He).
  - by destruct (insert_post_false _ _ _ _ _ _ Hr Hpost) as ([w Hw] & _).
Qed.

Lemma Insert_refines_witness :
  runs (t ← new_table (K:=Z) (V:=Z) 1; DashTable.Insert 1 t 1 10) (λ '(t', it, r), rep t' ({[1 := 10]} : gmap Z Z) ∧ r = true).
Proof.
  rbind sample_empty. intros t [Hr Hi].
  eapply runs_mono; [apply (Insert_refines t ∅ 1 10 0 1 Hr); [done|rewrite Hi; apply can_insert_small; simpl; lia|lia]|].
  intros [[t' it] r] (Hrep & Hiff & _). assert (r = true) as -> by by apply Hiff. done.
Defined.

Lemma InsertNew_refines_witness :
  runs (t ← new_table (K:=Z) (V:=Z) 1; InsertNew 1 t 2 20) (λ '(t', it), rep t' ({[2 := 20]} : gmap Z Z)).
Proof.
  rbind sample_empty. intros t [Hr Hi].
  eapply runs_mono; [apply (InsertNew_refines t ∅ 2 20 0 1 Hr); [done|rewrite Hi; apply can_insert_small; simpl; lia|lia|done]|].
  intros [t' it] (Hrep & _). done.
Defined.

Lemma Find_refines_witness :
  runs ('(t, _) ← (t ← new_table (K:=Z) (V:=Z) 1; '(t', it, _) ← InsertInternal 1 t 1 10 true; Ok (t', it)); Find t 1)
       (λ r, r ≠ None).
Proof.
  rbind sample_one. intros [t it] [Hr _].
  eapply runs_mono; [apply (Find_refines t _ 1 Hr)|]. intros [r|]; [done|]. by rewrite lookup_singleton_eq.
Defined.

Lemma Erase_refines_witness :
  runs ('(t, it) ← (t ← new_table (K:=Z) (V:=Z) 1; '(t', it, _) ← InsertInternal 1 t 1 10 true; Ok (t', it)); Erase t it)
       (λ t, rep t (∅ : gmap Z Z)).
Proof.
  rbind sample_one. intros [t it] (Hr & e & He & Hkv).
  eapply runs_mono; [apply (Erase_refines t _ it e Hr He)|]. intros t' Hr'. unfold kv in Hkv. injection Hkv as Hk _.
  rewrite Hk, delete_singleton_eq in Hr'. done.
Defined.

Lemma EraseKey_refines_witness :
  runs ('(t, it) ← (t ← new_table (K:=Z) (V:=Z) 1; '(t', it, _) ← InsertInternal 1 t 1 10 true; Ok (t', it)); EraseKey t 1)
       (λ '(t, n), rep t (∅ : gmap Z Z) ∧ n = 1%nat).
Proof.
  rbind sample_one. intros [t it] (Hr & _).
  eapply runs_mono; [apply (EraseKey_refines t _ 1 Hr)|]. intros [t' n] [Hr' Hn]. rewrite delete_singleton_eq in Hr'.
  split; [done|]. destruct Hn as [[-> _]|(_ & Hn & _)]; [done|by rewrite lookup_singleton_eq in Hn].
Defined.

Lemma new_table_refines_witness : (3 ≤ 31)%nat ∧ runs (new_table (K:=Z) (V:=Z) 3) (λ t, rep t (∅ : gmap Z Z)).
Proof. split; [lia|apply (new_table_refines 3); lia]. Defined.

(** ** The other operations of tables *)

Lemma sample_one_rep : runs (t ← new_table (K:=Z) (V:=Z) 1; '(t', _, _) ← InsertInternal 1 t 1 10 true; Ok t')
  (λ t, rep t ({[1 := 10]} : gmap Z Z)).
Proof.
  destruct sample_one as ([t it] & E & Hr & _). apply bind_ok_inv in E as (t0 & E0 & E).
  apply bind_ok_inv in E as ([[t1 it1] r] & E1 & E). injection E as -> ->. rewrite E0, bind_ok, E1, bind_ok. by apply runs_ok.
Qed.

Lemma Clear_refines_witness :
  runs (t ← (t ← new_table (K:=Z) (V:=Z) 1; '(t', _, _) ← InsertInternal 1 t 1 10 true; Ok t'); DashTable.Clear t)
       (λ t, rep t (∅ : gmap Z Z)).
Proof. rbind sample_one_rep. intros t Hr. eapply runs_mono; [apply (Clear_refines t _ Hr)|]. by intros t' (? & _). Defined.

Lemma iteration_complete_witness :
  runs (t ← (t ← new_table (K:=Z) (V:=Z) 1; '(t', _, _) ← InsertInternal 1 t 1 10 true; Ok t');
        it ← begin t; collect 1 t it) (λ its, length its = 1%nat).
Proof.
  rbind sample_one_rep. intros t Hr. pose proof (iteration_complete t _ Hr) as Hi. rewrite map_size_singleton in Hi.
  eapply runs_mono; [exact Hi|]. intros its (es & Hes & Hp). apply Forall2_length in Hes. rewrite Hes.
  rewrite map_to_list_singleton in Hp. apply Permutation_length in Hp. by rewrite length_fmap in Hp.
Defined.

Lemma scan_complete_witness :
  runs (t ← (t ← new_table (K:=Z) (V:=Z) 1; '(t', _, _) ← InsertInternal 1 t 1 10 true; Ok t');
        traverse_all (λ _, t) (56 * length (segment_ t)) 0 (λ _ n, Ok (S n)) 0%nat) (λ n, n = 1%nat).
Proof.
  rbind sample_one_rep. intros t Hr. eapply runs_mono; [apply (scan_complete t _ (λ _ n, S n) 0%nat Hr)|].
  intros n (its & es & -> & Hes & Hp). apply Forall2_length in Hes.
  rewrite map_to_list_singleton in Hp. apply Permutation_length in Hp. rewrite length_fmap in Hp. simpl in Hp.
  destruct its as [|it1 [|it2 its]]; simpl in *; lia.
Defined.

Lemma cursor_stable_witness :
  (3 + 2 ≤ 31)%nat ∧ cursor_bucket_id (Cursor 3 5 7) = 7 ∧ cursor_segment_id (Cursor 3 5 7) 5 = 20.
Proof. split; [lia|]. apply (cursor_stable 3 2 5 7); [lia|simpl; lia|lia]. Defined.

Lemma sample_empty_depth : runs (new_table (K:=Z) (V:=Z) 1)
  (λ t, rep t (∅ : gmap Z Z) ∧ global_depth_ t = 1 ∧ dir_wf t 1 ∧ items t = []).
Proof.
  eapply runs_mono; [apply (new_table_spec (W:=Z) 1); lia|]. intros t (Hd & Hi & Hsz). split_and!; [|apply Hd|done|done].
  split; [|unfold to_map; by rewrite Hi]. exists 1%nat. rewrite Hi, Hsz. split_and!; [done|constructor|done].
Qed.

Lemma IncreaseDepth_refines_witness :
  runs (t ← new_table (K:=Z) (V:=Z) 1; IncreaseDepth t (global_depth_ t + 1))
       (λ t, rep t (∅ : gmap Z Z) ∧ global_depth_ t = 2).
Proof.
  rbind sample_empty_depth. intros t (Hr & Hg & _). eapply runs_mono; [apply (IncreaseDepth_refines t _ 1 Hr Hg); lia|].
  by intros t' (? & ? & _).
Defined.

Lemma sample_grown : runs (t ← new_table (K:=Z) (V:=Z) 1; IncreaseDepth t 2)
  (λ t, rep t (∅ : gmap Z Z) ∧ ∃ p s, segment_ t !! 0%nat = Some p ∧ heap_ t !! p = Some s ∧
        local_depth_ s < global_depth_ t ∧ seg_items s = []).
Proof.
  rbind sample_empty_depth. intros t (Hr & Hg & Hd & Hi). change 2 with (Z.of_nat 1 + 1).
  eapply runs_mono; [by apply (IncreaseDepth_spec t 1); try lia|]. intros t' [Hd' Hids Hsz Hseg]. split.
  { eapply rep_of_items; [done..|]. by rewrite (ids_only_items t t' Hids). }
  destruct (dir_lookup t' 2 0 Hd') as (p & s & L & b & Hp & Hs & Hb & _); [simpl; lia|].
  exists p, s. split_and!; [done|done| |].
  - destruct (Hids p) as [[? _]|(s0 & id & Hs0 & Hs1)]; [congruence|]. rewrite Hs in Hs1. injection Hs1 as ->.
    destruct (dw_block _ _ Hd _ _ Hs0) as (L0 & b0 & Hb0). pose proof (bo_depth _ _ _ _ _ _ Hb0).
    pose proof (bo_le _ _ _ _ _ _ Hb0). pose proof (dw_depth _ _ Hd'). simpl in *. lia.
  - apply elem_of_nil_inv. intros x Hx. assert (x ∈ items t') as Hx' by (apply elem_of_items; eauto).
    rewrite (ids_only_items t t' Hids), Hi in Hx'. by apply elem_of_nil in Hx'.
Qed.

Lemma Split_refines_witness :
  runs (t ← (t ← new_table (K:=Z) (V:=Z) 1; IncreaseDepth t 2); DashTable.Split t 0) (λ t, rep t (∅ : gmap Z Z)).
Proof.
  rbind sample_grown. intros t (Hr & p & s & Hp & Hs & Hlt & Hi).
  eapply runs_mono; [apply (Split_refines t _ 0 p s Hr Hp Hs Hlt)|by intros t' (? & _)].
  intros y. rewrite Hi. unfold count, rights. simpl. lia.
Defined.

(** ** Segments *)

Definition sample_segment : Segment Z Z := new_segment 0 0.
Lemma sample_segment_wf : seg_wf sample_segment ∧ seg_items sample_segment = [].
Proof. apply (new_segment_wf (W:=Z)). Qed.

Lemma sample_not_crowded q : ¬ crowded sample_segment (home q).
Proof.
  intros Hc. destruct sample_segment_wf as [[Hs _] Hi].
  pose proof (crowded_size sample_segment _ Hs (home_index_lt _) Hc) as Hl. rewrite Hi in Hl. simpl in Hl. lia.
Qed.

Lemma sample_segment_one : runs (InsertUniq sample_segment (FromQuery 5) 50 (HashFnQ 5) true)
  (λ '(s, r), match r with Some it => seg_wf s ∧ seg_items s ≡ₚ [(5, 50)] ∧
     ∃ e : entry Z Z, holds s (index it) (slot it) e ∧ kv e = (5, 50) | None => False end).
Proof.
  destruct sample_segment_wf as [Hw Hi].
  eapply runs_mono; [apply (InsertUniq_spec sample_segment (FromQuery 5) 50 true Hw); done|].
  intros [s [it|]].
  - intros [[Hw' _ Hi' Hat] _]. by rewrite Hi in Hi'.
  - intros [_ Hc]. by apply sample_not_crowded in Hc.
Qed.

Lemma FindIt_correct_witness :
  runs ('(s, _) ← InsertUniq sample_segment (FromQuery 5) 50 (HashFnQ 5) true; FindIt s (HashFnQ 5) (λ k, Equal k 5))
       (λ r, is_Some r).
Proof.
  rbind sample_segment_one. intros [s [it|]]; [|done]. intros (Hw & Hi & _).
  eapply runs_mono; [apply (FindIt_correct s 5 Hw)|]. intros r [Hr _]. apply Hr. rewrite Hi. by left.
Defined.

Lemma InsertUniq_correct_witness : seg_wf sample_segment ∧
  runs (InsertUniq sample_segment (FromQuery 5) 50 (HashFnQ 5) false) (λ '(s', r),
    match r with Some it => seg_items s' ≡ₚ (5, 50) :: seg_items sample_segment | None => s' = sample_segment end).
Proof.
  destruct sample_segment_wf as [Hw Hi]. split; [done|].
  eapply runs_mono; [apply (InsertUniq_correct sample_segment (FromQuery 5) 50 false Hw); done|].
  intros [s [it|]]; [by intros (_ & ? & _)|by intros [? _]].
Defined.

Lemma Delete_correct_witness :
  runs ('(s, it) ← InsertUniq sample_segment (FromQuery 5) 50 (HashFnQ 5) true;
        match it with Some i => Segment.Delete s i (HashFnQ 5) | None => Fault AssertFailed end)
       (λ s, seg_items s ≡ₚ []).
Proof.
  rbind sample_segment_one. intros [s [[i j]|]]; [|done]. intros (Hw & Hi & e & He & Hkv). unfold kv in Hkv.
  injection Hkv as Hk Hv. pose proof (Delete_correct s i j e Hw He) as Hd. rewrite Hk in Hd.
  eapply runs_mono; [exact Hd|]. intros s' (_ & Hp & _). rewrite Hi in Hp. unfold kv in Hp. rewrite Hk, Hv in Hp.
  by apply Permutation_cons_inv in Hp.
Defined.


(** ** Buckets *)

Definition sample_base : BucketBase := new_base (replicate 14 0) (replicate 4 0).

Lemma sample_base_wf : base_wf 14 sample_base ∧ acct sample_base sample_base [].
Proof.
  split.
  - split; [|done|split; simpl; try lia; try done; by intros i; rewrite Z.testbit_0_l].
    apply (empty_bitmap_wf 14). lia.
  - exists []. split_and!; [done|done|]. done.
Qed.

Lemma stash_ptr_roundtrip_witness :
  runs ('(this, next) ← SetStashPtr sample_base 2 77 sample_base; UnsetStashPtr this 77 2 next)
       (λ '(this, next, _), acct this next []).
Proof.
  destruct sample_base_wf as [Hw Ha]. pose proof (bwf_stash _ _ Hw) as Hs.
  eapply runs_mono; [apply (stash_ptr_roundtrip sample_base sample_base 77 2 [] Hs Hs); [lia|done|simpl; lia]|].
  by intros [[this next] r] [? _].
Defined.

Lemma Find_mask_witness : (0 < 14 ≤ 16)%nat ∧ BucketBase.Find 14 sample_base 0 false = 0.
Proof.
  split; [lia|]. apply zero_bits; [vm_compute; discriminate|]. intros k. apply not_true_iff_false. intros Hb.
  apply (Find_mask 14 sample_base 0 false k) in Hb; [|lia|apply sample_base_wf].
  destruct Hb as (_ & Hb & _). unfold busy_bit in Hb. simpl in Hb. by rewrite Z.testbit_0_l in Hb.
Defined.

Lemma FindEmptySlot_lowest_witness :
  runs (i ← FindEmptySlot 14 empty_bitmap; b' ← SlotBitmap.SetSlot empty_bitmap i true; Ok (i, b'))
       (λ '(i, b'), busy_bit b' 0 = true).
Proof.
  eapply runs_mono; [apply (FindEmptySlot_lowest 14 empty_bitmap true); [lia|apply (empty_bitmap_wf 14); lia|done]|].
  intros [i b'] (_ & _ & Hlow & Hb). rewrite Hb. destruct i as [|i]; [done|].
  specialize (Hlow 0%nat ltac:(lia)). unfold busy_bit in Hlow. simpl in Hlow. done.
Defined.

Lemma Swap_one_order_witness : (3 < 9 < 32)%nat ∧ SlotBitmap.Swap (mkSlotBitmap 8 8) 3 9 = mkSlotBitmap 8 8 ∧
  busy_bit (SlotBitmap.Swap (mkSlotBitmap 8 8) 9 3) 9 = true.
Proof.
  split; [lia|]. destruct (Swap_one_order (mkSlotBitmap 8 8) 3 9 ltac:(lia)) as [H1 H2]. split; [done|].
  by rewrite (proj1 (H2 9%nat)).
Defined.
