(* ===== verification/MpmcQueue.v ===== *)
(** MpmcQueue: the bounded queue of many producers and consumers that carries
    the tasks of the event loops and of the shards.
    Source: src/net/util/lock_free_queues/mpmc_bounded_queue.h.

    Each atomic access is a step: a thread is at a [pc] of one of the two
    operations, with the local variables it has read, and [step] does its next
    access. Between two steps of a thread the others may take any steps; the
    accesses are taken in one order (the code's acquire and release orders give
    each reader the cell as its writer left it). [compare_exchange_weak] may fail
    spuriously. The storage of a cell is [None] when no object lives in it. *)
From S2P Require Import Prelude.
Local Open Scope Z_scope.

Section queue.
Context {T : Type}.

Record cell_t : Type := mkCell { sequence : Z; storage : option T }.

Record Queue : Type := mkQueue {
  buffer_ : list cell_t;
  buffer_mask_ : Z;
  enqueue_pos_ : Z;
  dequeue_pos_ : Z;
}.

Definition set_cell (q : Queue) (i : nat) (c : cell_t) : Queue :=
  mkQueue (<[i := c]> (buffer_ q)) (buffer_mask_ q) (enqueue_pos_ q) (dequeue_pos_ q).
Definition set_enqueue (q : Queue) (pos : Z) : Queue := mkQueue (buffer_ q) (buffer_mask_ q) pos (dequeue_pos_ q).
Definition set_dequeue (q : Queue) (pos : Z) : Queue := mkQueue (buffer_ q) (buffer_mask_ q) (enqueue_pos_ q) pos.

(** The constructor; [None] is the exception. *)
Definition new_queue (buffer_size : Z) : option Queue :=
  if (buffer_size <? 2) || negb (Z.land buffer_size (u64 (buffer_size - 1)) =? 0) then None
  else Some (mkQueue ((λ i, mkCell (Z.of_nat i) None) <$> seq 0 (Z.to_nat buffer_size)) (u64 (buffer_size - 1)) 0 0).

(** [&buffer_[pos & buffer_mask_]] *)
Definition slot (q : Queue) (pos : Z) : nat := Z.to_nat (Z.land pos (buffer_mask_ q)).
Definition cell_at (q : Queue) (pos : Z) : res cell_t := aget (buffer_ q) (slot q pos).

(** [intptr_t(a) - intptr_t(b)] *)
Definition dif (a b : Z) : res Z := int64 (i64 a - i64 b).

(** ** The operations, one atomic access at a time *)

Inductive pc : Type :=
  | Idle
  (* try_enqueue(data) *)
  | EnqLoad (data : T)
  | EnqSeq (data : T) (pos : Z)
  | EnqCas (data : T) (pos : Z)
  | EnqConstruct (data : T) (pos : Z)
  | EnqCommit (pos : Z)
  | EnqDone (r : bool)
  (* try_dequeue(data) *)
  | DeqLoad
  | DeqSeq (pos : Z)
  | DeqCas (pos : Z)
  | DeqMove (pos : Z)
  | DeqCommit (pos : Z) (data : T)
  | DeqDone (r : option T).

(** The next access of [try_enqueue]. *)
Definition enqueue_step (spurious : bool) (q : Queue) (p : pc) : res (Queue * pc) :=
  match p with
  | EnqLoad data => Ok (q, EnqSeq data (enqueue_pos_ q))
  | EnqSeq data pos =>
      c ← cell_at q pos; d ← dif (sequence c) pos;
      Ok (q, if d =? 0 then EnqCas data pos else if d <? 0 then EnqDone false else EnqLoad data)
  | EnqCas data pos =>
      if negb spurious && (enqueue_pos_ q =? pos)
      then Ok (set_enqueue q (u64 (pos + 1)), EnqConstruct data pos) else Ok (q, EnqLoad data)
  | EnqConstruct data pos =>
      c ← cell_at q pos; Ok (set_cell q (slot q pos) (mkCell (sequence c) (Some data)), EnqCommit pos)
  | EnqCommit pos =>
      c ← cell_at q pos; Ok (set_cell q (slot q pos) (mkCell (u64 (pos + 1)) (storage c)), EnqDone true)
  | _ => Ok (q, p)
  end.

(** The next access of [try_dequeue]; moving the data out and destroying it is one step. *)
Definition dequeue_step (spurious : bool) (q : Queue) (p : pc) : res (Queue * pc) :=
  match p with
  | DeqLoad => Ok (q, DeqSeq (dequeue_pos_ q))
  | DeqSeq pos =>
      c ← cell_at q pos; d ← dif (sequence c) (u64 (pos + 1));
      Ok (q, if d =? 0 then DeqCas pos else if d <? 0 then DeqDone None else DeqLoad)
  | DeqCas pos =>
      if negb spurious && (dequeue_pos_ q =? pos)
      then Ok (set_dequeue q (u64 (pos + 1)), DeqMove pos) else Ok (q, DeqLoad)
  | DeqMove pos =>
      c ← cell_at q pos;
      match storage c with
      | Some v => Ok (set_cell q (slot q pos) (mkCell (sequence c) None), DeqCommit pos v)
      | None => Fault UseAfterFree
      end
  | DeqCommit pos v =>
      c ← cell_at q pos;
      Ok (set_cell q (slot q pos) (mkCell (u64 (pos + buffer_mask_ q + 1)) (storage c)), DeqDone (Some v))
  | _ => Ok (q, p)
  end.

Definition step (spurious : bool) (q : Queue) (p : pc) : res (Queue * pc) :=
  match p with
  | EnqLoad _ | EnqSeq _ _ | EnqCas _ _ | EnqConstruct _ _ | EnqCommit _ => enqueue_step spurious q p
  | _ => dequeue_step spurious q p
  end.

(** ** The operations without interference *)

Fixpoint run (fuel : nat) (q : Queue) (p : pc) : res (Queue * pc) :=
  match p with
  | Idle | EnqDone _ | DeqDone _ => Ok (q, p)
  | _ => match fuel with O => Fault NoFuel | S fuel' => '(q, p) ← step false q p; run fuel' q p end
  end.

(** Five accesses: load, sequence, exchange, data, commit. *)
Definition try_enqueue (q : Queue) (data : T) : res (Queue * bool) :=
  '(q, p) ← run 5 q (EnqLoad data);
  match p with EnqDone r => Ok (q, r) | _ => Fault NoFuel end.
Definition try_dequeue (q : Queue) : res (Queue * option T) :=
  '(q, p) ← run 5 q DeqLoad;
  match p with DeqDone r => Ok (q, r) | _ => Fault NoFuel end.

Definition is_full (q : Queue) : res bool :=
  let pos := enqueue_pos_ q in
  c ← cell_at q pos; d ← dif (sequence c) pos; Ok (d <? 0).
Definition empty (q : Queue) : res bool :=
  let pos := dequeue_pos_ q in
  c ← cell_at q pos; d ← dif (sequence c) (u64 (pos + 1)); Ok (d <? 0).
Definition capacity (q : Queue) : Z := u64 (buffer_mask_ q + 1).

(** The destructor: destroys the objects from the dequeue position on, until a
    cell that is behind. *)
Fixpoint destroy (fuel : nat) (q : Queue) : res Queue :=
  match fuel with
  | O => Fault NoFuel
  | S fuel' =>
      let pos := dequeue_pos_ q in
      let q := set_dequeue q (u64 (pos + 1)) in
      c ← cell_at q pos; d ← dif (sequence c) (u64 (pos + 1));
      if d <? 0 then Ok q else
      match storage c with
      | Some _ => destroy fuel' (set_cell q (slot q pos) (mkCell (sequence c) None))
      | None => Fault UseAfterFree
      end
  end.

(** ** Threads *)

(** The queue and its threads. [log_] lists the data in the order in which the
    producers took their positions, [taken_] the data that consumers have moved
    out, with their positions; the program does not store them. *)
Record System : Type := mkSystem {
  queue_ : Queue;
  threads_ : list pc;
  log_ : list T;
  taken_ : list (Z * T);
}.

Inductive action : Type :=
  | CallEnqueue (t : nat) (data : T)
  | CallDequeue (t : nat)
  | Step (t : nat) (spurious : bool).

Definition at_rest (p : pc) : bool := match p with Idle | EnqDone _ | DeqDone _ => true | _ => false end.

Definition call (s : System) (t : nat) (p : pc) : System :=
  match threads_ s !! t with
  | Some p0 => if at_rest p0 then mkSystem (queue_ s) (<[t := p]> (threads_ s)) (log_ s) (taken_ s) else s
  | None => s
  end.

Definition act (a : action) (s : System) : res System :=
  match a with
  | CallEnqueue t data => Ok (call s t (EnqLoad data))
  | CallDequeue t => Ok (call s t DeqLoad)
  | Step t spurious =>
      match threads_ s !! t with
      | None => Ok s
      | Some p =>
          '(q, p') ← step spurious (queue_ s) p;
          Ok (mkSystem q (<[t := p']> (threads_ s))
                (match p, p' with EnqCas _ _, EnqConstruct data _ => log_ s ++ [data] | _, _ => log_ s end)
                (match p, p' with DeqMove _, DeqCommit pos v => taken_ s ++ [(pos, v)] | _, _ => taken_ s end))
      end
  end.

Definition initial (q : Queue) (threads : nat) : System := mkSystem q (replicate threads Idle) [] [].
End queue.
Arguments cell_t _ : clear implicits.
Arguments Queue _ : clear implicits.
Arguments pc _ : clear implicits.
Arguments System _ : clear implicits.
Arguments action _ : clear implicits.
