(* ===== verification/MpmcInv.v ===== *)
(** MpmcInv: the invariant of the bounded queue under any interleaving.

    A position is a ticket. The cells hold the tickets of a window of [N]
    consecutive positions that ends at the enqueue position; a ticket is free,
    taken by a producer or a consumer at one of its accesses, or ready. *)
From S2P Require Import Prelude MpmcQueue.
Local Open Scope Z_scope.

(** Positions below this do not wrap around, and their differences are exact. *)
Definition kMaxPos : Z := 2 ^ 62.

Lemma dif_spec a b : 0 ≤ a < kMaxPos + 2 ^ 40 → 0 ≤ b < kMaxPos + 2 ^ 40 → dif a b = Ok (a - b).
Proof.
  unfold kMaxPos. intros Ha Hb. unfold dif, i64. rewrite !(proj2 (Z.ltb_lt _ (2 ^ 63))) by lia. unfold int64.
  rewrite (proj2 (Z.leb_le _ _)), (proj2 (Z.ltb_lt _ _)) by lia. done.
Qed.

Section inv.
Context {T : Type} (k : nat) (Hk : (1 ≤ k ≤ 32)%nat).
Implicit Types (q : Queue T) (s : System T) (p pos : Z) (t : nat) (c : cell_t T) (v : T).

Definition N : Z := 2 ^ Z.of_nat k.

Lemma N_bounds : 2 ≤ N ≤ 2 ^ 32.
Proof.
  unfold N. split.
  - change 2 with (2 ^ 1) at 1. apply Z.pow_le_mono_r; lia.
  - apply Z.pow_le_mono_r; lia.
Qed.

(** The cell of a position. *)
Definition idx pos : nat := Z.to_nat (pos mod N).

Lemma idx_lt pos : (idx pos < Z.to_nat N)%nat.
Proof. unfold idx. pose proof N_bounds. pose proof (Z.mod_pos_bound pos N). lia. Qed.

Lemma idx_inj base p p' : base ≤ p < base + N → base ≤ p' < base + N → idx p = idx p' → p = p'.
Proof.
  intros Hp Hp' E. pose proof N_bounds. pose proof (Z.mod_pos_bound p N). pose proof (Z.mod_pos_bound p' N).
  assert (p mod N = p' mod N) as Em by (unfold idx in E; lia).
  pose proof (Z.div_mod p N). pose proof (Z.div_mod p' N). assert (p / N = p' / N) by nia. nia.
Qed.

Lemma idx_shift p : idx (p - N) = idx p.
Proof. unfold idx. replace (p - N) with (p + (-1) * N) by lia. rewrite Z.mod_add; [done|]. pose proof N_bounds. lia. Qed.

Lemma slot_idx q pos : buffer_mask_ q = N - 1 → slot q pos = idx pos.
Proof.
  intros Hm. unfold slot, idx. rewrite Hm. f_equal. unfold N. rewrite <- Z.land_ones by lia. f_equal.
  rewrite Z.ones_equiv. lia.
Qed.


(** ** The state of a ticket *)

Inductive status : Type :=
  | Free | Reserved (t : nat) | Written (t : nat) | Ready | Taken (t : nat) | Moved (t : nat).

(** The datum that was enqueued with a ticket. *)
Definition datum (log : list T) pos : option T := log !! Z.to_nat pos.

(** The cell that serves a ticket in a given state. *)
Definition cell_is (log : list T) (d p : Z) (st : status) c : Prop :=
  match st with
  | Free => p < d ∧ c = mkCell (p + N) None
  | Reserved _ => d ≤ p ∧ c = mkCell p None
  | Written _ => d ≤ p ∧ c = mkCell p (datum log p)
  | Ready => d ≤ p ∧ c = mkCell (p + 1) (datum log p)
  | Taken _ => 0 ≤ p < d ∧ c = mkCell (p + 1) (datum log p)
  | Moved _ => 0 ≤ p < d ∧ c = mkCell (p + 1) None
  end.

(** The thread that is responsible for a ticket, and where it is. *)
Definition owner_is (threads : list (pc T)) p (st : status) : Prop :=
  match st with
  | Reserved t => ∃ v, threads !! t = Some (EnqConstruct v p)
  | Written t => threads !! t = Some (EnqCommit p)
  | Taken t => threads !! t = Some (DeqMove p)
  | Moved t => ∃ v, threads !! t = Some (DeqCommit p v)
  | _ => True
  end.

(** What a thread knows about the tickets. *)
Definition thread_ok (log : list T) (e d : Z) (S : Z → status) t (x : pc T) : Prop :=
  match x with
  | EnqSeq _ pos => 0 ≤ pos ≤ e
  | EnqCas _ pos => 0 ≤ pos ≤ e ∧ (pos = e → S (pos - N) = Free)
  | EnqConstruct v pos => e - N ≤ pos < e ∧ S pos = Reserved t ∧ datum log pos = Some v
  | EnqCommit pos => e - N ≤ pos < e ∧ S pos = Written t
  | DeqSeq pos => 0 ≤ pos ≤ d
  | DeqCas pos => 0 ≤ pos ≤ d ∧ (pos = d → pos < e ∧ S pos = Ready)
  | DeqMove pos => e - N ≤ pos < e ∧ S pos = Taken t
  | DeqCommit pos v => e - N ≤ pos < e ∧ S pos = Moved t ∧ datum log pos = Some v
  | _ => True
  end.

Record inv s (S : Z → status) : Prop := {
  in_len : length (buffer_ (queue_ s)) = Z.to_nat N;
  in_mask : buffer_mask_ (queue_ s) = N - 1;
  in_log : enqueue_pos_ (queue_ s) = Z.of_nat (length (log_ s));
  in_pos : 0 ≤ dequeue_pos_ (queue_ s) ≤ enqueue_pos_ (queue_ s);
  in_capacity : enqueue_pos_ (queue_ s) ≤ dequeue_pos_ (queue_ s) + N;
  in_cells : ∀ p, enqueue_pos_ (queue_ s) - N ≤ p < enqueue_pos_ (queue_ s) →
    ∃ c, buffer_ (queue_ s) !! idx p = Some c ∧ cell_is (log_ s) (dequeue_pos_ (queue_ s)) p (S p) c;
  in_owner : ∀ p, enqueue_pos_ (queue_ s) - N ≤ p < enqueue_pos_ (queue_ s) → owner_is (threads_ s) p (S p);
  in_threads : ∀ t x, threads_ s !! t = Some x →
    thread_ok (log_ s) (enqueue_pos_ (queue_ s)) (dequeue_pos_ (queue_ s)) S t x;
  in_taken : ∀ p v, (p, v) ∈ taken_ s → 0 ≤ p < dequeue_pos_ (queue_ s) ∧ datum (log_ s) p = Some v;
  in_once : NoDup (taken_ s).*1;
  in_all : ∀ p, 0 ≤ p < dequeue_pos_ (queue_ s) → p ∈ (taken_ s).*1 ↔
    ¬ (enqueue_pos_ (queue_ s) - N ≤ p ∧ ∃ t, S p = Taken t);
}.

(** ** Updates *)

Definition owns (st : status) t : Prop :=
  match st with Reserved t' | Written t' | Taken t' | Moved t' => t' = t | _ => False end.
Definition owning (x : pc T) : Prop :=
  match x with EnqConstruct _ _ | EnqCommit _ | DeqMove _ | DeqCommit _ _ => True | _ => False end.
Definition upd (S : Z → status) p (st : status) : Z → status := λ p', if decide (p' = p) then st else S p'.

Lemma upd_eq S p st : upd S p st p = st.
Proof. unfold upd. by rewrite decide_True. Qed.
Lemma upd_ne S p st p' : p' ≠ p → upd S p st p' = S p'.
Proof. intros Hne. unfold upd. by rewrite decide_False. Qed.

(** The position a thread is responsible for. *)
Lemma owner_pc threads p st t : owner_is threads p st → owns st t →
  ∃ x : pc T, threads !! t = Some x ∧
    (match x with EnqConstruct _ p' | EnqCommit p' | DeqMove p' | DeqCommit p' _ => p' = p | _ => False end).
Proof. destruct st; simpl; try done; intros H <-; [destruct H as [v H]| | |destruct H as [v H]]; (eexists; split; [exact H|done]). Qed.

Lemma owner_insert threads p st t (x : pc T) : owner_is threads p st → ¬ owns st t → owner_is (<[t := x]> threads) p st.
Proof.
  destruct st; simpl; try done; intros H Hne; [destruct H as [v H]; exists v| | |destruct H as [v H]; exists v];
    by rewrite list_lookup_insert_ne by congruence.
Qed.

(** A thread that is responsible for no ticket does something of its own. *)
Lemma inv_thread s S t x x' : inv s S → threads_ s !! t = Some x → ¬ owning x →
  thread_ok (log_ s) (enqueue_pos_ (queue_ s)) (dequeue_pos_ (queue_ s)) S t x' →
  inv (mkSystem (queue_ s) (<[t := x']> (threads_ s)) (log_ s) (taken_ s)) S.
Proof.
  intros [] Ht Hx Hx'. split; simpl; try done.
  - intros p Hp. apply owner_insert; [auto|]. intros Ho.
    destruct (owner_pc _ p _ t (in_owner0 p Hp) Ho) as (x0 & Hx0 & Hm). rewrite Ht in Hx0. injection Hx0 as ->.
    by destruct x0.
  - intros t' x0 Hx0. destruct (decide (t' = t)) as [->|Hne].
    + rewrite list_lookup_insert_eq in Hx0 by (by eapply lookup_lt_Some). by injection Hx0 as <-.
    + rewrite list_lookup_insert_ne in Hx0 by done. by apply in_threads0.
Qed.

(** The thread that is responsible for a ticket changes its cell. *)
Lemma inv_ticket s S t x x' p st' c' taken' : inv s S → threads_ s !! t = Some x →
  let e := enqueue_pos_ (queue_ s) in let d := dequeue_pos_ (queue_ s) in
  e - N ≤ p < e → owns (S p) t →
  cell_is (log_ s) d p st' c' → owner_is (<[t := x']> (threads_ s)) p st' →
  thread_ok (log_ s) e d (upd S p st') t x' →
  (∀ p v, (p, v) ∈ taken' → 0 ≤ p < d ∧ datum (log_ s) p = Some v) → NoDup taken'.*1 →
  (∀ p', 0 ≤ p' < d → p' ∈ taken'.*1 ↔ ¬ (e - N ≤ p' ∧ ∃ t, upd S p st' p' = Taken t)) →
  inv (mkSystem (set_cell (queue_ s) (idx p) c') (<[t := x']> (threads_ s)) (log_ s) taken') (upd S p st').
Proof.
  intros [] Ht e d Hp Hown Hc Ho Hx' Htk Hnd Hall. pose proof N_bounds. split; simpl; try done.
  - by rewrite length_insert.
  - intros p' Hp'. destruct (decide (p' = p)) as [->|Hne].
    + exists c'. rewrite upd_eq. split; [|done]. apply list_lookup_insert_eq. rewrite in_len0. apply idx_lt.
    + destruct (in_cells0 p' Hp') as (c & Hl & Hcell). exists c. rewrite upd_ne by done. split; [|done].
      rewrite list_lookup_insert_ne; [done|]. intros E. apply Hne. symmetry. by apply (idx_inj (e - N)); [lia|lia|].
  - intros p' Hp'. destruct (decide (p' = p)) as [->|Hne]; [by rewrite upd_eq|].
    rewrite upd_ne by done. apply owner_insert; [auto|]. intros Ho'.
    destruct (owner_pc _ p' _ t (in_owner0 p' Hp') Ho') as (x1 & E1 & M1).
    destruct (owner_pc _ p _ t (in_owner0 p Hp) Hown) as (x2 & E2 & M2).
    rewrite E1 in E2. injection E2 as ->. apply Hne. by destruct x2; subst.
  - intros t' x0 Hx0. destruct (decide (t' = t)) as [->|Hne].
    + rewrite list_lookup_insert_eq in Hx0 by (by eapply lookup_lt_Some). by injection Hx0 as <-.
    + rewrite list_lookup_insert_ne in Hx0 by done. pose proof (in_threads0 t' x0 Hx0) as Hok.
      assert (∀ p0, (S p0 = Free ∨ S p0 = Ready ∨ owns (S p0) t') → upd S p st' p0 = S p0) as Hsame.
      { intros p0 Hp0. apply upd_ne. intros ->. destruct Hp0 as [E|[E|E]]; try (rewrite E in Hown; done).
        destruct (S p); simpl in *; congruence. }
      destruct x0; simpl in Hok |- *; try done.
      * destruct Hok as [? Hf]. split; [done|]. intros Hpos. rewrite Hsame; auto.
      * destruct Hok as (? & Hs & ?). rewrite Hsame; [done|]. right. right. by rewrite Hs.
      * destruct Hok as (? & Hs). rewrite Hsame; [done|]. right. right. by rewrite Hs.
      * destruct Hok as [? Hf]. split; [done|]. intros Hpos. destruct (Hf Hpos). rewrite Hsame; auto.
      * destruct Hok as (? & Hs). rewrite Hsame; [done|]. right. right. by rewrite Hs.
      * destruct Hok as (? & Hs & ?). rewrite Hsame; [done|]. right. right. by rewrite Hs.
Qed.
End inv.
