(* ===== verification/MpmcSpec.v ===== *)
(** MpmcSpec: what the bounded queue promises to any number of producers and
    consumers, and to a caller that is alone. *)
From S2P Require Import Prelude MpmcQueue MpmcInv.
Local Open Scope Z_scope.

Section steps.
Context {T : Type} (k : nat) (Hk : (1 ≤ k ≤ 32)%nat).
Implicit Types (q : Queue T) (s : System T) (p pos : Z) (t : nat) (c : cell_t T) (v : T).

Abbreviation N := (N k).
Abbreviation idx := (idx k).
Abbreviation inv := (inv k).
Abbreviation qe s := (enqueue_pos_ (queue_ s)).
Abbreviation qd s := (dequeue_pos_ (queue_ s)).

(** The cell of any position that was an enqueue position once. *)
Lemma cell_seen s S pos : inv s S → 0 ≤ pos ≤ qe s → ∃ p c, qe s - N ≤ p < qe s ∧
  (pos = qe s → p = qe s - N) ∧ (qe s - N ≤ pos < qe s → p = pos) ∧
  slot (queue_ s) pos = idx p ∧ buffer_ (queue_ s) !! idx p = Some c ∧
  cell_is k (log_ s) (qd s) p (S p) c ∧ 0 ≤ sequence c ≤ qe s + N.
Proof.
  intros HI Hpos. pose proof (N_bounds k Hk) as HN. pose proof (in_pos _ _ _ HI). pose proof (in_log _ _ _ HI).
  set (p := qe s - 1 - ((qe s - 1 - pos) mod N)). pose proof (Z.mod_pos_bound (qe s - 1 - pos) N ltac:(lia)) as Hm.
  assert (qe s - N ≤ p < qe s) as Hw by lia.
  assert (idx pos = idx p) as Ei.
  { unfold MpmcInv.idx. f_equal. unfold p. pose proof (Z.div_mod (qe s - 1 - pos) N ltac:(lia)) as Hd.
    replace (qe s - 1 - (qe s - 1 - pos) mod N) with (pos + ((qe s - 1 - pos) / N) * N) by lia.
    rewrite Z.mod_add; [done|lia]. }
  destruct (in_cells _ _ _ HI p Hw) as (c & Hl & Hc). exists p, c. split_and!; try done; try lia.
  - intros ->. unfold p. replace (qe s - 1 - qe s) with (-1) by lia.
    rewrite <- (Z.mod_unique (-1) N (-1) (N - 1)); lia.
  - intros Hin. apply (idx_inj k Hk (qe s - N)); [lia|lia|done].
  - by rewrite (slot_idx k Hk _ pos (in_mask _ _ _ HI)).
  - destruct (S p); simpl in Hc; destruct Hc as [? ->]; simpl; lia.
  - destruct (S p); simpl in Hc; destruct Hc as [? ->]; simpl; lia.
Qed.

Lemma small_pos s S : inv s S → qe s < kMaxPos → 0 ≤ qd s ∧ qd s ≤ qe s ∧ qe s + 1 < 2 ^ 64 ∧ qe s + N + 1 < kMaxPos + 2 ^ 40.
Proof. intros HI He. pose proof (N_bounds k Hk). pose proof (in_pos _ _ _ HI). unfold kMaxPos in *. lia. Qed.

(** The cell of a ticket of the window. *)
Lemma cell_mine s S p : inv s S → qe s - N ≤ p < qe s → ∃ c, cell_at (queue_ s) p = Ok c ∧
  slot (queue_ s) p = idx p ∧ cell_is k (log_ s) (qd s) p (S p) c.
Proof.
  intros HI Hp. destruct (in_cells _ _ _ HI p Hp) as (c & Hl & Hc). exists c.
  assert (slot (queue_ s) p = idx p) as E by apply (slot_idx k Hk _ p (in_mask _ _ _ HI)).
  unfold cell_at. rewrite E, (aget_some _ _ _ Hl). done.
Qed.

Definition step_ok s t spurious : Prop := runs (act (Step t spurious) s) (λ s', ∃ S', inv s' S').

(** A thread that is responsible for no ticket moves on. *)
Lemma go s S t x x' : inv s S → threads_ s !! t = Some x → ¬ owning x → thread_ok k (log_ s) (qe s) (qd s) S t x' →
  ∃ S', inv (mkSystem (queue_ s) (<[t:=x']> (threads_ s)) (log_ s) (taken_ s)) S'.
Proof. intros. exists S. by eapply inv_thread. Qed.

Ltac non_owner := eapply go; [done|done|by intros []|done].

(** What a thread sees in a cell. *)
Lemma enq_seq_step s S t v pos spurious : inv s S → threads_ s !! t = Some (EnqSeq v pos) → qe s < kMaxPos →
  step_ok s t spurious.
Proof.
  intros HI Ht He. destruct (small_pos s S HI He) as (H1 & H2 & H3 & H4). pose proof (N_bounds k Hk) as HN.
  pose proof (in_threads _ _ _ HI t _ Ht) as Hok. simpl in Hok.
  destruct (cell_seen s S pos HI Hok) as (p & c & Hw & Hp1 & Hp2 & Hsl & Hl & Hc & Hseq).
  unfold step_ok, act. rewrite Ht. unfold step, enqueue_step, cell_at. rewrite Hsl, (aget_some _ _ _ Hl), bind_ok.
  rewrite dif_spec by lia. rewrite !bind_ok. apply runs_ok.
  assert (∀ x', thread_ok k (log_ s) (qe s) (qd s) S t x' →
    ∃ S', inv (mkSystem (queue_ s) (<[t:=x']> (threads_ s)) (log_ s) (taken_ s)) S') as Hgo by (intros; non_owner).
  destruct (Z.eqb_spec (sequence c - pos) 0) as [E|E]; [|destruct (_ <? 0); by apply Hgo].
  apply Hgo. simpl. split; [done|]. intros Hpe. specialize (Hp1 Hpe). subst p. rewrite Hpe.
  destruct (S (qe s - N)) eqn:ES; simpl in Hc; destruct Hc as [? ->]; simpl in E; done || lia.
Qed.

Lemma deq_seq_step s S t pos spurious : inv s S → threads_ s !! t = Some (DeqSeq pos) → qe s < kMaxPos →
  step_ok s t spurious.
Proof.
  intros HI Ht He. destruct (small_pos s S HI He) as (H1 & H2 & H3 & H4). pose proof (N_bounds k Hk) as HN.
  pose proof (in_threads _ _ _ HI t _ Ht) as Hok. simpl in Hok. pose proof (in_capacity _ _ _ HI) as Hcap.
  destruct (cell_seen s S pos HI ltac:(lia)) as (p & c & Hw & Hp1 & Hp2 & Hsl & Hl & Hc & Hseq).
  unfold step_ok, act. rewrite Ht. unfold step, dequeue_step, cell_at. rewrite Hsl, (aget_some _ _ _ Hl), bind_ok.
  rewrite (uN_small 64 (pos + 1)), dif_spec by (unfold kMaxPos in *; lia). rewrite !bind_ok. apply runs_ok.
  assert (∀ x', thread_ok k (log_ s) (qe s) (qd s) S t x' →
    ∃ S', inv (mkSystem (queue_ s) (<[t:=x']> (threads_ s)) (log_ s) (taken_ s)) S') as Hgo by (intros; non_owner).
  destruct (Z.eqb_spec (sequence c - (pos + 1)) 0) as [E|E]; [|destruct (_ <? 0); by apply Hgo].
  apply Hgo. simpl. split; [done|]. intros Hpd.
  destruct (decide (pos = qe s)) as [Hpe|Hpe].
  - exfalso. specialize (Hp1 Hpe). destruct (S p); simpl in Hc; destruct Hc as [? ->]; simpl in E; lia.
  - specialize (Hp2 ltac:(lia)). subst p. split; [lia|].
    destruct (S pos); simpl in Hc; destruct Hc as [? ->]; simpl in E; done || lia.
Qed.

(** Taking a position. *)
Lemma enq_cas_step s S t v pos spurious : inv s S → threads_ s !! t = Some (EnqCas v pos) → qe s < kMaxPos →
  step_ok s t spurious.
Proof.
  intros HI Ht He. destruct (small_pos s S HI He) as (H1 & H2 & H3 & H4). pose proof (N_bounds k Hk) as HN.
  pose proof (in_threads _ _ _ HI t _ Ht) as [Hpos Hfree].
  unfold step_ok, act. rewrite Ht. unfold step, enqueue_step. destruct (negb spurious && _) eqn:E;
    [|rewrite bind_ok; apply runs_ok; non_owner].
  apply andb_prop in E as [_ E%Z.eqb_eq]. rewrite (uN_small 64) by lia. rewrite bind_ok. apply runs_ok.
  specialize (Hfree (eq_sym E)). subst pos.
  pose proof (lookup_lt_Some _ _ _ Ht) as Hlt. exists (upd S (qe s) (Reserved t)). destruct HI.
  destruct (in_cells (qe s - N) ltac:(lia)) as (c & Hl & Hc). rewrite Hfree in Hc. destruct Hc as [Hd ->].
  assert (∀ p, 0 ≤ p < qe s → datum (log_ s ++ [v]) p = datum (log_ s) p) as Hdat
    by (intros p ?; unfold datum; apply lookup_app_l; lia).
  assert (datum (log_ s ++ [v]) (qe s) = Some v) as Hnew
    by (unfold datum; rewrite in_log, Nat2Z.id, lookup_app_r, Nat.sub_diag; done).
  assert (∀ p, qe s - N ≤ p < qe s → S p ≠ Free → qe s + 1 - N ≤ p < qe s + 1 ∧ 0 ≤ p) as Hkeep.
  { intros p Hp Hs. destruct (in_cells p Hp) as (c & _ & Hc). split.
    - assert (p ≠ qe s - N) by congruence. lia.
    - destruct (S p); simpl in Hc; try done; lia. }
  split; simpl; try done.
  - rewrite length_app. simpl. lia.
  - lia.
  - lia.
  - intros p Hp. destruct (decide (p = qe s)) as [->|Hne].
    + exists (mkCell (qe s) None). rewrite upd_eq. rewrite <- (idx_shift k Hk (qe s)), Hl. split; [f_equal; f_equal; lia|done].
    + rewrite upd_ne by done. destruct (in_cells p ltac:(lia)) as (c & Hl' & Hc'). exists c. split; [done|].
      destruct (S p); simpl in *; try done; rewrite Hdat by lia; done.
  - intros p Hp. destruct (decide (p = qe s)) as [->|Hne].
    + rewrite upd_eq. simpl. exists v. by rewrite list_lookup_insert_eq.
    + rewrite upd_ne by done. apply owner_insert; [apply in_owner; lia|]. intros Ho.
      destruct (owner_pc _ p _ t (in_owner p ltac:(lia)) Ho) as (x & Ex & Hx). rewrite Ht in Ex. injection Ex as <-. done.
  - intros t' x Hx. destruct (decide (t' = t)) as [->|Hne].
    { rewrite list_lookup_insert_eq in Hx by done. injection Hx as <-. simpl. split_and!; [lia|lia| |done]. apply upd_eq. }
    rewrite list_lookup_insert_ne in Hx by done. pose proof (in_threads t' x Hx) as Hok.
    destruct x; simpl in Hok |- *; try done; try lia.
    + destruct Hok as (Hw & Hs & Hv). destruct (Hkeep pos Hw) as [? ?]; [congruence|]. by rewrite upd_ne, Hdat by lia.
    + destruct Hok as (Hw & Hs). destruct (Hkeep pos Hw) as [? ?]; [congruence|]. by rewrite upd_ne by lia.
    + destruct Hok as [? Hr]. split; [done|]. intros Hpd. destruct (Hr Hpd). rewrite upd_ne by lia. split; [lia|done].
    + destruct Hok as (Hw & Hs). destruct (Hkeep pos Hw) as [? ?]; [congruence|]. by rewrite upd_ne by lia.
    + destruct Hok as (Hw & Hs & Hv). destruct (Hkeep pos Hw) as [? ?]; [congruence|]. by rewrite upd_ne, Hdat by lia.
  - intros p v' Hin. destruct (in_taken p v' Hin) as [Hp Hv]. split; [done|]. by rewrite Hdat by lia.
  - intros p Hp. rewrite in_all by done. rewrite upd_ne by lia.
    destruct (decide (p = qe s - N)) as [->|Hne].
    + split; [intros _ [? _]; lia|]. intros _ [_ [t' Ht']]. congruence.
    + split; intros Hn [Hw Hx]; apply Hn; (split; [lia|done]).
Qed.

Lemma deq_cas_step s S t pos spurious : inv s S → threads_ s !! t = Some (DeqCas pos) → qe s < kMaxPos →
  step_ok s t spurious.
Proof.
  intros HI Ht He. destruct (small_pos s S HI He) as (H1 & H2 & H3 & H4). pose proof (N_bounds k Hk) as HN.
  pose proof (in_threads _ _ _ HI t _ Ht) as [Hpos Hready].
  unfold step_ok, act. rewrite Ht. unfold step, dequeue_step. destruct (negb spurious && _) eqn:E;
    [|rewrite bind_ok; apply runs_ok; non_owner].
  apply andb_prop in E as [_ E%Z.eqb_eq]. rewrite (uN_small 64) by lia. rewrite bind_ok. apply runs_ok.
  destruct (Hready (eq_sym E)) as [Hlt2 HS]. subst pos.
  pose proof (lookup_lt_Some _ _ _ Ht) as Hlt. exists (upd S (qd s) (Taken t)). destruct HI.
  split; simpl; try done; try lia.
  - intros p Hp. destruct (in_cells p Hp) as (c & Hl & Hc). exists c. split; [done|].
    destruct (decide (p = qd s)) as [->|Hne].
    + rewrite upd_eq. rewrite HS in Hc. destruct Hc as [_ ->]. split; [lia|done].
    + rewrite upd_ne by done. destruct (S p); simpl in *; (split; [lia|apply Hc]).
  - intros p Hp. destruct (decide (p = qd s)) as [->|Hne].
    + rewrite upd_eq. simpl. by rewrite list_lookup_insert_eq.
    + rewrite upd_ne by done. apply owner_insert; [by apply in_owner|]. intros Ho.
      destruct (owner_pc _ p _ t (in_owner p Hp) Ho) as (x & Ex & Hx). rewrite Ht in Ex. injection Ex as <-. done.
  - intros t' x Hx. destruct (decide (t' = t)) as [->|Hne].
    { rewrite list_lookup_insert_eq in Hx by done. injection Hx as <-. simpl. rewrite upd_eq. split; [lia|done]. }
    rewrite list_lookup_insert_ne in Hx by done. pose proof (in_threads t' x Hx) as Hok.
    destruct x; simpl in Hok |- *; try done; try lia.
    + destruct Hok as [? Hf]. split; [done|]. intros Hpe. rewrite upd_ne; [auto|]. intros E. specialize (Hf Hpe). congruence.
    + destruct Hok as (Hw & Hs & Hv). rewrite upd_ne by congruence. done.
    + destruct Hok as (Hw & Hs). rewrite upd_ne by congruence. done.
    + destruct Hok as (Hw & Hs). rewrite upd_ne by congruence. done.
    + destruct Hok as (Hw & Hs & Hv). rewrite upd_ne by congruence. done.
  - intros p v' Hin. destruct (in_taken p v' Hin) as [Hp Hv]. split; [lia|done].
  - intros p Hp. destruct (decide (p = qd s)) as [->|Hne].
    + rewrite upd_eq. split; [|intros Hn; exfalso; apply Hn; split; [lia|by exists t]].
      intros [[p' v'] [E Hin]]%list_elem_of_fmap. destruct (in_taken _ _ Hin). simpl in *. lia.
    + rewrite upd_ne by done. apply in_all. lia.
Qed.

(** The steps of the thread that is responsible for a ticket. *)
Lemma ticket_step s S t x x' p st' c' taken' : inv s S → threads_ s !! t = Some x → qe s < kMaxPos →
  qe s - N ≤ p < qe s → owns (S p) t →
  cell_is k (log_ s) (qd s) p st' c' → owner_is (<[t := x']> (threads_ s)) p st' →
  thread_ok k (log_ s) (qe s) (qd s) (upd S p st') t x' →
  (∀ p v, (p, v) ∈ taken' → 0 ≤ p < qd s ∧ datum (log_ s) p = Some v) → NoDup taken'.*1 →
  (∀ p', 0 ≤ p' < qd s → p' ∈ taken'.*1 ↔ ¬ (qe s - N ≤ p' ∧ ∃ t, upd S p st' p' = Taken t)) →
  ∃ S', inv (mkSystem (set_cell (queue_ s) (slot (queue_ s) p) c') (<[t := x']> (threads_ s)) (log_ s) taken') S'.
Proof.
  intros HI Ht He Hp Hown Hc Ho Hok H1 H2 H3. exists (upd S p st').
  rewrite (slot_idx k Hk _ p (in_mask _ _ _ HI)). by eapply inv_ticket.
Qed.

(** The tickets that were delivered when one that is not being taken changes. *)
Lemma taken_same s S p st' : inv s S → (∀ t, S p ≠ Taken t) → (∀ t, st' ≠ Taken t) →
  ∀ p', 0 ≤ p' < qd s → p' ∈ (taken_ s).*1 ↔ ¬ (qe s - N ≤ p' ∧ ∃ t, upd S p st' p' = Taken t).
Proof.
  intros HI Hs Hst p' Hp'. rewrite (in_all _ _ _ HI p' Hp'). destruct (decide (p' = p)) as [->|Hne].
  - rewrite upd_eq. split; intros _ [_ [t E]]; [exact (Hst _ E)|exact (Hs _ E)].
  - by rewrite upd_ne.
Qed.

Lemma enq_construct_step s S t v pos spurious : inv s S → threads_ s !! t = Some (EnqConstruct v pos) → qe s < kMaxPos →
  step_ok s t spurious.
Proof.
  intros HI Ht He. pose proof (in_threads _ _ _ HI t _ Ht) as (Hw & Hs & Hv). pose proof (lookup_lt_Some _ _ _ Ht) as Hlt.
  destruct (cell_mine s S pos HI Hw) as (c & Hc & _ & His). rewrite Hs in His. destruct His as [Hd ->].
  unfold step_ok, act. rewrite Ht. unfold step, enqueue_step. rewrite Hc, !bind_ok. apply runs_ok.
  eapply (ticket_step s S t _ _ pos (Written t) _ (taken_ s) HI Ht He Hw).
  - rewrite Hs. done.
  - simpl. by rewrite Hv.
  - simpl. by rewrite list_lookup_insert_eq.
  - simpl. by rewrite upd_eq.
  - apply (in_taken _ _ _ HI).
  - apply (in_once _ _ _ HI).
  - apply taken_same; [done|by rewrite Hs|done].
Qed.

Lemma enq_commit_step s S t pos spurious : inv s S → threads_ s !! t = Some (EnqCommit pos) → qe s < kMaxPos →
  step_ok s t spurious.
Proof.
  intros HI Ht He. pose proof (in_threads _ _ _ HI t _ Ht) as (Hw & Hs). destruct (small_pos s S HI He) as (H1 & H2 & H3 & _).
  destruct (cell_mine s S pos HI Hw) as (c & Hc & _ & His). rewrite Hs in His. destruct His as [Hd ->].
  unfold step_ok, act. rewrite Ht. unfold step, enqueue_step. rewrite Hc, !bind_ok. apply runs_ok.
  rewrite (uN_small 64) by lia.
  eapply (ticket_step s S t _ _ pos Ready _ (taken_ s) HI Ht He Hw); try done.
  - by rewrite Hs.
  - apply (in_taken _ _ _ HI).
  - apply (in_once _ _ _ HI).
  - apply taken_same; [done|by rewrite Hs|done].
Qed.

Lemma deq_move_step s S t pos spurious : inv s S → threads_ s !! t = Some (DeqMove pos) → qe s < kMaxPos →
  step_ok s t spurious.
Proof.
  intros HI Ht He. pose proof (in_threads _ _ _ HI t _ Ht) as (Hw & Hs). pose proof (lookup_lt_Some _ _ _ Ht) as Hlt.
  destruct (cell_mine s S pos HI Hw) as (c & Hc & _ & His). rewrite Hs in His. destruct His as [Hd ->].
  pose proof (in_log _ _ _ HI) as Hlog.
  destruct (lookup_lt_is_Some_2 (log_ s) (Z.to_nat pos)) as [v Hv]; [lia|]. change (datum (log_ s) pos = Some v) in Hv.
  unfold step_ok, act. rewrite Ht. unfold step, dequeue_step. rewrite Hc, bind_ok. cbn [storage sequence]. rewrite Hv, !bind_ok. apply runs_ok.
  assert (pos ∉ (taken_ s).*1) as Hnot.
  { intros Hin. apply (in_all _ _ _ HI pos Hd) in Hin. apply Hin. split; [lia|by exists t]. }
  eapply (ticket_step s S t _ _ pos (Moved t) _ _ HI Ht He Hw).
  - by rewrite Hs.
  - split; [lia|done].
  - simpl. exists v. by rewrite list_lookup_insert_eq.
  - simpl. by rewrite upd_eq.
  - intros p w [Hin|Hin]%elem_of_app; [by apply (in_taken _ _ _ HI)|]. apply list_elem_of_singleton in Hin. by injection Hin as -> ->.
  - rewrite fmap_app. apply NoDup_app. split_and!; [apply (in_once _ _ _ HI)| |apply NoDup_singleton].
    intros p Hin. simpl. rewrite list_elem_of_singleton. congruence.
  - intros p Hp. rewrite fmap_app, elem_of_app. simpl. rewrite list_elem_of_singleton.
    destruct (decide (p = pos)) as [->|Hne].
    + rewrite upd_eq. split; [|auto]. intros _ [_ [? ?]]. done.
    + rewrite upd_ne by done. rewrite <- (in_all _ _ _ HI p Hp). split; [intros [?|?]; done|auto].
Qed.

Lemma deq_commit_step s S t pos v spurious : inv s S → threads_ s !! t = Some (DeqCommit pos v) → qe s < kMaxPos →
  step_ok s t spurious.
Proof.
  intros HI Ht He. pose proof (in_threads _ _ _ HI t _ Ht) as (Hw & Hs & Hv). destruct (small_pos s S HI He) as (H1 & H2 & H3 & _).
  destruct (cell_mine s S pos HI Hw) as (c & Hc & _ & His). rewrite Hs in His. destruct His as [Hd ->]. pose proof (N_bounds k Hk) as HN.
  unfold step_ok, act. rewrite Ht. unfold step, dequeue_step. rewrite Hc, !bind_ok. apply runs_ok.
  rewrite (in_mask _ _ _ HI), (uN_small 64) by (unfold kMaxPos in *; lia).
  eapply (ticket_step s S t _ _ pos Free _ (taken_ s) HI Ht He Hw); try done.
  - by rewrite Hs.
  - simpl. split; [lia|]. f_equal. lia.
  - apply (in_taken _ _ _ HI).
  - apply (in_once _ _ _ HI).
  - apply taken_same; [done|by rewrite Hs|done].
Qed.

(** Every action keeps the invariant and runs without a fault. *)
Lemma act_inv a s S : inv s S → qe s < kMaxPos → runs (act a s) (λ s', ∃ S', inv s' S').
Proof.
  intros HI He. destruct a as [t v|t|t spurious].
  1-2: apply runs_ok; unfold call; destruct (threads_ s !! t) as [x|] eqn:Ht; [|by exists S];
       destruct x; simpl; try (by exists S); non_owner.
  destruct (threads_ s !! t) as [x|] eqn:Ht; [|unfold act; rewrite Ht; apply runs_ok; by exists S].
  destruct x as [|v|v pos|v pos|v pos|pos|r| |pos|pos|pos|pos v|r];
    try (unfold act; rewrite Ht; simpl; apply runs_ok; non_owner).
  - pose proof (in_pos _ _ _ HI). unfold act; rewrite Ht; simpl; apply runs_ok. eapply go; [done|done|by intros []|simpl; lia].
  - by eapply enq_seq_step.
  - by eapply enq_cas_step.
  - by eapply enq_construct_step.
  - by eapply enq_commit_step.
  - pose proof (in_pos _ _ _ HI). unfold act; rewrite Ht; simpl; apply runs_ok. eapply go; [done|done|by intros []|simpl; lia].
  - by eapply deq_seq_step.
  - by eapply deq_cas_step.
  - by eapply deq_move_step.
  - by eapply deq_commit_step.
Qed.
End steps.

(** ** All runs *)

Section runs.
Context {T : Type} (k : nat) (Hk : (1 ≤ k ≤ 32)%nat).
Implicit Types (q : Queue T) (s : System T) (p pos : Z) (t : nat) (c : cell_t T) (v : T) (l : list T).

Abbreviation N := (N k).
Abbreviation idx := (idx k).

(** A constructed queue: the cells of a window that ends at position 0. *)
Lemma new_queue_spec : ∃ q, new_queue N = Some q ∧ buffer_ q = (λ i, mkCell (Z.of_nat i) None) <$> seq 0 (Z.to_nat N) ∧
  buffer_mask_ q = N - 1 ∧ enqueue_pos_ q = 0 ∧ dequeue_pos_ q = 0.
Proof.
  pose proof (N_bounds k Hk) as HN. unfold new_queue. rewrite (uN_small 64) by lia.
  assert (Z.land N (N - 1) = 0) as ->.
  { unfold MpmcInv.N. rewrite <- (Z.mod_same (2 ^ Z.of_nat k)) by lia. rewrite <- Z.land_ones by lia. f_equal.
    rewrite Z.ones_equiv. lia. }
  rewrite (proj2 (Z.ltb_ge N 2)) by lia. simpl. by eexists.
Qed.

Lemma new_cell q p : buffer_ q = (λ i, mkCell (Z.of_nat i) None) <$> seq 0 (Z.to_nat N) → - N ≤ p < 0 →
  buffer_ q !! idx p = Some (mkCell (p + N) None).
Proof.
  pose proof (N_bounds k Hk) as HN. intros -> Hp. rewrite list_lookup_fmap, lookup_seq_lt by apply (idx_lt k Hk).
  simpl. unfold MpmcInv.idx. rewrite <- (Z.mod_unique p N (-1) (p + N)) by lia. by rewrite Z2Nat.id by lia.
Qed.

Lemma initial_inv q threads : new_queue N = Some q → inv k (initial q threads) (λ _, Free).
Proof.
  pose proof (N_bounds k Hk) as HN. destruct new_queue_spec as (q0 & -> & Hb & Hm & He & Hd). intros [= <-].
  split; simpl; rewrite ?He, ?Hd; try done; try lia.
  - by rewrite Hb, length_fmap, length_seq.
  - intros p Hp. eexists. split; [apply new_cell; [done|lia]|]. simpl. split; [lia|done].
  - intros t x Hx. apply lookup_replicate in Hx as [-> _]. done.
  - intros p v Hin. by apply elem_of_nil in Hin.
  - constructor.
Qed.

Lemma act_log a s s' : act a s = Ok s' → (length (log_ s') ≤ S (length (log_ s)))%nat.
Proof.
  destruct a as [t v|t|t sp]; simpl.
  1-2: intros [= <-]; unfold call; destruct (threads_ s !! t) as [x|]; [destruct (at_rest x)|]; simpl; lia.
  destruct (threads_ s !! t) as [x|]; [|intros [= <-]; lia].
  intros ([q x'] & _ & [= <-])%bind_ok_inv. simpl. destruct x, x'; rewrite ?length_app; simpl; lia.
Qed.

Lemma run_inv acts s S : inv k s S → Z.of_nat (length (log_ s) + length acts) < kMaxPos →
  runs (rfold act acts s) (λ s', ∃ S', inv k s' S').
Proof.
  revert s S. induction acts as [|a acts IH]; intros s S HI Hlen; [apply runs_ok; by exists S|]. cbn [rfold].
  cbn [length] in Hlen.
  destruct (act_inv k Hk a s S HI) as (s1 & E & S1 & HI1); [rewrite (in_log _ _ _ HI); lia|].
  rewrite E, bind_ok. apply (IH s1 S1 HI1). pose proof (act_log _ _ _ E). lia.
Qed.

(** ** A queue that no thread works on *)

(** The queue holds [l]. *)
Record holds q l : Prop := {
  ho_len : length (buffer_ q) = Z.to_nat N;
  ho_mask : buffer_mask_ q = N - 1;
  ho_pos : 0 ≤ dequeue_pos_ q;
  ho_end : enqueue_pos_ q = dequeue_pos_ q + Z.of_nat (length l);
  ho_room : Z.of_nat (length l) ≤ N;
  ho_full : ∀ i v, l !! i = Some v →
    buffer_ q !! idx (dequeue_pos_ q + Z.of_nat i) = Some (mkCell (dequeue_pos_ q + Z.of_nat i + 1) (Some v));
  ho_free : ∀ p, enqueue_pos_ q - N ≤ p < dequeue_pos_ q → buffer_ q !! idx p = Some (mkCell (p + N) None);
}.

Lemma rest_status s S p : inv k s S → Forall (λ x, at_rest x = true) (threads_ s) →
  enqueue_pos_ (queue_ s) - N ≤ p < enqueue_pos_ (queue_ s) → S p = Free ∨ S p = Ready.
Proof.
  intros HI Hrest Hp. pose proof (in_owner _ _ _ HI p Hp) as Ho.
  assert (∀ t x, threads_ s !! t = Some x → at_rest x = true) as Hr by (intros t x Hx; exact (Forall_lookup_1 (λ x, at_rest x = true) _ _ _ Hrest Hx)).
  destruct (S p); simpl in Ho; [by left|destruct Ho as [? Ho]| |by right| |destruct Ho as [? Ho]]; by specialize (Hr _ _ Ho).
Qed.

Lemma rest_holds s S : inv k s S → Forall (λ x, at_rest x = true) (threads_ s) →
  holds (queue_ s) (drop (Z.to_nat (dequeue_pos_ (queue_ s))) (log_ s)) ∧
  (taken_ s).*1 ≡ₚ seqZ 0 (dequeue_pos_ (queue_ s)).
Proof.
  intros HI Hrest. pose proof (in_pos _ _ _ HI). pose proof (in_log _ _ _ HI) as Hlog. pose proof (in_capacity _ _ _ HI).
  split.
  - split; rewrite ?length_drop; try lia; try apply HI.
    + intros i v Hi. rewrite lookup_drop in Hi. pose proof (lookup_lt_Some _ _ _ Hi).
      set (p := dequeue_pos_ (queue_ s) + Z.of_nat i).
      destruct (in_cells _ _ _ HI p) as (c & -> & Hc); [lia|]. f_equal.
      destruct (rest_status s S p HI Hrest) as [E|E]; [lia|rewrite E in Hc; simpl in Hc; lia|].
      rewrite E in Hc. destruct Hc as [_ ->]. f_equal. unfold datum, p. rewrite <- Hi. f_equal. lia.
    + intros p Hp. destruct (in_cells _ _ _ HI p) as (c & -> & Hc); [lia|]. f_equal.
      destruct (rest_status s S p HI Hrest) as [E|E]; [lia| |rewrite E in Hc; simpl in Hc; lia].
      rewrite E in Hc. by destruct Hc as [_ ->].
  - apply NoDup_Permutation; [apply (in_once _ _ _ HI)|apply NoDup_seqZ|]. intros p. rewrite elem_of_seqZ. split.
    + intros ([p' v] & -> & Hin)%list_elem_of_fmap. destruct (in_taken _ _ _ HI _ _ Hin). simpl. lia.
    + intros Hp. apply (in_all _ _ _ HI); [lia|]. intros [Hw [t E]].
      destruct (rest_status s S p HI Hrest) as [E'|E']; [lia|congruence|congruence].
Qed.

(** (C25) First in, first out, for any number of producers and consumers and any
    interleaving of their accesses: no run of fewer than 2^62 accesses touches a
    cell outside the buffer, constructs over or reads a missing object; every
    datum that is taken is the one that was enqueued with the same position, no
    position is delivered twice, and the queue holds at most its capacity. When
    every thread is at rest, exactly the first data have been delivered and the
    queue holds the others in their order. *)
Theorem mpmc_fifo acts q threads : new_queue N = Some q → Z.of_nat (length acts) < kMaxPos →
  runs (rfold act acts (initial q threads)) (λ s,
    let d := dequeue_pos_ (queue_ s) in
    (∀ p v, (p, v) ∈ taken_ s → 0 ≤ p < d ∧ log_ s !! Z.to_nat p = Some v) ∧ NoDup (taken_ s).*1 ∧
    0 ≤ d ≤ Z.of_nat (length (log_ s)) ≤ d + N ∧
    (Forall (λ x, at_rest x = true) (threads_ s) →
       (taken_ s).*1 ≡ₚ seqZ 0 d ∧ holds (queue_ s) (drop (Z.to_nat d) (log_ s)))).
Proof.
  intros Hq Hlen. eapply runs_mono; [apply (run_inv acts _ _ (initial_inv q threads Hq)); simpl; lia|].
  intros s [S HI] d. split_and!.
  - apply (in_taken _ _ _ HI).
  - apply (in_once _ _ _ HI).
  - apply (in_pos _ _ _ HI).
  - rewrite <- (in_log _ _ _ HI). apply (in_pos _ _ _ HI).
  - rewrite <- (in_log _ _ _ HI). apply (in_capacity _ _ _ HI).
  - intros Hrest. destruct (rest_holds s S HI Hrest). done.
Qed.

Lemma holds_new q : new_queue N = Some q → holds q [].
Proof.
  pose proof (N_bounds k Hk) as HN. destruct new_queue_spec as (q0 & -> & Hb & Hm & He & Hd). intros [= <-].
  split; rewrite ?He, ?Hd; simpl; try done; try lia.
  - by rewrite Hb, length_fmap, length_seq.
  - intros p Hp. apply new_cell; [done|lia].
Qed.

Lemma back_cell q l : holds q l → Z.of_nat (length l) < N → buffer_ q !! idx (enqueue_pos_ q) = Some (mkCell (enqueue_pos_ q) None).
Proof.
  intros [Hl Hm Hp He Hr Hf Hfr] Hlt. rewrite <- (idx_shift k Hk (enqueue_pos_ q)), Hfr by lia. do 2 f_equal. lia.
Qed.

Lemma push_holds q l v : holds q l → Z.of_nat (length l) < N →
  holds (set_cell (set_cell (set_enqueue q (enqueue_pos_ q + 1)) (idx (enqueue_pos_ q)) (mkCell (enqueue_pos_ q) (Some v)))
           (idx (enqueue_pos_ q)) (mkCell (enqueue_pos_ q + 1) (Some v))) (l ++ [v]).
Proof.
  pose proof (N_bounds k Hk) as HN. intros [Hl Hm Hp He Hr Hf Hfr] Hlt.
  assert (∀ p, enqueue_pos_ q + 1 - N ≤ p < enqueue_pos_ q → idx (enqueue_pos_ q) ≠ idx p) as Hne.
  { intros p Hpw E. apply (idx_inj k Hk (enqueue_pos_ q + 1 - N)) in E; lia. }
  split; simpl; rewrite ?length_insert, ?length_app; simpl; try done; try lia; rewrite list_insert_insert_eq.
  - intros i w Hi. apply lookup_app_Some in Hi as [Hi|[Hi1 Hi2]].
    + pose proof (lookup_lt_Some _ _ _ Hi). rewrite list_lookup_insert_ne by (apply Hne; lia). by apply Hf.
    + apply list_lookup_singleton_Some in Hi2 as [Hi2 <-]. replace (dequeue_pos_ q + Z.of_nat i) with (enqueue_pos_ q) by lia.
      apply list_lookup_insert_eq. rewrite Hl. apply (idx_lt k Hk).
  - intros p Hpw. rewrite list_lookup_insert_ne by (apply Hne; lia). apply Hfr. lia.
Qed.

Lemma pop_holds q l v : holds q (v :: l) →
  holds (set_cell (set_cell (set_dequeue q (dequeue_pos_ q + 1)) (idx (dequeue_pos_ q)) (mkCell (dequeue_pos_ q + 1) None))
           (idx (dequeue_pos_ q)) (mkCell (dequeue_pos_ q + N) None)) l.
Proof.
  pose proof (N_bounds k Hk) as HN. intros [Hl Hm Hp He Hr Hf Hfr]. simpl in *.
  assert (∀ p, enqueue_pos_ q - N ≤ p < enqueue_pos_ q → p ≠ dequeue_pos_ q → idx (dequeue_pos_ q) ≠ idx p) as Hne.
  { intros p Hpw Hpd E. apply (idx_inj k Hk (enqueue_pos_ q - N)) in E; lia. }
  split; simpl; rewrite ?length_insert; try done; try lia; rewrite list_insert_insert_eq.
  - intros i w Hi. pose proof (lookup_lt_Some _ _ _ Hi). rewrite list_lookup_insert_ne by (apply Hne; lia).
    specialize (Hf (S i) w Hi). replace (dequeue_pos_ q + 1 + Z.of_nat i) with (dequeue_pos_ q + Z.of_nat (S i)) by lia. done.
  - intros p Hpw. destruct (decide (p = dequeue_pos_ q)) as [->|Hpd].
    + apply list_lookup_insert_eq. rewrite Hl. apply (idx_lt k Hk).
    + rewrite list_lookup_insert_ne by (apply Hne; lia). apply Hfr. lia.
Qed.

(** The cell at the ends of a queue. *)
Lemma at_back q l : holds q l → ∃ c, cell_at q (enqueue_pos_ q) = Ok c ∧
  (Z.of_nat (length l) < N → c = mkCell (enqueue_pos_ q) None) ∧
  (Z.of_nat (length l) = N → sequence c = enqueue_pos_ q + 1 - N).
Proof.
  pose proof (N_bounds k Hk) as HN. intros Hh. pose proof Hh as [Hl Hm Hp Hend Hr Hf Hfr].
  unfold cell_at. rewrite (slot_idx k Hk _ _ Hm). destruct (decide (Z.of_nat (length l) < N)) as [Hlt|Hge].
  - rewrite (aget_some _ _ _ (back_cell q l Hh Hlt)). eexists. split_and!; [done|done|lia].
  - destruct (lookup_lt_is_Some_2 l 0) as [w Hw]; [lia|]. specialize (Hf 0%nat w Hw).
    rewrite <- (idx_shift k Hk (enqueue_pos_ q)). replace (enqueue_pos_ q - N) with (dequeue_pos_ q + Z.of_nat 0) by lia.
    rewrite (aget_some _ _ _ Hf). eexists. split_and!; [done|lia|]. simpl. lia.
Qed.

Lemma at_front q l : holds q l → ∃ c, cell_at q (dequeue_pos_ q) = Ok c ∧
  match l with
  | v :: _ => c = mkCell (dequeue_pos_ q + 1) (Some v)
  | [] => c = mkCell (dequeue_pos_ q) None
  end.
Proof.
  pose proof (N_bounds k Hk) as HN. intros Hh. pose proof Hh as [Hl Hm Hp Hend Hr Hf Hfr].
  unfold cell_at. rewrite (slot_idx k Hk _ _ Hm). destruct l as [|w l].
  - simpl in Hend. replace (dequeue_pos_ q) with (enqueue_pos_ q) by lia.
    rewrite (aget_some _ _ _ (back_cell q [] Hh ltac:(simpl; lia))). by eexists.
  - specialize (Hf 0%nat w eq_refl). replace (dequeue_pos_ q + Z.of_nat 0) with (dequeue_pos_ q) in Hf by lia.
    rewrite (aget_some _ _ _ Hf). by eexists.
Qed.

Lemma run_S fuel q (x : pc T) : at_rest x = false → run (S fuel) q x = ('(q, x) ← step false q x; run fuel q x).
Proof. by destruct x. Qed.
Lemma run_rest fuel q (x : pc T) : at_rest x = true → run fuel q x = Ok (q, x).
Proof. by destruct x, fuel. Qed.

Lemma try_enqueue_spec q l v : holds q l → enqueue_pos_ q < kMaxPos →
  runs (try_enqueue q v) (λ '(q', r), r = bool_decide (Z.of_nat (length l) < N) ∧ holds q' (if r then l ++ [v] else l) ∧
    enqueue_pos_ q' = enqueue_pos_ q + Z.b2z r).
Proof.
  pose proof (N_bounds k Hk) as HN. intros Hh He. destruct (at_back q l Hh) as (c & Hc & Hfree & Hfull).
  pose proof Hh as [Hl Hm Hp Hend Hr Hf Hfr]. unfold kMaxPos in *. unfold try_enqueue. rewrite run_S by done. cbn [step enqueue_step].
  rewrite bind_ok. rewrite run_S by done. cbn [step enqueue_step]. rewrite Hc, bind_ok.
  destruct (decide (Z.of_nat (length l) < N)) as [Hlt|Hge].
  - rewrite (Hfree Hlt), dif_spec by (unfold kMaxPos; simpl; lia). cbn [sequence]. rewrite bind_ok, Z.sub_diag. cbn [Z.eqb].
    rewrite bind_ok. rewrite run_S by done. cbn [step enqueue_step]. rewrite Z.eqb_refl, (uN_small 64) by lia. cbn [negb andb]. rewrite bind_ok.
    set (q1 := set_enqueue q _). assert (cell_at q1 (enqueue_pos_ q) = Ok c) as Hc1 by exact Hc.
    rewrite run_S by done. cbn [step enqueue_step]. rewrite Hc1, !bind_ok, (Hfree Hlt). cbn [sequence].
    assert (slot q1 (enqueue_pos_ q) = idx (enqueue_pos_ q)) as Hs by (by apply (slot_idx k Hk)). rewrite Hs.
    set (q2 := set_cell q1 _ _). assert (slot q2 (enqueue_pos_ q) = idx (enqueue_pos_ q)) as Hs2 by (by apply (slot_idx k Hk)).
    rewrite run_S by done. cbn [step enqueue_step]. unfold cell_at. rewrite Hs2. change (buffer_ q2) with (<[idx (enqueue_pos_ q) := mkCell (enqueue_pos_ q) (Some v)]> (buffer_ q)).
    rewrite (aget_some _ _ _ (list_lookup_insert_eq _ _ _ ltac:(rewrite Hl; apply (idx_lt k Hk)))), bind_ok. cbn [storage]. rewrite bind_ok, run_rest, bind_ok by done. rewrite (uN_small 64) by lia. apply runs_ok. rewrite bool_decide_true by done.
    split_and!; [done|by apply push_holds|done].
  - rewrite dif_spec, bind_ok by (rewrite ?Hfull by lia; unfold kMaxPos; lia). rewrite Hfull by lia.
    rewrite (proj2 (Z.eqb_neq _ 0)), (proj2 (Z.ltb_lt _ 0)) by lia. rewrite bind_ok. rewrite run_rest, bind_ok by done.
    apply runs_ok. rewrite bool_decide_false by done. simpl. by rewrite Z.add_0_r.
Qed.

Lemma try_dequeue_spec q l : holds q l → enqueue_pos_ q < kMaxPos →
  runs (try_dequeue q) (λ '(q', r), r = head l ∧ holds q' (tail l) ∧ enqueue_pos_ q' = enqueue_pos_ q).
Proof.
  pose proof (N_bounds k Hk) as HN. intros Hh He. destruct (at_front q l Hh) as (c & Hc & Hcell).
  pose proof Hh as [Hl Hm Hp Hend Hr Hf Hfr]. unfold kMaxPos in *. unfold try_dequeue. rewrite run_S by done. cbn [step dequeue_step].
  rewrite bind_ok. rewrite run_S by done. cbn [step dequeue_step]. rewrite Hc, bind_ok, (uN_small 64 (dequeue_pos_ q + 1)) by lia.
  destruct l as [|v l]; subst c; cbn [sequence]; rewrite dif_spec, bind_ok by (unfold kMaxPos; lia).
  - rewrite (proj2 (Z.eqb_neq _ 0)), (proj2 (Z.ltb_lt _ 0)) by lia. rewrite bind_ok. rewrite run_rest, bind_ok by done. by apply runs_ok.
  - rewrite Z.sub_diag. cbn [Z.eqb]. rewrite bind_ok. rewrite run_S by done. cbn [step dequeue_step].
    rewrite Z.eqb_refl, (uN_small 64) by lia. cbn [negb andb]. rewrite bind_ok.
    set (q1 := set_dequeue q _). rewrite run_S by done. cbn [step dequeue_step].
    change (cell_at q1 (dequeue_pos_ q)) with (cell_at q (dequeue_pos_ q)). rewrite Hc, bind_ok. cbn [storage sequence]. rewrite bind_ok.
    assert (slot q1 (dequeue_pos_ q) = idx (dequeue_pos_ q)) as Hs by (by apply (slot_idx k Hk)). rewrite Hs.
    set (q2 := set_cell q1 _ _). assert (slot q2 (dequeue_pos_ q) = idx (dequeue_pos_ q)) as Hs2 by (by apply (slot_idx k Hk)).
    rewrite run_S by done. cbn [step dequeue_step]. unfold cell_at. rewrite Hs2. change (buffer_ q2) with (<[idx (dequeue_pos_ q) := mkCell (dequeue_pos_ q + 1) None]> (buffer_ q)).
    rewrite (aget_some _ _ _ (list_lookup_insert_eq _ _ _ ltac:(rewrite Hl; apply (idx_lt k Hk)))), bind_ok. cbn [storage]. rewrite bind_ok, run_rest, bind_ok by done. change (buffer_mask_ q2) with (buffer_mask_ q). rewrite Hm, (uN_small 64) by lia.
    apply runs_ok. split_and!; [done| |done]. simpl. replace (dequeue_pos_ q + (N - 1) + 1) with (dequeue_pos_ q + N) by lia. by eapply pop_holds.
Qed.

(** A caller that is alone gets a bounded queue: [try_enqueue] appends, or
    answers false exactly when the capacity is reached, [try_dequeue] takes the
    first datum, or answers false exactly on the empty queue; [is_full] and
    [empty] tell which. *)
Theorem mpmc_alone q l v : holds q l → enqueue_pos_ q < kMaxPos →
  runs (try_enqueue q v) (λ '(q', r), r = bool_decide (Z.of_nat (length l) < N) ∧ holds q' (if r then l ++ [v] else l) ∧
    enqueue_pos_ q' = enqueue_pos_ q + Z.b2z r) ∧
  runs (try_dequeue q) (λ '(q', r), r = head l ∧ holds q' (tail l) ∧ enqueue_pos_ q' = enqueue_pos_ q) ∧
  is_full q = Ok (bool_decide (Z.of_nat (length l) = N)) ∧ empty q = Ok (bool_decide (l = [])).
Proof.
  pose proof (N_bounds k Hk) as HN. intros Hh He. pose proof Hh as [Hl Hm Hp Hend Hr Hf Hfr]. unfold kMaxPos in *.
  split_and!; [by apply try_enqueue_spec|by apply try_dequeue_spec|..].
  - destruct (at_back q l Hh) as (c & Hc & Hfree & Hfull). unfold is_full. rewrite Hc, bind_ok.
    case_bool_decide as E.
    + rewrite dif_spec, bind_ok by (rewrite ?(Hfull E); unfold kMaxPos; lia). rewrite (Hfull E), (proj2 (Z.ltb_lt _ 0)) by lia. done.
    + rewrite (Hfree ltac:(lia)), dif_spec by (simpl; unfold kMaxPos; lia). cbn [sequence]. by rewrite bind_ok, Z.sub_diag.
  - destruct (at_front q l Hh) as (c & Hc & Hcell). unfold empty. rewrite Hc, bind_ok, (uN_small 64) by lia.
    destruct l; subst c; cbn [sequence]; rewrite dif_spec, bind_ok by (unfold kMaxPos; lia).
    + by rewrite (proj2 (Z.ltb_lt _ 0)) by lia.
    + by rewrite Z.sub_diag.
Qed.
End runs.
