(* ===== verification/SpinLock.v ===== *)
(** SpinLock: the lock that protects the wait queue of an event count.
    Source: src/net/util/spinlock.hpp.

    As in MpmcQueue, each atomic access to the lock word is a step. The idle
    loops and yields between the accesses do nothing. *)
From S2P Require Import Prelude.
Local Open Scope Z_scope.

Definition kLocked : Z := 1.
Definition kSleeper : Z := 8.

(** [compare_exchange] of the lock word: the new word and whether it succeeded. *)
Definition cas (w expected new : Z) : Z * bool := if w =? expected then (new, true) else (w, false).

Inductive pc : Set :=
  | Out                              (* outside *)
  | Fast                             (* the first exchange of [lock] *)
  | Slow (i : nat)                   (* [slowLock], the load of iteration i *)
  | SlowCas (i : nat) (expected : Z)
  | Reload                           (* behind the 100 iterations: the load *)
  | Spin (expected : Z)              (* the loop: the exchange *)
  | In.                              (* the lock is held *)

Definition step (spurious : bool) (w : Z) (p : pc) : Z * pc :=
  match p with
  | Out | In => (w, p)
  | Fast => let '(w, ok) := cas w 0 kLocked in (w, if ok then In else Slow 0)
  | Slow i =>
      if (i <? 100)%nat then
        (w, if Z.land w kLocked =? 0 then SlowCas i w else Slow (S i))
      else (w, Reload)
  | SlowCas i expected =>
      if spurious then (w, Slow (S i)) else
      let '(w, ok) := cas w expected kLocked in (w, if ok then In else Slow (S i))
  | Reload => (w, Spin w)
  | Spin expected =>
      if spurious then (w, Reload) else
      if Z.land expected kLocked =? 0
      then let '(w, ok) := cas w expected kLocked in (w, if ok then In else Reload)
      else let '(w, _) := cas w expected (Z.lor expected kSleeper) in (w, Reload)
  end.

Definition try_lock (w : Z) : Z * bool := cas w 0 kLocked.
Definition unlock (w : Z) : Z := 0.

(** [lock] of a thread that is alone: [fuel] bounds its accesses. *)
Fixpoint run (fuel : nat) (w : Z) (p : pc) : res Z :=
  match p with
  | Out | In => Ok w
  | _ => match fuel with O => Fault NoFuel | S fuel' => let '(w, p) := step false w p in run fuel' w p end
  end.
Definition lock (fuel : nat) (w : Z) : res Z := run fuel w Fast.

(** ** Threads *)

Record System : Set := mkSystem { lockword_ : Z; threads_ : list pc }.

Inductive action : Set :=
  | Lock (t : nat)
  | TryLock (t : nat)
  | Step (t : nat) (spurious : bool)
  | Unlock (t : nat).

Definition act (a : action) (s : System) : System :=
  let upd t w p := mkSystem w (<[t := p]> (threads_ s)) in
  match a with
  | Lock t => match threads_ s !! t with Some Out => upd t (lockword_ s) Fast | _ => s end
  | TryLock t =>
      match threads_ s !! t with
      | Some Out => let '(w, ok) := try_lock (lockword_ s) in upd t w (if ok then In else Out)
      | _ => s
      end
  | Step t spurious =>
      match threads_ s !! t with
      | Some p => let '(w, p) := step spurious (lockword_ s) p in upd t w p
      | None => s
      end
  | Unlock t => match threads_ s !! t with Some In => upd t (unlock (lockword_ s)) Out | _ => s end
  end.

Definition acts (l : list action) (s : System) : System := fold_left (λ s a, act a s) l s.

(** ** Mutual exclusion *)

(** The word is free or has the lock bit; a thread that tries to take it in the
    slow path has seen it free. *)
Definition word_ok (w : Z) : Prop := w = 0 ∨ Z.land w kLocked = kLocked.
Definition pc_ok (p : pc) : Prop := match p with SlowCas _ e => Z.land e kLocked = 0 | _ => True end.

Record inv (s : System) : Prop := {
  in_word : word_ok (lockword_ s);
  in_pcs : Forall pc_ok (threads_ s);
  in_free : lockword_ s = 0 → ∀ t, threads_ s !! t ≠ Some In;
  in_excl : ∀ t t', threads_ s !! t = Some In → threads_ s !! t' = Some In → t = t';
}.

Lemma word_free w : word_ok w → Z.land w kLocked = 0 → w = 0.
Proof. intros [?|H]; [done|]. rewrite H. done. Qed.

(** What a step does: it leaves the word, takes the free lock, or marks a taken one. *)
Inductive effect (w : Z) (p : pc) : Z → pc → Prop :=
  | Eff_none p' : (p' = In → p = In) → pc_ok p' → effect w p w p'
  | Eff_take : w = 0 → p ≠ In → effect w p kLocked In
  | Eff_mark w' p' : w ≠ 0 → Z.land w' kLocked = kLocked → p ≠ In → p' ≠ In → pc_ok p' → effect w p w' p'.

Lemma step_effect spurious w p : word_ok w → pc_ok p → let '(w', p') := step spurious w p in effect w p w' p'.
Proof.
  intros Hw Hp. destruct p; unfold step, cas.
  - by apply Eff_none.
  - destruct (Z.eqb_spec w 0) as [->|]; [by apply Eff_take|by apply Eff_none].
  - destruct (i <? 100)%nat; [|by apply Eff_none]. destruct (Z.eqb_spec (Z.land w kLocked) 0); by apply Eff_none.
  - destruct spurious; [by apply Eff_none|]. destruct (Z.eqb_spec w expected) as [->|]; [|by apply Eff_none].
    apply Eff_take; [by apply word_free|done].
  - by apply Eff_none.
  - destruct spurious; [by apply Eff_none|]. destruct (Z.eqb_spec (Z.land expected kLocked) 0) as [E|E].
    + destruct (Z.eqb_spec w expected) as [->|]; [|by apply Eff_none]. apply Eff_take; [by apply word_free|done].
    + destruct (Z.eqb_spec w expected) as [->|]; [|by apply Eff_none].
      apply Eff_mark; try done; [by intros ->|]. destruct Hw as [->|Hw]; [done|].
      rewrite Z.land_lor_distr_l, Hw. done.
  - by apply Eff_none.
Qed.

Lemma pcs_insert ps t p : Forall pc_ok ps → pc_ok p → Forall pc_ok (<[t := p]> ps).
Proof. intros. by apply Forall_insert. Qed.

(** A thread that was outside or is inside already changes its place and the word. *)
Lemma inv_effect s t p w' p' : inv s → threads_ s !! t = Some p → effect (lockword_ s) p w' p' →
  inv (mkSystem w' (<[t := p']> (threads_ s))).
Proof.
  intros [Hw Hps Hf He] Ht Heff. pose proof (lookup_lt_Some _ _ _ Ht) as Hlt.
  assert (∀ t', (<[t := p']> (threads_ s)) !! t' = Some In → t' = t ∧ p' = In ∨ t' ≠ t ∧ threads_ s !! t' = Some In) as Hin.
  { intros t'. destruct (decide (t' = t)) as [->|]; [rewrite list_lookup_insert_eq by done|rewrite list_lookup_insert_ne by done; auto].
    intros [= ->]. auto. }
  destruct Heff as [p' Hp Hok|Hw0 Hp|w' p' Hw0 Hl Hp Hp' Hok]; split; simpl.
  - done.
  - by apply pcs_insert.
  - intros Hz t' [[-> E]|[_ E]]%Hin; [rewrite (Hp E) in Ht; by apply (Hf Hz t)|by apply (Hf Hz t')].
  - intros t1 t2 [[-> E1]|[_ E1]]%Hin [[-> E2]|[_ E2]]%Hin; [done|..]; apply He; rewrite ?Ht, ?Hp by done; done.
  - by right.
  - by apply pcs_insert.
  - done.
  - intros t1 t2 [[-> _]|[_ E1]]%Hin [[-> _]|[_ E2]]%Hin; [done|..]; exfalso; by eapply (Hf Hw0).
  - by right.
  - by apply pcs_insert.
  - intros ->. by rewrite Z.land_0_l in Hl.
  - intros t1 t2 [[-> E1]|[_ E1]]%Hin [[-> E2]|[_ E2]]%Hin; done || by apply He.
Qed.

Lemma lock_act_inv a s : inv s → inv (act a s).
Proof.
  intros HI. destruct a as [t|t|t sp|t]; simpl.
  - destruct (threads_ s !! t) as [p|] eqn:Ht; [|done]. destruct p; try done.
    by apply (inv_effect s t Out); [..|apply Eff_none].
  - destruct (threads_ s !! t) as [p|] eqn:Ht; [|done]. destruct p; try done. unfold try_lock, cas.
    destruct (Z.eqb_spec (lockword_ s) 0) as [E|E]; apply (inv_effect s t Out); try done; [by apply Eff_take|by apply Eff_none].
  - destruct (threads_ s !! t) as [p|] eqn:Ht; [|done].
    pose proof (step_effect sp (lockword_ s) p (in_word _ HI)) as Heff. destruct (step sp _ p) as [w' p'].
    eapply inv_effect; [done|done|]. apply Heff. exact (Forall_lookup_1 pc_ok _ _ _ (in_pcs _ HI) Ht).
  - destruct (threads_ s !! t) as [p|] eqn:Ht; [|done]. destruct p; try done.
    destruct HI as [Hw Hps Hf He]. split; simpl; [by left|by apply pcs_insert| |].
    + intros _ t' Ht'. destruct (decide (t' = t)) as [->|Hne].
      * rewrite list_lookup_insert_eq in Ht' by (by eapply lookup_lt_Some). done.
      * rewrite list_lookup_insert_ne in Ht' by done. apply Hne. by apply He.
    + intros t1 t2 H1 H2. destruct (decide (t1 = t)) as [->|N1]; [rewrite list_lookup_insert_eq in H1 by (by eapply lookup_lt_Some); done|].
      rewrite list_lookup_insert_ne in H1 by done. exfalso. apply N1. by apply He.
Qed.

(** Mutual exclusion: in every run of every number of threads, on the fast
    and the slow path, no two threads hold the lock, and the word is free only
    when none does. *)
Theorem spin_lock_excl l n : let s := acts l (mkSystem 0 (replicate n Out)) in
  (∀ t t', threads_ s !! t = Some In → threads_ s !! t' = Some In → t = t') ∧
  ((∃ t, threads_ s !! t = Some In) → lockword_ s ≠ 0).
Proof.
  assert (inv (mkSystem 0 (replicate n Out))) as H0.
  { split; simpl; [by left|by apply Forall_replicate|..].
    - by intros _ t [? _]%lookup_replicate.
    - by intros t t' [? _]%lookup_replicate. }
  assert (inv (acts l (mkSystem 0 (replicate n Out)))) as HI.
  { revert H0. generalize (mkSystem 0 (replicate n Out)) as s. induction l as [|a l IH]; intros s Hs; [done|].
    apply IH. by apply lock_act_inv. }
  simpl. split; [apply HI|]. intros [t Ht] Hz. by apply (in_free _ HI Hz t).
Qed.

(** ** A thread that is alone *)

(** A lock that is held is never obtained by a thread nobody interferes with. *)
Lemma held_forever fuel w p : Z.land w kLocked = kLocked →
  (match p with Out | In => False | SlowCas _ e => Z.land e kLocked = 0 | _ => True end) → run fuel w p = Fault NoFuel.
Proof.
  revert w p. induction fuel as [|fuel IH]; intros w p Hw Hp; [by destruct p|].
  assert (w ≠ 0) as H0 by (by intros ->).
  destruct p; try done; cbn [run step].
  - unfold cas. rewrite (proj2 (Z.eqb_neq _ _) H0). by apply IH.
  - destruct (i <? 100)%nat; [|by apply IH]. rewrite Hw. by apply IH.
  - unfold cas. destruct (Z.eqb_spec w expected) as [->|]; [by rewrite Hw in Hp|]. by apply IH.
  - by apply IH.
  - unfold cas. destruct (Z.land expected kLocked =? 0) eqn:E.
    + destruct (Z.eqb_spec w expected) as [->|]; [by rewrite Hw in E|]. by apply IH.
    + destruct (Z.eqb_spec w expected) as [->|]; apply IH; try done. by rewrite Z.land_lor_distr_l, Hw.
Qed.

(** The lock is not recursive: alone, [lock] returns at once when the word is
    free, and never when it is held. *)
Lemma lock_spec w : word_ok w →
  (w = 0 → ∀ fuel, (1 ≤ fuel)%nat → lock fuel w = Ok kLocked) ∧
  (w ≠ 0 → ∀ fuel, lock fuel w = Fault NoFuel).
Proof.
  intros Hw. split.
  - intros -> fuel Hf. destruct fuel; [lia|]. by destruct fuel.
  - intros Hne fuel. apply held_forever; [|done]. by destruct Hw.
Qed.
