(* ===== verification/EventCount.v ===== *)
(** EventCount: waiting coroutines and the events that wake them.
    Source: src/net/util/synchronization.hpp (EventCount and Done),
    src/net/util/wait_queue.hpp.

    The waiters of a queue are coroutines, named by numbers. To resume one is to
    run it on the spot, from its [await_resume] to its next suspension; what it
    does behind [await_resume] is the parameter [cont]. The operations are those
    of a thread that meets no other one inside the lock; [fuel] bounds the
    accesses of [SpinLock.lock]. *)
From S2P Require Import Prelude SpinLock.
Local Open Scope Z_scope.

Definition kAddWaiter : Z := 1.
Definition kEpochShift : Z := 32.
Definition kAddEpoch : Z := Z.shiftl 1 kEpochShift.
Definition kWaiterMask : Z := kAddEpoch - 1.

(** [val_] holds the epoch in its upper and the number of waiters in its lower half. *)
Record EventCount : Set := mkEc {
  val_ : Z;
  lock_ : Z;
  wait_queue_ : list nat;
}.

Definition new_ec : EventCount := mkEc 0 0 [].
Definition set_val (ec : EventCount) (v : Z) : EventCount := mkEc v (lock_ ec) (wait_queue_ ec).
Definition set_lock (ec : EventCount) (w : Z) : EventCount := mkEc (val_ ec) w (wait_queue_ ec).
Definition set_queue (ec : EventCount) (q : list nat) : EventCount := mkEc (val_ ec) (lock_ ec) q.

Definition ec_lock (fuel : nat) (ec : EventCount) : res EventCount := w ← SpinLock.lock fuel (lock_ ec); Ok (set_lock ec w).
Definition ec_unlock (ec : EventCount) : EventCount := set_lock ec (SpinLock.unlock (lock_ ec)).

(** ** WaitQueue *)

(** [Link] and [Unlink]; linking a waiter twice fails an assertion of the list. *)
Definition Link (q : list nat) (w : nat) : res (list nat) := _ ← cassert (bool_decide (w ∉ q)); Ok (q ++ [w]).
Definition Unlink (q : list nat) (w : nat) : list nat := filter (λ x, x ≠ w) q.
(** The iterator that [erase] returns for [w]; erasing what is not linked is invalid. *)
Fixpoint erase_next (q : list nat) (w : nat) : res (option nat) :=
  match q with
  | [] => Fault UseAfterFree
  | x :: q => if decide (x = w) then Ok (head q) else erase_next q w
  end.
Definition wq_empty (q : list nat) : bool := bool_decide (q = []).

Section notify.
Context (fuel : nat) (cont : nat → EventCount → res EventCount).

(** [finishWait]: wait until a running notification has ended. *)
Definition finishWait (ec : EventCount) : res EventCount := ec ← ec_lock fuel ec; Ok (ec_unlock ec).

(** [handler.resume()] of a waiter that was suspended. *)
Definition resume (w : nat) (ec : EventCount) : res EventCount := ec ← finishWait ec; cont w ec.

Definition NotifyOne (ec : EventCount) : res (EventCount * bool) :=
  match wait_queue_ ec with
  | [] => Ok (ec, false)
  | w :: q => ec ← resume w (set_queue ec q); Ok (ec, true)
  end.
(** The loop of [NotifyAll]: [it] is the waiter the iterator points to, or the
    end; [n] bounds the iterations. *)
Fixpoint notify_all (n : nat) (ec : EventCount) (it : option nat) (notified : bool) : res (EventCount * bool) :=
  match it with
  | None => Ok (ec, notified)
  | Some w =>
      match n with
      | O => Fault NoFuel
      | S n' =>
          next ← erase_next (wait_queue_ ec) w;
          ec ← resume w (set_queue ec (Unlink (wait_queue_ ec) w));
          notify_all n' ec next true
      end
  end.
Definition NotifyAll (ec : EventCount) : res (EventCount * bool) := notify_all fuel ec (head (wait_queue_ ec)) false.

(** ** EventCount *)

Definition NotifyInternal (f : EventCount → res (EventCount * bool)) (ec : EventCount) : res (EventCount * bool) :=
  let prev := val_ ec in
  let ec := set_val ec (u64 (prev + kAddEpoch)) in
  if negb (Z.land prev kWaiterMask =? 0) then
    ec ← ec_lock fuel ec;
    '(ec, r) ← f ec;
    Ok (ec_unlock ec, r)
  else Ok (ec, false).
Definition notify (ec : EventCount) : res (EventCount * bool) := NotifyInternal NotifyOne ec.
Definition notifyAll (ec : EventCount) : res (EventCount * bool) := NotifyInternal NotifyAll ec.

(** [prepareWait]: the epoch of the key. [release] is the destructor of the key. *)
Definition prepareWait (ec : EventCount) : EventCount * Z :=
  (set_val ec (u64 (val_ ec + kAddWaiter)), u32 (Z.shiftr (val_ ec) kEpochShift)).
Definition release (ec : EventCount) : EventCount := set_val ec (u64 (val_ ec - kAddWaiter)).

(** [co_await wait(epoch)] of the coroutine [w]: true when it is suspended. *)
Definition wait (ec : EventCount) (w : nat) (epoch : Z) : res (EventCount * bool) :=
  ec ← ec_lock fuel ec;
  if Z.shiftr (val_ ec) kEpochShift =? epoch then
    q ← Link (wait_queue_ ec) w;
    Ok (ec_unlock (set_queue ec q), true)
  else Ok (ec_unlock ec, false).

(** [await(condition)] up to its end, with what it returns, or to its
    suspension. [cond i] is the condition when it is evaluated the [i]-th time,
    [env i] what other threads do before the [i]-th [wait]. *)
Section await.
Context (cond : nat → bool) (env : nat → EventCount → res EventCount).

Fixpoint await_loop (n : nat) (i : nat) (ec : EventCount) (w : nat) (preempt : bool) : res (EventCount * option bool) :=
  match n with
  | O => Fault NoFuel
  | S n' =>
      let '(ec, epoch) := prepareWait ec in
      if cond i then Ok (release ec, Some preempt) else
      ec ← env i ec;
      '(ec, suspended) ← wait ec w epoch;
      if suspended : bool then Ok (ec, None) else await_loop n' (S i) (release ec) w preempt
  end.
Definition await (n : nat) (ec : EventCount) (w : nat) : res (EventCount * option bool) :=
  if cond 0%nat then Ok (ec, Some false) else await_loop n 1 ec w false.
End await.
End notify.

(** ** Done *)

Record Done : Set := mkDone { ec_ : EventCount; ready_ : bool }.
Definition new_done : Done := mkDone new_ec false.

Definition Notify (fuel : nat) (cont : nat → EventCount → res EventCount) (d : Done) : res Done :=
  '(ec, _) ← notify fuel cont (ec_ d); Ok (mkDone ec true).
Definition Reset (d : Done) : Done := mkDone (ec_ d) false.
Definition IsReady (d : Done) : bool := ready_ d.

(** [Wait] of a coroutine that is alone: [None] when it is suspended. *)
Definition Wait (fuel : nat) (reset : bool) (d : Done) (w : nat) : res (Done * option bool) :=
  '(ec, r) ← await fuel (λ _, ready_ d) (λ _ ec, Ok ec) fuel (ec_ d) w;
  match r with
  | Some b => Ok (mkDone ec (if reset then false else ready_ d), Some b)
  | None => Ok (mkDone ec (ready_ d), None)
  end.
