(* ===== verification/EventCountSpec.v ===== *)
(** EventCountSpec: the theorems on event counts. *)
From S2P Require Import Prelude SpinLock EventCount.
Local Open Scope Z_scope.

(** An event count that no thread works on: the lock is free, [n] keys are
    alive, and [e] events have been counted. *)
Record idle (ec : EventCount) (e n : Z) : Prop := {
  id_lock : lock_ ec = 0;
  id_val : val_ ec = e * 2 ^ 32 + n;
  id_epoch : 0 ≤ e < 2 ^ 32;
  id_waiters : 0 ≤ n < 2 ^ 32;
}.

Lemma idle_new : idle new_ec 0 0.
Proof. by split. Qed.

Section ec.
Implicit Types (ec : EventCount) (e n : Z) (w : nat).

Lemma waiters_bits ec e n : idle ec e n → Z.land (val_ ec) kWaiterMask = n ∧ Z.shiftr (val_ ec) kEpochShift = e.
Proof.
  intros [_ -> He Hn]. change kWaiterMask with (Z.ones 32). change kEpochShift with 32.
  rewrite Z.land_ones, Z.shiftr_div_pow2 by lia.
  split; [rewrite Z.add_comm, Z.mod_add, Z.mod_small by lia; done|].
  rewrite Z.div_add_l, Z.div_small by lia. lia.
Qed.

Lemma lock_free fuel ec : lock_ ec = 0 → (1 ≤ fuel)%nat → ec_lock fuel ec = Ok (set_lock ec kLocked).
Proof.
  intros Hl Hf. unfold ec_lock. rewrite Hl. destruct (lock_spec 0 (or_introl eq_refl)) as [E _]. by rewrite (E eq_refl fuel Hf).
Qed.

Lemma lock_held fuel ec : lock_ ec = kLocked → ec_lock fuel ec = Fault NoFuel.
Proof.
  intros Hl. unfold ec_lock. rewrite Hl. destruct (lock_spec kLocked (or_intror eq_refl)) as [_ E]. by rewrite E.
Qed.

Lemma prepare_idle ec e n : idle ec e n → n + 1 < 2 ^ 32 →
  idle (fst (prepareWait ec)) e (n + 1) ∧ snd (prepareWait ec) = e ∧ wait_queue_ (fst (prepareWait ec)) = wait_queue_ ec.
Proof.
  intros Hid Hn. destruct (waiters_bits ec e n Hid) as [_ Hs]. destruct Hid as [Hl Hv He Hw]. unfold prepareWait. simpl.
  split_and!; [|rewrite Hs, uN_small by lia; done|done].
  split; simpl; [done| |lia|lia]. rewrite Hv, uN_small; unfold kAddWaiter; lia.
Qed.

Lemma release_idle ec e n : idle ec e (n + 1) → 0 ≤ n → idle (release ec) e n.
Proof.
  intros [Hl Hv He Hw] Hn. split; simpl; [done| |lia|lia]. rewrite Hv, uN_small; unfold kAddWaiter; lia.
Qed.

(** The coroutine of a fresh key is suspended exactly when no event was counted since. *)
Lemma wait_idle fuel ec e n w epoch : idle ec e n → (1 ≤ fuel)%nat → w ∉ wait_queue_ ec → 0 ≤ epoch < 2 ^ 32 →
  wait fuel ec w epoch = Ok (if e =? epoch then set_queue ec (wait_queue_ ec ++ [w]) else ec, e =? epoch).
Proof.
  intros Hid Hf Hw Hep. destruct (waiters_bits ec e n Hid) as [_ Hs]. unfold wait.
  rewrite (lock_free fuel ec (id_lock _ _ _ Hid) Hf), bind_ok. change (val_ (set_lock ec kLocked)) with (val_ ec). rewrite Hs.
  destruct (e =? epoch).
  - unfold Link. rewrite bool_decide_true by done. cbn [cassert]. rewrite !bind_ok.
    destruct ec as [v l q]. pose proof (id_lock _ _ _ Hid) as Hl. simpl in Hl. by rewrite Hl.
  - destruct ec as [v l q]. pose proof (id_lock _ _ _ Hid) as Hl. simpl in Hl. by rewrite Hl.
Qed.

(** An event without waiters is counted. *)
Lemma notify_idle fuel cont ec e n : idle ec e n → (1 ≤ fuel)%nat → wait_queue_ ec = [] →
  runs (notify fuel cont ec) (λ '(ec', r), r = false ∧ idle ec' ((e + 1) mod 2 ^ 32) n ∧ wait_queue_ ec' = []).
Proof.
  intros Hid Hf Hq. destruct (waiters_bits ec e n Hid) as [Hb _]. pose proof Hid as [Hl Hv He Hn].
  assert (idle (set_val ec (u64 (val_ ec + kAddEpoch))) ((e + 1) mod 2 ^ 32) n) as Hid'.
  { pose proof (Z.mod_pos_bound (e + 1) (2 ^ 32)). split; simpl; [done| |lia|done]. rewrite Hv. unfold uN.
    rewrite Z.land_ones by lia. change kAddEpoch with (2 ^ 32).
    destruct (decide (e + 1 = 2 ^ 32)) as [E|E].
    - rewrite E, Z.mod_same by lia. replace (e * 2 ^ 32 + n + 2 ^ 32) with (n + 1 * 2 ^ 64) by lia.
      rewrite Z.mod_add, Z.mod_small by lia. lia.
    - rewrite (Z.mod_small (e + 1)) by lia. rewrite Z.mod_small by lia. lia. }
  unfold notify, NotifyInternal. rewrite Hb. destruct (Z.eqb_spec n 0) as [->|Hne]; cbn [negb].
  - apply runs_ok. done.
  - rewrite lock_free by done. rewrite bind_ok. unfold NotifyOne. simpl. rewrite Hq. apply runs_ok.
    split; [done|]. split; [|done]. destruct Hid' as [H1 H2 H3 H4]. by split.
Qed.

(** [n] events in a row. *)
Fixpoint notify_n (k : nat) fuel cont ec : res EventCount :=
  match k with O => Ok ec | S k' => '(ec, _) ← notify fuel cont ec; notify_n k' fuel cont ec end.

Lemma notify_n_idle k fuel cont ec e n : idle ec e n → (1 ≤ fuel)%nat → wait_queue_ ec = [] →
  runs (notify_n k fuel cont ec) (λ ec', idle ec' ((e + Z.of_nat k) mod 2 ^ 32) n ∧ wait_queue_ ec' = []).
Proof.
  revert ec e. induction k as [|k IH]; intros ec e Hid Hf Hq; cbn [notify_n].
  - apply runs_ok. rewrite Z.add_0_r, Z.mod_small by apply Hid. done.
  - rbind (notify_idle fuel cont ec e n Hid Hf Hq). intros [ec1 r] (_ & Hid1 & Hq1).
    eapply runs_mono; [by eapply IH|]. intros ec2 [Hid2 Hq2]. split; [|done].
    rewrite Zplus_mod_idemp_l in Hid2. replace (e + Z.of_nat (S k)) with (e + 1 + Z.of_nat k) by lia. done.
Qed.

(** No lost event: a coroutine that took its key before [k] events is
    suspended only when [k] is a multiple of 2^32, so that an event between the
    key and the wait is seen, however many there are below that. *)
Theorem wait_sees_notify k fuel cont ec e n w : idle ec e n → n + 1 < 2 ^ 32 → (1 ≤ fuel)%nat → wait_queue_ ec = [] →
  runs (let '(ec, epoch) := prepareWait ec in
        ec ← notify_n k fuel cont ec; wait fuel ec w epoch)
       (λ '(ec', suspended), suspended = bool_decide (Z.of_nat k mod 2 ^ 32 = 0) ∧
          wait_queue_ ec' = (if suspended then [w] else [])).
Proof.
  intros Hid Hn Hf Hq. destruct (prepare_idle ec e n Hid Hn) as (Hid1 & Hep & Hq1).
  destruct (prepareWait ec) as [ec1 epoch]. simpl in *. subst epoch.
  rbind (notify_n_idle k fuel cont ec1 e (n + 1) Hid1 Hf); [congruence|]. intros ec2 [Hid2 Hq2].
  assert (w ∉ wait_queue_ ec2) as Hw by (rewrite Hq2; apply not_elem_of_nil).
  rewrite (wait_idle fuel ec2 _ _ w e Hid2 Hf Hw (id_epoch _ _ _ Hid)). apply runs_ok.
  assert (((e + Z.of_nat k) mod 2 ^ 32 =? e) = bool_decide (Z.of_nat k mod 2 ^ 32 = 0)) as ->.
  { pose proof (id_epoch _ _ _ Hid) as He. pose proof (Z.mod_pos_bound (Z.of_nat k) (2 ^ 32) ltac:(lia)) as Hb.
    rewrite <- Zplus_mod_idemp_r. case_bool_decide as E.
    - rewrite E, Z.add_0_r, Z.mod_small by lia. apply Z.eqb_refl.
    - apply Z.eqb_neq. intros E2. destruct (decide (e + Z.of_nat k mod 2 ^ 32 < 2 ^ 32)) as [Hlt|Hge].
      + rewrite Z.mod_small in E2 by lia. lia.
      + rewrite <- (Z.mod_unique _ _ 1 (e + Z.of_nat k mod 2 ^ 32 - 2 ^ 32)) in E2 by lia. lia. }
  split; [done|]. case_bool_decide; simpl; by rewrite Hq2.
Qed.

Lemma notify_stuck fuel cont ec : lock_ ec = 0 → Z.land (val_ ec) kWaiterMask ≠ 0 → wait_queue_ ec ≠ [] →
  notify fuel cont ec = Fault NoFuel ∧ notifyAll fuel cont ec = Fault NoFuel.
Proof.
  intros Hl Hb Hq. unfold notify, notifyAll, NotifyInternal. rewrite (proj2 (Z.eqb_neq _ 0) Hb). cbn [negb].
  destruct fuel as [|fuel]; [by unfold ec_lock; simpl lock_; rewrite Hl|].
  rewrite lock_free by (done || lia). rewrite !bind_ok. unfold NotifyOne, NotifyAll. simpl wait_queue_.
  destruct (wait_queue_ ec) as [|w q] eqn:E; [done|]. cbn [notify_all head]. simpl wait_queue_. rewrite E. cbn [erase_next].
  rewrite decide_True, bind_ok by done. unfold resume, finishWait. by rewrite !lock_held.
Qed.

(** (C28) Waking a waiter never ends: a coroutine that is suspended by [wait] is
    resumed inside the critical section of [notify], and the first thing it does
    is to take the lock that its waker holds. Whatever the coroutine would do
    next, neither [notify] nor [notifyAll] returns. *)
Theorem notify_deadlocks fuel ec e n w : idle ec e n → n + 1 < 2 ^ 32 → (1 ≤ fuel)%nat → w ∉ wait_queue_ ec →
  runs (let '(ec, epoch) := prepareWait ec in wait fuel ec w epoch) (λ '(ec', suspended), suspended = true ∧
    ∀ fuel' cont, notify fuel' cont ec' = Fault NoFuel ∧ notifyAll fuel' cont ec' = Fault NoFuel).
Proof.
  intros Hid Hn Hf Hw. destruct (prepare_idle ec e n Hid Hn) as (Hid1 & Hep & Hq1).
  destruct (prepareWait ec) as [ec1 epoch]. simpl in *. subst epoch.
  rewrite <- Hq1 in Hw. rewrite (wait_idle fuel ec1 e (n + 1) w e Hid1 Hf Hw (id_epoch _ _ _ Hid)), Z.eqb_refl. apply runs_ok.
  split; [done|]. intros fuel' cont. pose proof (id_waiters _ _ _ Hid). apply notify_stuck; simpl; [apply Hid1| |by destruct (wait_queue_ ec1)].
  rewrite (proj1 (waiters_bits ec1 e (n + 1) Hid1)). lia.
Qed.

(** Done: a coroutine that waits before the notification is suspended, and
    the notification never returns; one that waits afterwards goes on at once. *)
Theorem done_order fuel cont w : (1 ≤ fuel)%nat →
  runs (Wait fuel false new_done w) (λ '(d, r), r = None ∧ ∀ fuel' cont, Notify fuel' cont d = Fault NoFuel) ∧
  runs (d ← Notify fuel cont new_done; Wait fuel false d w) (λ '(d, r), r = Some false ∧ IsReady d = true).
Proof.
  intros Hf. pose proof (prepare_idle new_ec 0 0 idle_new ltac:(lia)) as (Hid & Hep & Hq). split.
  - unfold Wait, await, new_done. cbn [ready_ ec_]. destruct fuel as [|fuel]; [lia|]. cbn [await_loop].
    destruct (prepareWait new_ec) as [ec1 epoch]. simpl fst in *. simpl snd in *. subst epoch.
    assert (w ∉ wait_queue_ ec1) as Hw by (rewrite Hq; apply not_elem_of_nil).
    rewrite bind_ok, (wait_idle _ ec1 0 _ w 0 Hid Hf Hw (conj (Z.le_refl 0) eq_refl)), !bind_ok. cbn [Z.eqb]. rewrite bind_ok.
    apply runs_ok. split; [done|]. intros fuel' cont'. unfold Notify. cbn [ec_].
    destruct (notify_stuck fuel' cont' (set_queue ec1 (wait_queue_ ec1 ++ [w]))) as [E _]; [apply Hid| |simpl; by destruct (wait_queue_ ec1)|by rewrite E].
    simpl val_. rewrite (proj1 (waiters_bits ec1 0 (0 + 1) Hid)). lia.
  - unfold Notify. cbn [ec_ new_done]. destruct (notify_idle fuel cont new_ec 0 0 idle_new Hf eq_refl) as ([ec b] & -> & _).
    rewrite !bind_ok. unfold Wait, await. cbn [ready_ ec_]. rewrite bind_ok. by apply runs_ok.
Qed.
End ec.
