(* ===== verification/DoneRef.v ===== *)
(** DoneRef: the shared state of Done objects and the count of those that refer to
    it. Source: src/net/util/synchronization.hpp (Done, Done::Impl).

    A Done object is a counted pointer to an [Impl]; the heap of the [Impl]s never
    gives an address out again. Copying counts, and the last one deletes. *)
From stdpp Require Import gmap.
From S2P Require Import Prelude SpinLock EventCount.
Local Open Scope Z_scope.

Record Impl : Set := mkImpl { done_ : EventCount.Done; use_count_ : Z }.
Record St : Set := mkSt { heap_ : gmap nat Impl; next_ : nat; handles_ : list (option nat) }.
Definition no_done : St := mkSt ∅ 0 [].

Definition set_heap (s : St) (h : gmap nat Impl) : St := mkSt h (next_ s) (handles_ s).
Definition set_handles (s : St) (l : list (option nat)) : St := mkSt (heap_ s) (next_ s) l.
Definition get_impl (s : St) (p : nat) : res Impl := match heap_ s !! p with Some i => Ok i | None => Fault UseAfterFree end.

Definition intrusive_ptr_add_ref (s : St) (p : nat) : res St :=
  i ← get_impl s p; Ok (set_heap s (<[p := mkImpl (done_ i) (u32 (use_count_ i + 1))]> (heap_ s))).
Definition intrusive_ptr_release (s : St) (p : nat) : res St :=
  i ← get_impl s p;
  if use_count_ i =? 1 then Ok (set_heap s (delete p (heap_ s)))
  else Ok (set_heap s (<[p := mkImpl (done_ i) (u32 (use_count_ i - 1))]> (heap_ s))).

(** The [Done] number [i] of those that were declared. *)
Definition impl_of (s : St) (i : nat) : res nat := o ← aget (handles_ s) i; match o with Some p => Ok p | None => Fault UseAfterFree end.

Definition new_done (s : St) : res St :=
  let p := next_ s in
  s ← intrusive_ptr_add_ref (mkSt (<[p := mkImpl EventCount.new_done 0]> (heap_ s)) (S p) (handles_ s)) p;
  Ok (set_handles s (handles_ s ++ [Some p])).
(** The copy constructor and the copy assignment. *)
Definition copy_done (s : St) (i : nat) : res St :=
  p ← impl_of s i; s ← intrusive_ptr_add_ref s p; Ok (set_handles s (handles_ s ++ [Some p])).
Definition assign_done (s : St) (i j : nat) : res St :=
  p ← impl_of s i; q ← impl_of s j;
  s ← intrusive_ptr_add_ref s q;
  intrusive_ptr_release (set_handles s (<[i := Some q]> (handles_ s))) p.
Definition destroy_done (s : St) (i : nat) : res St :=
  p ← impl_of s i; intrusive_ptr_release (set_handles s (<[i := None]> (handles_ s))) p.

(** [Notify], [Wait] and [Reset] of the [Impl]. *)
Definition on_impl (s : St) (i : nat) (f : EventCount.Done → res EventCount.Done) : res St :=
  p ← impl_of s i; m ← get_impl s p; d ← f (done_ m); Ok (set_heap s (<[p := mkImpl d (use_count_ m)]> (heap_ s))).

Section programs.
Context (fuel : nat) (cont : nat → EventCount → res EventCount).

Inductive op : Set :=
  | NewDone | CopyDone (i : nat) | AssignDone (i j : nat) | DestroyDone (i : nat)
  | NotifyDone (i : nat) | WaitDone (i : nat) (reset : bool) (w : nat) | ResetDone (i : nat).

Definition exec (o : op) (s : St) : res St :=
  match o with
  | NewDone => new_done s
  | CopyDone i => copy_done s i
  | AssignDone i j => assign_done s i j
  | DestroyDone i => destroy_done s i
  | NotifyDone i => on_impl s i (EventCount.Notify fuel cont)
  | WaitDone i reset w => on_impl s i (λ d, '(d, _) ← EventCount.Wait fuel reset d w; Ok d)
  | ResetDone i => on_impl s i (λ d, Ok (EventCount.Reset d))
  end.
Definition run_ops (l : list op) (s : St) : res St := rfold exec l s.

(** ** The count *)

Definition refers (p : nat) (o : option nat) : nat := if decide (o = Some p) then 1 else 0.
Definition refs (s : St) (p : nat) : nat := sum_list_with (refers p) (handles_ s).

(** [p] has [extra] references besides the handles. *)
Definition counted (s : St) (extra : nat → nat) : Prop :=
  (∀ p i, heap_ s !! p = Some i → use_count_ i = Z.of_nat (refs s p + extra p) ∧ (0 < refs s p + extra p)%nat ∧ (p < next_ s)%nat) ∧
  (∀ p, heap_ s !! p = None → (refs s p + extra p = 0)%nat).
Definition none : nat → nat := λ _, 0%nat.
Definition one (p : nat) : nat → nat := λ q, if decide (q = p) then 1%nat else 0%nat.

(** Fewer Done objects than the count can hold. *)
Definition few (s : St) : Prop := Z.of_nat (length (handles_ s)) + 1 < 2 ^ 32.

Lemma refs_small s p : few s → Z.of_nat (refs s p) + 1 < 2 ^ 32.
Proof.
  intros Hf. unfold few in Hf. pose proof (sum_le (refers p) 1 (handles_ s)) as Hle. unfold refs.
  enough (sum_list_with (refers p) (handles_ s) ≤ 1 * length (handles_ s))%nat by lia. apply Hle. intros o. unfold refers. case_decide; lia.
Qed.

Lemma refs_impl s i p : handles_ s !! i = Some (Some p) → (0 < refs s p)%nat.
Proof. intros Hi. unfold refs. pose proof (sum_lookup_le (refers p) _ _ _ Hi) as Hle. unfold refers in Hle at 1. rewrite decide_True in Hle by done. lia. Qed.

Lemma counted_impl s i p extra : counted s extra → handles_ s !! i = Some (Some p) → is_Some (heap_ s !! p) ∧ impl_of s i = Ok p.
Proof.
  intros [_ H0] Hi. split; [|unfold impl_of; by rewrite (aget_some _ _ _ Hi), bind_ok]. destruct (heap_ s !! p) eqn:E; [by eexists|].
  pose proof (refs_impl s i p Hi). specialize (H0 p E). lia.
Qed.

Lemma add_ref_spec s p : counted s none → few s → is_Some (heap_ s !! p) →
  runs (intrusive_ptr_add_ref s p) (λ s', counted s' (one p) ∧ handles_ s' = handles_ s ∧ next_ s' = next_ s).
Proof.
  intros [H1 H0] Hf [i Hi]. unfold intrusive_ptr_add_ref, get_impl. rewrite Hi, bind_ok. apply runs_ok. split_and!; [|done|done].
  pose proof (refs_small s p Hf). unfold refs, none in *. split; unfold refs, set_heap; cbn [heap_ handles_ next_].
  - intros q j. unfold one. case_decide as Hq; [subst q; rewrite lookup_insert_eq|rewrite lookup_insert_ne by done].
    + intros [= <-]. destruct (H1 p i Hi) as [Hu Hn]. cbn. rewrite Hu, uN_small by lia. split; lia.
    + intros Hj. destruct (H1 q j Hj) as [Hu Hn]. split; lia.
  - intros q. unfold one. case_decide as Hq; [subst q; by rewrite lookup_insert_eq|rewrite lookup_insert_ne by done]. intros Hj. specialize (H0 q Hj). lia.
Qed.

(** One of the references goes. *)
Lemma release_spec s p : counted s (one p) → few s →
  runs (intrusive_ptr_release s p) (λ s', counted s' none ∧ handles_ s' = handles_ s).
Proof.
  intros [H1 H0] Hf. unfold intrusive_ptr_release, get_impl. unfold one in *. pose proof (refs_small s p Hf) as Hs. unfold refs in *.
  destruct (heap_ s !! p) as [i|] eqn:Hi; [|specialize (H0 p Hi); rewrite decide_True in H0 by done; lia].
  destruct (H1 p i Hi) as [Hu Hn]. rewrite decide_True in Hu, Hn by done. rewrite bind_ok.
  assert (∀ q j, q ≠ p → heap_ s !! q = Some j → use_count_ j = Z.of_nat (sum_list_with (refers q) (handles_ s) + 0) ∧ (0 < sum_list_with (refers q) (handles_ s) + 0)%nat ∧ (q < next_ s)%nat) as Hq1
    by (intros q j Hq Hj; destruct (H1 q j Hj) as [Hu' Hn']; by rewrite decide_False in Hu', Hn').
  assert (∀ q, q ≠ p → heap_ s !! q = None → (sum_list_with (refers q) (handles_ s) + 0 = 0)%nat) as Hq0
    by (intros q Hq Hj; specialize (H0 q Hj); by rewrite decide_False in H0).
  destruct (Z.eqb_spec (use_count_ i) 1) as [E|E]; apply runs_ok; (split; [|done]); split; unfold refs, none, set_heap; cbn [heap_ handles_ next_]; intros q.
  - intros j [Hne Hj]%lookup_delete_Some. by apply Hq1.
  - destruct (decide (q = p)) as [->|Hne]; [lia|]. rewrite lookup_delete_ne by done. by apply Hq0.
  - intros j. destruct (decide (q = p)) as [->|Hne]; [rewrite lookup_insert_eq|rewrite lookup_insert_ne by done; by apply Hq1].
    intros [= <-]. cbn. rewrite Hu, uN_small by lia. split; lia.
  - destruct (decide (q = p)) as [->|Hne]; [by rewrite lookup_insert_eq|]. rewrite lookup_insert_ne by done. by apply Hq0.
Qed.

(** The references are counted again when the handles change. *)
Lemma counted_handles s l extra extra' : counted s extra →
  (∀ p, sum_list_with (refers p) l + extra' p = refs s p + extra p)%nat → counted (set_handles s l) extra'.
Proof.
  intros [H1 H0] Hl. split; unfold refs, set_handles; cbn [heap_ handles_ next_].
  - intros p i Hi. rewrite Hl. by apply H1.
  - intros p Hp. rewrite Hl. by apply H0.
Qed.

Lemma new_done_spec s : counted s none → runs (new_done s) (λ s', counted s' none ∧ length (handles_ s') = S (length (handles_ s))).
Proof.
  intros [H1 H0]. unfold new_done, intrusive_ptr_add_ref, get_impl. cbn [heap_ next_ handles_ set_heap]. rewrite lookup_insert_eq, bind_ok, bind_ok. apply runs_ok.
  unfold set_handles, set_heap. cbn [heap_ next_ handles_ done_ use_count_]. rewrite length_app. split; [|cbn; lia]. rewrite insert_insert_eq.
  assert (heap_ s !! next_ s = None) as Hnew by (destruct (heap_ s !! next_ s) as [i|] eqn:E; [destruct (H1 _ _ E) as (_ & _ & ?); lia|done]).
  assert (∀ q, sum_list_with (refers q) (handles_ s ++ [Some (next_ s)]) = refs s q + one (next_ s) q)%nat as Hrefs.
  { intros q. rewrite sum_list_with_app. cbn. unfold refers at 2, one, refs. repeat case_decide; simplify_eq; lia. }
  split; unfold refs; cbn [heap_ next_ handles_]; intros q; rewrite Hrefs; unfold one, none.
  - intros i. case_decide as Hq; [subst q; rewrite lookup_insert_eq|rewrite lookup_insert_ne by done].
    + intros [= <-]. cbn. specialize (H0 _ Hnew). unfold none in H0. rewrite uN_small by lia. lia.
    + intros Hi. destruct (H1 q i Hi) as [Hu Hn]. unfold none in Hu, Hn. lia.
  - case_decide as Hq; [subst q; by rewrite lookup_insert_eq|rewrite lookup_insert_ne by done]. intros Hi. specialize (H0 q Hi). unfold none in H0. lia.
Qed.

Lemma copy_done_spec s i p : counted s none → few s → handles_ s !! i = Some (Some p) →
  runs (copy_done s i) (λ s', counted s' none ∧ length (handles_ s') = S (length (handles_ s))).
Proof.
  intros HI Hf Hi. destruct (counted_impl s i p _ HI Hi) as [Hp Ei]. unfold copy_done. rewrite Ei, bind_ok.
  rbind (add_ref_spec s p HI Hf Hp). intros s1 (HI1 & Eh & _). apply runs_ok. rewrite Eh. split; [|cbn; rewrite length_app; cbn; lia].
  apply (counted_handles _ _ (one p)); [done|]. intros q. rewrite sum_list_with_app. unfold refs. rewrite Eh. cbn. unfold refers at 2, one, none.
  repeat case_decide; simplify_eq; lia.
Qed.

Lemma destroy_done_spec s i p : counted s none → few s → handles_ s !! i = Some (Some p) →
  runs (destroy_done s i) (λ s', counted s' none ∧ handles_ s' = <[i := None]> (handles_ s)).
Proof.
  intros HI Hf Hi. destruct (counted_impl s i p _ HI Hi) as [Hp Ei]. unfold destroy_done. rewrite Ei, bind_ok.
  apply release_spec; [|unfold few in *; cbn; by rewrite length_insert]. apply (counted_handles _ _ none); [done|]. intros q.
  pose proof (sum_insert (refers q) _ _ _ None Hi) as Hs. unfold refs, one, none. unfold refers in Hs at 2 4. repeat case_decide; simplify_eq; lia.
Qed.

Lemma assign_done_spec s i j p q : counted s none → few s → handles_ s !! i = Some (Some p) → handles_ s !! j = Some (Some q) →
  runs (assign_done s i j) (λ s', counted s' none ∧ handles_ s' = <[i := Some q]> (handles_ s)).
Proof.
  intros HI Hf Hi Hj. destruct (counted_impl s i p _ HI Hi) as [Hp Ei]. destruct (counted_impl s j q _ HI Hj) as [Hq Ej]. unfold assign_done. rewrite Ei, bind_ok, Ej, bind_ok.
  rbind (add_ref_spec s q HI Hf Hq). intros s1 (HI1 & Eh & _). rewrite Eh.
  apply release_spec; [|unfold few in *; cbn; by rewrite length_insert]. apply (counted_handles _ _ (one q)); [done|]. intros r.
  pose proof (sum_insert (refers r) _ _ _ (Some q) Hi) as Hs. unfold refs. rewrite Eh. unfold one. unfold refers in Hs at 2 4. repeat case_decide; simplify_eq; lia.
Qed.

Lemma on_impl_counted s i f s' : counted s none → on_impl s i f = Ok s' → counted s' none ∧ handles_ s' = handles_ s.
Proof.
  intros [H1 H0]. unfold on_impl, get_impl. intros (p & _ & (m & Em & (d & _ & [= <-])%bind_ok_inv)%bind_ok_inv)%bind_ok_inv. destruct (heap_ s !! p) as [m'|] eqn:Hm; [|done]. injection Em as ->.
  split; [|done]. split; unfold refs, set_heap; cbn [heap_ handles_ next_]; intros q.
  - intros j. destruct (decide (q = p)) as [->|Hne]; [rewrite lookup_insert_eq; intros [= <-]; apply (H1 p m Hm)|rewrite lookup_insert_ne by done; apply H1].
  - destruct (decide (q = p)) as [->|Hne]; [by rewrite lookup_insert_eq|rewrite lookup_insert_ne by done; apply H0].
Qed.

Lemma exec_counted o s s' : counted s none → few s → exec o s = Ok s' → counted s' none ∧ (length (handles_ s') ≤ S (length (handles_ s)))%nat.
Proof.
  intros HI Hf. assert (∀ i p, impl_of s i = Ok p → handles_ s !! i = Some (Some p)) as Himpl.
  { intros i p (o' & Ho & E)%bind_ok_inv. apply aget_inv in Ho. by destruct o'; simplify_eq. }
  destruct o as [|i|i j|i|i|i reset w|i]; cbn [exec].
  - intros E. destruct (runs_inv _ _ _ (new_done_spec s HI) E) as [? ->]. done.
  - intros E. pose proof E as (p & Hp%Himpl & _)%bind_ok_inv. destruct (runs_inv _ _ _ (copy_done_spec s i p HI Hf Hp) E) as [? ->]. done.
  - intros E. pose proof E as (p & Hp%Himpl & (q & Hq%Himpl & _)%bind_ok_inv)%bind_ok_inv.
    destruct (runs_inv _ _ _ (assign_done_spec s i j p q HI Hf Hp Hq) E) as [? ->]. rewrite length_insert. split; [done|lia].
  - intros E. pose proof E as (p & Hp%Himpl & _)%bind_ok_inv. destruct (runs_inv _ _ _ (destroy_done_spec s i p HI Hf Hp) E) as [? ->].
    rewrite length_insert. split; [done|lia].
  - intros E. apply on_impl_counted in E as [? ->]; [split; [done|lia]|done].
  - intros E. apply on_impl_counted in E as [? ->]; [split; [done|lia]|done].
  - intros E. apply on_impl_counted in E as [? ->]; [split; [done|lia]|done].
Qed.

Lemma no_done_counted : counted no_done none.
Proof. split; cbn; [intros p i; by rewrite lookup_empty|done]. Qed.

(** The Done objects that an operation on references uses are there. *)
Definition uses (s : St) (o : op) : Prop :=
  match o with
  | NewDone => True
  | CopyDone i | DestroyDone i => ∃ p, handles_ s !! i = Some (Some p)
  | AssignDone i j => ∃ p q, handles_ s !! i = Some (Some p) ∧ handles_ s !! j = Some (Some q)
  | _ => False
  end.

(** In every program the shared state exists exactly as long as a Done object refers
    to it, and copying, assigning and destroying Done objects that are there
    never touches a state that was deleted. *)
Theorem done_refs l s : Z.of_nat (length l) + 1 < 2 ^ 32 → run_ops l no_done = Ok s →
  (∀ p, is_Some (heap_ s !! p) ↔ Some p ∈ handles_ s) ∧ (∀ o, uses s o → Z.of_nat (length (handles_ s)) + 1 < 2 ^ 32 → ∃ s', exec o s = Ok s').
Proof.
  intros Hlen Hrun. assert (counted s none ∧ (length (handles_ s) ≤ length l)%nat) as [HI Hh].
  { revert Hrun. apply (rfold_inv exec l (λ pre s, counted s none ∧ (length (handles_ s) ≤ length pre)%nat)); [split; [apply no_done_counted|done]|].
    intros pre o post s1 s2 Hl [HI Hh] E. rewrite Hl, length_app in Hlen. cbn in Hlen. rewrite length_app. cbn.
    destruct (exec_counted o s1 s2 HI) as [HI2 Hh2]; [unfold few; lia|done|]. split; [done|lia]. }
  split.
  - intros p. split.
    + intros [i Hi]. pose proof HI as [H1 _]. destruct (H1 p i Hi) as (_ & Hpos & _). unfold none in Hpos.
      destruct (sum_pos (refers p) (handles_ s)) as (k & o & Hk & Ho); [unfold refs in Hpos; lia|]. unfold refers in Ho. case_decide; [subst|lia].
      by eapply list_elem_of_lookup_2.
    + intros [i Hi]%list_elem_of_lookup_1. by apply (counted_impl s i p none).
  - intros o Ho Hf. fold (few s) in Hf. destruct o as [|i|i j|i| | |]; cbn [uses exec] in *; try done.
    + destruct (new_done_spec s HI) as (s' & E & _). by exists s'.
    + destruct Ho as [p Hp]. destruct (copy_done_spec s i p HI Hf Hp) as (s' & E & _). by exists s'.
    + destruct Ho as (p & q & Hp & Hq). destruct (assign_done_spec s i j p q HI Hf Hp Hq) as (s' & E & _). by exists s'.
    + destruct Ho as [p Hp]. destruct (destroy_done_spec s i p HI Hf Hp) as (s' & E & _). by exists s'.
Qed.
End programs.

(** A coroutine that waits does not refer to the shared state: when the last Done
    object goes, the state is deleted with the coroutine in its queue, and nobody can
    resume it. *)
Example forgotten_waiter :
  results (λ s, (λ i, wait_queue_ (ec_ (done_ i))) <$> heap_ s !! 0%nat) (run_ops 9 (λ _ ec, Ok ec) [NewDone; WaitDone 0 false 7] no_done) = Some (Some [7%nat]) ∧
  results heap_ (run_ops 9 (λ _ ec, Ok ec) [NewDone; WaitDone 0 false 7; DestroyDone 0] no_done) = Some ∅.
Proof. split; vm_compute; reflexivity. Qed.

Lemma done_refs_witness :
  results (λ s, (handles_ s, use_count_ <$> heap_ s !! 0%nat, use_count_ <$> heap_ s !! 1%nat))
    (run_ops 9 (λ _ ec, Ok ec) [NewDone; CopyDone 0; NewDone; AssignDone 2 0; DestroyDone 0] no_done) =
    Some ([None; Some 0%nat; Some 0%nat], Some 2, None) ∧
  ∃ s, run_ops 9 (λ _ ec, Ok ec) [NewDone; CopyDone 0; NewDone; AssignDone 2 0; DestroyDone 0] no_done = Ok s ∧
    ∀ p, is_Some (heap_ s !! p) ↔ Some p ∈ handles_ s.
Proof.
  split; [vm_compute; reflexivity|]. eexists. split; [vm_compute; reflexivity|].
  apply (done_refs 9 (λ _ ec, Ok ec) [NewDone; CopyDone 0; NewDone; AssignDone 2 0; DestroyDone 0]); [reflexivity|vm_compute; reflexivity].
Defined.
