(* ===== verification/ThreadEvent.v ===== *)
(** ThreadEvent: the counting event on which the thread of a task queue sleeps.
    Source: src/net/util/synchronization.hpp (ThreadEvent).

    A step is an atomic access to the counter, or an operation on the mutex or
    the condition variable. The condition variable is a list of sleepers;
    blocking releases the mutex and goes to sleep in one step, as the standard
    requires. Spurious wake-ups, which it allows, are left out: they would only
    add runs in which a waiter tests the counter once more. [None] is a step that has to wait. *)
From S2P Require Import Prelude.
Local Open Scope Z_scope.

Definition INT32_MAX : Z := 2 ^ 31 - 1.
(** [std::atomic<int32_t>] wraps around. *)
Definition i32 (z : Z) : Z := let x := u32 (z mod 2 ^ 32) in if x <? 2 ^ 31 then x else x - 2 ^ 32.

Inductive pc : Set :=
  | Idle
  (* wait() *)
  | WLock | WPred | WBlock | WSleep | WRelock | WSub | WUnlock
  (* notify() *)
  | NAdd | NOne
  (* notifyAll() *)
  | AStore | AAll
  (* reset() *)
  | RStore.

Record Event : Set := mkEvent {
  flag_ : Z;
  m_ : option nat;          (* the thread that holds the mutex *)
  cv_ : list nat;           (* the threads that sleep *)
}.
Definition new_event : Event := mkEvent 0 None [].

Definition set_flag (e : Event) (f : Z) : Event := mkEvent (i32 f) (m_ e) (cv_ e).
Definition set_m (e : Event) (m : option nat) : Event := mkEvent (flag_ e) m (cv_ e).
Definition set_cv (e : Event) (l : list nat) : Event := mkEvent (flag_ e) (m_ e) l.

(** The next step of thread [t]; the threads it wakes. *)
Definition step (t : nat) (e : Event) (p : pc) : option (Event * pc * list nat) :=
  let quiet e p := Some (e, p, []) in
  match p with
  | Idle => None
  | WLock | WRelock => match m_ e with None => quiet (set_m e (Some t)) WPred | Some _ => None end
  | WPred => quiet e (if 0 <? flag_ e then WSub else WBlock)
  | WBlock => quiet (set_cv (set_m e None) (cv_ e ++ [t])) WSleep
  | WSleep => None
  | WSub => quiet (set_flag e (flag_ e - 1)) WUnlock
  | WUnlock => quiet (set_m e None) Idle
  | NAdd => quiet (set_flag e (flag_ e + 1)) NOne
  | NOne => match cv_ e with [] => quiet e Idle | w :: l => Some (set_cv e l, Idle, [w]) end
  | AStore => quiet (set_flag e INT32_MAX) AAll
  | AAll => Some (set_cv e [], Idle, cv_ e)
  | RStore => quiet (set_flag e 0) Idle
  end.

(** ** Threads

    [waits_] and [notifies_] count the events that were consumed and announced. *)
Record System : Set := mkSystem { event_ : Event; threads_ : list pc; waits_ : nat; notifies_ : nat }.

Definition wake (ps : list pc) (ws : list nat) : list pc := foldr (λ w ps, <[w := WRelock]> ps) ps ws.

Inductive action : Set := CallWait (t : nat) | CallNotify (t : nat) | Step (t : nat).

Definition call (s : System) (t : nat) (p : pc) : System :=
  match threads_ s !! t with
  | Some Idle => mkSystem (event_ s) (<[t := p]> (threads_ s)) (waits_ s) (notifies_ s)
  | _ => s
  end.
Definition act (a : action) (s : System) : System :=
  match a with
  | CallWait t => call s t WLock
  | CallNotify t => call s t NAdd
  | Step t =>
      match threads_ s !! t with
      | Some p =>
          match step t (event_ s) p with
          | Some (e, p', ws) =>
              mkSystem e (wake (<[t := p']> (threads_ s)) ws)
                (match p with WSub => S (waits_ s) | _ => waits_ s end)
                (match p with NAdd => S (notifies_ s) | _ => notifies_ s end)
          | None => s
          end
      | None => s
      end
  end.
Definition acts (l : list action) (s : System) : System := fold_left (λ s a, act a s) l s.
Definition initial (n : nat) : System := mkSystem new_event (replicate n Idle) 0 0.

(** ** A thread that is alone *)

(** [wait]: [None] when the thread goes to sleep. *)
Definition te_wait (flag : Z) : option Z := if 0 <? flag then Some (i32 (flag - 1)) else None.
Definition te_notify (flag : Z) : Z := i32 (flag + 1).
Definition te_notifyAll (flag : Z) : Z := INT32_MAX.

(** ** Every event is consumed at most once *)

Lemma i32_small z : - 2 ^ 31 ≤ z < 2 ^ 31 → i32 z = z.
Proof.
  intros Hz. unfold i32. pose proof (Z.mod_pos_bound z (2 ^ 32) ltac:(lia)). rewrite uN_small by lia.
  destruct (decide (0 ≤ z)) as [H0|H0].
  - rewrite Z.mod_small by lia. rewrite (proj2 (Z.ltb_lt _ _)); lia.
  - rewrite <- (Z.mod_unique z (2 ^ 32) (-1) (z + 2 ^ 32)) by lia. rewrite (proj2 (Z.ltb_ge _ _)); lia.
Qed.

(** Where a thread holds the mutex. *)
Definition holds (p : pc) : bool := match p with WPred | WBlock | WSub | WUnlock => true | _ => false end.

(** Threads that only wait and notify. *)
Definition plain (p : pc) : bool := match p with AStore | AAll | RStore => false | _ => true end.

Record inv (s : System) : Prop := {
  in_flag : flag_ (event_ s) = Z.of_nat (notifies_ s) - Z.of_nat (waits_ s);
  in_pos : 0 ≤ flag_ (event_ s);
  in_mutex : ∀ t p, threads_ s !! t = Some p → holds p = true → m_ (event_ s) = Some t;
  in_sub : ∀ t, threads_ s !! t = Some WSub → 0 < flag_ (event_ s);
  in_sleep : ∀ t, t ∈ cv_ (event_ s) → threads_ s !! t = Some WSleep;
  in_nodup : NoDup (cv_ (event_ s));
  in_plain : ∀ t p, threads_ s !! t = Some p → plain p = true;
}.

(** The pc of a thread after some sleepers were woken. *)
Lemma wake_lookup ps ws t p : wake ps ws !! t = Some p → (t ∉ ws ∧ ps !! t = Some p) ∨ (t ∈ ws ∧ p = WRelock).
Proof.
  revert t p. induction ws as [|w ws IH]; intros t p Hp; simpl in Hp.
  - left. split; [apply not_elem_of_nil|done].
  - destruct (decide (t = w)) as [->|Hne].
    + right. split; [left|]. apply list_lookup_insert_Some in Hp as [(_ & ? & _)|(? & _)]; done.
    + rewrite list_lookup_insert_ne in Hp by done. destruct (IH t p Hp) as [[? ?]|[? ?]].
      * left. split; [|done]. rewrite not_elem_of_cons. done.
      * right. split; [by right|done].
Qed.

Lemma wake_ne ps ws t : t ∉ ws → wake ps ws !! t = ps !! t.
Proof.
  induction ws as [|w ws IH]; intros Hn; simpl; [done|]. apply not_elem_of_cons in Hn as [? ?].
  rewrite list_lookup_insert_ne by done. by apply IH.
Qed.

Lemma lookup_upd (ps : list pc) t t' p p' : <[t := p]> ps !! t' = Some p' → t' = t ∧ p' = p ∨ t' ≠ t ∧ ps !! t' = Some p'.
Proof.
  destruct (decide (t' = t)) as [->|Hne].
  - intros [(_ & -> & _)|(? & _)]%list_lookup_insert_Some; [auto|done].
  - rewrite list_lookup_insert_ne by done. auto.
Qed.

(** A thread moves on without touching the sleepers. *)
Lemma inv_move s t p p' f m nw nn : inv s → threads_ s !! t = Some p → p ≠ WSleep → plain p' = true →
  f = Z.of_nat nn - Z.of_nat nw → 0 ≤ f →
  (∀ t', t' ≠ t → ∀ q, threads_ s !! t' = Some q → holds q = true → m = m_ (event_ s) ∧ (q = WSub → 0 < f)) →
  (holds p' = true → m = Some t) → (p' = WSub → 0 < f) →
  inv (mkSystem (mkEvent f m (cv_ (event_ s))) (<[t := p']> (threads_ s)) nw nn).
Proof.
  intros [Hf H0 Hm Hsub Hsl Hnd Hpl] Ht Hp Hpl' Hf' H0' Hother Hown Hws. pose proof (lookup_lt_Some _ _ _ Ht) as Hlt.
  split; simpl; try done.
  - intros t' q [[-> ->]|[Hne Hq]]%lookup_upd Hh; [auto|]. destruct (Hother t' Hne q Hq Hh) as [-> _]. by eapply Hm.
  - intros t' [[-> E]|[Hne Hq]]%lookup_upd; [auto|]. by apply (Hother t' Hne WSub Hq eq_refl).
  - intros t' Hin. assert (t' ≠ t) by (intros ->; apply Hsl in Hin; congruence).
    rewrite list_lookup_insert_ne by done. by apply Hsl.
  - intros t' q [[-> ->]|[Hne Hq]]%lookup_upd; [done|by eapply Hpl].
Qed.

Lemma event_act_inv a s : inv s → Z.of_nat (notifies_ s) < 2 ^ 31 - 1 → inv (act a s).
Proof.
  intros HI Hn. pose proof HI as [Hf H0 Hm Hsub Hsl Hnd Hpl].
  assert (∀ t p, threads_ s !! t = Some Idle → p = WLock ∨ p = NAdd → inv (mkSystem (event_ s) (<[t := p]> (threads_ s)) (waits_ s) (notifies_ s))) as Hcall.
  { intros t p Ht Hp. replace (event_ s) with (mkEvent (flag_ (event_ s)) (m_ (event_ s)) (cv_ (event_ s))) by by destruct (event_ s).
    apply (inv_move s t Idle); try done; try (by destruct Hp as [->| ->]).
    intros t' _ q Hq _. split; [done|]. intros ->. by eapply Hsub. }
  destruct a as [t|t|t]; simpl; unfold call.
  1-2: destruct (threads_ s !! t) as [p|] eqn:Ht; [|done]; destruct p; try done; apply Hcall; auto.
  destruct (threads_ s !! t) as [p|] eqn:Ht; [|done]. pose proof (Hpl _ _ Ht) as Hplain.
  assert (∀ t', t' ≠ t → ∀ q, threads_ s !! t' = Some q → holds q = true → holds p = true → False) as Hexcl.
  { intros t' Hne q Hq Hhq Hhp. pose proof (Hm _ _ Hq Hhq). pose proof (Hm _ _ Ht Hhp). congruence. }
  destruct p; simpl; try done.
  - (* WLock *) destruct (m_ (event_ s)) eqn:Em; [done|]. apply (inv_move s t WLock); try done.
    intros t' _ q Hq Hh. specialize (Hm _ _ Hq Hh). congruence.
  - (* WPred *) specialize (Hm _ _ Ht eq_refl).
    replace (event_ s) with (mkEvent (flag_ (event_ s)) (m_ (event_ s)) (cv_ (event_ s))) by by destruct (event_ s).
    simpl flag_. destruct (Z.ltb_spec 0 (flag_ (event_ s))); apply (inv_move s t WPred); try done; intros; exfalso; eauto.
  - (* WBlock *) specialize (Hm _ _ Ht eq_refl). split; simpl; try done.
    + intros t' q [[-> ->]|[Hne Hq]]%lookup_upd Hh; [done|]. exfalso. eauto.
    + intros t' [[-> E]|[Hne Hq]]%lookup_upd; [done|]. by apply Hsub in Hq.
    + intros t' [Hin|Hin]%elem_of_app.
      * assert (t' ≠ t) by (intros ->; apply Hsl in Hin; congruence). rewrite list_lookup_insert_ne by done. by apply Hsl.
      * apply list_elem_of_singleton in Hin as ->. apply list_lookup_insert_eq. by eapply lookup_lt_Some.
    + apply NoDup_app. split_and!; [done| |apply NoDup_singleton]. intros t' Hin. rewrite list_elem_of_singleton. intros ->.
      apply Hsl in Hin. congruence.
    + intros t' q [[-> ->]|[Hne Hq]]%lookup_upd; [done|by eapply Hpl].
  - (* WRelock *) destruct (m_ (event_ s)) eqn:Em; [done|]. apply (inv_move s t WRelock); try done.
    intros t' _ q Hq Hh. specialize (Hm _ _ Hq Hh). congruence.
  - (* WSub *) pose proof (Hsub _ Ht) as Hpos. unfold set_flag. rewrite i32_small by lia.
    apply (inv_move s t WSub); try done; try lia; [intros; exfalso; eauto|]. intros _. by apply (Hm _ _ Ht).
  - (* WUnlock *) apply (inv_move s t WUnlock); try done. intros; exfalso; eauto.
  - (* NAdd *) unfold set_flag. rewrite i32_small by lia.
    apply (inv_move s t NAdd); try done; try lia. intros t' _ q Hq _. split; [done|lia].
  - (* NOne *) destruct (cv_ (event_ s)) as [|w l] eqn:Ecv; simpl.
    + replace (event_ s) with (mkEvent (flag_ (event_ s)) (m_ (event_ s)) (cv_ (event_ s))) by by destruct (event_ s).
      apply (inv_move s t NOne); try done. intros t' _ q Hq _. split; [done|]. intros ->. by eapply Hsub.
    + apply NoDup_cons in Hnd as [Hw Hnd]. assert (w ≠ t) as Hwt by (intros ->; specialize (Hsl t ltac:(left)); congruence).
      split; simpl; try done.
      * intros t' q [[-> ->]|[Hne [[-> ->]|[Hne' Hq]]%lookup_upd]]%lookup_upd Hh; [done|done|by eapply Hm].
      * intros t' [[-> E]|[Hne [[-> E]|[Hne' Hq]]%lookup_upd]]%lookup_upd; [done|done|by eapply Hsub].
      * intros t' Hin. assert (t' ≠ w) by (by intros ->). assert (t' ≠ t) by (intros ->; specialize (Hsl t ltac:(by right)); congruence).
        rewrite !list_lookup_insert_ne by done. apply Hsl. by right.
      * intros t' q [[-> ->]|[Hne [[-> ->]|[Hne' Hq]]%lookup_upd]]%lookup_upd; [done|done|by eapply Hpl].
Qed.

Lemma act_notifies a s : (notifies_ (act a s) ≤ S (notifies_ s))%nat.
Proof.
  destruct a as [t|t|t]; simpl; unfold call; (destruct (threads_ s !! t) as [p|]; [|simpl; lia]).
  1-2: destruct p; simpl; lia.
  destruct (step t (event_ s) p) as [[[e p'] ws]|]; [|lia]. simpl. destruct p; lia.
Qed.

(** No event is consumed twice: as long as fewer than 2^31 - 1 accesses are
    made by threads that wait and notify, the counter is the number of events
    announced less those consumed, so that no more waits end than there are
    notifications, in every interleaving; and the mutex admits one thread at a
    time between the test of the counter and its decrement. *)
Theorem thread_event_counts l n : Z.of_nat (length l) < 2 ^ 31 - 1 →
  let s := acts l (initial n) in
  (waits_ s ≤ notifies_ s)%nat ∧ flag_ (event_ s) = Z.of_nat (notifies_ s) - Z.of_nat (waits_ s) ∧
  ∀ t t' p p', threads_ s !! t = Some p → threads_ s !! t' = Some p' → holds p = true → holds p' = true → t = t'.
Proof.
  intros Hl s. assert (inv s) as HI; [|destruct HI as [Hf H0 Hm _ _ _ _]; split_and!; [lia|done|]].
  - assert (inv (initial n)) as H0.
    { split; simpl; try done; try constructor.
      - by intros t p [-> _]%lookup_replicate.
      - by intros t [? _]%lookup_replicate.
      - by intros t ?%elem_of_nil.
      - by intros t p [-> _]%lookup_replicate. }
    subst s. assert (Z.of_nat (notifies_ (initial n) + length l) < 2 ^ 31 - 1) as Hb by (simpl; lia). clear Hl. revert H0 Hb.
    generalize (initial n) as s. induction l as [|a l IH]; intros s Hs Hb; [done|]. simpl in Hb.
    pose proof (act_notifies a s). change (acts (a :: l) s) with (acts l (act a s)). apply IH; [apply event_act_inv; [done|lia]|lia].
  - intros t t' p p' Ht Ht' Hp Hp'. pose proof (Hm _ _ Ht Hp). pose proof (Hm _ _ Ht' Hp'). congruence.
Qed.

(** The waiter tests the counter, the notifier increments it and wakes nobody,
    the waiter goes to sleep. *)
Definition lost_trace : list action :=
  [CallWait 0; Step 0; Step 0; CallNotify 1; Step 1; Step 1; Step 0].

