(* ===== verification/AsyncMutex.v ===== *)
(** AsyncMutex: the mutex that coroutines lock by [co_await]; a coroutine that has
    to wait is suspended and resumed by the [unlock] of its predecessor.
    Source: src/net/cppcoro/async_mutex.hpp and .cpp, src/net/util/
    synchronization.hpp (Mutex).

    A step is an access to the atomic word [m_state], together with the accesses
    behind it to what only the running coroutine or only the holder of the mutex
    may touch. The word is the number 1, or the address of the operation that was
    queued last, or null; an operation is named by its coroutine, which has one at
    a time. *)
From S2P Require Import Prelude.
Local Open Scope Z_scope.

Inductive word : Set := not_locked | ptr (p : option nat).
Definition locked_no_waiters : word := ptr None.
#[export] Instance word_eq_dec : EqDecision word.
Proof. solve_decision. Defined.

(** [m_next_] are the fields [m_next] of the operations. *)
Record Mutex : Set := mkMutex { m_state : word; m_waiters : option nat; m_next_ : list (option nat) }.

Definition set_state (m : Mutex) (w : word) : Mutex := mkMutex w (m_waiters m) (m_next_ m).

Definition new_mutex (n : nat) : Mutex := mkMutex not_locked None (replicate n None).

(** The destructor. *)
Definition destroy (m : Mutex) : res unit :=
  _ ← cassert (bool_decide (m_state m = not_locked ∨ m_state m = locked_no_waiters));
  cassert (bool_decide (m_waiters m = None)).

Inductive pc : Set :=
  | Out                         (* the coroutine neither has the mutex nor wants it *)
  | TryCas                      (* [try_lock] *)
  | SuspLoad | SuspCas (old : word)   (* [await_suspend] *)
  | Queued                      (* suspended *)
  | In                          (* the coroutine has the mutex *)
  | UnlCheck | UnlCas | UnlXchg.      (* [unlock] *)

#[export] Instance pc_eq_dec : EqDecision pc.
Proof. solve_decision. Defined.

(** The loop that reverses the list of new waiters; the new head. *)
Fixpoint reverse (fuel : nat) (nexts : list (option nat)) (next : nat) (head : option nat) : res (list (option nat) * nat) :=
  match fuel with
  | O => Fault NoFuel
  | S fuel' =>
      temp ← aget nexts next;
      nexts ← aset nexts next head;
      match temp with None => Ok (nexts, next) | Some next' => reverse fuel' nexts next' (Some next) end
  end.

(** The end of [unlock]: the first waiter is resumed, and has the mutex. *)
Definition hand_over (m : Mutex) (nexts : list (option nat)) (head : nat) : res (Mutex * pc * option nat) :=
  n ← aget nexts head; Ok (mkMutex (m_state m) n nexts, Out, Some head).

(** The next step of coroutine [t], and the coroutine it resumes. A weak exchange
    may fail for no reason. *)
Definition step (t : nat) (spurious : bool) (m : Mutex) (p : pc) : res (Mutex * pc * option nat) :=
  match p with
  | Out | Queued | In => Ok (m, p, None)
  | TryCas => if decide (m_state m = not_locked) then Ok (set_state m locked_no_waiters, In, None) else Ok (m, Out, None)
  | SuspLoad => Ok (m, SuspCas (m_state m), None)
  | SuspCas not_locked =>
      if spurious then Ok (m, SuspCas (m_state m), None) else
      if decide (m_state m = not_locked) then Ok (set_state m locked_no_waiters, In, None) else Ok (m, SuspCas (m_state m), None)
  | SuspCas (ptr q) =>
      nexts ← aset (m_next_ m) t q;
      let m := mkMutex (m_state m) (m_waiters m) nexts in
      if spurious then Ok (m, SuspCas (m_state m), None) else
      if decide (m_state m = ptr q) then Ok (set_state m (ptr (Some t)), Queued, None) else Ok (m, SuspCas (m_state m), None)
  | UnlCheck =>
      _ ← cassert (bool_decide (m_state m ≠ not_locked));
      match m_waiters m with None => Ok (m, UnlCas, None) | Some head => hand_over m (m_next_ m) head end
  | UnlCas => if decide (m_state m = locked_no_waiters) then Ok (set_state m not_locked, Out, None) else Ok (m, UnlXchg, None)
  | UnlXchg =>
      match m_state m with
      | ptr (Some next) =>
          '(nexts, head) ← reverse (length (m_next_ m)) (m_next_ m) next None;
          hand_over (set_state m locked_no_waiters) nexts head
      | _ => Fault AssertFailed
      end
  end.

(** ** Coroutines

    [pushed_] and [granted_] list the coroutines that were suspended, and those
    that were resumed with the mutex, in the order in which this happened. *)
Record System : Set := mkSystem { mutex_ : Mutex; coros_ : list pc; pushed_ : list nat; granted_ : list nat }.
Definition new_system (n : nat) : System := mkSystem (new_mutex n) (replicate n Out) [] [].

Inductive action : Set := CallTryLock (t : nat) | CallLock (t : nat) | CallUnlock (t : nat) | Step (t : nat) (spurious : bool).

Definition call (s : System) (t : nat) (p p' : pc) : System :=
  if decide (coros_ s !! t = Some p) then mkSystem (mutex_ s) (<[t := p']> (coros_ s)) (pushed_ s) (granted_ s) else s.

Definition wake (ps : list pc) (w : option nat) : list pc := match w with Some w => <[w := In]> ps | None => ps end.

Definition act (a : action) (s : System) : res System :=
  match a with
  | CallTryLock t => Ok (call s t Out TryCas)
  | CallLock t => Ok (call s t Out SuspLoad)
  | CallUnlock t => Ok (call s t In UnlCheck)
  | Step t spurious =>
      match coros_ s !! t with
      | Some p =>
          '(m, p', w) ← step t spurious (mutex_ s) p;
          Ok (mkSystem m (wake (<[t := p']> (coros_ s)) w)
                (match p, p' with SuspCas _, Queued => pushed_ s ++ [t] | _, _ => pushed_ s end)
                (match w with Some w => granted_ s ++ [w] | None => granted_ s end))
      | None => Ok s
      end
  end.
Definition acts (l : list action) (s : System) : res System := rfold act l s.

(** ** Linked lists *)

(** From [p] the operations [l] are linked. *)
Fixpoint chain (nexts : list (option nat)) (p : option nat) (l : list nat) : Prop :=
  match l with
  | [] => p = None
  | x :: l' => p = Some x ∧ ∃ q, nexts !! x = Some q ∧ chain nexts q l'
  end.

Lemma chain_insert nexts x q l : ∀ p, x ∉ l → chain nexts p l → chain (<[x := q]> nexts) p l.
Proof.
  induction l as [|y l IH]; intros p Hx; [done|]. apply not_elem_of_cons in Hx as [Hne Hx]. intros (-> & q' & Hq & Hc).
  split; [done|]. exists q'. rewrite list_lookup_insert_ne by done. split; [done|]. by apply IH.
Qed.

Lemma reverse_spec l : ∀ fuel nexts next head acc, chain nexts (Some next) (next :: l) → chain nexts head acc →
  NoDup (next :: l ++ acc) → (length l < fuel)%nat →
  runs (reverse fuel nexts next head) (λ '(nexts', h), chain nexts' (Some h) (rev (next :: l) ++ acc) ∧
    length nexts' = length nexts).
Proof.
  induction l as [|y l IH]; intros fuel nexts next head acc (_ & q & Hq & Hc) Ha Hnd Hf; (destruct fuel as [|fuel]; [simpl in Hf; lia|]);
    cbn [reverse]; rewrite (aget_some _ _ _ Hq), bind_ok, (aset_some _ _ _ _ Hq), bind_ok; pose proof (lookup_lt_Some _ _ _ Hq) as Hlt;
    apply NoDup_cons in Hnd as [Hn Hnd].
  - simpl in Hc. subst q. apply runs_ok. rewrite length_insert. split; [|done]. simpl. split; [done|]. exists head.
    rewrite list_lookup_insert_eq by done. split; [done|]. by apply chain_insert.
  - destruct Hc as (-> & Hc). assert (y ∉ l ++ acc ∧ next ∉ l ++ acc ∧ next ≠ y) as (Hy & Hnl & Hne).
    { apply NoDup_cons in Hnd as [? _]. cbn [app] in Hn. apply not_elem_of_cons in Hn as [? ?]. done. }
    eapply runs_mono; [apply (IH fuel (<[next := head]> nexts) y (Some next) (next :: acc))|].
    + destruct Hc as (q & Hq' & Hc). split; [done|]. exists q. rewrite list_lookup_insert_ne by done. split; [done|].
      apply chain_insert; [set_solver|done].
    + split; [done|]. exists head. rewrite list_lookup_insert_eq by done. split; [done|]. apply chain_insert; [set_solver|done].
    + assert (y :: l ++ next :: acc ≡ₚ next :: (y :: l) ++ acc) as -> by (cbn [app]; rewrite <- Permutation_middle; apply Permutation_swap).
      by apply NoDup_cons.
    + simpl in Hf. lia.
    + intros [nexts' h] [Hc' Hl]. rewrite length_insert in Hl. split; [|done]. cbn [rev] in *. by rewrite <- app_assoc.
Qed.

(** ** The invariant *)

Definition holds (p : pc) : Prop := match p with In | UnlCheck | UnlCas | UnlXchg => True | _ => False end.
#[export] Instance holds_dec p : Decision (holds p).
Proof. destruct p; apply _. Defined.

(** [m] waits in the order in which it will get the mutex; [l] are the new
    waiters, the last one first. *)
Record inv (s : System) (m l : list nat) : Prop := {
  i_len : length (m_next_ (mutex_ s)) = length (coros_ s);
  i_new : match m_state (mutex_ s) with
          | not_locked => m = [] ∧ l = [] ∧ ∀ t p, coros_ s !! t = Some p → ¬ holds p
          | ptr p => chain (m_next_ (mutex_ s)) p l ∧ ∃ t p, coros_ s !! t = Some p ∧ holds p
          end;
  i_wait : chain (m_next_ (mutex_ s)) (m_waiters (mutex_ s)) m;
  i_nodup : NoDup (m ++ l);
  i_queued : ∀ t, coros_ s !! t = Some Queued ↔ t ∈ m ++ l;
  i_holder : ∀ t t' p p', coros_ s !! t = Some p → coros_ s !! t' = Some p' → holds p → holds p' → t = t';
  i_unlock : ∀ t p, coros_ s !! t = Some p → (p = UnlCas → m = []) ∧ (p = UnlXchg → m = [] ∧ l ≠ []);
  i_log : pushed_ s = granted_ s ++ m ++ rev l;
}.

(** A lookup in the list of coroutines after one of them moved. *)
Ltac moved H := apply list_lookup_insert_Some in H as [(? & ? & _)|[? H]]; subst.

Lemma lookup_moved (ps : list pc) t p p' t' : ps !! t = Some p → p ≠ Queued → p' ≠ Queued →
  <[t := p']> ps !! t' = Some Queued ↔ ps !! t' = Some Queued.
Proof.
  intros Ht Hp Hp'. pose proof (lookup_lt_Some _ _ _ Ht). destruct (decide (t' = t)) as [->|Hne].
  - rewrite list_lookup_insert_eq by done. split; congruence.
  - by rewrite list_lookup_insert_ne.
Qed.

(** The coroutine moves on, without the word of the mutex. *)
Lemma mutex_inv_move s m l t p p' nexts log : inv s m l → coros_ s !! t = Some p → p ≠ Queued → p' ≠ Queued → (holds p' ↔ holds p) →
  (nexts = m_next_ (mutex_ s) ∨ ∃ q, nexts = <[t := q]> (m_next_ (mutex_ s))) →
  (p' = UnlCas → m = []) → (p' = UnlXchg → m = [] ∧ l ≠ []) → log = pushed_ s →
  inv (mkSystem (mkMutex (m_state (mutex_ s)) (m_waiters (mutex_ s)) nexts) (<[t := p']> (coros_ s)) log (granted_ s)) m l.
Proof.
  intros [Hl Hn Hw Hnd Hq Hh Hu Hlog] Ht Hp Hp' Hpp Hnx Hcas Hxchg ->. pose proof (lookup_lt_Some _ _ _ Ht) as Hlt.
  assert (t ∉ m ++ l) as Hout by (rewrite <- Hq; congruence).
  assert (length nexts = length (m_next_ (mutex_ s)) ∧ ∀ q k, t ∉ k → chain (m_next_ (mutex_ s)) q k → chain nexts q k) as [Hlen Hch]
    by (destruct Hnx as [->|[q0 ->]]; split; rewrite ?length_insert; eauto using chain_insert).
  apply not_elem_of_app in Hout as [Hom Hol].
  assert (∀ t1 p1, <[t := p']> (coros_ s) !! t1 = Some p1 → holds p1 → ∃ p2, coros_ s !! t1 = Some p2 ∧ holds p2) as Hold
    by (intros t1 p1 H1 Hp1; moved H1; [exists p; tauto|by exists p1]).
  split; simpl.
  - by rewrite length_insert, Hlen.
  - destruct (m_state (mutex_ s)) as [|q].
    + destruct Hn as (-> & -> & Hno). split_and!; try done. intros t1 p1 H1 Hp1. destruct (Hold t1 p1 H1 Hp1) as (p2 & H2 & Hp2). by apply (Hno t1 p2).
    + destruct Hn as (Hc & t1 & p1 & H1 & Hp1). split; [by apply Hch|]. destruct (decide (t1 = t)) as [->|Hne].
      * exists t, p'. rewrite list_lookup_insert_eq by done. split; [done|]. apply Hpp. congruence.
      * exists t1, p1. by rewrite list_lookup_insert_ne.
  - by apply Hch.
  - done.
  - intros t1. by rewrite (lookup_moved _ t p).
  - intros t1 t2 p1 p2 H1 H2 Hp1 Hp2. destruct (Hold t1 p1 H1 Hp1) as (q1 & ? & ?), (Hold t2 p2 H2 Hp2) as (q2 & ? & ?). by eapply Hh.
  - intros t1 p1 H1. moved H1; [done|by apply (Hu t1)].
  - done.
Qed.

(** The free mutex is taken. *)
Lemma inv_take s m l t p : inv s m l → coros_ s !! t = Some p → p ≠ Queued → m_state (mutex_ s) = not_locked →
  inv (mkSystem (set_state (mutex_ s) locked_no_waiters) (<[t := In]> (coros_ s)) (pushed_ s) (granted_ s)) m l.
Proof.
  intros [Hl Hn Hw Hnd Hq Hh Hu Hlog] Ht Hp Hst. pose proof (lookup_lt_Some _ _ _ Ht) as Hlt. rewrite Hst in Hn. destruct Hn as (-> & -> & Hno).
  split; simpl; try done.
  - by rewrite length_insert.
  - split; [done|]. exists t, In. by rewrite list_lookup_insert_eq.
  - intros t1. rewrite (lookup_moved _ t p) by done. by apply Hq.
  - intros t1 t2 p1 p2 H1 H2 Hp1 Hp2. moved H1; moved H2; [done|exfalso; by eapply Hno..].
  - intros t1 p1 H1. moved H1; [done|by apply (Hu t1)].
Qed.

(** A coroutine is suspended, on top of the new waiters. *)
Lemma inv_push s m l t p q : inv s m l → coros_ s !! t = Some p → p ≠ Queued → ¬ holds p → m_state (mutex_ s) = ptr q →
  inv (mkSystem (mkMutex (ptr (Some t)) (m_waiters (mutex_ s)) (<[t := q]> (m_next_ (mutex_ s)))) (<[t := Queued]> (coros_ s)) (pushed_ s ++ [t]) (granted_ s))
    m (t :: l).
Proof.
  intros [Hl Hn Hw Hnd Hq Hh Hu Hlog] Ht Hp Hnh Hst. pose proof (lookup_lt_Some _ _ _ Ht) as Hlt. rewrite Hst in Hn. destruct Hn as (Hc & t0 & p0 & H0 & Hp0).
  assert (t ∉ m ++ l) as Hout by (rewrite <- Hq; congruence). pose proof Hout as Hout'. apply not_elem_of_app in Hout' as [Hom Hol].
  split; simpl.
  - by rewrite !length_insert.
  - split; [split; [done|]; exists q; rewrite list_lookup_insert_eq by lia; split; [done|by apply chain_insert]|].
    exists t0, p0. rewrite list_lookup_insert_ne; [done|]. intros ->. congruence.
  - by apply chain_insert.
  - rewrite <- Permutation_middle. by apply NoDup_cons.
  - intros t1. rewrite <- Permutation_middle, elem_of_cons. destruct (decide (t1 = t)) as [->|Hne].
    + rewrite list_lookup_insert_eq by done. naive_solver.
    + rewrite list_lookup_insert_ne by done. rewrite Hq. naive_solver.
  - intros t1 t2 p1 p2 H1 H2 Hp1 Hp2. moved H1; [done|]. moved H2; [done|]. by eapply Hh.
  - intros t1 p1 H1. moved H1; [done|]. destruct (Hu t1 p1 H1) as [Hu1 Hu2]. split; [done|]. intros E. destruct (Hu2 E). done.
  - rewrite Hlog. simpl. by rewrite <- !app_assoc.
Qed.

(** The mutex is released: nobody waits. *)
Lemma inv_release s m l t : inv s m l → coros_ s !! t = Some UnlCas → m_state (mutex_ s) = locked_no_waiters →
  inv (mkSystem (set_state (mutex_ s) not_locked) (<[t := Out]> (coros_ s)) (pushed_ s) (granted_ s)) m l.
Proof.
  intros [Hl Hn Hw Hnd Hq Hh Hu Hlog] Ht Hst. pose proof (lookup_lt_Some _ _ _ Ht) as Hlt. rewrite Hst in Hn. destruct Hn as (Hc & _).
  assert (m = []) as -> by (by apply (proj1 (Hu t _ Ht))). assert (l = []) as -> by (destruct l; [done|by destruct Hc]).
  split; simpl; try done.
  - by rewrite length_insert.
  - split_and!; try done. intros t1 p1 H1 Hp1. moved H1; [done|]. assert (t1 = t); [|done]. by apply (Hh t1 t _ _ H1 Ht).
  - intros t1. rewrite (lookup_moved _ t UnlCas) by done. by apply Hq.
  - intros t1 t2 p1 p2 H1 H2 Hp1 Hp2. moved H1; [done|]. moved H2; [done|]. by eapply Hh.
  - intros t1 p1 H1. moved H1; [done|by apply (Hu t1)].
Qed.

(** The mutex is handed over to the first waiter. *)
Lemma inv_hand_over s m l w nexts h m' l' t p : inv s m l → coros_ s !! t = Some p → holds p →
  (w = ptr None ∧ l' = [] ∨ w = m_state (mutex_ s) ∧ l' = l ∧ nexts = m_next_ (mutex_ s) ∧ w ≠ not_locked) →
  chain nexts (Some h) (h :: m') → length nexts = length (m_next_ (mutex_ s)) → m ++ rev l = h :: m' ++ rev l' →
  runs (hand_over (mkMutex w (m_waiters (mutex_ s)) (m_next_ (mutex_ s))) nexts h) (λ '(mx, p', r), p' = Out ∧ r = Some h ∧
    inv (mkSystem mx (<[h := In]> (<[t := Out]> (coros_ s))) (pushed_ s) (granted_ s ++ [h])) m' l').
Proof.
  intros [Hl Hn Hw Hnd Hq Hh Hu Hlog] Ht Hp Hst (_ & q & Hq1 & Hc) Hlen Hml. unfold hand_over. rewrite (aget_some _ _ _ Hq1), bind_ok.
  apply runs_ok. split_and!; [done|done|]. pose proof (lookup_lt_Some _ _ _ Ht) as Hlt.
  assert (m ++ l ≡ₚ h :: m' ++ l') as Hperm
    by (trans (m ++ rev l); [by apply Permutation_app_head, Permutation_rev|]; rewrite Hml; by rewrite <- Permutation_rev).
  rewrite Hperm in Hnd. apply NoDup_cons in Hnd as [Hhn Hnd].
  assert (coros_ s !! h = Some Queued) as Hhq by (apply Hq; rewrite Hperm; by left). pose proof (lookup_lt_Some _ _ _ Hhq) as Hhl.
  assert (h ≠ t) as Hht by (intros ->; rewrite Ht in Hhq; by injection Hhq as ->).
  split; simpl.
  - by rewrite !length_insert, Hlen.
  - destruct Hst as [(-> & ->)|(-> & -> & -> & Hne)].
    + split; [done|]. exists h, In. rewrite list_lookup_insert_eq by (by rewrite length_insert). done.
    + destruct (m_state (mutex_ s)); [done|]. split; [apply Hn|]. exists h, In. rewrite list_lookup_insert_eq by (by rewrite length_insert). done.
  - done.
  - done.
  - intros t1. destruct (decide (t1 = h)) as [->|N1].
    + rewrite list_lookup_insert_eq by (by rewrite length_insert). naive_solver.
    + rewrite list_lookup_insert_ne by done. rewrite (lookup_moved _ t p) by (done || by intros ->). rewrite Hq, Hperm, elem_of_cons. naive_solver.
  - assert (∀ t1 p1, <[h := In]> (<[t := Out]> (coros_ s)) !! t1 = Some p1 → holds p1 → t1 = h) as Hone.
    { intros t1 p1 H1 Hp1. moved H1; [done|]. moved H1; [done|]. exfalso. assert (t1 = t); [|done]. by apply (Hh t1 t _ _ H1 Ht). }
    intros t1 t2 p1 p2 H1 H2 Hp1 Hp2. by rewrite (Hone t1 p1 H1 Hp1), (Hone t2 p2 H2 Hp2).
  - intros t1 p1 H1. moved H1; [done|]. moved H1; [done|]. split; intros ->; exfalso; assert (t1 = t); try done; by apply (Hh t1 t _ _ H1 Ht).
  - rewrite Hlog, Hml. by rewrite <- app_assoc.
Qed.

(** ** Every step *)

(** The last case of [unlock]: the new waiters are taken over. *)
Lemma xchg_inv s m l t sp : inv s m l → coros_ s !! t = Some UnlXchg →
  runs (step t sp (mutex_ s) UnlXchg) (λ '(mx, p', w), ∃ h m', p' = Out ∧ w = Some h ∧
    inv (mkSystem mx (<[h := In]> (<[t := Out]> (coros_ s))) (pushed_ s) (granted_ s ++ [h])) m' []).
Proof.
  intros HI Ht. destruct (mutex_ s) as [st ws nx] eqn:Em. pose proof (i_len _ _ _ HI) as Hlen. rewrite Em in Hlen. simpl in Hlen. cbn [step].
  destruct (proj2 (i_unlock _ _ _ HI t _ Ht) eq_refl) as [-> Hl]. pose proof (i_new _ _ _ HI) as Hnew. rewrite Em in Hnew. simpl in Hnew.
  pose proof (i_nodup _ _ _ HI) as Hnd. pose proof (i_wait _ _ _ HI) as Hw. rewrite Em in Hw. simpl in Hnd, Hw. cbn [m_state m_next_].
  destruct st as [|q]; [destruct Hnew as (_ & -> & _); done|]. destruct Hnew as [Hc _]. destruct l as [|x l]; [done|]. pose proof Hc as [-> _].
  assert (length (x :: l) ≤ length nx)%nat as Hll.
  { rewrite Hlen. rewrite <- (length_seq (length (coros_ s)) 0). apply submseteq_length, NoDup_submseteq; [done|].
    intros y Hy. apply elem_of_seq. assert (coros_ s !! y = Some Queued) as Hy' by (by apply (i_queued _ _ _ HI)). apply lookup_lt_Some in Hy'. lia. }
  rbind (reverse_spec l (length nx) nx x None [] Hc eq_refl); [by rewrite app_nil_r|simpl in Hll; lia|]. intros [nexts h] [Hc' Hln].
  rewrite app_nil_r in Hc'. assert (∃ m', rev (x :: l) = h :: m') as [m' Em'].
  { destruct (rev (x :: l)) as [|h' m'] eqn:E; [destruct (app_eq_nil _ _ E); done|]. exists m'. destruct Hc' as [[= ->] _]. done. }
  rewrite Em' in Hc'. pose proof (inv_hand_over s [] (x :: l) (ptr None) nexts h m' [] t _ HI Ht ltac:(done)) as H1. rewrite Em in H1. subst ws.
  eapply runs_mono; [apply H1; [by left|done|done|cbn [app]; by rewrite Em', app_nil_r]|]. intros [[mx p'] w] (-> & -> & Hinv). by exists h, m'.
Qed.

Lemma step_inv s m l t sp p : inv s m l → coros_ s !! t = Some p →
  runs (step t sp (mutex_ s) p) (λ '(mx, p', w), ∃ m' l', inv (mkSystem mx (wake (<[t := p']> (coros_ s)) w)
    (match p, p' with SuspCas _, Queued => pushed_ s ++ [t] | _, _ => pushed_ s end)
    (match w with Some w => granted_ s ++ [w] | None => granted_ s end)) m' l').
Proof.
  intros HI Ht. pose proof (lookup_lt_Some _ _ _ Ht) as Hlt. destruct (mutex_ s) as [st ws nx] eqn:Em.
  assert (∀ p' nexts, p ≠ Queued → p' ≠ Queued → (holds p' ↔ holds p) → (nexts = nx ∨ ∃ q, nexts = <[t := q]> nx) →
    (p' = UnlCas → m = []) → (p' = UnlXchg → m = [] ∧ l ≠ []) →
    inv (mkSystem (mkMutex st ws nexts) (<[t := p']> (coros_ s)) (pushed_ s) (granted_ s)) m l) as Hmove.
  { intros p' nexts H1 H2 H3 H4 H5 H6. pose proof (mutex_inv_move s m l t p p' nexts (pushed_ s) HI Ht) as Hm. rewrite Em in Hm. by apply Hm. }
  pose proof (i_len _ _ _ HI) as Hlen. rewrite Em in Hlen. simpl in Hlen.
  pose proof (list_insert_id _ _ _ Ht) as Hid.
  destruct p as [| | |old| | | | |]; cbn [step].
  - apply runs_ok. exists m, l. by apply Hmove; left || done.
  - case_decide as Hst; apply runs_ok; exists m, l; [|by apply Hmove; left || done].
    pose proof (inv_take s m l t _ HI Ht ltac:(done)) as H1. rewrite Em in H1. by apply H1.
  - apply runs_ok. exists m, l. by apply Hmove; left || done.
  - destruct old as [|q].
    + destruct sp; [apply runs_ok; exists m, l; by apply Hmove; left || done|]. case_decide as Hst; apply runs_ok; exists m, l; [|by apply Hmove; left || done].
      pose proof (inv_take s m l t _ HI Ht ltac:(done)) as H1. rewrite Em in H1. by apply H1.
    + destruct (lookup_lt_is_Some_2 nx t ltac:(lia)) as [q0 Hq0]. cbn [m_next_]. rewrite (aset_some _ _ _ _ Hq0), bind_ok. cbn [m_state].
      assert (inv (mkSystem (mkMutex st ws (<[t := q]> nx)) (<[t := SuspCas st]> (coros_ s)) (pushed_ s) (granted_ s)) m l) as Hagain
        by (apply Hmove; eauto; done).
      destruct sp; [apply runs_ok; by exists m, l|]. case_decide as Hst; apply runs_ok; [|by exists m, l].
      exists m, (t :: l). pose proof (inv_push s m l t _ q HI Ht ltac:(done) ltac:(by intros [])) as H1. rewrite Em in H1. by apply H1.
  - apply runs_ok. exists m, l. cbn [wake]. rewrite Hid. destruct s. simpl in *. by subst.
  - apply runs_ok. exists m, l. by apply Hmove; left || done.
  - pose proof (i_new _ _ _ HI) as Hnew. rewrite Em in Hnew. simpl in Hnew. cbn [m_state m_waiters].
    assert (st ≠ not_locked) as Hst by (intros ->; destruct Hnew as (_ & _ & Hno); by apply (Hno t _ Ht)).
    rewrite bool_decide_true by done. cbn [cassert]. rewrite bind_ok. pose proof (i_wait _ _ _ HI) as Hw. rewrite Em in Hw. simpl in Hw.
    destruct ws as [h|].
    + destruct m as [|h' m']; [done|]. pose proof Hw as [[= <-] _].
      pose proof (inv_hand_over s (h :: m') l st nx h m' l t _ HI Ht ltac:(done)) as H1. rewrite Em in H1.
      eapply runs_mono; [apply H1; [right; done|done|done|done]|]. intros [[mx p'] w] (-> & -> & Hinv). by exists m', l.
    + apply runs_ok. exists m, l. destruct m; [|by destruct Hw]. by apply Hmove; left || done.
  - cbn [m_state]. case_decide as Hst; apply runs_ok; exists m, l.
    + pose proof (inv_release s m l t HI Ht) as H1. rewrite Em in H1. by apply H1.
    + apply Hmove; try done; [by left|]. intros _. assert (m = []) as -> by (by apply (proj1 (i_unlock _ _ _ HI t _ Ht))). split; [done|].
      intros ->. pose proof (i_new _ _ _ HI) as Hnew. rewrite Em in Hnew. simpl in Hnew. destruct st as [|q].
      * destruct Hnew as (_ & _ & Hno). by apply (Hno t _ Ht).
      * destruct Hnew as [Hc _]. simpl in Hc. by subst.
  - pose proof (xchg_inv s m l t sp HI Ht) as H1. rewrite Em in H1. eapply runs_mono; [exact H1|].
    intros [[mx p'] w] (h & m' & -> & -> & Hinv). by exists m', [].
Qed.

Lemma mutex_call_inv s m l t p p' : inv s m l → p ≠ Queued → p' ≠ Queued → (holds p' ↔ holds p) → p' ≠ UnlCas → p' ≠ UnlXchg →
  inv (call s t p p') m l.
Proof.
  intros HI Hp Hp' Hpp H1 H2. unfold call. case_decide as Ht; [|done].
  pose proof (mutex_inv_move s m l t p p' (m_next_ (mutex_ s)) (pushed_ s) HI Ht Hp Hp' Hpp (or_introl eq_refl)) as H.
  destruct (mutex_ s). by apply H.
Qed.

Lemma mutex_act_inv a s m l : inv s m l → runs (act a s) (λ s', ∃ m' l', inv s' m' l').
Proof.
  intros HI. destruct a as [t|t|t|t sp]; cbn [act]; try (apply runs_ok; exists m, l; by apply mutex_call_inv).
  destruct (coros_ s !! t) as [p|] eqn:Ht; [|apply runs_ok; by exists m, l].
  rbind (step_inv s m l t sp p HI Ht). intros [[mx p'] w] Hinv. by apply runs_ok.
Qed.

Lemma mutex_new_inv n : inv (new_system n) [] [].
Proof.
  split; simpl; try done.
  - by rewrite !length_replicate.
  - split_and!; try done. intros t p [-> _]%lookup_replicate. by intros [].
  - constructor.
  - intros t. split; [by intros [? _]%lookup_replicate|by intros ?%elem_of_nil].
  - intros t t' p p' [-> _]%lookup_replicate. done.
  - by intros t p [-> _]%lookup_replicate.
Qed.

Lemma mutex_acts_inv es n : runs (acts es (new_system n)) (λ s, ∃ m l, inv s m l).
Proof.
  assert (∀ s, (∃ m l, inv s m l) → runs (acts es s) (λ s, ∃ m l, inv s m l)) as H; [|apply H; exists [], []; apply mutex_new_inv].
  induction es as [|a es IH]; intros s Hs; unfold acts; cbn [rfold]; [by apply runs_ok|]. destruct Hs as (m & l & HI).
  rbind (mutex_act_inv a s m l HI). intros s' Hs'. by apply IH.
Qed.

(** (C36) The asynchronous mutex, in every interleaving of any number of
    coroutines: no assertion fails; at most one coroutine has the mutex; those
    that are suspended are exactly the ones that were queued and not yet resumed;
    they get the mutex in the order in which they queued; and none of them waits
    for a mutex that is free, nor can it be destroyed under them. *)
Theorem async_mutex_fifo es n : runs (acts es (new_system n)) (λ s,
  (∀ t t' p p', coros_ s !! t = Some p → coros_ s !! t' = Some p' → holds p → holds p' → t = t') ∧
  ∃ waiting, pushed_ s = granted_ s ++ waiting ∧ NoDup waiting ∧ (∀ t, coros_ s !! t = Some Queued ↔ t ∈ waiting) ∧
    (m_state (mutex_ s) = not_locked → waiting = [] ∧ ∀ t p, coros_ s !! t = Some p → ¬ holds p) ∧
    (m_state (mutex_ s) ≠ not_locked → ∃ t p, coros_ s !! t = Some p ∧ holds p) ∧
    (destroy (mutex_ s) = Ok tt ↔ waiting = [])).
Proof.
  eapply runs_mono; [apply mutex_acts_inv|]. intros s (m & l & [Hl Hn Hw Hnd Hq Hh Hu Hlog]). split; [done|].
  assert (m ++ rev l ≡ₚ m ++ l) as Hperm by (apply Permutation_app_head; symmetry; apply Permutation_rev).
  exists (m ++ rev l). split_and!; [done|by rewrite Hperm|intros t; by rewrite Hperm|..].
  - intros E. rewrite E in Hn. destruct Hn as (-> & -> & Hno). done.
  - intros E. destruct (m_state (mutex_ s)); [done|]. apply Hn.
  - unfold destroy. split.
    + intros ([] & Hs%cassert_inv & Hm%cassert_inv)%bind_ok_inv. apply bool_decide_eq_true in Hs, Hm.
      rewrite Hm in Hw. assert (m = []) as -> by (by destruct m; [|destruct Hw]). destruct Hs as [E|E]; rewrite E in Hn.
      * by destruct Hn as (_ & -> & _).
      * destruct Hn as [Hc _]. by destruct l; [|destruct Hc].
    + intros [-> Hrl]%app_eq_nil. assert (l = []) as -> by (by rewrite <- (rev_involutive l), Hrl). simpl in Hw. rewrite Hw.
      rewrite !bool_decide_true; [done| |done]. destruct (m_state (mutex_ s)) as [|q]; [by left|]. right. destruct Hn as [Hc _]. simpl in Hc. by subst.
Qed.

(** ** The scoped lock

    An object that unlocks the mutex when it is destroyed; [m_mutex] is null when it
    was moved from. [scoped_lock_async] builds one when the coroutine has the mutex. *)
Record async_mutex_lock : Set := mkLock { m_mutex : bool }.
Definition adopt_lock : async_mutex_lock := mkLock true.
Definition scoped_await_resume : async_mutex_lock := adopt_lock.
(** The new lock, and what is left of the other. *)
Definition move_lock (other : async_mutex_lock) : async_mutex_lock * async_mutex_lock := (mkLock (m_mutex other), mkLock false).
(** What the destructor does in the coroutine [t]. *)
Definition destroy_lock (t : nat) (l : async_mutex_lock) : list action := if m_mutex l then [CallUnlock t] else [].

(** The locks of a coroutine after it has moved some of them, by their positions. *)
Fixpoint move_locks (ms : list nat) (ls : list async_mutex_lock) : list async_mutex_lock :=
  match ms with
  | [] => ls
  | i :: ms' =>
      match ls !! i with
      | Some l => let '(l', old) := move_lock l in move_locks ms' (<[i := old]> ls ++ [l'])
      | None => move_locks ms' ls
      end
  end.

(** However the lock is moved about, and in whatever order the objects go, the mutex
    is unlocked once. *)
Theorem scoped_lock_unlocks_once t ms ls : ls ≡ₚ move_locks ms [scoped_await_resume] → ls ≫= destroy_lock t = [CallUnlock t].
Proof.
  assert (∀ ls, ls ≫= destroy_lock t = replicate (sum_list_with (λ l, if m_mutex l then 1 else 0)%nat ls) (CallUnlock t)) as Hsum.
  { intros l0. induction l0 as [|[[]] l0 IH]; [done|..]; rewrite bind_cons, IH; done. }
  intros Hp. rewrite Hsum. assert (∀ ls0, sum_list_with (λ l, if m_mutex l then 1 else 0)%nat (move_locks ms ls0) = sum_list_with (λ l, if m_mutex l then 1 else 0)%nat ls0) as Hm.
  { clear Hp. induction ms as [|i ms IH]; intros ls0; cbn; [done|]. destruct (ls0 !! i) as [l|] eqn:Hi; [|apply IH]. rewrite IH, sum_list_with_app.
    pose proof (sum_insert (λ l, if m_mutex l then 1 else 0)%nat ls0 i l (mkLock false) Hi) as Hs. cbn in *. lia. }
  assert (sum_list_with (λ l, if m_mutex l then 1 else 0)%nat ls = 1%nat) as ->; [|done].
  specialize (Hm [scoped_await_resume]). etrans; [|exact Hm]. by rewrite Hp.
Qed.
