(* ===== verification/AsyncScope.v ===== *)
(** AsyncScope: the scope that a coroutine joins to wait for work that was started
    detached. Source: src/net/cppcoro/async_scope.hpp.

    The owner of the scope is a coroutine; a piece of work is the coroutine that
    [spawn] starts. It runs on the stack of the one that called [spawn], who goes on
    when the work has suspended for the first time. A step is one access to the
    scope. The header of [on_scope_exit] is not part of the repository: how often the
    guard calls its function when it is destroyed is a parameter. *)
From stdpp Require Import list.
From S2P Require Import Prelude.
Local Open Scope Z_scope.

Class ScopeExit : Set := exit_calls : nat.
(** A guard calls its function once. *)
Class ScopeExitOk `{ScopeExit} : Prop := exit_calls_once : exit_calls = 1%nat.

Record Scope : Set := mkScope { m_count : Z; m_continuation : option nat }.

(** The handle of the owner. *)
Definition owner_handle : nat := 0.

Inductive owner_pc : Set :=
  | ORun                        (* the owner has not awaited [join] yet *)
  | OStore | OSub               (* [await_suspend] *)
  | OSuspended
  | OJoined                     (* it goes on behind [co_await join()] *)
  | OGone.                      (* it has destroyed the scope *)

(** [throws] tells whether the awaited thing ended by an exception, [k] how many
    calls of the guard are left. *)
Inductive work_pc : Set :=
  | WLoad | WAdd                (* [on_work_started] *)
  | WAwait                      (* [co_await std::move(awaitable)] *)
  | WEnd (k : nat) (throws : bool)      (* [on_work_finished], up to its exchange *)
  | WResume (k : nat) (throws : bool)   (* the count was 1 *)
  | WDone.

#[export] Instance owner_pc_eq_dec : EqDecision owner_pc.
Proof. solve_decision. Defined.
#[export] Instance work_pc_eq_dec : EqDecision work_pc.
Proof. solve_decision. Defined.

(** Who calls [spawn]. *)
Inductive caller : Set := Owner | Work (i : nat) | Outsider.
#[export] Instance caller_eq_dec : EqDecision caller.
Proof. solve_decision. Defined.

(** [scope_] is [None] once it is destroyed; [resumed_] counts the resumptions. *)
Record System : Set := mkSystem { scope_ : option Scope; owner_ : owner_pc; works_ : list (work_pc * caller); resumed_ : nat }.

Definition new_scope : Scope := mkScope 1 None.
Definition new_system : System := mkSystem (Some new_scope) ORun [] 0.

(** The destructor. *)
Definition destroy (c : Scope) : res unit := cassert (bool_decide (is_Some (m_continuation c))).

Definition get_scope (s : System) : res Scope := match scope_ s with Some c => Ok c | None => Fault UseAfterFree end.
Definition set_count (c : Scope) (n : Z) : Scope := mkScope n (m_continuation c).
Definition set_owner (s : System) (o : owner_pc) : System := mkSystem (scope_ s) o (works_ s) (resumed_ s).
Definition put_scope (s : System) (c : Scope) : System := mkSystem (Some c) (owner_ s) (works_ s) (resumed_ s).
Definition set_work (s : System) (i : nat) (w : work_pc) (by_ : caller) : System :=
  mkSystem (scope_ s) (owner_ s) (<[i := (w, by_)]> (works_ s)) (resumed_ s).

Section steps.
Context `{ScopeExit}.

(** [await_ready] *)
Definition join_ready (s : System) : res System :=
  c ← get_scope s; Ok (set_owner s (if m_count c =? 0 then OJoined else OStore)).

(** [await_suspend] *)
Definition owner_step (s : System) : res System :=
  match owner_ s with
  | OStore => c ← get_scope s; Ok (set_owner (put_scope s (mkScope (m_count c) (Some owner_handle))) OSub)
  | OSub => c ← get_scope s; Ok (set_owner (put_scope s (set_count c (u64 (m_count c - 1)))) (if 1 <? m_count c then OSuspended else OJoined))
  | _ => Ok s
  end.

(** [m_continuation.resume()] *)
Definition resume_owner (s : System) : res System :=
  c ← get_scope s;
  match m_continuation c with
  | None => Fault NullPointer
  | Some _ =>
      match owner_ s with
      | OSuspended => Ok (mkSystem (scope_ s) OJoined (works_ s) (S (resumed_ s)))
      | _ => Fault BuiltinUndefined
      end
  end.

(** The coroutine of [spawn]. An exception reaches [unhandled_exception] when the
    guard is destroyed. *)
Definition work_step (s : System) (i : nat) (w : work_pc) (by_ : caller) : res System :=
  match w with
  | WLoad => c ← get_scope s; _ ← cassert (negb (m_count c =? 0)); Ok (set_work s i WAdd by_)
  | WAdd => c ← get_scope s; Ok (set_work (put_scope s (set_count c (u64 (m_count c + 1)))) i WAwait by_)
  | WEnd (S k) throws =>
      c ← get_scope s;
      Ok (set_work (put_scope s (set_count c (u64 (m_count c - 1)))) i (if m_count c =? 1 then WResume k throws else WEnd k throws) by_)
  | WResume k throws => s ← resume_owner s; Ok (set_work s i (WEnd k throws) by_)
  | WEnd O throws => if throws : bool then Fault Terminated else Ok (set_work s i WDone by_)
  | WAwait | WDone => Ok s
  end.

(** A caller whose work has not come back from its first steps does not go on. *)
Definition is_starting (x : work_pc * caller) : bool := match x.1 with WLoad | WAdd => true | _ => false end.
Definition calls_spawn (s : System) (who : caller) : bool :=
  existsb (λ x, is_starting x && bool_decide (x.2 = who)) (works_ s).

(** Whether the code of the caller runs. *)
Definition is_running (s : System) (who : caller) : bool :=
  negb (calls_spawn s who) &&
  match who with
  | Owner => bool_decide (owner_ s = ORun) || bool_decide (owner_ s = OJoined)
  | Work i => match works_ s !! i with Some (WAwait, _) => true | _ => false end
  | Outsider => true
  end.

Inductive action : Set := Spawn (who : caller) | Finish (i : nat) (throws : bool) | Join | Destroy | StepO | Step (i : nat).

Definition act (a : action) (s : System) : res System :=
  match a with
  | Spawn who => Ok (if is_running s who then mkSystem (scope_ s) (owner_ s) (works_ s ++ [(WLoad, who)]) (resumed_ s) else s)
  | Finish i throws =>
      Ok (match works_ s !! i with Some (_, by_) => if is_running s (Work i) then set_work s i (WEnd exit_calls throws) by_ else s | None => s end)
  | Join => if is_running s Owner then join_ready s else Ok s
  | Destroy =>
      if is_running s Owner then c ← get_scope s; _ ← destroy c; Ok (mkSystem None OGone (works_ s) (resumed_ s)) else Ok s
  | StepO => owner_step s
  | Step i => match works_ s !! i with Some (w, by_) => work_step s i w by_ | None => Ok s end
  end.
Definition acts (l : list action) (s : System) : res System := rfold act l s.
End steps.

(** ** The invariant *)

(** What the owner and a piece of work count for. *)
Definition owner_weight (o : owner_pc) : nat := match o with ORun | OStore | OSub => 1 | _ => 0 end.
Definition active (x : work_pc * caller) : nat := match x.1 with WAwait | WEnd 1 _ => 1 | _ => 0 end.
Definition resuming (x : work_pc * caller) : nat := match x.1 with WResume _ _ => 1 | _ => 0 end.

(** Work that accesses the scope no more. *)
Definition finished (w : work_pc) : Prop := match w with WDone | WEnd 0 _ => True | _ => False end.

Definition work_ok (x : work_pc * caller) : Prop :=
  match x.1 with WEnd k throws => (k ≤ 1)%nat ∧ throws = false | WResume k throws => k = 0%nat ∧ throws = false | _ => True end.

(** The one who has called [spawn] waits for it to return. *)
Definition caller_waits (s : System) (who : caller) : Prop :=
  match who with Owner => owner_ s = ORun | Work j => ∃ who', works_ s !! j = Some (WAwait, who') | Outsider => False end.

Definition is_joined (o : owner_pc) : Prop := o = OJoined ∨ o = OGone.

Record inv (s : System) : Prop := {
  i_scope : match scope_ s with
            | Some c => m_count c = Z.of_nat (owner_weight (owner_ s) + sum_list_with active (works_ s)) ∧ owner_ s ≠ OGone ∧
                        (owner_ s ≠ ORun → owner_ s ≠ OStore → is_Some (m_continuation c))
            | None => owner_ s = OGone
            end;
  i_works : ∀ i x, works_ s !! i = Some x → work_ok x;
  i_starting : ∀ i w who, works_ s !! i = Some (w, who) → w = WLoad ∨ w = WAdd → caller_waits s who;
  i_resuming : sum_list_with resuming (works_ s) =
    (if bool_decide (owner_ s = OSuspended) && (sum_list_with active (works_ s) =? 0)%nat then 1%nat else 0%nat);
  i_joined : is_joined (owner_ s) → ∀ i w who, works_ s !! i = Some (w, who) → finished w;
  i_resumed : (resumed_ s ≤ if bool_decide (is_joined (owner_ s)) then 1 else 0)%nat;
}.

Lemma starting_count s i w who : inv s → works_ s !! i = Some (w, who) → w = WLoad ∨ w = WAdd →
  (0 < owner_weight (owner_ s) + sum_list_with active (works_ s))%nat.
Proof.
  intros HI Hi Hw. pose proof (i_starting _ HI i w who Hi Hw) as Hc. destruct who as [|j|]; simpl in Hc; [rewrite Hc; simpl; lia| |done].
  destruct Hc as [who' Hj]. pose proof (sum_lookup_le active _ _ _ Hj) as Hle. cbn in Hle. lia.
Qed.

(** The scope is there as long as one piece of work is not finished. *)
Lemma scope_there s i w who : inv s → works_ s !! i = Some (w, who) → ¬ finished w →
  ∃ c, scope_ s = Some c ∧ m_count c = Z.of_nat (owner_weight (owner_ s) + sum_list_with active (works_ s)) ∧ ¬ is_joined (owner_ s) ∧
    (owner_ s ≠ ORun → owner_ s ≠ OStore → is_Some (m_continuation c)).
Proof.
  intros HI Hi Hw. assert (¬ is_joined (owner_ s)) as Hj by (intros Hj; by apply Hw, (i_joined _ HI Hj i w who)).
  pose proof (i_scope _ HI) as Hs. destruct (scope_ s) as [c|]; [|destruct Hj; by right]. destruct Hs as (Hc & _ & Hk). by exists c.
Qed.

(** A piece of work moves on. *)
Lemma inv_moves s i w w' who sc : inv s → works_ s !! i = Some (w, who) → work_ok (w', who) →
  (w' = WLoad ∨ w' = WAdd → w = WLoad ∨ w = WAdd) → (finished w → finished w') →
  (w = WAwait → ∀ j x, works_ s !! j = Some (x, Work i) → x = WLoad ∨ x = WAdd → w' = WAwait) →
  let s' := mkSystem sc (owner_ s) (<[i := (w', who)]> (works_ s)) (resumed_ s) in
  match sc with
  | Some c => m_count c = Z.of_nat (owner_weight (owner_ s) + sum_list_with active (works_ s')) ∧ owner_ s ≠ OGone ∧
              (owner_ s ≠ ORun → owner_ s ≠ OStore → is_Some (m_continuation c))
  | None => owner_ s = OGone
  end →
  sum_list_with resuming (works_ s') = (if bool_decide (owner_ s = OSuspended) && (sum_list_with active (works_ s') =? 0)%nat then 1%nat else 0%nat) →
  inv s'.
Proof.
  intros HI Hi Hok Hst Hfin Haw s' Hsc Hres. pose proof (lookup_lt_Some _ _ _ Hi) as Hlt. split; [exact Hsc| | |exact Hres| |exact (i_resumed _ HI)].
  - intros j x [(-> & <- & _)|[_ Hj]]%list_lookup_insert_Some; [done|by eapply i_works].
  - intros j x wh Hj Hx. assert (∃ x0, works_ s !! j = Some (x0, wh) ∧ (x0 = WLoad ∨ x0 = WAdd)) as (x0 & Hj0 & Hx0).
    { apply list_lookup_insert_Some in Hj as [(-> & [= <- <-] & _)|[_ Hj]]; [exists w; by auto|by exists x]. }
    pose proof (i_starting _ HI j x0 wh Hj0 Hx0) as Hc. destruct wh as [|k|]; simpl in *; [done| |done].
    destruct Hc as [wh Hk]. destruct (decide (k = i)) as [->|Hne]; [|exists wh; by rewrite list_lookup_insert_ne].
    rewrite Hi in Hk. injection Hk as -> ->. rewrite (Haw eq_refl j x0 Hj0 Hx0). exists wh. by apply list_lookup_insert_eq.
  - intros Hj k x wh [(-> & [= <- <-] & _)|[_ Hk]]%list_lookup_insert_Some; [apply Hfin|]; by eapply (i_joined _ HI Hj).
Qed.

Section proofs.
Context `{ScopeExitOk}.

(** Fewer pieces of work than the count can hold. *)
Definition few (s : System) : Prop := Z.of_nat (length (works_ s)) < 2 ^ 63.

Lemma count_small s : few s → Z.of_nat (owner_weight (owner_ s) + sum_list_with active (works_ s)) ≤ 2 ^ 63.
Proof.
  intros Hf. unfold few in Hf. pose proof (sum_le active 1 (works_ s)) as Hle. assert (owner_weight (owner_ s) ≤ 1)%nat by (by destruct (owner_ s); simpl; lia).
  enough (sum_list_with active (works_ s) ≤ 1 * length (works_ s))%nat by lia. apply Hle. intros [[| | |[|[|]]| |] ?]; cbn; lia.
Qed.

(** The guard decrements the count. *)
Lemma finish_spec s i who : inv s → few s → works_ s !! i = Some (WEnd 1 false, who) → runs (work_step s i (WEnd 1 false) who) inv.
Proof.
  intros HI Hf Hi. pose proof (count_small s Hf) as Hsmall. destruct (scope_there s i _ who HI Hi) as (c & Ec & Hcount & Hj & Hk); [by intros []|]. cbn [work_step].
  unfold get_scope. rewrite Ec, bind_ok. apply runs_ok. unfold set_work, put_scope, set_count. cbn [scope_ owner_ works_ resumed_].
  pose proof (sum_lookup_le active _ _ _ Hi) as Hle. cbn in Hle. pose proof (i_resuming _ HI) as Hres.
  assert (sum_list_with resuming (works_ s) = 0%nat) as Hz.
  { rewrite Hres. destruct (Nat.eqb_spec (sum_list_with active (works_ s)) 0); [lia|]. by rewrite andb_false_r. }
  set (w' := if m_count c =? 1 then WResume 0 false else WEnd 0 false).
  pose proof (sum_insert active _ _ _ (w', who) Hi) as Ha. pose proof (sum_insert resuming _ _ _ (w', who) Hi) as Hr.
  assert (active (w', who) = 0%nat) as Ea by (unfold w'; by destruct (_ =? _)). rewrite Ea in Ha. cbn in Ha.
  assert (resuming (w', who) = (if m_count c =? 1 then 1%nat else 0%nat)) as Er by (unfold w'; by destruct (_ =? _)). rewrite Er in Hr. cbn in Hr.
  apply (inv_moves s i _ w' who _ HI Hi); try done.
  - unfold w'. destruct (_ =? _); cbn; auto.
  - unfold w'. destruct (_ =? _); by intros [|].
  - cbn [works_ m_count m_continuation]. split_and!; [|intros E; apply Hj; by right|done]. rewrite Hcount.
    rewrite uN_small; lia.
  - cbn [works_]. destruct (Z.eqb_spec (m_count c) 1) as [E1|E1].
    + assert (owner_weight (owner_ s) = 0%nat) as Ho by lia. rewrite bool_decide_true.
      * cbn. rewrite (proj2 (Nat.eqb_eq _ _)); lia.
      * destruct (owner_ s); try done; exfalso; apply Hj; [by left|by right].
    + case_bool_decide as Eo; cbn; [|lia]. rewrite (proj2 (Nat.eqb_neq _ _)); [lia|]. rewrite Eo in Hcount. cbn in Hcount. lia.
Qed.

(** Work is started. *)
Lemma start_spec s i w who : inv s → few s → works_ s !! i = Some (w, who) → w = WLoad ∨ w = WAdd → runs (work_step s i w who) inv.
Proof.
  intros HI Hf Hi Hw. pose proof (count_small s Hf) as Hsmall. pose proof (starting_count s i w who HI Hi Hw) as Hpos. pose proof (i_resuming _ HI) as Hres.
  destruct (scope_there s i w who HI Hi) as (c & Ec & Hcount & Hj & Hk); [destruct Hw; subst; by intros []|].
  assert (owner_ s ≠ OGone) as Hgone by (intros E; apply Hj; by right). destruct Hw as [-> | ->]; cbn [work_step]; unfold get_scope; rewrite Ec, bind_ok.
  - rewrite cassert_true, bind_ok by (apply negb_true_iff, Z.eqb_neq; lia). apply runs_ok. unfold set_work. rewrite Ec.
    pose proof (sum_insert active _ _ _ (WAdd, who) Hi) as Ha. pose proof (sum_insert resuming _ _ _ (WAdd, who) Hi) as Hr. cbn in Ha, Hr.
    apply (inv_moves s i WLoad WAdd who _ HI Hi); try done; try by (intros _; left). all: cbn [works_].
    + split_and!; [|done..]. rewrite Hcount. lia.
    + replace (sum_list_with active _) with (sum_list_with active (works_ s)) by lia. lia.
  - apply runs_ok. unfold set_work, put_scope, set_count. cbn [scope_ owner_ works_ resumed_].
    pose proof (sum_insert active _ _ _ (WAwait, who) Hi) as Ha. pose proof (sum_insert resuming _ _ _ (WAwait, who) Hi) as Hr. cbn in Ha, Hr.
    apply (inv_moves s i WAdd WAwait who _ HI Hi); try done. all: cbn [works_ m_count m_continuation].
    + by intros [|].
    + split_and!; [|done..]. rewrite Hcount, uN_small; lia.
    + case_bool_decide as Eo; cbn; [|cbn in Hres; lia]. rewrite Eo in Hpos. cbn in Hpos, Hres.
      rewrite (proj2 (Nat.eqb_neq _ _)) in Hres by lia. rewrite (proj2 (Nat.eqb_neq _ _)); lia.
Qed.

(** The owner is resumed, by work that is finished, when all other work is. *)
Lemma resume_spec s i who : inv s → works_ s !! i = Some (WResume 0 false, who) → runs (work_step s i (WResume 0 false) who) inv.
Proof.
  intros HI Hi. pose proof (sum_lookup_le resuming _ _ _ Hi) as Hle. cbn in Hle. pose proof (i_resuming _ HI) as Hres.
  case_bool_decide as Eo; cbn in Hres; [|lia]. destruct (Nat.eqb_spec (sum_list_with active (works_ s)) 0) as [Ea|]; [|lia].
  destruct (scope_there s i _ who HI Hi) as (c & Ec & Hcount & Hj & Hk); [by intros []|]. destruct Hk as [h Hh]; [by rewrite Eo..|].
  cbn [work_step]. unfold resume_owner, get_scope. rewrite Ec, bind_ok, Hh, Eo, bind_ok. apply runs_ok. unfold set_work. cbn [scope_ owner_ works_ resumed_].
  pose proof (sum_insert active _ _ _ (WEnd 0 false, who) Hi) as Ha. pose proof (sum_insert resuming _ _ _ (WEnd 0 false, who) Hi) as Hr. cbn in Ha, Hr.
  assert (∀ j w wh, works_ s !! j = Some (w, wh) → j ≠ i → finished w) as Hall.
  { intros j w wh Hj' Hne. assert (active (w, wh) = 0%nat ∧ resuming (w, wh) = 0%nat) as [Hja Hjr].
    { split; [pose proof (sum_lookup_le active _ _ _ Hj'); lia|].
      assert (<[i := (WEnd 0 false, who)]> (works_ s) !! j = Some (w, wh)) as Hj2 by (by rewrite list_lookup_insert_ne).
      pose proof (sum_lookup_le resuming _ _ _ Hj2). lia. }
    destruct w as [| | |[|k] th|k th|]; try done.
    1,2: pose proof (starting_count s j _ wh HI Hj' ltac:(auto)) as Hp; rewrite Eo in Hp; cbn in Hp; lia.
    pose proof (i_works _ HI _ _ Hj') as [Hk1 _]. destruct k; [done|lia]. }
  assert (∀ j w wh, <[i := (WEnd 0 false, who)]> (works_ s) !! j = Some (w, wh) → finished w) as Hall'.
  { intros j w wh [(<- & [= <- <-] & _)|[Hne Hj']]%list_lookup_insert_Some; [done|]. by eapply Hall. }
  split; cbn [scope_ owner_ works_ resumed_].
  - split_and!; [|done|by rewrite Hh]. rewrite Hcount, Eo. cbn. lia.
  - intros j x [(-> & <- & _)|[_ Hj']]%list_lookup_insert_Some; [by split; [lia|]|by eapply i_works].
  - intros j w wh Hj' Hw. pose proof (Hall' j w wh Hj') as Hf. by destruct Hw; subst.
  - rewrite bool_decide_false by done. cbn. lia.
  - intros _ j w wh. apply Hall'.
  - pose proof (i_resumed _ HI) as Hr1. rewrite (bool_decide_false (is_joined _)) in Hr1 by done. rewrite bool_decide_true by (by left). lia.
Qed.

Lemma work_step_spec s i w who : inv s → few s → works_ s !! i = Some (w, who) → runs (work_step s i w who) inv.
Proof.
  intros HI Hf Hi. pose proof (i_works _ HI _ _ Hi) as Hok. destruct w as [| | |k th|k th|]; try (apply runs_ok; done).
  1, 2: apply start_spec; auto.
  - destruct Hok as [Hk ->]. destruct k as [|[|k]]; [|by apply finish_spec|lia]. apply runs_ok. unfold set_work.
    pose proof (sum_insert active _ _ _ (WDone, who) Hi) as Ha. pose proof (sum_insert resuming _ _ _ (WDone, who) Hi) as Hr. cbn in Ha, Hr.
    pose proof (i_scope _ HI) as Hs. pose proof (i_resuming _ HI) as Hres.
    apply (inv_moves s i _ WDone who _ HI Hi); try done; [by intros [|]|..]; cbn [works_]; rewrite ?(Nat.add_0_r) in *; rewrite Ha; [done|by rewrite Hr].
  - destruct Hok as [-> ->]. by apply resume_spec.
Qed.

Lemma calls_spawn_false s who : calls_spawn s who = false → ∀ j w, works_ s !! j = Some (w, who) → ¬ (w = WLoad ∨ w = WAdd).
Proof.
  intros Hc j w Hj Hw. apply not_true_iff_false in Hc. apply Hc. unfold calls_spawn. apply existsb_exists. exists (w, who).
  split; [by eapply list_elem_of_In, list_elem_of_lookup_2|]. cbn. rewrite bool_decide_true by done. by destruct Hw; subst.
Qed.

Lemma is_running_inv s who : is_running s who = true → calls_spawn s who = false ∧
  match who with Owner => owner_ s = ORun ∨ owner_ s = OJoined | Work i => ∃ who', works_ s !! i = Some (WAwait, who') | Outsider => True end.
Proof.
  unfold is_running. intros [Hc Hw]%andb_true_iff. apply negb_true_iff in Hc. split; [done|]. destruct who as [|i|]; [| |done].
  - apply orb_true_iff in Hw as [Hw|Hw]; apply bool_decide_eq_true in Hw; auto.
  - destruct (works_ s !! i) as [[[] who']|]; try done. by exists who'.
Qed.

Lemma scope_spawn_spec s who : inv s → is_running s who = true → who ≠ Outsider → (who = Owner → owner_ s = ORun) →
  inv (mkSystem (scope_ s) (owner_ s) (works_ s ++ [(WLoad, who)]) (resumed_ s)).
Proof.
  intros [Hs Hw Hst Hr Hj Hres] [_ Hrun]%is_running_inv Hout Hown.
  assert (∀ j x, (works_ s ++ [(WLoad, who)]) !! j = Some x → works_ s !! j = Some x ∨ x = (WLoad, who)) as Hl.
  { intros j x [?|[_ E]]%lookup_app_Some; [by left|right]. apply list_lookup_singleton_Some in E as [_ <-]. done. }
  assert (sum_list_with active (works_ s ++ [(WLoad, who)]) = sum_list_with active (works_ s) ∧
          sum_list_with resuming (works_ s ++ [(WLoad, who)]) = sum_list_with resuming (works_ s)) as [Ea Er] by (rewrite !sum_list_with_app; cbn; lia).
  split; cbn [scope_ owner_ works_ resumed_]; rewrite ?Ea, ?Er; try done.
  - intros j x [Hx| ->]%Hl; [by eapply Hw|done].
  - intros j w wh [Hx|E]%Hl Hw'; [|injection E as -> ->].
    + specialize (Hst j w wh Hx Hw'). destruct wh as [|k|]; simpl in *; [done| |done]. destruct Hst as [wh' Hk]. exists wh'. by apply lookup_app_l_Some.
    + destruct who as [|k|]; simpl in *; [by apply Hown| |done]. destruct Hrun as [wh' Hk]. exists wh'. by apply lookup_app_l_Some.
  - intros Hjd. exfalso. destruct who as [|k|]; [|destruct Hrun as [wh' Hk]; by apply (Hj Hjd k WAwait wh' Hk)|done].
    rewrite Hown in Hjd by done. by destruct Hjd.
Qed.

(** What the owner does leaves the work alone. *)
Lemma owner_moves s sc o : inv s → ¬ is_joined (owner_ s) ∨ is_joined o → (∀ j w who, works_ s !! j = Some (w, who) → w = WLoad ∨ w = WAdd → caller_waits s who → who = Owner → o = ORun) →
  match sc with
  | Some c => m_count c = Z.of_nat (owner_weight o + sum_list_with active (works_ s)) ∧ o ≠ OGone ∧ (o ≠ ORun → o ≠ OStore → is_Some (m_continuation c))
  | None => o = OGone
  end →
  sum_list_with resuming (works_ s) = (if bool_decide (o = OSuspended) && (sum_list_with active (works_ s) =? 0)%nat then 1%nat else 0%nat) →
  (is_joined o → ∀ i w who, works_ s !! i = Some (w, who) → finished w) → inv (mkSystem sc o (works_ s) (resumed_ s)).
Proof.
  intros [Hs Hw Hst Hr Hj Hres] Ho Hstart Hsc Hr' Hj'. split; try done; cbn [owner_ works_ resumed_].
  - intros j w who Hx Hwx. pose proof (Hst j w who Hx Hwx) as Hc. destruct who as [|k|]; [by apply (Hstart j w Owner)|done|done].
  - destruct Ho as [Hn|Hy]; [rewrite bool_decide_false in Hres by done; lia|]. rewrite (bool_decide_true (is_joined o)) by done. by destruct (bool_decide _) in Hres; lia.
Qed.

Lemma all_finished s : inv s → sum_list_with active (works_ s) = 0%nat → owner_weight (owner_ s) = 0%nat ∨ (∀ j w who, works_ s !! j = Some (w, who) → ¬ (w = WLoad ∨ w = WAdd)) →
  sum_list_with resuming (works_ s) = 0%nat → ∀ i w who, works_ s !! i = Some (w, who) → finished w.
Proof.
  intros HI Ha Ho Hr i w who Hi. pose proof (sum_lookup_le active _ _ _ Hi) as H1. pose proof (sum_lookup_le resuming _ _ _ Hi) as H2.
  assert (¬ (w = WLoad ∨ w = WAdd)) as Hst.
  { intros Hw. destruct Ho as [Ho|Ho]; [|by eapply Ho]. pose proof (starting_count s i w who HI Hi Hw). lia. }
  destruct w as [| | |[|[|k]] th|k th|]; cbn in *; try done; try lia; [by apply Hst; left|by apply Hst; right|].
  destruct (i_works _ HI _ _ Hi) as [Hk _]. cbn in Hk. lia.
Qed.

Lemma owner_step_spec s : inv s → few s → runs (owner_step s) inv.
Proof.
  intros HI Hf. pose proof (count_small s Hf) as Hsmall. pose proof (i_scope _ HI) as Hs. pose proof (i_resuming _ HI) as Hr. unfold owner_step, get_scope.
  destruct (owner_ s) eqn:Eo; try by apply runs_ok. all: destruct (scope_ s) as [c|]; [|done]; destruct Hs as (Hc & _ & Hk); rewrite bind_ok; apply runs_ok;
    unfold set_owner, put_scope, set_count; cbn [scope_ owner_ works_ resumed_].
  - apply owner_moves; [done|left; rewrite Eo; by intros [|]|intros j w who _ _ Hw ->; simpl in Hw; congruence| |done|by intros [|]].
    cbn. by split_and!.
  - cbn [owner_weight] in *. specialize (Hk ltac:(done) ltac:(done)). rewrite uN_small by lia. destruct (Z.ltb_spec 1 (m_count c)) as [Hlt|Hge].
    + apply owner_moves; [done|left; rewrite Eo; by intros [|]|intros j w who _ _ Hw ->; simpl in Hw; congruence| | |by intros [|]].
      * cbn. split_and!; [lia|done|done].
      * rewrite bool_decide_true by done. rewrite (proj2 (Nat.eqb_neq _ _)) by lia. done.
    + assert (sum_list_with active (works_ s) = 0%nat) as Ea by lia.
      apply owner_moves; [done|right; by left|intros j w who _ _ Hw ->; simpl in Hw; congruence| |done|].
      * cbn. split_and!; [lia|done|done].
      * intros _. apply (all_finished s HI Ea); [|done]. right. intros j w who Hj Hw. pose proof (starting_count s j w who HI Hj Hw) as Hp.
        pose proof (i_starting _ HI j w who Hj Hw) as Hc'. destruct who as [|k|]; simpl in Hc'; [congruence| |done].
        destruct Hc' as [wh Hwh]. pose proof (sum_lookup_le active _ _ _ Hwh) as Hle. cbn in Hle. lia.
Qed.

Lemma joined_count s : inv s → owner_ s = OJoined → ∃ c, scope_ s = Some c ∧ m_count c = 0 ∧ is_Some (m_continuation c).
Proof.
  intros HI Eo. pose proof (i_scope _ HI) as Hs. rewrite Eo in Hs. destruct (scope_ s) as [c|]; [|done]. destruct Hs as (Hc & _ & Hk).
  exists c. split_and!; [done| |by apply Hk]. rewrite Hc. cbn. assert (sum_list_with active (works_ s) = 0%nat) as ->; [|done].
  destruct (sum_list_with active (works_ s)) eqn:Ea; [done|]. destruct (sum_pos active (works_ s)) as (i & [w who] & Hi & Hp); [lia|].
  pose proof (i_joined _ HI (or_introl Eo) i w who Hi) as Hfin. destruct w as [| | |[|k]| |]; cbn in *; try lia; done.
Qed.

Lemma scope_join_spec s : inv s → is_running s Owner = true → runs (join_ready s) inv.
Proof.
  intros HI [Hns Hrun]%is_running_inv. pose proof (i_scope _ HI) as Hs. pose proof (i_resuming _ HI) as Hr. unfold join_ready, get_scope. destruct Hrun as [Eo|Eo].
  - rewrite Eo in *. destruct (scope_ s) as [c|] eqn:Ec; [|done]. destruct Hs as (Hc & _ & Hk). rewrite bind_ok. apply runs_ok. cbn in Hc.
    rewrite (proj2 (Z.eqb_neq _ _)) by lia. unfold set_owner. rewrite Ec.
    apply owner_moves; [done|left; rewrite Eo; by intros [|]| |cbn; by split_and!|done|by intros [|]].
    intros j w who Hj Hw _ ->. destruct (calls_spawn_false s Owner Hns j w Hj Hw).
  - destruct (joined_count s HI Eo) as (c & Ec & E0 & _). rewrite Ec, bind_ok, E0. apply runs_ok. unfold set_owner. cbn. rewrite Ec in *.
    rewrite <- Eo, <- Ec. by destruct s.
Qed.

Lemma destroy_scope_spec s : inv s → is_running s Owner = true → owner_ s ≠ ORun →
  runs (c ← get_scope s; _ ← destroy c; Ok (mkSystem None OGone (works_ s) (resumed_ s))) inv.
Proof.
  intros HI [Hns [Eo|Eo]]%is_running_inv Hne; [done|]. destruct (joined_count s HI Eo) as (c & Ec & _ & Hk). unfold get_scope, destroy.
  rewrite Ec, bind_ok, bool_decide_true by done. apply runs_ok. pose proof (i_resuming _ HI) as Hr. rewrite Eo in Hr.
  apply owner_moves; [done|right; by right| |done|done|].
  - intros j w who Hj Hw _ _. pose proof (i_joined _ HI (or_introl Eo) j w who Hj) as Hfin. by destruct Hw; subst.
  - intros _. apply (i_joined _ HI). by left.
Qed.

(** ** The contract

    Work is spawned by the owner before it joins, or by work that is awaiting; no
    exception comes out of the work; and the owner destroys the scope when it has
    joined it. *)
Definition proper (s : System) (a : action) : bool :=
  match a with
  | Spawn Owner => bool_decide (owner_ s = ORun)
  | Spawn Outsider => false
  | Spawn (Work _) => true
  | Finish _ throws => negb throws
  | Destroy => negb (bool_decide (owner_ s = ORun))
  | Join | StepO | Step _ => true
  end.
Fixpoint keeps_contract (l : list action) (s : System) : bool :=
  match l with
  | [] => true
  | a :: l' => proper s a && match act a s with Ok s' => keeps_contract l' s' | Fault _ => true end
  end.

Lemma scope_act_spec a s : inv s → few s → proper s a = true → runs (act a s) inv.
Proof.
  intros HI Hf Hp. destruct a as [who|i th| | | |i]; cbn [act proper] in *.
  - apply runs_ok. destruct (is_running s who) eqn:Er; [|done]. apply scope_spawn_spec; [done|done|by intros ->|].
    intros ->. by apply bool_decide_eq_true in Hp.
  - apply negb_true_iff in Hp as ->. apply runs_ok. destruct (works_ s !! i) as [[w who]|] eqn:Hi; [|done]. destruct (is_running s (Work i)) eqn:Er; [|done].
    apply is_running_inv in Er as [Hns [who' Hi']]. rewrite Hi in Hi'. injection Hi' as -> <-. rewrite exit_calls_once.
    pose proof (sum_insert active _ _ _ (WEnd 1 false, who) Hi) as Ha. pose proof (sum_insert resuming _ _ _ (WEnd 1 false, who) Hi) as Hr. cbn in Ha, Hr.
    pose proof (i_scope _ HI) as Hs. pose proof (i_resuming _ HI) as Hres.
    assert (sum_list_with active (<[i:=(WEnd 1 false, who)]> (works_ s)) = sum_list_with active (works_ s)) as Ea by lia.
    apply (inv_moves s i WAwait _ who _ HI Hi); try done; cbn [works_]; rewrite ?Ea; [by intros [|]| |done|lia].
    intros _ j x Hj Hx. destruct (calls_spawn_false s (Work i) Hns j x Hj Hx).
  - destruct (is_running s Owner) eqn:Er; [by apply scope_join_spec|by apply runs_ok].
  - destruct (is_running s Owner) eqn:Er; [|by apply runs_ok]. apply negb_true_iff, bool_decide_eq_false in Hp. by apply destroy_scope_spec.
  - by apply owner_step_spec.
  - destruct (works_ s !! i) as [[w who]|] eqn:Hi; [by apply work_step_spec|by apply runs_ok].
Qed.

Lemma scope_act_length a s s' : act a s = Ok s' → (length (works_ s') ≤ S (length (works_ s)))%nat.
Proof.
  assert (∀ s i w who, length (works_ (set_work s i w who)) = length (works_ s)) as Hset by (intros; apply length_insert).
  destruct a as [who|i th| | | |i]; cbn [act].
  - intros [= <-]. destruct (is_running s who); [cbn; rewrite length_app; cbn; lia|lia].
  - intros [= <-]. destruct (works_ s !! i) as [[w who]|]; [|lia]. destruct (is_running s (Work i)); [rewrite Hset|]; lia.
  - destruct (is_running s Owner); [|intros [= <-]; lia]. unfold join_ready. intros (c & _ & [= <-])%bind_ok_inv. cbn. lia.
  - destruct (is_running s Owner); [|intros [= <-]; lia]. intros (c & _ & (u & _ & [= <-])%bind_ok_inv)%bind_ok_inv. cbn. lia.
  - unfold owner_step. destruct (owner_ s); try (intros [= <-]; lia). all: intros (c & _ & [= <-])%bind_ok_inv; cbn; lia.
  - destruct (works_ s !! i) as [[w who]|]; [|intros [= <-]; lia]. destruct w as [| | |[|k] th|k th|]; cbn [work_step]; try (intros [= <-]; lia).
    + intros (c & _ & (u & _ & [= <-])%bind_ok_inv)%bind_ok_inv. rewrite Hset. lia.
    + intros (c & _ & [= <-])%bind_ok_inv. rewrite Hset. cbn. lia.
    + destruct th; [done|]. intros [= <-]. rewrite Hset. lia.
    + intros (c & _ & [= <-])%bind_ok_inv. rewrite Hset. cbn. lia.
    + intros (s1 & E & [= <-])%bind_ok_inv. rewrite Hset. unfold resume_owner in E. apply bind_ok_inv in E as (c & _ & E).
      destruct (m_continuation c); [|done]. destruct (owner_ s); try done. injection E as <-. cbn. lia.
Qed.

Lemma scope_new_inv : inv new_system.
Proof. split; cbn; try done; by intros [|]. Qed.

Lemma scope_acts_inv l : ∀ s, inv s → Z.of_nat (length (works_ s) + length l) < 2 ^ 63 → keeps_contract l s = true → runs (acts l s) inv.
Proof.
  induction l as [|a l IH]; intros s HI Hlen Hk; unfold acts; cbn [rfold]; [by apply runs_ok|]. cbn in Hk, Hlen. apply andb_true_iff in Hk as [Hp Hk].
  destruct (scope_act_spec a s HI) as (s' & E & HI'); [unfold few; lia|done|]. rewrite E in Hk |- *. rewrite bind_ok. apply IH; [done| |done].
  pose proof (scope_act_length a s s' E). lia.
Qed.

(** (C40) As long as the contract is kept, in every interleaving of the owner and the
    work: nothing accesses the scope behind its destruction, no assertion fails,
    and no coroutine is resumed that is not suspended; the owner is resumed at most
    once, goes on behind [join] only when all work is finished, and is never left
    suspended when all work is. *)
Theorem async_scope_joins l : Z.of_nat (length l) < 2 ^ 63 → keeps_contract l new_system = true →
  runs (acts l new_system) (λ s, (resumed_ s ≤ 1)%nat ∧
    (is_joined (owner_ s) → ∀ i w who, works_ s !! i = Some (w, who) → finished w) ∧
    (owner_ s = OSuspended → ∃ i w who, works_ s !! i = Some (w, who) ∧ ¬ finished w) ∧
    (owner_ s = OJoined → ∃ c, scope_ s = Some c ∧ destroy c = Ok tt)).
Proof.
  intros Hlen Hk. eapply runs_mono; [apply scope_acts_inv; [apply scope_new_inv|done|done]|]. intros s HI. split_and!.
  - pose proof (i_resumed _ HI). destruct (bool_decide _) in *; lia.
  - apply (i_joined _ HI).
  - intros Eo. pose proof (i_resuming _ HI) as Hr. rewrite bool_decide_true in Hr by done. cbn in Hr.
    destruct (Nat.eqb_spec (sum_list_with active (works_ s)) 0) as [Ea|Ea].
    + destruct (sum_pos resuming (works_ s)) as (i & [w who] & Hi & Hp); [lia|]. exists i, w, who. split; [done|]. destruct w as [| | |[|[]]| |]; cbn in *; try lia; by intros [].
    + destruct (sum_pos active (works_ s)) as (i & [w who] & Hi & Hp); [lia|]. exists i, w, who. split; [done|]. destruct w as [| | |[|[]]| |]; cbn in *; try lia; by intros [].
  - intros Eo. destruct (joined_count s HI Eo) as (c & Ec & _ & Hc). exists c. split; [done|]. unfold destroy. by rewrite bool_decide_true.
Qed.
End proofs.

(** ** What the contract is for *)

(** Work spawned by somebody else while the owner joins can find the count at 1
    and add its own when the count is already 0: it is waited for by nobody, and
    resumes the owner, which is not suspended. *)
Example outsider_resumes_running_owner `{ScopeExitOk} :
  acts [Spawn Outsider; Step 0; Join; StepO; StepO; Step 0; Finish 0 false; Step 0; Step 0] new_system = Fault BuiltinUndefined.
Proof. unfold acts, rfold, act. cbn. by rewrite exit_calls_once. Qed.

(** The guard runs before the exception of the work ends the program: the owner
    goes on first. *)
Example throwing_work_resumes_first `{ScopeExitOk} :
  let before := [Spawn Owner; Step 0; Step 0; Join; StepO; StepO; Finish 0 true; Step 0; Step 0] in
  results (λ s, (owner_ s, resumed_ s)) (acts before new_system) = Some (OJoined, 1%nat) ∧ acts (before ++ [Step 0]) new_system = Fault Terminated.
Proof. unfold acts, rfold, act. cbn. by rewrite exit_calls_once. Qed.

(** ** A program

    The owner spawns work, which spawns work itself; the owner joins, the first work
    ends, then the second, which resumes the owner. *)
#[local] Instance one_call : ScopeExit := 1%nat.
#[local] Instance one_call_ok : ScopeExitOk := eq_refl.

Definition nested_work : list action :=
  [Spawn Owner; Step 0; Step 0; Spawn (Work 0); Step 1; Join; Step 1; StepO; Finish 0 false; StepO; Step 0; Step 0;
   Finish 1 false; Step 1; Step 1; Join; Destroy; Step 1].

Lemma async_scope_joins_witness :
  keeps_contract nested_work new_system = true ∧
  results (λ s, (scope_ s, owner_ s, resumed_ s)) (acts nested_work new_system) = Some (None, OGone, 1%nat) ∧
  runs (acts nested_work new_system) (λ s, (resumed_ s ≤ 1)%nat ∧
    (is_joined (owner_ s) → ∀ i w who, works_ s !! i = Some (w, who) → finished w) ∧
    (owner_ s = OSuspended → ∃ i w who, works_ s !! i = Some (w, who) ∧ ¬ finished w) ∧
    (owner_ s = OJoined → ∃ c, scope_ s = Some c ∧ destroy c = Ok tt)).
Proof.
  split; [reflexivity|]. split; [reflexivity|]. apply (async_scope_joins nested_work); reflexivity.
Defined.
