(* ===== verification/Task.v ===== *)
(** Task: coroutines that compute a result when somebody awaits them.
    Source: src/net/cppcoro/task.hpp, async_task.hpp.

    The coroutine frames are a heap; a handle is the number of a frame, and the
    handle of a destroyed frame is never given out again. The values, the
    exceptions and the visible events of a program are parameters. *)
From S2P Require Import Prelude.

Section task.
Context {V E Ev : Type} (unit_v : V) (broken_promise : E).

Inductive outcome : Type := Val (v : V) | Exc (e : E).

(** [task<T>], [task<void>] and [task<T&>]. *)
Inductive kind : Set := KValue | KVoid | KRef.

(** What a caller does with the task [f()] it gets:
    [co_await f()];
    [auto t = f(); auto u = std::move(t); co_await u], and the same with [co_await t];
    [auto t = f(); t = f(); co_await t]; [co_await f().when_ready()]; nothing. *)
Inductive use : Set := Temporary | Moved | MovedFrom | Assigned | WhenReady | Unused.

#[export] Instance use_eq_dec : EqDecision use.
Proof. solve_decision. Defined.

(** The body of a coroutine. [Wait] is the [co_await] of something that is not a
    task: it suspends until the outside world resumes the coroutine with a value. An
    exception that arrives in [rest] is caught there or thrown again. *)
Inductive body : Type :=
  | Return (v : V)
  | Throw (e : E)
  | Emit (x : Ev) (rest : body)
  | Call (k : kind) (u : use) (callee : body) (rest : outcome → body)
  | Wait (rest : V → body).

(** ** The promise

    The value and the exception of [task_promise<void>] and [task_promise<T&>]
    are members of their own; a body ends once, so that one of them is set. *)
Inductive result_type : Type := empty | value (v : V) | exception (e : E).
Record promise : Type := mkPromise { m_continuation : option nat; m_result : result_type }.

Definition new_promise : promise := mkPromise None empty.
Definition set_continuation (p : promise) (h : nat) : promise := mkPromise (Some h) (m_result p).
Definition return_value (p : promise) (v : V) : promise := mkPromise (m_continuation p) (value v).
Definition unhandled_exception (p : promise) (e : E) : promise := mkPromise (m_continuation p) (exception e).

Definition result_value (p : promise) : res outcome :=
  match m_result p with exception e => Ok (Exc e) | value v => Ok (Val v) | empty => Fault AssertFailed end.
Definition result_void (p : promise) : res outcome :=
  match m_result p with exception e => Ok (Exc e) | _ => Ok (Val unit_v) end.
Definition result_ref (p : promise) : res outcome :=
  match m_result p with exception e => Ok (Exc e) | value v => Ok (Val v) | empty => Fault NullPointer end.
Definition result (k : kind) (p : promise) : res outcome :=
  match k with KValue => result_value p | KVoid => result_void p | KRef => result_ref p end.

(** ** The frames

    [task] is null or owns a frame. A frame that awaits a task holds the task
    objects of that expression, the newest first. *)
Definition task : Set := option nat.

Inductive point : Type :=
  | AtStart (b : body)
  | Running
  | AtCall (locals : list task) (awaited : task) (with_result : bool) (rest : outcome → body)
  | AtWait (rest : V → body)
  | AtFinal.

(** The frame of an [AsyncTask] has no kind. *)
Record frame : Type := mkFrame { kind_ : option kind; promise_ : promise; at_ : point }.
Record St : Type := mkSt { frames_ : gmap nat frame; next_ : nat; log_ : list Ev }.

Definition set_frames (s : St) (m : gmap nat frame) : St := mkSt m (next_ s) (log_ s).
Definition emit (s : St) (x : Ev) : St := mkSt (frames_ s) (next_ s) (log_ s ++ [x]).
Definition get_frame (s : St) (h : nat) : res frame := match frames_ s !! h with Some f => Ok f | None => Fault UseAfterFree end.
Definition set_frame (s : St) (h : nat) (f : frame) : St := set_frames s (<[h := f]> (frames_ s)).
Definition suspend_at (s : St) (h : nat) (a : point) : res St := f ← get_frame s h; Ok (set_frame s h (mkFrame (kind_ f) (promise_ f) a)).

(** The call of a coroutine: a frame that is suspended at its start. *)
Definition get_return_object (s : St) (k : kind) (b : body) : St * task :=
  (mkSt (<[next_ s := mkFrame (Some k) new_promise (AtStart b)]> (frames_ s)) (S (next_ s)) (log_ s), Some (next_ s)).

Definition is_done (f : frame) : bool := match at_ f with AtFinal => true | _ => false end.

(** The destructor of a frame runs those of its objects. *)
Fixpoint destroy (fuel : nat) (s : St) (h : nat) : res St :=
  match fuel with
  | O => Fault NoFuel
  | S fuel' =>
      f ← get_frame s h;
      let s := set_frames s (delete h (frames_ s)) in
      match at_ f with
      | Running => Fault BuiltinUndefined
      | AtCall locals _ _ _ => rfold (λ t s, match t with Some h => destroy fuel' s h | None => Ok s end) locals s
      | _ => Ok s
      end
  end.

(** ** The operations of [task] *)

Definition destroy_task (fuel : nat) (s : St) (t : task) : res St := match t with Some h => destroy fuel s h | None => Ok s end.

(** The new task, and what is left of the old one. *)
Definition move_task (t : task) : task * task := (t, None).

Definition assign_task (fuel : nat) (s : St) (t other : task) : res (St * task * task) :=
  s ← destroy_task fuel s t; Ok (s, other, None).

Definition is_ready (s : St) (t : task) : res bool :=
  match t with None => Ok true | Some h => f ← get_frame s h; Ok (is_done f) end.

Definition await_ready (s : St) (t : task) : res bool := is_ready s t.

(** The handle it answers is resumed next. *)
Definition await_suspend (s : St) (t : task) (awaiting : nat) : res (St * nat) :=
  match t with
  | None => Fault NullPointer
  | Some h => f ← get_frame s h; Ok (set_frame s h (mkFrame (kind_ f) (set_continuation (promise_ f) awaiting) (at_ f)), h)
  end.

Definition await_resume (s : St) (t : task) (with_result : bool) : res outcome :=
  if with_result then
    match t with
    | None => Ok (Exc broken_promise)
    | Some h => f ← get_frame s h; match kind_ f with Some k => result k (promise_ f) | None => Fault BuiltinUndefined end
    end
  else Ok (Val unit_v).

(** The awaiting coroutine goes on: it takes the result, and the task objects of
    the expression are destroyed. *)
Definition end_await (fuel : nat) (s : St) (locals : list task) (t : task) (with_result : bool) : res (St * outcome) :=
  o ← await_resume s t with_result;
  s ← rfold (λ t s, destroy_task fuel s t) locals s;
  Ok (s, o).

(** ** The coroutines *)

(** A coroutine is resumed: the code that it goes on with. *)
Definition enter (fuel : nat) (s : St) (h : nat) : res (St * body) :=
  f ← get_frame s h;
  match at_ f with
  | AtStart b => s ← suspend_at s h Running; Ok (s, b)
  | AtCall locals t w rest => s ← suspend_at s h Running; '(s, o) ← end_await fuel s locals t w; Ok (s, rest o)
  | Running | AtWait _ | AtFinal => Fault BuiltinUndefined
  end.

(** The body has ended. A task stays suspended, and the handle of its
    continuation is resumed; the frame of an [AsyncTask] is destroyed. *)
Definition finish_task (s : St) (h : nat) (f : frame) (o : outcome) : res (St * option nat) :=
  let p := match o with Val v => return_value (promise_ f) v | Exc e => unhandled_exception (promise_ f) e end in
  let s := set_frame s h (mkFrame (kind_ f) p AtFinal) in
  match m_continuation p with Some c => Ok (s, Some c) | None => Fault NullPointer end.
Definition finish_async (s : St) (h : nat) (o : outcome) : res (St * option nat) :=
  match o with Val _ => Ok (set_frames s (delete h (frames_ s)), None) | Exc _ => Fault Terminated end.
Definition finish (s : St) (h : nat) (o : outcome) : res (St * option nat) :=
  f ← get_frame s h; match kind_ f with Some _ => finish_task s h f o | None => finish_async s h o end.

(** The expression that uses the task [t] of the callee, up to the point where
    it awaits one: the objects that live then, the task that is awaited, and
    whether its result is asked for. *)
Definition use_task (fuel : nat) (s : St) (k : kind) (u : use) (callee : body) (t : task) : res (St * option (list task * task * bool)) :=
  match u with
  | Temporary => Ok (s, Some ([t], t, true))
  | Moved => let '(u, t) := move_task t in Ok (s, Some ([u; t], u, true))
  | MovedFrom => let '(u, t) := move_task t in Ok (s, Some ([u; t], t, true))
  | Assigned =>
      let '(s, t2) := get_return_object s k callee in
      '(s, t, t2) ← assign_task fuel s t t2; s ← destroy_task fuel s t2; Ok (s, Some ([t], t, true))
  | WhenReady => Ok (s, Some ([t], t, false))
  | Unused => s ← destroy_task fuel s t; Ok (s, None)
  end.

(** The coroutine [h] runs [b], until control returns to the one who resumed it:
    [Some] is the coroutine that waits then, [None] the end of the [AsyncTask]. *)
Fixpoint run (fuel : nat) (s : St) (h : nat) (b : body) : res (St * option nat) :=
  match fuel with
  | O => Fault NoFuel
  | S fuel' =>
      let ended o :=
        '(s, c) ← finish s h o;
        match c with None => Ok (s, None) | Some c => '(s, b) ← enter fuel' s c; run fuel' s c b end in
      match b with
      | Return v => ended (Val v)
      | Throw e => ended (Exc e)
      | Emit x rest => run fuel' (emit s x) h rest
      | Wait rest => s ← suspend_at s h (AtWait rest); Ok (s, Some h)
      | Call k u callee rest =>
          let '(s, t) := get_return_object s k callee in
          '(s, e) ← use_task fuel' s k u callee t;
          match e with
          | None => run fuel' s h (rest (Val unit_v))
          | Some (locals, t, w) =>
              ready ← await_ready s t;
              if ready : bool then '(s, o) ← end_await fuel' s locals t w; run fuel' s h (rest o)
              else
                s ← suspend_at s h (AtCall locals t w rest);
                '(s, c) ← await_suspend s t h;
                '(s, b) ← enter fuel' s c; run fuel' s c b
          end
      end
  end.

(** ** A program of many [AsyncTask]s

    [Spawn] calls one, which runs at once; [Deliver] resumes the coroutine that
    waits in the [i]-th. *)
Record System : Type := mkSystem { heap_ : gmap nat frame; fresh_ : nat; roots_ : list (option nat * list Ev) }.
Definition new_system : System := mkSystem ∅ 0 [].
Inductive action : Type := Spawn (b : body) | Deliver (i : nat) (v : V).

Definition act (fuel : nat) (a : action) (s : System) : res System :=
  match a with
  | Spawn b =>
      let h := fresh_ s in
      '(t, w) ← run fuel (mkSt (<[h := mkFrame None new_promise Running]> (heap_ s)) (S h) []) h b;
      Ok (mkSystem (frames_ t) (next_ t) (roots_ s ++ [(w, log_ t)]))
  | Deliver i v =>
      match roots_ s !! i with
      | Some (Some h, log) =>
          let st := mkSt (heap_ s) (fresh_ s) log in
          f ← get_frame st h;
          match at_ f with
          | AtWait rest =>
              st ← suspend_at st h Running; '(t, w) ← run fuel st h (rest v);
              Ok (mkSystem (frames_ t) (next_ t) (<[i := (w, log_ t)]> (roots_ s)))
          | _ => Fault BuiltinUndefined
          end
      | _ => Ok s
      end
  end.
Definition acts (fuel : nat) (l : list action) (s : System) : res System := rfold (act fuel) l s.
End task.

Arguments System : clear implicits.
Arguments action : clear implicits.
Arguments body : clear implicits.
