(* ===== verification/TaskSpec.v ===== *)
(** TaskSpec: a program of coroutines that await tasks does what the same program
    does when every task is replaced by its body. *)
From S2P Require Import Prelude Task.

Section task.
Context {V E Ev : Type} (unit_v : V) (broken_promise : E).
Notation outcome := (@outcome V E).
Notation body := (body V E Ev).
Notation frame := (@frame V E Ev).
Notation St := (@St V E Ev).
Notation System := (System V E Ev).
Notation action := (action V E Ev).
Notation run := (run unit_v broken_promise).
Notation enter := (enter unit_v broken_promise).
Notation acts := (acts unit_v broken_promise).
Notation act := (act unit_v broken_promise).

(** ** The program without tasks *)

Inductive flat : Type := FRet (o : outcome) | FEmit (x : Ev) (rest : flat) | FWait (rest : V → flat).

(** What the awaiting expression gives when the callee ends with [o]. *)
Definition seen (k : kind) (u : use) (o : outcome) : outcome :=
  match u with
  | Unused | WhenReady => Val unit_v
  | MovedFrom => Exc broken_promise
  | Temporary | Moved | Assigned => match k, o with KVoid, Val _ => Val unit_v | _, _ => o end
  end.

(** The body in front of the program that goes on with its outcome. A task that
    nobody awaits does not run. *)
Fixpoint inline (b : body) (K : outcome → flat) : flat :=
  match b with
  | Return v => K (Val v)
  | Throw e => K (Exc e)
  | Emit x rest => FEmit x (inline rest K)
  | Call k u callee rest =>
      match u with
      | Unused | MovedFrom => inline (rest (seen k u (Val unit_v))) K
      | _ => inline callee (λ o, inline (rest (seen k u o)) K)
      end
  | Wait rest => FWait (λ v, inline (rest v) K)
  end.

(** Up to its end or to the next wait. *)
Fixpoint drain (f : flat) : list Ev * flat :=
  match f with FEmit x rest => let '(l, f') := drain rest in (x :: l, f') | _ => ([], f) end.

Definition spec_end (log : list Ev) (f : flat) : option (flat * list Ev) :=
  let '(l, f') := drain f in match f' with FRet (Exc _) => None | _ => Some (f', log ++ l) end.

(** [None] when the program is terminated by an exception. *)
Definition spec_act (a : action) (s : list (flat * list Ev)) : option (list (flat * list Ev)) :=
  match a with
  | Spawn b => r ← spec_end [] (inline b FRet); Some (s ++ [r])
  | Deliver i v =>
      match s !! i with
      | Some (FWait rest, log) => r ← spec_end log (rest v); Some (<[i := r]> s)
      | _ => Some s
      end
  end.
Fixpoint spec_acts (l : list action) (s : list (flat * list Ev)) : option (list (flat * list Ev)) :=
  match l with [] => Some s | a :: l => s ← spec_act a s; spec_acts l s end.

(** ** Stacks of coroutines *)

(** [h] and the coroutines that wait for it: [K] is the rest of the program. *)
Inductive above (fr : gmap nat frame) : nat → (outcome → flat) → list nat → Prop :=
  | above_root h a p : fr !! h = Some (mkFrame None p a) → above fr h FRet [h]
  | above_task h k a p kp pp locals w rest path K u :
      fr !! h = Some (mkFrame (Some k) (mkPromise (Some p) empty) a) →
      fr !! p = Some (mkFrame kp pp (AtCall locals (Some h) w rest)) →
      locals = [Some h] ∨ locals = [Some h; None] →
      (u, w) ∈ [(Temporary, true); (WhenReady, false)] →
      h ∉ path → above fr p K path →
      above fr h (λ o, inline (rest (seen k u o)) K) (h :: path).

Lemma above_head fr h K path : above fr h K path → ∃ path', path = h :: path'.
Proof. destruct 1; by eexists. Qed.

Lemma above_dom fr h K path x : above fr h K path → x ∈ path → is_Some (fr !! x).
Proof.
  intros Ha. revert x. induction Ha as [h a p Eq|h k a p kp pp locals w rest path K u E1 E2 _ _ _ _ IH]; intros x.
  - intros ->%list_elem_of_singleton. by eexists.
  - intros [->|Hin]%elem_of_cons; [by eexists|by apply IH].
Qed.

(** Only where the last frame of a stack is suspended may change. *)
Lemma above_ext fr fr' h K path f a : above fr h K path →
  fr !! h = Some f → fr' !! h = Some (mkFrame (kind_ f) (promise_ f) a) →
  (∀ x, x ∈ path → x ≠ h → fr' !! x = fr !! x) → above fr' h K path.
Proof.
  intros Ha. revert f a. induction Ha as [h a0 p E0|h k a0 p kp pp locals w rest path K u E1 E2 Hl Hu Hn Ha IH]; intros f a Hf Hf' Hx.
  - rewrite E0 in Hf. injection Hf as <-. by eapply above_root.
  - rewrite E1 in Hf. injection Hf as <-.
    assert (p ∈ path) as Hp by (destruct (above_head _ _ _ _ Ha) as [? ->]; by left).
    assert (p ≠ h) as Hne by (intros ->; by apply Hn).
    assert (fr' !! p = fr !! p) as Ep by (apply Hx; [by right|done]).
    eapply above_task; [exact Hf'|by rewrite Ep|done|done|done|]. eapply (IH _ (AtCall locals (Some h) w rest)); [exact E2|by rewrite Ep|].
    intros x Hin Hxp. apply Hx; [by right|]. intros ->. done.
Qed.

(** What happens to the frames between two moments at which a stack is looked
    at: those of other stacks stay, new ones have new numbers. *)
Record evolves (fr : gmap nat frame) (n : nat) (path : list nat) (fr' : gmap nat frame) (n' : nat) (path' : list nat) : Prop := {
  ev_next : n ≤ n';
  ev_bound : (∀ x, n ≤ x → fr !! x = None) → ∀ x, n' ≤ x → fr' !! x = None;
  ev_rest : ∀ x, x ∉ path' → fr' !! x = if decide (x ∈ path) then None else fr !! x;
  ev_path : ∀ x, x ∈ path' → x ∈ path ∨ n ≤ x;
}.

Lemma evolves_trans fr n path fr1 n1 path1 fr2 n2 path2 : (∀ x, n ≤ x → fr !! x = None) →
  evolves fr n path fr1 n1 path1 → evolves fr1 n1 path1 fr2 n2 path2 → evolves fr n path fr2 n2 path2.
Proof.
  intros Hb [N1 B1 R1 P1] [N2 B2 R2 P2]. split; [lia|naive_solver| |].
  - intros x Hx. rewrite (R2 x Hx). destruct (decide (x ∈ path1)) as [Hin|Hout].
    + destruct (decide (x ∈ path)); [done|]. destruct (P1 x Hin) as [|Hge]; [done|]. by rewrite Hb.
    + by apply R1.
  - intros x [Hin|Hge]%P2; [|right; lia]. destruct (P1 x Hin); [by left|right; lia].
Qed.

(** ** What a run reaches *)

Definition reaches (s : St) (h : nat) (b : body) (r : res (St * option nat)) : Prop := ∃ n, ∀ m, n ≤ m → run m s h b = r.

(** A coroutine that waits, with the program behind its wait. *)
Definition waits (fr : gmap nat frame) (h : nat) (g : V → flat) (path : list nat) : Prop :=
  ∃ rest K f, fr !! h = Some f ∧ at_ f = AtWait rest ∧ above fr h K path ∧ g = λ v, inline (rest v) K.

(** The run of [b] from [s] does what [F] does. *)
Definition does (s : St) (path : list nat) (h : nat) (b : body) (F : flat) : Prop :=
  let '(l, F') := drain F in
  match F' with
  | FRet (Exc _) => reaches s h b (Fault Terminated)
  | FRet (Val _) => ∃ fr' n', reaches s h b (Ok (mkSt fr' n' (log_ s ++ l), None)) ∧ evolves (frames_ s) (next_ s) path fr' n' []
  | FWait g => ∃ fr' n' h' path', reaches s h b (Ok (mkSt fr' n' (log_ s ++ l), Some h')) ∧
      evolves (frames_ s) (next_ s) path fr' n' path' ∧ waits fr' h' g path'
  | FEmit _ _ => False
  end.

(** A run that first gets to [s1] and [b1]. *)
Lemma does_step s path h b s1 path1 h1 b1 F : (∀ x, next_ s ≤ x → frames_ s !! x = None) → log_ s1 = log_ s →
  evolves (frames_ s) (next_ s) path (frames_ s1) (next_ s1) path1 →
  (∀ r, reaches s1 h1 b1 r → reaches s h b r) → does s1 path1 h1 b1 F → does s path h b F.
Proof.
  intros Hb Hlog Hev Hr. unfold does. destruct (drain F) as [l F']. rewrite Hlog. destruct F' as [[v|e]| |g]; [| |done|].
  - intros (fr' & n' & H1 & H2). exists fr', n'. split; [by apply Hr|by eapply evolves_trans].
  - by apply Hr.
  - intros (fr' & n' & h' & path' & H1 & H2 & H3). exists fr', n', h', path'. split_and!; [by apply Hr|by eapply evolves_trans|done].
Qed.

(** ** The steps *)

(** The coroutine [h] runs on top of the stack [path]. *)
Record running (s : St) (h : nat) (K : outcome → flat) (path : list nat) : Prop := {
  r_bound : ∀ x, next_ s ≤ x → frames_ s !! x = None;
  r_above : above (frames_ s) h K path;
  r_at : ∃ f, frames_ s !! h = Some f ∧ at_ f = Running;
}.

Lemma running_lt s h K path x : running s h K path → x ∈ path → x < next_ s.
Proof.
  intros [Hb Ha _] Hin. destruct (decide (x < next_ s)); [done|]. destruct (above_dom _ _ _ _ _ Ha Hin) as [f Hf]. rewrite Hb in Hf by lia. done.
Qed.

Lemma evolves_refl (s : St) path : (∀ x, x ∈ path → is_Some (frames_ s !! x)) → evolves (frames_ s) (next_ s) path (frames_ s) (next_ s) path.
Proof. intros Hp. split; [lia|done| |by left]. intros x Hx. by rewrite decide_False. Qed.

(** An update of a frame of the stack. *)
Lemma evolves_insert fr n path x f : x ∈ path → x < n → evolves fr n path (<[x := f]> fr) n path.
Proof.
  intros Hin Hlt. split; [lia| | |by left].
  - intros Hb y Hy. rewrite lookup_insert_ne by lia. by apply Hb.
  - intros y Hy. rewrite lookup_insert_ne by naive_solver. by rewrite decide_False.
Qed.

Lemma get_frame_some (s : St) h f : frames_ s !! h = Some f → get_frame s h = Ok f.
Proof. unfold get_frame. by intros ->. Qed.

(** The destruction of a task that is not awaited. *)
Lemma destroy_frame_spec n (s : St) h f : frames_ s !! h = Some f → match at_ f with AtStart _ | AtFinal => True | _ => False end →
  destroy (S n) s h = Ok (set_frames s (delete h (frames_ s))).
Proof. intros Hf Ha. cbn [destroy]. rewrite (get_frame_some _ _ _ Hf), bind_ok. by destruct (at_ f). Qed.

(** A new task on top of the stack, with the awaiting coroutine below. *)
Definition called (s : St) (h : nat) (k : kind) (locals : list task) (w : bool) (rest : outcome → body) (f : frame) (c : nat) (n : nat) : St :=
  mkSt (<[c := mkFrame (Some k) (mkPromise (Some h) empty) Running]>
         (<[h := mkFrame (kind_ f) (promise_ f) (AtCall locals (Some c) w rest)]> (frames_ s))) n (log_ s).

Lemma called_running s h K path k locals w rest f c n u : running s h K path → frames_ s !! h = Some f →
  next_ s ≤ c → c < n → locals = [Some c] ∨ locals = [Some c; None] → (u, w) ∈ [(Temporary, true); (WhenReady, false)] →
  running (called s h k locals w rest f c n) c (λ o, inline (rest (seen k u o)) K) (c :: path) ∧
  evolves (frames_ s) (next_ s) path (frames_ (called s h k locals w rest f c n)) n (c :: path).
Proof.
  intros HR Hf Hc Hn Hl Hu. pose proof HR as [Hb Ha _]. destruct (above_head _ _ _ _ Ha) as [path' Epath].
  assert (h ∈ path) as Hin by (rewrite Epath; by left). pose proof (running_lt _ _ _ _ _ HR Hin) as Hlt.
  assert (c ∉ path) as Hout by (intros Hin'; pose proof (running_lt _ _ _ _ _ HR Hin'); lia).
  split; [split|split]; cbn [called frames_ next_].
  - intros x Hx. rewrite !lookup_insert_ne by lia. apply Hb. lia.
  - eapply (above_task _ c k Running h); [by rewrite lookup_insert_eq|rewrite lookup_insert_ne by lia; by rewrite lookup_insert_eq|done|done|done|].
    eapply above_ext; [exact Ha|exact Hf|rewrite lookup_insert_ne by lia; by rewrite lookup_insert_eq|].
    intros x Hx Hne. rewrite lookup_insert_ne by naive_solver. by rewrite lookup_insert_ne.
  - eexists. split; [by rewrite lookup_insert_eq|done].
  - lia.
  - intros Hb' x Hx. rewrite !lookup_insert_ne by lia. apply Hb'. lia.
  - intros x Hx. rewrite lookup_insert_ne by (intros ->; apply Hx; by left).
    rewrite lookup_insert_ne by (intros ->; apply Hx; right; done). rewrite decide_False; [done|]. intros ?. apply Hx. by right.
  - intros x [->|?]%elem_of_cons; [right; lia|by left].
Qed.

(** The end of the body of a task, and the coroutine that goes on. *)
Definition next_run (n : nat) (s : St) (h : nat) (o : outcome) : res (St * option nat) :=
  '(s, c) ← finish s h o; match c with None => Ok (s, None) | Some c => '(s, b) ← enter n s c; run n s c b end.

Definition returned (s : St) (h p : nat) (kp : option kind) (pp : promise) (f : frame) : St :=
  mkSt (delete h (<[p := mkFrame kp pp Running]> (<[h := f]> (frames_ s)))) (next_ s) (log_ s).

Lemma next_run_task s h k a p kp pp locals w rest u o : frames_ s !! h = Some (mkFrame (Some k) (mkPromise (Some p) empty) a) →
  frames_ s !! p = Some (mkFrame kp pp (AtCall locals (Some h) w rest)) → p ≠ h →
  locals = [Some h] ∨ locals = [Some h; None] → (u, w) ∈ [(Temporary, true); (WhenReady, false)] →
  ∃ f, ∀ n, next_run (S n) s h o = run (S n) (returned s h p kp pp f) p (rest (seen k u o)).
Proof.
  intros Eh Ep Hne Hl Hu. eexists (mkFrame (Some k) _ AtFinal). intros n. unfold next_run, finish. rewrite (get_frame_some _ _ _ Eh), bind_ok. unfold finish_task. cbn [kind_ promise_].
  set (pr := match o with Val v => _ | Exc e => _ end). assert (m_continuation pr = Some p) as -> by (by destruct o). cbn [mbind res_bind].
  unfold enter, Task.enter, get_frame, suspend_at. cbn [set_frame set_frames frames_]. rewrite lookup_insert_ne by done. rewrite Ep. cbn [mbind res_bind at_].
  unfold get_frame. cbn [set_frame set_frames frames_]. rewrite lookup_insert_ne by done. rewrite Ep. cbn [mbind res_bind kind_ promise_].
  unfold end_await, await_resume, get_frame. cbn [set_frame set_frames frames_]. rewrite lookup_insert_ne by done. rewrite lookup_insert_eq. cbn [mbind res_bind kind_ promise_].
  assert (∀ s' : St, frames_ s' !! h = Some (mkFrame (Some k) pr AtFinal) →
    rfold (λ t s, destroy_task (S n) s t) locals s' = Ok (set_frames s' (delete h (frames_ s')))) as Hd.
  { intros s' Hs'. destruct Hl as [-> | ->]; cbn [rfold destroy_task]; rewrite (destroy_frame_spec n _ _ _ Hs') by done; done. }
  assert ((if w then result unit_v k pr else Ok (Val unit_v)) = Ok (seen k u o)) as ->.
  { apply elem_of_cons in Hu as [[= -> ->]|[[= -> ->]|[]%elem_of_nil]%elem_of_cons]; [|done]. unfold pr. destruct o, k; done. }
  rewrite bind_ok, Hd; [done|]. cbn. rewrite lookup_insert_ne by done. by rewrite lookup_insert_eq.
Qed.

Lemma insert_delete_fresh {A} (m : gmap nat A) c x : m !! c = None → delete c (<[c := x]> m) = m.
Proof. intros. by rewrite delete_insert_id. Qed.

Lemma run_call n (s : St) h k u callee rest : run (S n) s h (Call k u callee rest) =
  ('(s, e) ← use_task n (fst (get_return_object s k callee)) k u callee (Some (next_ s));
   match e with
   | None => run n s h (rest (Val unit_v))
   | Some (locals, t, w) =>
       ready ← await_ready s t;
       if ready : bool then '(s, o) ← end_await unit_v broken_promise n s locals t w; run n s h (rest o)
       else
         s ← suspend_at s h (AtCall locals t w rest);
         '(s, c) ← await_suspend s t h;
         '(s, b) ← enter n s c; run n s c b
   end).
Proof. done. Qed.

(** A task that is not started. *)
Lemma call_drops n (s : St) h k u callee rest : frames_ s !! next_ s = None → u = Unused ∨ u = MovedFrom →
  run (S (S n)) s h (Call k u callee rest) = run (S n) (mkSt (frames_ s) (S (next_ s)) (log_ s)) h (rest (seen k u (Val unit_v))).
Proof.
  intros Hc Hu. cbn [Task.run]. unfold get_return_object. cbn [fst snd].
  set (s1 := mkSt _ _ _). assert (destroy (S n) s1 (next_ s) = Ok (mkSt (frames_ s) (S (next_ s)) (log_ s))) as Hd.
  { rewrite (destroy_frame_spec n s1 (next_ s) (mkFrame (Some k) new_promise (AtStart callee))); [|apply lookup_insert_eq|done].
    unfold set_frames. cbn [s1 frames_ next_ log_]. by rewrite insert_delete_fresh. }
  destruct Hu as [-> | ->]; cbn [use_task move_task destroy_task]; [by rewrite Hd|].
  rewrite bind_ok. cbn [await_ready is_ready]. rewrite bind_ok. unfold end_await, await_resume. rewrite bind_ok. cbn [rfold destroy_task]. by rewrite Hd.
Qed.

(** A task that is awaited. *)
Lemma start_task n (s : St) h k callee rest f c locals w : frames_ s !! h = Some f → c ≠ h →
  frames_ s !! c = Some (mkFrame (Some k) new_promise (AtStart callee)) →
  (ready ← await_ready s (Some c);
   if ready : bool then '(s, o) ← end_await unit_v broken_promise (S n) s locals (Some c) w; run (S n) s h (rest o)
   else s ← suspend_at s h (AtCall locals (Some c) w rest); '(s, c) ← await_suspend s (Some c) h; '(s, b) ← enter (S n) s c; run (S n) s c b) =
  run (S n) (set_frame (set_frame s h (mkFrame (kind_ f) (promise_ f) (AtCall locals (Some c) w rest))) c (mkFrame (Some k) (mkPromise (Some h) empty) Running)) c callee.
Proof.
  intros Hh Hne Hc. unfold await_ready, is_ready, suspend_at, await_suspend, Task.enter. rewrite (get_frame_some _ _ _ Hc), bind_ok. cbn [is_done at_].
  rewrite bind_ok, (get_frame_some _ _ _ Hh), !bind_ok. unfold get_frame, set_frame, set_frames. cbn [frames_ next_ log_].
  rewrite lookup_insert_ne by done. rewrite Hc. cbn [mbind res_bind frames_ kind_ promise_ at_].
  rewrite lookup_insert_eq. cbn [mbind res_bind at_]. unfold suspend_at, get_frame, set_frame, set_frames. cbn [frames_]. rewrite lookup_insert_eq. cbn.
  by rewrite insert_insert_eq.
Qed.

Lemma call_awaits (s : St) h k u callee rest f : (∀ x, next_ s ≤ x → frames_ s !! x = None) → frames_ s !! h = Some f →
  u ≠ Unused → u ≠ MovedFrom → ∃ c n' locals w u', next_ s ≤ c ∧ c < n' ∧ (locals = [Some c] ∨ locals = [Some c; None]) ∧
    (u', w) ∈ [(Temporary, true); (WhenReady, false)] ∧ (∀ K : outcome → flat, (λ o, K (seen k u o)) = λ o, K (seen k u' o)) ∧
    ∀ n, run (S (S n)) s h (Call k u callee rest) = run (S n) (called s h k locals w rest f c n') c callee.
Proof.
  intros Hb Hh Hu1 Hu2. assert (h < next_ s) as Hlt by (destruct (decide (h < next_ s)); [done|rewrite Hb in Hh by lia; done]).
  assert (∀ w locals, (locals = [Some (next_ s)] ∨ locals = [Some (next_ s); None]) →
    ∀ n, use_task (S n) (fst (get_return_object s k callee)) k u callee (Some (next_ s)) = Ok (fst (get_return_object s k callee), Some (locals, Some (next_ s), w)) →
    run (S (S n)) s h (Call k u callee rest) = run (S n) (called s h k locals w rest f (next_ s) (S (next_ s))) (next_ s) callee) as Hsimple.
  { intros w locals Hl n Huse. rewrite run_call, Huse, bind_ok. rewrite (start_task n _ h k callee rest f); [|cbn; by rewrite lookup_insert_ne by lia|lia|cbn; by rewrite lookup_insert_eq].
    f_equal. unfold called, set_frame, set_frames, get_return_object. cbn [fst frames_ next_ log_]. f_equal. rewrite (insert_insert_ne _ h (next_ s)) by lia. by rewrite insert_insert_eq. }
  destruct u; try done.
  - exists (next_ s), (S (next_ s)), [Some (next_ s)], true, Temporary. split_and!; [lia|lia|by left|set_solver|done|]. intros n. apply Hsimple; [by left|done].
  - exists (next_ s), (S (next_ s)), [Some (next_ s); None], true, Temporary. split_and!; [lia|lia|by right|set_solver|done|]. intros n. apply Hsimple; [by right|done].
  - exists (S (next_ s)), (S (S (next_ s))), [Some (S (next_ s))], true, Temporary. split_and!; [lia|lia|by left|set_solver|done|]. intros n.
    rewrite run_call. unfold use_task, get_return_object, assign_task. cbn [fst frames_ next_ log_ destroy_task].
    rewrite (destroy_frame_spec n _ (next_ s) (mkFrame (Some k) new_promise (AtStart callee))); [|cbn; rewrite lookup_insert_ne by lia; apply lookup_insert_eq|done].
    rewrite !bind_ok. cbn [destroy_task]. rewrite !bind_ok. rewrite (start_task n _ h k callee rest f).
    + f_equal. unfold called, set_frame, set_frames, get_return_object. cbn [fst frames_ next_ log_]. f_equal. rewrite (delete_insert_ne _ (next_ s)) by lia. rewrite insert_delete_fresh by (by apply Hb).
      rewrite (insert_insert_ne _ h (S (next_ s))) by lia. by rewrite insert_insert_eq.
    + cbn. rewrite lookup_delete_ne, !lookup_insert_ne by lia. done.
    + lia.
    + cbn. rewrite lookup_delete_ne by lia. by rewrite lookup_insert_eq.
  - exists (next_ s), (S (next_ s)), [Some (next_ s)], false, WhenReady. split_and!; [lia|lia|by left|set_solver|done|]. intros n. apply Hsimple; [by left|done].
Qed.

(** ** The runs *)

(** The stack below [h] is as in [fr], and [h] itself awaited by the same. *)
Definition agree (fr fr' : gmap nat frame) (h : nat) (path : list nat) : Prop :=
  (∀ x, x ∈ path → x ≠ h → fr' !! x = fr !! x) ∧ ∃ f f', fr !! h = Some f ∧ fr' !! h = Some f' ∧ kind_ f' = kind_ f ∧ promise_ f' = promise_ f.

(** [h] runs above a stack that is as in [fr]. *)
Record on_top (fr : gmap nat frame) (s : St) (h : nat) (path : list nat) : Prop := {
  t_bound : ∀ x, next_ s ≤ x → frames_ s !! x = None;
  t_at : ∃ f, frames_ s !! h = Some f ∧ at_ f = Running;
  t_agree : agree fr (frames_ s) h path;
}.

Lemma agree_above fr fr' h K path : above fr h K path → agree fr fr' h path → above fr' h K path.
Proof. intros Ha [Hx (f & f' & E1 & E2 & E3 & E4)]. apply (above_ext fr fr' h K path f (at_ f')); [done|done| |done]. rewrite E2, <- E3, <- E4. by destruct f'. Qed.

Lemma on_top_running fr s h K path : above fr h K path → on_top fr s h path → running s h K path.
Proof. intros Ha [Hb Hr Hag]. split; [done|by eapply agree_above|done]. Qed.

Definition ret (o : outcome) : body := match o with Val v => Return v | Exc e => Throw e end.

Lemma run_ret n (s : St) h o : run (S n) s h (ret o) = next_run n s h o.
Proof. by destruct o. Qed.

(** Whenever [h] ends with [o], the program goes on with [K o]. *)
Definition completes (fr : gmap nat frame) (h : nat) (K : outcome → flat) (path : list nat) : Prop :=
  ∀ s o, on_top fr s h path → does s path h (ret o) (K o).

Definition runs_to (fr : gmap nat frame) (h : nat) (K : outcome → flat) (path : list nat) (b : body) : Prop :=
  ∀ s, on_top fr s h path → does s path h b (inline b K).

Lemma reaches_step s h b s1 h1 b1 r : (∀ n, run (S (S n)) s h b = run (S n) s1 h1 b1) → reaches s1 h1 b1 r → reaches s h b r.
Proof. intros Hs (n & Hn). exists (S (S n)). intros m Hm. destruct m as [|[|m]]; [lia|lia|]. rewrite Hs. apply Hn. lia. Qed.

Lemma root_completes fr h a p : fr !! h = Some (mkFrame None p a) → completes fr h FRet [h].
Proof.
  intros Hh s o HT. pose proof (on_top_running _ _ _ _ _ (above_root _ _ _ _ Hh) HT) as HR. destruct HT as [Hb _ [_ (f & f' & E1 & E2 & E3 & _)]].
  rewrite Hh in E1. injection E1 as <-. unfold does. cbn [drain].
  assert (∀ n, run (S n) s h (ret o) = match o with Val _ => Ok (set_frames s (delete h (frames_ s)), None) | Exc _ => Fault Terminated end) as Hr.
  { intros n. rewrite run_ret. unfold next_run, finish. rewrite (get_frame_some _ _ _ E2), bind_ok, E3. by destruct o. }
  destruct o as [v|e].
  - exists (delete h (frames_ s)), (next_ s). split.
    + exists 1. intros [|m] Hm; [lia|]. rewrite Hr, app_nil_r. done.
    + split; [lia| | |by intros x ?%elem_of_nil].
      * intros _ x Hx. rewrite lookup_delete_None. right. by apply Hb.
      * intros x _. case_decide as Hin; [apply list_elem_of_singleton in Hin as ->; apply lookup_delete_eq|].
        rewrite lookup_delete_ne; [done|]. intros ->. apply Hin. by left.
  - exists 1. intros [|m] Hm; [lia|]. by rewrite Hr.
Qed.

(** A task ends, and the coroutine below it goes on. *)
Lemma task_completes fr h k a p kp pp locals w rest path K u : fr !! h = Some (mkFrame (Some k) (mkPromise (Some p) empty) a) →
  fr !! p = Some (mkFrame kp pp (AtCall locals (Some h) w rest)) → locals = [Some h] ∨ locals = [Some h; None] →
  (u, w) ∈ [(Temporary, true); (WhenReady, false)] → h ∉ path → above fr p K path →
  (∀ o, runs_to fr p K path (rest (seen k u o))) → completes fr h (λ o, inline (rest (seen k u o)) K) (h :: path).
Proof.
  intros Eh Ep Hl Hu Hn Ha Hrest s o HT. pose proof (above_task _ _ _ _ _ _ _ _ _ _ _ _ _ Eh Ep Hl Hu Hn Ha) as Ha'.
  pose proof (on_top_running _ _ _ _ _ Ha' HT) as HR. destruct HT as [Hb (f0 & Ef0 & _) [Hx (f & f' & E1 & E2 & E3 & E4)]].
  rewrite Eh in E1. injection E1 as <-. cbn in E3, E4. destruct f' as [k' p' a']. cbn in E3, E4. subst k' p'.
  destruct (above_head _ _ _ _ Ha) as [path' Epath].
  assert (p ∈ path) as Hp by (rewrite Epath; by left). assert (p ≠ h) as Hne by (intros ->; done).
  assert (frames_ s !! p = Some (mkFrame kp pp (AtCall locals (Some h) w rest))) as Ep' by (rewrite Hx; [done|by right|done]).
  destruct (next_run_task s h k a' p kp pp locals w rest u o E2 Ep' Hne Hl Hu) as (fin & Hfin).
  assert (p < next_ s) as Hlt by (eapply running_lt; [exact HR|by right]).
  apply (does_step s (h :: path) h (ret o) (returned s h p kp pp fin) path p (rest (seen k u o))); [done|done| | |].
  - split; cbn [returned frames_ next_]; [lia| | |].
    + intros _ x Hx'. rewrite lookup_delete_None. destruct (decide (x = h)) as [->|]; [by left|right]. rewrite !lookup_insert_ne by (done || lia). by apply Hb.
    + intros x Hx'. destruct (decide (x = h)) as [->|Hxh]; [rewrite decide_True by (by left); apply lookup_delete_eq|].
      rewrite lookup_delete_ne by done. rewrite lookup_insert_ne by (intros ->; done). rewrite lookup_insert_ne by done.
      rewrite decide_False; [done|]. intros [?|?]%elem_of_cons; done.
    + intros x Hx'. left. by right.
  - intros r. apply reaches_step. intros n. rewrite run_ret. apply Hfin.
  - apply Hrest. split; cbn [returned frames_ next_].
    + intros x Hx'. rewrite lookup_delete_None. destruct (decide (x = h)) as [->|]; [by left|right]. rewrite !lookup_insert_ne by (done || lia). by apply Hb.
    + exists (mkFrame kp pp Running). split; [|done]. rewrite lookup_delete_ne by done. by rewrite lookup_insert_eq.
    + split.
      * intros x Hin Hxp. assert (x ≠ h) by (intros ->; done). rewrite lookup_delete_ne, !lookup_insert_ne by done. apply Hx; [by right|done].
      * eexists _, _. split; [exact Ep|]. rewrite lookup_delete_ne by done. by rewrite lookup_insert_eq.
Qed.

Lemma does_emit (s : St) path h x rest F : does (emit s x) path h rest F → does s path h (Emit x rest) (FEmit x F).
Proof.
  assert (∀ r, reaches (emit s x) h rest r → reaches s h (Emit x rest) r) as Hr.
  { intros r (n & Hn). exists (S n). intros [|m] Hm; [lia|]. apply Hn. lia. }
  unfold does. cbn [drain]. destruct (drain F) as [l F']. destruct F' as [[v|e]| |g]; [| |done|].
  - intros (fr' & n' & H1 & H2). exists fr', n'. split; [|done]. apply Hr in H1. cbn in H1. by rewrite <- app_assoc in H1.
  - apply Hr.
  - intros (fr' & n' & h' & path' & H1 & H2 & H3). exists fr', n', h', path'. split_and!; [|done|done]. apply Hr in H1. cbn in H1. by rewrite <- app_assoc in H1.
Qed.

Lemma does_wait fr s h K path rest : above fr h K path → on_top fr s h path → does s path h (Wait rest) (FWait (λ v, inline (rest v) K)).
Proof.
  intros Ha HT. pose proof (on_top_running _ _ _ _ _ Ha HT) as HR. pose proof HT as [Hb (f & Ef & _) _]. unfold does. cbn [drain].
  destruct (above_head _ _ _ _ Ha) as [path' Epath]. assert (h ∈ path) as Hin by (rewrite Epath; by left).
  exists (<[h := mkFrame (kind_ f) (promise_ f) (AtWait rest)]> (frames_ s)), (next_ s), h, path. split_and!.
  - exists 1. intros [|m] Hm; [lia|]. cbn [Task.run]. unfold suspend_at. rewrite (get_frame_some _ _ _ Ef), bind_ok. by rewrite app_nil_r.
  - apply evolves_insert; [done|]. by eapply running_lt.
  - exists rest, K, (mkFrame (kind_ f) (promise_ f) (AtWait rest)). split_and!; [by rewrite lookup_insert_eq|done| |done].
    eapply above_ext; [by eapply r_above|exact Ef|by rewrite lookup_insert_eq|]. intros x _ Hx. by rewrite lookup_insert_ne.
Qed.

Lemma agree_trans fr fr1 fr2 h path : agree fr fr1 h path → agree fr1 fr2 h path → agree fr fr2 h path.
Proof.
  intros [H1 (f & f1 & E1 & E2 & E3 & E4)] [H2 (f1' & f2 & E1' & E2' & E3' & E4')]. split.
  - intros x Hx Hne. rewrite H2 by done. by apply H1.
  - rewrite E2 in E1'. injection E1' as <-. exists f, f2. split_and!; [done|done|congruence|congruence].
Qed.

(** A task that is awaited runs on top of the awaiting coroutine. *)
Lemma call_runs fr s h K path k u callee rest : above fr h K path → completes fr h K path → on_top fr s h path → u ≠ Unused → u ≠ MovedFrom →
  (∀ fr h K path, above fr h K path → completes fr h K path → runs_to fr h K path callee) →
  (∀ o fr h K path, above fr h K path → completes fr h K path → runs_to fr h K path (rest o)) →
  does s path h (Call k u callee rest) (inline (Call k u callee rest) K).
Proof.
  intros Ha HC HT Hu1 Hu2 IHc IHr. pose proof (on_top_running _ _ _ _ _ Ha HT) as HR. pose proof HT as [Hb (f & Ef & Hf) Hag].
  destruct (call_awaits s h k u callee rest f Hb Ef Hu1 Hu2) as (c & n' & locals & w & u' & Hc & Hn' & Hl & Hu' & Hseen & Hrun).
  assert (inline (Call k u callee rest) K = inline callee (λ o, inline (rest (seen k u o)) K)) as -> by (by destruct u).
  rewrite (Hseen (λ o, inline (rest o) K)).
  set (s1 := called s h k locals w rest f c n'). destruct (called_running s h K path k locals w rest f c n' u' HR Ef Hc Hn' Hl Hu') as [HR1 Hev]. fold s1 in HR1, Hev.
  apply (does_step s path h _ s1 (c :: path) c callee); [done|done|done|by intros r; apply reaches_step|].
  destruct (above_head _ _ _ _ Ha) as [path' Epath]. assert (h ∈ path) as Hin by (rewrite Epath; by left).
  pose proof (running_lt _ _ _ _ _ HR Hin) as Hlt. assert (c ∉ path) as Hout by (intros Hin'; pose proof (running_lt _ _ _ _ _ HR Hin'); lia).
  assert (agree fr (frames_ s1) h path) as Hag1.
  { eapply agree_trans; [exact Hag|]. split.
    - intros x Hx Hne. cbn. rewrite !lookup_insert_ne by naive_solver. done.
    - exists f, (mkFrame (kind_ f) (promise_ f) (AtCall locals (Some c) w rest)). split_and!; [done| |done|done].
      cbn. rewrite lookup_insert_ne by lia. by rewrite lookup_insert_eq. }
  apply (IHc (frames_ s1)); [by destruct HR1| |].
  - eapply task_completes; [cbn; by rewrite lookup_insert_eq|cbn; rewrite lookup_insert_ne by lia; by rewrite lookup_insert_eq|done|done|done|by eapply agree_above|].
    intros o s2 [Hb2 Hr2 Hag2]. apply (IHr _ fr); [done|done|]. split; [done|done|by eapply agree_trans].
  - split; [by destruct HR1|by destruct HR1|]. split; [done|]. eexists _, _. split_and!; [cbn; by rewrite lookup_insert_eq|cbn; by rewrite lookup_insert_eq|done|done].
Qed.

(** The run of a body, whatever the stack below it does when it ends. *)
Lemma body_runs b : ∀ fr h K path, above fr h K path → completes fr h K path → runs_to fr h K path b.
Proof.
  induction b as [v|e|x rest IH|k u callee IHc rest IHr|rest IH]; intros fr h K path Ha HC s HT; cbn [inline].
  - by apply HC.
  - by apply HC.
  - apply does_emit, (IH fr); [done|done|]. by destruct HT.
  - pose proof (on_top_running _ _ _ _ _ Ha HT) as HR. pose proof HT as [Hb (f & Ef & Hf) Hag].
    destruct (decide (u = Unused ∨ u = MovedFrom)) as [Hu|Hu].
    + assert (inline (Call k u callee rest) K = inline (rest (seen k u (Val unit_v))) K) as Ei by (by destruct Hu as [-> | ->]).
      cbn [inline] in Ei. rewrite Ei. eapply (does_step s path h _ (mkSt (frames_ s) (S (next_ s)) (log_ s))); [done|done| | |].
      * split; cbn [frames_ next_]; [lia|intros _ x Hx; apply Hb; lia| |by left]. intros x Hx. by rewrite decide_False.
      * intros r. apply reaches_step. intros n. apply call_drops; [apply Hb; lia|done].
      * apply (IHr _ fr); [done|done|]. split; cbn [frames_ next_]; [intros x Hx; apply Hb; lia|by exists f|done].
    + apply Decidable.not_or in Hu as [Hu1 Hu2]. by apply (call_runs fr).
  - by eapply does_wait.
Qed.

Lemma all_complete fr h K path : above fr h K path → completes fr h K path.
Proof.
  induction 1 as [h a p Eh|h k a p kp pp locals w rest path K u E1 E2 Hl Hu Hn Ha IH]; [by eapply root_completes|].
  eapply task_completes; [done..|]. intros o. by apply body_runs.
Qed.

(** A coroutine that runs on top of a stack does what the program without tasks
    does. *)
Lemma run_does s h K path b : running s h K path → does s path h b (inline b K).
Proof.
  intros [Hb Ha Hr]. apply (body_runs b (frames_ s)); [done|by apply all_complete|]. split; [done|done|]. split; [done|].
  destruct Hr as (f & Ef & _). by exists f, f.
Qed.

(** ** Many stacks *)

Definition slot : Type := flat * list Ev * list nat.

Definition root_ok (fr : gmap nat frame) (r : option nat * list Ev) (t : slot) : Prop :=
  snd r = snd (fst t) ∧
  match fst (fst t) with
  | FWait g => ∃ h, fst r = Some h ∧ waits fr h g (snd t)
  | FRet (Val _) => fst r = None ∧ snd t = []
  | _ => False
  end.

Definition nums (L : list slot) : list nat := L ≫= snd.

(** Every frame belongs to one stack. *)
Record inv (s : System) (L : list slot) : Prop := {
  i_bound : ∀ x, fresh_ s ≤ x → heap_ s !! x = None;
  i_roots : Forall2 (root_ok (heap_ s)) (roots_ s) L;
  i_nodup : NoDup (nums L);
  i_cover : ∀ x, x ∉ nums L → heap_ s !! x = None;
  i_live : ∀ x, x ∈ nums L → is_Some (heap_ s !! x);
}.

Lemma above_nodup fr h K path : above fr h K path → NoDup path.
Proof. induction 1; [apply NoDup_singleton|by apply NoDup_cons]. Qed.

Lemma above_same fr fr' h K path : above fr h K path → (∀ x, x ∈ path → fr' !! x = fr !! x) → above fr' h K path.
Proof.
  intros Ha Hx. destruct (above_head _ _ _ _ Ha) as [path' ->]. destruct (above_dom _ _ _ _ h Ha ltac:(by left)) as [f Hf].
  apply (above_ext fr fr' h K (h :: path') f (at_ f)); [done|done| |by intros x Hin _; apply Hx]. rewrite Hx by (by left). rewrite Hf. by destruct f.
Qed.

Lemma root_ok_same fr fr' r t : root_ok fr r t → (∀ x, x ∈ snd t → fr' !! x = fr !! x) → root_ok fr' r t.
Proof.
  intros [H1 H2] Hx. split; [done|]. destruct (fst (fst t)) as [o| |g]; [done|done|]. destruct H2 as (h & E1 & rest & K & f & E2 & E3 & Ha & E4).
  exists h. split; [done|]. exists rest, K, f. split_and!; [|done|by eapply above_same|done].
  rewrite Hx; [done|]. destruct (above_head _ _ _ _ Ha) as [? ->]. by left.
Qed.

Lemma root_ok_nodup fr r t : root_ok fr r t → NoDup (snd t) ∧ ∀ x, x ∈ snd t → is_Some (fr !! x).
Proof.
  intros [_ H2]. destruct (fst (fst t)) as [[v|e]| |g]; [|done|done|].
  - destruct H2 as [_ ->]. split; [apply NoDup_nil_2|by intros x ?%elem_of_nil].
  - destruct H2 as (h & _ & rest & K & f & _ & _ & Ha & _). split; [by eapply above_nodup|]. intros x. by eapply above_dom.
Qed.

Lemma roots_same fr fr' rs L : Forall2 (root_ok fr) rs L → (∀ x, x ∈ nums L → fr' !! x = fr !! x) → Forall2 (root_ok fr') rs L.
Proof.
  induction 1 as [|r t rs L Hr _ IH]; intros Hx; constructor.
  - eapply root_ok_same; [done|]. intros x Hin. apply Hx. cbn. apply elem_of_app. by left.
  - apply IH. intros x Hin. apply Hx. cbn. apply elem_of_app. by right.
Qed.

Lemma nums_app L1 L2 : nums (L1 ++ L2) = nums L1 ++ nums L2.
Proof. apply bind_app. Qed.

(** A stack runs, among others. *)
Lemma inv_replace fr n path fr' n' r1 r2 r L1 L2 t : (∀ x, n ≤ x → fr !! x = None) →
  Forall2 (root_ok fr) r1 L1 → Forall2 (root_ok fr) r2 L2 → NoDup (nums L1 ++ path ++ nums L2) →
  (∀ x, x ∉ nums L1 ++ path ++ nums L2 → fr !! x = None) → (∀ x, x ∈ nums L1 ++ nums L2 → is_Some (fr !! x)) →
  evolves fr n path fr' n' (snd t) → root_ok fr' r t → inv (mkSystem fr' n' (r1 ++ r :: r2)) (L1 ++ t :: L2).
Proof.
  intros Hb H1 H2 Hnd Hcov Hlive [N B R P] Hr. destruct (root_ok_nodup _ _ _ Hr) as [Htn Htl].
  assert (∀ x, x ∈ nums L1 ++ nums L2 → x ∉ path ∧ x ∉ snd t) as Hout.
  { intros x Hx. assert (x ∉ path) as Hp.
    { intros Hp. apply elem_of_app in Hx. rewrite !NoDup_app in Hnd. set_solver. }
    split; [done|]. intros Hin. destruct (P x Hin) as [|Hge]; [done|]. destruct (Hlive x Hx) as [f Hf]. rewrite Hb in Hf by done. done. }
  assert (∀ x, x ∈ nums L1 ++ nums L2 → fr' !! x = fr !! x) as Hsame.
  { intros x Hx. destruct (Hout x Hx). rewrite R by done. by rewrite decide_False. }
  assert (∀ L, nums (t :: L) = snd t ++ nums L) as Hc by done.
  split; cbn [heap_ fresh_ roots_]; rewrite ?nums_app, ?Hc.
  - by apply B.
  - apply Forall2_app; [|constructor; [done|]]; (eapply roots_same; [done|]); intros x Hx; apply Hsame; set_solver.
  - rewrite !NoDup_app in Hnd |- *. destruct Hnd as (Hn1 & Hd1 & Hn0 & Hd0 & Hn2). split_and!; [done| |done| |done].
    + intros x Hx [Hin|Hin]%elem_of_app; [|apply (Hd1 x Hx); set_solver]. destruct (Hout x) as [_ ?]; [set_solver|done].
    + intros x Hin Hx. destruct (Hout x) as [_ ?]; [set_solver|done].
  - intros x Hx. rewrite R by set_solver. case_decide; [done|]. apply Hcov. set_solver.
  - intros x Hx. destruct (decide (x ∈ snd t)) as [Hin|Hn']; [by apply Htl|]. rewrite Hsame by set_solver. apply Hlive. set_solver.
Qed.

(** What the run of a stack gives. *)
Lemma does_end (s : St) path h b F : does s path h b F →
  match spec_end (log_ s) F with
  | Some (F', log') => ∃ fr' n' w path', reaches s h b (Ok (mkSt fr' n' log', w)) ∧
      evolves (frames_ s) (next_ s) path fr' n' path' ∧ root_ok fr' (w, log') ((F', log'), path')
  | None => reaches s h b (Fault Terminated)
  end.
Proof.
  unfold does, spec_end. destruct (drain F) as [l F']. destruct F' as [[v|e]| |g]; [| |done|].
  - intros (fr' & n' & H1 & H2). exists fr', n', None, []. split_and!; [done|done|]. by split.
  - done.
  - intros (fr' & n' & h' & path' & H1 & H2 & H3). exists fr', n', (Some h'), path'. split_and!; [done|done|]. split; [done|]. by exists h'.
Qed.

(** A spawned coroutine, and one that is resumed with a value. *)
Lemma spawn_spec b (s : System) L : inv s L →
  match spec_end [] (inline b FRet) with
  | Some r => ∃ s' p, (∃ n, ∀ m, n ≤ m → act m (Spawn b) s = Ok s') ∧ inv s' (L ++ [(r, p)])
  | None => ∃ n, ∀ m, n ≤ m → act m (Spawn b) s = Fault Terminated
  end.
Proof.
  intros [Hb Hr Hnd Hc Hl]. set (h := fresh_ s). set (s0 := mkSt (<[h := mkFrame None new_promise Running]> (heap_ s)) (S h) [] : St).
  assert (h ∉ nums L) as Hh by (intros [f Hf]%Hl; rewrite Hb in Hf by done; done).
  assert (running s0 h FRet [h]) as HR.
  { split; cbn [s0 frames_ next_].
    - intros x Hx. rewrite lookup_insert_ne by lia. apply Hb. lia.
    - eapply above_root. apply lookup_insert_eq.
    - eexists. split; [apply lookup_insert_eq|done]. }
  pose proof (does_end _ _ _ _ _ (run_does _ _ _ _ b HR)) as Hd. cbn [s0 log_] in Hd.
  destruct (spec_end [] (inline b FRet)) as [[F' log']|].
  - destruct Hd as (fr' & n' & w & path' & (n & Hn) & Hev & Hok). exists (mkSystem fr' n' (roots_ s ++ [(w, log')])), path'. split.
    + exists n. intros m Hm. unfold Task.act. fold h. fold s0. by rewrite (Hn m Hm).
    + apply (inv_replace (frames_ s0) (S h) [h]); [by destruct HR| |constructor| | | |done|done].
      * eapply roots_same; [done|]. intros x Hx. cbn. rewrite lookup_insert_ne; [done|]. by intros ->.
      * cbn. apply NoDup_app. split_and!; [done| |apply NoDup_singleton]. intros x Hx ->%list_elem_of_singleton. done.
      * intros x Hx. cbn. rewrite lookup_insert_ne by set_solver. apply Hc. set_solver.
      * intros x Hx. cbn. rewrite app_nil_r in Hx. rewrite lookup_insert_ne by (intros ->; done). by apply Hl.
  - destruct Hd as (n & Hn). exists n. intros m Hm. unfold Task.act. fold h. fold s0. by rewrite (Hn m Hm).
Qed.

Lemma forall2_middle {A B} (P : A → B → Prop) l L i x t : Forall2 P l L → l !! i = Some x → L !! i = Some t →
  ∃ l1 l2 L1 L2, l = l1 ++ x :: l2 ∧ L = L1 ++ t :: L2 ∧ length l1 = i ∧ length L1 = i ∧ Forall2 P l1 L1 ∧ P x t ∧ Forall2 P l2 L2.
Proof.
  intros HF Hx Ht. exists (take i l), (drop (S i) l), (take i L), (drop (S i) L).
  pose proof (lookup_lt_Some _ _ _ Hx). pose proof (lookup_lt_Some _ _ _ Ht). rewrite !take_drop_middle by done. rewrite !length_take.
  split_and!; [done|done|lia|lia|by apply Forall2_take|by eapply Forall2_lookup_lr|by apply Forall2_drop].
Qed.

Lemma insert_middle {A} (l1 : list A) x y l2 : <[length l1 := y]> (l1 ++ x :: l2) = l1 ++ y :: l2.
Proof. by induction l1; simpl; [|f_equal]. Qed.

Lemma deliver_spec i v (s : System) L : inv s L →
  match spec_act (Deliver i v) L.*1 with
  | Some sp => ∃ s' L', (∃ n, ∀ m, n ≤ m → act m (Deliver i v) s = Ok s') ∧ inv s' L' ∧ L'.*1 = sp
  | None => ∃ n, ∀ m, n ≤ m → act m (Deliver i v) s = Fault Terminated
  end.
Proof.
  intros HI. pose proof HI as [Hb Hr Hnd Hc Hl]. cbn [spec_act]. assert (L.*1 !! i = fst <$> (L !! i)) as -> by apply list_lookup_fmap. destruct (L !! i) as [[[F log] path]|] eqn:Et.
  2:{ cbn -[Task.act]. exists s, L. split_and!; [|done|done]. exists 0. intros m _. cbn [Task.act]. apply Forall2_length in Hr.
      apply lookup_ge_None in Et. rewrite (lookup_ge_None_2 (roots_ s)); [done|unfold slot in *; lia]. }
  cbn [fmap option_fmap option_map fst]. destruct (Forall2_lookup_r _ _ _ _ _ Hr Et) as ([w log0] & Er & _).
  destruct (forall2_middle _ _ _ _ _ _ Hr Er Et) as (r1 & r2 & L1 & L2 & Er' & EL & Hlr & HlL & H1 & [Elog Hst] & H2). cbn in Elog, Hst. subst log0.
  destruct F as [[v0|e]| |g]; [|done|done|].
  - destruct Hst as [-> _]. exists s, L. split_and!; [|done|done]. exists 0. intros m _. cbn [Task.act]. by rewrite Er.
  - destruct Hst as (h & -> & rest & K & f & Ef & Hat & Ha & ->).
    set (s0 := mkSt (<[h := mkFrame (kind_ f) (promise_ f) Running]> (heap_ s)) (fresh_ s) log : St).
    destruct (above_head _ _ _ _ Ha) as [path0 Ep]. assert (h ∈ path) as Hin by (rewrite Ep; by left).
    assert (nums L = nums L1 ++ path ++ nums L2) as En by (rewrite EL, nums_app; done).
    assert (h < fresh_ s) as Hlt by (destruct (decide (h < fresh_ s)); [done|rewrite Hb in Ef by lia; done]).
    assert (running s0 h K path) as HR.
    { split; cbn [s0 frames_ next_].
      - intros x Hx. rewrite lookup_insert_ne by lia. by apply Hb.
      - eapply above_ext; [exact Ha|exact Ef|by rewrite lookup_insert_eq|]. intros x _ Hx. by rewrite lookup_insert_ne.
      - eexists. split; [apply lookup_insert_eq|done]. }
    assert (∀ m, act m (Deliver i v) s = ('(t, w) ← run m s0 h (rest v); Ok (mkSystem (frames_ t) (next_ t) (<[i := (w, log_ t)]> (roots_ s))))) as Hact.
    { intros m. cbn [Task.act]. rewrite Er. unfold suspend_at, get_frame, set_frame, set_frames. cbn [frames_ next_ log_]. rewrite Ef. cbn [mbind res_bind]. by rewrite Hat. }
    pose proof (does_end _ _ _ _ _ (run_does _ _ _ _ (rest v) HR)) as Hd. cbn [s0 log_] in Hd.
    destruct (spec_end log (inline (rest v) K)) as [[F' log']|].
    + destruct Hd as (fr' & n' & w' & path' & (n & Hn) & Hev & Hok).
      exists (mkSystem fr' n' (<[i := (w', log')]> (roots_ s))), (<[i := ((F', log'), path')]> L). split_and!.
      * exists n. intros m Hm. by rewrite Hact, (Hn m Hm).
      * assert (<[i := (w', log')]> (roots_ s) = r1 ++ (w', log') :: r2) as -> by (rewrite Er', <- Hlr; apply insert_middle).
        assert (<[i := ((F', log'), path')]> L = L1 ++ ((F', log'), path') :: L2) as -> by (rewrite EL, <- HlL; apply insert_middle).
        assert (∀ x, x ∈ nums L1 ++ nums L2 → frames_ s0 !! x = heap_ s !! x) as Hs.
        { intros x Hx. cbn. rewrite lookup_insert_ne; [done|]. intros <-. rewrite En, !NoDup_app in Hnd. set_solver. }
        apply (inv_replace (frames_ s0) (fresh_ s) path); [by destruct HR| | |by rewrite <- En| | |done|done].
        -- eapply roots_same; [done|]. intros x Hx. apply Hs. set_solver.
        -- eapply roots_same; [done|]. intros x Hx. apply Hs. set_solver.
        -- intros x Hx. cbn. rewrite lookup_insert_ne by set_solver. apply Hc. by rewrite En.
        -- intros x Hx. rewrite Hs by done. apply Hl. rewrite En. set_solver.
      * by rewrite list_fmap_insert.
    + destruct Hd as (n & Hn). exists n. intros m Hm. by rewrite Hact, (Hn m Hm).
Qed.

Lemma task_act_spec a (s : System) L : inv s L →
  match spec_act a L.*1 with
  | Some sp => ∃ s' L', (∃ n, ∀ m, n ≤ m → act m a s = Ok s') ∧ inv s' L' ∧ L'.*1 = sp
  | None => ∃ n, ∀ m, n ≤ m → act m a s = Fault Terminated
  end.
Proof.
  intros HI. destruct a as [b|i v]; [|by apply deliver_spec]. pose proof (spawn_spec b s L HI) as Hs. cbn [spec_act].
  destruct (spec_end [] (inline b FRet)) as [r|]; cbn [mbind option_bind]; [|done]. destruct Hs as (s' & p & H1 & H2).
  exists s', (L ++ [(r, p)]). split_and!; [done|done|]. by rewrite fmap_app.
Qed.

Lemma task_acts_spec l : ∀ (s : System) L, inv s L →
  match spec_acts l L.*1 with
  | Some sp => ∃ s' L', (∃ n, ∀ m, n ≤ m → acts m l s = Ok s') ∧ inv s' L' ∧ L'.*1 = sp
  | None => ∃ n, ∀ m, n ≤ m → acts m l s = Fault Terminated
  end.
Proof.
  induction l as [|a l IH]; intros s L HI; cbn [spec_acts].
  - exists s, L. split_and!; [by exists 0|done|done].
  - pose proof (task_act_spec a s L HI) as Ha. destruct (spec_act a L.*1) as [sp|]; cbn [mbind option_bind].
    + destruct Ha as (s1 & L1 & (n1 & H1) & HI1 & <-). specialize (IH s1 L1 HI1).
      assert (∀ m, n1 ≤ m → acts m (a :: l) s = acts m l s1) as Hm by (intros m Hm; unfold Task.acts; cbn [rfold]; by rewrite (H1 m Hm)).
      destruct (spec_acts l L1.*1) as [sp|].
      * destruct IH as (s' & L' & (n & Hn) & HI' & E'). exists s', L'. split_and!; [|done|done]. exists (n1 + n). intros m ?. rewrite Hm by lia. apply Hn. lia.
      * destruct IH as (n & Hn). exists (n1 + n). intros m ?. rewrite Hm by lia. apply Hn. lia.
    + destruct Ha as (n & Hn). exists n. intros m Hm. unfold Task.acts. cbn [rfold]. by rewrite (Hn m Hm).
Qed.

(** (C35) Coroutines that await tasks, in any number and whatever the order in
    which the outside world resumes them, do what the same program does when every
    task is replaced by its body: each gets the value or the exception of the task
    it awaits, a task that is not awaited does not run, one that was moved from
    throws. No frame is used after its destruction or resumed when it does not wait, and
    when every coroutine has ended all frames are destroyed. *)
Theorem tasks_inline (l : list action) :
  match spec_acts l [] with
  | Some sp => ∃ n s, (∀ m, n ≤ m → acts m l new_system = Ok s) ∧ (roots_ s).*2 = sp.*2 ∧
      Forall2 (λ r t, is_Some (fst r) ↔ ∃ g, fst t = FWait g) (roots_ s) sp ∧
      (Forall (λ r, fst r = None) (roots_ s) → heap_ s = ∅)
  | None => ∃ n, ∀ m, n ≤ m → acts m l new_system = Fault Terminated
  end.
Proof.
  assert (inv new_system []) as HI by (split; cbn; [done|constructor|apply NoDup_nil_2|done|by intros x ?%elem_of_nil]).
  pose proof (task_acts_spec l _ _ HI) as Hl. cbn [fmap list_fmap] in Hl. destruct (spec_acts l []) as [sp|]; [|done].
  destruct Hl as (s & L & (n & Hn) & [_ Hr _ Hc _] & <-). exists n, s. split_and!; [done| | |].
  - clear -Hr. induction Hr as [|r t rs L [Er _] _ IH]; [done|]. cbn. by rewrite Er, IH.
  - clear -Hr. induction Hr as [|r t rs L [_ Hst] _ IH]; [constructor|]. constructor; [|done]. destruct (fst (fst t)) as [[v|e]| |g]; [|done|done|].
    + destruct Hst as [-> _]. split; [by intros []|by intros []].
    + destruct Hst as (h & -> & _). split; [by eexists|done].
  - intros Hall. apply map_eq. intros x. rewrite lookup_empty. apply Hc. intros Hin. clear -Hr Hall Hin.
    induction Hr as [|r t rs L [_ Hst] _ IH]; [by apply elem_of_nil in Hin|]. apply Forall_cons in Hall as [Hn Hall].
    cbn in Hin. apply elem_of_app in Hin as [Hin|Hin]; [|by apply IH]. destruct (fst (fst t)) as [[v|e]| |g]; [|done|done|].
    + destruct Hst as [_ Ep]. rewrite Ep in Hin. by apply elem_of_nil in Hin.
    + destruct Hst as (h & Eh & _). congruence.
Qed.
End task.

Arguments flat : clear implicits.
