(* ===== verification/SpscQueue.v ===== *)
(** SpscQueue: the queue of one producer and one consumer.
    Source: src/net/util/lock_free_queues/ProducerConsumerQueue.h.

    A record is [None] while it is raw memory. Each thread loads the index of the
    other one, works on a record, and stores its own index: these are the three
    steps of [write] and of [read]. *)
From S2P Require Import Prelude ThreadEvent.
Local Open Scope Z_scope.

Section spsc.
Context {T : Type}.

Record Queue : Type := mkQueue {
  size_ : Z;
  records_ : list (option T);
  readIndex_ : Z;
  writeIndex_ : Z;
}.

Definition new_queue (size : Z) : res Queue :=
  _ ← cassert (2 <=? size); Ok (mkQueue size (replicate (Z.to_nat size) None) 0 0).

Definition set_records (q : Queue) l : Queue := mkQueue (size_ q) l (readIndex_ q) (writeIndex_ q).
Definition set_read (q : Queue) i : Queue := mkQueue (size_ q) (records_ q) i (writeIndex_ q).
Definition set_write (q : Queue) i : Queue := mkQueue (size_ q) (records_ q) (readIndex_ q) i.

Definition next_record (q : Queue) (i : Z) : Z := let n := u32 (i + 1) in if n =? size_ q then 0 else n.

(** [construct] on raw memory; [destroy] of a record that holds a value. *)
Definition construct (q : Queue) (i : Z) (v : T) : res Queue :=
  r ← aget (records_ q) (Z.to_nat i);
  match r with
  | None => l ← aset (records_ q) (Z.to_nat i) (Some v); Ok (set_records q l)
  | Some _ => Fault UseAfterFree
  end.
Definition take_record (q : Queue) (i : Z) : res (Queue * T) :=
  r ← aget (records_ q) (Z.to_nat i);
  match r with
  | Some v => l ← aset (records_ q) (Z.to_nat i) None; Ok (set_records q l, v)
  | None => Fault UseAfterFree
  end.

(** ** The two threads *)

Inductive writer : Type :=
  | WIdle
  | WLoad (v : T)                         (* the load of [readIndex_] *)
  | WConstruct (v : T) (cur next : Z)
  | WStore (next : Z).
Inductive reader : Type := RIdle | RLoad | RTake (cur next : Z) | RStore (next : Z).

(** A step of [write], with what it returns at its end, and of [read]. *)
Definition write_step (q : Queue) (p : writer) : res (Queue * writer * option bool) :=
  match p with
  | WIdle => Ok (q, WIdle, None)
  | WLoad v =>
      let cur := writeIndex_ q in
      let next := next_record q cur in
      if negb (next =? readIndex_ q) then Ok (q, WConstruct v cur next, None) else Ok (q, WIdle, Some false)
  | WConstruct v cur next => q ← construct q cur v; Ok (q, WStore next, None)
  | WStore next => Ok (set_write q next, WIdle, Some true)
  end.
Definition read_step (q : Queue) (p : reader) : res (Queue * reader * option T) :=
  match p with
  | RIdle => Ok (q, RIdle, None)
  | RLoad =>
      let cur := readIndex_ q in
      if cur =? writeIndex_ q then Ok (q, RIdle, None) else Ok (q, RTake cur (next_record q cur), None)
  | RTake cur next => '(q, v) ← take_record q cur; Ok (q, RStore next, Some v)
  | RStore next => Ok (set_read q next, RIdle, None)
  end.

(** [written_] are the values that were constructed, [got_] those that were
    moved out; [refused_] counts the calls of [write] that found the queue full. *)
Record System : Type := mkSystem {
  queue_ : Queue; writer_ : writer; reader_ : reader; written_ : list T; got_ : list T; refused_ : nat;
}.

Inductive action : Type := CallWrite (v : T) | CallRead | StepW | StepR.

Definition act (a : action) (s : System) : res System :=
  match a with
  | CallWrite v => Ok (match writer_ s with WIdle => mkSystem (queue_ s) (WLoad v) (reader_ s) (written_ s) (got_ s) (refused_ s) | _ => s end)
  | CallRead => Ok (match reader_ s with RIdle => mkSystem (queue_ s) (writer_ s) RLoad (written_ s) (got_ s) (refused_ s) | _ => s end)
  | StepW =>
      '(q, p, r) ← write_step (queue_ s) (writer_ s);
      Ok (mkSystem q p (reader_ s) (match writer_ s with WConstruct v _ _ => written_ s ++ [v] | _ => written_ s end) (got_ s)
            (match r with Some false => S (refused_ s) | _ => refused_ s end))
  | StepR =>
      '(q, p, r) ← read_step (queue_ s) (reader_ s);
      Ok (mkSystem q (writer_ s) p (written_ s) (match r with Some v => got_ s ++ [v] | None => got_ s end) (refused_ s))
  end.
Definition acts (l : list action) (s : System) : res System := rfold act l s.

(** ** The operations of a thread that nobody interferes with *)

Fixpoint run_write (fuel : nat) (q : Queue) (p : writer) : res (Queue * bool) :=
  match fuel with
  | O => Fault NoFuel
  | S fuel' => '(q, p, r) ← write_step q p; match r with Some b => Ok (q, b) | None => run_write fuel' q p end
  end.
Definition write (q : Queue) (v : T) : res (Queue * bool) := run_write 3 q (WLoad v).

Definition read (q : Queue) : res (Queue * option T) :=
  '(q, p, _) ← read_step q RLoad;
  match p with
  | RTake _ _ => '(q, p, v) ← read_step q p; '(q, _, _) ← read_step q p; Ok (q, v)
  | _ => Ok (q, None)
  end.

Definition frontPtr (q : Queue) : option nat :=
  if readIndex_ q =? writeIndex_ q then None else Some (Z.to_nat (readIndex_ q)).

Definition popFront (q : Queue) : res Queue :=
  let cur := readIndex_ q in
  _ ← cassert (negb (cur =? writeIndex_ q));
  '(q, _) ← take_record q cur; Ok (set_read q (next_record q cur)).

Definition isEmpty (q : Queue) : bool := readIndex_ q =? writeIndex_ q.
Definition isFull (q : Queue) : bool := negb (negb (next_record q (writeIndex_ q) =? readIndex_ q)).

(** [int ret]: the difference wraps around, and so does the sum. *)
Definition sizeGuess (q : Queue) : Z :=
  let ret := i32 (u32 (writeIndex_ q - readIndex_ q)) in
  let ret := if ret <? 0 then i32 (u32 (u32 ret + size_ q)) else ret in
  u64 ret.

Fixpoint destroy (fuel : nat) (q : Queue) (read : Z) : res Queue :=
  if read =? writeIndex_ q then Ok q else
  match fuel with
  | O => Fault NoFuel
  | S fuel' => '(q, _) ← take_record q read; destroy fuel' q (next_record q read)
  end.

(** ** The invariant *)

Context (n : nat) (Hn : (2 ≤ n)%nat) (Hmax : Z.of_nat n < 2 ^ 32).

Lemma next_mod i : (let m := S (i mod n) in if decide (m = n) then O else m) = (S i mod n)%nat.
Proof.
  pose proof (Nat.div_mod_eq i n) as E. pose proof (Nat.mod_upper_bound i n ltac:(lia)). cbv zeta. case_decide as H1.
  - apply (Nat.mod_unique _ _ (S (i / n))); nia.
  - apply (Nat.mod_unique _ _ (i / n)); lia.
Qed.

Lemma mod_inj a b : (a ≤ b)%nat → (b < a + n)%nat → (a mod n = b mod n)%nat → a = b.
Proof.
  pose proof (Nat.div_mod_eq a n) as Ea. pose proof (Nat.div_mod_eq b n) as Eb. intros H1 H2 Em. rewrite Em in Ea.
  destruct (decide (a / n < b / n)%nat) as [Hlt|Hge].
  - assert (n * (a / n) + n ≤ n * (b / n))%nat by (rewrite <- Nat.mul_succ_r; apply Nat.mul_le_mono_l; lia). lia.
  - assert (n * (b / n) ≤ n * (a / n))%nat by (apply Nat.mul_le_mono_l; lia). lia.
Qed.

(** [r] values were taken and [w] were put in, by the indexes. *)
Record indexes (q : Queue) (r w : nat) : Prop := {
  ix_size : size_ q = Z.of_nat n;
  ix_read : readIndex_ q = Z.of_nat (r mod n);
  ix_write : writeIndex_ q = Z.of_nat (w mod n);
  ix_room : (r ≤ w)%nat ∧ (w < r + n)%nat;
}.

(** The values [vs], of which the first [r] were taken, are in their records; the
    other records are free. *)
Record filled (l : list (option T)) (r : nat) (vs : list T) : Prop := {
  fi_len : length l = n;
  fi_vals : ∀ i v, (r ≤ i)%nat → vs !! i = Some v → l !! (i mod n)%nat = Some (Some v);
  fi_free : ∀ i, (length vs ≤ i)%nat → (i < r + n)%nat → l !! (i mod n)%nat = Some None;
}.

Lemma spsc_next_spec q i : size_ q = Z.of_nat n → next_record q (Z.of_nat (i mod n)) = Z.of_nat (S i mod n).
Proof.
  intros Hs. pose proof (Nat.mod_upper_bound i n ltac:(lia)). unfold next_record. rewrite uN_small, Hs by lia. rewrite <- next_mod. cbv zeta.
  case_decide as E; [rewrite (proj2 (Z.eqb_eq _ _)) by lia; lia|rewrite (proj2 (Z.eqb_neq _ _)) by lia; lia].
Qed.

Lemma construct_spec q vs r v : filled (records_ q) r vs → (r ≤ length vs)%nat → (length vs < r + n)%nat →
  runs (construct q (Z.of_nat (length vs mod n)) v) (λ q', ∃ l, q' = set_records q l ∧ filled l r (vs ++ [v])).
Proof.
  intros [Hl Hv Hf] Hrl Hr. unfold construct. rewrite Nat2Z.id. pose proof (Hf (length vs) ltac:(lia) Hr) as E.
  rewrite (aget_some _ _ _ E), bind_ok, (aset_some _ _ _ _ E), bind_ok. apply runs_ok. eexists. split; [done|].
  assert (length vs mod n < length (records_ q))%nat as Hlt by (by eapply lookup_lt_Some). split.
  - by rewrite length_insert.
  - intros i x Hi [Hx|(Hge & Hx)]%lookup_app_Some.
    + pose proof (lookup_lt_Some _ _ _ Hx). rewrite list_lookup_insert_ne; [by apply Hv|]. intros Em.
      assert (i = length vs); [|lia]. apply mod_inj; [lia|lia|done].
    + apply list_lookup_singleton_Some in Hx as [Hx ->]. replace i with (length vs) by lia. by apply list_lookup_insert_eq.
  - intros i Hge Hi. rewrite length_app in Hge. simpl in Hge. rewrite list_lookup_insert_ne; [apply Hf; lia|]. intros Em.
    assert (length vs = i); [|lia]. apply mod_inj; [lia|lia|done].
Qed.

Lemma take_record_spec q vs r v : filled (records_ q) r vs → vs !! r = Some v → (length vs ≤ r + n)%nat →
  runs (take_record q (Z.of_nat (r mod n))) (λ '(q', v'), v' = v ∧ ∃ l, q' = set_records q l ∧ filled l (S r) vs).
Proof.
  intros [Hl Hv Hf] Hr Hlen. unfold take_record. rewrite Nat2Z.id. pose proof (Hv r v ltac:(lia) Hr) as E.
  rewrite (aget_some _ _ _ E), bind_ok, (aset_some _ _ _ _ E), bind_ok. apply runs_ok. split; [done|]. eexists. split; [done|].
  assert (r mod n < length (records_ q))%nat as Hlt by (by eapply lookup_lt_Some). pose proof (lookup_lt_Some _ _ _ Hr). split.
  - by rewrite length_insert.
  - intros i x Hi Hx. pose proof (lookup_lt_Some _ _ _ Hx). rewrite list_lookup_insert_ne; [apply Hv; [lia|done]|]. intros Em.
    assert (r = i); [|lia]. apply mod_inj; [lia|lia|done].
  - intros i Hge Hi. destruct (decide (i = r + n)%nat) as [->|Hne].
    + replace ((r + n) mod n)%nat with (r mod n)%nat by (rewrite <- (Nat.Div0.mod_add r 1 n); f_equal; lia). by apply list_lookup_insert_eq.
    + rewrite list_lookup_insert_ne; [apply Hf; lia|]. intros Em. assert (r = i); [|lia]. apply mod_inj; [lia|lia|done].
Qed.

(** ** Every interleaving

    [r] values were taken and [w] were put in by the indexes, a value more when
    the thread is about to store its index. *)
Definition wrote (p : writer) : nat := match p with WStore _ => 1 | _ => 0 end.
Definition took (p : reader) : nat := match p with RStore _ => 1 | _ => 0 end.

Record inv (s : System) (r w : nat) : Prop := {
  in_ix : indexes (queue_ s) r w;
  in_written : length (written_ s) = (w + wrote (writer_ s))%nat;
  in_got : got_ s = take (r + took (reader_ s)) (written_ s);
  in_filled : filled (records_ (queue_ s)) (r + took (reader_ s)) (written_ s);
  in_writer : match writer_ s with
              | WConstruct _ cur next => cur = Z.of_nat (w mod n) ∧ next = Z.of_nat (S w mod n) ∧ (S w < r + n)%nat
              | WStore next => next = Z.of_nat (S w mod n) ∧ (S w < r + n)%nat
              | _ => True
              end;
  in_reader : match reader_ s with
              | RTake cur next => cur = Z.of_nat (r mod n) ∧ next = Z.of_nat (S r mod n) ∧ (r < w)%nat
              | RStore next => next = Z.of_nat (S r mod n) ∧ (r < w)%nat
              | _ => True
              end;
}.

(** The indexes are equal exactly when there is nothing between them. *)
Lemma index_eq a b : (a ≤ b)%nat → (b < a + n)%nat → (Z.of_nat (a mod n) =? Z.of_nat (b mod n)) = bool_decide (a = b).
Proof.
  intros H1 H2. case_bool_decide as E; [subst; apply Z.eqb_refl|]. apply Z.eqb_neq. intros Em. apply E, mod_inj; [done|done|lia].
Qed.

Lemma stepw_inv s r w : inv s r w → runs (act StepW s) (λ s', ∃ w', inv s' r w' ∧
  (refused_ s' = refused_ s ∨ (S w = r + n)%nat ∧ refused_ s' = S (refused_ s))).
Proof.
  intros [Hix Hwr Hgot Hfi Hw Hr]. destruct s as [q pw pr wr got rf]. simpl in *. pose proof Hix as [Hsz Hri Hwi [Hrw Hroom]].
  destruct pw as [|v|v cur next|next]; cbn [act writer_ queue_ write_step].
  - apply runs_ok. exists w. split; [by split|by left].
  - rewrite Hwi, Hri, (spsc_next_spec q w Hsz).
    destruct (decide (S w = r + n)%nat) as [E|E].
    + rewrite E, <- (Nat.Div0.mod_add r 1 n). replace (r + 1 * n)%nat with (r + n)%nat by lia. rewrite Z.eqb_refl. apply runs_ok. exists w.
      split; [by split|]. by right.
    + rewrite Z.eqb_sym, index_eq, bool_decide_false by lia. apply runs_ok. exists w. split; [|by left]. split; try done. simpl. split_and!; [done|done|lia].
  - destruct Hw as (-> & -> & Hlt). rewrite Nat.add_0_r in Hwr.
    assert (r + took pr ≤ length wr)%nat as Hle by (rewrite Hwr; destruct pr; simpl in *; lia).
    rewrite <- Hwr. destruct (construct_spec q wr (r + took pr) v Hfi Hle ltac:(lia)) as (q' & -> & l & -> & Hfi').
    rewrite !bind_ok. apply runs_ok. exists w.
    split; [|by left]. split; simpl.
    + by destruct Hix; split.
    + rewrite length_app, Hwr. done.
    + rewrite Hgot, take_app_le; done.
    + done.
    + rewrite Hwr. done.
    + done.
  - destruct Hw as (-> & Hlt). apply runs_ok. exists (S w). split; [|by left]. split; simpl.
    + split; simpl; try done. lia.
    + simpl in Hwr. lia.
    + done.
    + done.
    + done.
    + destruct pr; try done; destruct_and? Hr; split_and?; done || lia.
Qed.

Lemma stepr_inv s r w : inv s r w → runs (act StepR s) (λ s', ∃ r', inv s' r' w ∧ refused_ s' = refused_ s).
Proof.
  intros [Hix Hwr Hgot Hfi Hw Hr]. destruct s as [q pw pr wr got rf]. simpl in *. pose proof Hix as [Hsz Hri Hwi [Hrw Hroom]].
  destruct pr as [| |cur next|next]; cbn [act reader_ queue_ read_step].
  - apply runs_ok. exists r. split; [by split|done].
  - rewrite Hwi, Hri, index_eq by done. case_bool_decide as E; apply runs_ok; exists r; (split; [|done]); split; try done. simpl.
    rewrite (spsc_next_spec q r Hsz). split_and!; [done|done|lia].
  - destruct Hr as (-> & -> & Hlt). rewrite Nat.add_0_r in *.
    destruct (lookup_lt_is_Some_2 wr r) as [v Hv]; [lia|].
    destruct (take_record_spec q wr r v Hfi Hv) as ([q' v'] & -> & -> & l & -> & Hfi'); [destruct pw; simpl in *; lia|].
    rewrite !bind_ok. apply runs_ok. exists r.
    split; [|done]. split; simpl; rewrite ?Nat.add_1_r; try done. rewrite Hgot. symmetry. by apply take_S_r.
  - destruct Hr as (-> & Hlt). apply runs_ok. exists (S r). split; [|done]. simpl in *. rewrite Nat.add_1_r in *. split; simpl; rewrite ?Nat.add_0_r; try done.
    + split; simpl; try done. lia.
    + destruct pw; try done; destruct_and? Hw; split_and?; done || lia.
Qed.

Lemma spsc_new_queue_spec q : new_queue (Z.of_nat n) = Ok q → inv (mkSystem q WIdle RIdle [] [] 0) 0 0.
Proof.
  unfold new_queue. rewrite (proj2 (Z.leb_le 2 _)) by lia. intros [= <-]. split; simpl; try done.
  - split; simpl; rewrite ?Nat.Div0.mod_0_l; try done. lia.
  - rewrite Nat2Z.id. split; [apply length_replicate|done|]. intros i _ Hi. apply lookup_replicate_2, Nat.mod_upper_bound. lia.
Qed.

Lemma spsc_acts_inv l q : new_queue (Z.of_nat n) = Ok q →
  runs (acts l (mkSystem q WIdle RIdle [] [] 0)) (λ s, ∃ r w, inv s r w).
Proof.
  intros Hq. assert (∀ s, (∃ r w, inv s r w) → runs (acts l s) (λ s, ∃ r w, inv s r w)) as H; [|apply H; exists 0%nat, 0%nat; by apply spsc_new_queue_spec].
  clear Hq. induction l as [|a l IH]; intros s Hs; unfold acts; cbn [rfold]; [by apply runs_ok|]. destruct Hs as (r & w & HI).
  eapply (runs_bind _ _ (λ s', ∃ r w, inv s' r w)); [|intros s' Hs'; by apply IH]. destruct a as [v| | |].
  - apply runs_ok. exists r, w. destruct s as [q' [] pr wr got rf]; try done. by destruct HI; split.
  - apply runs_ok. exists r, w. destruct s as [q' pw [] wr got rf]; try done. by destruct HI; split.
  - eapply runs_mono; [by eapply stepw_inv|]. intros s' (w' & ? & _). by exists r, w'.
  - eapply runs_mono; [by eapply stepr_inv|]. intros s' (r' & ? & _). by exists r', w.
Qed.

(** A queue of one producer and one consumer, in every interleaving of
    their accesses: a value is only constructed in raw memory and only taken from
    a record that holds one, so the two never touch the same record; the values
    taken are those written, in the same order, and never more than the size of
    the queue less one wait. *)
Theorem spsc_fifo l q : new_queue (Z.of_nat n) = Ok q →
  runs (acts l (mkSystem q WIdle RIdle [] [] 0)) (λ s, ∃ waiting, written_ s = got_ s ++ waiting ∧ (length waiting < n)%nat).
Proof.
  intros Hq. eapply runs_mono; [by apply spsc_acts_inv|]. intros s (r & w & [[_ _ _ [Hrw Hroom]] Hwr Hgot Hfi Hw Hr]).
  exists (drop (r + took (reader_ s)) (written_ s)). split; [rewrite Hgot; by rewrite take_drop|]. rewrite length_drop, Hwr.
  destruct (writer_ s), (reader_ s); simpl in *; lia.
Qed.

(** ** A thread that nobody interferes with *)

(** The queue holds [vs]: the values behind the first [r] of all those written. *)
Definition holds (q : Queue) (vs : list T) : Prop :=
  ∃ r ws, indexes q r (length ws) ∧ filled (records_ q) r ws ∧ vs = drop r ws.

Lemma spsc_holds_new q : new_queue (Z.of_nat n) = Ok q → holds q [].
Proof. intros Hq. destruct (spsc_new_queue_spec q Hq) as [Hix _ _ Hfi _ _]. by exists 0%nat, []. Qed.

Lemma holds_length q (vs ws : list T) r : indexes q r (length ws) → vs = drop r ws → length ws = (r + length vs)%nat ∧ (length vs < n)%nat.
Proof. intros [_ _ _ [Hrw Hroom]] ->. rewrite length_drop. lia. Qed.

Lemma write_spec q vs v : holds q vs →
  runs (write q v) (λ '(q', b), b = bool_decide (S (length vs) < n)%nat ∧ holds q' (if b then vs ++ [v] else vs)).
Proof.
  intros (r & ws & Hix & Hfi & Hvs). destruct (holds_length _ _ _ _ Hix Hvs) as [Hl Hlt]. pose proof Hix as [Hsz Hri Hwi [Hrw Hroom]].
  unfold write. cbn [run_write write_step]. rewrite Hwi, Hri, (spsc_next_spec q (length ws) Hsz). case_bool_decide as E.
  - rewrite Z.eqb_sym, index_eq, bool_decide_false by lia. cbn [negb run_write write_step mbind res_bind].
    destruct (construct_spec q ws r v Hfi ltac:(lia) ltac:(lia)) as (q' & -> & l & -> & Hfi'). rewrite !bind_ok. cbv beta iota. apply runs_ok. split; [done|].
    exists r, (ws ++ [v]). split_and!; [|done|rewrite Hvs; by rewrite drop_app_le].
    rewrite length_app. simpl. rewrite Nat.add_1_r. split; simpl; try done. lia.
  - assert (S (length ws) = r + n)%nat as -> by lia. rewrite <- (Nat.Div0.mod_add r 1 n). replace (r + 1 * n)%nat with (r + n)%nat by lia.
    rewrite Z.eqb_refl. cbn [negb]. rewrite bind_ok. apply runs_ok. split; [done|]. by exists r, ws.
Qed.

Lemma take_front q r ws v vs : indexes q r (length ws) → filled (records_ q) r ws → v :: vs = drop r ws →
  runs (take_record q (readIndex_ q)) (λ '(q', v'), v' = v ∧ holds (set_read q' (next_record q (readIndex_ q))) vs ∧
    next_record q (readIndex_ q) = Z.of_nat (S r mod n) ∧ ∃ l, q' = set_records q l ∧ filled l (S r) ws).
Proof.
  intros Hix Hfi Hvs. destruct (holds_length _ _ _ _ Hix Hvs) as [Hl Hlt]. pose proof Hix as [Hsz Hri Hwi [Hrw Hroom]]. simpl in Hl, Hlt.
  assert (ws !! r = Some v) as Hv by (rewrite <- (Nat.add_0_r r), <- lookup_drop, <- Hvs; done). rewrite Hri.
  eapply runs_mono; [apply (take_record_spec q ws r v Hfi Hv); lia|]. intros [q' v'] (-> & l & -> & Hfi').
  rewrite (spsc_next_spec q r Hsz). split_and!; [done| |done|by eauto]. exists (S r), ws. split_and!; [|done|].
  - split; simpl; try done. lia.
  - rewrite (drop_S _ _ _ Hv) in Hvs. by injection Hvs.
Qed.

Lemma read_spec q vs : holds q vs → runs (read q) (λ '(q', x), x = head vs ∧ holds q' (tail vs)).
Proof.
  intros (r & ws & Hix & Hfi & Hvs). destruct (holds_length _ _ _ _ Hix Hvs) as [Hl Hlt]. pose proof Hix as [Hsz Hri Hwi [Hrw Hroom]].
  unfold read. cbn [read_step]. rewrite Hwi, Hri, index_eq by done. destruct vs as [|v vs]; simpl in Hl.
  - rewrite bool_decide_true, bind_ok by lia. apply runs_ok. split; [done|]. by exists r, ws.
  - rewrite bool_decide_false, bind_ok by lia. cbn [read_step]. rewrite <- Hri.
    destruct (take_front q r ws v vs Hix Hfi Hvs) as ([q' v'] & -> & -> & Hh & _). rewrite !bind_ok. by apply runs_ok.
Qed.

(** The front of the queue, and its removal; an empty queue has no front. *)
Lemma popFront_spec q vs : holds q vs →
  match vs with
  | [] => popFront q = Fault AssertFailed ∧ frontPtr q = None
  | v :: vs' => runs (popFront q) (λ q', holds q' vs') ∧ ∃ i, frontPtr q = Some i ∧ records_ q !! i = Some (Some v)
  end.
Proof.
  intros (r & ws & Hix & Hfi & Hvs). destruct (holds_length _ _ _ _ Hix Hvs) as [Hl Hlt]. pose proof Hix as [Hsz Hri Hwi [Hrw Hroom]].
  unfold popFront, frontPtr. rewrite (Z.eqb_sym (readIndex_ q)), Hwi. rewrite Z.eqb_sym, Hri, index_eq by done. destruct vs as [|v vs]; simpl in Hl.
  - by rewrite bool_decide_true by lia.
  - rewrite bool_decide_false by lia. cbn [negb cassert]. rewrite bind_ok, <- Hri.
    destruct (take_front q r ws v vs Hix Hfi Hvs) as ([q' v'] & -> & -> & Hh & _ & l & -> & _). rewrite bind_ok. split; [by apply runs_ok|].
    eexists. split; [done|]. rewrite Hri, Nat2Z.id. apply (fi_vals _ _ _ Hfi); [done|]. by rewrite <- (Nat.add_0_r r), <- lookup_drop, <- Hvs.
Qed.

Lemma residue r i : (i < n)%nat → ∃ k, (r ≤ k < r + n)%nat ∧ (k mod n)%nat = i.
Proof.
  intros Hi. pose proof (Nat.mod_upper_bound r n ltac:(lia)). pose proof (Nat.div_mod_eq r n) as Er. destruct (decide (r mod n ≤ i)%nat).
  - exists (r + (i - r mod n))%nat. split; [lia|]. symmetry. apply (Nat.mod_unique _ _ (r / n)); lia.
  - exists (r + (n + i - r mod n))%nat. split; [lia|]. symmetry. apply (Nat.mod_unique _ _ (S (r / n))); lia.
Qed.

Lemma all_free l ws : filled l (length ws) ws → Forall (λ x, x = None) l.
Proof.
  intros [Hl _ Hf]. apply Forall_lookup. intros i x Hx. pose proof (lookup_lt_Some _ _ _ Hx) as Hi. rewrite Hl in Hi.
  destruct (residue (length ws) i Hi) as (k & Hk & Em). pose proof (Hf k ltac:(lia) ltac:(lia)) as E. rewrite Em in E. congruence.
Qed.

Lemma destroy_records_spec fuel : ∀ q r ws, size_ q = Z.of_nat n → writeIndex_ q = Z.of_nat (length ws mod n) →
  (r ≤ length ws)%nat → (length ws < r + n)%nat → filled (records_ q) r ws → (length ws - r ≤ fuel)%nat →
  runs (destroy fuel q (Z.of_nat (r mod n))) (λ q', Forall (λ x, x = None) (records_ q')).
Proof.
  induction fuel as [|fuel IH]; intros q r ws Hsz Hwi Hrw Hroom Hfi Hf; cbn [destroy]; rewrite Hwi, index_eq by done.
  - rewrite bool_decide_true by lia. apply runs_ok, (all_free _ ws). by replace (length ws) with r by lia.
  - case_bool_decide as E; [apply runs_ok, (all_free _ ws); by rewrite <- E|].
    destruct (lookup_lt_is_Some_2 ws r) as [v Hv]; [lia|].
    destruct (take_record_spec q ws r v Hfi Hv ltac:(lia)) as ([q' v'] & -> & _ & l & -> & Hfi'). rewrite bind_ok.
    change (next_record (set_records q l) ?i) with (next_record q i). rewrite (spsc_next_spec q r Hsz). apply (IH _ (S r) ws); try done; lia.
Qed.

Lemma sizeGuess_spec q vs : holds q vs → Z.of_nat n ≤ 2 ^ 31 → sizeGuess q = Z.of_nat (length vs).
Proof.
  intros (r & ws & Hix & Hfi & Hvs) H31. destruct (holds_length _ _ _ _ Hix Hvs) as [Hl Hlt]. destruct Hix as [Hsz Hri Hwi [Hrw Hroom]].
  unfold sizeGuess. rewrite Hri, Hwi, Hsz. pose proof (Nat.mod_upper_bound r n ltac:(lia)). pose proof (Nat.mod_upper_bound (length ws) n ltac:(lia)).
  pose proof (Nat.div_mod_eq r n) as Er. pose proof (Nat.div_mod_eq (length ws) n) as Ew.
  assert (i32_u32 : ∀ d, - 2 ^ 31 ≤ d < 2 ^ 31 → i32 (u32 d) = d).
  { intros d Hd. rewrite <- (i32_small d) at 2 by done. unfold i32. replace (u32 d mod 2 ^ 32) with (d mod 2 ^ 32); [done|].
    unfold uN. rewrite Z.land_ones by lia. by rewrite Z.mod_mod by lia. }
  rewrite i32_u32 by lia. set (d := Z.of_nat (length ws mod n) - Z.of_nat (r mod n)).
  assert (length ws / n = r / n ∨ length ws / n = S (r / n))%nat as [Eq|Eq].
  { destruct (decide (length ws / n ≤ r / n)%nat) as [Hle|Hgt]; [|destruct (decide (S (r / n) < length ws / n)%nat) as [Hgt2|]; [|lia]].
    - left. assert (n * (length ws / n) ≤ n * (r / n))%nat by (by apply Nat.mul_le_mono_l). destruct (decide (length ws / n = r / n)%nat); [done|].
      assert (n * (length ws / n) + n ≤ n * (r / n))%nat by (rewrite <- Nat.mul_succ_r; apply Nat.mul_le_mono_l; lia). lia.
    - assert (n * (r / n) + n + n ≤ n * (length ws / n))%nat by (rewrite <- !Nat.mul_succ_r; apply Nat.mul_le_mono_l; lia). lia. }
  - rewrite Eq in Ew. rewrite (proj2 (Z.ltb_ge d 0)) by lia. rewrite uN_small by lia. lia.
  - rewrite Eq, Nat.mul_succ_r in Ew. destruct (Z.ltb_spec d 0); [|lia]. rewrite uN_add_l, i32_u32, uN_small by lia. lia.
Qed.

(** Alone, the queue is a list of at most one value less than its size. *)
Theorem spsc_alone q vs v : holds q vs →
  runs (write q v) (λ '(q', b), b = bool_decide (S (length vs) < n)%nat ∧ holds q' (if b then vs ++ [v] else vs)) ∧
  runs (read q) (λ '(q', x), x = head vs ∧ holds q' (tail vs)) ∧
  match vs with [] => popFront q = Fault AssertFailed | _ :: vs' => runs (popFront q) (λ q', holds q' vs') end ∧
  isEmpty q = bool_decide (vs = []) ∧ isFull q = bool_decide (S (length vs) = n) ∧
  (Z.of_nat n ≤ 2 ^ 31 → sizeGuess q = Z.of_nat (length vs)) ∧
  runs (destroy n q (readIndex_ q)) (λ q', Forall (λ x, x = None) (records_ q')).
Proof.
  intros Hh. split_and!; [by apply write_spec|by apply read_spec|pose proof (popFront_spec q vs Hh) as Hp; destruct vs; apply Hp| | |by apply sizeGuess_spec|].
  all: destruct Hh as (r & ws & Hix & Hfi & Hvs); destruct (holds_length _ _ _ _ Hix Hvs) as [Hl Hlt]; destruct Hix as [Hsz Hri Hwi [Hrw Hroom]].
  - unfold isEmpty. rewrite Hri, Hwi, index_eq by done. apply bool_decide_ext. rewrite <- length_zero_iff_nil. lia.
  - unfold isFull. rewrite Hwi, Hri, (spsc_next_spec q (length ws) Hsz), negb_involutive. case_bool_decide as E.
    + assert (S (length ws) = r + n)%nat as -> by lia. rewrite <- (Nat.Div0.mod_add r 1 n). replace (r + 1 * n)%nat with (r + n)%nat by lia. apply Z.eqb_refl.
    + rewrite Z.eqb_sym, index_eq by lia. apply bool_decide_eq_false. lia.
  - rewrite Hri. apply (destroy_records_spec n q r ws); done || lia.
Qed.
End spsc.

Arguments Queue : clear implicits.
Arguments System : clear implicits.
Arguments action : clear implicits.
