(* ===== verification/MpscQueue.v ===== *)
(** MpscQueue: the intrusive queue of many producers and one consumer.
    Source: src/net/util/lock_free_queues/mpsc_intrusive_queue.h.

    A node is a number; the stub is node 0. Every access to a field [next] or to
    the tail is a step; [head_] belongs to the consumer. *)
From S2P Require Import Prelude.
Local Open Scope Z_scope.

Record Queue : Set := mkQueue { head_ : nat; tail_ : nat; next_ : list (option nat) }.

Definition stub : nat := 0.

(** [n] nodes, the stub among them. *)
Definition new_queue (n : nat) : Queue := mkQueue stub stub (replicate n None).

Definition load_next (q : Queue) (x : nat) : res (option nat) := aget (next_ q) x.
Definition store_next (q : Queue) (x : nat) (y : option nat) : res Queue :=
  l ← aset (next_ q) x y; Ok (mkQueue (head_ q) (tail_ q) l).
Definition set_head (q : Queue) (x : nat) : Queue := mkQueue x (tail_ q) (next_ q).

(** A call of [Push]: reset the node, exchange the tail, link the old tail. *)
Inductive pusher : Set := PIdle | PReset (item : nat) | PXchg (item : nat) | PLink (prev item : nat).

Definition push_step (q : Queue) (p : pusher) : res (Queue * pusher) :=
  match p with
  | PIdle => Ok (q, PIdle)
  | PReset item => q ← store_next q item None; Ok (q, PXchg item)
  | PXchg item => Ok (mkQueue (head_ q) item (next_ q), PLink (tail_ q) item)
  | PLink prev item => q ← store_next q prev (Some item); Ok (q, PIdle)
  end.

(** A call of [PopWeak]. *)
Inductive popper : Set :=
  | CIdle
  | CNext                          (* the first load of the next node *)
  | CEmpty                         (* the head is the stub and has no next: the load of the tail *)
  | CSkip (head : nat)             (* the stub was skipped: the load behind it *)
  | CTail (head : nat)             (* no next node: the load of the tail *)
  | CPush (head : nat) (p : pusher)  (* [Push(stub())] *)
  | CLast (head : nat).            (* the last load *)

(** The check of the next node of the head. *)
Definition with_next (q : Queue) (head : nat) (next : option nat) : Queue * popper * option (option nat * bool) :=
  match next with
  | Some x => (set_head q x, CIdle, Some (Some head, false))
  | None => (q, CTail head, None)
  end.

(** A step of the consumer, with what [PopWeak] returns at its end. *)
Definition pop_step (q : Queue) (c : popper) : res (Queue * popper * option (option nat * bool)) :=
  match c with
  | CIdle => Ok (q, CIdle, None)
  | CNext =>
      next ← load_next q (head_ q);
      if decide (head_ q = stub) then
        match next with
        | None => Ok (q, CEmpty, None)
        | Some x => Ok (set_head q x, CSkip x, None)
        end
      else Ok (with_next q (head_ q) next)
  | CEmpty => Ok (q, CIdle, Some (None, bool_decide (tail_ q = head_ q)))
  | CSkip head => next ← load_next q head; Ok (with_next q head next)
  | CTail head => Ok (if decide (tail_ q = head) then (q, CPush head (PReset stub), None) else (q, CIdle, Some (None, false)))
  | CPush head p => '(q, p) ← push_step q p; Ok (q, match p with PIdle => CLast head | _ => CPush head p end, None)
  | CLast head =>
      next ← load_next q head;
      Ok (match next with Some x => (set_head q x, CIdle, Some (Some head, false)) | None => (q, CIdle, Some (None, false)) end)
  end.

(** [Pop] of a consumer that nobody interferes with. *)
Fixpoint run_pop (fuel : nat) (q : Queue) (c : popper) : res (Queue * (option nat * bool)) :=
  match fuel with
  | O => Fault NoFuel
  | S fuel' => '(q, c, r) ← pop_step q c; match r with Some r => Ok (q, r) | None => run_pop fuel' q c end
  end.
Definition PopWeak (q : Queue) : res (Queue * (option nat * bool)) := run_pop 8 q CNext.
Fixpoint Pop (fuel : nat) (q : Queue) : res (Queue * option nat) :=
  match fuel with
  | O => Fault NoFuel
  | S fuel' =>
      '(q, (elem, empty)) ← PopWeak q;
      if bool_decide (elem ≠ None) || empty then Ok (q, elem) else Pop fuel' q
  end.
Definition Empty (q : Queue) : res bool := next ← load_next q (head_ q); Ok (bool_decide (head_ q = stub ∧ next = None)).

(** ** Threads

    [pushed_] and [popped_] list the items in the order in which the tail was
    exchanged, and in which they were returned; [empties_] records for every
    answer that the queue is empty what waited then. A node can be pushed when it
    is not the stub, not in the queue, and no other producer is pushing it. *)
Record System : Set := mkSystem {
  queue_ : Queue; producers_ : list pusher; consumer_ : popper; pushed_ : list nat; popped_ : list nat; empties_ : list (list nat);
}.
Definition waiting (s : System) : list nat := drop (length (popped_ s)) (pushed_ s).

Definition fresh (x : nat) (p : pusher) : Prop := match p with PReset y | PXchg y => x = y | _ => False end.
#[export] Instance fresh_dec x p : Decision (fresh x p).
Proof. destruct p; simpl; apply _. Defined.

Definition may_push (s : System) (item : nat) : Prop :=
  item ≠ stub ∧ item ∉ waiting s ∧ (item < length (next_ (queue_ s)))%nat ∧ Forall (λ p, ¬ fresh item p) (producers_ s).
#[export] Instance may_push_dec s item : Decision (may_push s item).
Proof. apply _. Defined.

Inductive action : Set := CallPush (t item : nat) | CallPop | StepP (t : nat) | StepC.

Definition act (a : action) (s : System) : res System :=
  match a with
  | CallPush t item =>
      Ok (match producers_ s !! t with
          | Some PIdle => if decide (may_push s item)
                          then mkSystem (queue_ s) (<[t := PReset item]> (producers_ s)) (consumer_ s) (pushed_ s) (popped_ s) (empties_ s) else s
          | _ => s
          end)
  | CallPop => Ok (match consumer_ s with CIdle => mkSystem (queue_ s) (producers_ s) CNext (pushed_ s) (popped_ s) (empties_ s) | _ => s end)
  | StepP t =>
      match producers_ s !! t with
      | Some p =>
          '(q, p') ← push_step (queue_ s) p;
          Ok (mkSystem q (<[t := p']> (producers_ s)) (consumer_ s) (match p with PXchg x => pushed_ s ++ [x] | _ => pushed_ s end)
                (popped_ s) (empties_ s))
      | None => Ok s
      end
  | StepC =>
      '(q, c, r) ← pop_step (queue_ s) (consumer_ s);
      Ok (mkSystem q (producers_ s) c (pushed_ s) (match r with Some (Some x, _) => popped_ s ++ [x] | _ => popped_ s end)
            (match r with Some (None, true) => empties_ s ++ [waiting s] | _ => empties_ s end))
  end.
Definition acts (l : list action) (s : System) : res System := rfold act l s.
Definition new_system (n producers : nat) : System := mkSystem (new_queue n) (replicate producers PIdle) CIdle [] [] [].

(** ** The chain of nodes

    [L] are the nodes from the head to the tail, [ps] all calls of [Push], that
    of the consumer included. Two neighbours are linked, or one call is about to
    link them. *)
Record chain (q : Queue) (L : list nat) (ps : list pusher) : Prop := {
  ch_head : head L = Some (head_ q);
  ch_tail : last L = Some (tail_ q);
  ch_nodup : NoDup L;
  ch_bound : Forall (λ x, (x < length (next_ q))%nat) L;
  ch_link : ∀ k a b, L !! k = Some a → L !! S k = Some b →
    next_ q !! a = Some (Some b) ∨ next_ q !! a = Some None ∧ ∃ t : nat, ps !! t = Some (PLink a b);
  ch_end : next_ q !! tail_ q = Some None;
  ch_pending : ∀ (t : nat) a b, ps !! t = Some (PLink a b) → (∃ k, L !! k = Some a ∧ L !! S k = Some b) ∧ next_ q !! a = Some None;
  ch_once : ∀ (t t' : nat) a b b', ps !! t = Some (PLink a b) → ps !! t' = Some (PLink a b') → t = t';
  ch_fresh : ∀ (t : nat) p x, ps !! t = Some p → fresh x p → x ∉ L ∧ (x < length (next_ q))%nat;
  ch_own : ∀ (t t' : nat) p p' x, ps !! t = Some p → ps !! t' = Some p' → fresh x p → fresh x p' → t = t';
  ch_reset : ∀ (t : nat) x, ps !! t = Some (PXchg x) → next_ q !! x = Some None;
}.

Ltac pmoved H := apply list_lookup_insert_Some in H as [(? & ? & _)|[? H]]; subst.

Lemma L_pred L k (a b : nat) : NoDup L → L !! k = Some a → L !! S k = Some b → a ≠ b.
Proof. intros Hnd Ha Hb ->. pose proof (NoDup_lookup _ _ _ _ Hnd Ha Hb). lia. Qed.

(** A node that is not in the chain is reset. *)
Lemma chain_reset q L ps t x : chain q L ps → ps !! t = Some (PReset x) →
  runs (push_step q (PReset x)) (λ '(q', p'), p' = PXchg x ∧ head_ q' = head_ q ∧ tail_ q' = tail_ q ∧
    length (next_ q') = length (next_ q) ∧ chain q' L (<[t := PXchg x]> ps)).
Proof.
  intros [H1 H2 H3 H4 H5 H6 H7 H8 H9 H10 H11] Ht. pose proof (lookup_lt_Some _ _ _ Ht) as Hlt.
  destruct (H9 t _ x Ht eq_refl) as [Hx Hxl]. destruct (lookup_lt_is_Some_2 _ _ Hxl) as [y Hy].
  assert (tail_ q ∈ L) as Htl by (rewrite last_lookup in H2; by eapply list_elem_of_lookup_2).
  cbn [push_step]. unfold store_next. rewrite (aset_some _ _ _ _ Hy), !bind_ok. apply runs_ok. split_and!; try done; simpl; [by rewrite length_insert|].
  assert (∀ a, a ∈ L → <[x := None]> (next_ q) !! a = next_ q !! a) as Hsame by (intros a Ha; apply list_lookup_insert_ne; by intros ->).
  split; simpl; try done.
  - by rewrite length_insert.
  - intros k a b Ha Hb. rewrite Hsame by (by eapply list_elem_of_lookup_2). destruct (H5 k a b Ha Hb) as [?|(? & t1 & Ht1)]; [by left|].
    right. split; [done|]. exists t1. rewrite list_lookup_insert_ne; [done|]. intros ->. congruence.
  - by rewrite Hsame.
  - intros t1 a b E. pmoved E; [done|]. destruct (H7 t1 a b E) as ((k & Ha & Hb) & Hn). split; [by exists k|]. rewrite Hsame; [done|]. by eapply list_elem_of_lookup_2.
  - intros t1 t2 a b b' E1 E2. pmoved E1; [done|]. pmoved E2; [done|]. by eapply H8.
  - intros t1 p z E Hz. rewrite length_insert. pmoved E; [simpl in Hz; by subst|by apply (H9 t1 p)].
  - intros t1 t2 p p' z E1 E2 Hz1 Hz2. assert (∀ t3 p3, <[t := PXchg x]> ps !! t3 = Some p3 → fresh z p3 → ∃ p4, ps !! t3 = Some p4 ∧ fresh z p4) as Hold.
    { intros t3 p3 E3 Hz3. pmoved E3; [by exists (PReset x)|by exists p3]. }
    destruct (Hold t1 p E1 Hz1) as (p1 & ? & ?), (Hold t2 p' E2 Hz2) as (p2 & ? & ?). by eapply H10.
  - intros t1 z E. pmoved E; [simplify_eq; by rewrite list_lookup_insert_eq|]. destruct (decide (z = x)) as [->|Hne]; [by rewrite list_lookup_insert_eq|].
    rewrite list_lookup_insert_ne by done. by apply (H11 t1).
Qed.

(** The node becomes the tail; the old tail is to be linked. *)
Lemma chain_xchg q L ps t x : chain q L ps → ps !! t = Some (PXchg x) →
  chain (mkQueue (head_ q) x (next_ q)) (L ++ [x]) (<[t := PLink (tail_ q) x]> ps).
Proof.
  intros [H1 H2 H3 H4 H5 H6 H7 H8 H9 H10 H11] Ht. pose proof (lookup_lt_Some _ _ _ Ht) as Hlt.
  destruct (H9 t _ x Ht eq_refl) as [Hx Hxl]. pose proof H2 as Hlast. rewrite last_lookup in Hlast.
  assert (∀ k a b, L !! k = Some a → L !! S k = Some b → a ≠ tail_ q) as Hnt.
  { intros k a b Ha Hb ->. pose proof (NoDup_lookup _ _ _ _ H3 Ha Hlast). pose proof (lookup_lt_Some _ _ _ Hb). lia. }
  split; simpl.
  - by destruct L.
  - by rewrite last_snoc.
  - apply NoDup_app. split_and!; [done| |apply NoDup_singleton]. intros y Hy Hy'. apply list_elem_of_singleton in Hy'. by subst.
  - apply Forall_app. by split; [|constructor].
  - intros k a b Ha Hb. destruct (decide (S k < length L)%nat) as [Hk|Hk].
    + rewrite lookup_app_l in Ha, Hb by lia. destruct (H5 k a b Ha Hb) as [?|(? & t1 & Ht1)]; [by left|]. right. split; [done|].
      exists t1. rewrite list_lookup_insert_ne; [done|]. intros ->. congruence.
    + assert (S k = length L) as Ek by (apply lookup_lt_Some in Hb; rewrite length_app in Hb; simpl in Hb; lia).
      rewrite lookup_app_r, Ek, Nat.sub_diag in Hb by lia. injection Hb as <-. rewrite lookup_app_l in Ha by lia.
      assert (a = tail_ q) as -> by (rewrite <- Ek in Hlast; simpl in Hlast; congruence). right. split; [done|]. exists t. by rewrite list_lookup_insert_eq.
  - by apply (H11 t).
  - intros t1 a b E. pmoved E.
    + simplify_eq. split; [|done]. exists (pred (length L)). destruct L as [|y L]; [done|]. simpl length. simpl pred in *. split; [by rewrite lookup_app_l by (simpl; lia)|].
      by rewrite lookup_app_r, Nat.sub_diag by (simpl; lia).
    + destruct (H7 t1 a b E) as ((k & Ha & Hb) & Hn). split; [|done]. exists k. split; by apply lookup_app_l_Some.
  - intros t1 t2 a b b' E1 E2. pmoved E1; pmoved E2; simplify_eq; [done|..|by eapply H8].
    + destruct (H7 _ _ _ E2) as ((k & Ha & Hb) & _). by destruct (Hnt _ _ _ Ha Hb).
    + destruct (H7 _ _ _ E1) as ((k & Ha & Hb) & _). by destruct (Hnt _ _ _ Ha Hb).
  - intros t1 p z E Hz. pmoved E; [done|]. destruct (H9 t1 p z E Hz) as [Hz1 Hz2]. split; [|done]. intros [?|Hz3%list_elem_of_singleton]%elem_of_app; [done|].
    subst z. assert (t1 = t); [|done]. by eapply (H10 t1 t p (PXchg x) x).
  - intros t1 t2 p p' z E1 E2 Hz1 Hz2. pmoved E1; [done|]. pmoved E2; [done|]. by eapply H10.
  - intros t1 z E. pmoved E; [done|]. by apply (H11 t1).
Qed.

(** The old tail is linked. *)
Lemma chain_linked q L ps t a b : chain q L ps → ps !! t = Some (PLink a b) →
  runs (push_step q (PLink a b)) (λ '(q', p'), p' = PIdle ∧ head_ q' = head_ q ∧ tail_ q' = tail_ q ∧
    length (next_ q') = length (next_ q) ∧ chain q' L (<[t := PIdle]> ps)).
Proof.
  intros [H1 H2 H3 H4 H5 H6 H7 H8 H9 H10 H11] Ht. pose proof (lookup_lt_Some _ _ _ Ht) as Hlt.
  destruct (H7 t a b Ht) as ((k0 & Ha0 & Hb0) & Hna). pose proof (lookup_lt_Some _ _ _ Hna) as Hal.
  cbn [push_step]. unfold store_next. rewrite (aset_some _ _ _ _ Hna), !bind_ok. apply runs_ok. split_and!; try done; simpl; [by rewrite length_insert|].
  rewrite last_lookup in H2. split; simpl; try done.
  - by rewrite last_lookup.
  - by rewrite length_insert.
  - intros k c d Hc Hd. destruct (decide (c = a)) as [->|Hne].
    + pose proof (NoDup_lookup _ _ _ _ H3 Hc Ha0). subst k. rewrite list_lookup_insert_eq by done. left. congruence.
    + rewrite list_lookup_insert_ne by done. destruct (H5 k c d Hc Hd) as [?|(? & t1 & Ht1)]; [by left|]. right. split; [done|].
      exists t1. rewrite list_lookup_insert_ne; [done|]. intros ->. congruence.
  - rewrite list_lookup_insert_ne; [done|]. intros ->. pose proof (NoDup_lookup _ _ _ _ H3 Ha0 H2). pose proof (lookup_lt_Some _ _ _ Hb0). lia.
  - intros t1 c d E. pmoved E; [done|]. destruct (H7 t1 c d E) as (Hk & Hn). split; [done|]. rewrite list_lookup_insert_ne; [done|].
    intros ->. assert (t1 = t); [|done]. by eapply H8.
  - intros t1 t2 c d d' E1 E2. pmoved E1; [done|]. pmoved E2; [done|]. by eapply H8.
  - intros t1 p z E Hz. rewrite length_insert. pmoved E; [done|by apply (H9 t1 p)].
  - intros t1 t2 p p' z E1 E2 Hz1 Hz2. pmoved E1; [done|]. pmoved E2; [done|]. by eapply H10.
  - intros t1 z E. pmoved E; [done|]. destruct (H9 t1 _ z E eq_refl) as [Hz _]. rewrite list_lookup_insert_ne; [by apply (H11 t1)|].
    intros ->. apply Hz. by eapply list_elem_of_lookup_2.
Qed.

(** A node is to be pushed. *)
Lemma chain_call q L ps t x : chain q L ps → ps !! t = Some PIdle → x ∉ L → (x < length (next_ q))%nat →
  (∀ (t' : nat) p, ps !! t' = Some p → ¬ fresh x p) → chain q L (<[t := PReset x]> ps).
Proof.
  intros [H1 H2 H3 H4 H5 H6 H7 H8 H9 H10 H11] Ht Hx Hxl Hno. split; try done.
  - intros k a b Ha Hb. destruct (H5 k a b Ha Hb) as [?|(? & t1 & Ht1)]; [by left|]. right. split; [done|].
    exists t1. rewrite list_lookup_insert_ne; [done|]. intros ->. congruence.
  - intros t1 a b E. pmoved E; [done|by apply (H7 t1)].
  - intros t1 t2 a b b' E1 E2. pmoved E1; [done|]. pmoved E2; [done|]. by eapply H8.
  - intros t1 p z E Hz. pmoved E; [simpl in Hz; by subst|by apply (H9 t1 p)].
  - intros t1 t2 p p' z E1 E2 Hz1 Hz2. pmoved E1; pmoved E2; [done|..|by eapply H10]; simpl in *; subst; exfalso; by eapply Hno.
  - intros t1 z E. pmoved E; [done|by apply (H11 t1)].
Qed.

(** The head moves to its next node. *)
Lemma chain_advance q L ps a b : chain q L ps → head_ q = a → next_ q !! a = Some (Some b) →
  ∃ L', L = a :: b :: L' ∧ chain (set_head q b) (b :: L') ps.
Proof.
  intros [H1 H2 H3 H4 H5 H6 H7 H8 H9 H10 H11] <- Hn. destruct L as [|a [|c L]]; [done| |]; simpl in H1; injection H1 as ->.
  - simpl in H2. injection H2 as E. rewrite <- E in H6. congruence.
  - assert (c = b) as -> by (destruct (H5 0%nat _ c eq_refl eq_refl) as [?|(? & _)]; congruence). exists L. split; [done|].
    pose proof H3 as H3'. apply NoDup_cons in H3 as [Hh H3]. apply Forall_cons in H4 as [_ H4]. split; try done.
    + intros k x y Hx Hy. by apply (H5 (S k)).
    + intros t x y E. destruct (H7 t x y E) as (([|k] & Hx & Hy) & Hnx); [simpl in Hx; congruence|]. split; [by exists k|done].
    + intros t p z E Hz. destruct (H9 t p z E Hz) as [Hz1 Hz2]. split; [|done]. set_solver.
Qed.

(** ** The invariant *)

Definition items (L : list nat) : list nat := filter (λ x, x ≠ stub) L.
Definition own_push (c : popper) : pusher := match c with CPush _ p => p | _ => PIdle end.
Definition pushers (s : System) : list pusher := own_push (consumer_ s) :: producers_ s.

Record inv (s : System) (L : list nat) : Prop := {
  i_chain : chain (queue_ s) L (pushers s);
  i_log : pushed_ s = popped_ s ++ items L;
  i_stub : Forall (λ p, ¬ fresh stub p) (producers_ s);
  i_cons : match consumer_ s with
           | CIdle | CNext => True
           | CEmpty => head_ (queue_ s) = stub
           | CSkip h => head_ (queue_ s) = h ∧ h ≠ stub ∧ stub ∉ L
           | CTail h | CLast h => head_ (queue_ s) = h ∧ h ≠ stub
           | CPush h p => head_ (queue_ s) = h ∧ h ≠ stub ∧ ∀ x, fresh x p → x = stub
           end;
  i_empties : Forall (λ l, l = []) (empties_ s);
}.

Lemma inv_waiting s L : inv s L → waiting s = items L.
Proof. intros HI. unfold waiting. rewrite (i_log _ _ HI). apply drop_app_length. Qed.

Lemma items_snoc L x : items (L ++ [x]) = items L ++ (if decide (x = stub) then [] else [x]).
Proof.
  unfold items. rewrite filter_app. f_equal. rewrite filter_cons, filter_nil. destruct (decide (x = stub)) as [->|Hne].
  - by rewrite decide_False by tauto.
  - by rewrite decide_True.
Qed.
Lemma items_cons x L : x ≠ stub → items (x :: L) = x :: items L.
Proof. intros Hx. unfold items. by rewrite filter_cons_True. Qed.
Lemma items_stub L : items (stub :: L) = items L.
Proof. unfold items. rewrite filter_cons_False; [done|tauto]. Qed.

(** A head that is the tail is alone. *)
Lemma chain_single q L ps : chain q L ps → tail_ q = head_ q → L = [head_ q].
Proof.
  intros Hc E. destruct L as [|x [|y L]]; [by destruct Hc| |]; pose proof (ch_head _ _ _ Hc) as Hh; simpl in Hh; injection Hh as ->; [done|].
  pose proof (ch_tail _ _ _ Hc) as Hl. pose proof (ch_nodup _ _ _ Hc) as Hnd. apply NoDup_cons in Hnd as [Hnin _]. exfalso. apply Hnin.
  rewrite <- E. rewrite last_cons_cons, last_lookup in Hl. by eapply list_elem_of_lookup_2.
Qed.

Lemma head_next q L ps : chain q L ps → is_Some (next_ q !! head_ q).
Proof.
  intros Hc. apply lookup_lt_is_Some_2. pose proof (ch_bound _ _ _ Hc) as Hb. rewrite Forall_forall in Hb. apply Hb.
  pose proof (ch_head _ _ _ Hc) as Hh. destruct L; [done|]. injection Hh as ->. by left.
Qed.

(** A call of [Push] makes a step. *)
Lemma push_chain q L ps (t : nat) p : chain q L ps → ps !! t = Some p → runs (push_step q p) (λ '(q', p'),
  head_ q' = head_ q ∧ length (next_ q') = length (next_ q) ∧ (∀ x, fresh x p' → fresh x p) ∧
  chain q' (match p with PXchg x => L ++ [x] | _ => L end) (<[t := p']> ps)).
Proof.
  intros Hc Ht. destruct p as [|x|x|a b].
  - apply runs_ok. by rewrite (list_insert_id _ _ _ Ht).
  - eapply runs_mono; [by apply (chain_reset q L ps t x)|]. intros [q' p'] (-> & ? & ? & ? & ?). done.
  - apply runs_ok. split_and!; [done|done|done|]. by apply chain_xchg.
  - eapply runs_mono; [by apply (chain_linked q L ps t a b)|]. intros [q' p'] (-> & ? & ? & ? & ?). by split_and!.
Qed.

Lemma stepP_inv s L t : inv s L → runs (act (StepP t) s) (λ s', ∃ L', inv s' L').
Proof.
  intros [Hc Hlog Hst Hcons Hem]. cbn [act]. destruct (producers_ s !! t) as [p|] eqn:Ht; [|apply runs_ok; exists L; by split].
  destruct (push_chain _ _ _ (S t) p Hc Ht) as ([q' p'] & -> & Hhd & Hlen & Hfr & Hc'). rewrite bind_ok. cbv beta iota. apply runs_ok.
  assert (∀ x, p = PXchg x → x ≠ stub) as Hns by (intros x -> ->; by apply (Forall_lookup_1 _ _ _ _ Hst Ht)).
  eexists. split; simpl; [exact Hc'| | |rewrite Hhd; destruct (consumer_ s); try done|done].
  - destruct p as [|x|x|a b]; try done. rewrite items_snoc, Hlog, decide_False by (by apply Hns). by rewrite app_assoc.
  - apply Forall_insert; [done|]. intros Hf%Hfr. by apply (Forall_lookup_1 _ _ _ _ Hst Ht).
  - destruct p as [|x|x|a b]; try done. destruct Hcons as (? & ? & Hnin). split_and!; [done|done|].
    intros [?|Hx%list_elem_of_singleton]%elem_of_app; [done|]. by apply (Hns x).
Qed.

(** The answer to a load of the next node. *)
Lemma with_next_inv s L h : inv s L → own_push (consumer_ s) = PIdle → head_ (queue_ s) = h → h ≠ stub →
  ∃ nx, next_ (queue_ s) !! h = Some nx ∧ let '(q, c, r) := with_next (queue_ s) h nx in ∃ L',
    inv (mkSystem q (producers_ s) c (pushed_ s) (match r with Some (Some x, _) => popped_ s ++ [x] | _ => popped_ s end)
          (match r with Some (None, true) => empties_ s ++ [waiting s] | _ => empties_ s end)) L'.
Proof.
  intros [Hc Hlog Hst Hcons Hem] Hown <- Hne. destruct (head_next _ _ _ Hc) as [nx Hnx]. exists nx. split; [done|].
  unfold pushers in Hc. rewrite Hown in Hc. destruct nx as [x|]; cbn [with_next].
  - destruct (chain_advance _ _ _ _ x Hc eq_refl Hnx) as (L' & -> & Hc'). exists (x :: L'). split; simpl; try done.
    rewrite Hlog, items_cons by done. by rewrite <- app_assoc.
  - exists L. by split.
Qed.

Lemma stepC_inv s L : inv s L → runs (act StepC s) (λ s', ∃ L', inv s' L').
Proof.
  intros HI. pose proof HI as [Hc Hlog Hst Hcons Hem]. cbn [act]. destruct (consumer_ s) as [| | |h|h|h p|h] eqn:Ec; cbn [pop_step].
  - apply runs_ok. exists L. split; simpl; try done. unfold pushers in Hc. by rewrite Ec in Hc.
  - unfold pushers in Hc. rewrite Ec in Hc. destruct (head_next _ _ _ Hc) as [nx Hnx]. unfold load_next. rewrite (aget_some _ _ _ Hnx), bind_ok.
    case_decide as Hh.
    + destruct nx as [x|]; apply runs_ok.
      * destruct (chain_advance _ _ _ _ x Hc eq_refl Hnx) as (L' & -> & Hc'). exists (x :: L'). rewrite Hh in *. rewrite items_stub in Hlog.
        pose proof (ch_nodup _ _ _ Hc) as Hnd. apply NoDup_cons in Hnd as [Hnin _]. split; simpl; try done. split_and!; [done|intros ->; apply Hnin; by left|done].
      * exists L. split; simpl; done.
    + destruct (with_next_inv s L _ HI ltac:(by rewrite Ec) eq_refl Hh) as (nx' & Hnx' & Hw). rewrite Hnx in Hnx'. injection Hnx' as <-.
      rewrite bind_ok. destruct (with_next _ _ _) as [[q' c'] r]. by apply runs_ok.
  - apply runs_ok. unfold pushers in Hc. rewrite Ec in Hc. exists L. split; simpl; try done. case_bool_decide as E; [|done].
    apply Forall_app. split; [done|]. apply Forall_singleton. rewrite (inv_waiting _ _ HI), (chain_single _ _ _ Hc E), Hcons. done.
  - destruct Hcons as (Hh & Hne & _). destruct (with_next_inv s L h HI ltac:(by rewrite Ec) Hh Hne) as (nx & Hnx & Hw). unfold load_next.
    rewrite (aget_some _ _ _ Hnx), !bind_ok. destruct (with_next _ _ _) as [[q' c'] r]. by apply runs_ok.
  - destruct Hcons as (Hh & Hne). unfold pushers in Hc. rewrite Ec in Hc. case_decide as E; apply runs_ok; exists L; split; simpl; try done.
    rewrite <- Hh in E. apply (chain_call _ _ _ 0 stub) in Hc; [done|done| | |].
    + rewrite (chain_single _ _ _ Hc E), Hh. rewrite list_elem_of_singleton. congruence.
    + destruct (head_next _ _ _ Hc) as [y Hy%lookup_lt_Some]. unfold stub. lia.
    + intros [|t'] p Hp; [injection Hp as <-; by intros []|]. by apply (Forall_lookup_1 _ _ _ _ Hst Hp).
  - destruct Hcons as (Hh & Hne & Hf). unfold pushers in Hc. rewrite Ec in Hc. cbn [own_push] in Hc.
    destruct (push_chain _ _ _ 0 p Hc eq_refl) as ([q' p'] & -> & Hhd & Hlen & Hfr & Hc'). rewrite !bind_ok. apply runs_ok.
    exists (match p with PXchg x => L ++ [x] | _ => L end). split; simpl; [|rewrite Hlog; f_equal|done| |done].
    + unfold pushers. simpl. replace (own_push (match p' with PIdle => CLast h | _ => CPush h p' end)) with p' by (by destruct p'). exact Hc'.
    + destruct p as [|x|x|a b]; try done. by rewrite items_snoc, (Hf x eq_refl), decide_True, app_nil_r.
    + rewrite Hhd. destruct p'; split_and!; try done; intros y Hy; by apply Hf, Hfr.
  - destruct Hcons as (Hh & Hne). destruct (with_next_inv s L h HI ltac:(by rewrite Ec) Hh Hne) as (nx & Hnx & Hw). unfold load_next.
    rewrite (aget_some _ _ _ Hnx), !bind_ok. destruct nx as [x|]; cbn [with_next] in Hw; [by apply runs_ok|].
    apply runs_ok. exists L. unfold pushers in Hc. rewrite Ec in Hc. by split.
Qed.

Lemma mpsc_call_inv s L t item : inv s L → runs (act (CallPush t item) s) (λ s', ∃ L', inv s' L').
Proof.
  intros HI. pose proof HI as [Hc Hlog Hst Hcons Hem]. cbn [act]. apply runs_ok. exists L. destruct (producers_ s !! t) as [[]|] eqn:Ht; try done.
  case_decide as Hm; [|done]. destruct Hm as (Hns & Hw & Hlt & Hf). rewrite (inv_waiting _ _ HI) in Hw. split; simpl; try done.
  - unfold pushers. simpl. apply (chain_call _ _ _ (S t) item) in Hc; [done|done| |done|].
    + intros Hx. apply Hw. unfold items. by apply list_elem_of_filter.
    + intros [|t'] p Hp.
      * injection Hp as <-. intros Hx. destruct (consumer_ s); try done. by apply Hns, Hcons.
      * by apply (Forall_lookup_1 _ _ _ _ Hf Hp).
  - apply Forall_insert; [done|]. simpl. congruence.
Qed.

Lemma mpsc_act_inv a s L : inv s L → runs (act a s) (λ s', ∃ L', inv s' L').
Proof.
  intros HI. destruct a as [t item| |t|]; [by eapply mpsc_call_inv| |by eapply stepP_inv|by eapply stepC_inv].
  apply runs_ok. exists L. destruct HI as [Hc Hlog Hst Hcons Hem]. unfold pushers in Hc. destruct (consumer_ s) eqn:E; split; simpl; rewrite ?E; try done; unfold pushers; by rewrite E.
Qed.

Lemma mpsc_new_inv n m : (0 < n)%nat → inv (new_system n m) [stub].
Proof.
  intros Hn. split; simpl; try done; [|by apply Forall_replicate; intros []].
  assert (∀ (t : nat) p, (PIdle :: replicate m PIdle) !! t = Some p → p = PIdle) as Hidle by (intros [|t] p; simpl; [congruence|by intros [-> _]%lookup_replicate]).
  unfold pushers, new_queue. simpl. split; simpl; try done.
  - apply NoDup_singleton.
  - apply Forall_singleton. rewrite length_replicate. unfold stub. lia.
  - apply lookup_replicate. split; [done|]. unfold stub. lia.
  - by intros t a b ?%Hidle.
  - by intros t t' a b b' ?%Hidle.
  - intros t p x ->%Hidle [].
  - intros t t' p p' x ->%Hidle _ [].
  - by intros t x ?%Hidle.
Qed.

Lemma mpsc_acts_inv l n m : (0 < n)%nat → runs (acts l (new_system n m)) (λ s, ∃ L, inv s L).
Proof.
  intros Hn. assert (∀ s, (∃ L, inv s L) → runs (acts l s) (λ s, ∃ L, inv s L)) as H; [|apply H; exists [stub]; by apply mpsc_new_inv].
  induction l as [|a l IH]; intros s Hs; unfold acts; cbn [rfold]; [by apply runs_ok|]. destruct Hs as (L & HI).
  rbind (mpsc_act_inv a s L HI). intros s' Hs'. by apply IH.
Qed.


(** ** A consumer that nobody interferes with *)

(** No call of [Push] is under way. *)
Definition quiet (q : Queue) (L : list nat) : Prop := chain q L [PIdle].

Lemma quiet_next q L k a : quiet q L → L !! k = Some a → next_ q !! a = Some (L !! S k).
Proof.
  intros Hc Ha. destruct (L !! S k) as [b|] eqn:Hb.
  - destruct (ch_link _ _ _ Hc k a b Ha Hb) as [?|(_ & [|t] & Ht)]; [done|done|done].
  - assert (a = tail_ q) as ->; [|apply (ch_end _ _ _ Hc)]. pose proof (ch_tail _ _ _ Hc) as Hl. rewrite last_lookup in Hl.
    apply lookup_ge_None in Hb. apply lookup_lt_Some in Ha as Hk. replace (pred (length L)) with k in Hl by lia. congruence.
Qed.

(** The last item is returned once the stub is behind it. *)
Lemma push_stub_spec q x : quiet q [x] → x ≠ stub →
  runs (run_pop 4 q (CPush x (PReset stub))) (λ '(q', r), r = (Some x, false) ∧ quiet q' [stub]).
Proof.
  intros Hq Hx. pose proof (head_next _ _ _ Hq) as [y Hy%lookup_lt_Some]. pose proof (ch_head _ _ _ Hq) as [= Hh].
  assert (chain q [x] [PReset stub]) as H1.
  { apply (chain_call q [x] [PIdle] 0 stub); [done|done|by rewrite list_elem_of_singleton|unfold stub; lia|]. intros [|t] p Hp; [injection Hp as <-; by intros []|done]. }
  cbn [run_pop pop_step]. destruct (chain_reset q [x] [PReset stub] 0 stub H1 eq_refl) as ([q2 p2] & -> & -> & Hh2 & _ & _ & H2). rewrite !bind_ok. cbn [run_pop pop_step list_insert insert] in *.
  pose proof (chain_xchg q2 [x] [PXchg stub] 0 stub H2 eq_refl) as H3. cbn [push_step]. rewrite !bind_ok. cbn [run_pop pop_step list_insert insert app] in *.
  destruct (chain_linked _ [x; stub] [PLink (tail_ q2) stub] 0 _ stub H3 eq_refl) as ([q4 p4] & -> & -> & Hh4 & _ & _ & H4). rewrite !bind_ok. cbn [run_pop pop_step list_insert insert app] in *.
  unfold load_next. pose proof (quiet_next q4 [x; stub] 0 x H4 eq_refl) as Hn. cbn in Hn. rewrite (aget_some _ _ _ Hn), !bind_ok. apply runs_ok. split; [done|].
  destruct (chain_advance q4 [x; stub] _ x stub H4 ltac:(rewrite Hh4; simpl; congruence) Hn) as (L' & E & H5). injection E as <-. exact H5.
Qed.

Lemma run_pop_S fuel q c : run_pop (S fuel) q c =
  ('(q', c', r) ← pop_step q c; match r with Some r => Ok (q', r) | None => run_pop fuel q' c' end).
Proof. done. Qed.

Lemma run_pop_mono fuel fuel' q c r : (fuel ≤ fuel')%nat → run_pop fuel q c = Ok r → run_pop fuel' q c = Ok r.
Proof.
  revert fuel' q c. induction fuel as [|fuel IH]; intros fuel' q c Hf; [done|]. destruct fuel' as [|fuel']; [lia|]. rewrite !run_pop_S.
  destruct (pop_step q c) as [[[q1 c1] [r1|]]|]; [done| |done]. rewrite !bind_ok. apply IH. lia.
Qed.

(** The head is an item. *)
Lemma pop_item fuel q x L : quiet q (x :: L) → x ≠ stub → (5 ≤ fuel)%nat → ∃ nx, next_ q !! x = Some nx ∧
  let '(q', c, r) := with_next q x nx in
  runs (match r with Some r => Ok (q', r) | None => run_pop fuel q' c end) (λ '(q', r), r = (Some x, false) ∧ ∃ L', quiet q' L' ∧ items L' = items L).
Proof.
  intros Hq Hx Hf. exists (L !! 0%nat). split; [by apply (quiet_next q (x :: L) 0)|]. pose proof (ch_head _ _ _ Hq) as [= Hh]. destruct L as [|y L]; cbn [with_next lookup list_lookup].
  - destruct fuel as [|fuel]; [lia|]. rewrite run_pop_S. cbn [pop_step]. pose proof (ch_tail _ _ _ Hq) as [= Ht]. rewrite decide_True, bind_ok by done.
    destruct (push_stub_spec q x Hq Hx) as ([q' r] & E & -> & Hq'). exists (q', (Some x, false)).
    split; [apply (run_pop_mono 4); [lia|done]|]. split; [done|]. by exists [stub].
  - apply runs_ok. split; [done|]. pose proof (quiet_next q (x :: y :: L) 0 x Hq eq_refl) as Hn. cbn in Hn.
    destruct (chain_advance q (x :: y :: L) _ x y Hq (eq_sym Hh) Hn) as (L' & E & H5). injection E as <-. by exists (y :: L).
Qed.

Lemma PopWeak_spec q L : quiet q L → runs (PopWeak q) (λ '(q', r), r = (head (items L), bool_decide (items L = [])) ∧
  ∃ L', quiet q' L' ∧ items L' = tail (items L)).
Proof.
  intros Hq. unfold PopWeak. rewrite run_pop_S. cbn [pop_step]. destruct L as [|h L]; [by destruct Hq|]. pose proof (ch_head _ _ _ Hq) as [= Hh].
  unfold load_next. rewrite <- Hh. pose proof (quiet_next q (h :: L) 0 h Hq eq_refl) as Hn. simpl in Hn. rewrite (aget_some _ _ _ Hn), !bind_ok.
  case_decide as Hs.
  - rewrite Hs in Hh, Hn, Hq |- *. rewrite items_stub. destruct L as [|x L]; cbn [lookup list_lookup] in *.
    + rewrite !bind_ok, run_pop_S. cbn [pop_step]. pose proof (ch_tail _ _ _ Hq) as [= Ht]. rewrite bool_decide_true by congruence. apply runs_ok. split; [done|]. by exists [stub].
    + destruct (chain_advance q (stub :: x :: L) _ stub x Hq (eq_sym Hh) Hn) as (L' & E & Hq'). injection E as <-.
      pose proof (ch_nodup _ _ _ Hq) as Hnd. apply NoDup_cons in Hnd as [Hnin _]. assert (x ≠ stub) as Hx by (intros ->; apply Hnin; left).
      destruct (pop_item 6 _ _ _ Hq' Hx ltac:(lia)) as (nx & Hnx & Hr). rewrite bind_ok, run_pop_S. cbn [pop_step]. unfold load_next. rewrite (aget_some _ _ _ Hnx), !bind_ok.
      rewrite (items_cons x L Hx). destruct (with_next _ _ _) as [[q' c] r]. eapply runs_mono; [exact Hr|]. by intros [q2 r2] [-> Hl].
  - rewrite (items_cons h L Hs). destruct (pop_item 7 _ _ _ Hq Hs ltac:(lia)) as (nx & Hnx & Hr). rewrite Hn in Hnx. injection Hnx as <-.
    rewrite bind_ok. destruct (with_next _ _ _) as [[q' c] r]. eapply runs_mono; [exact Hr|]. by intros [q2 r2] [-> Hl].
Qed.

Lemma chain_quiet q L ps : chain q L ps → Forall (λ p, p = PIdle) ps → quiet q L.
Proof.
  intros [H1 H2 H3 H4 H5 H6 H7 H8 H9 H10 H11] Hi. assert (∀ (t : nat) p, ps !! t = Some p → p = PIdle) as Hidle by (by apply Forall_lookup).
  assert (∀ (t : nat) p, [PIdle] !! t = Some p → p = PIdle) as Hone by (intros [|t] p; [by intros [= <-]|done]). split; try done.
  - intros k a b Ha Hb. destruct (H5 k a b Ha Hb) as [?|(_ & t & Ht)]; [by left|]. by apply Hidle in Ht.
  - by intros t a b ?%Hone.
  - by intros t t' a b b' ?%Hone.
  - by intros t p x ->%Hone.
  - by intros t t' p p' x ->%Hone.
  - by intros t x ?%Hone.
Qed.

(** After any interleaving, once no call is under way, [Pop] returns the item
    that was pushed first, or null when there is none, and never waits. *)
Theorem mpsc_pop l n m fuel : (0 < n)%nat → (0 < fuel)%nat → runs (acts l (new_system n m)) (λ s,
  Forall (λ p, p = PIdle) (producers_ s) → consumer_ s = CIdle →
  runs (Pop fuel (queue_ s)) (λ '(q, r), r = head (waiting s)) ∧ (r ← Empty (queue_ s); Ok r) = Ok (bool_decide (waiting s = []))).
Proof.
  intros Hn Hf. eapply runs_mono; [by apply mpsc_acts_inv|]. intros s (L & HI) Hi Hc. pose proof (i_chain _ _ HI) as Hch.
  unfold pushers in Hch. rewrite Hc in Hch. apply chain_quiet in Hch; [|by constructor]. rewrite (inv_waiting _ _ HI). split.
  - destruct fuel as [|fuel]; [lia|]. cbn [Pop]. destruct (PopWeak_spec _ _ Hch) as ([q' r] & -> & -> & _). rewrite bind_ok. cbv beta iota.
    destruct (items L); by apply runs_ok.
  - unfold Empty, load_next. destruct L as [|h L]; [by destruct Hch|]. pose proof (ch_head _ _ _ Hch) as [= Hh]. rewrite <- Hh.
    rewrite (aget_some _ _ _ (quiet_next _ _ 0 h Hch eq_refl)), !bind_ok. f_equal. apply bool_decide_ext. pose proof (ch_nodup _ _ _ Hch) as Hnd.
    apply NoDup_cons in Hnd as [Hnin _]. simpl. split.
    + intros [-> E]. destruct L; [by rewrite items_stub|done].
    + intros E. destruct (decide (h = stub)) as [->|Hne]; [|by rewrite items_cons in E]. split; [done|]. rewrite items_stub in E.
      destruct L as [|x L]; [done|]. destruct (decide (x = stub)) as [->|Hx]; [exfalso; apply Hnin; left|]. by rewrite items_cons in E.
Qed.
