(* ===== verification/Arena.v ===== *)
(** Arena: memory that is handed out piece by piece and given back at once.
    Source: src/net/util/pmr/arena.h, arena.cc.

    An address is a number. The memory resource, [std::pmr::memory_resource], is a
    parameter: it answers an address that depends on the blocks it gave out
    before, or throws [std::bad_alloc], which is [None]: the exception leaves the
    arena as it was. *)
From S2P Require Import Prelude.
Local Open Scope Z_scope.

Record Block : Set := mkBlock { ptr : Z; sz : Z }.

(** [mr_->allocate(bytes)], and what the standard promises of it: the block is
    aligned for every type, ends before the last address, and overlaps no block
    that was not given back. *)
Class MemoryResource : Type := allocate : list Block → Z → option Z.

Definition apart (p n q m : Z) : Prop := p + n ≤ q ∨ q + m ≤ p.

Class MemoryResourceOk `{MemoryResource} : Prop := {
  mr_aligned : ∀ bs n p, allocate bs n = Some p → p mod 16 = 0;
  mr_range : ∀ bs n p, allocate bs n = Some p → 0 < p ∧ p + n < 2 ^ 64;
  mr_apart : ∀ bs n p b, allocate bs n = Some p → b ∈ bs → apart (ptr b) (sz b) p n;
}.

(** [blocks_] has the newest block last; the memory that [blocks_] itself takes
    is not modelled. *)
Record PmrArena : Set := mkArena {
  alloc_ptr_ : Z;
  alloc_bytes_remaining_ : Z;
  blocks_memory_ : Z;
  blocks_ : list Block;
}.

Definition new_arena : PmrArena := mkArena 0 0 0 [].
Definition kBlockSize : Z := 8192.

Section arena.
Context `{MemoryResource}.

(** The size is a parameter of type [uint32_t]. *)
Definition AllocateNewBlock (a : PmrArena) (bytes : Z) : option (PmrArena * Z) :=
  let block_bytes := u32 bytes in
  result ← allocate (blocks_ a) block_bytes;
  Some (mkArena (alloc_ptr_ a) (alloc_bytes_remaining_ a) (u64 (blocks_memory_ a + block_bytes)) (blocks_ a ++ [mkBlock result block_bytes]), result).

(** [result = alloc_ptr_ + slop], and the piece is taken. *)
Definition take_piece (a : PmrArena) (slop needed : Z) : PmrArena * Z :=
  (mkArena (u64 (alloc_ptr_ a + needed)) (u64 (alloc_bytes_remaining_ a - needed)) (blocks_memory_ a) (blocks_ a), u64 (alloc_ptr_ a + slop)).

Definition AllocateFallback (a : PmrArena) (bytes : Z) : option (PmrArena * Z) :=
  if kBlockSize / 4 <? bytes then AllocateNewBlock a bytes
  else
    '(a, p) ← AllocateNewBlock a kBlockSize;
    Some (take_piece (mkArena p kBlockSize (blocks_memory_ a) (blocks_ a)) 0 bytes).

Definition Allocate (a : PmrArena) (bytes : Z) : res (option (PmrArena * Z)) :=
  _ ← cassert (0 <? bytes);
  Ok (if bytes <=? alloc_bytes_remaining_ a then Some (take_piece a 0 bytes) else AllocateFallback a bytes).

Definition AllocateAligned (a : PmrArena) (bytes : Z) : res (option (PmrArena * Z)) :=
  let align := 8 in
  let current_mod := Z.land (alloc_ptr_ a) (align - 1) in
  let slop := if current_mod =? 0 then 0 else align - current_mod in
  let needed := u64 (bytes + slop) in
  match (if needed <=? alloc_bytes_remaining_ a then Some (take_piece a slop needed) else AllocateFallback a bytes) with
  | Some (a, result) => _ ← cassert (Z.land result (align - 1) =? 0); Ok (Some (a, result))
  | None => Ok None
  end.

(** The destructor gives these blocks back. *)
Definition destroy (a : PmrArena) : list Block := blocks_ a.

(** Both arenas of a call are of one memory resource here. *)
Definition Swap (a other : PmrArena) : PmrArena * PmrArena := (other, a).

(** A sequence of requests, and what each of them got. *)
Inductive request : Set := Plain (bytes : Z) | Aligned (bytes : Z).
Definition bytes_of (r : request) : Z := match r with Plain n | Aligned n => n end.
Definition serve (r : request) (s : PmrArena * list (request * option Z)) : res (PmrArena * list (request * option Z)) :=
  o ← (match r with Plain n => Allocate (fst s) n | Aligned n => AllocateAligned (fst s) n end);
  Ok (match o with Some (a, p) => (a, snd s ++ [(r, Some p)]) | None => (fst s, snd s ++ [(r, None)]) end).
Definition serve_all (rs : list request) : res (PmrArena * list (request * option Z)) := rfold serve rs (new_arena, []).

(** The pieces that were given out. *)
Definition pieces (log : list (request * option Z)) : list Block := omap (λ '(r, o), p ← o; Some (mkBlock p (bytes_of r))) log.

(** ** The pieces *)

Context `{!MemoryResourceOk}.

Definition inside (p n : Z) (b : Block) : Prop := ptr b ≤ p ∧ p + n ≤ ptr b + sz b.
Definition all_apart (bs : list Block) : Prop := ∀ i j b c, i ≠ j → bs !! i = Some b → bs !! j = Some c → apart (ptr b) (sz b) (ptr c) (sz c).

(** The blocks are apart; the pieces [given] are apart, lie in blocks, and are
    apart from the rest of the current block. *)
Record inv (a : PmrArena) (given : list Block) : Prop := {
  in_blocks : all_apart (blocks_ a);
  in_range : Forall (λ b, 0 < ptr b ∧ 0 ≤ sz b ∧ ptr b + sz b < 2 ^ 64) (blocks_ a);
  in_rest : 0 ≤ alloc_ptr_ a ∧ 0 ≤ alloc_bytes_remaining_ a ∧
    (alloc_bytes_remaining_ a = 0 ∧ alloc_ptr_ a = 0 ∨ ∃ b, b ∈ blocks_ a ∧ inside (alloc_ptr_ a) (alloc_bytes_remaining_ a) b);
  in_given : Forall (λ g, 0 < sz g ∧ (∃ b, b ∈ blocks_ a ∧ inside (ptr g) (sz g) b) ∧
    apart (ptr g) (sz g) (alloc_ptr_ a) (alloc_bytes_remaining_ a)) given;
  in_apart : all_apart given;
}.

Lemma apart_sym p n q m : apart p n q m → apart q m p n.
Proof. unfold apart. lia. Qed.

Lemma all_apart_snoc bs c : all_apart bs → Forall (λ b, apart (ptr b) (sz b) (ptr c) (sz c)) bs → all_apart (bs ++ [c]).
Proof.
  intros Hb Hc i j x y Hij Hx Hy. apply lookup_app_Some in Hx as [Hx|[Hi Hx]]; apply lookup_app_Some in Hy as [Hy|[Hj Hy]].
  - by eapply Hb.
  - apply list_lookup_singleton_Some in Hy as [_ <-]. by apply (Forall_lookup_1 _ _ _ _ Hc Hx).
  - apply list_lookup_singleton_Some in Hx as [_ <-]. apply apart_sym. by apply (Forall_lookup_1 _ _ _ _ Hc Hy).
  - apply list_lookup_singleton_Some in Hx as [? _]. apply list_lookup_singleton_Some in Hy as [? _]. lia.
Qed.

(** A piece of the rest of the current block is taken. *)
Lemma take_piece_spec a given slop needed n : inv a given → 0 ≤ slop → 0 < n → slop + n = needed → needed ≤ alloc_bytes_remaining_ a →
  let '(a', p) := take_piece a slop needed in p = alloc_ptr_ a + slop ∧ inv a' (given ++ [mkBlock p n]).
Proof.
  intros [Hb Hr (Hp & Hrem & Hrest) Hg Hap] Hs Hn Hneed Hle. unfold take_piece. destruct Hrest as [[? _]|(b & Hin & Hib)]; [lia|].
  pose proof Hr as Hr'. rewrite Forall_forall in Hr'. specialize (Hr' b Hin). unfold inside in Hib. rewrite !(uN_small 64) by lia. split; [done|].
  split; simpl; try done.
  - split_and!; [lia|lia|]. right. exists b. split; [done|]. unfold inside. lia.
  - apply Forall_app. split.
    + eapply Forall_impl; [exact Hg|]. intros g (? & ? & Hgap). split_and!; [done|done|]. unfold apart in *. lia.
    + apply Forall_singleton. simpl. split_and!; [done|exists b; split; [done|]; unfold inside; lia|]. unfold apart. lia.
  - apply all_apart_snoc; [done|]. eapply Forall_impl; [exact Hg|]. intros g (_ & _ & Hgap). unfold apart in *. simpl. lia.
Qed.

(** A new block is apart from everything. *)
Lemma new_block_spec a given n a' p : inv a given → 0 < n < 2 ^ 32 → AllocateNewBlock a n = Some (a', p) →
  p mod 16 = 0 ∧ mkBlock p n ∈ blocks_ a' ∧ 0 < p ∧ p + n < 2 ^ 64 ∧ alloc_ptr_ a' = alloc_ptr_ a ∧ alloc_bytes_remaining_ a' = alloc_bytes_remaining_ a ∧
  Forall (λ g, apart (ptr g) (sz g) p n) given ∧ inv a' given ∧ apart p n (alloc_ptr_ a) (alloc_bytes_remaining_ a).
Proof.
  intros [Hb Hr (Hp & Hrem & Hrest) Hg Hap] Hn. unfold AllocateNewBlock. rewrite (uN_small 32) by lia.
  destruct (allocate (blocks_ a) n) as [p0|] eqn:E; [|done]. intros [= <- <-]. pose proof (mr_range _ _ _ E) as [Hp0 Hpn].
  assert (∀ b, b ∈ blocks_ a → apart (ptr b) (sz b) p0 n) as Hnew by (intros b Hin; by apply (mr_apart (blocks_ a))).
  simpl. split_and!; try done; [by eapply mr_aligned|apply elem_of_app; right; by left| | |].
  - eapply Forall_impl; [exact Hg|]. intros g (Hg0 & (b & Hin & Hib) & _). specialize (Hnew b Hin). unfold inside, apart in *. lia.
  - split; simpl; try done.
    + apply all_apart_snoc; [done|]. apply Forall_forall. done.
    + apply Forall_app. split; [done|]. apply Forall_singleton. simpl. lia.
    + split_and!; [done|done|]. destruct Hrest as [?|(b & Hin & ?)]; [by left|]. right. exists b. split; [|done]. apply elem_of_app. by left.
    + eapply Forall_impl; [exact Hg|]. intros g (? & (b & Hin & ?) & ?). split_and!; [done| |done]. exists b. split; [|done]. apply elem_of_app. by left.
  - destruct Hrest as [[E1 E2]|(b & Hin & Hib)]; [unfold apart; lia|]. specialize (Hnew b Hin). unfold inside, apart in *. lia.
Qed.

Lemma AllocateFallback_spec a given n a' p : inv a given → 0 < n < 2 ^ 32 → AllocateFallback a n = Some (a', p) →
  p mod 16 = 0 ∧ inv a' (given ++ [mkBlock p n]).
Proof.
  intros HI Hn. unfold AllocateFallback. change (kBlockSize / 4) with 2048. destruct (Z.ltb_spec 2048 n) as [Hbig|Hsmall]; intros E.
  - destruct (new_block_spec a given n a' p HI Hn E) as (Hal & Hin & Hp & Hpn & E1 & E2 & Hgap & [Hb Hr Hrest Hg Hap] & Hrest').
    split; [done|]. split; try done.
    + apply Forall_app. split; [done|]. apply Forall_singleton. simpl. rewrite E1, E2. split_and!; [lia| |done]. exists (mkBlock p n). split; [done|]. unfold inside. simpl. lia.
    + by apply all_apart_snoc.
  - destruct (AllocateNewBlock a kBlockSize) as [[a1 p1]|] eqn:E0; [|done]. cbn in E.
    destruct (new_block_spec a given kBlockSize a1 p1 HI ltac:(done) E0) as (Hal & Hin & Hp & Hpn & E1 & E2 & Hgap & [Hb Hr Hrest Hg Hap] & Hrest').
    assert (inv (mkArena p1 kBlockSize (blocks_memory_ a1) (blocks_ a1)) given) as HI'.
    { split; simpl; try done.
      - split_and!; [lia|done|]. right. exists (mkBlock p1 kBlockSize). split; [done|]. unfold inside. simpl. lia.
      - rewrite Forall_forall in Hg, Hgap |- *. intros g Hgin. destruct (Hg g Hgin) as (? & ? & _). split_and!; [done|done|by apply Hgap]. }
    pose proof (take_piece_spec _ given 0 n n HI' ltac:(lia) ltac:(lia) ltac:(lia) ltac:(simpl; unfold kBlockSize; lia)) as Ht.
    injection E as <- <-. cbn -[u64] in Ht |- *. destruct Ht as [-> Ht]. by rewrite Z.add_0_r in *.
Qed.

(** What a request gets. *)
Definition got (r : request) (given : list Block) (o : option (PmrArena * Z)) : Prop :=
  match o with
  | Some (a', p) => inv a' (given ++ [mkBlock p (bytes_of r)]) ∧ match r with Aligned _ => p mod 8 = 0 | _ => True end
  | None => True
  end.

Lemma Allocate_spec a given n : inv a given → 0 < n < 2 ^ 32 → runs (Allocate a n) (got (Plain n) given).
Proof.
  intros HI Hn. unfold Allocate. rewrite (proj2 (Z.ltb_lt 0 n)) by lia. cbn [cassert]. rewrite bind_ok. apply runs_ok.
  destruct (Z.leb_spec n (alloc_bytes_remaining_ a)) as [Hle|Hgt].
  - pose proof (take_piece_spec a given 0 n n HI ltac:(lia) ltac:(lia) ltac:(lia) Hle) as Ht. unfold got. destruct (take_piece a 0 n). by destruct Ht as [_ ?].
  - unfold got. destruct (AllocateFallback a n) as [[a' p]|] eqn:E; [|done]. by apply (AllocateFallback_spec a given n) in E as [_ ?].
Qed.

Lemma land_7 x : Z.land x (8 - 1) = x mod 8.
Proof. change (8 - 1) with (Z.ones 3). by rewrite Z.land_ones. Qed.

Lemma mod_16_8 x : x mod 16 = 0 → x mod 8 = 0.
Proof. intros H1. pose proof (Z.div_mod x 16 ltac:(lia)). pose proof (Z.div_mod x 8 ltac:(lia)). pose proof (Z.mod_pos_bound x 8 ltac:(lia)). lia. Qed.

Lemma round_up x : let m := x mod 8 in let slop := if m =? 0 then 0 else 8 - m in 0 ≤ slop < 8 ∧ (x + slop) mod 8 = 0.
Proof.
  pose proof (Z.mod_pos_bound x 8 ltac:(lia)) as Hm. cbv zeta. destruct (Z.eqb_spec (x mod 8) 0); [by rewrite Z.add_0_r|]. split; [lia|].
  replace (x + (8 - x mod 8)) with ((x / 8 + 1) * 8); [apply Z.mod_mul; lia|]. pose proof (Z.div_mod x 8 ltac:(lia)). lia.
Qed.

Lemma AllocateAligned_spec a given n : inv a given → 0 < n < 2 ^ 32 → runs (AllocateAligned a n) (got (Aligned n) given).
Proof.
  intros HI Hn. unfold AllocateAligned. rewrite land_7. destruct (round_up (alloc_ptr_ a)) as [Hs Hal]. set (slop := if _ =? 0 then 0 else _) in *.
  rewrite (uN_small 64) by lia. destruct (Z.leb_spec (n + slop) (alloc_bytes_remaining_ a)) as [Hle|Hgt].
  - pose proof (take_piece_spec a given slop (n + slop) n HI ltac:(lia) ltac:(lia) ltac:(lia) Hle) as Ht. destruct (take_piece a slop (n + slop)) as [a' p].
    destruct Ht as [-> Ht]. rewrite land_7, Hal, Z.eqb_refl. cbn [cassert]. rewrite bind_ok. by apply runs_ok.
  - destruct (AllocateFallback a n) as [[a' p]|] eqn:E; [|by apply runs_ok]. apply (AllocateFallback_spec a given n) in E as [Hp%mod_16_8 Ht]; [|done|done].
    rewrite land_7, Hp, Z.eqb_refl. cbn [cassert]. rewrite bind_ok. by apply runs_ok.
Qed.

Lemma arena_new_inv : inv new_arena [].
Proof. split; simpl; try done. split_and!; [done|done|by left]. Qed.

Lemma serve_spec r a log : inv a (pieces log) → 0 < bytes_of r < 2 ^ 32 →
  runs (serve r (a, log)) (λ '(a', log'), ∃ o, log' = log ++ [(r, o)] ∧ inv a' (pieces log') ∧
    match r, o with Aligned _, Some p => p mod 8 = 0 | _, _ => True end).
Proof.
  intros HI Hr. unfold serve. cbn [fst snd].
  assert (runs (match r with Plain n => Allocate a n | Aligned n => AllocateAligned a n end) (got r (pieces log))) as (o & -> & Ho)
    by (destruct r; [by apply Allocate_spec|by apply AllocateAligned_spec]).
  rewrite bind_ok. apply runs_ok. unfold pieces in *. destruct o as [[a' p]|]; eexists; (split; [done|]); rewrite omap_app; simpl.
  - destruct Ho as [Ho Hp]. split; [done|by destruct r].
  - rewrite app_nil_r. split; [done|by destruct r].
Qed.

(** (C38) For requests of less than 4 GB no assertion of the arena fails: every
    piece lies in one block of the memory resource, no two pieces share a byte, and the
    pieces of [AllocateAligned] are aligned; the destructor gives back the
    blocks, which do not overlap. *)
Theorem arena_pieces rs : Forall (λ r, 0 < bytes_of r < 2 ^ 32) rs →
  runs (serve_all rs) (λ '(a, log), log.*1 = rs ∧ all_apart (pieces log) ∧
    Forall (λ g, ∃ b, b ∈ destroy a ∧ inside (ptr g) (sz g) b) (pieces log) ∧
    (∀ n p, (Aligned n, Some p) ∈ log → p mod 8 = 0) ∧ all_apart (destroy a)).
Proof.
  intros Hrs. unfold serve_all.
  eapply runs_mono; [apply (rfold_runs _ rs (λ pre '(a, log), log.*1 = pre ∧ inv a (pieces log) ∧ ∀ n p, (Aligned n, Some p) ∈ log → p mod 8 = 0))|].
  - split_and!; [done|apply arena_new_inv|]. by intros n p ?%elem_of_nil.
  - intros pre r post [a log] -> (Hpre & HI & Hal). apply Forall_app in Hrs as [_ [Hr _]%Forall_cons].
    eapply runs_mono; [by apply serve_spec|]. intros [a' log'] (o & -> & HI' & Hp). split_and!; [by rewrite fmap_app, Hpre|done|].
    intros n p [?|Hin%list_elem_of_singleton]%elem_of_app; [by eapply Hal|]. injection Hin as <- <-. done.
  - intros [a log] (Hlog & [Hb _ _ Hg Hap] & Hal). split_and!; try done. eapply Forall_impl; [exact Hg|]. by intros g (_ & ? & _).
Qed.

(** A request of 4 GB and more gets a block of its size modulo 4 GB only: the
    piece reaches behind the block. *)
Theorem arena_truncates a n p : alloc_bytes_remaining_ a < 2 ^ 32 ≤ n → allocate (blocks_ a) (n mod 2 ^ 32) = Some p →
  ∃ a' b, Allocate a n = Ok (Some (a', p)) ∧ blocks_ a' = blocks_ a ++ [b] ∧ ptr b = p ∧ sz b = n mod 2 ^ 32 ∧ ¬ inside p n b.
Proof.
  intros Hn Hp. unfold Allocate. rewrite (proj2 (Z.ltb_lt 0 n)) by lia. cbn [cassert]. rewrite bind_ok, (proj2 (Z.leb_gt n _)) by lia.
  unfold AllocateFallback. change (kBlockSize / 4) with 2048. rewrite (proj2 (Z.ltb_lt 2048 n)) by lia. unfold AllocateNewBlock. cbv zeta.
  assert (u32 n = n mod 2 ^ 32) as -> by (unfold uN; by rewrite Z.land_ones). rewrite Hp. cbn [mbind option_bind].
  eexists _, _. split; [done|]. simpl. split_and!; [done|done|done|]. unfold inside. simpl. pose proof (Z.mod_pos_bound n (2 ^ 32) ltac:(lia)). lia.
Qed.
End arena.

(** ** A memory resource

    It goes through its memory once: the next block begins behind all others. *)
Definition last_end (bs : list Block) : Z := foldr (λ b e, Z.max (ptr b + sz b) e) 0 bs.
Definition bump : MemoryResource := λ bs n,
  let p := (last_end bs / 16 + 1) * 16 in if bool_decide (0 ≤ n ∧ p + n < 2 ^ 64) then Some p else None.

Lemma last_end_spec bs : 0 ≤ last_end bs ∧ ∀ b, b ∈ bs → ptr b + sz b ≤ last_end bs.
Proof.
  induction bs as [|x bs [IH1 IH2]]; simpl; [split; [lia|by intros b ?%elem_of_nil]|]. split; [lia|].
  intros b [->|Hb]%elem_of_cons; [lia|]. specialize (IH2 b Hb). lia.
Qed.

Lemma bump_ok : @MemoryResourceOk bump.
Proof.
  split; intros bs n p; unfold allocate, bump; [| |intros b]; case_bool_decide as Hn; try done; intros [= <-]; destruct (last_end_spec bs) as [H0 H1];
    pose proof (Z.div_mod (last_end bs) 16 ltac:(lia)); pose proof (Z.mod_pos_bound (last_end bs) 16 ltac:(lia)).
  - apply Z.mod_mul. lia.
  - lia.
  - intros Hb. specialize (H1 b Hb). unfold apart. lia.
Qed.
