(* ===== verification/MiResource.v ===== *)
(** MiResource: the memory resource of a shard, which counts what its allocations
    occupy. Source: src/src/detail/mi_memory_resource.hpp and .cpp.

    mimalloc is a parameter: a heap that is asked for blocks. *)
From stdpp Require Import gmap.
From S2P Require Import Prelude.
Local Open Scope Z_scope.

(** [mi_heap_malloc_aligned] answers null when there is no memory; [mi_usable_size]
    is what the block of an address occupies; [mi_free_size_aligned]. *)
Class MiMalloc (Heap : Type) : Type := {
  mi_malloc : Heap → Z → Z → option (Heap * nat);
  mi_usable_size : Heap → nat → Z;
  mi_free : Heap → nat → Heap;
}.

(** [live h] are the blocks that were given out and not given back. *)
Class MiMallocOk (Heap : Type) `{MiMalloc Heap} (live : Heap → gset nat) : Prop := {
  malloc_new h size align h' p : mi_malloc h size align = Some (h', p) → p ∉ live h ∧ live h' = {[p]} ∪ live h;
  malloc_keeps h size align h' p q : mi_malloc h size align = Some (h', p) → q ∈ live h → mi_usable_size h' q = mi_usable_size h q;
  malloc_size h size align h' p : mi_malloc h size align = Some (h', p) → size ≤ mi_usable_size h' p;
  free_live h p : p ∈ live h → live (mi_free h p) = live h ∖ {[p]};
  free_keeps h p q : p ∈ live h → q ∈ live h → q ≠ p → mi_usable_size (mi_free h p) q = mi_usable_size h q;
}.

Section resource.
Context {Heap : Type} `{MiMalloc Heap}.

Record MiMemoryResource : Type := mkMi { heap_ : Heap; used_ : Z }.
Definition new_resource (h : Heap) : MiMemoryResource := mkMi h 0.
Definition used (r : MiMemoryResource) : Z := used_ r.

(** [None] is [std::bad_alloc]. *)
Definition do_allocate (r : MiMemoryResource) (size align : Z) : option (MiMemoryResource * nat) :=
  match mi_malloc (heap_ r) size align with
  | None => None
  | Some (h, p) => let delta := mi_usable_size h p in Some (mkMi h (u64 (used_ r + delta)), p)
  end.
Definition do_deallocate (r : MiMemoryResource) (p : nat) (size align : Z) : MiMemoryResource :=
  let usable := mi_usable_size (heap_ r) p in
  mkMi (mi_free (heap_ r) p) (u64 (used_ r - usable)).

(** A client gives back the blocks it has, by their position in the order in which
    it got them. *)
Inductive op : Set := Allocate (size align : Z) | Deallocate (i : nat).
Record client : Type := mkClient { resource_ : MiMemoryResource; blocks_ : list (option (nat * Z * Z)) }.

Definition exec (o : op) (c : client) : client :=
  match o with
  | Allocate size align =>
      match do_allocate (resource_ c) size align with
      | Some (r, p) => mkClient r (blocks_ c ++ [Some (p, size, align)])
      | None => mkClient (resource_ c) (blocks_ c ++ [None])
      end
  | Deallocate i =>
      match mjoin (blocks_ c !! i) with
      | Some (p, size, align) => mkClient (do_deallocate (resource_ c) p size align) (<[i := None]> (blocks_ c))
      | None => c
      end
  end.
Definition run_ops (l : list op) (h : Heap) : client := fold_left (λ c o, exec o c) l (mkClient (new_resource h) []).

(** The addresses the client has. *)
Definition held (bs : list (option (nat * Z * Z))) : list nat := (λ x, x.1.1) <$> omap id bs.

Section accounting.
Context (live : Heap → gset nat) `{!MiMallocOk Heap live}.

(** What the blocks occupy. *)
Definition occupied (h : Heap) (ps : list nat) : Z := foldr (λ p n, mi_usable_size h p + n) 0 ps.

Lemma occupied_app h ps qs : occupied h (ps ++ qs) = occupied h ps + occupied h qs.
Proof. unfold occupied. induction ps as [|p ps IH]; cbn [foldr app]; [lia|]. rewrite IH. lia. Qed.

Lemma occupied_ext h h' ps : (∀ p, p ∈ ps → mi_usable_size h' p = mi_usable_size h p) → occupied h' ps = occupied h ps.
Proof.
  unfold occupied. induction ps as [|p ps IH]; intros Hext; cbn [foldr]; [done|]. rewrite IH, Hext; [done|left|]. intros q Hq. apply Hext. by right.
Qed.

Lemma held_app bs bs' : held (bs ++ bs') = held bs ++ held bs'.
Proof. unfold held. by rewrite omap_app, fmap_app. Qed.

Lemma held_drop bs i p size align : bs !! i = Some (Some (p, size, align)) →
  ∃ ps qs, held bs = ps ++ p :: qs ∧ held (<[i := None]> bs) = ps ++ qs.
Proof.
  intros Hi. exists (held (take i bs)), (held (drop (S i) bs)). pose proof (lookup_lt_Some _ _ _ Hi) as Hlt. split.
  - rewrite <- (take_drop_middle _ _ _ Hi) at 1. by rewrite held_app.
  - rewrite (insert_take_drop _ _ _ Hlt). by rewrite held_app.
Qed.

Definition accounted (c : client) : Prop :=
  NoDup (held (blocks_ c)) ∧ (∀ p, p ∈ held (blocks_ c) → p ∈ live (heap_ (resource_ c))) ∧
  used_ (resource_ c) = u64 (occupied (heap_ (resource_ c)) (held (blocks_ c))).

Lemma exec_accounted o c : accounted c → accounted (exec o c).
Proof.
  intros (Hnd & Hl & Hu). destruct o as [size align|i]; cbn [exec].
  - unfold do_allocate. destruct (mi_malloc _ size align) as [[h p]|] eqn:E; unfold accounted; cbn [resource_ blocks_ heap_ used_]; rewrite held_app.
    + destruct (malloc_new _ _ _ _ _ E) as [Hp Hlive]. cbn [held]. split_and!.
      * apply NoDup_app. split_and!; [done| |apply NoDup_singleton]. intros q Hq ->%list_elem_of_singleton. by apply Hp, Hl.
      * intros q [Hq| ->%list_elem_of_singleton]%elem_of_app; rewrite Hlive; [apply elem_of_union_r, Hl, Hq|apply elem_of_union_l, elem_of_singleton_2; done].
      * rewrite occupied_app, (occupied_ext (heap_ (resource_ c)) h) by (intros q Hq; eapply malloc_keeps; [exact E|by apply Hl]).
        rewrite Hu. cbn. rewrite Z.add_0_r. by apply uN_add_l.
    + rewrite app_nil_r. done.
  - destruct (mjoin (blocks_ c !! i)) as [[[p size] align]|] eqn:Ei; [|done]. destruct (blocks_ c !! i) as [o|] eqn:Hi; [|done]. cbn in Ei. subst o.
    destruct (held_drop _ _ _ _ _ Hi) as (ps & qs & Eh & Eh'). rewrite Eh in Hnd, Hl, Hu. unfold accounted, do_deallocate. cbn [resource_ blocks_ heap_ used_].
    rewrite Eh'. assert (p ∉ ps ++ qs ∧ NoDup (ps ++ qs)) as [Hp Hnd'] by (rewrite <- Permutation_middle in Hnd; by apply NoDup_cons in Hnd).
    assert (p ∈ live (heap_ (resource_ c))) as Hpl by (apply Hl; apply elem_of_app; right; left).
    assert (∀ q, q ∈ ps ++ qs → q ∈ live (heap_ (resource_ c)) ∧ q ≠ p) as Hq.
    { intros q Hq. split; [apply Hl; apply elem_of_app in Hq as [?|?]; apply elem_of_app; [by left|right; by right]|by intros ->]. }
    split_and!; [done| |].
    + intros q [Hq1 Hq2]%Hq. rewrite (free_live _ _ Hpl). apply elem_of_difference. split; [done|]. by intros ->%elem_of_singleton.
    + rewrite (occupied_ext (heap_ (resource_ c)) (mi_free _ _)) by (intros q [Hq1 Hq2]%Hq; by apply free_keeps).
      rewrite Hu, !occupied_app. cbn. rewrite <- !Z.add_opp_r, uN_add_l by done. f_equal. unfold occupied. lia.
Qed.

(** Whatever a client allocates and gives back, and whenever memory runs out, the
    counter is what the blocks it has occupy, modulo the width of the counter; it is 0
    when all of them are given back. *)
Theorem mi_accounting l h : let c := run_ops l h in
  used (resource_ c) = u64 (occupied (heap_ (resource_ c)) (held (blocks_ c))) ∧
  (held (blocks_ c) = [] → used (resource_ c) = 0).
Proof.
  intros c. assert (accounted c) as (_ & _ & Hu).
  { unfold c, run_ops. assert (∀ c0, accounted c0 → accounted (fold_left (λ c o, exec o c) l c0)) as Hgen.
    { induction l as [|o l IH]; intros c0 H0; [done|]. cbn. by apply IH, exec_accounted. }
    apply Hgen. split_and!; [constructor|by intros p ?%elem_of_nil|done]. }
  split; [done|]. intros Hn. unfold used. by rewrite Hu, Hn.
Qed.
End accounting.
End resource.

(** ** A concrete heap: sizes are rounded up to 16 bytes *)

Definition rounding (limit : Z) : MiMalloc (gmap nat Z) := {|
  mi_malloc h size _ := if limit <? size then None else let p := fresh (dom h) in Some (<[p := 16 * ((size + 15) / 16)]> h, p);
  mi_usable_size h p := default 0 (h !! p);
  mi_free h p := delete p h;
|}.

Lemma rounding_ok limit : @MiMallocOk _ (rounding limit) dom.
Proof.
  assert (∀ (h : gmap nat Z), h !! fresh (dom h) = None) as Hfresh by (intros h; apply not_elem_of_dom, is_fresh).
  split; cbn; intros h.
  1-3: intros size align h' p; intros *; destruct (limit <? size); try done; intros [= <- <-].
  - split; [apply is_fresh|apply dom_insert_L].
  - intros Hq. destruct (decide (q = fresh (dom h))) as [->|Hne]; [by destruct (is_fresh (dom h))|]. by rewrite lookup_insert_ne by done.
  - rewrite lookup_insert_eq. cbn. pose proof (Z.mod_pos_bound (size + 15) 16). pose proof (Z.div_mod (size + 15) 16). lia.
  - intros p _. apply dom_delete_L.
  - intros p q _ _ Hne. by rewrite lookup_delete_ne.
Qed.

Lemma mi_accounting_witness :
  let c := run_ops (H := rounding 4096) [Allocate 100 8; Allocate 5000 8; Allocate 16 16; Deallocate 0] ∅ in
  held (blocks_ c) ≠ [] ∧ used (resource_ c) = 16 ∧
  used (resource_ c) = u64 (occupied (H := rounding 4096) (heap_ (resource_ c)) (held (blocks_ c))).
Proof.
  intros c. split; [vm_compute; discriminate|]. split; [vm_compute; reflexivity|].
  apply (mi_accounting (H := rounding 4096) dom (MiMallocOk0 := rounding_ok 4096) [Allocate 100 8; Allocate 5000 8; Allocate 16 16; Deallocate 0] ∅).
Defined.
