(* ===== verification/Expected.v ===== *)
(** Expected: a value or an error in a union, and the specialisation that only
    has an error. Source: src/net/util/expected.hpp.

    The union remembers which of its members lives. The copy and the move of an
    object may throw; a move leaves something in the object it moved from. The
    comparison of two [expected]s is not modelled: it applies an operator to them
    that the class does not have. *)
From S2P Require Import Prelude.

(** What the element types provide. *)
Class Object (X : Type) : Type := {
  make : X;                     (* the default constructor *)
  copy : X → option X;          (* [None]: it throws *)
  move_to : X → option X;
  move_from : X → X;
}.
(** Copies are equal, and so is what was moved; neither throws. *)
Class ObjectOk (X : Type) `{Object X} : Prop := {
  copy_ok x : copy x = Some x;
  move_ok x : move_to x = Some x;
}.

Section expected.
Context {T E : Type} `{Object T, Object E}.

Inductive Storage : Type := raw | value_member (v : T) | error_member (e : E).
Record expected : Type := mkExpected { storage_ : Storage; has_value_ : bool }.

(** The destructor of the member that [has_value_] names. *)
Definition destroy (x : expected) : res expected :=
  match has_value_ x, storage_ x with
  | true, value_member _ | false, error_member _ => Ok (mkExpected raw (has_value_ x))
  | _, _ => Fault UseAfterFree
  end.

(** ** The constructors; [None] when the construction of the member throws *)

Definition new_expected : expected := mkExpected (value_member make) true.
(** The argument is copied, whatever it is. *)
Definition of_value (u : T) : option expected := (λ v, mkExpected (value_member v) true) <$> copy u.
Definition of_unexpected (e : E) : option expected := (λ e, mkExpected (error_member e) false) <$> copy e.
(** The [unexpected] that is moved from, too. *)
Definition of_unexpected_move (e : E) : option expected * E :=
  ((λ e, mkExpected (error_member e) false) <$> move_to e, move_from e).

(** The member of [other] is constructed in the empty storage. *)
Definition construct_copy (other : expected) : res (option Storage) :=
  match has_value_ other, storage_ other with
  | true, value_member v => Ok (value_member <$> copy v)
  | false, error_member e => Ok (error_member <$> copy e)
  | _, _ => Fault UseAfterFree
  end.
(** With what is left of [other]. *)
Definition construct_move (other : expected) : res (option Storage * expected) :=
  match has_value_ other, storage_ other with
  | true, value_member v => Ok (value_member <$> move_to v, mkExpected (value_member (move_from v)) true)
  | false, error_member e => Ok (error_member <$> move_to e, mkExpected (error_member (move_from e)) false)
  | _, _ => Fault UseAfterFree
  end.

Definition with_flag (b : bool) (st : Storage) : expected := mkExpected st b.
Definition copy_expected (other : expected) : res (option expected) :=
  st ← construct_copy other; Ok (option_map (with_flag (has_value_ other)) st).
Definition move_expected (other : expected) : res (option expected * expected) :=
  '(st, other') ← construct_move other; Ok (option_map (with_flag (has_value_ other)) st, other').

(** ** Assignment of another [expected]; [false] when it throws *)

Definition assign_copy (x other : expected) : res (expected * bool) :=
  x ← destroy x;
  st ← construct_copy other;
  match st with
  | Some st => Ok (mkExpected st (has_value_ other), true)
  | None => Ok (mkExpected (storage_ x) (has_value_ other), false)
  end.
Definition assign_move (x other : expected) : res (expected * expected * bool) :=
  x ← destroy x;
  '(st, other') ← construct_move other;
  match st with
  | Some st => Ok (mkExpected st (has_value_ other), other', true)
  | None => Ok (mkExpected (storage_ x) (has_value_ other), other', false)
  end.

(** ** Access; [None] is the exception *)

Definition has_value (x : expected) : bool := has_value_ x.
Definition value (x : expected) : res (option T) :=
  if has_value_ x then match storage_ x with value_member v => Ok (Some v) | _ => Fault UseAfterFree end else Ok None.
Definition error (x : expected) : res (option E) :=
  if has_value_ x then Ok None else match storage_ x with error_member e => Ok (Some e) | _ => Fault UseAfterFree end.

(** ** Programs

    A program declares variables, one behind the other, and lets them go. An
    exception leaves the program as it is. *)
Inductive op : Type :=
  | New | OfValue (v : T) | OfError (e : E) | CopyOf (j : nat) | MoveOf (j : nat)
  | Assign (i j : nat) | AssignMove (i j : nat)
  | Drop (i : nat).

Definition vars : Type := list (option expected).
Definition get_var (s : vars) (i : nat) : res expected := o ← aget s i; match o with Some x => Ok x | None => Fault UseAfterFree end.

Definition exec (o : op) (s : vars) : res vars :=
  match o with
  | New => Ok (s ++ [Some new_expected])
  | OfValue v => Ok (s ++ [of_value v])
  | OfError e => Ok (s ++ [of_unexpected e])
  | CopyOf j => x ← get_var s j; y ← copy_expected x; Ok (s ++ [y])
  | MoveOf j => x ← get_var s j; '(y, x') ← move_expected x; s ← aset s j (Some x'); Ok (s ++ [y])
  | Assign i j =>
      x ← get_var s i; other ← get_var s j;
      if decide (i = j) then Ok s else '(x, _) ← assign_copy x other; aset s i (Some x)
  | AssignMove i j =>
      x ← get_var s i; other ← get_var s j;
      if decide (i = j) then Ok s else '(x, other', _) ← assign_move x other; s ← aset s i (Some x); aset s j (Some other')
  | Drop i => x ← get_var s i; _ ← destroy x; aset s i None
  end.
Definition run_ops (l : list op) (s : vars) : res vars := rfold exec l s.

(** ** The values: a sum *)

(** [None] when a variable is used that is not there any more. *)
Definition moved (x : T + E) : T + E := match x with inl v => inl (move_from v) | inr e => inr (move_from e) end.
Definition spec (o : op) (vs : list (option (T + E))) : option (list (option (T + E))) :=
  match o with
  | New => Some (vs ++ [Some (inl make)])
  | OfValue v => Some (vs ++ [Some (inl v)])
  | OfError e => Some (vs ++ [Some (inr e)])
  | CopyOf j => x ← mjoin (vs !! j); Some (vs ++ [Some x])
  | MoveOf j => x ← mjoin (vs !! j); Some (<[j := Some (moved x)]> vs ++ [Some x])
  | Assign i j => _ ← mjoin (vs !! i); x ← mjoin (vs !! j); Some (<[i := Some x]> vs)
  | AssignMove i j =>
      _ ← mjoin (vs !! i); x ← mjoin (vs !! j);
      if decide (i = j) then Some vs else Some (<[j := Some (moved x)]> (<[i := Some x]> vs))
  | Drop i => _ ← mjoin (vs !! i); Some (<[i := None]> vs)
  end.
Fixpoint run_spec (l : list op) (vs : list (option (T + E))) : option (list (option (T + E))) :=
  match l with [] => Some vs | o :: l' => vs ← spec o vs; run_spec l' vs end.

Definition rep (x : T + E) : expected := match x with inl v => mkExpected (value_member v) true | inr e => mkExpected (error_member e) false end.

Definition reps (vs : list (option (T + E))) : vars := option_map rep <$> vs.

Section refinement.
Context `{!ObjectOk T, !ObjectOk E}.

Lemma reps_app vs1 vs2 : reps (vs1 ++ vs2) = reps vs1 ++ reps vs2.
Proof. apply fmap_app. Qed.
Lemma get_var_rep (vs : list (option (T + E))) i x : vs !! i = Some (Some x) → get_var (reps vs) i = Ok (rep x).
Proof. intros Hi. unfold get_var, aget, reps. by rewrite list_lookup_fmap, Hi. Qed.
Lemma aset_rep (vs : list (option (T + E))) i o (y : option (T + E)) : vs !! i = Some o → aset (reps vs) i (option_map rep y) = Ok (reps (<[i := y]> vs)).
Proof. intros Hi. unfold aset, reps. rewrite list_lookup_fmap, Hi. cbn. by rewrite list_fmap_insert. Qed.
Lemma aset_rep_some (vs : list (option (T + E))) i o x : vs !! i = Some o → aset (reps vs) i (Some (rep x)) = Ok (reps (<[i := Some x]> vs)).
Proof. apply (aset_rep vs i o (Some x)). Qed.
Lemma mjoin_lookup (vs : list (option (T + E))) i x : mjoin (vs !! i) = Some x → vs !! i = Some (Some x).
Proof. by destruct (vs !! i) as [[]|]; intros [=->]. Qed.

Lemma destroy_rep x : destroy (rep x) = Ok (mkExpected raw (has_value_ (rep x))).
Proof. by destruct x. Qed.
Lemma copy_rep x : copy_expected (rep x) = Ok (Some (rep x)).
Proof. destruct x; unfold copy_expected, construct_copy; cbn; by rewrite copy_ok. Qed.
Lemma move_rep x : move_expected (rep x) = Ok (Some (rep x), rep (moved x)).
Proof. destruct x; unfold move_expected, construct_move; cbn; by rewrite move_ok. Qed.
Lemma assign_rep x y : assign_copy (rep x) (rep y) = Ok (rep y, true).
Proof. unfold assign_copy. rewrite destroy_rep. destruct y; cbn; by rewrite copy_ok. Qed.
Lemma assign_move_rep x y : assign_move (rep x) (rep y) = Ok (rep y, rep (moved y), true).
Proof. unfold assign_move. rewrite destroy_rep. destruct y; cbn; by rewrite move_ok. Qed.

Lemma exec_expected_spec o vs vs' : spec o vs = Some vs' → exec o (reps vs) = Ok (reps vs').
Proof.
  destruct o as [|v|e|j|j|i j|i j|i]; cbn [spec exec].
  - intros [= <-]. by rewrite reps_app.
  - intros [= <-]. unfold of_value. rewrite copy_ok. by rewrite reps_app.
  - intros [= <-]. unfold of_unexpected. rewrite copy_ok. by rewrite reps_app.
  - intros (x & Hx%mjoin_lookup & [= <-])%bind_Some. by rewrite (get_var_rep _ _ _ Hx), bind_ok, copy_rep, bind_ok, reps_app.
  - intros (x & Hx%mjoin_lookup & [= <-])%bind_Some. rewrite (get_var_rep _ _ _ Hx), bind_ok, move_rep, bind_ok.
    pose proof (aset_rep_some _ _ _ (moved x) Hx) as ->. by rewrite bind_ok, reps_app.
  - intros (x0 & Hi%mjoin_lookup & (x & Hx%mjoin_lookup & [= <-])%bind_Some)%bind_Some. rewrite (get_var_rep _ _ _ Hi), bind_ok, (get_var_rep _ _ _ Hx), bind_ok.
    case_decide as Hij; [subst; by rewrite list_insert_id|]. rewrite assign_rep, bind_ok. by apply (aset_rep_some _ _ _ x Hi).
  - intros (x0 & Hi%mjoin_lookup & (x & Hx%mjoin_lookup & Es)%bind_Some)%bind_Some. rewrite (get_var_rep _ _ _ Hi), bind_ok, (get_var_rep _ _ _ Hx), bind_ok.
    case_decide as Hij; injection Es as <-; [done|]. rewrite assign_move_rep, bind_ok. pose proof (aset_rep_some _ _ _ x Hi) as ->. rewrite bind_ok.
    apply (aset_rep_some _ _ (Some x)). by rewrite list_lookup_insert_ne.
  - intros (x & Hx%mjoin_lookup & [= <-])%bind_Some. rewrite (get_var_rep _ _ _ Hx), bind_ok, destroy_rep, bind_ok. by apply (aset_rep _ _ _ None Hx).
Qed.

(** When copies and moves do not throw, programs that use [expected] compute
    what programs on a sum do: no member of the union is read or destroyed that does
    not live, and a variable tells its value or its error, and throws for the other. *)
Theorem expected_refines l vs : run_spec l [] = Some vs → ∃ s, run_ops l [] = Ok s ∧ length s = length vs ∧
  (∀ i, vs !! i = Some None → s !! i = Some None) ∧
  (∀ i v, vs !! i = Some (Some (inl v)) → ∃ x, s !! i = Some (Some x) ∧ has_value x = true ∧ value x = Ok (Some v) ∧ error x = Ok None) ∧
  (∀ i e, vs !! i = Some (Some (inr e)) → ∃ x, s !! i = Some (Some x) ∧ has_value x = false ∧ value x = Ok None ∧ error x = Ok (Some e)).
Proof.
  intros Hl. exists (reps vs). assert (∀ l vs0, run_spec l vs0 = Some vs → run_ops l (reps vs0) = Ok (reps vs)) as Hrun.
  { clear l Hl. induction l as [|o l IH]; intros vs0; [by intros [= ->]|]. cbn [run_spec]. intros (vs1 & Ho & Hl)%bind_Some.
    unfold run_ops. cbn [rfold]. rewrite (exec_expected_spec _ _ _ Ho), bind_ok. by apply IH. }
  split; [by apply (Hrun l [])|]. split; [by unfold reps; rewrite length_fmap|].
  assert (∀ i o, vs !! i = Some o → reps vs !! i = Some (option_map rep o)) as Hlook 
    by (intros i o Hi; pose proof (list_lookup_fmap (option_map rep) vs i) as Ef; rewrite Hi in Ef; exact Ef).
  split_and!; [intros i Hi; apply (Hlook _ _ Hi)|intros i v Hi; exists (rep (inl v))|intros i e Hi; exists (rep (inr e))]; (split; [apply (Hlook _ _ Hi)|done]).
Qed.
End refinement.

(** An assignment destroys before it constructs: when the copy throws, neither
    member lives, the flag is that of the other, and the destructor destroys an object
    that is not there. *)
Theorem throwing_assignment x v st : destroy x = Ok st → copy v = None →
  ∃ x', assign_copy x (mkExpected (value_member v) true) = Ok (x', false) ∧ has_value x' = true ∧ value x' = Fault UseAfterFree ∧ destroy x' = Fault UseAfterFree.
Proof.
  intros Hd Hc. unfold assign_copy. rewrite Hd, bind_ok. cbn. rewrite Hc. cbn. unfold destroy in Hd.
  eexists. split; [done|]. by destruct (has_value_ x), (storage_ x); try done; injection Hd as <-.
Qed.
End expected.
Arguments expected : clear implicits.
Arguments Storage : clear implicits.
Arguments op : clear implicits.
Arguments vars : clear implicits.

(** ** [expected<void, E>] *)

Section expected_void.
Context {E : Type} `{Object E}.

(** The object of the member [error_]: it is there, or it was destroyed. *)
Inductive member : Type := live (e : E) | destroyed.
Record expected_void : Type := mkVoid { error_ : member }.

Definition destroy_member (m : member) : res member := match m with live _ => Ok destroyed | destroyed => Fault UseAfterFree end.

Definition new_void : expected_void := mkVoid (live make).
(** A second object is constructed over the one that is there. *)
Definition void_of_unexpected (e : E) : option expected_void := (λ e, mkVoid (live e)) <$> move_to e.
Definition copy_void (other : expected_void) : res (option expected_void) :=
  match error_ other with live e => Ok ((λ e, mkVoid (live e)) <$> copy e) | destroyed => Fault UseAfterFree end.
Definition void_has_value (x : expected_void) : bool := false.
Definition void_ok (eq : E → E → bool) (x : expected_void) : res bool :=
  match error_ x with live e => Ok (eq e make) | destroyed => Fault UseAfterFree end.
(** The destructor calls the one of the member, which is destroyed behind it again. *)
Definition destroy_void (x : expected_void) : res unit :=
  m ← destroy_member (error_ x); _ ← destroy_member m; Ok tt.

(** It never says that it has a value, and cannot be destroyed. *)
Theorem void_destroyed_twice x : void_has_value x = false ∧ destroy_void x = Fault UseAfterFree.
Proof. by destruct x as [[]]. Qed.
End expected_void.
Arguments expected_void : clear implicits.

(** ** A program *)

#[local] Instance nat_object : Object nat := {| make := 0; copy := Some; move_to := Some; move_from _ := 0 |}.
#[local] Instance nat_object_ok : ObjectOk nat := {| copy_ok _ := eq_refl; move_ok _ := eq_refl |}.

Definition some_program : list (op nat nat) := [OfValue 5; OfError 7; CopyOf 0; Assign 0 1; MoveOf 2; Assign 3 3; AssignMove 1 3; Drop 0].
Definition its_values : list (option (nat + nat)) := [None; Some (inl 5); Some (inl 0); Some (inl 0)].

Lemma expected_refines_witness : run_spec some_program [] = Some its_values ∧ ∃ s, run_ops some_program [] = Ok s ∧ length s = length its_values ∧
  (∀ i, its_values !! i = Some None → s !! i = Some None) ∧
  (∀ i v, its_values !! i = Some (Some (inl v)) → ∃ x, s !! i = Some (Some x) ∧ has_value x = true ∧ value x = Ok (Some v) ∧ error x = Ok None) ∧
  (∀ i e, its_values !! i = Some (Some (inr e)) → ∃ x, s !! i = Some (Some x) ∧ has_value x = false ∧ value x = Ok None ∧ error x = Ok (Some e)).
Proof. split; [reflexivity|]. apply (expected_refines some_program). reflexivity. Defined.
