(* ===== verification/PodArray.v ===== *)
(** PodArray: a growing array of plain objects.
    Source: src/net/util/pmr/pod_array.h.

    Memory is a heap of blocks of bytes; each block remembers the memory resource
    it came from. An object of the element type is its [ELEM_SIZE] bytes. A pointer
    into an array is the offset from the start of its block. A boolean says whether
    an operation returned; it is false when the resource threw [std::bad_alloc]. *)
From Stdlib Require Import Strings.Byte.
From stdpp Require Import gmap.
From S2P Require Import Prelude.
Local Open Scope Z_scope.

Record Block : Set := mkBlock { owner : nat; cells : list byte }.
Abbreviation Heap := (gmap nat Block).

(** [absl::bit_ceil], the blocks that [memory_resource::allocate] has no memory for,
    and what fresh memory holds. *)
Class PodEnv : Type := {
  bit_ceil : Z → Z;
  enough : Heap → Z → bool;
  fresh_cell : nat → nat → byte;
}.
(** The least power of two that is not below. *)
Class PodEnvOk `{PodEnv} : Prop :=
  bit_ceil_spec : ∀ x, 0 ≤ x ≤ 2 ^ 63 → ∃ k, 0 ≤ k ∧ bit_ceil x = 2 ^ k ∧ x ≤ 2 ^ k ∧ (k = 0 ∨ 2 ^ k < 2 * x).

Record PODArray : Set := mkPod {
  c_start_ : option nat;        (* the block, or null *)
  c_end_ : Z;
  c_end_of_storage_ : Z;
  mr_ : nat;
}.

(** The argument of a function that takes a reference: an object that lives
    elsewhere, or one in a block. *)
Inductive Ref : Set := Val (bs : list byte) | At (p : nat) (off : Z).

(** [cells] between two offsets. *)
Definition read_cells (h : Heap) (p : nat) (off n : Z) : res (list byte) :=
  match h !! p with
  | None => Fault UseAfterFree
  | Some b => if (0 <=? off) && (0 <=? n) && (off + n <=? Z.of_nat (length (cells b))) then Ok (take (Z.to_nat n) (drop (Z.to_nat off) (cells b)))
              else Fault OutOfBounds
  end.
Definition write_cells (h : Heap) (p : nat) (off : Z) (bs : list byte) : res Heap :=
  match h !! p with
  | None => Fault UseAfterFree
  | Some b => if (0 <=? off) && (off + Z.of_nat (length bs) <=? Z.of_nat (length (cells b)))
              then Ok (<[p := mkBlock (owner b) (take (Z.to_nat off) (cells b) ++ bs ++ drop (Z.to_nat off + length bs) (cells b))]> h)
              else Fault OutOfBounds
  end.
Definition null_or (p : option nat) : res nat := match p with Some p => Ok p | None => Fault NullPointer end.

(** [memmove] and [memcpy]; nothing is accessed when there is nothing to copy. The
    ranges of [memcpy] must not overlap. *)
Definition memmove (h : Heap) (dst : option nat) (doff : Z) (src : option nat) (soff n : Z) : res Heap :=
  if n =? 0 then Ok h else
  s ← null_or src; d ← null_or dst;
  bs ← read_cells h s soff n; write_cells h d doff bs.
Definition memcpy (h : Heap) (dst : option nat) (doff : Z) (src : option nat) (soff n : Z) : res Heap :=
  if negb (n =? 0) && bool_decide (dst = src) && (soff <? doff + n) && (doff <? soff + n) then Fault BuiltinUndefined
  else memmove h dst doff src soff n.

Section pod.
Context `{PodEnv} (ELEM_SIZE ALIGNMENT : Z).
Implicit Types (h : Heap) (a : PODArray) (n : Z) (x : Ref).

Definition load h x : res (list byte) := match x with Val bs => Ok bs | At p off => read_cells h p off ELEM_SIZE end.

(** ** Memory *)

(** [mr_->allocate(bytes, ALIGNMENT)] *)
Definition allocate h (mr : nat) (bytes : Z) : option (Heap * nat) :=
  if enough h bytes then
    let p := fresh (dom h) in Some (<[p := mkBlock mr (fresh_cell p <$> seq 0 (Z.to_nat bytes))]> h, p)
  else None.
Definition deallocate h (mr : nat) (p : nat) (bytes : Z) : res Heap :=
  match h !! p with
  | None => Fault UseAfterFree
  | Some b => if bool_decide (owner b = mr) && (Z.of_nat (length (cells b)) =? bytes) then Ok (delete p h) else Fault WrongFree
  end.

Definition empty_pod (mr : nat) : PODArray := mkPod None 0 0 mr.
Definition allocated_size a : Z := c_end_of_storage_ a.

Definition alloc h a (bytes : Z) : Heap * PODArray * bool :=
  let bytes := bit_ceil bytes in
  match allocate h (mr_ a) bytes with
  | Some (h, p) => (h, mkPod (Some p) 0 bytes (mr_ a), true)
  | None => (h, a, false)
  end.
Definition dealloc h a : res Heap :=
  match c_start_ a with None => Ok h | Some p => deallocate h (mr_ a) p (allocated_size a) end.

Definition byte_size n : Z := u64 (n * ELEM_SIZE).
Definition minimum_memory_for_elements n : Z := Z.max ALIGNMENT (byte_size n).
Definition alloc_for_num_elements h a n := alloc h a (minimum_memory_for_elements n).

Definition realloc h a (bytes : Z) : res (Heap * PODArray * bool) :=
  match c_start_ a with
  | None => Ok (alloc h a bytes)
  | Some p =>
      let bytes := bit_ceil bytes in
      match allocate h (mr_ a) bytes with
      | None => Ok (h, a, false)
      | Some (h, new_start) =>
          let sz := c_end_ a in
          h ← memcpy h (Some new_start) 0 (Some p) 0 sz;
          h ← deallocate h (mr_ a) p (allocated_size a);
          Ok (h, mkPod (Some new_start) sz bytes (mr_ a), true)
      end
  end.

Definition set_end a (e : Z) : PODArray := mkPod (c_start_ a) e (c_end_of_storage_ a) (mr_ a).
Definition clear a : PODArray := set_end a 0.
Definition capacity a : Z := c_end_of_storage_ a / ELEM_SIZE.
Definition size a : Z := c_end_ a / ELEM_SIZE.
Definition is_empty a : bool := c_end_ a =? 0.

Definition reserve h a n : res (Heap * PODArray * bool) :=
  if capacity a <? n then realloc h a (minimum_memory_for_elements n) else Ok (h, a, true).
Definition resize_assume_reserved a n : PODArray := set_end a (byte_size n).
Definition resize h a n : res (Heap * PODArray * bool) :=
  '(h, a, ok) ← reserve h a n;
  Ok (h, if ok : bool then resize_assume_reserved a n else a, ok).

(** [memset(c_end_, 0, n - old_size)] *)
Definition zero_cells h a n : res Heap :=
  if n =? 0 then Ok h else p ← null_or (c_start_ a); write_cells h p (c_end_ a) (replicate (Z.to_nat n) x00).
Definition resize_zero h a n : res (Heap * PODArray * bool) :=
  let old_size := size a in
  if old_size <? n then
    '(h, a, ok) ← reserve h a n;
    if ok : bool then h ← zero_cells h a (n - old_size); Ok (h, set_end a (byte_size n), true) else Ok (h, a, false)
  else Ok (h, set_end a (byte_size n), true).

(** [swap] leaves the memory resources where they are. *)
Definition swap a b : PODArray * PODArray :=
  (mkPod (c_start_ b) (c_end_ b) (c_end_of_storage_ b) (mr_ a), mkPod (c_start_ a) (c_end_ a) (c_end_of_storage_ a) (mr_ b)).

(** ** PODArray *)

(** [reserve()] *)
Definition grow h a : res (Heap * PODArray * bool) :=
  match c_start_ a with
  | None => Ok (alloc h a (Z.max ALIGNMENT (minimum_memory_for_elements 1)))
  | Some _ => realloc h a (minimum_memory_for_elements (u64 (capacity a * 2)))
  end.

(** [*t_end() = x] with the element behind it. *)
Definition push_back h a x : res (Heap * PODArray * bool) :=
  '(h, a, ok) ← (if c_end_ a =? c_end_of_storage_ a then grow h a else Ok (h, a, true));
  if ok : bool then
    bs ← load h x;
    p ← null_or (c_start_ a);
    h ← write_cells h p (c_end_ a) bs;
    Ok (h, set_end a (c_end_ a + byte_size 1), true)
  else Ok (h, a, false).
Definition emplace_back := push_back.
Definition pop_back a : PODArray := set_end a (c_end_ a - byte_size 1).

(** [std::fill] on [n] elements from the offset [off]. *)
Fixpoint fill (n : nat) h (p : option nat) (off : Z) x : res Heap :=
  match n with
  | O => Ok h
  | S n' => bs ← load h x; p' ← null_or p; h ← write_cells h p' off bs; fill n' h p (off + ELEM_SIZE) x
  end.

Definition resize_fill h a n x : res (Heap * PODArray * bool) :=
  let old_size := size a in
  if old_size <? n then
    '(h, a, ok) ← reserve h a n;
    if ok : bool then h ← fill (Z.to_nat (n - old_size)) h (c_start_ a) (c_end_ a) x; Ok (h, set_end a (byte_size n), true) else Ok (h, a, false)
  else Ok (h, set_end a (byte_size n), true).

Definition assign_n h a n x : res (Heap * PODArray * bool) :=
  '(h, a, ok) ← resize h a n;
  if ok : bool then h ← fill (Z.to_nat (size a)) h (c_start_ a) 0 x; Ok (h, a, true) else Ok (h, a, false).

(** The source of a range are [n] elements from an offset of a block. *)
Definition make_room h a n : res (Heap * PODArray * bool) :=
  let required_capacity := u64 (size a + n) in
  if capacity a <? required_capacity then reserve h a (bit_ceil required_capacity) else Ok (h, a, true).
Definition insert_assume_reserved h a (src : option nat) (off n : Z) : res (Heap * PODArray) :=
  let bytes_to_copy := byte_size n in
  h ← memcpy h (c_start_ a) (c_end_ a) src off bytes_to_copy;
  Ok (h, set_end a (c_end_ a + bytes_to_copy)).
Definition insert_back h a (src : option nat) (off n : Z) : res (Heap * PODArray * bool) :=
  '(h, a, ok) ← make_room h a n;
  if ok : bool then '(h, a) ← insert_assume_reserved h a src off n; Ok (h, a, true) else Ok (h, a, false).
Definition insert h a (it : Z) (src : option nat) (off n : Z) : res (Heap * PODArray * bool) :=
  let bytes_to_copy := byte_size n in
  let bytes_to_move := u64 ((c_end_ a - it) / ELEM_SIZE * ELEM_SIZE) in
  '(h, a, ok) ← make_room h a n;
  if ok : bool then
    h ← (if negb (bytes_to_move =? 0)
         then memmove h (c_start_ a) (c_end_ a + bytes_to_copy - bytes_to_move) (c_start_ a) (c_end_ a - bytes_to_move) bytes_to_move else Ok h);
    h ← memcpy h (c_start_ a) (c_end_ a - bytes_to_move) src off bytes_to_copy;
    Ok (h, set_end a (c_end_ a + bytes_to_copy), true)
  else Ok (h, a, false).
Definition assign h a (src : option nat) (off n : Z) : res (Heap * PODArray * bool) :=
  '(h, a, ok) ← (if capacity a <? n then reserve h a (bit_ceil n) else Ok (h, a, true));
  if ok : bool then
    let bytes_to_copy := byte_size n in
    h ← memcpy h (c_start_ a) 0 src off bytes_to_copy;
    Ok (h, set_end a bytes_to_copy, true)
  else Ok (h, a, false).
Definition assign_pod h a (from : PODArray) := assign h a (c_start_ from) 0 (size from).

(** [operator[]]; [front] and [back] are the first and the last element. *)
Definition get h a (off : Z) : res (list byte) := p ← null_or (c_start_ a); read_cells h p off ELEM_SIZE.
Definition at_index h a n := get h a (n * ELEM_SIZE).
Definition front h a := get h a 0.
Definition back h a := get h a (c_end_ a - ELEM_SIZE).

(** The constructors and the destructor; moving builds an array of the default
    resource, which is number 0. *)
Definition new_pod_n h (mr : nat) n : Heap * PODArray * bool :=
  let '(h, a, ok) := alloc_for_num_elements h (empty_pod mr) n in
  (h, if ok : bool then set_end a (c_end_ a + byte_size n) else a, ok).
Definition new_pod_fill h (mr : nat) n x : res (Heap * PODArray * bool) :=
  let '(h, a, ok) := alloc_for_num_elements h (empty_pod mr) n in
  if ok : bool then assign_n h a n x else Ok (h, a, false).
Definition new_pod_range h (mr : nat) (src : option nat) (off n : Z) : res (Heap * PODArray * bool) :=
  let '(h, a, ok) := alloc_for_num_elements h (empty_pod mr) n in
  if ok : bool then insert_back h a src off n else Ok (h, a, false).
Definition destroy h a : res Heap := dealloc h a.
Definition move_pod (other : PODArray) : PODArray * PODArray := swap (empty_pod 0) other.
Definition move_assign_pod a (other : PODArray) : PODArray * PODArray := swap a other.

(** [operator==], with the [!=] of the element type. *)
Definition pod_eq (neq : list byte → list byte → bool) h a b : res bool :=
  if negb (size a =? size b) then Ok false else
  rfold (λ i (same : bool), if same then x ← at_index h a (Z.of_nat i); y ← at_index h b (Z.of_nat i); Ok (negb (neq x y)) else Ok false)
    (seq 0 (Z.to_nat (size a))) true.
End pod.
