(* ===== verification/PodArraySpec.v ===== *)
(** PodArraySpec: for element sizes that are powers of two the array implements a
    list, and gives back all the memory it took; for other sizes it writes behind
    its block. *)
From Stdlib Require Import Strings.Byte.
From stdpp Require Import gmap.
From S2P Require Import Prelude PodArray.
Local Open Scope Z_scope.

(** ** Memory *)

Section memory.
Implicit Types (h : Heap) (p q : nat) (o : nat) (pre old post bs : list byte).

Lemma read_cells_mid h p o pre bs post off n : h !! p = Some (mkBlock o (pre ++ bs ++ post)) → off = Z.of_nat (length pre) →
  n = Z.of_nat (length bs) → read_cells h p off n = Ok bs.
Proof.
  intros Hp -> ->. unfold read_cells. rewrite Hp. cbn [cells]. rewrite !length_app, !(proj2 (Z.leb_le _ _)) by lia. cbn [andb].
  by rewrite !Nat2Z.id, drop_app_length, take_app_length.
Qed.

Lemma write_cells_mid h p o pre old bs post off : h !! p = Some (mkBlock o (pre ++ old ++ post)) → off = Z.of_nat (length pre) →
  length old = length bs → write_cells h p off bs = Ok (<[p := mkBlock o (pre ++ bs ++ post)]> h).
Proof.
  intros Hp -> Hl. unfold write_cells. rewrite Hp. cbn [cells owner]. rewrite !length_app, !(proj2 (Z.leb_le _ _)) by lia. cbn [andb].
  rewrite Nat2Z.id, take_app_length, drop_app_ge by lia. replace (length pre + length bs - length pre)%nat with (length old) by lia.
  by rewrite drop_app_length.
Qed.

(** A list is cut at a length. *)
Lemma cut {A} (l : list A) n : (n ≤ length l)%nat → ∃ l1 l2, l = l1 ++ l2 ∧ length l1 = n.
Proof. intros Hn. exists (take n l), (drop n l). rewrite take_drop, length_take. split; [done|lia]. Qed.

Lemma write_cells_some h p o cs off bs : h !! p = Some (mkBlock o cs) → 0 ≤ off → off + Z.of_nat (length bs) ≤ Z.of_nat (length cs) →
  ∃ pre old post, cs = pre ++ old ++ post ∧ off = Z.of_nat (length pre) ∧ length old = length bs.
Proof.
  intros Hp H0 Hle. destruct (cut cs (Z.to_nat off)) as (pre & l & -> & Hpre); [lia|]. rewrite length_app in Hle.
  destruct (cut l (length bs)) as (old & post & -> & Hold); [lia|]. exists pre, old, post. split_and!; [done|lia|done].
Qed.
End memory.

Lemma pow2_divides (j k : Z) : 0 ≤ j ≤ k → (2 ^ j | 2 ^ k).
Proof. intros Hjk. exists (2 ^ (k - j)). rewrite <- Z.pow_add_r by lia. f_equal. lia. Qed.

(** Elements of the same size, one behind the other. *)
Lemma length_concat_same {A} (n : nat) (vs : list (list A)) : Forall (λ v, length v = n) vs → length (concat vs) = (length vs * n)%nat.
Proof. induction 1 as [|v vs Hv _ IH]; [done|]. cbn. rewrite length_app, Hv, IH. lia. Qed.

Section pod.
Context `{PodEnvOk} (e al : nat) (He : (e ≤ 20)%nat) (Hal : (al ≤ 20)%nat).
Abbreviation E := (2 ^ Z.of_nat e).
Abbreviation AL := (2 ^ Z.of_nat al).
Implicit Types (h : Heap) (a : PODArray) (vs ws : list (list byte)) (v : list byte) (n bytes : Z).

Definition elt (v : list byte) : Prop := Z.of_nat (length v) = E.

(** The array holds the elements [vs]. *)
Record holds h a vs : Prop := {
  pd_elts : Forall elt vs;
  pd_end : c_end_ a = Z.of_nat (length vs) * E;
  pd_block : match c_start_ a with
    | None => vs = [] ∧ c_end_of_storage_ a = 0
    | Some p => ∃ rest k, h !! p = Some (mkBlock (mr_ a) (concat vs ++ rest)) ∧
        Z.of_nat (length (concat vs ++ rest)) = c_end_of_storage_ a ∧ c_end_of_storage_ a = 2 ^ k ∧ Z.of_nat e ≤ k ≤ 62
    end;
}.

(** The memory of the others. *)
Definition others h a : Heap := match c_start_ a with Some p => delete p h | None => h end.

Lemma E_pos : 1 ≤ E ≤ 2 ^ 20.
Proof. split; [assert (0 < E) by (apply Z.pow_pos_nonneg; lia); lia|apply Z.pow_le_mono_r; lia]. Qed.
Lemma AL_pos : 1 ≤ AL ≤ 2 ^ 20.
Proof. split; [assert (0 < AL) by (apply Z.pow_pos_nonneg; lia); lia|apply Z.pow_le_mono_r; lia]. Qed.

Lemma concat_elts vs : Forall elt vs → Z.of_nat (length (concat vs)) = Z.of_nat (length vs) * E.
Proof.
  intros Hv. pose proof E_pos. rewrite (length_concat_same (Z.to_nat E)); [lia|]. eapply Forall_impl; [exact Hv|]. unfold elt. intros v Hl. lia.
Qed.

Lemma holds_empty h mr : holds h (empty_pod mr) [].
Proof. split; [constructor|done|done]. Qed.

(** How much there is room for. *)
Lemma holds_room h a vs : holds h a vs → 0 ≤ c_end_ a ≤ c_end_of_storage_ a ∧ c_end_of_storage_ a ≤ 2 ^ 62 ∧
  capacity E a * E = c_end_of_storage_ a ∧ size E a = Z.of_nat (length vs).
Proof.
  intros [Hv He' Hb]. pose proof E_pos as HE. unfold capacity, size. rewrite He', Z.div_mul by lia.
  destruct (c_start_ a) as [p|].
  - destruct Hb as (rest & k & _ & Hl & Hk & Hek). rewrite length_app, Nat2Z.inj_add, concat_elts in Hl by done.
    assert (2 ^ k ≤ 2 ^ 62) by (apply Z.pow_le_mono_r; lia). split_and!; try lia.
    destruct (pow2_divides (Z.of_nat e) k ltac:(lia)) as [c Hc]. rewrite Hk, Hc, Z.div_mul by lia. done.
  - destruct Hb as [-> ->]. split_and!; try done.
Qed.

Lemma bit_ceil_room bytes : 0 < bytes ≤ 2 ^ 61 → E ≤ bytes → ∃ k, bit_ceil bytes = 2 ^ k ∧ bytes ≤ 2 ^ k ∧ Z.of_nat e ≤ k ≤ 62.
Proof.
  intros Hb HE. destruct (bit_ceil_spec bytes) as (k & Hk & -> & Hle & Hlt); [lia|]. exists k. split_and!; [done|done| |].
  - destruct (Z.le_gt_cases (Z.of_nat e) k) as [|Hgt]; [done|]. assert (2 ^ k < E) by (apply Z.pow_lt_mono_r; lia). lia.
  - destruct Hlt as [->|Hlt]; [lia|]. destruct (Z.le_gt_cases k 62) as [|Hgt]; [done|]. assert (2 ^ 63 ≤ 2 ^ k) by (apply Z.pow_le_mono_r; lia). lia.
Qed.

(** What an operation leaves. *)
Definition result (h : Heap) a vs : Heap * PODArray * bool → Prop := λ '(h', a', ok),
  mr_ a' = mr_ a ∧ others h' a' = others h a ∧ if ok : bool then holds h' a' vs else h' = h ∧ a' = a ∧ ∃ bytes, enough h bytes = false.
Definition result_room (h : Heap) a vs bytes : Heap * PODArray * bool → Prop := λ '(h', a', ok),
  result h a vs (h', a', ok) ∧ (ok = true → bytes ≤ c_end_of_storage_ a' ∧ (0 < bytes → is_Some (c_start_ a'))).

Lemma length_fresh p bytes : 0 ≤ bytes → Z.of_nat (length (fresh_cell p <$> seq 0 (Z.to_nat bytes))) = bytes.
Proof. intros Hb. rewrite length_fmap, length_seq. lia. Qed.

Lemma realloc_spec h a vs bytes : holds h a vs → 0 < bytes ≤ 2 ^ 61 → E ≤ bytes → c_end_ a ≤ bytes →
  runs (realloc h a bytes) (result_room h a vs bytes).
Proof.
  intros Hh Hb HE Hle. pose proof (holds_room h a vs Hh) as (Hend & _). destruct Hh as [Hv Hc Hblk].
  destruct (bit_ceil_room bytes Hb HE) as (k & Ek & Hbk & Hek). unfold realloc, alloc, allocate. rewrite Ek.
  assert (0 < 2 ^ k) by (apply Z.pow_pos_nonneg; lia).
  destruct (c_start_ a) as [p|] eqn:Ea.
  - destruct (enough h (2 ^ k)) eqn:Een; [|apply runs_ok; split; [split_and!; eauto|done]]. destruct Hblk as (rest & k0 & Hp & Hl & Hk0 & Hek0). set (q := fresh (dom h)).
    assert (h !! q = None) as Hq by (apply not_elem_of_dom, is_fresh). assert (q ≠ p) as Hqp by congruence.
    set (cs := fresh_cell q <$> _). assert (Z.of_nat (length cs) = 2 ^ k) as Hcs by (apply length_fresh; lia).
    assert (memcpy (<[q := mkBlock (mr_ a) cs]> h) (Some q) 0 (Some p) 0 (c_end_ a) =
      Ok (<[q := mkBlock (mr_ a) (concat vs ++ drop (length (concat vs)) cs)]> h)) as ->.
    { unfold memcpy, memmove. rewrite bool_decide_false, andb_false_r by congruence. cbn [andb]. pose proof (concat_elts vs Hv) as Hcv.
      destruct (Z.eqb_spec (c_end_ a) 0) as [E0|_].
      - assert (concat vs = []) as -> by (apply nil_length_inv; lia). by rewrite app_nil_l, drop_0.
      - cbn [null_or]. rewrite !bind_ok.
        rewrite (read_cells_mid _ p (mr_ a) [] (concat vs) rest) by (rewrite ?lookup_insert_ne by done; done || lia). rewrite bind_ok.
        destruct (cut cs (length (concat vs))) as (old & post & -> & Hold); [lia|].
        rewrite (write_cells_mid _ q (mr_ a) [] old (concat vs) post) by (rewrite ?lookup_insert_eq; done). rewrite insert_insert_eq. cbn [app].
        do 4 f_equal. rewrite <- Hold. by rewrite drop_app_length. }
    rewrite bind_ok. unfold deallocate. rewrite lookup_insert_ne, Hp by done. cbn [owner cells]. unfold allocated_size.
    rewrite bool_decide_true, (proj2 (Z.eqb_eq _ _)) by done. cbn [andb]. rewrite bind_ok. apply runs_ok. split; [split_and!|].
    + done.
    + unfold others. cbn [c_start_]. rewrite Ea, delete_insert_ne by done. rewrite delete_insert_id; [done|]. by rewrite lookup_delete_ne.
    + split; [done|done|]. cbn [c_start_ mr_ c_end_of_storage_]. exists (drop (length (concat vs)) cs), k. rewrite lookup_delete_ne, lookup_insert_eq by done.
      split_and!; [done| |done|lia|lia]. rewrite length_app, length_drop. pose proof (concat_elts vs Hv). lia.
    + intros _. cbn. split; [lia|by eexists].
  - destruct Hblk as [-> Hs]. destruct (enough h (2 ^ k)) eqn:Een; apply runs_ok; [|split; [split_and!; eauto|done]]. set (q := fresh (dom h)).
    assert (h !! q = None) as Hq by (apply not_elem_of_dom, is_fresh). split; [split_and!|].
    + done.
    + unfold others. cbn [c_start_]. by rewrite Ea, delete_insert_id.
    + split; [done|done|]. cbn [c_start_ mr_ c_end_of_storage_]. eexists _, k. rewrite lookup_insert_eq. cbn [concat app].
      split_and!; [done|apply length_fresh; lia|done|lia|lia].
    + intros _. cbn. split; [lia|by eexists].
Qed.

(** ** Room *)

Lemma minimum_memory n : 0 ≤ n → n * E ≤ 2 ^ 60 → minimum_memory_for_elements E AL n = Z.max AL (n * E).
Proof. intros Hn HE. unfold minimum_memory_for_elements, byte_size. rewrite uN_small; [done|]. pose proof E_pos. lia. Qed.

Lemma has_block h a vs : holds h a vs → 0 < c_end_of_storage_ a → is_Some (c_start_ a).
Proof. intros [_ _ Hb] Hs. destruct (c_start_ a); [by eexists|]. destruct Hb as [_ Hb]. lia. Qed.

Lemma reserve_spec h a vs n : holds h a vs → 0 ≤ n → n * E ≤ 2 ^ 60 → runs (reserve E AL h a n) (result_room h a vs (n * E)).
Proof.
  intros Hh Hn Hmax. pose proof (holds_room h a vs Hh) as (Hend & Hs & Hcap & _). pose proof E_pos. pose proof AL_pos.
  unfold reserve. destruct (Z.ltb_spec (capacity E a) n) as [Hlt|Hge].
  - rewrite minimum_memory by done. eapply runs_mono; [apply (realloc_spec h a vs (Z.max AL (n * E)) Hh); nia|].
    intros [[h' a'] ok] [Hr Hroom]. split; [done|]. intros Hok. destruct (Hroom Hok) as [? Hb]. split; [lia|]. intros _. apply Hb. lia.
  - apply runs_ok. split; [by split_and!|]. intros _. split; [nia|]. intros Hp. apply (has_block h a vs Hh). nia.
Qed.

Lemma pod_grow_spec h a vs : holds h a vs → c_end_ a = c_end_of_storage_ a → c_end_ a ≤ 2 ^ 59 →
  runs (grow E AL h a) (result_room h a vs (c_end_ a + E)).
Proof.
  intros Hh Hfull Hmax. pose proof (holds_room h a vs Hh) as (Hend & Hs & Hcap & _). pose proof E_pos. pose proof AL_pos. unfold grow.
  assert (∀ bytes, 0 < bytes ≤ 2 ^ 61 → E ≤ bytes → c_end_ a + E ≤ bytes → runs (realloc h a bytes) (result_room h a vs (c_end_ a + E))) as Hre.
  { intros bytes Hb HE Hle. eapply runs_mono; [apply (realloc_spec h a vs bytes Hh); lia|].
    intros [[h' a'] ok] [Hr Hroom]. split; [done|]. intros Hok. destruct (Hroom Hok) as [? Hb']. split; [lia|]. intros _. apply Hb'. lia. }
  destruct Hh as [Hv Hc Hblk]. destruct (c_start_ a) as [p|] eqn:Ea.
  - destruct Hblk as (rest & k & _ & _ & Hk & Hek). assert (E ≤ 2 ^ k) by (apply Z.pow_le_mono_r; lia).
    rewrite (uN_small 64), minimum_memory by nia. apply Hre; nia.
  - destruct Hblk as [_ Hs0]. rewrite minimum_memory by lia.
    specialize (Hre (Z.max AL (Z.max AL (1 * E))) ltac:(lia) ltac:(lia) ltac:(lia)). unfold realloc in Hre. by rewrite Ea in Hre.
Qed.

Lemma reserve_ceil h a vs m : holds h a vs → 0 ≤ m → m * E ≤ 2 ^ 58 →
  runs (if capacity E a <? m then reserve E AL h a (bit_ceil m) else Ok (h, a, true)) (result_room h a vs (m * E)).
Proof.
  intros Hh Hm Hmax. pose proof (holds_room h a vs Hh) as (Hend & Hs & Hcap & Hsize). pose proof E_pos.
  destruct (Z.ltb_spec (capacity E a) m) as [Hlt|Hge].
  - destruct (bit_ceil_spec m ltac:(nia)) as (k & Hk & -> & Hle & Hk2). assert (2 ^ k * E ≤ 2 ^ 60) as Hmax2 by (destruct Hk2 as [->|]; nia).
    eapply runs_mono; [apply (reserve_spec h a vs (2 ^ k) Hh ltac:(lia) Hmax2)|].
    intros [[h' a'] ok] [Hr Hroom]. split; [done|]. intros Hok. destruct (Hroom Hok) as [? Hb]. split; [nia|]. intros _. apply Hb. nia.
  - apply runs_ok. split; [by split_and!|]. intros _. split; [nia|]. intros Hp. apply (has_block h a vs Hh). nia.
Qed.

Lemma make_room_spec h a vs n : holds h a vs → 0 ≤ n → (Z.of_nat (length vs) + n) * E ≤ 2 ^ 58 →
  runs (make_room E AL h a n) (result_room h a vs ((Z.of_nat (length vs) + n) * E)).
Proof.
  intros Hh Hn Hmax. pose proof (holds_room h a vs Hh) as (_ & _ & _ & Hsize). pose proof E_pos. unfold make_room. rewrite Hsize, (uN_small 64) by nia.
  by apply reserve_ceil; [|lia|].
Qed.

(** ** Writing into the block *)

(** The block [p] of the array, with the bytes [cs]. *)
Record view h a (p : nat) (cs : list byte) : Prop := {
  vw_start : c_start_ a = Some p;
  vw_block : h !! p = Some (mkBlock (mr_ a) cs);
  vw_size : Z.of_nat (length cs) = c_end_of_storage_ a;
  vw_pow : ∃ k, c_end_of_storage_ a = 2 ^ k ∧ Z.of_nat e ≤ k ≤ 62;
}.

Lemma holds_view h a vs : holds h a vs → is_Some (c_start_ a) → ∃ p rest, view h a p (concat vs ++ rest).
Proof. intros [Hv Hc Hb] [p Hp]. rewrite Hp in Hb. destruct Hb as (rest & k & ? & ? & ? & ?). exists p, rest. split; eauto. Qed.

Lemma view_holds h a p vs rest n : view h a p (concat vs ++ rest) → Forall elt vs → n = Z.of_nat (length vs) * E → holds h (set_end a n) vs.
Proof. intros [Hs Hb Hl (k & Hk & Hek)] Hv ->. split; [done|done|]. cbn [c_start_ set_end mr_ c_end_of_storage_]. rewrite Hs. exists rest, k. done. Qed.

Lemma write_view h a p pre old bs post off : view h a p (pre ++ old ++ post) → off = Z.of_nat (length pre) → length old = length bs →
  ∃ h', write_cells h p off bs = Ok h' ∧ view h' a p (pre ++ bs ++ post) ∧ others h' a = others h a.
Proof.
  intros [Hs Hb Hl Hk] Ho Hlen. eexists. split; [by apply (write_cells_mid h p (mr_ a) pre old bs post off)|]. split; [split|].
  - done.
  - apply lookup_insert_eq.
  - rewrite <- Hl, !length_app. lia.
  - done.
  - unfold others. rewrite Hs. apply delete_insert_eq.
Qed.

(** A reference whose object the array does not move. *)
Definition stable h a x (v : list byte) : Prop := ∀ h' a', others h' a' = others h a → load E h' x = Ok v.

Lemma stable_val h a v : stable h a (Val v) v.
Proof. done. Qed.

Lemma others_lookup h a p b : others h a !! p = Some b → h !! p = Some b.
Proof. unfold others. destruct (c_start_ a) as [q|]; [|done]. rewrite lookup_delete_Some. by intros []. Qed.

Lemma others_read h a p off n v : read_cells (others h a) p off n = Ok v → read_cells h p off n = Ok v.
Proof. unfold read_cells. destruct (others h a !! p) as [b|] eqn:Eb; [|done]. by rewrite (others_lookup h a p b Eb). Qed.

Lemma stable_at h a p off v : read_cells (others h a) p off E = Ok v → stable h a (At p off) v.
Proof. intros Hr h' a' Ho. rewrite <- Ho in Hr. by apply others_read in Hr. Qed.

(** [std::fill] *)
Lemma pod_fill_spec h a p x v (n : nat) : ∀ pre old post off h1, stable h a x v → elt v → others h1 a = others h a → view h1 a p (pre ++ old ++ post) →
  off = Z.of_nat (length pre) → Z.of_nat (length old) = Z.of_nat n * E →
  ∃ h', fill E n h1 (Some p) off x = Ok h' ∧ view h' a p (pre ++ concat (replicate n v) ++ post) ∧ others h' a = others h a.
Proof.
  pose proof E_pos. induction n as [|n IH]; intros pre old post off h1 Hx Hv Ho Hw Hoff Hlen; cbn [fill replicate concat].
  - assert (old = []) as -> by (apply nil_length_inv; lia). by exists h1.
  - rewrite (Hx h1 a Ho), bind_ok. cbn [null_or]. rewrite bind_ok. unfold elt in Hv.
    destruct (cut old (length v)) as (old1 & old2 & -> & Hl1); [lia|]. rewrite <- app_assoc in Hw.
    destruct (write_view h1 a p pre old1 v (old2 ++ post) off Hw Hoff Hl1) as (h2 & -> & Hw2 & Ho2). rewrite bind_ok.
    rewrite app_assoc in Hw2. rewrite length_app in Hlen.
    destruct (IH (pre ++ v) old2 post (off + E) h2 Hx Hv) as (h3 & -> & Hw3 & Ho3); [congruence|done|rewrite length_app; lia|lia|].
    exists h3. rewrite <- !app_assoc in Hw3. rewrite <- app_assoc. done.
Qed.

(** [memcpy] from the memory of the others. *)
Lemma memcpy_view h a p q pre old bs post doff off n : view h a p (pre ++ old ++ post) → read_cells (others h a) q off n = Ok bs →
  doff = Z.of_nat (length pre) → length old = length bs → n = Z.of_nat (length bs) →
  ∃ h', memcpy h (c_start_ a) doff (Some q) off n = Ok h' ∧ view h' a p (pre ++ bs ++ post) ∧ others h' a = others h a.
Proof.
  intros Hw Hr Hd Hl Hn. pose proof (vw_start _ _ _ _ Hw) as Hs. assert (p ≠ q) as Hpq.
  { intros ->. unfold read_cells, others in Hr. rewrite Hs, lookup_delete_eq in Hr. done. }
  unfold memcpy, memmove. rewrite Hs, bool_decide_false, andb_false_r by congruence. cbn [andb null_or]. rewrite !bind_ok.
  destruct (Z.eqb_spec n 0) as [E0|_].
  - assert (bs = []) as -> by (apply nil_length_inv; lia). assert (old = []) as -> by (by apply nil_length_inv). by exists h.
  - rewrite (others_read _ _ _ _ _ _ Hr), bind_ok. by apply (write_view h a p pre old bs post doff).
Qed.

(** ** The operations *)

Lemma holds_prefix h a vs ws n : holds h a (vs ++ ws) → n = Z.of_nat (length vs) * E → holds h (set_end a n) vs.
Proof.
  intros [[Hv _]%Forall_app Hc Hb] ->. split; [done|done|]. cbn [c_start_ set_end mr_ c_end_of_storage_]. destruct (c_start_ a) as [p|].
  - destruct Hb as (rest & k & Hp & ? & ? & ?). exists (concat ws ++ rest), k. by rewrite concat_app, <- app_assoc in *.
  - destruct Hb as [[-> _]%app_eq_nil ?]. done.
Qed.

Lemma byte_size_small n : 0 ≤ n → n * E ≤ 2 ^ 60 → byte_size E n = n * E.
Proof. intros. unfold byte_size. apply uN_small. pose proof E_pos. lia. Qed.

(** Elements are written behind the last one. *)
Lemma view_end h a vs n : holds h a vs → 0 ≤ n → Z.of_nat (length vs) * E + n ≤ c_end_of_storage_ a → is_Some (c_start_ a) →
  ∃ p old post, view h a p (concat vs ++ old ++ post) ∧ Z.of_nat (length old) = n ∧ c_end_ a = Z.of_nat (length (concat vs)).
Proof.
  intros Hh Hn Hroom Hs. destruct (holds_view h a vs Hh Hs) as (p & rest & Hw). pose proof (concat_elts vs (pd_elts _ _ _ Hh)) as Hcv.
  pose proof (vw_size _ _ _ _ Hw) as Hl. rewrite length_app in Hl. destruct (cut rest (Z.to_nat n)) as (old & post & -> & Hold); [lia|].
  exists p, old, post. split_and!; [done|lia|]. rewrite Hcv. apply (pd_end _ _ _ Hh).
Qed.

Lemma push_back_spec h a vs x v : holds h a vs → stable h a x v → elt v → Z.of_nat (length vs) * E ≤ 2 ^ 58 →
  runs (push_back E AL h a x) (result h a (vs ++ [v])).
Proof.
  intros Hh Hx Hv Hmax. pose proof E_pos. pose proof (pd_end _ _ _ Hh) as Hc. pose proof (holds_room h a vs Hh) as (Hend & _ & Hcap & _).
  unfold push_back. eapply (runs_bind _ _ (result_room h a vs (c_end_ a + E))).
  - destruct (Z.eqb_spec (c_end_ a) (c_end_of_storage_ a)) as [Hf|Hf]; [apply pod_grow_spec; [done|done|lia]|].
    assert (Z.of_nat (length vs) < capacity E a) by (apply (Z.mul_lt_mono_pos_r E); lia).
    apply runs_ok. split; [by split_and!|]. intros _. split; [nia|]. intros _. apply (has_block h a vs Hh). lia.
  - intros [[h1 a1] [|]] [(Hm & Ho & Hr) Hroom]; [|by apply runs_ok]. destruct (Hroom eq_refl) as [Hroom1 Hs]. specialize (Hs ltac:(lia)).
    cbv iota. rewrite (Hx h1 a1 Ho), bind_ok. destruct (view_end h1 a1 vs E Hr ltac:(lia) ltac:(lia) Hs) as (p & old & post & Hw & Hl & Hc1).
    rewrite (vw_start _ _ _ _ Hw). cbn [null_or]. rewrite bind_ok. unfold elt in Hv.
    destruct (write_view h1 a1 p (concat vs) old v post _ Hw Hc1 ltac:(lia)) as (h2 & -> & Hw2 & Ho2). rewrite bind_ok. apply runs_ok.
    split_and!; [done|by rewrite <- Ho, <- Ho2|]. rewrite byte_size_small by lia. apply (view_holds h2 a1 p (vs ++ [v]) post).
    + rewrite concat_app. cbn [concat]. by rewrite app_nil_r, <- app_assoc.
    + apply Forall_app. split; [apply (pd_elts _ _ _ Hh)|by apply Forall_singleton].
    + rewrite (pd_end _ _ _ Hr), length_app. cbn. lia.
Qed.

(** A list cut or filled up to [n] elements. *)
Definition resized (n : nat) (v : list byte) vs : list (list byte) := take n vs ++ replicate (n - length vs) v.

Lemma resize_fill_spec h a vs (n : nat) x v : holds h a vs → stable h a x v → elt v → Z.of_nat n * E ≤ 2 ^ 58 →
  runs (resize_fill E AL h a (Z.of_nat n) x) (result h a (resized n v vs)).
Proof.
  intros Hh Hx Hv Hmax. pose proof E_pos. pose proof (holds_room h a vs Hh) as (_ & _ & _ & Hsize). unfold resize_fill. rewrite Hsize.
  rewrite byte_size_small by lia. destruct (Z.ltb_spec (Z.of_nat (length vs)) (Z.of_nat n)) as [Hlt|Hge].
  - rbind (reserve_spec h a vs (Z.of_nat n) Hh ltac:(lia) ltac:(lia)). intros [[h1 a1] [|]] [(Hm & Ho & Hr) Hroom]; [|by apply runs_ok].
    destruct (Hroom eq_refl) as [Hroom1 Hs]. specialize (Hs ltac:(nia)). cbv iota.
    assert (Z.of_nat (n - length vs) = Z.of_nat n - Z.of_nat (length vs)) as Hsub by lia.
    destruct (view_end h1 a1 vs (Z.of_nat (n - length vs) * E) Hr ltac:(nia) ltac:(rewrite Hsub; lia) Hs) as (p & old & post & Hw & Hl & Hc1).
    rewrite (vw_start _ _ _ _ Hw). replace (Z.to_nat (Z.of_nat n - Z.of_nat (length vs))) with (n - length vs)%nat by lia.
    assert (stable h1 a1 x v) as Hx1 by (intros h' a' Eo; exact (Hx h' a' (eq_trans Eo Ho))).
    destruct (pod_fill_spec h1 a1 p x v (n - length vs) (concat vs) old post _ h1 Hx1 Hv eq_refl Hw Hc1 Hl) as (h2 & -> & Hw2 & Ho2).
    rewrite bind_ok. apply runs_ok. split_and!; [done|by rewrite <- Ho, <- Ho2|]. apply (view_holds h2 a1 p _ post).
    + unfold resized. by rewrite take_ge, concat_app, <- app_assoc by lia.
    + unfold resized. rewrite take_ge by lia. apply Forall_app. split; [apply (pd_elts _ _ _ Hh)|by apply Forall_replicate].
    + unfold resized. rewrite length_app, length_take, length_replicate. f_equal. lia.
  - apply runs_ok. split_and!; [done|done|]. unfold resized. replace (n - length vs)%nat with 0%nat by lia. rewrite app_nil_r.
    apply (holds_prefix h a (take n vs) (drop n vs)); [by rewrite take_drop|]. rewrite length_take. f_equal. lia.
Qed.

Lemma assign_n_spec h a vs (n : nat) x v : holds h a vs → stable h a x v → elt v → Z.of_nat n * E ≤ 2 ^ 58 →
  runs (assign_n E AL h a (Z.of_nat n) x) (result h a (replicate n v)).
Proof.
  intros Hh Hx Hv Hmax. pose proof E_pos. unfold assign_n, resize. rewrite bind_bind.
  rbind (reserve_spec h a vs (Z.of_nat n) Hh ltac:(lia) ltac:(lia)). intros [[h1 a1] [|]] [(Hm & Ho & Hr) Hroom]; [|by apply runs_ok].
  destruct (Hroom eq_refl) as [Hroom1 Hs]. rewrite bind_ok. cbv iota. unfold resize_assume_reserved. rewrite byte_size_small by lia.
  unfold size. cbn [c_end_ c_start_ set_end]. rewrite Z.div_mul, Nat2Z.id by lia. destruct n as [|n].
  - cbn [fill]. rewrite bind_ok. apply runs_ok. split_and!; [done|done|]. by apply (holds_prefix h1 a1 [] vs).
  - destruct (holds_view h1 a1 vs Hr ltac:(apply Hs; lia)) as (p & rest & Hw). pose proof (vw_size _ _ _ _ Hw) as Hl.
    destruct (cut (concat vs ++ rest) (Z.to_nat (Z.of_nat (S n) * E))) as (old & post & Ecs & Hold); [lia|]. rewrite Ecs in Hw.
    assert (stable h1 a1 x v) as Hx1 by (intros h' a' Eo; exact (Hx h' a' (eq_trans Eo Ho))). rewrite (vw_start _ _ _ _ Hw).
    destruct (pod_fill_spec h1 a1 p x v (S n) [] old post 0 h1 Hx1 Hv eq_refl Hw eq_refl ltac:(lia)) as (h2 & -> & Hw2 & Ho2).
    rewrite bind_ok. apply runs_ok. split_and!; [done|by rewrite <- Ho, <- Ho2|]. apply (view_holds h2 a1 p _ post).
    + by rewrite app_nil_l in Hw2.
    + by apply Forall_replicate.
    + by rewrite length_replicate.
Qed.

(** ** Ranges from the memory of the others *)

Definition source h a (q : nat) (off : Z) ws : Prop :=
  Forall elt ws ∧ ws ≠ [] ∧ read_cells (others h a) q off (Z.of_nat (length ws) * E) = Ok (concat ws).

Lemma source_stable h a h' a' q off ws : source h a q off ws → others h' a' = others h a → source h' a' q off ws.
Proof. intros (? & ? & Hr) Ho. by rewrite <- Ho in Hr. Qed.

Lemma source_pos h a q off ws : source h a q off ws → 0 < Z.of_nat (length ws) * E ∧ Z.of_nat (length (concat ws)) = Z.of_nat (length ws) * E.
Proof. intros (Hw & Hne & _). pose proof E_pos. split; [|by apply concat_elts]. destruct ws; [done|]. cbn. nia. Qed.

Lemma insert_back_spec h a vs q off ws : holds h a vs → source h a q off ws → (Z.of_nat (length vs) + Z.of_nat (length ws)) * E ≤ 2 ^ 58 →
  runs (insert_back E AL h a (Some q) off (Z.of_nat (length ws))) (result h a (vs ++ ws)).
Proof.
  intros Hh Hsrc Hmax. pose proof E_pos. unfold insert_back, insert_assume_reserved.
  rbind (make_room_spec h a vs (Z.of_nat (length ws)) Hh ltac:(lia) Hmax). intros [[h1 a1] [|]] [(Hm & Ho & Hr) Hroom]; [|by apply runs_ok].
  cbv iota. destruct (source_pos _ _ _ _ _ Hsrc) as [Hpos Hcw]. destruct (Hroom eq_refl) as [Hroom1 Hs]. specialize (Hs ltac:(nia)).
  destruct (view_end h1 a1 vs (Z.of_nat (length ws) * E) Hr ltac:(nia) ltac:(lia) Hs) as (p & old & post & Hw & Hl & Hc1).
  rewrite byte_size_small by nia. destruct (source_stable _ _ _ _ _ _ _ Hsrc Ho) as (Hws & _ & Hread).
  destruct (memcpy_view h1 a1 p q (concat vs) old (concat ws) post (c_end_ a1) off _ Hw Hread Hc1 ltac:(lia) ltac:(lia)) as (h2 & -> & Hw2 & Ho2).
  rewrite !bind_ok. apply runs_ok. split_and!; [done|by rewrite <- Ho, <- Ho2|]. apply (view_holds h2 a1 p _ post).
  - by rewrite concat_app, <- app_assoc.
  - apply Forall_app. split; [apply (pd_elts _ _ _ Hh)|done].
  - rewrite (pd_end _ _ _ Hr), length_app. lia.
Qed.

Lemma assign_range_spec h a vs q off ws : holds h a vs → source h a q off ws → Z.of_nat (length ws) * E ≤ 2 ^ 58 →
  runs (assign E AL h a (Some q) off (Z.of_nat (length ws))) (result h a ws).
Proof.
  intros Hh Hsrc Hmax. pose proof E_pos. unfold assign.
  rbind (reserve_ceil h a vs (Z.of_nat (length ws)) Hh ltac:(lia) Hmax). intros [[h1 a1] [|]] [(Hm & Ho & Hr) Hroom]; [|by apply runs_ok].
  cbv iota. destruct (source_pos _ _ _ _ _ Hsrc) as [Hpos Hcw]. destruct (Hroom eq_refl) as [Hroom1 Hs]. specialize (Hs Hpos).
  destruct (holds_view h1 a1 vs Hr Hs) as (p & rest & Hw). pose proof (vw_size _ _ _ _ Hw) as Hl.
  destruct (cut (concat vs ++ rest) (length (concat ws))) as (old & post & Ecs & Hold); [lia|]. rewrite Ecs in Hw.
  rewrite byte_size_small by nia. destruct (source_stable _ _ _ _ _ _ _ Hsrc Ho) as (Hws & _ & Hread).
  destruct (memcpy_view h1 a1 p q [] old (concat ws) post 0 off _ Hw Hread eq_refl ltac:(lia) ltac:(lia)) as (h2 & -> & Hw2 & Ho2).
  rewrite bind_ok. apply runs_ok. split_and!; [done|by rewrite <- Ho, <- Ho2|]. by apply (view_holds h2 a1 p ws post).
Qed.

(** The elements behind the place move up by the size of the gap [n]. *)
Lemma move_up h a p (vs1 vs2 : list (list byte)) rest n : view h a p (concat vs1 ++ concat vs2 ++ rest) → Forall elt (vs1 ++ vs2) →
  0 < n ≤ Z.of_nat (length rest) → c_end_ a = Z.of_nat (length (vs1 ++ vs2)) * E →
  let move := Z.of_nat (length vs2) * E in
  ∃ h' gap post, (if negb (move =? 0) then memmove h (c_start_ a) (c_end_ a + n - move) (c_start_ a) (c_end_ a - move) move else Ok h) = Ok h' ∧
    Z.of_nat (length gap) = n ∧ view h' a p (concat vs1 ++ gap ++ concat vs2 ++ post) ∧ others h' a = others h a.
Proof.
  intros Hw [Hv1 Hv2]%Forall_app Hn Hc move. pose proof E_pos. pose proof (concat_elts vs1 Hv1) as Hc1. pose proof (concat_elts vs2 Hv2) as Hc2.
  rewrite length_app in Hc. destruct (Z.eqb_spec move 0) as [E0|Hne]; cbn [negb].
  - assert (concat vs2 = []) as E2 by (apply nil_length_inv; lia). rewrite E2 in *. destruct (cut rest (Z.to_nat n)) as (gap & post & -> & Hg); [lia|].
    exists h, gap, post. split_and!; [done|lia|done|done].
  - unfold memmove. rewrite (proj2 (Z.eqb_neq _ _) Hne), (vw_start _ _ _ _ Hw). cbn [null_or]. rewrite !bind_ok.
    rewrite (read_cells_mid h p (mr_ a) (concat vs1) (concat vs2) rest) by (apply Hw || lia). rewrite bind_ok.
    destruct (cut (concat vs2 ++ rest) (Z.to_nat n)) as (gap & l & El & Hg); [rewrite length_app; lia|].
    destruct (cut l (length (concat vs2))) as (old & post & -> & Hold).
    { apply (f_equal length) in El. rewrite !length_app in El. lia. }
    rewrite El, app_assoc in Hw. destruct (write_view h a p (concat vs1 ++ gap) old (concat vs2) post (c_end_ a + n - move) Hw) as (h2 & E2 & Hw2 & Ho2);
      [rewrite length_app; lia|done|]. exists h2, gap, post. rewrite <- app_assoc in Hw2. split_and!; [done|lia|done|done].
Qed.

Lemma insert_spec h a vs (i : nat) q off ws : holds h a vs → source h a q off ws → (i ≤ length vs)%nat →
  (Z.of_nat (length vs) + Z.of_nat (length ws)) * E ≤ 2 ^ 58 →
  runs (insert E AL h a (Z.of_nat i * E) (Some q) off (Z.of_nat (length ws))) (result h a (take i vs ++ ws ++ drop i vs)).
Proof.
  intros Hh Hsrc Hi Hmax. pose proof E_pos. unfold insert. destruct (source_pos _ _ _ _ _ Hsrc) as [Hpos Hcw].
  assert (Z.of_nat (length (drop i vs)) = Z.of_nat (length vs) - Z.of_nat i) as Hd by (rewrite length_drop; lia).
  assert (u64 ((c_end_ a - Z.of_nat i * E) / E * E) = Z.of_nat (length (drop i vs)) * E) as ->.
  { rewrite (pd_end _ _ _ Hh), <- Z.mul_sub_distr_r, Z.div_mul, uN_small, Hd by nia. done. }
  rbind (make_room_spec h a vs (Z.of_nat (length ws)) Hh ltac:(lia) Hmax). intros [[h1 a1] [|]] [(Hm & Ho & Hr) Hroom]; [|by apply runs_ok].
  cbv iota. destruct (Hroom eq_refl) as [Hroom1 Hs]. specialize (Hs ltac:(nia)). rewrite byte_size_small by nia.
  destruct (holds_view h1 a1 vs Hr Hs) as (p & rest & Hw). pose proof (vw_size _ _ _ _ Hw) as Hl. rewrite length_app in Hl.
  pose proof (concat_elts vs (pd_elts _ _ _ Hh)) as Hcv. pose proof (pd_elts _ _ _ Hr) as Hv. pose proof (pd_end _ _ _ Hr) as Hc.
  rewrite <- (take_drop i vs) in Hw, Hv, Hc at 1. rewrite concat_app, <- app_assoc in Hw.
  destruct (move_up h1 a1 p (take i vs) (drop i vs) rest (Z.of_nat (length ws) * E) Hw Hv ltac:(lia) Hc) as (h2 & gap & post & -> & Hg & Hw2 & Ho2).
  rewrite bind_ok. rewrite <- Ho2 in Ho. destruct (source_stable _ _ _ _ _ _ _ Hsrc Ho) as (Hws & _ & Hread). apply Forall_app in Hv as [Hv1 Hv2].
  assert (c_end_ a1 - Z.of_nat (length (drop i vs)) * E = Z.of_nat (length (concat (take i vs)))) as Hplace
    by (rewrite (concat_elts _ Hv1), Hc, length_app, Nat2Z.inj_add; lia).
  destruct (memcpy_view h2 a1 p q (concat (take i vs)) gap (concat ws) (concat (drop i vs) ++ post) _ off _ Hw2 Hread Hplace ltac:(lia) ltac:(lia))
    as (h3 & -> & Hw3 & Ho3).
  rewrite bind_ok. apply runs_ok. split_and!; [done|by rewrite <- Ho, <- Ho3|]. apply (view_holds h3 a1 p _ post).
  - by rewrite !concat_app, <- !app_assoc.
  - rewrite !Forall_app. done.
  - rewrite (pd_end _ _ _ Hr), !length_app, length_take, !Nat2Z.inj_add, Hd, Nat2Z.inj_min. rewrite Z.min_l by lia. lia.
Qed.

(** ** Reading, shrinking and the end *)

Lemma at_index_spec h a vs (i : nat) v : holds h a vs → vs !! i = Some v → at_index E h a (Z.of_nat i) = Ok v.
Proof.
  intros Hh Hi. pose proof E_pos. destruct (list_elem_of_split_length _ _ _ Hi) as (vs1 & vs2 & -> & ->).
  pose proof (pd_elts _ _ _ Hh) as Hv. pose proof (concat_elts _ Hv) as Hc. rewrite length_app in Hc. cbn in Hc. pose proof (holds_room _ _ _ Hh) as (Hend & _).
  pose proof (pd_end _ _ _ Hh) as Hce. rewrite length_app in Hce. cbn in Hce.
  destruct (holds_view h a _ Hh ltac:(apply (has_block _ _ _ Hh); nia)) as (p & rest & Hw). apply Forall_app in Hv as [Hv1 [Hv0 _]%Forall_cons].
  rewrite concat_app in Hw. cbn [concat] in Hw. rewrite <- !app_assoc in Hw. unfold at_index, get. rewrite (vw_start _ _ _ _ Hw). cbn [null_or]. rewrite bind_ok.
  apply (read_cells_mid h p (mr_ a) (concat vs1) v (concat vs2 ++ rest)); [apply Hw|by rewrite concat_elts|done].
Qed.

Lemma destroy_spec h a vs : holds h a vs → destroy h a = Ok (others h a).
Proof.
  intros [_ _ Hb]. unfold destroy, dealloc, others. destruct (c_start_ a) as [p|]; [|done]. destruct Hb as (rest & k & Hp & Hl & _).
  unfold deallocate. rewrite Hp. cbn [owner cells]. by rewrite bool_decide_true, (proj2 (Z.eqb_eq _ _)) by done.
Qed.

Lemma pop_back_spec h a vs v : holds h a (vs ++ [v]) → holds h (pop_back E a) vs.
Proof.
  intros Hh. pose proof E_pos. apply (holds_prefix h a vs [v] _ Hh). rewrite byte_size_small by lia.
  rewrite (pd_end _ _ _ Hh), length_app. cbn. lia.
Qed.

(** ** Programs *)

(** An operation with the elements it is given; a range comes with those that are
    at its place. The client does not pop from an empty array. *)
Inductive op : Set :=
  | PushBack (x : Ref) (v : list byte)
  | PopBack
  | Clear
  | ResizeFill (n : nat) (x : Ref) (v : list byte)
  | AssignN (n : nat) (x : Ref) (v : list byte)
  | InsertBack (q : nat) (off : Z) (ws : list (list byte))
  | Insert (i : nat) (q : nat) (off : Z) (ws : list (list byte))
  | AssignRange (q : nat) (off : Z) (ws : list (list byte)).

Definition exec (o : op) h a : res (Heap * PODArray * bool) :=
  match o with
  | PushBack x _ => push_back E AL h a x
  | PopBack => Ok (h, if is_empty a then a else pop_back E a, true)
  | Clear => Ok (h, clear a, true)
  | ResizeFill n x _ => resize_fill E AL h a (Z.of_nat n) x
  | AssignN n x _ => assign_n E AL h a (Z.of_nat n) x
  | InsertBack q off ws => insert_back E AL h a (Some q) off (Z.of_nat (length ws))
  | Insert i q off ws => insert E AL h a (Z.min (Z.of_nat i) (size E a) * E) (Some q) off (Z.of_nat (length ws))
  | AssignRange q off ws => assign E AL h a (Some q) off (Z.of_nat (length ws))
  end.

(** What it does to a list. *)
Definition spec (o : op) vs : list (list byte) :=
  match o with
  | PushBack _ v => vs ++ [v]
  | PopBack => take (length vs - 1) vs
  | Clear => []
  | ResizeFill n _ v => resized n v vs
  | AssignN n _ v => replicate n v
  | InsertBack _ _ ws => vs ++ ws
  | Insert i _ _ ws => take i vs ++ ws ++ drop i vs
  | AssignRange _ _ ws => ws
  end.

(** The elements are where the operation is told, in memory of [h] that is not the array's. *)
Definition given h x v : Prop := elt v ∧ (x = Val v ∨ ∃ p off, x = At p off ∧ read_cells h p off E = Ok v).
Definition range h (q : nat) (off : Z) ws : Prop := Forall elt ws ∧ ws ≠ [] ∧ read_cells h q off (Z.of_nat (length ws) * E) = Ok (concat ws).
Definition op_ok h (o : op) : Prop :=
  match o with
  | PushBack x v | ResizeFill _ x v | AssignN _ x v => given h x v
  | InsertBack q off ws | Insert _ q off ws | AssignRange q off ws => range h q off ws
  | PopBack | Clear => True
  end.
Definition weight (o : op) : nat :=
  match o with
  | PushBack _ _ => 1 | ResizeFill n _ _ | AssignN n _ _ => n
  | InsertBack _ _ ws | Insert _ _ _ ws | AssignRange _ _ ws => length ws
  | PopBack | Clear => 0
  end.

Lemma spec_length o vs : (length (spec o vs) ≤ length vs + weight o)%nat.
Proof. destruct o; cbn; unfold resized; rewrite ?length_app, ?length_take, ?length_drop, ?length_replicate; cbn; lia. Qed.

Lemma given_stable h a x v : given (others h a) x v → stable h a x v ∧ elt v.
Proof. intros [Hv [->|(p & off & -> & Hr)]]; (split; [|done]); [apply stable_val|by apply stable_at]. Qed.

Lemma pod_exec_spec o h a vs : holds h a vs → op_ok (others h a) o → (Z.of_nat (length vs) + Z.of_nat (weight o)) * E ≤ 2 ^ 58 →
  runs (exec o h a) (result h a (spec o vs)).
Proof.
  intros Hh Hok Hmax. pose proof E_pos. destruct o as [x v| | |n x v|n x v|q off ws|i q off ws|q off ws]; cbn [exec spec weight op_ok] in *.
  - apply given_stable in Hok as [Hx Hv]. apply push_back_spec; [done..|nia].
  - apply runs_ok. assert (is_empty a = bool_decide (vs = [])) as ->.
    { unfold is_empty. rewrite (pd_end _ _ _ Hh). destruct vs; [done|]. apply Z.eqb_neq. cbn. nia. }
    case_bool_decide as Hvs; [subst; by split_and!|]. split_and!; [done|done|]. destruct vs as [|v vs' _] using rev_ind; [done|].
    rewrite length_app, take_app_le by (cbn; lia). cbn. rewrite Nat.add_sub, take_ge by lia. by apply (pop_back_spec h a vs' v).
  - apply runs_ok. split_and!; [done|done|]. by apply (holds_prefix h a [] vs).
  - apply given_stable in Hok as [Hx Hv]. apply resize_fill_spec; [done..|nia].
  - apply given_stable in Hok as [Hx Hv]. eapply assign_n_spec; [done..|nia].
  - by apply insert_back_spec.
  - pose proof (holds_room _ _ _ Hh) as (_ & _ & _ & ->). rewrite <- Nat2Z.inj_min.
    assert (take (i `min` length vs) vs ++ ws ++ drop (i `min` length vs) vs = take i vs ++ ws ++ drop i vs) as <-.
    { destruct (Nat.le_ge_cases i (length vs)); [by rewrite Nat.min_l|]. rewrite Nat.min_r by done. by rewrite !take_ge, !drop_ge by lia. }
    apply insert_spec; [done|done|lia|done].
  - eapply assign_range_spec; [done..|nia].
Qed.

(** The operations one after the other, with what each of them answered. *)
Definition run_ops (ops : list op) (s : Heap * PODArray * list (op * bool)) : res (Heap * PODArray * list (op * bool)) :=
  rfold (λ o '(h, a, log), '(h, a, ok) ← exec o h a; Ok (h, a, log ++ [(o, ok)])) ops s.
Definition replay (log : list (op * bool)) : list (list byte) := fold_left (λ vs '(o, ok), if ok : bool then spec o vs else vs) log [].

(** (C39) For elements whose size is a power of two the array implements a list: any
    program of its operations runs without a failed access, whatever memory is
    there, does to the elements what the operations do to a list, except those that
    run out of memory and change nothing; the destructor gives back all memory that was
    taken, and no other block is touched. *)
Theorem pod_array_refines ops h mr : Forall (op_ok h) ops → Z.of_nat (sum_list_with weight ops) * E ≤ 2 ^ 57 →
  runs (run_ops ops (h, empty_pod mr, [])) (λ '(h', a, log), log.*1 = ops ∧ size E a = Z.of_nat (length (replay log)) ∧
    (∀ i v, replay log !! i = Some v → at_index E h' a (Z.of_nat i) = Ok v) ∧ destroy h' a = Ok h ∧
    ((∀ h bytes, enough h bytes = true) → Forall (λ x, snd x = true) log)).
Proof.
  intros Hok Hmax. pose proof E_pos as HE. unfold run_ops.
  eapply runs_mono; [apply (rfold_runs _ ops (λ pre '(h', a, log), log.*1 = pre ∧ holds h' a (replay log) ∧ others h' a = h ∧
    (length (replay log) ≤ sum_list_with weight pre)%nat ∧ ((∀ h bytes, enough h bytes = true) → Forall (λ x, snd x = true) log)))|].
  - split_and!; [done|apply holds_empty|done|done|done].
  - intros pre o post [[h1 a1] log] Hl (Hpre & Hh & Ho & Hlen & Hall). rewrite Hl, sum_list_with_app in Hmax. cbn in Hmax.
    assert (op_ok h o) as Hop by (rewrite Hl in Hok; apply Forall_app in Hok as [_ [Hop _]%Forall_cons]; done). rewrite <- Ho in Hop.
    rbind (pod_exec_spec o h1 a1 _ Hh Hop ltac:(nia)). intros [[h2 a2] ok] (Hm & Ho2 & Hr). apply runs_ok. unfold replay. rewrite fmap_app, fold_left_app, sum_list_with_app, Forall_app.
    cbn [fold_left fmap list_fmap fst sum_list_with]. pose proof (spec_length o (replay log)) as Hsl. destruct ok.
    + split_and!; [by rewrite Hpre|done|congruence|unfold replay in *; lia|]. intros He2. split; [by apply Hall|by apply Forall_singleton].
    + destruct Hr as (-> & -> & bytes & Hno). split_and!; [by rewrite Hpre|done|done|unfold replay in *; lia|]. intros He2. by rewrite He2 in Hno.
  - intros [[h1 a1] log] (Hpre & Hh & Ho & _ & Hall). split_and!; [done|apply (holds_room _ _ _ Hh)| | |done].
    + intros i v Hi. by apply (at_index_spec h1 a1 _ i v Hh).
    + rewrite <- Ho. by eapply destroy_spec.
Qed.

(** ** What does not work *)

Lemma realloc_frees h a p bytes h' a' : c_start_ a = Some p → realloc h a bytes = Ok (h', a', true) → h' !! p = None.
Proof.
  intros Ha. unfold realloc. rewrite Ha. destruct (allocate _ _ _) as [[h1 q]|]; [|done]. intros (h2 & _ & E2)%bind_ok_inv.
  apply bind_ok_inv in E2 as (h3 & Ed & [= <- <-]). unfold deallocate in Ed. destruct (h2 !! p); [|done]. destruct (_ && _); [|done].
  injection Ed as <-. apply lookup_delete_eq.
Qed.

(** An element of a full array cannot be pushed to it: the memory it was in is given back first. *)
Theorem push_own_element h a vs p off : holds h a vs → c_start_ a = Some p → c_end_ a = c_end_of_storage_ a → c_end_ a ≤ 2 ^ 59 →
  push_back E AL h a (At p off) = Fault UseAfterFree ∨ ∃ bytes, enough h bytes = false.
Proof.
  intros Hh Ha Hf Hmax. unfold push_back. rewrite (proj2 (Z.eqb_eq _ _) Hf).
  destruct (pod_grow_spec h a vs Hh Hf Hmax) as ([[h1 a1] ok] & Eg & (_ & _ & Hr) & _). rewrite Eg, bind_ok. destruct ok; [left|right; by destruct Hr as (_ & _ & Hno)].
  unfold grow in Eg. rewrite Ha in Eg. apply realloc_frees with (p := p) in Eg; [|done]. cbn [load]. unfold read_cells. by rewrite Eg.
Qed.

(** An array that was moved gives its memory back to the default resource, whatever
    resource it came from. *)
Theorem moved_to_wrong_resource h a vs : holds h a vs → is_Some (c_start_ a) →
  destroy h (fst (move_pod a)) = if decide (mr_ a = 0%nat) then Ok (others h a) else Fault WrongFree.
Proof.
  intros [_ _ Hb] [p Ha]. rewrite Ha in Hb. destruct Hb as (rest & k & Hp & Hl & _). unfold destroy, dealloc, move_pod, swap, deallocate, others. cbn.
  rewrite Ha, Hp. cbn [owner cells]. unfold allocated_size. cbn. rewrite (proj2 (Z.eqb_eq _ _) Hl), andb_true_r.
  by destruct (decide (mr_ a = 0%nat)) as [|Hne]; [rewrite bool_decide_true|rewrite bool_decide_false].
Qed.

(** The zeroing resize writes as many bytes as there are new elements. *)
Theorem resize_zero_partial h a vs p rest (n : nat) : holds h a vs → view h a p (concat vs ++ rest) → Z.of_nat n * E ≤ c_end_of_storage_ a →
  Z.of_nat n * E ≤ 2 ^ 58 → (length vs < n)%nat →
  runs (resize_zero E AL h a (Z.of_nat n)) (λ '(h', a', ok), ok = true ∧ c_end_ a' = Z.of_nat n * E ∧
    h' !! p = Some (mkBlock (mr_ a) (concat vs ++ replicate (n - length vs) x00 ++ drop (n - length vs) rest))).
Proof.
  intros Hh Hw Hroom Hmax Hn. pose proof E_pos. pose proof (holds_room h a vs Hh) as (_ & _ & Hcap & Hsize). unfold resize_zero.
  rewrite Hsize, (proj2 (Z.ltb_lt _ _)) by lia. unfold reserve. rewrite (proj2 (Z.ltb_ge _ _)) by nia. rewrite bind_ok. cbv iota.
  pose proof (concat_elts vs (pd_elts _ _ _ Hh)) as Hcv. pose proof (vw_size _ _ _ _ Hw) as Hl. rewrite length_app in Hl.
  destruct (cut rest (n - length vs)) as (old & post & -> & Hold); [nia|]. unfold zero_cells.
  rewrite (proj2 (Z.eqb_neq _ _)), (vw_start _ _ _ _ Hw) by lia. cbn [null_or]. rewrite bind_ok.
  replace (Z.to_nat (Z.of_nat n - Z.of_nat (length vs))) with (n - length vs)%nat by lia.
  destruct (write_view h a p (concat vs) old (replicate (n - length vs) x00) post (c_end_ a) Hw) as (h2 & -> & Hw2 & _);
    [rewrite Hcv; apply (pd_end _ _ _ Hh)|by rewrite length_replicate|]. rewrite bind_ok. apply runs_ok. rewrite byte_size_small by lia.
  split_and!; [done|done|]. rewrite <- Hold at 2. rewrite drop_app_length. apply Hw2.
Qed.
End pod.

(** ** Other element sizes *)

Section overflow.
Context `{PodEnvOk} (s al : Z) (Hs : 0 < s ≤ 2 ^ 20) (Hal : 0 < al ≤ 2 ^ 20) (Hodd : ∀ k, 0 ≤ k → ¬ (s | 2 ^ k)).
Context (Henough : ∀ h bytes, enough h bytes = true).

(** The size of the first block. *)
Definition first_block : Z := bit_ceil (Z.max al (Z.max al s)).

Lemma first_block_spec : s < first_block ∧ ∃ k, 0 ≤ k ∧ first_block = 2 ^ k.
Proof.
  unfold first_block. destruct (bit_ceil_spec (Z.max al (Z.max al s))) as (k & Hk & -> & Hle & _); [lia|]. split; [|by exists k].
  destruct (decide (s = 2 ^ k)) as [->|]; [|lia]. by destruct (Hodd k Hk).
Qed.

Definition pushes (n : nat) (v : list byte) (h : Heap) : res (Heap * PODArray) :=
  rfold (λ _ '(h, a), '(h, a, _) ← push_back s al h a (Val v); Ok (h, a)) (seq 0 n) (h, empty_pod 0).

Lemma pushes_spec v h n : Z.of_nat (length v) = s → (0 < n)%nat → Z.of_nat n ≤ first_block / s →
  runs (pushes n v h) (λ '(h', a), ∃ p cs, a = mkPod (Some p) (Z.of_nat n * s) first_block 0 ∧ h' !! p = Some (mkBlock 0 cs) ∧ Z.of_nat (length cs) = first_block).
Proof.
  intros Hv. destruct first_block_spec as (Hbig & k & Hk & Ek). induction n as [|n IH]; [lia|]. intros _ Hn.
  assert (Z.of_nat n * s + s ≤ first_block) as Hroom by (pose proof (Z.mul_div_le first_block s ltac:(lia)); nia).
  unfold pushes. rewrite seq_S, rfold_app.
  eapply (runs_bind _ _ (λ '(h', a), ∃ h1 p cs, (if c_end_ a =? c_end_of_storage_ a then grow s al h' a else Ok (h', a, true)) =
    Ok (h1, mkPod (Some p) (Z.of_nat n * s) first_block 0, true) ∧ h1 !! p = Some (mkBlock 0 cs) ∧ Z.of_nat (length cs) = first_block)).
  - destruct n as [|n].
    + apply runs_ok. cbn [c_end_ c_end_of_storage_ empty_pod]. rewrite Z.eqb_refl. unfold grow, alloc, allocate. cbn [c_start_ empty_pod mr_].
      unfold minimum_memory_for_elements, byte_size. rewrite Z.mul_1_l, uN_small by lia. fold first_block. rewrite Henough.
      eexists _, _, _. split; [reflexivity|]. rewrite lookup_insert_eq. split; [done|]. rewrite length_fmap, length_seq. lia.
    + destruct (IH ltac:(lia) ltac:(lia)) as ([h1 a] & E1 & p & cs & -> & Hp & Hl). exists (h1, mkPod (Some p) (Z.of_nat (S n) * s) first_block 0). split; [exact E1|].
      exists h1, p, cs. cbn [c_end_ c_end_of_storage_]. rewrite (proj2 (Z.eqb_neq _ _)); [done|]. intros Ec. apply (Hodd k Hk). exists (Z.of_nat (S n)). lia.
  - intros [h1 a] (h2 & p & cs & E2 & Hp & Hl). cbn [rfold]. unfold push_back. rewrite E2, !bind_ok. cbn [load null_or c_start_ c_end_]. rewrite !bind_ok.
    destruct (write_cells_some h2 p 0 cs (Z.of_nat n * s) v Hp) as (pre & old & post & -> & Hpre & Hold); [lia|lia|].
    rewrite (write_cells_mid h2 p 0 pre old v post) by done. rewrite !bind_ok. apply runs_ok. exists p, (pre ++ v ++ post). rewrite lookup_insert_eq.
    split_and!; [|done|rewrite <- Hl, !length_app; lia]. unfold set_end, byte_size. cbn. rewrite (Z.mul_1_l s), uN_small by lia. do 2 f_equal. lia.
Qed.

(** The end of the elements is never the end of the block, which is how [push_back]
    finds that there is no room: once the first block is full it writes behind it. *)
Theorem push_back_overflows v h : Z.of_nat (length v) = s →
  pushes (S (Z.to_nat (first_block / s))) v h = Fault OutOfBounds.
Proof.
  intros Hv. destruct first_block_spec as (Hbig & k & Hk & Ek). assert (0 < first_block / s) as Hpos by (apply Z.div_str_pos; lia).
  destruct (pushes_spec v h (Z.to_nat (first_block / s)) Hv ltac:(lia) ltac:(lia)) as ([h1 a] & E1 & p & cs & -> & Hp & Hl).
  unfold pushes in *. rewrite seq_S, rfold_app, E1, bind_ok. cbn [rfold]. unfold push_back. cbn [c_end_ c_end_of_storage_]. rewrite Z2Nat.id by lia.
  rewrite (proj2 (Z.eqb_neq _ _)); [|intros Ec; apply (Hodd k Hk); exists (first_block / s); lia]. rewrite bind_ok. cbn [load null_or c_start_ c_end_].
  rewrite !bind_ok. unfold write_cells. rewrite Hp. cbn [cells]. pose proof (Z.mul_succ_div_gt first_block s ltac:(lia)) as Hgt.
  rewrite (proj2 (Z.leb_gt (first_block / s * s + Z.of_nat (length v)) _)) by lia. by rewrite andb_false_r.
Qed.
End overflow.

(** ** Concrete memory

    Blocks of at most [limit] bytes, each byte the number of its block. *)
Definition small_blocks (limit : Z) : PodEnv := {|
  bit_ceil x := 2 ^ Z.log2_up x;
  enough _ bytes := bytes <=? limit;
  fresh_cell p _ := default x00 (Strings.Byte.of_nat (p mod 256));
|}.

Lemma small_blocks_ok limit : @PodEnvOk (small_blocks limit).
Proof.
  intros x Hx. cbn. exists (Z.log2_up x). pose proof (Z.log2_up_nonneg x). destruct (Z.le_gt_cases x 1).
  - rewrite Z.log2_up_eqn0 by lia. split_and!; [lia|done|cbn; lia|by left].
  - destruct (Z.log2_up_spec x ltac:(lia)) as [Hlo Hhi]. split_and!; [lia|done|lia|right].
    rewrite <- (Z.succ_pred (Z.log2_up x)), Z.pow_succ_r; [lia|]. pose proof (Z.log2_up_pos x ltac:(lia)). lia.
Qed.

(** ** A concrete program *)

(** Elements of two bytes in blocks of at most 32. The array moves twice, takes a
    range that another block holds, and has no room for a thousand elements. *)
Definition pair_of (b : byte) : list byte := [b; x01].
Definition other_block : Heap := {[ 7%nat := mkBlock 3 (concat (pair_of <$> [x61; x62; x63])) ]}.
Definition pod_program : list op :=
  [PushBack (Val (pair_of x64)) (pair_of x64); InsertBack 7 2 (pair_of <$> [x62; x63]); Insert 1 7 0 (pair_of <$> [x61; x62; x63]);
   PopBack; AssignN 1000 (Val (pair_of x00)) (pair_of x00); ResizeFill 7 (At 7 4) (pair_of x63); ResizeFill 5 (At 7 4) (pair_of x63)].

Lemma pod_array_refines_witness :
  results (λ '(h, a, log), (log.*2, replay log, c_end_of_storage_ a)) (run_ops (H := small_blocks 32) 1 4 pod_program (other_block, empty_pod 0, [])) =
    Some ([true; true; true; true; false; true; true], pair_of <$> [x64; x61; x62; x63; x62], 16) ∧
  runs (run_ops (H := small_blocks 32) 1 4 pod_program (other_block, empty_pod 0, [])) (λ '(h', a, log), log.*1 = pod_program ∧
    size 2 a = Z.of_nat (length (replay log)) ∧ (∀ i v, replay log !! i = Some v → at_index 2 h' a (Z.of_nat i) = Ok v) ∧ destroy h' a = Ok other_block ∧
    ((∀ h bytes, enough (PodEnv := small_blocks 32) h bytes = true) → Forall (λ x, snd x = true) log)).
Proof.
  split; [vm_compute; reflexivity|].
  apply (pod_array_refines (H := small_blocks 32) (H0 := small_blocks_ok 32) 1 4 ltac:(lia) ltac:(lia) pod_program other_block 0).
  - repeat apply Forall_cons_2; try apply Forall_nil; cbn [op_ok]; unfold range, given, elt;
      repeat match goal with |- _ ∧ _ => split end; try exact I; try reflexivity; try discriminate;
      try (left; reflexivity); try (right; eexists _, _; split; reflexivity); repeat constructor.
  - vm_compute. discriminate.
Defined.
