(* ===== verification/QueueWitness.v ===== *)
(** QueueWitness: the theorems on the two queues of one consumer and on the
    arena at concrete inputs. *)
From S2P Require Import Prelude ThreadEvent SpscQueue MpscQueue Arena.
Local Open Scope Z_scope.

(** ** One producer

    A queue of two records holds one value: the second write is refused, and the
    third reuses the record. *)
Definition spsc2 : SpscQueue.Queue nat := SpscQueue.mkQueue 2 [None; None] 0 0.
Definition turn : list (SpscQueue.action nat) :=
  [CallWrite 10%nat; StepW; StepW; CallRead; StepW; StepR; CallWrite 11%nat; StepW; StepR; CallWrite 12%nat; StepR; StepW; StepW; StepW;
   CallRead; StepR; StepR; StepR].

Lemma spsc_fifo_witness :
  results (λ s, (SpscQueue.written_ s, SpscQueue.got_ s, SpscQueue.refused_ s)) (SpscQueue.acts turn (SpscQueue.mkSystem spsc2 WIdle RIdle [] [] 0)) =
    Some ([10%nat; 12%nat], [10%nat; 12%nat], 1%nat) ∧
  runs (SpscQueue.acts turn (SpscQueue.mkSystem spsc2 WIdle RIdle [] [] 0)) (λ s,
    ∃ waiting, SpscQueue.written_ s = SpscQueue.got_ s ++ waiting ∧ (length waiting < 2)%nat).
Proof. split; [vm_compute; reflexivity|]. apply (spsc_fifo 2); [lia|lia|reflexivity]. Defined.

Lemma spsc_alone_witness :
  runs (SpscQueue.write spsc2 7%nat) (λ '(q', b), b = true ∧ SpscQueue.holds 2 q' [7%nat]) ∧ SpscQueue.popFront spsc2 = Fault AssertFailed.
Proof.
  destruct (spsc_alone 2 ltac:(lia) ltac:(lia) spsc2 [] 7%nat (spsc_holds_new 2 ltac:(lia) spsc2 eq_refl)) as (Hw & _ & Hp & _).
  split; [|exact Hp]. destruct Hw as ([q' b] & E & -> & Hw). exists (q', true). split; [exact E|]. split; [reflexivity|exact Hw].
Defined.

(** ** Many producers

    Two producers exchange the tail; the first links its node last, and until
    then the consumer sees nothing but does not say that the queue is empty. *)
Definition late_link : list MpscQueue.action :=
  [CallPush 0 1%nat; CallPush 1 2%nat; StepP 0; StepP 0; StepP 1; StepP 1; StepP 1; CallPop; StepC; StepC; StepP 0;
   CallPop; StepC; StepC; CallPop; StepC; StepC; StepC; StepC; StepC; StepC].


Lemma mpsc_pop_witness :
  runs (MpscQueue.acts [CallPush 0 1%nat; StepP 0; StepP 0; StepP 0] (MpscQueue.new_system 2 1)) (λ s,
    runs (MpscQueue.Pop 1 (MpscQueue.queue_ s)) (λ '(q, r), r = Some 1%nat)).
Proof.
  destruct (mpsc_pop [CallPush 0 1%nat; StepP 0; StepP 0; StepP 0] 2 1 1 ltac:(lia) ltac:(lia)) as (s & E & H).
  exists s. split; [exact E|]. injection E as <-. destruct (H ltac:(by repeat constructor) eq_refl) as [Hp _]. exact Hp.
Defined.

(** ** The arena

    A piece of a block, a block of its own, an aligned piece behind an odd one. *)
Definition requests : list request := [Plain 3; Plain 9000; Aligned 16; Plain 2000].

Lemma arena_pieces_witness :
  results snd (serve_all (H := bump) requests) =
    Some [(Plain 3, Some 16); (Plain 9000, Some 8224); (Aligned 16, Some 24); (Plain 2000, Some 40)] ∧
  runs (serve_all (H := bump) requests) (λ '(a, log), log.*1 = requests ∧ all_apart (pieces log) ∧
    Forall (λ g, ∃ b, b ∈ destroy a ∧ inside (ptr g) (sz g) b) (pieces log) ∧
    (∀ n p, (Aligned n, Some p) ∈ log → p mod 8 = 0) ∧ all_apart (destroy a)).
Proof.
  split; [vm_compute; reflexivity|]. apply (arena_pieces (H := bump) (H0 := bump_ok) requests). repeat constructor.
Defined.
