(* ===== verification/TaskQueue.v ===== *)
(** TaskQueue: the queue of a shard: producers add tasks, one thread runs them.
    Source: src/net/util/task_queue.hpp, src/src/detail/task_queue.hpp.

    The operations are composed from those of the bounded queue, the event count
    on which producers wait for room, and the event on which the thread of the
    queue sleeps, each without interference by others. *)
From S2P Require Import Prelude SpinLock ThreadEvent MpmcQueue MpmcInv MpmcSpec EventCount EventCountSpec.
Local Open Scope Z_scope.

Section task_queue.
Context {T : Type}.   (* std::function<void()> *)

Record TaskQueue : Type := mkTaskQueue {
  queue_ : Queue T;
  push_ec_ : EventCount;
  pull_ec_ : Z;            (* the counter of the ThreadEvent *)
  is_closed_ : bool;
}.

Definition new_task_queue (queue_size : Z) : option TaskQueue :=
  q ← new_queue queue_size; Some (mkTaskQueue q new_ec 0 false).

Definition TryAdd (tq : TaskQueue) (f : T) : res (TaskQueue * bool) :=
  '(q, enqueued) ← try_enqueue (queue_ tq) f;
  if enqueued : bool then Ok (mkTaskQueue q (push_ec_ tq) (te_notify (pull_ec_ tq)) (is_closed_ tq), true)
  else Ok (mkTaskQueue q (push_ec_ tq) (pull_ec_ tq) (is_closed_ tq), false).

Definition set_push (tq : TaskQueue) (ec : EventCount) : TaskQueue := mkTaskQueue (queue_ tq) ec (pull_ec_ tq) (is_closed_ tq).

(** [Add] by the coroutine [w]: false when it is suspended until there is room. *)
Fixpoint Add (n fuel : nat) (tq : TaskQueue) (f : T) (w : nat) : res (TaskQueue * bool) :=
  match n with
  | O => Fault NoFuel
  | S n' =>
      let '(ec, key) := prepareWait (push_ec_ tq) in
      '(tq, added) ← TryAdd (set_push tq ec) f;
      if added : bool then Ok (set_push tq (release (push_ec_ tq)), true) else
      '(ec, suspended) ← wait fuel (push_ec_ tq) w key;
      if suspended : bool then Ok (set_push tq ec, false) else Add n' fuel (set_push tq (release ec)) f w
  end.

Definition Shutdown (tq : TaskQueue) : TaskQueue :=
  mkTaskQueue (queue_ tq) (push_ec_ tq) (te_notifyAll (pull_ec_ tq)) true.
Definition isRuning (tq : TaskQueue) : bool := negb (is_closed_ tq).

(** One round of the loop of [Run]. *)
Inductive round : Type := Sleeps | Stops | Again | Runs (f : T).

Definition run_round (fuel : nat) (cont : nat → EventCount → res EventCount) (tq : TaskQueue) : res (TaskQueue * round) :=
  match te_wait (pull_ec_ tq) with
  | None => Ok (tq, Sleeps)
  | Some flag =>
      let tq := mkTaskQueue (queue_ tq) (push_ec_ tq) flag (is_closed_ tq) in
      if is_closed_ tq then Ok (tq, Stops) else
      '(q, r) ← try_dequeue (queue_ tq);
      let tq := mkTaskQueue q (push_ec_ tq) (pull_ec_ tq) (is_closed_ tq) in
      match r with
      | None => Ok (tq, Again)
      | Some f => '(ec, _) ← notify fuel cont (push_ec_ tq); Ok (set_push tq ec, Runs f)
      end
  end.

(** ** The queue as a list of tasks *)

Context (k : nat) (Hk : (1 ≤ k ≤ 30)%nat).
Implicit Types (tq : TaskQueue) (f : T) (l : list T) (e n : Z).

Lemma Hk32 : (1 ≤ k ≤ 32)%nat.
Proof. lia. Qed.

Lemma N_small : N k < 2 ^ 31.
Proof. unfold N. apply Z.pow_lt_mono_r; lia. Qed.

(** The tasks [l] wait, every one of them is announced, no producer waits, and
    [n] keys are alive. *)
Record tq_holds tq l n : Prop := {
  th_queue : MpmcSpec.holds k (queue_ tq) l;
  th_flag : pull_ec_ tq = Z.of_nat (length l);
  th_ec : ∃ e, idle (push_ec_ tq) e n;
  th_nobody : wait_queue_ (push_ec_ tq) = [];
  th_open : is_closed_ tq = false;
}.

Lemma new_task_queue_holds : ∃ tq, new_task_queue (N k) = Some tq ∧ tq_holds tq [] 0 ∧ enqueue_pos_ (queue_ tq) = 0.
Proof.
  destruct (new_queue_spec (T:=T) k Hk32) as (q & Hq & _ & _ & He & _). unfold new_task_queue. rewrite Hq.
  eexists. split; [done|]. split; [|done]. split; simpl; try done; [by apply (holds_new k Hk32)|exists 0; apply idle_new].
Qed.

(** No more tasks than cells. *)
Lemma holds_short tq l n : tq_holds tq l n → Z.of_nat (length l) ≤ N k.
Proof. intros [Hq _ _ _ _]. apply (ho_room _ _ _ Hq). Qed.

Lemma TryAdd_spec tq l f n : tq_holds tq l n → enqueue_pos_ (queue_ tq) < kMaxPos →
  runs (TryAdd tq f) (λ '(tq', r), r = bool_decide (Z.of_nat (length l) < N k) ∧
    tq_holds tq' (if r then l ++ [f] else l) n ∧ push_ec_ tq' = push_ec_ tq ∧
    enqueue_pos_ (queue_ tq') = enqueue_pos_ (queue_ tq) + Z.b2z r).
Proof.
  intros Hh Hmax. pose proof (holds_short _ _ _ Hh) as Hlen. pose proof N_small. destruct Hh as [Hq Hf He Hn Ho]. unfold TryAdd.
  rbind (try_enqueue_spec k Hk32 (queue_ tq) l f Hq Hmax). intros [q r] (Hr & Hq' & Hpos). destruct r; apply runs_ok.
  - split_and!; [done| |done|done]. symmetry in Hr. apply bool_decide_eq_true in Hr. split; simpl; try done.
    unfold te_notify. rewrite Hf, i32_small by lia. rewrite length_app. simpl. lia.
  - split_and!; [done| |done|done]. by split.
Qed.

(** [Add] returns when there is room, and is suspended otherwise. *)
Lemma Add_spec tq l f n i fuel w : tq_holds tq l n → enqueue_pos_ (queue_ tq) < kMaxPos → n + 1 < 2 ^ 32 → (1 ≤ fuel)%nat →
  runs (Add (S i) fuel tq f w) (λ '(tq', r), r = bool_decide (Z.of_nat (length l) < N k) ∧
    if r then tq_holds tq' (l ++ [f]) n ∧ enqueue_pos_ (queue_ tq') = enqueue_pos_ (queue_ tq) + 1 else
      MpmcSpec.holds k (queue_ tq') l ∧ pull_ec_ tq' = Z.of_nat (length l) ∧ is_closed_ tq' = false ∧
      enqueue_pos_ (queue_ tq') = enqueue_pos_ (queue_ tq) ∧
      (∃ e, idle (push_ec_ tq') e (n + 1)) ∧ wait_queue_ (push_ec_ tq') = [w]).
Proof.
  intros [Hq Hf [e He] Hn Ho] Hmax Hn1 Hfuel. cbn [Add].
  destruct (prepare_idle _ _ _ He Hn1) as (He1 & Hep & Hq1). destruct (prepareWait (push_ec_ tq)) as [ec key]. simpl in He1, Hep, Hq1. subst key.
  assert (tq_holds (set_push tq ec) l (n + 1)) as Hh by (split; simpl; [done|done|by exists e|congruence|done]).
  rbind (TryAdd_spec _ _ f _ Hh Hmax). intros [tq1 r] (Hr & Hh1 & Hec & Hpos). simpl in Hec. destruct r.
  - apply runs_ok. split; [done|]. split; [|done]. destruct Hh1 as [Hq2 Hf2 _ _ Ho2]. split; simpl; try done; [|by rewrite Hec, Hq1].
    rewrite Hec. exists e. apply release_idle; [done|apply (id_waiters _ _ _ He)].
  - rewrite Hec, (wait_idle fuel ec e (n + 1) w e He1 Hfuel), Z.eqb_refl by (rewrite ?Hq1, ?Hn; apply not_elem_of_nil || apply (id_epoch _ _ _ He)).
    rewrite bind_ok. apply runs_ok. split; [done|]. destruct Hh1 as [Hq2 Hf2 _ _ Ho2]. simpl in *. rewrite Z.add_0_r in Hpos.
    split_and!; try done; [|by rewrite Hq1, Hn]. exists e. by destruct He1.
Qed.

Lemma run_round_spec tq l n fuel cont : tq_holds tq l n → enqueue_pos_ (queue_ tq) < kMaxPos → (1 ≤ fuel)%nat →
  runs (run_round fuel cont tq) (λ '(tq', r), match l with
    | [] => r = Sleeps ∧ tq' = tq
    | f :: l' => r = Runs f ∧ tq_holds tq' l' n ∧ enqueue_pos_ (queue_ tq') = enqueue_pos_ (queue_ tq)
    end).
Proof.
  intros Hh Hmax Hfuel. pose proof (holds_short _ _ _ Hh) as Hlen. pose proof N_small. destruct Hh as [Hq Hf [e He] Hn Ho].
  unfold run_round, te_wait. rewrite Hf. destruct l as [|f l]; [by apply runs_ok|].
  simpl in Hlen. rewrite (proj2 (Z.ltb_lt _ _)), i32_small by (simpl; lia). simpl queue_. simpl is_closed_. rewrite Ho.
  rbind (try_dequeue_spec k Hk32 (queue_ tq) _ Hq Hmax). intros [q r] (-> & Hq' & Hpos). cbn [head].
  rbind (notify_idle fuel cont _ _ _ He Hfuel Hn). intros [ec r] (_ & He' & Hn'). apply runs_ok. split_and!; [done| |done].
  split; simpl; try done; [lia|by eexists].
Qed.

(** ** The loop of the worker *)

(** Tasks are added by [TryAdd], and the worker makes one round. *)
Inductive event : Type := Added (f : T) | Round.

(** The tasks that have run, and the queue, after some events. *)
Fixpoint drive (fuel : nat) (cont : nat → EventCount → res EventCount) (es : list event) (tq : TaskQueue) (ran : list T) : res (TaskQueue * list T) :=
  match es with
  | [] => Ok (tq, ran)
  | Added f :: es => '(tq, _) ← TryAdd tq f; drive fuel cont es tq ran
  | Round :: es =>
      '(tq, r) ← run_round fuel cont tq;
      drive fuel cont es tq (match r with Runs f => ran ++ [f] | _ => ran end)
  end.

(** The same events on a list of at most [N] tasks. *)
Definition spec_event (ev : event) (s : list T * list T) : list T * list T :=
  match ev, s with
  | Added f, (l, ran) => (if decide (Z.of_nat (length l) < N k) then l ++ [f] else l, ran)
  | Round, (f :: l, ran) => (l, ran ++ [f])
  | Round, ([], ran) => ([], ran)
  end.

Lemma drive_spec es fuel cont tq l ran : (1 ≤ fuel)%nat → tq_holds tq l 0 →
  enqueue_pos_ (queue_ tq) + Z.of_nat (length es) < kMaxPos →
  runs (drive fuel cont es tq ran) (λ '(tq', ran'), ∃ l',
    fold_left (λ s ev, spec_event ev s) es (l, ran) = (l', ran') ∧ tq_holds tq' l' 0).
Proof.
  intros Hfuel. revert tq l ran. induction es as [|[f|] es IH]; intros tq l ran Hh Hp; cbn [drive fold_left length] in *.
  - apply runs_ok. by exists l.
  - rbind (TryAdd_spec tq l f 0 Hh ltac:(lia)). intros [tq1 r] (Hr & Hh1 & _ & Hpos). cbn [spec_event].
    assert ((if r then l ++ [f] else l) = if decide (Z.of_nat (length l) < N k) then l ++ [f] else l) as El
      by (rewrite Hr; by destruct (decide _); [rewrite bool_decide_true|rewrite bool_decide_false]).
    rewrite <- El. apply IH; [done|]. destruct r; simpl in Hpos; lia.
  - rbind (run_round_spec tq l 0 fuel cont Hh ltac:(lia) Hfuel). intros [tq1 r]. destruct l as [|f l]; cbn [spec_event].
    + intros [-> ->]. apply IH; [done|lia].
    + intros (-> & Hh1 & Hpos). apply IH; [done|lia].
Qed.


(** (C29) [Add] on a full queue stops the shard for good: the coroutine is
    suspended, and the next round of the worker, which takes the first task out,
    never returns from [push_ec_.notify], nor does it run that task. *)
Theorem Add_full_deadlocks tq l n f w fuel i : tq_holds tq l n → enqueue_pos_ (queue_ tq) < kMaxPos → n + 1 < 2 ^ 32 →
  (1 ≤ fuel)%nat → Z.of_nat (length l) = N k →
  runs (Add (S i) fuel tq f w) (λ '(tq', r), r = false ∧
    ∀ fuel' cont, run_round fuel' cont tq' = Fault NoFuel).
Proof.
  intros Hh Hmax Hn Hfuel Hl. eapply runs_mono; [by eapply (Add_spec tq l f n i fuel w)|]. intros [tq1 r] [-> Hr].
  rewrite bool_decide_false in Hr |- * by lia. destruct Hr as (Hq & Hf & Ho & Hpos & [e He] & Hwq). split; [done|]. intros fuel' cont.
  pose proof (N_bounds k Hk32) as HN. pose proof N_small. destruct (th_ec _ _ _ Hh) as [e0 [_ _ _ Hn0]].
  unfold run_round, te_wait. rewrite Hf, (proj2 (Z.ltb_lt _ _)) by lia. simpl queue_. simpl is_closed_. rewrite Ho.
  assert (enqueue_pos_ (queue_ tq1) < kMaxPos) as Hmax1 by lia.
  destruct (try_dequeue_spec k Hk32 (queue_ tq1) _ Hq Hmax1) as ([q r] & -> & -> & Hq' & _). rewrite bind_ok. cbv beta iota.
  destruct l as [|g l]; [simpl in Hl; lia|]. cbn [head]. simpl push_ec_.
  destruct (waiters_bits _ _ _ He) as [Hb _]. destruct He as [Hlock Hv Hep Hw].
  destruct (notify_stuck fuel' cont (push_ec_ tq1) Hlock) as [-> _]; [|by rewrite Hwq|done].
  rewrite Hb. lia.
Qed.

(** [Shutdown] stops the worker at its next round, whatever waits in the
    queue: the tasks are left there. But a task added after [Shutdown] and before
    that round makes the counter overflow, and the worker sleeps instead. *)
Theorem Shutdown_stops tq l n f fuel cont : tq_holds tq l n → enqueue_pos_ (queue_ tq) < kMaxPos → Z.of_nat (length l) < N k →
  runs (run_round fuel cont (Shutdown tq)) (λ '(tq', r), r = Stops ∧ MpmcSpec.holds k (queue_ tq') l) ∧
  isRuning (Shutdown tq) = false ∧
  runs ('(tq, _) ← TryAdd (Shutdown tq) f; run_round fuel cont tq) (λ '(tq', r), r = Sleeps ∧ is_closed_ tq' = true).
Proof.
  intros [Hq Hf He Hn Ho] Hmax Hl. split_and!; [by apply (runs_ok (_, Stops))|done|]. unfold TryAdd. simpl queue_.
  destruct (try_enqueue_spec k Hk32 (queue_ tq) l f Hq Hmax) as ([q r] & -> & -> & _). rewrite !bind_ok, bool_decide_true by done.
  cbv beta iota. rewrite bind_ok. by apply (runs_ok (_, Sleeps)).
Qed.
End task_queue.
Arguments TaskQueue _ : clear implicits.
Arguments event _ : clear implicits.
Arguments round _ : clear implicits.
