(* ===== verification/Pool.v ===== *)
(** Pool: work on all the event loops of the server, and the set of shards that
    is built and destroyed with it.
    Source: src/net/base/uring_proactor_pool.hpp, src/src/sharding/engine_shard_set.hpp
    and .cpp, src/src/sharding/engine_shard.hpp and .cpp.

    Of a loop only the queue of its tasks matters here. A caller that waits on a
    latch lets the loops run: [order] lists the loops in the order in which they
    take their next task. *)
From S2P Require Import Prelude SpinLock ThreadEvent MpmcQueue MpmcInv MpmcSpec EventCount EventCountSpec TaskQueue.
Local Open Scope Z_scope.

Section pool.
Context {S : Type}.   (* the state that the tasks share *)

(** A task of a loop: one of others, or one that counts the latch down at its end. *)
Inductive Job : Type := Plain (f : S → res S) | Counted (f : S → res S).

(** The queues of the loops, the state and the count of the latch. *)
Record Pool : Type := mkPool { loops_ : list (Queue Job); state_ : S; latch_ : Z }.

Definition run_job (j : Job) (p : Pool) : res Pool :=
  match j with
  | Plain f => s ← f (state_ p); Ok (mkPool (loops_ p) s (latch_ p))
  | Counted f => s ← f (state_ p); Ok (mkPool (loops_ p) s (latch_ p - 1))
  end.

(** [proactors_[i]->DispatchBrief(job)]; what it answers is not looked at. *)
Definition dispatch_to (i : nat) (j : Job) (p : Pool) : res Pool :=
  q ← aget (loops_ p) i; '(q, _) ← try_enqueue q j; l ← aset (loops_ p) i q; Ok (mkPool l (state_ p) (latch_ p)).

(** [DispatchBrief(f)]: [f(p)] on every loop [p]. *)
Definition DispatchBrief (f : nat → Job) (p : Pool) : res Pool :=
  rfold (λ i, dispatch_to i (f i)) (seq 0 (length (loops_ p))) p.

(** Loop [i] takes its next task. *)
Definition turn (i : nat) (p : Pool) : res Pool :=
  q ← aget (loops_ p) i;
  '(q, r) ← try_dequeue q;
  l ← aset (loops_ p) i q;
  let p := mkPool l (state_ p) (latch_ p) in
  match r with Some j => run_job j p | None => Ok p end.

(** [latch.wait()]: false while the latch has not reached 0. *)
Definition wait_latch (order : list nat) (p : Pool) : res (Pool * bool) :=
  p ← rfold turn order p; Ok (p, latch_ p =? 0).

Definition AwaitOnAll (f : nat → S → res S) (order : list nat) (p : Pool) : res (Pool * bool) :=
  let p := mkPool (loops_ p) (state_ p) (Z.of_nat (length (loops_ p))) in
  p ← DispatchBrief (λ i, Counted (f i)) p;
  wait_latch order p.

(** [RunBlockingInParallel(f, pred)] for [size] shards. *)
Definition RunBlockingInParallel (size : nat) (f : nat → S → res S) (pred : nat → bool) (order : list nat) (p : Pool) : res (Pool * bool) :=
  let ids := filter (λ i, pred i = true) (seq 0 size) in
  let p := mkPool (loops_ p) (state_ p) (Z.of_nat (length ids)) in
  p ← rfold (λ i, dispatch_to i (Counted (f i))) ids p;
  wait_latch order p.
End pool.
Arguments Job _ : clear implicits.
Arguments Pool _ : clear implicits.

(** ** The shards *)

Definition kQueueLen : Z := 64.

Record EngineShard : Type := mkShard { shard_queue_ : TaskQueue nat; shard_id_ : Z }.

(** [tlocal_] are the thread-local pointers of the loops; [shards_] points to the
    shard of a thread, [None] is a pointer that was not set. *)
Record EngineShardSet : Type := mkShardSet {
  tlocal_ : list (option EngineShard);
  shards_ : list (option nat);
  size_ : nat;
}.

(** [EngineShard(pb, heap)] and [EngineShard::InitThreadLocal] on thread [i]. *)
Definition new_shard (i : nat) : res EngineShard :=
  match new_task_queue kQueueLen with
  | Some q => Ok (mkShard q (u16 (Z.of_nat i)))
  | None => Fault AssertFailed
  end.
Definition InitShard (i : nat) (s : EngineShardSet) : res EngineShardSet :=
  es ← new_shard i; l ← aset (tlocal_ s) i (Some es); Ok (mkShardSet l (shards_ s) (size_ s)).

(** [EngineShardSet::InitThreadLocal] on thread [i]. *)
Definition InitThreadLocal (i : nat) (s : EngineShardSet) : res EngineShardSet :=
  s ← InitShard i s;
  p ← aget (tlocal_ s) i;
  match p with
  | None => Fault NullPointer
  | Some es => l ← aset (shards_ s) (Z.to_nat (shard_id_ es)) (Some i); Ok (mkShardSet (tlocal_ s) l (size_ s))
  end.

(** [EngineShard::DestroyThreadLocal] on thread [i]; the worker of the queue ends. *)
Definition DestroyThreadLocal (i : nat) (s : EngineShardSet) : res EngineShardSet :=
  p ← aget (tlocal_ s) i;
  match p with
  | None => Ok s
  | Some es => l ← aset (tlocal_ s) i None; Ok (mkShardSet l (shards_ s) (size_ s))
  end.

(** [Init], up to the creation of the namespaces ([Lifecycle.new_namespaces]). *)
Definition Init (sz : nat) (order : list nat) (p : Pool EngineShardSet) : res (Pool EngineShardSet * bool) :=
  let s := mkShardSet (tlocal_ (state_ p)) (replicate sz None) sz in
  AwaitOnAll InitThreadLocal order (mkPool (loops_ p) s (latch_ p)).

(** [Shutdown], behind the clearing of the namespaces ([Lifecycle.Clear]). *)
Definition Shutdown (order : list nat) (p : Pool EngineShardSet) : res (Pool EngineShardSet * bool) :=
  RunBlockingInParallel (size_ (state_ p)) DestroyThreadLocal (λ _, true) order p.

(** [NextProactor()] of the server: the sessions are dealt out in turn. *)
Definition NextProactor (size next : Z) : Z * Z := let next := (next + 1) mod size in (next, next).
