(* ===== verification/PoolSpec.v ===== *)
(** PoolSpec: work on all loops is done once on each, in whatever order the loops
    take it; the shards are complete when [Init] returns; and a task that a full
    queue refuses leaves its caller waiting for ever. *)
From S2P Require Import Prelude SpinLock ThreadEvent MpmcQueue MpmcInv MpmcSpec EventCount EventCountSpec TaskQueue Pool.
Local Open Scope Z_scope.

Section pool.
Context {S : Type} (k : nat) (Hk : (1 ≤ k ≤ 32)%nat).
Implicit Types (p : Pool S) (J : nat → list (Job S)) (n : Z) (i : nat) (s : S) (f : nat → S → res S).

(** The queue of loop [i] holds the tasks [J i], and no position exceeds [n]. *)
Definition loops_hold p J n : Prop :=
  ∀ i q, loops_ p !! i = Some q → MpmcSpec.holds k q (J i) ∧ enqueue_pos_ q ≤ n.

Lemma loops_put p J n i q l s latch : loops_hold p J n → MpmcSpec.holds k q l → enqueue_pos_ q ≤ n →
  loops_hold (mkPool (<[i := q]> (loops_ p)) s latch) (put J i l) n.
Proof.
  intros Hp Hq Hpos j q' Hj. simpl in Hj. unfold put. apply list_lookup_insert_Some in Hj as [(<- & <- & _)|[Hne Hj]].
  - by rewrite decide_True.
  - rewrite decide_False by done. by apply Hp.
Qed.

Lemma loops_weaken p J J' n n' s latch : loops_hold p J n → (∀ i, (i < length (loops_ p))%nat → J i = J' i) → n ≤ n' →
  loops_hold (mkPool (loops_ p) s latch) J' n'.
Proof.
  intros Hp HJ Hn i q Hq. simpl in Hq. destruct (Hp i q Hq) as [Hh He]. rewrite <- HJ by (by eapply lookup_lt_Some). split; [done|lia].
Qed.

Lemma dispatch_to_spec i j p J n : loops_hold p J n → n < kMaxPos → (i < length (loops_ p))%nat →
  runs (dispatch_to i j p) (λ p', length (loops_ p') = length (loops_ p) ∧ state_ p' = state_ p ∧ latch_ p' = latch_ p ∧
    loops_hold p' (put J i (if bool_decide (Z.of_nat (length (J i)) < N k) then J i ++ [j] else J i)) (n + 1)).
Proof.
  intros Hp Hn Hi. destruct (lookup_lt_is_Some_2 _ _ Hi) as [q Hq]. destruct (Hp i q Hq) as [Hh He].
  unfold dispatch_to. rewrite (aget_some _ _ _ Hq), bind_ok.
  rbind (try_enqueue_spec k Hk q (J i) j Hh ltac:(lia)). intros [q' r] (Hr & Hh' & He').
  rewrite (aset_some _ _ _ _ Hq), bind_ok. apply runs_ok. simpl. rewrite length_insert, <- Hr. split_and!; [done..|].
  assert (loops_hold p J (n + 1)) as Hp1 by (intros i' q1 H1; destruct (Hp i' q1 H1); split; [done|lia]).
  apply (loops_put p J); [done|done|destruct r; simpl in He'; lia].
Qed.

(** The next task of a loop. *)
Lemma turn_eq i p J n : loops_hold p J n → n < kMaxPos → (i < length (loops_ p))%nat →
  ∃ l, length l = length (loops_ p) ∧ loops_hold (mkPool l (state_ p) (latch_ p)) (put J i (tail (J i))) n ∧
    turn i p = match J i with [] => Ok (mkPool l (state_ p) (latch_ p)) | j :: _ => run_job j (mkPool l (state_ p) (latch_ p)) end.
Proof.
  intros Hp Hn Hi. destruct (lookup_lt_is_Some_2 _ _ Hi) as [q Hq]. destruct (Hp i q Hq) as [Hh He].
  unfold turn. rewrite (aget_some _ _ _ Hq), bind_ok.
  destruct (try_dequeue_spec k Hk q (J i) Hh ltac:(lia)) as ([q' r] & -> & -> & Hh' & He'). rewrite bind_ok. cbv beta iota.
  rewrite (aset_some _ _ _ _ Hq), bind_ok. exists (<[i := q']> (loops_ p)). rewrite length_insert. split_and!; [done| |by destruct (J i)].
  by apply (loops_put p J); [done|done|lia].
Qed.

(** Dispatching a job to each of some loops with room. *)
Lemma dispatch_all ids g p J n : loops_hold p J n → n + Z.of_nat (length ids) < kMaxPos → NoDup ids →
  (∀ i, i ∈ ids → (i < length (loops_ p))%nat ∧ Z.of_nat (length (J i)) < N k) →
  runs (rfold (λ i, dispatch_to i (g i)) ids p) (λ p', length (loops_ p') = length (loops_ p) ∧ state_ p' = state_ p ∧
    latch_ p' = latch_ p ∧ loops_hold p' (λ i, if decide (i ∈ ids) then J i ++ [g i] else J i) (n + Z.of_nat (length ids))).
Proof.
  intros Hp Hn Hnd Hids.
  eapply runs_mono; [apply (rfold_runs _ ids (λ pre p', length (loops_ p') = length (loops_ p) ∧ state_ p' = state_ p ∧
    latch_ p' = latch_ p ∧ loops_hold p' (λ i, if decide (i ∈ pre) then J i ++ [g i] else J i) (n + Z.of_nat (length pre))))|intros p' HP; exact HP].
  - split_and!; [done..|]. simpl. rewrite Z.add_0_r. intros i q Hq. by apply Hp.
  - intros pre x post p1 Hl (Hlen & Hs & Hlat & Hh). destruct (Hids x) as [Hx Hroom]; [rewrite Hl; set_solver|].
    assert (x ∉ pre) as Hxp by (rewrite Hl in Hnd; apply NoDup_app in Hnd as (_ & Hd & _); intros Hin; apply (Hd x Hin); left).
    eapply runs_mono; [apply (dispatch_to_spec x (g x) p1 _ _ Hh)|].
    + rewrite Hl, length_app in Hn. lia.
    + by rewrite Hlen.
    + intros p2 (Hlen2 & Hs2 & Hlat2 & Hh2). split_and!; try congruence. intros i q Hq. destruct (Hh2 i q Hq) as [Hi He].
      split; [|rewrite length_app; simpl; lia]. clear He. unfold put in Hi. rewrite (decide_False (P:=x ∈ pre)), bool_decide_true in Hi by done.
      destruct (decide (i = x)) as [->|Hne].
      * rewrite decide_True by set_solver. done.
      * destruct (decide (i ∈ pre)); [rewrite decide_True by set_solver|rewrite decide_False by set_solver]; done.
Qed.

Definition counted (j : Job S) : Prop := match j with Counted _ => True | Plain _ => False end.
#[export] Instance counted_dec j : Decision (counted j).
Proof. destruct j; apply _. Defined.
Definition job_fun (j : Job S) : S → res S := match j with Plain f | Counted f => f end.

(** The loops do the work they hold, each when its turn comes. *)
Lemma turns_run order (g : nat → Job S) : ∀ p J n s, loops_hold p J n → n < kMaxPos → NoDup order →
  (∀ i, i ∈ order → (i < length (loops_ p))%nat ∧ J i = [g i]) → rfold (λ i, job_fun (g i)) order (state_ p) = Ok s →
  runs (rfold turn order p) (λ p', length (loops_ p') = length (loops_ p) ∧ state_ p' = s ∧
    latch_ p' = latch_ p - Z.of_nat (length (filter counted (g <$> order))) ∧
    loops_hold p' (λ i, if decide (i ∈ order) then [] else J i) n).
Proof.
  induction order as [|x order IH]; intros p J n s Hp Hn Hnd Hin Hf; cbn [rfold] in *.
  - injection Hf as <-. apply runs_ok. split_and!; [done..|simpl; lia|]. intros i q Hq. by apply Hp.
  - apply NoDup_cons in Hnd as [Hx Hnd]. destruct (Hin x ltac:(left)) as [Hxl HJ].
    destruct (turn_eq x p J n Hp Hn Hxl) as (l & Hll & Hl & ->). rewrite HJ in Hl |- *. simpl in Hl.
    apply bind_ok_inv in Hf as (s1 & Hs1 & Hf). cbn [fmap list_fmap].
    assert (run_job (g x) (mkPool l (state_ p) (latch_ p)) = Ok (mkPool l s1 (latch_ p - Z.of_nat (length (filter counted [g x]))))) as ->.
    { rewrite filter_cons, filter_nil. destruct (g x) as [f|f]; cbn [job_fun] in Hs1; cbn [run_job state_ loops_ latch_]; rewrite Hs1, bind_ok;
        case_decide as Hc; cbn [counted] in Hc; done || (do 2 f_equal; simpl; lia). }
    rewrite bind_ok. change (g x :: (g <$> order)) with ([g x] ++ (g <$> order)). rewrite filter_app, length_app.
    eapply runs_mono; [apply (IH (mkPool l s1 (latch_ p - Z.of_nat (length (filter counted [g x])))) (put J x []) n s)|].
    + intros i q Hq. by apply Hl.
    + done.
    + done.
    + intros i Hi. simpl. rewrite Hll. destruct (Hin i ltac:(by right)) as [? E]. split; [done|]. unfold put.
      rewrite decide_False by (intros ->; done). done.
    + done.
    + intros p' (Hlen & Hs & Hlat & Hh). cbn [loops_ latch_] in *. split_and!; [congruence|done|lia|]. intros i q Hq. destruct (Hh i q Hq) as [Hi He].
      split; [|done]. unfold put in Hi. destruct (decide (i = x)) as [->|Hne].
      * rewrite decide_True by (by left). by destruct (decide (x ∈ order)).
      * destruct (decide (i ∈ order)); [rewrite decide_True by (by right)|rewrite decide_False by set_solver]; done.
Qed.

(** Counted work on some loops, and the wait for it. *)
Lemma parallel_spec f ids order p n s : loops_hold p (λ _, []) n → n + Z.of_nat (length ids) < kMaxPos → NoDup ids →
  Forall (λ i, (i < length (loops_ p))%nat) ids → order ≡ₚ ids → rfold f order (state_ p) = Ok s → latch_ p = Z.of_nat (length ids) →
  runs (p ← rfold (λ i, dispatch_to i (Counted (f i))) ids p; wait_latch order p) (λ '(p', woken), woken = true ∧ state_ p' = s ∧
    length (loops_ p') = length (loops_ p) ∧ loops_hold p' (λ _, []) (n + Z.of_nat (length ids))).
Proof.
  intros Hp Hn Hnd Hids Hord Hf Hlat. pose proof (N_bounds k Hk) as HN. rewrite Forall_forall in Hids.
  rbind (dispatch_all ids (λ i, Counted (f i)) p (λ _, []) n Hp Hn Hnd); [intros i Hi; split; [by apply Hids|simpl; lia]|].
  intros p1 (Hlen1 & Hs1 & Hlat1 & Hh1). unfold wait_latch.
  rbind (turns_run order (λ i, Counted (f i)) p1 _ _ s Hh1); [lia|by rewrite Hord| |by rewrite Hs1|].
  - intros i Hi. rewrite Hord in Hi. rewrite Hlen1, decide_True by done. split; [by apply Hids|done].
  - intros p2 (Hlen2 & Hs2 & Hlat2 & Hh2). apply runs_ok. split_and!; [|done|congruence|].
    + rewrite filter_true in Hlat2 by (by intros j (i & -> & _)%list_elem_of_fmap).
      rewrite Hlat2, Hlat1, Hlat, length_fmap, (Permutation_length Hord), Z.sub_diag. done.
    + intros i q Hq. destruct (Hh2 i q Hq) as [Hi He]. split; [|done].
      destruct (decide (i ∈ order)) as [Hin|Hin]; [done|]. rewrite Hord in Hin. by rewrite decide_False in Hi.
Qed.

Lemma AwaitOnAll_spec f order p n s : loops_hold p (λ _, []) n → n + Z.of_nat (length (loops_ p)) < kMaxPos →
  order ≡ₚ seq 0 (length (loops_ p)) → rfold f order (state_ p) = Ok s →
  runs (AwaitOnAll f order p) (λ '(p', woken), woken = true ∧ state_ p' = s ∧
    length (loops_ p') = length (loops_ p) ∧ loops_hold p' (λ _, []) (n + Z.of_nat (length (loops_ p)))).
Proof.
  intros Hp Hn Hord Hf. unfold AwaitOnAll, DispatchBrief. simpl loops_.
  pose proof (parallel_spec f (seq 0 (length (loops_ p))) order (mkPool (loops_ p) (state_ p) (Z.of_nat (length (loops_ p)))) n s) as H.
  rewrite length_seq in H. simpl in H. apply H; try done; [apply NoDup_seq|].
  apply Forall_forall. intros i Hi%elem_of_seq. lia.
Qed.

(** [AwaitOnAll] runs its function once on every loop, whatever the order in
    which the loops get to it, and returns when all of them have: the state is
    that of running the function in that order. *)
Theorem AwaitOnAll_any_order f order p n s : loops_hold p (λ _, []) n → n + Z.of_nat (length (loops_ p)) < kMaxPos →
  order ≡ₚ seq 0 (length (loops_ p)) → rfold f order (state_ p) = Ok s →
  runs (AwaitOnAll f order p) (λ '(p', woken), woken = true ∧ state_ p' = s ∧
    length (loops_ p') = length (loops_ p) ∧ loops_hold p' (λ _, []) (n + Z.of_nat (length (loops_ p)))).
Proof. apply AwaitOnAll_spec. Qed.

(** ** A loop whose queue is full *)

Definition total_job (j : Job S) : Prop := ∀ s, ∃ s', job_fun j s = Ok s'.

(** The counted jobs that wait on [m] loops. *)
Definition pending J (m : nat) : nat := length (filter counted (seq 0 m ≫= J)).

Lemma pending_put J i l m : (i < m)%nat →
  (pending (put J i l) m + length (filter counted (J i)) = pending J m + length (filter counted l))%nat.
Proof.
  intros Hi. unfold pending. rewrite <- !length_app, <- !filter_app.
  pose proof (mbind_upd_perm (put J i l) J (seq 0 m) i (NoDup_seq _ _)) as Hm.
  rewrite (Permutation_app_comm (seq 0 m ≫= put J i l)), (Permutation_app_comm (seq 0 m ≫= J)).
  rewrite Hm; [|apply elem_of_seq; lia|intros j _ Hj; unfold put; by rewrite decide_False].
  unfold put at 1. by rewrite decide_True.
Qed.

(** Jobs that return. *)
Definition all_total J : Prop := ∀ i j, j ∈ J i → total_job j.

Lemma turns_hang order : ∀ p J n, loops_hold p J n → n < kMaxPos → all_total J →
  Forall (λ i, (i < length (loops_ p))%nat) order → Z.of_nat (pending J (length (loops_ p))) < latch_ p →
  runs (rfold turn order p) (λ p', 0 < latch_ p').
Proof.
  induction order as [|x order IH]; intros p J n Hp Hn Htot Hord Hlat; cbn [rfold].
  - apply runs_ok. lia.
  - apply Forall_cons in Hord as [Hx Hord]. destruct (turn_eq x p J n Hp Hn Hx) as (l & Hll & Hl & ->).
    pose proof (pending_put J x (tail (J x)) _ Hx) as Hpend.
    assert (all_total (put J x (tail (J x)))) as Htot'.
    { intros i j. unfold put. destruct (decide (i = x)) as [->|]; [|by apply Htot].
      intros Hj. apply (Htot x). destruct (J x); [done|by right]. }
    destruct (J x) as [|j js] eqn:EJ; simpl tail in *.
    + simpl. apply (IH _ _ n Hl Hn Htot'); simpl; rewrite Hll; [done|lia].
    + destruct (Htot x j ltac:(rewrite EJ; by left) (state_ p)) as [s' Hs']. rewrite filter_cons in Hpend.
      destruct j as [g|g]; simpl in Hs', Hpend |- *; rewrite Hs'; simpl;
        apply (IH (mkPool l s' _) (put J x js) n); simpl; rewrite ?Hll; try done; simpl in Hpend; try lia.
Qed.

Lemma dispatch_grow ids (g : nat → Job S) : ∀ p J n, loops_hold p J n → n + Z.of_nat (length ids) < kMaxPos → all_total J → (∀ i, total_job (g i)) →
  Forall (λ i, (i < length (loops_ p))%nat) ids →
  runs (rfold (λ i, dispatch_to i (g i)) ids p) (λ p', ∃ J', loops_hold p' J' (n + Z.of_nat (length ids)) ∧ all_total J' ∧
    length (loops_ p') = length (loops_ p) ∧ latch_ p' = latch_ p ∧
    (pending J' (length (loops_ p)) ≤ pending J (length (loops_ p)) + length ids)%nat ∧ ∀ i, i ∉ ids → J' i = J i).
Proof.
  induction ids as [|x ids IH]; intros p J n Hp Hn Htot Hg Hids; cbn [rfold length] in *.
  - apply runs_ok. exists J. split_and!; try done; [|lia]. by rewrite Z.add_0_r.
  - apply Forall_cons in Hids as [Hx Hids]. rbind (dispatch_to_spec x (g x) p J n Hp ltac:(lia) Hx).
    intros p1 (Hlen1 & _ & Hlat1 & Hh1). set (l := if bool_decide _ then _ else _) in Hh1.
    assert ((length (filter counted l) ≤ length (filter counted (J x)) + 1)%nat) as Hl.
    { subst l. case_bool_decide; [|lia]. rewrite filter_app, length_app. pose proof (length_filter counted [g x]). simpl in *. lia. }
    assert (all_total (put J x l)) as Htot1.
    { intros i j. unfold put. destruct (decide (i = x)) as [->|]; [|by apply Htot]. subst l. case_bool_decide; [|by apply Htot].
      intros [Hj|Hj%list_elem_of_singleton]%elem_of_app; [by apply (Htot x)|subst; apply Hg]. }
    pose proof (pending_put J x l _ Hx) as Hpend.
    eapply runs_mono; [apply (IH p1 (put J x l) (n + 1) Hh1); [lia|done|done|by rewrite Hlen1]|].
    intros p2 (J' & Hh2 & Htot2 & Hlen2 & Hlat2 & Hp2 & Hsame). exists J'. rewrite Hlen1 in *.
    split_and!; [by replace (n + Z.of_nat (Datatypes.S (length ids))) with (n + 1 + Z.of_nat (length ids)) by lia|done|done|congruence|lia|].
    intros i [Hne Hi]%not_elem_of_cons. rewrite Hsame by done. unfold put. by rewrite decide_False.
Qed.

(** A task that is refused is never run and nobody is told: when the queue of
    one loop is full, [AwaitOnAll] waits for ever, however the loops go on. *)
Theorem refused_task_hangs f order p J n j : loops_hold p J n → n + Z.of_nat (length (loops_ p)) < kMaxPos →
  (j < length (loops_ p))%nat → Z.of_nat (length (J j)) = N k →
  (∀ i job, job ∈ J i → ¬ counted job ∧ total_job job) → (∀ i s, ∃ s', f i s = Ok s') →
  Forall (λ i, (i < length (loops_ p))%nat) order →
  runs (AwaitOnAll f order p) (λ '(_, woken), woken = false).
Proof.
  intros Hp Hn Hj Hfull HJ Hf Hord. unfold AwaitOnAll, DispatchBrief. simpl loops_. set (m := length (loops_ p)) in *.
  set (p0 := mkPool (loops_ p) (state_ p) (Z.of_nat m)).
  assert (loops_hold p0 J n) as Hp0 by (intros i q Hq; by apply Hp). set (g := λ i, Counted (f i)).
  change (λ i, dispatch_to i (Counted (f i))) with (λ i, dispatch_to i (g i)).
  assert (∀ i, total_job (g i)) as Hg by (intros i s; apply Hf).
  assert (all_total J) as Htot by (intros i job Hjob; by apply (HJ i)).
  assert (pending J m = 0%nat) as H0.
  { unfold pending. rewrite filter_false; [done|]. intros x (i & Hx & _)%list_elem_of_bind. by apply (HJ i). }
  assert (seq 0 m = seq 0 j ++ j :: seq (Datatypes.S j) (m - Datatypes.S j)) as Eseq.
  { change (j :: seq (Datatypes.S j) (m - Datatypes.S j)) with (seq (0 + j) (Datatypes.S (m - Datatypes.S j))).
    rewrite <- seq_app. f_equal. lia. }
  rewrite Eseq, rfold_app.
  assert (∀ a b, (a + b ≤ m)%nat → Forall (λ i, (i < m)%nat) (seq a b)) as Hseq by (intros; apply Forall_forall; intros i Hi%elem_of_seq; lia).
  assert (∀ a b, length (seq a b) = b) as Hls by (intros; apply length_seq).
  destruct (dispatch_grow (seq 0 j) g p0 J n Hp0 ltac:(rewrite Hls; lia) Htot Hg (Hseq 0%nat j ltac:(lia)))
    as (p1 & -> & J1 & Hh1 & Htot1 & Hlen1 & Hlat1 & Hp1 & Hsame1). rewrite bind_ok. cbn [rfold]. rewrite Hls in *.
  assert (J1 j = J j) as EJ by (apply Hsame1; intros Hin%elem_of_seq; lia).
  destruct (dispatch_to_spec j (g j) p1 J1 _ Hh1 ltac:(lia) ltac:(rewrite Hlen1; done)) as (p2 & -> & Hlen2 & _ & Hlat2 & Hh2).
  rewrite bind_ok. rewrite EJ, bool_decide_false in Hh2 by lia.
  assert (loops_hold p2 J1 (n + Z.of_nat j + 1)) as Hh2'.
  { intros i q Hq. destruct (Hh2 i q Hq) as [Hi He]. split; [|done]. unfold put in Hi. destruct (decide (i = j)) as [->|]; [by rewrite EJ|done]. }
  destruct (dispatch_grow (seq (Datatypes.S j) (m - Datatypes.S j)) g p2 J1 _ Hh2' ltac:(rewrite Hls; lia) Htot1 Hg)
    as (p3 & -> & J3 & Hh3 & Htot3 & Hlen3 & Hlat3 & Hp3 & _); [rewrite Hlen2, Hlen1; apply Hseq; lia|].
  rewrite bind_ok. rewrite Hls in *. unfold wait_latch. change (length (loops_ p0)) with m in *. rewrite Hlen2, Hlen1 in *.
  eapply runs_bind; [apply (turns_hang order p3 J3 _ Hh3)|]; [lia|done|by rewrite Hlen3| |].
  - rewrite Hlen3, Hlat3, Hlat2, Hlat1. simpl. lia.
  - intros p4 Hpos. apply runs_ok. apply Z.eqb_neq. simpl in Hpos. lia.
Qed.
End pool.

(** ** The shards *)

Lemma new_shard_spec i : Z.of_nat i < 2 ^ 16 → runs (new_shard i) (λ es, shard_id_ es = Z.of_nat i).
Proof. intros Hi. unfold new_shard. apply runs_ok. simpl. apply uN_small. lia. Qed.

(** The shards of the threads in [done] are there. *)
Record shards_up (n : nat) (done : list nat) (s : EngineShardSet) : Prop := {
  su_tlocal : length (tlocal_ s) = n;
  su_shards : length (shards_ s) = n;
  su_size : size_ s = n;
  su_done : ∀ i, i ∈ done → (i < n)%nat → shards_ s !! i = Some (Some i) ∧
    ∃ es, tlocal_ s !! i = Some (Some es) ∧ shard_id_ es = Z.of_nat i;
}.

Lemma InitThreadLocal_spec n done s i : shards_up n done s → (i < n)%nat → Z.of_nat n ≤ 2 ^ 16 →
  runs (InitThreadLocal i s) (shards_up n (done ++ [i])).
Proof.
  intros [Ht Hs Hsz Hd] Hi Hn. unfold InitThreadLocal, InitShard.
  destruct (new_shard_spec i ltac:(lia)) as (es & -> & Hes). rewrite bind_ok.
  destruct (lookup_lt_is_Some_2 (tlocal_ s) i ltac:(lia)) as [x Hx]. rewrite (aset_some _ _ _ _ Hx), !bind_ok. simpl tlocal_.
  rewrite (aget_some _ i (Some es)) by (apply list_lookup_insert_eq; lia). rewrite bind_ok, Hes, Nat2Z.id. simpl shards_.
  destruct (lookup_lt_is_Some_2 (shards_ s) i ltac:(lia)) as [y Hy]. rewrite (aset_some _ _ _ _ Hy), bind_ok. apply runs_ok.
  split; simpl; rewrite ?length_insert; try done. intros j Hj Hjn. destruct (decide (j = i)) as [->|Hne].
  - rewrite !list_lookup_insert_eq by lia. eauto.
  - rewrite !list_lookup_insert_ne by done. apply Hd; [|done]. set_solver.
Qed.

Lemma init_all n order s : order ≡ₚ seq 0 n → Z.of_nat n ≤ 2 ^ 16 → shards_up n [] s → runs (rfold InitThreadLocal order s) (shards_up n order).
Proof.
  intros Hord Hn Hs. apply rfold_runs; [done|]. intros pre x post s1 Hl H1. apply InitThreadLocal_spec; [done| |done].
  assert (x ∈ seq 0 n) as Hx by (rewrite <- Hord, Hl; set_solver). apply elem_of_seq in Hx. lia.
Qed.

Lemma destroy_all n order s : order ≡ₚ seq 0 n → length (tlocal_ s) = n →
  runs (rfold DestroyThreadLocal order s) (λ s', tlocal_ s' = replicate n None).
Proof.
  intros Hord Hl. eapply runs_mono; [apply (rfold_runs _ order (λ pre s', length (tlocal_ s') = n ∧ ∀ i, i ∈ pre → tlocal_ s' !! i = Some None))|].
  - split; [done|]. intros i Hi. by apply elem_of_nil in Hi.
  - intros pre x post s1 Hp [Hl1 Hd]. assert (x ∈ seq 0 n) as Hx by (rewrite <- Hord, Hp; set_solver). apply elem_of_seq in Hx.
    destruct (lookup_lt_is_Some_2 (tlocal_ s1) x ltac:(lia)) as [es Hes]. unfold DestroyThreadLocal. rewrite (aget_some _ _ _ Hes), bind_ok.
    destruct es as [es|]; [rewrite (aset_some _ _ _ _ Hes), bind_ok|]; apply runs_ok; (split; [simpl; by rewrite ?length_insert|]);
      intros i [Hi|Hi%list_elem_of_singleton]%elem_of_app; subst; try done; simpl; [| |by apply Hd].
    + destruct (decide (i = x)) as [->|Hne]; [apply list_lookup_insert_eq; lia|rewrite list_lookup_insert_ne by done; by apply Hd].
    + apply list_lookup_insert_eq. lia.
  - intros s' [Hl' Hd]. apply list_eq. intros i. destruct (decide (i < n)%nat) as [Hi|Hi].
    + rewrite lookup_replicate_2 by done. apply Hd. rewrite Hord. apply elem_of_seq. lia.
    + rewrite !lookup_ge_None_2; rewrite ?length_replicate; lia || done.
Qed.

(** Whatever the order in which the threads get to it, [Init] returns with
    every shard built by its own thread and found under its own number, and
    [Shutdown] returns with every shard destroyed. *)
Theorem shards_start_and_stop k (Hk : (1 ≤ k ≤ 32)%nat) n order order' p pos :
  loops_hold k p (λ _, []) pos → length (loops_ p) = n → length (tlocal_ (state_ p)) = n → Z.of_nat n ≤ 2 ^ 16 →
  pos + 2 * Z.of_nat n < kMaxPos → order ≡ₚ seq 0 n → order' ≡ₚ seq 0 n →
  runs (Init n order p) (λ '(p', woken), woken = true ∧
    (∀ i, (i < n)%nat → shards_ (state_ p') !! i = Some (Some i) ∧
       ∃ es, tlocal_ (state_ p') !! i = Some (Some es) ∧ shard_id_ es = Z.of_nat i) ∧
    runs (Shutdown order' p') (λ '(p'', woken), woken = true ∧ tlocal_ (state_ p'') = replicate n None)).
Proof.
  intros Hp Hl Ht Hn Hpos Hord Hord'. unfold Init. set (s := mkShardSet _ _ _).
  assert (shards_up n [] s) as Hs by (split; simpl; rewrite ?length_replicate; try done; intros i Hi; by apply elem_of_nil in Hi).
  destruct (init_all n order s Hord Hn Hs) as (s' & Hs' & Hup).
  eapply runs_mono; [apply (AwaitOnAll_spec k Hk InitThreadLocal order (mkPool (loops_ p) s (latch_ p)) pos s'); simpl; rewrite ?Hl; done || lia|].
  intros [p1 woken] (-> & Es & Hl1 & Hh1). simpl in Hl1, Hh1. rewrite Hl in Hl1, Hh1. destruct Hup as [Ht1 Hs1 Hsz1 Hd1]. rewrite <- Es in *.
  split_and!; [done|intros i Hi; apply Hd1; [rewrite Hord; apply elem_of_seq; lia|done]|].
  destruct (destroy_all n order' (state_ p1) Hord' Ht1) as (s2 & Hs2 & Hnone).
  unfold Shutdown, RunBlockingInParallel. rewrite Hsz1, filter_true by done.
  eapply runs_mono; [apply (parallel_spec k Hk DestroyThreadLocal (seq 0 n) order' _ (pos + Z.of_nat n) s2); simpl; rewrite ?length_seq; try done|].
  - lia.
  - apply NoDup_seq.
  - apply Forall_forall. intros i Hi%elem_of_seq. lia.
  - intros [p2 woken] (-> & -> & _). done.
Qed.
