(* ===== verification/Threads.v ===== *)
(** Threads: the threads of the server, from [Start] to [Stop].
    Source: src/net/util/thread.hpp, src/net/base/uring_proactor_pool.hpp,
    src/src/detail/task_queue.hpp, src/src/sharding/engine_shard.cpp,
    src/src/network/redis_server.hpp.

    [pthread_create] is a parameter: given the threads that live it answers a new
    number, or fails. A thread lives from its creation until it is joined or
    detached; the table says of each whether its function has returned. A call that waits
    for ever is [NoFuel]. *)
From S2P Require Import Prelude SpinLock ThreadEvent MpmcQueue MpmcInv MpmcSpec EventCount EventCountSpec TaskQueue Pool PoolSpec.
Local Open Scope Z_scope.

Class Pthread : Type := pthread_create : gset Z → option Z.
Class PthreadOk `{Pthread} : Prop := pthread_new : ∀ s t, pthread_create s = Some t → t ≠ 0 ∧ t ∉ s.

(** ** [util::Thread] *)

Record Thread : Set := mkThread { tid_ : Z; joined_ : bool }.
Definition no_thread : Thread := mkThread 0 false.

Definition joinable (t : Thread) : bool := negb (tid_ t =? 0) && negb (joined_ t).

(** [Thread(name, func)] *)
Definition start_thread `{Pthread} (m : gmap Z bool) : res (gmap Z bool * Thread) :=
  match pthread_create (dom m) with
  | Some t => Ok (<[t := false]> m, mkThread t false)
  | None => Fault AssertFailed
  end.

(** The new thread object, and what is left of the old one. *)
Definition move_thread (t : Thread) : Thread * Thread := (t, no_thread).
Definition assign_thread (t other : Thread) : res (Thread * Thread) :=
  if joinable t then Fault Terminated else Ok (other, no_thread).

Definition destroy_thread (t : Thread) : res unit := if joinable t then Fault Terminated else Ok tt.

Definition join (m : gmap Z bool) (t : Thread) : res (gmap Z bool * Thread) :=
  if negb (joinable t) then Fault Thrown else
  match m !! tid_ t with
  | Some true => Ok (delete (tid_ t) m, mkThread (tid_ t) true)
  | Some false => Fault NoFuel
  | None => Fault UseAfterFree
  end.

Definition detach (m : gmap Z bool) (t : Thread) : res (gmap Z bool * Thread) :=
  if negb (joinable t) then Fault Thrown else Ok (delete (tid_ t) m, mkThread (tid_ t) true).

Definition current_thread (self : Z) : Thread := mkThread self false.

(** The function of a thread returns. *)
Definition returns (m : gmap Z bool) (t : Thread) : gmap Z bool := <[tid_ t := true]> m.

(** ** The threads of the server

    [threads_] are the pointers of the pool, [workers_] the members [worker_] of the
    task queues of the shards, [stops_] the flags [stop_] of the event loops. *)
Record World : Type := mkWorld {
  table_ : gmap Z bool;
  threads_ : list (option Thread);
  workers_ : list Thread;
  stops_ : list bool;
  set_ : EngineShardSet;
}.

(** [UringProactorPool(size)] *)
Definition new_world (n : nat) : World :=
  mkWorld ∅ (replicate n None) (replicate n no_thread) (replicate n false) (mkShardSet (replicate n None) [] 0).

Section server.
Context `{Pthread} (fuel : nat) (cont : nat → EventCount → res EventCount).

(** [AsyncLoop()]; the loop resets its flag. A thread that the pointer owned is
    destroyed. *)
Definition start_loop (i : nat) (w : World) : res World :=
  '(m, t) ← start_thread (table_ w);
  old ← aget (threads_ w) i;
  _ ← (match old with Some t => destroy_thread t | None => Ok tt end);
  l ← aset (threads_ w) i (Some t);
  b ← aset (stops_ w) i false;
  Ok (mkWorld m l (workers_ w) b (set_ w)).
Definition AsyncLoop (w : World) : res World := rfold start_loop (seq 0 (length (threads_ w))) w.

(** [TaskQueue::Start] of shard [i]. *)
Definition start_worker (i : nat) (w : World) : res World :=
  '(m, tmp) ← start_thread (table_ w);
  old ← aget (workers_ w) i;
  '(t, tmp) ← assign_thread old tmp;
  _ ← destroy_thread tmp;
  l ← aset (workers_ w) i t;
  Ok (mkWorld m (threads_ w) l (stops_ w) (set_ w)).

(** [EngineShardSet::InitThreadLocal], with the thread its shard starts. *)
Definition init_shard (i : nat) (w : World) : res World :=
  w ← start_worker i w;
  s ← InitThreadLocal i (set_ w);
  Ok (mkWorld (table_ w) (threads_ w) (workers_ w) (stops_ w) s).

(** [TaskQueue::Shutdown] of shard [i]: the worker takes its next round, and is
    joined. *)
Definition shutdown_queue (i : nat) (es : EngineShard) (w : World) : res World :=
  t ← aget (workers_ w) i;
  '(_, r) ← run_round fuel cont (TaskQueue.Shutdown (shard_queue_ es));
  let m := match r with Stops => returns (table_ w) t | _ => table_ w end in
  '(m, t) ← join m t;
  l ← aset (workers_ w) i t;
  Ok (mkWorld m (threads_ w) l (stops_ w) (set_ w)).

(** [EngineShard::DestroyThreadLocal]; the destructor of the shard is that of its
    worker. *)
Definition destroy_shard (i : nat) (w : World) : res World :=
  p ← aget (tlocal_ (set_ w)) i;
  match p with
  | None => Ok w
  | Some es =>
      w ← shutdown_queue i es w;
      t ← aget (workers_ w) i;
      _ ← destroy_thread t;
      l ← aset (workers_ w) i no_thread;
      s ← DestroyThreadLocal i (set_ w);
      Ok (mkWorld (table_ w) (threads_ w) l (stops_ w) s)
  end.

(** [RedisServer::Start] up to the accept loop. *)
Definition Start (order : list nat) (p : Pool World) : res (Pool World * bool) :=
  w ← AsyncLoop (state_ p);
  let n := length (loops_ p) in
  let s := mkShardSet (tlocal_ (set_ w)) (replicate n None) n in
  AwaitOnAll init_shard order (mkPool (loops_ p) (mkWorld (table_ w) (threads_ w) (workers_ w) (stops_ w) s) (latch_ p)).

(** [p->stop()] on the thread of loop [i]. *)
Definition stop_loop (i : nat) (w : World) : res World :=
  b ← aset (stops_ w) i true; Ok (mkWorld (table_ w) (threads_ w) (workers_ w) b (set_ w)).

(** Loop [i] ends when it sees its flag; [threads_[i]->join()]. *)
Definition join_loop (i : nat) (w : World) : res World :=
  p ← aget (threads_ w) i;
  match p with
  | None => Fault NullPointer
  | Some t =>
      b ← aget (stops_ w) i;
      let m := if b : bool then returns (table_ w) t else table_ w in
      '(m, t) ← join m t;
      l ← aset (threads_ w) i (Some t);
      Ok (mkWorld m l (workers_ w) (stops_ w) (set_ w))
  end.

(** [UringProactorPool::stop]: a task for every loop, and the joins. *)
Definition stop_pool (order : list nat) (p : Pool World) : res (Pool World) :=
  p ← DispatchBrief (λ i, Plain (stop_loop i)) p;
  p ← rfold turn order p;
  w ← rfold join_loop (seq 0 (length (loops_ p))) (state_ p);
  Ok (mkPool (loops_ p) w (latch_ p)).

(** The task of [RedisServer::Stop], without the flags of the main loop. *)
Definition Stop (order order' : list nat) (p : Pool World) : res (Pool World * bool) :=
  '(p, woken) ← RunBlockingInParallel (size_ (set_ (state_ p))) destroy_shard (λ _, true) order p;
  p ← stop_pool order' p;
  Ok (p, woken).
End server.

(** [~RedisServer()] destroys the threads of the pool; shards that are still there
    are not destroyed with it. *)
Definition destroy_server (w : World) : res unit :=
  rfold (λ t (_ : unit), match t with Some t => destroy_thread t | None => Ok tt end) (threads_ w) tt.

(** ** The table and the thread objects *)

Definition tid_of (t : Thread) : option Z := if joinable t then Some (tid_ t) else None.

(** The threads that some object still has to join. *)
Definition tids (w : World) : list Z := omap (λ o, t ← o; tid_of t) (threads_ w) ++ omap tid_of (workers_ w).

(** They are the threads that live; none of them has returned. *)
Definition table_ok (m : gmap Z bool) (l : list Z) : Prop := NoDup l ∧ ∀ t, m !! t = if decide (t ∈ l) then Some false else None.

Lemma table_ok_perm m l l' : l ≡ₚ l' → table_ok m l → table_ok m l'.
Proof.
  intros Hl [Hn Ht]. split; [by rewrite <- Hl|]. intros t. rewrite Ht. destruct (decide (t ∈ l)) as [Hin|Hout].
  - rewrite Hl in Hin. by rewrite decide_True.
  - rewrite Hl in Hout. by rewrite decide_False.
Qed.

Lemma table_ok_size m l : table_ok m l → size m = length l.
Proof.
  intros [Hn Ht]. rewrite <- (length_map (λ t, (t, false)) l).
  assert (m = list_to_map (map (λ t, (t, false)) l)) as ->.
  { apply map_eq. intros t. rewrite Ht. symmetry. case_decide as Hin.
    - apply elem_of_list_to_map_1; [by rewrite <- list_fmap_compose, list_fmap_id|]. apply list_elem_of_fmap. by exists t.
    - apply not_elem_of_list_to_map_1. by rewrite <- list_fmap_compose, list_fmap_id. }
  rewrite map_size_list_to_map; [done|]. by rewrite <- list_fmap_compose, list_fmap_id.
Qed.

Lemma joinable_new t : t ≠ 0 → joinable (mkThread t false) = true.
Proof. intros Ht. unfold joinable. cbn. by rewrite (proj2 (Z.eqb_neq t 0) Ht). Qed.

Lemma joinable_some t : joinable t = true → tid_of t = Some (tid_ t).
Proof. unfold tid_of. by intros ->. Qed.

Lemma start_thread_spec `{PthreadOk} m l : (∀ s, pthread_create s ≠ None) → table_ok m l →
  runs (start_thread m) (λ '(m', t), joinable t = true ∧ table_ok m' (tid_ t :: l)).
Proof.
  intros Hc [Hn Ht]. unfold start_thread. destruct (pthread_create (dom m)) as [t|] eqn:E; [|by apply Hc in E].
  destruct (pthread_new _ _ E) as [Hnz Hnew]. apply runs_ok. split; [by apply joinable_new|].
  assert (t ∉ l) as Hout by (intros Hin; apply Hnew, elem_of_dom; rewrite Ht, decide_True by done; by eexists).
  split; [by apply NoDup_cons|]. intros x. cbn [tid_]. destruct (decide (x = t)) as [->|Hne].
  - by rewrite lookup_insert_eq, decide_True by (by left).
  - rewrite lookup_insert_ne, Ht by done. destruct (decide (x ∈ l)) as [Hin|Hin]; [rewrite decide_True by (by right)|rewrite decide_False by set_solver]; done.
Qed.

(** The join of a thread whose function returns. *)
Lemma join_spec m l t : joinable t = true → table_ok m (tid_ t :: l) →
  runs (join (returns m t) t) (λ '(m', t'), joinable t' = false ∧ table_ok m' l).
Proof.
  intros Hj [[Hn Hnd]%NoDup_cons Ht]. unfold join, returns. rewrite Hj, lookup_insert_eq. cbn [negb]. apply runs_ok. split; [unfold joinable; apply andb_false_r|].
  split; [done|]. intros x. destruct (decide (x = tid_ t)) as [->|Hne]; [by rewrite lookup_delete_eq, decide_False|].
  rewrite lookup_delete_ne, lookup_insert_ne, Ht by done. destruct (decide (x ∈ l)) as [Hin|Hin]; [rewrite decide_True by (by right)|rewrite decide_False by set_solver]; done.
Qed.

(** A thread object is replaced. *)
Lemma tids_threads m l b s w i o o' : threads_ w !! i = Some o → 
  option_list (t ← o; tid_of t) ++ tids (mkWorld m (<[i := o']> (threads_ w)) l b s) ≡ₚ
  option_list (t ← o'; tid_of t) ++ omap (λ o, t ← o; tid_of t) (threads_ w) ++ omap tid_of l.
Proof. intros Ho. unfold tids. cbn [threads_ workers_]. rewrite !app_assoc. apply Permutation_app_tail. symmetry. exact (omap_insert_perm (λ o, t ← o; tid_of t) _ _ _ _ Ho). Qed.

Lemma tids_workers m l b s w i t t' : workers_ w !! i = Some t →
  option_list (tid_of t) ++ tids (mkWorld m l (<[i := t']> (workers_ w)) b s) ≡ₚ
  option_list (tid_of t') ++ omap (λ o, t ← o; tid_of t) l ++ omap tid_of (workers_ w).
Proof.
  intros Ht. unfold tids. cbn [threads_ workers_]. pose proof (omap_insert_perm tid_of _ _ t' _ Ht) as Hp.
  rewrite !(Permutation_app_comm (omap _ l)), !app_assoc. by rewrite Hp.
Qed.

Definition world_ok (w : World) : Prop := table_ok (table_ w) (tids w).

(** A list of [n] objects, [done] of which are [Q] and the others [P]. *)
Definition slots {A} (n : nat) (P Q : A → Prop) (l : list A) (done : list nat) : Prop :=
  length l = n ∧ ∀ i x, l !! i = Some x → if decide (i ∈ done) then Q x else P x.

Lemma slots_insert_done {A} n (P Q : A → Prop) l done i x : slots n P Q l done → Q x → slots n P Q (<[i := x]> l) (done ++ [i]).
Proof.
  intros [Hl Hs] Hx. split; [by rewrite length_insert|]. intros j y Hj. apply list_lookup_insert_Some in Hj as [(<- & <- & _)|[Hne Hj]].
  - rewrite decide_True by set_solver. done.
  - specialize (Hs j y Hj). destruct (decide (j ∈ done)); [rewrite decide_True by set_solver|rewrite decide_False by set_solver]; done.
Qed.

Lemma slots_next {A} n (P Q : A → Prop) l done i : slots n P Q l done → (i < n)%nat → i ∉ done → ∃ x, l !! i = Some x ∧ P x.
Proof. intros [Hl Hs] Hi Hd. destruct (lookup_lt_is_Some_2 l i ltac:(lia)) as [x Hx]. exists x. specialize (Hs i x Hx). by rewrite decide_False in Hs. Qed.

Lemma slots_none {A} n (P Q : A → Prop) l : length l = n → Forall P l → slots n P Q l [].
Proof. intros Hl Hf. split; [done|]. intros i x Hx. rewrite decide_False by (by intros ?%elem_of_nil). by eapply Forall_lookup_1. Qed.

Lemma slots_all {A} n (P Q : A → Prop) l order : slots n P Q l order → order ≡ₚ seq 0 n → length l = n ∧ Forall Q l.
Proof.
  intros [Hl Hs] Ho. split; [done|]. apply Forall_lookup_2. intros i x Hx. specialize (Hs i x Hx). rewrite decide_True in Hs; [done|].
  rewrite Ho. apply elem_of_seq. apply lookup_lt_Some in Hx. lia.
Qed.

(** In any order, a step for every number below [n]. *)
Lemma rfold_slots {A W} n (P Q : A → Prop) (f : nat → W → res W) (get : W → list A) (I : W → Prop) order w : order ≡ₚ seq 0 n →
  length (get w) = n → Forall P (get w) → I w →
  (∀ i w x, (i < n)%nat → get w !! i = Some x → P x → length (get w) = n → I w → runs (f i w) (λ w', (∃ y, get w' = <[i := y]> (get w) ∧ Q y) ∧ I w')) →
  runs (rfold f order w) (λ w', length (get w') = n ∧ Forall Q (get w') ∧ I w').
Proof.
  intros Ho Hl Hf HI Hstep. eapply runs_mono; [apply (rfold_runs _ order (λ pre w', slots n P Q (get w') pre ∧ I w'))|].
  - split; [by apply slots_none|done].
  - intros pre i post w1 Hpre [Hs HI1]. assert (i ∈ seq 0 n ∧ i ∉ pre) as [Hi Hn].
    { split; [rewrite <- Ho, Hpre; set_solver|]. assert (NoDup order) as Hnd by (rewrite Ho; apply NoDup_seq). rewrite Hpre in Hnd.
      apply NoDup_app in Hnd as (_ & Hd & _). intros Hin. apply (Hd i Hin). by left. }
    apply elem_of_seq in Hi. destruct (slots_next _ _ _ _ _ i Hs ltac:(lia) Hn) as (x & Hx & HP).
    eapply runs_mono; [apply (Hstep i w1 x); [lia|done|done|apply Hs|done]|]. intros w2 [(y & Ey & HQ) HI2]. split; [|done]. rewrite Ey. by apply slots_insert_done.
  - intros w' [Hs HI']. destruct (slots_all _ _ _ _ _ Hs Ho). done.
Qed.

Section server.
Context `{PthreadOk} (Hcreate : ∀ s, pthread_create s ≠ None) (fuel : nat) (cont : nat → EventCount → res EventCount).
Notation live t := (joinable t = true).
Notation loop_live := (λ o : option Thread, ∃ t, o = Some t ∧ joinable t = true).

Lemma start_loop_spec i w : threads_ w !! i = Some None → (i < length (stops_ w))%nat → world_ok w →
  runs (start_loop i w) (λ w', (∃ o, threads_ w' = <[i := o]> (threads_ w) ∧ loop_live o) ∧ workers_ w' = workers_ w ∧
    length (stops_ w') = length (stops_ w) ∧ set_ w' = set_ w ∧ world_ok w').
Proof.
  intros Hi Hs Hok. unfold start_loop. rbind (start_thread_spec _ _ Hcreate Hok). intros [m t] [Hj Hm].
  rewrite (aget_some _ _ _ Hi), !bind_ok, (aset_some _ _ _ _ Hi), bind_ok. destruct (lookup_lt_is_Some_2 _ _ Hs) as [b Hb].
  rewrite (aset_some _ _ _ _ Hb), bind_ok. apply runs_ok. cbn [threads_ workers_ stops_ set_]. rewrite length_insert. split_and!; try done.
  - exists (Some t). split; [done|]. by exists t.
  - eapply table_ok_perm; [|exact Hm]. pose proof (tids_threads m (workers_ w) (<[i := false]> (stops_ w)) (set_ w) w i None (Some t) Hi) as Hp.
    cbn [mbind option_bind option_list app] in Hp. rewrite (joinable_some t Hj) in Hp. by symmetry.
Qed.

Lemma start_worker_spec i w : workers_ w !! i = Some no_thread → world_ok w →
  runs (start_worker i w) (λ w', (∃ t, workers_ w' = <[i := t]> (workers_ w) ∧ live t) ∧ threads_ w' = threads_ w ∧ stops_ w' = stops_ w ∧
    set_ w' = set_ w ∧ world_ok w').
Proof.
  intros Hi Hok. unfold start_worker. rbind (start_thread_spec _ _ Hcreate Hok). intros [m t] [Hj Hm].
  rewrite (aget_some _ _ _ Hi), bind_ok. change (assign_thread no_thread t) with (@Ok (Thread * Thread) (t, no_thread)). rewrite bind_ok.
  change (destroy_thread no_thread) with (Ok tt). rewrite bind_ok, (aset_some _ _ _ _ Hi), bind_ok. apply runs_ok.
  cbn [threads_ workers_ stops_ set_]. split_and!; try done; [by exists t|].
  eapply table_ok_perm; [|exact Hm]. pose proof (tids_workers m (threads_ w) (stops_ w) (set_ w) w i no_thread t Hi) as Hp.
  change (tid_of no_thread) with (@None Z) in Hp. rewrite (joinable_some t Hj) in Hp. by symmetry.
Qed.

(** A queue that is open, with the tasks that wait in it. *)
Definition shard_open (o : option EngineShard) : Prop :=
  ∃ es l k, o = Some es ∧ tq_holds 6 (shard_queue_ es) l k ∧ enqueue_pos_ (queue_ (shard_queue_ es)) < kMaxPos ∧ Z.of_nat (length l) < N 6.

Lemma shutdown_queue_spec i es l k w t : workers_ w !! i = Some t → live t → world_ok w → tq_holds 6 (shard_queue_ es) l k →
  enqueue_pos_ (queue_ (shard_queue_ es)) < kMaxPos → Z.of_nat (length l) < N 6 →
  runs (shutdown_queue fuel cont i es w) (λ w', (∃ t', workers_ w' = <[i := t']> (workers_ w) ∧ joinable t' = false) ∧ threads_ w' = threads_ w ∧
    stops_ w' = stops_ w ∧ set_ w' = set_ w ∧ world_ok w').
Proof.
  intros Hi Hj Hok Hq Hpos Hlen. unfold shutdown_queue. rewrite (aget_some _ _ _ Hi), bind_ok.
  destruct (Shutdown_stops 6 ltac:(lia) _ l k 0%nat fuel cont Hq Hpos Hlen) as [([q r] & -> & -> & _) _]. rewrite bind_ok. cbv beta iota.
  assert (table_ok (table_ w) (tid_ t :: tids (mkWorld (table_ w) (threads_ w) (<[i := no_thread]> (workers_ w)) (stops_ w) (set_ w)))) as Hok'.
  { eapply table_ok_perm; [|exact Hok]. pose proof (tids_workers (table_ w) (threads_ w) (stops_ w) (set_ w) w i t no_thread Hi) as Hp.
    rewrite (joinable_some t Hj) in Hp. by symmetry. }
  rbind (join_spec _ _ _ Hj Hok'). intros [m t'] [Hj' Hm]. rewrite (aset_some _ _ _ _ Hi), bind_ok. apply runs_ok.
  cbn [threads_ workers_ stops_ set_]. split_and!; try done; [by exists t'|]. eapply table_ok_perm; [|exact Hm].
  unfold tids. cbn [threads_ workers_]. apply Permutation_app_head. rewrite !insert_take_drop by (by eapply lookup_lt_Some).
  assert (tid_of t' = None) as Et by (unfold tid_of; by rewrite Hj'). rewrite !omap_app. cbn [omap list_omap]. by rewrite Et.
Qed.

(** The worker of a shard, with the pointer to the shard. *)
Definition shards_of (w : World) : list (Thread * option EngineShard) := zip (workers_ w) (tlocal_ (set_ w)).
Definition shard_up (x : Thread * option EngineShard) : Prop := live (fst x) ∧ shard_open (snd x).
Definition shard_down (x : Thread * option EngineShard) : Prop := fst x = no_thread ∧ snd x = None.

(** The lists have a place for every loop. *)
Record sized (n : nat) (w : World) : Prop := {
  sz_threads : length (threads_ w) = n;
  sz_workers : length (workers_ w) = n;
  sz_stops : length (stops_ w) = n;
  sz_tlocal : length (tlocal_ (set_ w)) = n;
  sz_shards : length (shards_ (set_ w)) = n;
  sz_size : size_ (set_ w) = n;
  sz_ok : world_ok w;
}.

Lemma shards_of_length n w : sized n w → length (shards_of w) = n.
Proof. intros [_ Hw _ Ht _ _ _]. unfold shards_of. rewrite length_zip_with. lia. Qed.

Lemma shards_of_lookup w i x : shards_of w !! i = Some x → workers_ w !! i = Some (fst x) ∧ tlocal_ (set_ w) !! i = Some (snd x).
Proof. intros (t & o & -> & H1 & H2)%lookup_zip_with_Some. done. Qed.

Lemma shards_of_insert w w' i t o : workers_ w' = <[i := t]> (workers_ w) → tlocal_ (set_ w') = <[i := o]> (tlocal_ (set_ w)) →
  shards_of w' = <[i := (t, o)]> (shards_of w).
Proof. intros Hw Ht. unfold shards_of. rewrite Hw, Ht. symmetry. apply insert_zip_with. Qed.

Lemma InitThreadLocal_open i s : (i < length (tlocal_ s))%nat → (i < length (shards_ s))%nat → Z.of_nat (length (shards_ s)) ≤ 2 ^ 16 →
  runs (InitThreadLocal i s) (λ s', (∃ es, tlocal_ s' = <[i := Some es]> (tlocal_ s) ∧ shard_open (Some es)) ∧
    length (shards_ s') = length (shards_ s) ∧ size_ s' = size_ s).
Proof.
  intros Ht Hs Hmax. destruct (new_task_queue_holds (T := nat) 6 ltac:(lia)) as (q & Hq & Hh & Hpos).
  destruct (lookup_lt_is_Some_2 _ _ Ht) as [o Ho]. destruct (lookup_lt_is_Some_2 _ _ Hs) as [x Hx].
  unfold InitThreadLocal, InitShard, new_shard. change kQueueLen with (N 6). rewrite Hq, bind_ok, (aset_some _ _ _ _ Ho), !bind_ok. cbn [tlocal_].
  rewrite (aget_some _ i (Some (mkShard q (u16 (Z.of_nat i))))) by (by apply list_lookup_insert_eq). rewrite bind_ok. cbn [shard_id_ shards_].
  rewrite uN_small by lia. rewrite Nat2Z.id, (aset_some _ _ _ _ Hx), bind_ok. apply runs_ok. cbn [tlocal_ shards_ size_]. rewrite length_insert.
  split_and!; [|done|done]. eexists. split; [done|]. eexists _, [], 0. split_and!; [done|done|cbn; by rewrite Hpos|by vm_compute].
Qed.

Lemma init_shard_spec n i w x : Z.of_nat n ≤ 2 ^ 16 → (i < n)%nat → shards_of w !! i = Some x → fst x = no_thread → sized n w →
  runs (init_shard i w) (λ w', (∃ y, shards_of w' = <[i := y]> (shards_of w) ∧ shard_up y) ∧ sized n w' ∧ threads_ w' = threads_ w).
Proof.
  intros Hmax Hi [Hx _]%shards_of_lookup Hn [S1 S2 S3 S4 S5 S6 S7]. rewrite Hn in Hx. unfold init_shard.
  rbind (start_worker_spec _ _ Hx S7). intros w1 ((t & Ew & Hj) & Et & Eb & Es & Hok).
  rbind (InitThreadLocal_open i (set_ w1)); [rewrite Es; lia..|]. intros s ((es & Etl & Hop) & Hsh & Hsz). apply runs_ok.
  split_and!; [|split|done]; cbn [threads_ workers_ stops_ set_]; rewrite ?Ew, ?Et, ?Eb, ?Etl, ?Hsh, ?Hsz, ?Es, ?length_insert; try done.
  - exists (t, Some es). split; [|done]. apply shards_of_insert; cbn [workers_ set_]; [done|]. by rewrite Etl, Es.
  - unfold world_ok, tids in *. cbn [table_ threads_ workers_]. by rewrite <- Et, <- Ew.
Qed.

Lemma destroy_shard_spec n i w x : shards_of w !! i = Some x → shard_up x → sized n w →
  runs (destroy_shard fuel cont i w) (λ w', (∃ y, shards_of w' = <[i := y]> (shards_of w) ∧ shard_down y) ∧ sized n w' ∧ threads_ w' = threads_ w).
Proof.
  intros [Hx Hp]%shards_of_lookup [Hj (es & l & k & Eo & Hq & Hpos & Hlen)] [S1 S2 S3 S4 S5 S6 S7]. rewrite Eo in Hp. unfold destroy_shard.
  rewrite (aget_some _ _ _ Hp), bind_ok. rbind (shutdown_queue_spec i es l k w (fst x) Hx Hj S7 Hq Hpos Hlen). intros w1 ((t & Ew & Hj') & Et & Eb & Es & Hok).
  assert (workers_ w1 !! i = Some t) as Ht by (rewrite Ew; apply list_lookup_insert_eq; by eapply lookup_lt_Some).
  rewrite (aget_some _ _ _ Ht), bind_ok. unfold destroy_thread. rewrite Hj', bind_ok, (aset_some _ _ _ _ Ht), bind_ok.
  unfold DestroyThreadLocal. rewrite Es, (aget_some _ _ _ Hp), bind_ok, (aset_some _ _ _ _ Hp), !bind_ok. apply runs_ok.
  split_and!; [|split|done]; cbn [threads_ workers_ stops_ set_ tlocal_ shards_ size_]; rewrite ?Ew, ?Et, ?Eb, ?length_insert; try done.
  - exists (no_thread, None). split; [|done]. apply shards_of_insert; cbn [workers_ set_ tlocal_]; [|done]. by rewrite list_insert_insert_eq.
  - eapply table_ok_perm; [|exact Hok]. cbn [table_]. pose proof (tids_workers (table_ w1) (threads_ w1) (stops_ w1) (set_ w1) w1 i t no_thread Ht) as Hd.
    assert (tid_of t = None) as Et' by (unfold tid_of; by rewrite Hj'). rewrite Et' in Hd. symmetry. by rewrite <- Et, <- Ew.
Qed.

Lemma stop_loop_spec n i w : (i < n)%nat → sized n w →
  runs (stop_loop i w) (λ w', (∃ b, stops_ w' = <[i := b]> (stops_ w) ∧ b = true) ∧ sized n w' ∧ threads_ w' = threads_ w ∧ shards_of w' = shards_of w).
Proof.
  intros Hi [S1 S2 S3 S4 S5 S6 S7]. destruct (lookup_lt_is_Some_2 (stops_ w) i ltac:(lia)) as [b Hb]. unfold stop_loop.
  rewrite (aset_some _ _ _ _ Hb), bind_ok. apply runs_ok. split_and!; [by exists true|split|done|done]; cbn; rewrite ?length_insert; done.
Qed.

Definition loop_dead (o : option Thread) : Prop := ∃ t, o = Some t ∧ joinable t = false.

Lemma join_loop_spec n i w o : threads_ w !! i = Some o → loop_live o → stops_ w !! i = Some true → sized n w →
  runs (join_loop i w) (λ w', (∃ o', threads_ w' = <[i := o']> (threads_ w) ∧ loop_dead o') ∧ sized n w' ∧ stops_ w' = stops_ w ∧ shards_of w' = shards_of w).
Proof.
  intros Hi (t & -> & Hj) Hb [S1 S2 S3 S4 S5 S6 S7]. unfold join_loop. rewrite (aget_some _ _ _ Hi), bind_ok, (aget_some _ _ _ Hb), bind_ok. cbv beta iota.
  pose proof (λ m o', tids_threads m (workers_ w) (stops_ w) (set_ w) w i (Some t) o' Hi) as Hp.
  assert (table_ok (table_ w) (tid_ t :: tids (mkWorld (table_ w) (<[i := None]> (threads_ w)) (workers_ w) (stops_ w) (set_ w)))) as Hok'.
  { eapply table_ok_perm; [|exact S7]. specialize (Hp (table_ w) None). cbn [mbind option_bind] in Hp. rewrite (joinable_some t Hj) in Hp. by symmetry. }
  rbind (join_spec _ _ _ Hj Hok'). intros [m t'] [Hj' Hm]. rewrite (aset_some _ _ _ _ Hi), bind_ok. apply runs_ok.
  split_and!; [exists (Some t'); split; [done|by exists t']|split|done|done]; cbn [threads_ workers_ stops_ set_]; rewrite ?length_insert; try done.
  eapply table_ok_perm; [|exact Hm]. cbn [table_]. pose proof (Hp m None) as H1. pose proof (Hp m (Some t')) as H2. cbn [mbind option_bind] in H1, H2.
  assert (tid_of t' = None) as Et' by (unfold tid_of; by rewrite Hj'). rewrite Et' in H2. rewrite <- H2 in H1. by apply Permutation_app_inv_l in H1.
Qed.

(** The state between [Start] and [Stop]. *)
Record up (n : nat) (w : World) : Prop := {
  up_sized : sized n w;
  up_loops : Forall loop_live (threads_ w);
  up_shards : Forall shard_up (shards_of w);
}.

Lemma up_live n w : up n w → length (tids w) = (2 * n)%nat.
Proof.
  intros [Hs Hl Hsh]. unfold tids. rewrite length_app. pose proof (shards_of_length n w Hs) as Hlen. destruct Hs as [S1 S2 _ S4 _ _ _].
  assert (length (omap (λ o, t ← o; tid_of t) (threads_ w)) = n) as ->.
  { rewrite <- S1. clear -Hl. induction Hl as [|o l (t & -> & Hj) _ IH]; [done|]. cbn. rewrite (joinable_some t Hj). cbn. by rewrite IH. }
  assert (Forall (λ t, live t) (workers_ w)) as Hw.
  { apply Forall_lookup_2. intros i t Ht. destruct (lookup_lt_is_Some_2 (tlocal_ (set_ w)) i) as [o Ho]; [apply lookup_lt_Some in Ht; lia|].
    assert (shards_of w !! i = Some (t, o)) as Hx by (unfold shards_of; apply lookup_zip_with_Some; by exists t, o).
    by destruct (Forall_lookup_1 _ _ _ _ Hsh Hx). }
  assert (length (omap tid_of (workers_ w)) = n) as ->; [|lia].
  rewrite <- S2. clear -Hw. induction Hw as [|t l Hj _ IH]; [done|]. cbn. rewrite (joinable_some t Hj). cbn. by rewrite IH.
Qed.

Lemma AsyncLoop_spec n : runs (AsyncLoop (new_world n)) (λ w, length (threads_ w) = n ∧ Forall loop_live (threads_ w) ∧
  workers_ w = replicate n no_thread ∧ length (stops_ w) = n ∧ set_ w = set_ (new_world n) ∧ world_ok w).
Proof.
  unfold AsyncLoop. cbn [threads_ new_world]. rewrite length_replicate.
  apply (rfold_slots n (λ o, o = None) loop_live start_loop threads_ (λ w, workers_ w = replicate n no_thread ∧ length (stops_ w) = n ∧ set_ w = set_ (new_world n) ∧ world_ok w)).
  - done.
  - apply length_replicate.
  - by apply Forall_replicate.
  - cbn. rewrite length_replicate. split_and!; [done|done|done|]. split.
    + assert (tids (new_world n) = []) as ->; [|apply NoDup_nil_2]. unfold tids. cbn. induction n as [|n IH]; [done|]. exact IH.
    + intros t. assert (tids (new_world n) = []) as ->; [|done]. unfold tids. cbn. induction n as [|n IH]; [done|]. exact IH.
  - intros i w x Hi Hx -> Hl (I1 & I2 & I3 & I4). eapply runs_mono; [apply (start_loop_spec i w Hx); [lia|done]|].
    intros w' (H1 & H2 & H3 & H4 & H5). split_and!; [done|congruence|congruence|congruence|done].
Qed.

Lemma start_shards n order w : order ≡ₚ seq 0 n → Z.of_nat n ≤ 2 ^ 16 → sized n w → Forall loop_live (threads_ w) → workers_ w = replicate n no_thread →
  runs (rfold init_shard order w) (up n).
Proof.
  intros Ho Hmax Hs Hl Hw. eapply runs_mono.
  - apply (rfold_slots n (λ x, fst x = no_thread) shard_up init_shard shards_of (λ w', sized n w' ∧ threads_ w' = threads_ w) order w Ho).
    + by apply shards_of_length.
    + apply Forall_lookup_2. intros i x [Hx _]%shards_of_lookup. rewrite Hw in Hx. by apply lookup_replicate_1 in Hx as [? _].
    + done.
    + intros i w1 x Hi Hx Hn _ [Hs1 Et]. eapply runs_mono; [by eapply init_shard_spec|]. intros w2 (H1 & H2 & H3). split_and!; [done|done|congruence].
  - intros w' (_ & Hsh & Hs' & Et). split; [done|by rewrite Et|done].
Qed.

Lemma Start_spec n order p k (Hk : (1 ≤ k ≤ 32)%nat) pos : loops_hold k p (λ _, []) pos → length (loops_ p) = n → state_ p = new_world n →
  Z.of_nat n ≤ 2 ^ 16 → pos + Z.of_nat n < kMaxPos → order ≡ₚ seq 0 n →
  runs (Start order p) (λ '(p', woken), woken = true ∧ length (loops_ p') = n ∧ loops_hold k p' (λ _, []) (pos + Z.of_nat n) ∧ up n (state_ p')).
Proof.
  intros Hp Hl Hst Hmax Hpos Ho. unfold Start. rewrite Hst. rbind (AsyncLoop_spec n). intros w (Ht & Hlive & Hw & Hb & Hset & Hok). rewrite Hl, Hset.
  set (w1 := mkWorld _ _ _ _ _). assert (sized n w1) as Hs1.
  { split; cbn; rewrite ?Hw, ?length_replicate; done. }
  destruct (start_shards n order w1 Ho Hmax Hs1 Hlive Hw) as (w2 & Hw2 & Hup).
  eapply runs_mono; [apply (AwaitOnAll_spec k Hk init_shard order (mkPool (loops_ p) w1 (latch_ p)) pos w2); cbn [loops_ state_]; rewrite ?Hl; done|].
  intros [p' woken] (-> & -> & Hl' & Hh'). cbn [loops_] in Hl', Hh'. rewrite Hl in Hl', Hh'. done.
Qed.

Lemma stop_shards n order w : order ≡ₚ seq 0 n → up n w →
  runs (rfold (destroy_shard fuel cont) order w) (λ w', sized n w' ∧ Forall loop_live (threads_ w') ∧ Forall shard_down (shards_of w')).
Proof.
  intros Ho [Hs Hl Hsh]. eapply runs_mono.
  - apply (rfold_slots n shard_up shard_down (destroy_shard fuel cont) shards_of (λ w', sized n w' ∧ threads_ w' = threads_ w) order w Ho).
    + by apply shards_of_length.
    + done.
    + done.
    + intros i w1 x Hi Hx Hn _ [Hs1 Et]. eapply runs_mono; [by eapply destroy_shard_spec|]. intros w2 (H1 & H2 & H3). split_and!; [done|done|congruence].
  - intros w' (_ & Hd & Hs' & Et). split_and!; [done|by rewrite Et|done].
Qed.

Lemma stop_loops n order w : order ≡ₚ seq 0 n → sized n w →
  runs (rfold (λ i, job_fun (Plain (stop_loop i))) order w) (λ w', sized n w' ∧ Forall (λ b, b = true) (stops_ w') ∧ threads_ w' = threads_ w ∧ shards_of w' = shards_of w).
Proof.
  intros Ho Hs. eapply runs_mono.
  - apply (rfold_slots n (λ _, True) (λ b, b = true) (λ i, job_fun (Plain (stop_loop i))) stops_
      (λ w', sized n w' ∧ threads_ w' = threads_ w ∧ shards_of w' = shards_of w) order w Ho).
    + by destruct Hs.
    + by apply Forall_true.
    + done.
    + intros i w1 x Hi _ _ _ (Hs1 & E1 & E2). eapply runs_mono; [by apply (stop_loop_spec n)|]. intros w2 (H1 & H2 & H3 & H4). split_and!; [done|done|congruence|congruence].
  - intros w' (_ & Hb & Hs' & E1 & E2). done.
Qed.

Lemma join_loops n w : sized n w → Forall loop_live (threads_ w) → Forall (λ b, b = true) (stops_ w) →
  runs (rfold join_loop (seq 0 n) w) (λ w', sized n w' ∧ Forall loop_dead (threads_ w') ∧ shards_of w' = shards_of w).
Proof.
  intros Hs Hl Hb. eapply runs_mono.
  - apply (rfold_slots n loop_live loop_dead join_loop threads_ (λ w', sized n w' ∧ stops_ w' = stops_ w ∧ shards_of w' = shards_of w) (seq 0 n) w); [done|by destruct Hs|done|done|].
    intros i w1 o Hi Ho Hlo _ (Hs1 & E1 & E2). assert (stops_ w1 !! i = Some true) as Hbi.
    { rewrite E1. destruct (lookup_lt_is_Some_2 (stops_ w) i) as [b Hbi]; [destruct Hs; lia|]. rewrite Hbi. by rewrite (Forall_lookup_1 _ _ _ _ Hb Hbi). }
    eapply runs_mono; [by eapply join_loop_spec|]. intros w2 (H1 & H2 & H3 & H4). split_and!; [done|done|congruence|congruence].
  - intros w' (_ & Hd & Hs' & _ & E2). done.
Qed.

Lemma destroy_thread_eq t : destroy_thread t = if joinable t then Fault Terminated else Ok tt.
Proof. done. Qed.

(** When nothing is left to join. *)
Lemma down_spec n w : sized n w → Forall loop_dead (threads_ w) → Forall shard_down (shards_of w) → table_ w = ∅ ∧ destroy_server w = Ok tt.
Proof.
  intros [S1 S2 _ S4 _ _ [_ Ht]] Hd Hsh. assert (Forall (λ t, t = no_thread) (workers_ w)) as Hw.
  { apply Forall_lookup_2. intros i t Hi. destruct (lookup_lt_is_Some_2 (tlocal_ (set_ w)) i) as [o Ho]; [apply lookup_lt_Some in Hi; lia|].
    assert (shards_of w !! i = Some (t, o)) as Hx by (unfold shards_of; apply lookup_zip_with_Some; by exists t, o).
    by destruct (Forall_lookup_1 _ _ _ _ Hsh Hx). }
  assert (omap (λ o, t ← o; tid_of t) (threads_ w) = []) as E1.
  { clear -Hd. induction Hd as [|o l (t & -> & Hj) _ IH]; [done|]. cbn. unfold tid_of at 1. by rewrite Hj. }
  assert (omap tid_of (workers_ w) = []) as E2 by (clear -Hw; induction Hw as [|t l -> _ IH]; done).
  split.
  - apply map_eq. intros t. rewrite Ht, lookup_empty. unfold tids. by rewrite E1, E2.
  - unfold destroy_server. clear -Hd. induction Hd as [|o l (t & -> & Hj) _ IH]; [done|]. cbn [rfold]. cbv beta iota. rewrite destroy_thread_eq, Hj, bind_ok. exact IH.
Qed.

Lemma Stop_spec n order order' p k (Hk : (1 ≤ k ≤ 32)%nat) pos : loops_hold k p (λ _, []) pos → length (loops_ p) = n → up n (state_ p) →
  pos + 2 * Z.of_nat n < kMaxPos → order ≡ₚ seq 0 n → order' ≡ₚ seq 0 n →
  runs (Stop fuel cont order order' p) (λ '(p', woken), woken = true ∧ table_ (state_ p') = ∅ ∧ destroy_server (state_ p') = Ok tt).
Proof.
  intros Hp Hl Hup Hpos Ho Ho'. pose proof (N_bounds k Hk) as HN. destruct (stop_shards n order (state_ p) Ho Hup) as (w1 & Hw1 & Hs1 & Hl1 & Hd1).
  unfold Stop, RunBlockingInParallel. rewrite (sz_size _ _ (up_sized _ _ Hup)), filter_true by done.
  rbind (parallel_spec k Hk (destroy_shard fuel cont) (seq 0 n) order (mkPool (loops_ p) (state_ p) (Z.of_nat (length (seq 0 n)))) pos w1 Hp);
    [rewrite length_seq; lia|apply NoDup_seq|apply Forall_forall; intros i Hi%elem_of_seq; cbn; lia|done|done|done|].
  intros [p1 woken] (-> & E1 & Hl2 & Hh2). cbn [loops_] in Hl2. rewrite length_seq in Hh2. unfold stop_pool, DispatchBrief. rewrite Hl2, Hl.
  eapply runs_bind; [|intros p2 Hp2; apply runs_ok; split; [done|exact Hp2]].
  rbind (dispatch_all k Hk (seq 0 n) (λ i, Plain (stop_loop i)) p1 (λ _, []) _ Hh2);
    [rewrite length_seq; lia|apply NoDup_seq|intros i Hi%elem_of_seq; split; [lia|cbn; lia]|].
  intros p2 (Hl3 & E2 & _ & Hh3). rewrite length_seq in Hh3. destruct (stop_loops n order' w1 Ho' Hs1) as (w2 & Hw2 & Hs2 & Hb2 & E3 & E4).
  rbind (turns_run k Hk order' (λ i, Plain (stop_loop i)) p2 _ _ w2 Hh3); [lia|rewrite Ho'; apply NoDup_seq| |by rewrite E2, E1|].
  { intros i Hi. rewrite Ho' in Hi. rewrite decide_True by done. split; [apply elem_of_seq in Hi; lia|done]. }
  intros p3 (Hl4 & -> & _ & _). rewrite Hl4, Hl3, Hl2, Hl. destruct (join_loops n w2 Hs2 ltac:(by rewrite E3) Hb2) as (w3 & -> & Hs3 & Hd3 & E5).
  rewrite bind_ok. apply runs_ok. cbn [state_]. apply (down_spec n); [done|done|]. by rewrite E5, E4.
Qed.

Lemma up_destroy n w : (0 < n)%nat → up n w → destroy_server w = Fault Terminated.
Proof.
  intros Hn [Hs Hl _]. pose proof (sz_threads _ _ Hs) as E. unfold destroy_server. destruct Hl as [|o l (t & -> & Hj) _]; [simpl in E; lia|].
  cbn [rfold]. cbv beta iota. rewrite destroy_thread_eq. by rewrite Hj.
Qed.


(** A thread that cannot be created aborts the server; a second [AsyncLoop], or a
    second [Start] of a queue, ends it. [current_thread()] gives an object that ends
    the process when it is destroyed. *)
Lemma thread_errors i w t : live t →
  (pthread_create (dom (table_ w)) = None → start_loop i w = Fault AssertFailed) ∧
  (threads_ w !! i = Some (Some t) → ∀ tid, pthread_create (dom (table_ w)) = Some tid → start_loop i w = Fault Terminated) ∧
  (workers_ w !! i = Some t → ∀ tid, pthread_create (dom (table_ w)) = Some tid → start_worker i w = Fault Terminated) ∧
  (∀ self, self ≠ 0 → destroy_thread (current_thread self) = Fault Terminated).
Proof.
  intros Hj. unfold start_loop, start_worker, start_thread, assign_thread. split_and!.
  - by intros ->.
  - intros Hi tid ->. rewrite bind_ok, (aget_some _ _ _ Hi), bind_ok. unfold destroy_thread. by rewrite Hj.
  - intros Hi tid ->. rewrite bind_ok, (aget_some _ _ _ Hi), bind_ok. by rewrite Hj.
  - intros self Hs. unfold destroy_thread, current_thread. by rewrite (joinable_new self Hs).
Qed.
End server.

(** ** Numbers for threads *)

Definition next_pthread : Pthread := λ s, Some (fresh ({[0]} ∪ s)).

Lemma next_pthread_ok : @PthreadOk next_pthread.
Proof. intros s t [= <-]. pose proof (is_fresh ({[0]} ∪ s)) as Hf. split; [intros E; rewrite E in Hf|]; set_solver. Qed.
