(* ===== verification/Proactor.v ===== *)
(** Proactor: the event loop of a thread: tasks of other threads, and the
    operations of coroutines that wait for io_uring.
    Source: src/net/base/uring_proactor.hpp, src/net/base/uring_proactor.cpp.

    io_uring is a parameter, the class [Uring]. What tasks and resumed coroutines
    do is the parameter [code]: the calls they make on the proactor, up to their
    end or next suspension. Coroutines are named by numbers, a new one for each
    suspension; awaitables and the blocks of the heap by addresses. *)
From stdpp Require Import gmap fin_sets.
From S2P Require Import Prelude MpmcQueue.
Local Open Scope Z_scope.

Definition EBUSY : Z := 16.

(** ** io_uring *)

Inductive sqe_op : Set :=
  | prep_poll_add | prep_accept (fd : Z)
  | prep_read (fd : Z) (buf len offset : option Z) | prep_write (fd : Z) (buf len offset : option Z)
  | prep_close (fd : Z) | prep_nothing.
Inductive user_data : Set := WAKEUP_COOKIE | Null | Op (a : nat).
Record sqe : Set := mkSqe { sqe_prep : sqe_op; sqe_data : user_data }.

Class Uring (R : Type) : Type := {
  io_uring_get_sqe : R → option (sqe → R);       (* a free entry, as what filling it does *)
  io_uring_submit : R → R;
  io_uring_wait_cqe_timeout : R → R * option (user_data * Z);
  io_uring_cqe_seen : R → R;
}.

(** ** The state *)

Record PendingOp : Set := mkOp {
  fd : Z; op_type : Z;
  buf : option Z; len : option Z; offset : option Z;   (* None: not initialised *)
  handle : option nat;
  awaitable : option nat;
}.

Section proactor.
Context {R : Type} `{Uring R}.

(** [results_] are the members [fd_] and [result_] of the awaitables, [heap_] the
    operations that were allocated with [new]. [ran_], [awaited_] and [resumed_]
    list the tasks that were run and the coroutines that were suspended and
    resumed; the program does not store them. *)
Record Proactor : Type := mkProactor {
  task_queue_ : Queue nat;
  pending_ops_ : Queue PendingOp;
  ring_ : R;
  event_fd_ : Z;
  running_ : bool;
  stop_ : bool;
  heap_ : gmap nat PendingOp;
  results_ : gmap nat Z;
  ran_ : list nat;
  awaited_ : list nat;
  resumed_ : list nat;
}.
Implicit Types (p : Proactor).

Definition set_tasks p q : Proactor := mkProactor q (pending_ops_ p) (ring_ p) (event_fd_ p) (running_ p) (stop_ p) (heap_ p) (results_ p) (ran_ p) (awaited_ p) (resumed_ p).
Definition set_pending p q : Proactor := mkProactor (task_queue_ p) q (ring_ p) (event_fd_ p) (running_ p) (stop_ p) (heap_ p) (results_ p) (ran_ p) (awaited_ p) (resumed_ p).
Definition set_ring p r : Proactor := mkProactor (task_queue_ p) (pending_ops_ p) r (event_fd_ p) (running_ p) (stop_ p) (heap_ p) (results_ p) (ran_ p) (awaited_ p) (resumed_ p).
Definition set_event p n : Proactor := mkProactor (task_queue_ p) (pending_ops_ p) (ring_ p) n (running_ p) (stop_ p) (heap_ p) (results_ p) (ran_ p) (awaited_ p) (resumed_ p).
Definition set_flags p r s : Proactor := mkProactor (task_queue_ p) (pending_ops_ p) (ring_ p) (event_fd_ p) r s (heap_ p) (results_ p) (ran_ p) (awaited_ p) (resumed_ p).
Definition set_heap p h : Proactor := mkProactor (task_queue_ p) (pending_ops_ p) (ring_ p) (event_fd_ p) (running_ p) (stop_ p) h (results_ p) (ran_ p) (awaited_ p) (resumed_ p).
Definition set_results p m : Proactor := mkProactor (task_queue_ p) (pending_ops_ p) (ring_ p) (event_fd_ p) (running_ p) (stop_ p) (heap_ p) m (ran_ p) (awaited_ p) (resumed_ p).
Definition log_ran p t : Proactor := mkProactor (task_queue_ p) (pending_ops_ p) (ring_ p) (event_fd_ p) (running_ p) (stop_ p) (heap_ p) (results_ p) (ran_ p ++ [t]) (awaited_ p) (resumed_ p).
Definition log_awaited p h : Proactor := mkProactor (task_queue_ p) (pending_ops_ p) (ring_ p) (event_fd_ p) (running_ p) (stop_ p) (heap_ p) (results_ p) (ran_ p) (awaited_ p ++ [h]) (resumed_ p).
Definition log_resumed p h : Proactor := mkProactor (task_queue_ p) (pending_ops_ p) (ring_ p) (event_fd_ p) (running_ p) (stop_ p) (heap_ p) (results_ p) (ran_ p) (awaited_ p) (resumed_ p ++ [h]).

(** The constructor, with the ring that was set up. *)
Definition new_proactor (queue_size : Z) (ring : R) : option (res Proactor) :=
  tq ← new_queue queue_size; pq ← new_queue queue_size;
  Some (match io_uring_get_sqe ring with
        | None => Fault NullPointer
        | Some fill =>
            Ok (mkProactor tq pq (io_uring_submit (fill (mkSqe prep_poll_add WAKEUP_COOKIE))) 0 false false ∅ ∅ [] [] [])
        end).

(** An eventfd counts the writes; a write that would overflow fails. *)
Definition Wakeup p : Proactor := set_event p (Z.min (event_fd_ p + 1) (2 ^ 64 - 2)).

(** ** The calls of tasks and coroutines *)

Inductive call : Set :=
  | DispatchBrief (t : nat)
  | SubmitAccept (fd : Z) (h : nat) (aw : option nat)
  | SubmitRead (fd buf len offset : Z) (h : nat) (aw : option nat)
  | SubmitWrite (fd buf len offset : Z) (h : nat) (aw : option nat)
  | stop.

Inductive runner : Set := Task (t : nat) | Coroutine (h : nat).

Context (code : runner → gmap nat Z → list call).

Definition set_result p (aw : option nat) (r : Z) : Proactor :=
  match aw with Some a => set_results p (<[a := r]> (results_ p)) | None => p end.

(** [handle.resume()] *)
Definition resume p (h : nat) : Proactor * list call := (log_resumed p h, code (Coroutine h) (results_ p)).

(** The three [Submit] functions behind the construction of [op]. *)
Definition submit_op p (op : PendingOp) (h : nat) : res (Proactor * list call) :=
  let p := log_awaited p h in
  '(q, ok) ← try_enqueue (pending_ops_ p) op;
  let p := set_pending p q in
  if ok : bool then Ok (Wakeup p, []) else Ok (resume (set_result p (awaitable op) (- EBUSY)) h).

Definition call_op (c : call) : option (PendingOp * nat) :=
  match c with
  | SubmitAccept fd h aw => Some (mkOp fd 0 None None None (Some h) aw, h)
  | SubmitRead fd buf len offset h aw => Some (mkOp fd 1 (Some buf) (Some len) (Some offset) (Some h) aw, h)
  | SubmitWrite fd buf len offset h aw => Some (mkOp fd 2 (Some buf) (Some len) (Some offset) (Some h) aw, h)
  | DispatchBrief _ | stop => None
  end.

Definition dispatch p (t : nat) : res (Proactor * bool) :=
  '(q, ok) ← try_enqueue (task_queue_ p) t;
  let p := set_tasks p q in
  if ok : bool then Ok (Wakeup p, true) else Ok (p, false).

(** [stop()] of the thread of the loop; another thread also waits for the loop to end. *)
Definition stop_self p : Proactor := Wakeup (set_flags p (running_ p) true).

(** A call, with the calls of the coroutine that it resumes on the spot. *)
Definition do_call (c : call) p : res (Proactor * list call) :=
  match c with
  | DispatchBrief t => '(p, _) ← dispatch p t; Ok (p, [])
  | stop => Ok (stop_self p, [])
  | _ => match call_op c with Some (op, h) => submit_op p op h | None => Ok (p, []) end
  end.

Fixpoint exec (fuel : nat) (cs : list call) p : res Proactor :=
  match cs with
  | [] => Ok p
  | c :: cs =>
      match fuel with
      | O => Fault NoFuel
      | S fuel' => '(p, more) ← do_call c p; exec fuel' (more ++ cs) p
      end
  end.

(** ** The loop *)

(** [n] bounds the tasks, [fuel] the calls of each. *)
Fixpoint DrainTasks (n fuel : nat) p : res Proactor :=
  match n with
  | O => Fault NoFuel
  | S n' =>
      '(q, r) ← try_dequeue (task_queue_ p);
      let p := set_tasks p q in
      match r with
      | None => Ok p
      | Some t => p ← exec fuel (code (Task t) (results_ p)) (log_ran p t); DrainTasks n' fuel p
      end
  end.

Definition prep (op : PendingOp) : sqe_op :=
  if op_type op =? 0 then prep_accept (fd op)
  else if op_type op =? 1 then prep_read (fd op) (buf op) (len op) (offset op)
  else if op_type op =? 2 then prep_write (fd op) (buf op) (len op) (offset op)
  else if op_type op =? 3 then prep_close (fd op) else prep_nothing.

(** The entry of [op], with a copy of it on the heap as its user data. *)
Definition put_op p (fill : sqe → R) (op : PendingOp) : Proactor :=
  let a := fresh (dom (heap_ p) : gset nat) in
  set_heap (set_ring p (fill (mkSqe (prep op) (Op a)))) (<[a := op]> (heap_ p)).

Fixpoint submit_loop (n : nat) p : res Proactor :=
  match n with
  | O => Fault NoFuel
  | S n' =>
      '(q, r) ← try_dequeue (pending_ops_ p);
      let p := set_pending p q in
      match r with
      | None => Ok p
      | Some op =>
          match io_uring_get_sqe (ring_ p) with
          | Some fill => submit_loop n' (put_op p fill op)
          | None =>
              let p := set_ring p (io_uring_submit (ring_ p)) in
              match io_uring_get_sqe (ring_ p) with
              | Some fill => submit_loop n' (put_op p fill op)
              | None => '(q, _) ← try_enqueue (pending_ops_ p) op; submit_loop n' (set_pending p q)
              end
          end
      end
  end.
Definition SubmitPendingOps (n : nat) p : res Proactor :=
  p ← submit_loop n p; Ok (set_ring p (io_uring_submit (ring_ p))).

Definition HandleCqe (fuel : nat) (data : user_data) (r : Z) p : res Proactor :=
  match data with
  | WAKEUP_COOKIE =>
      let p := set_event p 0 in
      match io_uring_get_sqe (ring_ p) with
      | None => Fault NullPointer
      | Some fill => Ok (set_ring p (io_uring_submit (fill (mkSqe prep_poll_add WAKEUP_COOKIE))))
      end
  | Null => Ok p
  | Op a =>
      match heap_ p !! a with
      | None => Fault UseAfterFree
      | Some op =>
          let p := if (0 <=? op_type op) && (op_type op <=? 2) then set_result p (awaitable op) r else p in
          p ← (match handle op with Some h => let '(p, cs) := resume p h in exec fuel cs p | None => Ok p end);
          Ok (set_heap p (delete a (heap_ p)))
      end
  end.

(** One iteration; [ext] are the calls that other threads make before it. *)
Definition iteration (fuel : nat) (ext : list call) p : res Proactor :=
  p ← exec fuel ext p;
  p ← DrainTasks fuel fuel p;
  p ← SubmitPendingOps fuel p;
  let '(r, cqe) := io_uring_wait_cqe_timeout (ring_ p) in
  let p := set_ring p r in
  match cqe with
  | None => Ok p
  | Some (data, x) => p ← HandleCqe fuel data x p; Ok (set_ring p (io_uring_cqe_seen (ring_ p)))
  end.

Fixpoint iterations (fuel : nat) (exts : list (list call)) p : res Proactor :=
  match exts with
  | [] => Ok p
  | ext :: exts => if stop_ p then Ok (set_flags p false true) else p ← iteration fuel ext p; iterations fuel exts p
  end.

(** The loop, for as many iterations as there are inputs. *)
Definition loop (fuel : nat) (exts : list (list call)) p : res Proactor := iterations fuel exts (set_flags p true false).
End proactor.
Arguments Proactor _ : clear implicits.
