(* ===== verification/ProactorInv.v ===== *)
(** ProactorInv: every coroutine that awaits an operation is resumed exactly
    once: the invariant of the event loop, for a ring that behaves as io_uring
    is documented to. *)
From stdpp Require Import gmap fin_sets.
From S2P Require Import Prelude MpmcQueue MpmcInv MpmcSpec Proactor.
Local Open Scope Z_scope.

(** The ring has [entries] entries. An entry that is taken is queued, submitting
    hands all queued entries to the kernel, and each of them completes with at
    most one event, which is delivered until it is marked as seen. *)
Class UringOk (R : Type) `{Uring R} : Type := {
  entries : nat;
  queued : R → list sqe;
  inflight : R → list user_data;
  unseen : R → option user_data;
  entries_pos : (1 ≤ entries)%nat;
  get_sqe_ok r : if decide (length (queued r) < entries)%nat
    then ∃ fill, io_uring_get_sqe r = Some fill ∧ ∀ e, queued (fill e) = queued r ++ [e] ∧
      inflight (fill e) = inflight r ∧ unseen (fill e) = unseen r
    else io_uring_get_sqe r = None;
  submit_ok r : queued (io_uring_submit r) = [] ∧
    inflight (io_uring_submit r) ≡ₚ inflight r ++ (sqe_data <$> queued r) ∧
    unseen (io_uring_submit r) = unseen r;
  wait_ok r r' c : io_uring_wait_cqe_timeout r = (r', c) → unseen r = None →
    queued r' = queued r ∧ unseen r' = fst <$> c ∧ inflight r ≡ₚ option_list (fst <$> c) ++ inflight r';
  seen_ok r : queued (io_uring_cqe_seen r) = queued r ∧ inflight (io_uring_cqe_seen r) = inflight r ∧
    unseen (io_uring_cqe_seen r) = None;
}.

Definition addr (d : user_data) : option nat := match d with Op a => Some a | _ => None end.

Section inv.
Context {R : Type} `{UringOk R} (code : runner → gmap nat Z → list call).
Context (k : nat) (Hk : (1 ≤ k ≤ 32)%nat).
Implicit Types (p : Proactor R) (r : R) (h t a : nat) (op : PendingOp) (n : Z).

Definition ring_addrs r : list nat := omap addr ((sqe_data <$> queued r) ++ inflight r).

(** The heap without the operation that is being completed: its event is no
    longer in the ring, and then its coroutine is resumed. *)
Definition live (m : gmap nat PendingOp) (x : option nat) : gmap nat PendingOp := match x with Some a => delete a m | None => m end.

Record inv p (ts : list nat) (ops : list PendingOp) (x y : option nat) n : Prop := {
  pi_tasks : holds k (task_queue_ p) ts;
  pi_ops : holds k (pending_ops_ p) ops;
  pi_pos : enqueue_pos_ (task_queue_ p) ≤ n ∧ enqueue_pos_ (pending_ops_ p) ≤ n;
  pi_ring : ring_addrs (ring_ p) ≡ₚ (map_to_list (live (heap_ p) x)).*1;
  pi_once : awaited_ p ≡ₚ resumed_ p ++ omap handle ops ++ omap handle (map_to_list (live (heap_ p) y)).*2;
}.

Lemma inv_weaken p ts ops x y n n' : inv p ts ops x y n → n ≤ n' → inv p ts ops x y n'.
Proof. intros [Ht Ho [Hp1 Hp2] Hr Honce] Hn. split; try done. lia. Qed.

Definition same p p' : Prop := ring_ p' = ring_ p ∧ heap_ p' = heap_ p.

(** A submission takes effect exactly when there is room. *)
Lemma submit_op_inv p ts ops x y n op h : inv p ts ops x y n → n < kMaxPos → handle op = Some h →
  runs (submit_op code p op h) (λ '(p', more),
    let room := bool_decide (Z.of_nat (length ops) < N k) in
    inv p' ts (if room then ops ++ [op] else ops) x y (n + 1) ∧ same p p' ∧ ran_ p' = ran_ p ∧
    resumed_ p' = (if room then resumed_ p else resumed_ p ++ [h]) ∧
    (more = if room then [] else code (Coroutine h) (results_ p')) ∧
    enqueue_pos_ (pending_ops_ p') = enqueue_pos_ (pending_ops_ p) + Z.b2z room).
Proof.
  intros [Ht Ho [Hp1 Hp2] Hr Honce] Hn Hh. unfold submit_op.
  rbind (try_enqueue_spec k Hk (pending_ops_ p) ops op Ho ltac:(lia)). intros [q ok] (Eok & Hq & Hpos).
  rewrite <- Eok. destruct ok; apply runs_ok.
  - split; [|done]. split; simpl in *; try done; [lia|].
    rewrite omap_app. simpl. rewrite Hh, Honce. simpl. rewrite <- !Permutation_middle, !app_nil_r. solve_Permutation.
  - split; [|by destruct (awaitable op)]. split; simpl in *; destruct (awaitable op); simpl; try done; try lia;
      rewrite Honce, <- !(assoc_L (++)); apply Permutation_app_head; simpl; solve_Permutation.
Qed.

Lemma do_call_inv c p ts ops x y n : inv p ts ops x y n → n < kMaxPos →
  runs (do_call code c p) (λ '(p', _), ∃ ts' ops', inv p' ts' ops' x y (n + 1) ∧ same p p').
Proof.
  intros HI Hn.
  assert (∀ op h, handle op = Some h → runs (submit_op code p op h) (λ '(p', _), ∃ ts' ops', inv p' ts' ops' x y (n + 1) ∧ same p p')) as Hsub.
  { intros op h Hh. eapply runs_mono; [by eapply submit_op_inv|]. intros [p' cs] (HI' & Hs & _). by eexists ts, _. }
  destruct c; simpl; try by apply Hsub.
  - pose proof HI as [Ht Ho [Hp1 Hp2] Hr Honce].
    destruct (try_enqueue_spec k Hk (task_queue_ p) ts t Ht ltac:(lia)) as ([q ok] & E & _ & Hq & Hpos).
    unfold dispatch. rewrite E, bind_ok. exists (if ok then Wakeup (set_tasks p q) else set_tasks p q, []). split; [by destruct ok|].
    exists (if ok then ts ++ [t] else ts), ops. split; [|by destruct ok].
    destruct ok; (split; simpl in *; [exact Hq|done|lia|done|done]).
  - apply runs_ok. exists ts, ops. split; [|done]. apply (inv_weaken _ _ _ _ _ n); [|lia]. by destruct HI.
Qed.

Lemma exec_inv fuel : ∀ cs p ts ops x y n, inv p ts ops x y n → n + Z.of_nat fuel < kMaxPos →
  safe (exec code fuel cs p) (λ p', ∃ ts' ops', inv p' ts' ops' x y (n + Z.of_nat fuel) ∧ same p p').
Proof.
  induction fuel as [|fuel IH]; intros [|c cs] p ts ops x y n HI Hn; cbn [exec]; try done.
  1-2: exists ts, ops; split; [apply (inv_weaken _ _ _ _ _ n); [done|lia]|done].
  eapply safe_bind; [apply safe_runs, (do_call_inv c p ts ops x y n HI); lia|]. intros [p1 more] (ts1 & ops1 & HI1 & Hr1 & Hh1).
  eapply safe_mono; [apply (IH _ p1 ts1 ops1 x y (n + 1) HI1); lia|]. intros p2 (ts2 & ops2 & HI2 & Hr2 & Hh2).
  exists ts2, ops2. split; [by replace (n + Z.of_nat (S fuel)) with (n + 1 + Z.of_nat fuel) by lia|]. split; congruence.
Qed.

Lemma DrainTasks_inv fuel m : ∀ p ts ops x y n, inv p ts ops x y n → n + Z.of_nat m * Z.of_nat fuel < kMaxPos →
  safe (DrainTasks code m fuel p) (λ p', ∃ ops', inv p' [] ops' x y (n + Z.of_nat m * Z.of_nat fuel) ∧ same p p').
Proof.
  induction m as [|m IH]; intros p ts ops x y n HI Hn; cbn [DrainTasks]; [done|].
  pose proof HI as [Ht Ho [Hp1 Hp2] Hr Honce].
  eapply safe_bind; [apply safe_runs, (try_dequeue_spec k Hk (task_queue_ p) ts Ht); nia|]. intros [q r] (-> & Hq & Hpos).
  destruct ts as [|t ts]; cbn [head].
  - exists ops. split; [|done]. apply (inv_weaken _ _ _ _ _ n); [|nia]. by split; simpl in *; try done; try lia.
  - assert (inv (log_ran (set_tasks p q) t) ts ops x y n) as HI1 by (split; simpl in *; try done; lia).
    eapply safe_bind; [apply (exec_inv fuel _ _ _ _ _ _ _ HI1); nia|]. intros p1 (ts1 & ops1 & HI2 & Hr2 & Hh2).
    eapply safe_mono; [apply (IH p1 ts1 ops1 x y _ HI2); nia|]. intros p2 (ops2 & HI3 & Hr3 & Hh3). exists ops2.
    split; [by replace (n + Z.of_nat (S m) * Z.of_nat fuel) with (n + Z.of_nat fuel + Z.of_nat m * Z.of_nat fuel) by lia|].
    split; simpl in *; congruence.
Qed.

(** Submitting moves the entries from the queue to the kernel. *)
Lemma submit_ring_inv p ts ops x y n : inv p ts ops x y n → inv (set_ring p (io_uring_submit (ring_ p))) ts ops x y n.
Proof.
  intros [Ht Ho Hp Hr Honce]. destruct (submit_ok (ring_ p)) as (Hq & Hf & _). split; simpl; try done.
  rewrite <- Hr. unfold ring_addrs. rewrite Hq, Hf. simpl. rewrite !omap_app. apply Permutation_app_comm.
Qed.

Definition fills r (fill : sqe → R) : Prop :=
  ∀ e, queued (fill e) = queued r ++ [e] ∧ inflight (fill e) = inflight r ∧ unseen (fill e) = unseen r.

Lemma put_op_inv p ts op ops n q fill : inv p ts (op :: ops) None None n → holds k q ops → enqueue_pos_ q ≤ n →
  fills (ring_ p) fill → inv (put_op (set_pending p q) fill op) ts ops None None n.
Proof.
  intros [Ht Ho [Hp1 Hp2] Hr Honce] Hq Hpos Hfill. unfold put_op. simpl heap_. simpl ring_. set (a := fresh _).
  assert (heap_ p !! a = None) as Ha by apply not_elem_of_dom, is_fresh.
  destruct (Hfill (mkSqe (prep op) (Op a))) as (Eq & Ei & _). split; simpl; try done.
  - unfold ring_addrs. rewrite Eq, Ei, fmap_app, map_to_list_insert, <- (assoc_L (++)), omap_app by done. csimpl.
    rewrite <- Permutation_middle, <- omap_app. by apply Permutation_skip.
  - rewrite Honce, map_to_list_insert by done. csimpl. destruct (handle op); simpl; [|done]. solve_Permutation.
Qed.

Lemma submit_loop_inv m : ∀ p ts ops n, inv p ts ops None None n → n < kMaxPos →
  safe (submit_loop m p) (λ p', inv p' ts [] None None n ∧ unseen (ring_ p') = unseen (ring_ p) ∧
    ran_ p' = ran_ p ∧ resumed_ p' = resumed_ p) ∧
  ((length ops < m)%nat → submit_loop m p ≠ Fault NoFuel).
Proof.
  induction m as [|m IH]; intros p ts ops n HI Hn; cbn [submit_loop]; [split; [done|lia]|].
  pose proof HI as [Ht Ho [Hp1 Hp2] Hr Honce].
  destruct (try_dequeue_spec k Hk (pending_ops_ p) ops Ho ltac:(lia)) as ([q r] & -> & -> & Hq & Hpos). rewrite bind_ok.
  destruct ops as [|op ops]; cbn [head].
  { split; [|done]. split; [|done]. split; simpl in *; try done. lia. }
  assert (∀ p1 fill, inv p1 ts (op :: ops) None None n → unseen (ring_ p1) = unseen (ring_ p) ∧ ran_ p1 = ran_ p ∧ resumed_ p1 = resumed_ p →
    fills (ring_ p1) fill →
    let e := submit_loop m (put_op (set_pending p1 q) fill op) in
    safe e (λ p', inv p' ts [] None None n ∧ unseen (ring_ p') = unseen (ring_ p) ∧ ran_ p' = ran_ p ∧ resumed_ p' = resumed_ p) ∧
    ((length (op :: ops) < S m)%nat → e ≠ Fault NoFuel)) as Hput.
  { intros p1 fill HI1 (Hu & Hran & Hres) Hfill. pose proof (put_op_inv p1 ts op ops n q fill HI1 Hq ltac:(lia) Hfill) as HI2.
    destruct (IH _ _ _ _ HI2 Hn) as [Hs Ht']. split; [|intros Hl; apply Ht'; simpl in Hl; lia].
    eapply safe_mono; [exact Hs|]. intros p2 (HI3 & Hu2 & Hran2 & Hres2). split_and!; [done|..|by rewrite Hran2|by rewrite Hres2].
    rewrite Hu2. simpl. rewrite <- Hu. apply Hfill. }
  simpl ring_. pose proof (get_sqe_ok (ring_ p)) as Hget. destruct (decide (length (queued (ring_ p)) < entries)%nat).
  - destruct Hget as (fill & -> & Hfill). by apply (Hput p).
  - rewrite Hget. destruct (submit_ok (ring_ p)) as (Hsq & _ & Hun).
    pose proof (get_sqe_ok (io_uring_submit (ring_ p))) as Hget2. pose proof entries_pos. rewrite decide_True in Hget2 by (rewrite Hsq; simpl; lia).
    destruct Hget2 as (fill & -> & Hfill). by apply (Hput (set_ring p (io_uring_submit (ring_ p))) fill (submit_ring_inv p ts _ None None n HI)).
Qed.

Lemma SubmitPendingOps_inv m p ts ops n : inv p ts ops None None n → n < kMaxPos →
  safe (SubmitPendingOps m p) (λ p', inv p' ts [] None None n ∧ unseen (ring_ p') = unseen (ring_ p) ∧ queued (ring_ p') = [] ∧
    ran_ p' = ran_ p ∧ resumed_ p' = resumed_ p) ∧
  ((length ops < m)%nat → SubmitPendingOps m p ≠ Fault NoFuel).
Proof.
  intros HI Hn. unfold SubmitPendingOps. destruct (submit_loop_inv m p ts ops n HI Hn) as [Hs Ht]. split.
  - eapply safe_bind; [exact Hs|]. intros p1 (HI1 & Hu & Hran & Hres).
    destruct (submit_ok (ring_ p1)) as (Hsq & _ & Hun). cbn [safe]. split_and!; [by apply submit_ring_inv|by simpl; rewrite Hun|done..].
  - intros Hl. specialize (Ht Hl). by destruct (submit_loop m p).
Qed.

(** The state in which the coroutine of a completed operation goes on. *)
Definition completed p op (x : Z) : Proactor R :=
  let p := if (0 <=? op_type op) && (op_type op <=? 2) then set_result p (awaitable op) x else p in
  match handle op with Some h => log_resumed p h | None => p end.

Lemma completed_inv p ts ops n a op x : inv p ts ops (Some a) None n → heap_ p !! a = Some op →
  inv (completed p op x) ts ops (Some a) (Some a) n ∧
  resumed_ (completed p op x) = resumed_ p ++ option_list (handle op) ∧ ran_ (completed p op x) = ran_ p.
Proof.
  intros [Ht Ho Hp Hr Honce] Hop. unfold completed. set (p1 := if (0 <=? op_type op) && (op_type op <=? 2) then _ else _).
  assert (task_queue_ p1 = task_queue_ p ∧ pending_ops_ p1 = pending_ops_ p ∧ ring_ p1 = ring_ p ∧ heap_ p1 = heap_ p ∧
    awaited_ p1 = awaited_ p ∧ resumed_ p1 = resumed_ p ∧ ran_ p1 = ran_ p) as (E1 & E2 & E3 & E4 & E5 & E6 & E7).
  { subst p1. destruct (_ && _); [|done]. unfold set_result. by destruct (awaitable op). }
  clearbody p1.
  assert (omap handle (map_to_list (heap_ p)).*2 ≡ₚ option_list (handle op) ++ omap handle (map_to_list (delete a (heap_ p))).*2) as Hm.
  { rewrite <- (map_to_list_delete (heap_ p) a op Hop). csimpl. by destruct (handle op). }
  destruct (handle op) as [h|]; simpl in *.
  - split; [|by rewrite E6]. split; simpl; rewrite ?E1, ?E2, ?E3, ?E4, ?E5, ?E6; try done.
    rewrite Honce. simpl. rewrite Hm. solve_Permutation.
  - split; [|by rewrite E6, app_nil_r]. split; simpl; rewrite ?E1, ?E2, ?E3, ?E4, ?E5, ?E6; try done.
    rewrite Honce. simpl. by rewrite Hm.
Qed.

Lemma HandleCqe_op fuel a x p op : heap_ p !! a = Some op →
  HandleCqe code fuel (Op a) x p =
    (p ← exec code fuel (match handle op with Some h => code (Coroutine h) (results_ (completed p op x)) | None => [] end) (completed p op x);
     Ok (set_heap p (delete a (heap_ p)))).
Proof.
  intros Hop. unfold HandleCqe. rewrite Hop. unfold completed, resume. destruct (handle op); [done|]. by destruct fuel.
Qed.

(** The event of an operation: its coroutine is resumed, its block freed. *)
Lemma HandleCqe_inv fuel p ts ops n d x : inv p ts ops (addr d) None n → n + Z.of_nat fuel < kMaxPos →
  (∀ a, d = Op a → is_Some (heap_ p !! a)) → queued (ring_ p) = [] →
  safe (HandleCqe code fuel d x p) (λ p', ∃ ts' ops', inv p' ts' ops' None None (n + Z.of_nat fuel)).
Proof.
  intros HI Hn Hd Hq. destruct d as [| |a]; simpl.
  - pose proof (get_sqe_ok (ring_ p)) as Hget. pose proof entries_pos. rewrite decide_True in Hget by (rewrite Hq; simpl; lia).
    destruct Hget as (fill & -> & Hfill). cbn [safe]. exists ts, ops. apply (inv_weaken _ _ _ _ _ n); [|lia].
    destruct (Hfill (mkSqe prep_poll_add WAKEUP_COOKIE)) as (Eq & Ei & _).
    assert (inv (set_ring (set_event p 0) (fill (mkSqe prep_poll_add WAKEUP_COOKIE))) ts ops None None n) as HI1; [|by apply submit_ring_inv in HI1].
    destruct HI as [Ht Ho Hp Hr Honce]. split; simpl in *; try done. rewrite <- Hr. unfold ring_addrs.
    rewrite Eq, Ei, fmap_app, <- (assoc_L (++)), !omap_app. csimpl. done.
  - exists ts, ops. apply (inv_weaken _ _ _ _ _ n); [done|lia].
  - destruct (Hd a eq_refl) as [op Hop]. destruct (completed_inv p ts ops n a op x HI Hop) as [HI1 _].
    change (safe (HandleCqe code fuel (Op a) x p) (λ p', ∃ ts' ops', inv p' ts' ops' None None (n + Z.of_nat fuel))).
    rewrite (HandleCqe_op fuel a x p op Hop).
    eapply safe_bind; [by apply (exec_inv fuel _ _ _ _ _ _ _ HI1)|].
    intros p2 (ts2 & ops2 & [Ht Ho Hp Hr Honce] & _). exists ts2, ops2. by split.
Qed.

(** After a completion was delivered. *)
Lemma waited_inv p ts ops n r d x : inv p ts ops None None n → queued (ring_ p) = [] →
  io_uring_wait_cqe_timeout (ring_ p) = (r, Some (d, x)) → unseen (ring_ p) = None →
  inv (set_ring p r) ts ops (addr d) None n ∧ (∀ a, d = Op a → is_Some (heap_ p !! a)).
Proof.
  intros [Ht Ho Hp Hr Honce] Hq Ew Hu. destruct (wait_ok _ _ _ Ew Hu) as (Eq & _ & Ei). simpl in Hr, Ei.
  unfold ring_addrs in Hr. rewrite Hq, Ei in Hr. simpl in Hr.
  assert (∀ m : gmap nat PendingOp, omap addr (inflight r) ≡ₚ (map_to_list m).*1 → ring_addrs r ≡ₚ (map_to_list m).*1) as Hring
    by (unfold ring_addrs; by rewrite Eq, Hq).
  destruct d as [| |a]; simpl in Hr.
  1-2: split; [|done]; split; simpl; try done; by apply Hring.
  assert (is_Some (heap_ p !! a)) as [op Hop].
  { assert (a ∈ (map_to_list (heap_ p)).*1) as Hin by (rewrite <- Hr; left).
    apply list_elem_of_fmap in Hin as ([a' op] & -> & Hin). apply elem_of_map_to_list in Hin. by exists op. }
  split; [|by intros ? [= <-]]. split; simpl; try done. apply Hring.
  rewrite <- (map_to_list_delete (heap_ p) a op Hop) in Hr. csimpl in *. by apply Permutation_cons_inv in Hr.
Qed.

(** What one iteration adds to the positions of the queues. *)
Definition budget (fuel : nat) : Z := Z.of_nat fuel * Z.of_nat fuel + 2 * Z.of_nat fuel.

Lemma iteration_inv fuel ext p ts ops n : inv p ts ops None None n → unseen (ring_ p) = None → n + budget fuel < kMaxPos →
  safe (iteration code fuel ext p) (λ p', ∃ ts' ops', inv p' ts' ops' None None (n + budget fuel) ∧ unseen (ring_ p') = None).
Proof.
  intros HI Hu Hn. unfold iteration, budget in *.
  eapply safe_bind; [apply (exec_inv fuel ext p _ _ _ _ _ HI); nia|]. intros p1 (ts1 & ops1 & HI1 & Hr1 & _).
  eapply safe_bind; [apply (DrainTasks_inv fuel fuel p1 _ _ _ _ _ HI1); nia|]. intros p2 (ops2 & HI2 & Hr2 & _).
  eapply safe_bind; [apply (SubmitPendingOps_inv fuel p2 _ _ _ HI2); nia|]. intros p3 (HI3 & Hu3 & Hq3 & _).
  destruct (io_uring_wait_cqe_timeout (ring_ p3)) as [r c] eqn:Ew.
  destruct (wait_ok _ _ _ Ew) as (Eq & Eu & Ei); [congruence|].
  destruct c as [[d x]|]; simpl in Eu, Ei.
  - destruct (waited_inv p3 [] [] _ r d x HI3 Hq3 Ew) as [HI4 Hd]; [congruence|].
    eapply safe_bind; [apply (HandleCqe_inv fuel (set_ring p3 r) _ _ _ d x HI4); [nia|done|simpl; congruence]|].
    intros p4 (ts4 & ops4 & HI5). destruct (seen_ok (ring_ p4)) as (Sq & Si & Su). cbn [safe]. exists ts4, ops4. split; [|done].
    replace (n + (_ + _)) with (n + Z.of_nat fuel + Z.of_nat fuel * Z.of_nat fuel + Z.of_nat fuel) by lia.
    destruct HI5 as [Ht Ho Hp Hr Honce]. split; simpl; try done. unfold ring_addrs. by rewrite Sq, Si.
  - cbn [safe]. exists [], []. split; [|by simpl]. apply (inv_weaken _ _ _ _ _ (n + Z.of_nat fuel + Z.of_nat fuel * Z.of_nat fuel)); [|lia].
    destruct HI3 as [Ht Ho Hp Hr Honce]. split; simpl; try done. unfold ring_addrs. rewrite Eq, <- Hr. unfold ring_addrs.
    by rewrite !omap_app, Ei.
Qed.
End inv.
