(* ===== verification/ProactorSpec.v ===== *)
(** ProactorSpec: what the event loop promises to tasks and coroutines, and what
    happens when its queue is full. *)
From stdpp Require Import gmap fin_sets.
From S2P Require Import Prelude MpmcQueue MpmcInv MpmcSpec Proactor ProactorInv.
Local Open Scope Z_scope.

Section spec.
Context {R : Type} `{UringOk R} (code : runner → gmap nat Z → list call).
Context (k : nat) (Hk : (1 ≤ k ≤ 32)%nat).
Implicit Types (p : Proactor R) (r : R) (h t a : nat) (op : PendingOp) (n : Z).

(** A ring that was just set up. *)
Definition fresh_ring r : Prop := queued r = [] ∧ inflight r = [] ∧ unseen r = None.

Lemma new_proactor_inv r p : fresh_ring r → new_proactor (N k) r = Some (Ok p) →
  inv k p [] [] None None 0 ∧ unseen (ring_ p) = None.
Proof.
  intros (Hq & Hi & Hu). unfold new_proactor.
  destruct (new_queue_spec (T:=nat) k Hk) as (tq & Etq & _ & _ & Het & _).
  destruct (new_queue_spec (T:=PendingOp) k Hk) as (pq & Epq & _ & _ & Hep & _). rewrite Etq, Epq. simpl.
  pose proof (get_sqe_ok r) as Hget. pose proof entries_pos. rewrite decide_True in Hget by (rewrite Hq; simpl; lia).
  destruct Hget as (fill & -> & Hfill). intros [= <-]. destruct (Hfill (mkSqe prep_poll_add WAKEUP_COOKIE)) as (Eq & Ei & Eu).
  destruct (submit_ok (fill (mkSqe prep_poll_add WAKEUP_COOKIE))) as (Sq & Si & Su). split; [|simpl; congruence].
  split; simpl; try by apply (holds_new k Hk).
  - lia.
  - unfold ring_addrs. rewrite Sq, Si, Ei, Eq, Hi, Hq. done.
  - done.
Qed.

Lemma iterations_inv fuel exts : ∀ p ts ops n, inv k p ts ops None None n → unseen (ring_ p) = None →
  n + Z.of_nat (length exts) * budget fuel < kMaxPos →
  safe (iterations code fuel exts p) (λ p', ∃ ts' ops' n', inv k p' ts' ops' None None n').
Proof.
  induction exts as [|ext exts IH]; intros p ts ops n HI Hu Hn; cbn [iterations].
  - by exists ts, ops, n.
  - cbn [length] in Hn. assert (0 ≤ budget fuel) by (unfold budget; lia). destruct (stop_ p).
    + exists ts, ops, n. by destruct HI.
    + eapply safe_bind; [apply (iteration_inv code k Hk fuel ext p ts ops n HI Hu); nia|].
      intros p1 (ts1 & ops1 & HI1 & Hu1). apply (IH p1 ts1 ops1 (n + budget fuel) HI1 Hu1). nia.
Qed.

(** (C24) No coroutine is lost and none is resumed twice, whatever tasks and
    coroutines do and in whatever order the kernel completes the operations: at
    every point at which the loop can be observed, the coroutines that have
    awaited an operation are those that were resumed together with those whose
    operation waits in the queue or is owned by exactly one entry of the ring;
    and the loop never touches an operation that was freed, nor a null entry. *)
Theorem proactor_once fuel exts r p : fresh_ring r → new_proactor (N k) r = Some (Ok p) →
  Z.of_nat (length exts) * budget fuel < kMaxPos →
  safe (loop code fuel exts p) (λ p', ∃ ops, holds k (pending_ops_ p') ops ∧
    ring_addrs (ring_ p') ≡ₚ (map_to_list (heap_ p')).*1 ∧
    awaited_ p' ≡ₚ resumed_ p' ++ omap handle (ops ++ (map_to_list (heap_ p')).*2)).
Proof.
  intros Hr Hnew Hlen. destruct (new_proactor_inv r p Hr Hnew) as [HI Hu]. unfold loop.
  eapply safe_mono; [apply (iterations_inv fuel exts _ [] [] 0); [by destruct HI|done|lia]|].
  intros p' (ts & ops & n & [_ Ho _ Hrg Honce]). exists ops. split_and!; [done|done|]. by rewrite omap_app.
Qed.

(** ** Progress *)

(** The tasks and coroutines make at most [c] calls, each to submit an operation. *)
Definition modest (c : nat) : Prop := ∀ w m, (length (code w m) ≤ c)%nat ∧ Forall (λ x, is_Some (call_op x)) (code w m).

Lemma submit_call c p op h : call_op c = Some (op, h) → do_call code c p = submit_op code p op h ∧ handle op = Some h.
Proof. destruct c; simpl; intros [= <- <-]; done. Qed.

Lemma exec_submits fuel cs : ∀ p ts ops x y n, inv k p ts ops x y n → n + Z.of_nat (length cs) < kMaxPos →
  (length cs ≤ fuel)%nat → Forall (λ c, is_Some (call_op c)) cs → Z.of_nat (length ops + length cs) ≤ N k →
  runs (exec code fuel cs p) (λ p', ∃ new, length new = length cs ∧ inv k p' ts (ops ++ new) x y (n + Z.of_nat (length cs)) ∧
    same p p' ∧ ran_ p' = ran_ p ∧ resumed_ p' = resumed_ p).
Proof.
  revert fuel. induction cs as [|c cs IH]; intros fuel p ts ops x y n HI Hn Hf Hcs Hroom; simpl in Hn, Hf, Hroom.
  - destruct fuel; apply runs_ok; exists []; rewrite app_nil_r, Z.add_0_r; by split_and!.
  - destruct fuel as [|fuel]; [lia|]. cbn [exec]. apply Forall_cons in Hcs as [[[op h] Hop] Hcs].
    destruct (submit_call c p op h Hop) as [-> Hh].
    rbind (submit_op_inv code k Hk p ts ops x y n op h HI ltac:(lia) Hh). intros [p1 more].
    rewrite bool_decide_true by lia. intros (HI1 & [Hr1 Hh1] & Hran & Hres & -> & _). cbn [app].
    eapply runs_mono; [apply (IH fuel p1 ts _ x y (n + 1) HI1); [lia|lia|done|rewrite length_app; simpl; lia]|].
    intros p2 (new & Hl & HI2 & [Hr2 Hh2] & Hran2 & Hres2). exists (op :: new). split_and!; [by simpl; rewrite Hl| |split|..]; try congruence.
    rewrite <- (assoc_L (++)) in HI2. by replace (n + Z.of_nat (length (c :: cs))) with (n + 1 + Z.of_nat (length cs)) by (simpl; lia).
Qed.

Lemma DrainTasks_modest c fuel m : modest c → (c ≤ fuel)%nat → ∀ p ts ops x y n, inv k p ts ops x y n →
  n + Z.of_nat (c * length ts) < kMaxPos → (length ts < m)%nat → Z.of_nat (length ops + c * length ts) ≤ N k →
  runs (DrainTasks code m fuel p) (λ p', ∃ new, (length new ≤ c * length ts)%nat ∧ inv k p' [] (ops ++ new) x y (n + Z.of_nat (c * length ts)) ∧
    same p p' ∧ ran_ p' = ran_ p ++ ts ∧ resumed_ p' = resumed_ p).
Proof.
  intros Hc Hcf. induction m as [|m IH]; intros p ts ops x y n HI Hn Hm Hroom; cbn [DrainTasks]; [lia|].
  pose proof HI as [Ht Ho [Hp1 Hp2] Hr Honce].
  rbind (try_dequeue_spec k Hk (task_queue_ p) ts Ht ltac:(lia)). intros [q rt] (-> & Hq & Hpos).
  destruct ts as [|t ts]; cbn [head].
  - apply runs_ok. exists []. rewrite !app_nil_r. split_and!; [simpl; lia| |done..]. apply (inv_weaken k Hk _ _ _ _ _ n); [|lia].
    split; simpl in *; try done; lia.
  - assert (inv k (log_ran (set_tasks p q) t) ts ops x y n) as HI1 by (split; simpl in *; try done; lia).
    destruct (Hc (Task t) (results_ (set_tasks p q))) as [Hlen Hall]. cbn [length] in *. rewrite Nat.mul_succ_r in *. set (cs := code _ _) in *.
    rbind (exec_submits fuel cs _ _ _ _ _ _ HI1 ltac:(lia) ltac:(lia) Hall ltac:(lia)).
    intros p1 (new & Hl & HI2 & [Hr2 Hh2] & Hran & Hres).
    eapply runs_mono; [apply (IH p1 ts (ops ++ new) x y _ HI2); rewrite ?length_app; lia|].
    intros p2 (new2 & Hl2 & HI3 & [Hr3 Hh3] & Hran2 & Hres2). exists (new ++ new2). simpl in *.
    split_and!; [rewrite length_app; lia| |split; congruence|rewrite Hran2, Hran, <- (assoc_L (++)); done|congruence].
    rewrite (assoc_L (++)). eapply (inv_weaken k Hk); [done|lia].
Qed.


Lemma HandleCqe_modest c fuel p n d x : modest c → (c ≤ fuel)%nat → Z.of_nat c ≤ N k →
  inv k p [] [] (addr d) None n → n + Z.of_nat fuel < kMaxPos →
  (∀ a, d = Op a → is_Some (heap_ p !! a)) → queued (ring_ p) = [] →
  runs (HandleCqe code fuel d x p) (λ p', ran_ p' = ran_ p ∧
    resumed_ p' = resumed_ p ++ (match addr d with Some a => option_list (heap_ p !! a ≫= handle) | None => [] end)).
Proof.
  intros Hc Hcf HcN HI Hn Hd Hq. destruct d as [| |a]; simpl addr in *.
  - unfold HandleCqe. pose proof (get_sqe_ok (ring_ p)) as Hget. pose proof entries_pos.
    rewrite decide_True in Hget by (rewrite Hq; simpl; lia). destruct Hget as (fill & E & _). simpl ring_. rewrite E.
    apply runs_ok. by rewrite app_nil_r.
  - apply runs_ok. by rewrite app_nil_r.
  - destruct (Hd a eq_refl) as [op Hop]. destruct (completed_inv k p [] [] n a op x HI Hop) as (HI1 & Hres & Hran).
    rewrite (HandleCqe_op code fuel a x p op Hop), Hop. simpl.
    set (cs := match handle op with Some h => _ | None => _ end).
    assert (length cs ≤ c ∧ Forall (λ c, is_Some (call_op c)) cs)%nat as [Hl Hall]
      by (subst cs; destruct (handle op); [apply Hc|split; [simpl; lia|constructor]]).
    rbind (exec_submits fuel cs _ _ _ _ _ _ HI1 ltac:(lia) ltac:(lia) Hall ltac:(simpl; lia)).
    intros p1 (new & _ & _ & _ & Hran1 & Hres1). apply runs_ok. simpl. by rewrite Hran1, Hres1.
Qed.


(** A full queue of operations is fatal for a coroutine that tries again:
    when every coroutine that is resumed awaits its next operation, as the accept
    loop and the write loop do, the submission resumes it on the spot with
    -EBUSY, it submits again, and the call never returns. *)
Theorem full_queue_recurses fuel p ts ops x y n c : inv k p ts ops x y n → n + Z.of_nat fuel < kMaxPos →
  Z.of_nat (length ops) = N k → is_Some (call_op c) →
  (∀ h m, ∃ c', code (Coroutine h) m = [c'] ∧ is_Some (call_op c')) →
  exec code fuel [c] p = Fault NoFuel.
Proof.
  intros HI Hn Hfull Hcall Hcode. revert p n c HI Hn Hcall. induction fuel as [|fuel IH]; intros p n c HI Hn [[op h] Hop]; [done|].
  cbn [exec]. destruct (submit_call c p op h Hop) as [-> Hh].
  destruct (submit_op_inv code k Hk p ts ops x y n op h HI ltac:(lia) Hh) as ([p1 more] & -> & Hp1).
  rewrite bool_decide_false in Hp1 by lia. destruct Hp1 as (HI1 & _ & _ & _ & -> & _). rewrite bind_ok. cbv beta iota.
  destruct (Hcode h (results_ p1)) as (c' & -> & Hc'). apply (IH p1 (n + 1) c' HI1); [lia|done].
Qed.
End spec.
