(* ===== verification/ProactorWitness.v ===== *)
(** ProactorWitness: a ring that behaves as io_uring is documented to, and the
    theorems on the event loop at concrete inputs. *)
From stdpp Require Import gmap fin_sets.
From S2P Require Import Prelude MpmcQueue MpmcInv MpmcSpec Proactor ProactorInv ProactorSpec.
Local Open Scope Z_scope.

(** A ring of two entries that completes the operations in order, each with the
    result 5. *)
Record Ring : Set := mkRing { r_queued : list sqe; r_inflight : list user_data; r_unseen : option user_data }.

#[export] Instance ring_uring : Uring Ring := {
  io_uring_get_sqe r := if decide (length (r_queued r) < 2)%nat
    then Some (λ e, mkRing (r_queued r ++ [e]) (r_inflight r) (r_unseen r)) else None;
  io_uring_submit r := mkRing [] (r_inflight r ++ (sqe_data <$> r_queued r)) (r_unseen r);
  io_uring_wait_cqe_timeout r :=
    match r_unseen r, r_inflight r with
    | Some d, _ => (r, Some (d, 5))
    | None, [] => (r, None)
    | None, d :: l => (mkRing (r_queued r) l (Some d), Some (d, 5))
    end;
  io_uring_cqe_seen r := mkRing (r_queued r) (r_inflight r) None;
}.

#[export, refine] Instance ring_ok : UringOk Ring := {
  entries := 2; queued := r_queued; inflight := r_inflight; unseen := r_unseen;
}.
Proof.
  - lia.
  - intros r. simpl. case_decide; [|done]. by eexists.
  - done.
  - intros [q [|d l] u] r' c; simpl; intros E ->; injection E as <- <-; done.
  - done.
Defined.

Definition ring0 : Ring := mkRing [] [] None.

Lemma ring0_fresh : fresh_ring ring0.
Proof. done. Qed.

(** Two tasks that start a read; the coroutine of the first answers with a write. *)
Definition demo (w : runner) (m : gmap nat Z) : list call :=
  match w with
  | Task 0 => [SubmitRead 4 100 10 0 7 (Some 1%nat)]
  | Task 1 => [SubmitRead 5 200 10 0 8 (Some 2%nat)]
  | Coroutine 7 => [SubmitWrite 4 100 5 0 9 (Some 3%nat)]
  | _ => []
  end.

Lemma width_ok : (1 ≤ 1 ≤ 32)%nat.
Proof. lia. Qed.

Definition proactor0 : Proactor Ring :=
  match new_proactor (N 1) ring0 with Some (Ok p) => p | _ => mkProactor (mkQueue [] 0 0 0) (mkQueue [] 0 0 0) ring0 0 false false ∅ ∅ [] [] [] end.

Lemma proactor0_new : new_proactor (N 1) ring0 = Some (Ok proactor0).
Proof. vm_compute. reflexivity. Qed.

Definition demo_run : list (list call) := [[DispatchBrief 0; DispatchBrief 1]; []; []; []; []].

Lemma proactor_once_witness :
  (match loop demo 9 demo_run proactor0 with Ok p => Some (awaited_ p, resumed_ p, results_ p !! 1%nat : option Z) | _ => None end)
    = Some ([7; 8; 9]%nat, [7; 8; 9]%nat, Some 5) ∧
  safe (loop demo 9 demo_run proactor0) (λ p', ∃ ops, holds 1 (pending_ops_ p') ops ∧
    ring_addrs (ring_ p') ≡ₚ (map_to_list (heap_ p')).*1 ∧
    awaited_ p' ≡ₚ resumed_ p' ++ omap handle (ops ++ (map_to_list (heap_ p')).*2)).
Proof.
  split; [vm_compute; reflexivity|]. apply (proactor_once demo 1 width_ok 9 demo_run ring0 proactor0 ring0_fresh proactor0_new).
  vm_compute. reflexivity.
Defined.

Lemma proactor0_inv : inv 1 proactor0 [] [] None None 0 ∧ unseen (ring_ proactor0) = None.
Proof. apply (new_proactor_inv 1 width_ok ring0 proactor0 ring0_fresh proactor0_new). Qed.

Lemma demo_modest : modest demo 1.
Proof.
  intros [[|[|t]]|[|[|[|[|[|[|[|[|h]]]]]]]]] m; (split; [simpl; lia|]); repeat constructor; by eexists.
Qed.

(** The proactor with both tasks dispatched. *)
Definition proactor2 : Proactor Ring :=
  Wakeup (set_tasks proactor0 (mkQueue [mkCell 1 (Some 0%nat); mkCell 2 (Some 1%nat)] 1 2 0)).

Lemma proactor2_inv : inv 1 proactor2 [0; 1]%nat [] None None 2.
Proof.
  destruct (proj1 proactor0_inv) as [Ht Ho Hp Hr Honce]. split; try done.
  split; try done.
  - intros [|[|i]] v; intros [= <-]; reflexivity.
  - intros p Hpos. simpl in Hpos. change (N 1) with 2 in Hpos. lia.
Qed.


(** Coroutines that read again whatever happens, and a full queue of operations. *)
Definition stubborn (w : runner) (m : gmap nat Z) : list call := [SubmitRead 4 100 10 0 7 None].

Definition full_op : PendingOp := mkOp 4 1 (Some 100) (Some 10) (Some 0) (Some 7%nat) None.

Definition proactor_full : Proactor Ring :=
  mkProactor (task_queue_ proactor0) (mkQueue [mkCell 1 (Some full_op); mkCell 2 (Some full_op)] 1 2 0)
    ring0 0 true false ∅ ∅ [] [7; 7]%nat [].

Lemma proactor_full_inv : inv 1 proactor_full [] [full_op; full_op] None None 2.
Proof.
  destruct (proj1 proactor0_inv) as [Ht Ho Hp Hr Honce]. split; try done.
  split; try done.
  - intros [|[|i]] v; intros [= <-]; reflexivity.
  - intros p Hpos. simpl in Hpos. change (N 1) with 2 in Hpos. lia.
Qed.

Lemma full_queue_recurses_witness : exec stubborn 1000 [SubmitRead 4 100 10 0 7 None] proactor_full = Fault NoFuel.
Proof.
  apply (full_queue_recurses stubborn 1 width_ok 1000 proactor_full [] [full_op; full_op] None None 2 _ proactor_full_inv);
    [reflexivity|reflexivity|eexists; reflexivity|].
  intros h m. eexists. split; [reflexivity|]. eexists. reflexivity.
Defined.
