(* ===== verification/ConcWitness.v ===== *)
(** ConcWitness: the theorems on queues, events and locks at concrete inputs. *)
From S2P Require Import Prelude SpinLock MpmcQueue MpmcInv MpmcSpec EventCount EventCountSpec ThreadEvent TaskQueue Pool PoolSpec Threads.
Local Open Scope Z_scope.

(** A queue of two cells. *)
Definition queue2 : Queue nat := mkQueue [mkCell 0 None; mkCell 1 None] 1 0 0.

Lemma queue2_new : new_queue (N 1) = Some queue2.
Proof. reflexivity. Qed.

Lemma one_ok : (1 ≤ 1 ≤ 32)%nat.
Proof. lia. Qed.
Lemma one_ok30 : (1 ≤ 1 ≤ 30)%nat.
Proof. lia. Qed.

(** Two producers race for the first position, one of them loses its exchange,
    and a consumer takes the datum of the other. *)
Definition race : list (MpmcQueue.action nat) :=
  [CallEnqueue 0 10%nat; CallEnqueue 1 11%nat; CallDequeue 2;
   MpmcQueue.Step 0 false; MpmcQueue.Step 1 false; MpmcQueue.Step 0 false; MpmcQueue.Step 1 false;
   MpmcQueue.Step 1 false; MpmcQueue.Step 0 false; MpmcQueue.Step 1 false; MpmcQueue.Step 1 false;
   MpmcQueue.Step 2 false; MpmcQueue.Step 2 false; MpmcQueue.Step 2 true; MpmcQueue.Step 2 false; MpmcQueue.Step 2 false;
   MpmcQueue.Step 2 false; MpmcQueue.Step 2 false; MpmcQueue.Step 2 false].

Lemma mpmc_fifo_witness :
  (taken_ <$> match rfold MpmcQueue.act race (MpmcQueue.initial queue2 3) with Ok s => Some s | Fault _ => None end) = Some [(0, 11%nat)] ∧
  runs (rfold MpmcQueue.act race (MpmcQueue.initial queue2 3)) (λ s,
    let d := dequeue_pos_ (MpmcQueue.queue_ s) in
    (∀ p v, (p, v) ∈ taken_ s → 0 ≤ p < d ∧ log_ s !! Z.to_nat p = Some v) ∧ NoDup (taken_ s).*1 ∧
    0 ≤ d ≤ Z.of_nat (length (log_ s)) ≤ d + N 1 ∧
    (Forall (λ x, at_rest x = true) (MpmcQueue.threads_ s) →
       (taken_ s).*1 ≡ₚ seqZ 0 d ∧ MpmcSpec.holds 1 (MpmcQueue.queue_ s) (drop (Z.to_nat d) (log_ s)))).
Proof. split; [vm_compute; reflexivity|]. apply (mpmc_fifo 1 one_ok race queue2 3 queue2_new). vm_compute. reflexivity. Defined.

Lemma mpmc_alone_witness :
  runs (try_enqueue queue2 10%nat) (λ '(q', r), r = true ∧ MpmcSpec.holds 1 q' [10%nat] ∧ enqueue_pos_ q' = 1) ∧
  is_full queue2 = Ok false ∧ MpmcQueue.empty queue2 = Ok true.
Proof.
  destruct (mpmc_alone 1 one_ok queue2 [] 10%nat (holds_new 1 one_ok queue2 queue2_new) eq_refl) as (He & _ & Hf & Hm).
  split; [|split; [exact Hf|exact Hm]]. destruct He as ([q r] & E & -> & H). exists (q, true). split; [exact E|]. split; [reflexivity|exact H].
Defined.

Definition no_cont : nat → EventCount → res EventCount := λ _ ec, Ok ec.

Lemma wait_sees_notify_witness :
  runs (let '(ec, epoch) := prepareWait new_ec in
        ec ← notify_n 1 1 no_cont ec; EventCount.wait 1 ec 7%nat epoch)
       (λ '(ec', suspended), suspended = false ∧ wait_queue_ ec' = []).
Proof.
  destruct (wait_sees_notify 1 1 no_cont new_ec 0 0 7%nat idle_new eq_refl (le_n 1) eq_refl) as ([ec r] & E & -> & Hq).
  exists (ec, false). split; [exact E|]. split; [reflexivity|exact Hq].
Defined.

Lemma notify_deadlocks_witness :
  runs (let '(ec, epoch) := prepareWait new_ec in EventCount.wait 1 ec 7%nat epoch) (λ '(ec', suspended), suspended = true ∧
    ∀ fuel' cont, EventCount.notify fuel' cont ec' = Fault NoFuel ∧ EventCount.notifyAll fuel' cont ec' = Fault NoFuel).
Proof. apply (notify_deadlocks 1 new_ec 0 0 7%nat idle_new eq_refl (le_n 1)). apply not_elem_of_nil. Defined.

Lemma done_order_witness :
  runs (Wait 1 false new_done 7%nat) (λ '(d, r), r = None ∧ ∀ fuel' cont, Notify fuel' cont d = Fault NoFuel) ∧
  runs (d ← Notify 1 no_cont new_done; Wait 1 false d 7%nat) (λ '(d, r), r = Some false ∧ IsReady d = true).
Proof. apply (done_order 1 no_cont 7%nat (le_n 1)). Defined.

(** A waiter that sleeps and is woken. *)
Definition wake_trace : list ThreadEvent.action :=
  [CallWait 0; Step 0; Step 0; Step 0; CallNotify 1; Step 1; Step 1; Step 0; Step 0; Step 0; Step 0].

Lemma thread_event_counts_witness :
  let s := acts wake_trace (initial 2) in
  waits_ s = 1%nat ∧ ThreadEvent.threads_ s = [Idle; Idle] ∧
  (waits_ s ≤ notifies_ s)%nat ∧ flag_ (event_ s) = Z.of_nat (notifies_ s) - Z.of_nat (waits_ s) ∧
  ∀ t t' p p', ThreadEvent.threads_ s !! t = Some p → ThreadEvent.threads_ s !! t' = Some p' → ThreadEvent.holds p = true → ThreadEvent.holds p' = true → t = t'.
Proof. split; [reflexivity|]. split; [reflexivity|]. apply (thread_event_counts wake_trace 2). reflexivity. Defined.

(** ** Task queues *)

Definition task_queue2 : TaskQueue nat := mkTaskQueue queue2 new_ec 0 false.

Lemma task_queue2_new : new_task_queue (N 1) = Some task_queue2.
Proof. reflexivity. Qed.


(** The queue with both cells taken. *)
Definition full2 : TaskQueue nat :=
  mkTaskQueue (mkQueue [mkCell 1 (Some 1%nat); mkCell 2 (Some 2%nat)] 1 2 0) new_ec 2 false.

Lemma full2_reached : drive 1 no_cont [Added 1%nat; Added 2%nat] task_queue2 [] = Ok (full2, []).
Proof. vm_compute. reflexivity. Qed.

Lemma task_queue2_holds : tq_holds 1 task_queue2 [] 0 ∧ enqueue_pos_ (TaskQueue.queue_ task_queue2) = 0.
Proof. destruct (new_task_queue_holds (T:=nat) 1 one_ok30) as (tq & [= <-] & H). exact H. Qed.

Lemma full2_holds : tq_holds 1 full2 [1; 2]%nat 0.
Proof.
  destruct task_queue2_holds as [Hh Hp].
  destruct (drive_spec 1 one_ok30 [Added 1%nat; Added 2%nat] 1 no_cont task_queue2 [] [] (le_n 1) Hh eq_refl) as ([tq ran] & E & l & Hl & H).
  rewrite full2_reached in E. injection E as <- <-. vm_compute in Hl. injection Hl as <-. exact H.
Qed.

Lemma Add_full_deadlocks_witness :
  runs (Add 1 1 full2 3%nat 7) (λ '(tq', r), r = false ∧ ∀ fuel' cont, run_round fuel' cont tq' = Fault NoFuel).
Proof. apply (Add_full_deadlocks 1 one_ok30 full2 [1; 2]%nat 0 3%nat 7 1 0 full2_holds); [reflexivity|reflexivity|constructor|reflexivity]. Defined.

Lemma Shutdown_stops_witness :
  runs (run_round 1 no_cont (TaskQueue.Shutdown task_queue2)) (λ '(tq', r), r = Stops ∧ MpmcSpec.holds 1 (TaskQueue.queue_ tq') []) ∧
  isRuning (TaskQueue.Shutdown task_queue2) = false ∧
  runs ('(tq, _) ← TryAdd (TaskQueue.Shutdown task_queue2) 3%nat; run_round 1 no_cont tq) (λ '(tq', r), r = Sleeps ∧ is_closed_ tq' = true).
Proof. apply (Shutdown_stops 1 one_ok30 task_queue2 [] 0 3%nat 1 no_cont (proj1 task_queue2_holds)); reflexivity. Defined.

(** ** Pools *)

(** Two loops, no task, and shards that are not built. *)
Definition queue2_jobs : Queue (Job EngineShardSet) := mkQueue [mkCell 0 None; mkCell 1 None] 1 0 0.
Definition pool2 : Pool EngineShardSet := mkPool [queue2_jobs; queue2_jobs] (mkShardSet [None; None] [] 0) 0.

Lemma pool2_holds : loops_hold 1 pool2 (λ _, []) 0.
Proof.
  assert (MpmcSpec.holds 1 queue2_jobs []) as Hh by (apply (holds_new 1 one_ok); reflexivity).
  intros [|[|i]] q; intros [= <-]; by split.
Qed.

Lemma shards_start_and_stop_witness :
  runs (Init 2 [1; 0]%nat pool2) (λ '(p', woken), woken = true ∧
    (∀ i, (i < 2)%nat → shards_ (state_ p') !! i = Some (Some i) ∧
       ∃ es, tlocal_ (state_ p') !! i = Some (Some es) ∧ shard_id_ es = Z.of_nat i) ∧
    runs (Pool.Shutdown [0; 1]%nat p') (λ '(p'', woken), woken = true ∧ tlocal_ (state_ p'') = replicate 2 None)).
Proof.
  apply (shards_start_and_stop 1 one_ok 2 [1; 0]%nat [0; 1]%nat pool2 0 pool2_holds); try reflexivity; [vm_compute; intros E; discriminate E|].
  apply Permutation_swap.
Defined.

(** ** The threads of a server of two loops *)

Definition queue2_server : Queue (Job World) := mkQueue [mkCell 0 None; mkCell 1 None] 1 0 0.
Definition server2 : Pool World := mkPool [queue2_server; queue2_server] (new_world 2) 0.

Lemma server2_holds : loops_hold 1 server2 (λ _, []) 0.
Proof.
  assert (MpmcSpec.holds 1 queue2_server []) as Hh by (apply (holds_new 1 one_ok); reflexivity).
  intros [|[|i]] q; intros [= <-]; by split.
Qed.

Lemma next_pthread_total s : @pthread_create next_pthread s ≠ None.
Proof. done. Qed.

Definition started2 : res (Pool World * bool) := Start (H := next_pthread) [1; 0]%nat server2.

