(* ===== verification/IoBuf.v ===== *)
(** IoBuf: the byte buffer of a connection: a vector of characters with a
    prependable part, a readable part [read_index_, write_index_) and a
    writable part.
    Source: src/net/base/io_buf.hpp, src/net/base/io_buf.cpp.

    The indexes are [size_t]: differences wrap around at 64 bits. A pointer
    into the buffer is the index it points to. *)
From Stdlib Require Import Ascii.
From S2P Require Import Prelude.
Local Open Scope Z_scope.

Record IoBuf : Set := mkIoBuf {
  buffer_ : list ascii;
  prepend_size_ : Z;
  read_index_ : Z;
  write_index_ : Z;
}.

Definition NUL : ascii := "000"%char.

Definition set_read (b : IoBuf) (r : Z) : IoBuf := mkIoBuf (buffer_ b) (prepend_size_ b) r (write_index_ b).
Definition set_write (b : IoBuf) (w : Z) : IoBuf := mkIoBuf (buffer_ b) (prepend_size_ b) (read_index_ b) w.
Definition set_buffer (b : IoBuf) (l : list ascii) : IoBuf := mkIoBuf l (prepend_size_ b) (read_index_ b) (write_index_ b).

(** [std::copy(data, data + size, begin() + pos)] and the range [begin() + a, begin() + z). *)
Definition write_at (l : list ascii) (pos : Z) (data : list ascii) : res (list ascii) :=
  if (0 <=? pos) && (pos + Z.of_nat (length data) <=? Z.of_nat (length l))
  then Ok (take (Z.to_nat pos) l ++ data ++ drop (Z.to_nat pos + length data) l)
  else Fault OutOfBounds.
Definition read_range (l : list ascii) (a z : Z) : res (list ascii) :=
  if (0 <=? a) && (a <=? z) && (z <=? Z.of_nat (length l))
  then Ok (take (Z.to_nat (z - a)) (drop (Z.to_nat a) l))
  else Fault OutOfBounds.

(** [buffer_.resize(n)] *)
Definition resize (l : list ascii) (n : Z) : list ascii :=
  take (Z.to_nat n) l ++ replicate (Z.to_nat n - length l) NUL.

Definition new_buf (initial_size prepend_size : Z) : IoBuf :=
  mkIoBuf (resize [] (prepend_size + initial_size)) prepend_size prepend_size prepend_size.

Definition buf_size (b : IoBuf) : Z := Z.of_nat (length (buffer_ b)).
Definition readable_size (b : IoBuf) : Z := u64 (write_index_ b - read_index_ b).
Definition writable_size (b : IoBuf) : Z := u64 (buf_size b - write_index_ b).
Definition prependable_size (b : IoBuf) : Z := read_index_ b.

(** [reset] and [clear]: the literal 8, whatever the prepend size is. *)
Definition reset (b : IoBuf) : IoBuf := set_write (set_read b 8) 8.
Definition clear (b : IoBuf) : IoBuf := set_write (set_read b 8) 8.

(** The prepend sizes are not exchanged. *)
Definition swap (a b : IoBuf) : IoBuf * IoBuf :=
  (mkIoBuf (buffer_ b) (prepend_size_ a) (read_index_ b) (write_index_ b),
   mkIoBuf (buffer_ a) (prepend_size_ b) (read_index_ a) (write_index_ a)).

Definition check_index_validity (b : IoBuf) : res unit :=
  _ ← cassert (prepend_size_ b <=? read_index_ b);
  cassert (read_index_ b <=? write_index_ b).

Definition move_read_index (b : IoBuf) (size : Z) : res IoBuf :=
  _ ← cassert (size <=? readable_size b);
  if size <? readable_size b then
    let b := set_read b (u64 (read_index_ b + size)) in
    _ ← check_index_validity b; Ok b
  else
    _ ← check_index_validity b;
    let b := set_write (set_read b (prepend_size_ b)) (prepend_size_ b) in
    _ ← check_index_validity b; Ok b.

Definition move_write_index (b : IoBuf) (size : Z) : res IoBuf :=
  _ ← cassert (size <=? writable_size b); Ok (set_write b (u64 (write_index_ b + size))).

Definition reuse_prependable_space (b : IoBuf) : res IoBuf :=
  let readable := readable_size b in
  data ← read_range (buffer_ b) (read_index_ b) (write_index_ b);
  l ← write_at (buffer_ b) (prepend_size_ b) data;
  let b := set_read (set_buffer b l) (prepend_size_ b) in
  let b := set_write b (u64 (read_index_ b + readable)) in
  _ ← check_index_validity b; Ok b.

Definition expend (b : IoBuf) (size : Z) : res IoBuf :=
  _ ← check_index_validity b;
  if u64 (size + prepend_size_ b) <? u64 (writable_size b + prependable_size b) then reuse_prependable_space b
  else
    b ← reuse_prependable_space b;
    let b := set_buffer b (resize (buffer_ b) (u64 (write_index_ b + size))) in
    _ ← check_index_validity b; Ok b.

Definition ensure_appendable (b : IoBuf) (size : Z) : res IoBuf :=
  b ← (if writable_size b <? size then expend b size else Ok b);
  _ ← cassert (size <=? writable_size b);
  _ ← check_index_validity b; Ok b.
Definition ensureWritableBytes (b : IoBuf) (len : Z) : res IoBuf :=
  b ← (if writable_size b <? len then expend b len else Ok b);
  _ ← cassert (len <=? writable_size b);
  _ ← check_index_validity b; Ok b.

Definition appendImp (b : IoBuf) (data : list ascii) : res IoBuf :=
  let size := Z.of_nat (length data) in
  b ← ensure_appendable b size;
  l ← write_at (buffer_ b) (write_index_ b) data;
  move_write_index (set_buffer b l) size.
Definition append (b : IoBuf) (data : list ascii) : res IoBuf := appendImp b data.
Definition FluentAppend (b : IoBuf) (data : list ascii) : res IoBuf := appendImp b data.
Definition FluentAppend_cstr (b : IoBuf) : res IoBuf := _ ← cassert false; Ok b.

(** What a read from the socket to [BeginWrite()] does: [data] comes from the
    kernel, at most [writable_size()] bytes of it. *)
Definition BeginWrite (b : IoBuf) : Z := write_index_ b.
Definition BeginRead (b : IoBuf) : Z := read_index_ b.
Definition fill (b : IoBuf) (data : list ascii) : res IoBuf :=
  l ← write_at (buffer_ b) (BeginWrite b) data; Ok (set_buffer b l).

Definition hasWritten (b : IoBuf) (len : Z) : res IoBuf :=
  _ ← cassert (len <=? writable_size b);
  let b := set_write b (u64 (write_index_ b + len)) in
  _ ← check_index_validity b; Ok b.
Definition unwrite (b : IoBuf) (len : Z) : res IoBuf :=
  _ ← cassert (len <=? readable_size b);
  let b := set_write b (u64 (write_index_ b - len)) in
  _ ← check_index_validity b; Ok b.

(** [readv] into the writable part and a local buffer of 65536 bytes: [data]
    is what the kernel delivered, [None] an error. *)
Definition kExtraBuf : Z := 65536.
Definition appendFormFd (b : IoBuf) (data : option (list ascii)) : res (IoBuf * Z) :=
  let writable := writable_size b in
  match data with
  | None => Ok (b, -1)
  | Some d =>
      let n := Z.of_nat (length d) in
      b ← fill b (take (Z.to_nat writable) d);
      if 0 <? n then
        if n <=? writable_size b then b ← move_write_index b n; Ok (b, n)
        else b ← append (set_write b (buf_size b)) (drop (Z.to_nat writable) d); Ok (b, n)
      else Ok (b, n)
  end.

Definition consume (b : IoBuf) (size : Z) : res IoBuf := move_read_index b size.

(** [retrieve]: [None] is the null pointer. *)
Definition retrieve (b : IoBuf) (size : Z) : res (IoBuf * option Z) :=
  if size <=? readable_size b then
    let r := read_index_ b in b ← move_read_index b size; Ok (b, Some r)
  else Ok (b, None).
Definition retrieveAll (b : IoBuf) : res (IoBuf * option Z) := retrieve b (readable_size b).

(** A std::string of a C string: the characters up to the first NUL. *)
Fixpoint c_string (l : list ascii) : res (list ascii) :=
  match l with
  | [] => Fault OutOfBounds
  | c :: l' => if bool_decide (c = NUL) then Ok [] else r ← c_string l'; Ok (c :: r)
  end.
Definition retrieveAllToString (b : IoBuf) : res (IoBuf * list ascii) :=
  '(b, p) ← retrieveAll b;
  match p with
  | Some r => s ← c_string (drop (Z.to_nat r) (buffer_ b)); Ok (b, s)
  | None => Fault UseAfterFree
  end.

(** [readView()] *)
Definition readView (b : IoBuf) : res (list ascii) := read_range (buffer_ b) (read_index_ b) (write_index_ b).

Definition shrink (b : IoBuf) (reserve : Z) : IoBuf :=
  set_buffer b (resize (buffer_ b) (u64 (readable_size b + reserve + prepend_size_ b))).

(** [std::search]: the offset of the first occurrence of the border. *)
Definition starts_with (border l : list ascii) : bool := bool_decide (take (length border) l = border).
Fixpoint search (border l : list ascii) : nat :=
  if starts_with border l then 0%nat
  else match l with [] => 0%nat | _ :: l' => S (search border l') end.
Definition findBorder (b : IoBuf) (border : list ascii) : res Z :=
  l ← readView b; Ok (read_index_ b + Z.of_nat (search border l)).
Definition findBorder_len (b : IoBuf) (border : list ascii) : res (Z * Z) :=
  last ← findBorder b border; Ok (last, last - read_index_ b).

Definition prepend (b : IoBuf) (data : list ascii) : res IoBuf :=
  let size := Z.of_nat (length data) in
  _ ← cassert (size <=? prependable_size b);
  let b := set_read b (u64 (read_index_ b - size)) in
  l ← write_at (buffer_ b) (read_index_ b) data;
  Ok (set_buffer b l).
