(* ===== verification/IoBufInv.v ===== *)
(** IoBufInv: the contents of an IoBuf and what each operation does to them. *)
From Stdlib Require Import Ascii.
From S2P Require Import Prelude IoBuf.
Local Open Scope Z_scope.

(** The memory of a process; sizes below it do not wrap around. *)
Definition kMaxBuf : Z := 2 ^ 62.

(** The buffer holds [c] between [pre] and [post]. *)
Record buf_is (b : IoBuf) (pre c post : list ascii) : Prop := {
  bi_bytes : buffer_ b = pre ++ c ++ post;
  bi_read : read_index_ b = Z.of_nat (length pre);
  bi_write : write_index_ b = Z.of_nat (length pre) + Z.of_nat (length c);
  bi_prepend : 0 ≤ prepend_size_ b;
  bi_small : buf_size b < kMaxBuf;
}.

(** The readable bytes are [c], and the read index is behind the prepend area. *)
Definition contents (b : IoBuf) (c : list ascii) : Prop :=
  prepend_size_ b ≤ read_index_ b ∧ ∃ pre post, buf_is b pre c post.

(** ** Ranges *)

Lemma write_at_ok (pre old post data : list ascii) : length old = length data →
  write_at (pre ++ old ++ post) (Z.of_nat (length pre)) data = Ok (pre ++ data ++ post).
Proof.
  intros Hl. unfold write_at. rewrite !length_app, Nat2Z.id.
  rewrite (proj2 (Z.leb_le 0 _)), (proj2 (Z.leb_le _ _)) by lia. cbn [andb]. f_equal.
  rewrite take_app_length, drop_app_ge by lia.
  replace (length pre + length data - length pre)%nat with (length old) by lia. by rewrite drop_app_length.
Qed.

Lemma read_range_ok (pre c post : list ascii) :
  read_range (pre ++ c ++ post) (Z.of_nat (length pre)) (Z.of_nat (length pre) + Z.of_nat (length c)) = Ok c.
Proof.
  unfold read_range. rewrite !length_app, (proj2 (Z.leb_le 0 _)), !(proj2 (Z.leb_le _ _)) by lia. cbn [andb].
  f_equal. rewrite Nat2Z.id, drop_app_length. replace (Z.to_nat _) with (length c) by lia. apply take_app_length.
Qed.

Lemma resize_grow (l : list ascii) n : Z.of_nat (length l) ≤ n →
  resize l n = l ++ replicate (Z.to_nat n - length l) NUL.
Proof. intros Hn. unfold resize. by rewrite take_ge by lia. Qed.

(** Split a list at a length. *)
Lemma split_at {A} (l : list A) n : (n ≤ length l)%nat → ∃ l1 l2, l = l1 ++ l2 ∧ length l1 = n.
Proof. intros Hn. exists (take n l), (drop n l). rewrite take_drop, length_take. split; [done|lia]. Qed.

Ltac buf_len := unfold buf_size, kMaxBuf in *; repeat first
  [ progress rewrite ?length_app, ?length_replicate, ?length_insert in *
  | match goal with H : buffer_ _ = _ |- _ => rewrite H in * end ]; simpl in *; lia.

Section view.
Implicit Types (b : IoBuf) (pre c post data : list ascii).

Lemma bi_sizes b pre c post : buf_is b pre c post →
  readable_size b = Z.of_nat (length c) ∧ writable_size b = Z.of_nat (length post) ∧
  buf_size b = Z.of_nat (length pre + length c + length post).
Proof.
  intros [Hb Hr Hw Hp Hs]. unfold readable_size, writable_size.
  assert (buf_size b = Z.of_nat (length pre + length c + length post)) as E
    by (unfold buf_size; rewrite Hb, !length_app; lia).
  unfold kMaxBuf in Hs. rewrite E, Hr, Hw in *. rewrite !uN_small by lia. split_and!; lia.
Qed.

Lemma check_ok b pre c post : buf_is b pre c post → prepend_size_ b ≤ read_index_ b → check_index_validity b = Ok tt.
Proof.
  intros [_ Hr Hw _ _] Hp. unfold check_index_validity. rewrite !cassert_true by (apply Z.leb_le; lia). done.
Qed.

Lemma read_view b pre c post : buf_is b pre c post → readView b = Ok c.
Proof. intros [Hb Hr Hw _ _]. unfold readView. rewrite Hb, Hr, Hw. apply read_range_ok. Qed.

(** A new buffer is empty. *)
Lemma new_buf_contents n : 0 ≤ n < 2 ^ 61 → contents (new_buf n 8) [].
Proof.
  intros Hn. split; [done|]. exists (take 8 (buffer_ (new_buf n 8))), (drop 8 (buffer_ (new_buf n 8))).
  assert (length (buffer_ (new_buf n 8)) = Z.to_nat (8 + n)) as Hl
    by (simpl; unfold resize; rewrite take_nil, app_nil_l, length_replicate; simpl; lia).
  assert (length (take 8 (buffer_ (new_buf n 8))) = 8)%nat as H8 by (rewrite length_take, Hl; lia).
  split; rewrite ?H8; [by rewrite app_nil_l, take_drop|done|done|done|].
  unfold buf_size, kMaxBuf. rewrite Hl. lia.
Qed.

(** [move_read_index] drops bytes from the front; an empty buffer starts over. *)
Lemma move_read_spec b c data : contents b (data ++ c) →
  runs (move_read_index b (Z.of_nat (length data))) (λ b', contents b' c ∧ prepend_size_ b' = prepend_size_ b ∧
    buf_size b' = buf_size b).
Proof.
  intros (Hp & pre & post & Hv). pose proof Hv as [Hb Hr Hw H0 Hs].
  destruct (bi_sizes b _ _ _ Hv) as (Er & _ & Esz). rewrite length_app in *. unfold move_read_index. rewrite Er.
  rewrite cassert_true by (apply Z.leb_le; lia). rewrite bind_ok.
  destruct (Z.ltb_spec (Z.of_nat (length data)) (Z.of_nat (length data + length c))) as [Hlt|Hge].
  - set (b' := set_read b _). unfold kMaxBuf in *.
    assert (buf_is b' (pre ++ data) c post) as Hv'.
    { split; simpl; [by rewrite Hb, <- !app_assoc|rewrite Hr, uN_small by lia; rewrite length_app; lia|rewrite Hw, length_app; lia|done|done]. }
    rewrite (check_ok b' _ _ _ Hv'), bind_ok by (simpl; rewrite Hr, uN_small by lia; lia). apply runs_ok.
    split; [|done]. split; [simpl; rewrite Hr, uN_small by lia; lia|by exists (pre ++ data), post].
  - assert (c = []) as -> by (apply length_zero_iff_nil; lia).
    rewrite (check_ok b _ _ _ Hv Hp), bind_ok. set (b' := set_write _ _).
    destruct (split_at (buffer_ b) (Z.to_nat (prepend_size_ b))) as (p & q & E & Hl); [unfold buf_size in *; lia|].
    assert (buf_is b' p [] q) as Hv' by (split; simpl; [done|lia|lia|lia|done]).
    rewrite (check_ok b' _ _ _ Hv'), bind_ok by done. apply runs_ok. split; [|done]. split; [done|by exists p, q].
Qed.

Lemma reuse_spec b c : contents b c →
  runs (reuse_prependable_space b) (λ b', prepend_size_ b' = prepend_size_ b ∧ buf_size b' = buf_size b ∧
    ∃ pre post, buf_is b' pre c post ∧ Z.of_nat (length pre) = prepend_size_ b).
Proof.
  intros (Hp & pre & post & Hv). pose proof Hv as [Hb Hr Hw H0 Hs]. destruct (bi_sizes b _ _ _ Hv) as (Er & _ & Esz).
  unfold reuse_prependable_space. change (read_range _ _ _) with (readView b).
  rewrite (read_view b _ _ _ Hv), bind_ok.
  destruct (split_at pre (Z.to_nat (prepend_size_ b))) as (p1 & p2 & -> & Hl); [lia|].
  destruct (split_at (p2 ++ c) (length c)) as (o & q & E & Ho); [rewrite length_app; lia|].
  assert (buffer_ b = p1 ++ o ++ q ++ post) as Hb' by (rewrite Hb, <- app_assoc, (app_assoc p2), E, <- app_assoc; done).
  replace (prepend_size_ b) with (Z.of_nat (length p1)) by lia.
  rewrite Hb', (write_at_ok p1 o (q ++ post) c Ho), bind_ok. set (b' := set_write _ _).
  assert (length (buffer_ b) = length (p1 ++ c ++ q ++ post)) as Elen by (rewrite Hb', !length_app; lia).
  rewrite length_app in Esz. unfold kMaxBuf in *.
  assert (buf_is b' p1 c (q ++ post)) as Hv'.
  { split; simpl; [done|lia|rewrite Er, uN_small by lia; lia|lia|unfold buf_size in *; simpl; unfold kMaxBuf; lia]. }
  rewrite (check_ok b' _ _ _ Hv'), bind_ok by (simpl; lia). apply runs_ok. split_and!; [simpl; lia|unfold buf_size; simpl; lia|].
  exists p1, (q ++ post). done.
Qed.

(** After [expend] there is room for [size] more bytes. *)
Lemma expend_spec b c size : contents b c → 0 ≤ size → buf_size b + size < kMaxBuf - prepend_size_ b →
  runs (expend b size) (λ b', contents b' c ∧ prepend_size_ b' = prepend_size_ b ∧
    size ≤ writable_size b' ∧ buf_size b' ≤ buf_size b + size).
Proof.
  intros Hc Hsize Hbound. pose proof Hc as (Hp & pre & post & Hv). pose proof Hv as [_ Hr Hw H0 Hs].
  destruct (bi_sizes b _ _ _ Hv) as (Er & Ew & Esz). unfold expend, prependable_size, kMaxBuf in *.
  rewrite (check_ok b _ _ _ Hv Hp), bind_ok, Ew, Hr, !uN_small by lia.
  destruct (reuse_spec b c Hc) as (b1 & -> & Hp1 & Hsz1 & pre1 & post1 & Hv1 & Hl1).
  destruct (bi_sizes b1 _ _ _ Hv1) as (Er1 & Ew1 & Esz1). pose proof Hv1 as [Hb1 Hr1 Hw1 H01 Hs1].
  destruct (Z.ltb_spec (size + prepend_size_ b) (Z.of_nat (length post) + Z.of_nat (length pre))) as [Hlt|Hge].
  - apply runs_ok. split_and!; [|done|lia|lia]. split; [lia|by exists pre1, post1].
  - rewrite bind_ok. rewrite Hw1, uN_small by lia. set (b2 := set_buffer b1 _).
    set (zs := replicate (Z.to_nat size - length post1) NUL).
    assert (buf_is b2 pre1 c (post1 ++ zs)) as Hv2.
    { assert (buffer_ b2 = pre1 ++ c ++ post1 ++ zs) as Hb2.
      { simpl. rewrite Hb1, resize_grow by (rewrite !length_app; lia). rewrite <- !app_assoc. do 3 f_equal.
        unfold zs. f_equal. rewrite !length_app. lia. }
      split; try done. unfold buf_size. rewrite Hb2, !length_app. unfold zs. rewrite length_replicate. unfold kMaxBuf. lia. }
    destruct (bi_sizes b2 _ _ _ Hv2) as (_ & Ew2 & Esz2).
    rewrite (check_ok b2 _ _ _ Hv2), bind_ok by (simpl; lia). apply runs_ok.
    rewrite length_app in Ew2, Esz2. unfold zs in *. rewrite length_replicate in Ew2, Esz2.
    split_and!; [|done|lia|lia]. split; [simpl; lia|by eexists _, _].
Qed.

(** The bytes of [data] are put behind the contents. *)
Lemma put_view b pre c old post data : buf_is b pre c (old ++ post) → length old = length data →
  ∃ l, write_at (buffer_ b) (write_index_ b) data = Ok l ∧ length l = length (buffer_ b) ∧
    ∀ r w, r = read_index_ b → w = write_index_ b + Z.of_nat (length data) →
      buf_is (mkIoBuf l (prepend_size_ b) r w) pre (c ++ data) post.
Proof.
  intros [Hb Hr Hw H0 Hs] Hl. exists ((pre ++ c) ++ data ++ post). split_and!.
  - rewrite Hb, Hw. rewrite (app_assoc pre). rewrite <- Nat2Z.inj_add, <- length_app. by apply write_at_ok.
  - rewrite Hb, !length_app. lia.
  - intros r w -> ->. unfold buf_size in *. rewrite Hb, !length_app in Hs.
    split; simpl; [by rewrite <- !app_assoc|done|rewrite length_app; lia|done|].
    unfold buf_size. simpl. rewrite !length_app. lia.
Qed.

Lemma room b pre c post size : buf_is b pre c post → 0 ≤ size → size ≤ writable_size b →
  ∃ old post', post = old ++ post' ∧ Z.of_nat (length old) = size.
Proof.
  intros Hv H0 Hsz. destruct (bi_sizes b _ _ _ Hv) as (_ & Ew & _).
  destruct (split_at post (Z.to_nat size)) as (old & post' & -> & Hl); [lia|]. exists old, post'. split; [done|lia].
Qed.

(** The bytes a sequence of operations may add without running out of memory. *)
Definition room_for (b : IoBuf) (n : Z) : Prop := buf_size b + n < kMaxBuf - prepend_size_ b.

Lemma ensure_spec b c size : contents b c → 0 ≤ size → room_for b size →
  runs (ensure_appendable b size) (λ b', contents b' c ∧ prepend_size_ b' = prepend_size_ b ∧
    size ≤ writable_size b' ∧ buf_size b' ≤ buf_size b + size).
Proof.
  intros Hc H0 Hroom. unfold ensure_appendable.
  assert (runs (if writable_size b <? size then expend b size else Ok b) (λ b', contents b' c ∧
    prepend_size_ b' = prepend_size_ b ∧ size ≤ writable_size b' ∧ buf_size b' ≤ buf_size b + size)) as H1.
  { destruct (Z.ltb_spec (writable_size b) size); [by apply expend_spec|]. apply runs_ok. split_and!; [done..|lia]. }
  rbind H1. intros b1 (Hc1 & Hp1 & Hw1 & Hs1). rewrite cassert_true, bind_ok by (by apply Z.leb_le).
  pose proof Hc1 as (Hp & pre & post & Hv). rewrite (check_ok b1 _ _ _ Hv Hp), bind_ok. by apply runs_ok.
Qed.

Lemma append_spec b c data : contents b c → room_for b (Z.of_nat (length data)) →
  runs (append b data) (λ b', contents b' (c ++ data) ∧ prepend_size_ b' = prepend_size_ b ∧
    buf_size b' ≤ buf_size b + Z.of_nat (length data)).
Proof.
  intros Hc Hroom. unfold append, appendImp. rbind (ensure_spec b c (Z.of_nat (length data)) Hc ltac:(lia) Hroom).
  intros b1 (Hc1 & Hp1 & Hw1 & Hs1). pose proof Hc1 as (Hp & pre & post & Hv).
  destruct (room b1 _ _ _ (Z.of_nat (length data)) Hv ltac:(lia) Hw1) as (old & post' & -> & Hl).
  destruct (put_view b1 pre c old post' data Hv ltac:(lia)) as (l & -> & Hll & Hput). rewrite bind_ok.
  unfold move_write_index. assert (writable_size (set_buffer b1 l) = writable_size b1) as Ewr
    by (unfold writable_size, buf_size; simpl; by rewrite Hll).
  rewrite Ewr, cassert_true, bind_ok by (by apply Z.leb_le). apply runs_ok.
  pose proof Hv as [Hb Hr Hw H0 Hs]. destruct (bi_sizes b1 _ _ _ Hv) as (_ & _ & Esz). rewrite length_app in Esz.
  unfold kMaxBuf in *. split_and!; [|done|unfold buf_size in *; simpl; lia]. split; [simpl; lia|]. exists pre, post'.
  apply Hput; simpl; [done|]. rewrite uN_small; [done|]. lia.
Qed.

(** What the kernel wrote into the writable part, announced with [hasWritten]. *)
Lemma fill_spec b c data : contents b c → Z.of_nat (length data) ≤ writable_size b →
  runs (b ← fill b data; hasWritten b (Z.of_nat (length data))) (λ b', contents b' (c ++ data) ∧
    prepend_size_ b' = prepend_size_ b ∧ buf_size b' = buf_size b).
Proof.
  intros (Hp & pre & post & Hv) Hw1. unfold fill, BeginWrite.
  destruct (room b _ _ _ (Z.of_nat (length data)) Hv ltac:(lia) Hw1) as (old & post' & -> & Hl).
  destruct (put_view b pre c old post' data Hv ltac:(lia)) as (l & -> & Hll & Hput). rewrite !bind_ok.
  unfold hasWritten. assert (writable_size (set_buffer b l) = writable_size b) as Ewr
    by (unfold writable_size, buf_size; simpl; by rewrite Hll).
  rewrite Ewr, cassert_true, bind_ok by (by apply Z.leb_le). pose proof Hv as [Hb Hr Hw H0 Hs].
  destruct (bi_sizes b _ _ _ Hv) as (_ & _ & Esz). rewrite length_app in Esz. unfold kMaxBuf in *.
  set (b' := set_write _ _). assert (buf_is b' pre (c ++ data) post') as Hv'.
  { apply Hput; simpl; [done|]. rewrite uN_small; [done|]. lia. }
  rewrite (check_ok b' _ _ _ Hv'), bind_ok by (simpl; lia). apply runs_ok.
  split_and!; [|done|unfold buf_size; simpl; by rewrite Hll]. split; [simpl; lia|by exists pre, post'].
Qed.

Lemma unwrite_spec b c data : contents b (c ++ data) →
  runs (unwrite b (Z.of_nat (length data))) (λ b', contents b' c ∧ prepend_size_ b' = prepend_size_ b ∧ buf_size b' = buf_size b).
Proof.
  intros (Hp & pre & post & Hv). pose proof Hv as [Hb Hr Hw H0 Hs].
  destruct (bi_sizes b _ _ _ Hv) as (Er & _ & Esz). rewrite length_app in *. unfold unwrite, kMaxBuf in *. rewrite Er.
  rewrite cassert_true, bind_ok by (apply Z.leb_le; lia). set (b' := set_write _ _).
  assert (buf_is b' pre c (data ++ post)) as Hv'.
  { split; simpl; [by rewrite Hb, <- !app_assoc|done|rewrite Hw, uN_small by lia; lia|done|done]. }
  rewrite (check_ok b' _ _ _ Hv'), bind_ok by (simpl; lia). apply runs_ok.
  split; [|done]. split; [simpl; lia|by exists pre, (data ++ post)].
Qed.
End view.

(** Where there is room, the bytes are put behind the contents in place. *)
Lemma append_fits b pre c post data : buf_is b pre c post → prepend_size_ b ≤ read_index_ b → (length data ≤ length post)%nat →
  ∃ b', append b data = Ok b' ∧ buf_is b' pre (c ++ data) (drop (length data) post) ∧ prepend_size_ b' = prepend_size_ b.
Proof.
  intros Hv Hp Hl. destruct (bi_sizes b _ _ _ Hv) as (_ & Ew & Esz). unfold append, appendImp, ensure_appendable. rewrite Ew.
  rewrite (proj2 (Z.ltb_ge _ _)), bind_ok, Ew, cassert_true, bind_ok, (check_ok _ _ _ _ Hv Hp), !bind_ok by (lia || (apply Z.leb_le; lia)).
  pose proof Hv as Hv'. rewrite <- (take_drop (length data) post) in Hv'. destruct (put_view b pre c _ _ data Hv' ltac:(rewrite length_take; lia)) as (l & -> & Hll & Hput).
  rewrite bind_ok. unfold move_write_index. assert (writable_size (set_buffer b l) = writable_size b) as -> by (unfold writable_size, buf_size; simpl; by rewrite Hll).
  rewrite Ew, cassert_true, bind_ok by (apply Z.leb_le; lia). eexists. split; [done|]. split; [|done]. pose proof Hv as [_ Hr Hw H0 Hs].
  unfold kMaxBuf in *. apply Hput; simpl; [done|]. rewrite uN_small; [done|]. lia.
Qed.
