(* ===== verification/IoBufSpec.v ===== *)
(** IoBufSpec: the theorems on IoBuf. *)
From Stdlib Require Import Ascii.
From S2P Require Import Prelude IoBuf IoBufInv.
Local Open Scope Z_scope.

(** The operations of the users of a buffer. [DoFill] is a read from the socket
    after [ensureWritableBytes], announced with [hasWritten]. *)
Inductive buf_op : Set :=
  | DoAppend (data : list ascii)
  | DoFill (data : list ascii)
  | DoConsume (n : nat)
  | DoUnwrite (n : nat).

Definition run_op (o : buf_op) (b : IoBuf) : res IoBuf :=
  match o with
  | DoAppend d => append b d
  | DoFill d => b ← ensureWritableBytes b (Z.of_nat (length d)); b ← fill b d; hasWritten b (Z.of_nat (length d))
  | DoConsume n => consume b (Z.of_nat n)
  | DoUnwrite n => unwrite b (Z.of_nat n)
  end.

(** The same on a queue of bytes. *)
Definition spec_op (o : buf_op) (c : list ascii) : option (list ascii) :=
  match o with
  | DoAppend d | DoFill d => Some (c ++ d)
  | DoConsume n => if (n <=? length c)%nat then Some (drop n c) else None
  | DoUnwrite n => if (n <=? length c)%nat then Some (take (length c - n) c) else None
  end.
Definition op_bytes (o : buf_op) : Z :=
  match o with DoAppend d | DoFill d => Z.of_nat (length d) | _ => 0 end.

Fixpoint spec_ops (os : list buf_op) (c : list ascii) : option (list ascii) :=
  match os with [] => Some c | o :: os' => c' ← spec_op o c; spec_ops os' c' end.
Fixpoint ops_bytes (os : list buf_op) : Z :=
  match os with [] => 0 | o :: os' => op_bytes o + ops_bytes os' end.

Lemma op_bytes_nonneg o : 0 ≤ op_bytes o.
Proof. destruct o; simpl; lia. Qed.

Lemma run_op_spec o b c c' : contents b c → spec_op o c = Some c' → room_for b (op_bytes o) →
  runs (run_op o b) (λ b', contents b' c' ∧ prepend_size_ b' = prepend_size_ b ∧ buf_size b' ≤ buf_size b + op_bytes o).
Proof.
  intros Hc Hs Hroom. destruct o as [d|d|n|n]; cbn [run_op spec_op op_bytes] in *.
  - injection Hs as <-. by apply append_spec.
  - injection Hs as <-. change (ensureWritableBytes b) with (ensure_appendable b).
    rbind (ensure_spec b c (Z.of_nat (length d)) Hc ltac:(lia) Hroom).
    intros b1 (Hc1 & Hp1 & Hw1 & Hs1). eapply runs_mono; [by apply (fill_spec b1 c d)|].
    intros b2 (Hc2 & Hp2 & Hs2). split_and!; [done|congruence|lia].
  - destruct (Nat.leb_spec n (length c)) as [Hn|]; [|done]. injection Hs as <-.
    rewrite <- (take_drop n c) in Hc. replace (Z.of_nat n) with (Z.of_nat (length (take n c))) by (rewrite length_take; lia).
    eapply runs_mono; [by eapply move_read_spec|]. intros b' (? & ? & ?). split_and!; [done..|]. lia.
  - destruct (Nat.leb_spec n (length c)) as [Hn|]; [|done]. injection Hs as <-.
    rewrite <- (take_drop (length c - n) c) in Hc.
    replace (Z.of_nat n) with (Z.of_nat (length (drop (length c - n) c))) by (rewrite length_drop; lia).
    eapply runs_mono; [by eapply unwrite_spec|]. intros b' (? & ? & ?). split_and!; [done..|lia].
Qed.

(** (C17) A buffer implements a queue of bytes: every sequence of appends, reads
    from the socket, consumptions and undone writes that a queue allows runs
    without a failed assertion or an access outside the vector, and leaves the
    bytes of the queue, while the added bytes fit into memory. *)
Theorem io_buf_refines os b c c' : contents b c → spec_ops os c = Some c' → room_for b (ops_bytes os) →
  runs (rfold run_op os b) (λ b', contents b' c' ∧ readView b' = Ok c').
Proof.
  revert b c. induction os as [|o os IH]; intros b c Hc Hs Hroom; cbn [spec_ops rfold ops_bytes] in *.
  - injection Hs as <-. apply runs_ok. split; [done|]. destruct Hc as (_ & pre & post & Hv). by eapply read_view.
  - apply bind_Some in Hs as (c1 & Hs1 & Hs). pose proof (op_bytes_nonneg o).
    assert (0 ≤ ops_bytes os) by (clear; induction os as [|o os]; simpl; [lia|]; pose proof (op_bytes_nonneg o); lia).
    unfold room_for in *. rbind (run_op_spec o b c c1 Hc Hs1); [unfold room_for; lia|].
    intros b1 (Hc1 & Hp1 & Hsz1). eapply IH; try done. unfold room_for. lia.
Qed.

Lemma check_fails b : read_index_ b < prepend_size_ b → check_index_validity b = Fault AssertFailed.
Proof. intros Hlt. unfold check_index_validity, cassert. by rewrite (proj2 (Z.leb_gt _ _) Hlt). Qed.

(** Prepending puts the bytes in front of the contents; the read index then
    lies inside the prepend area, where the class forbids it: appending anything,
    announcing a read and consuming less than what was prepended all abort. *)
Theorem prepend_breaks_checks b c data : contents b c → (0 < length data)%nat →
  Z.of_nat (length data) ≤ prepend_size_ b → read_index_ b = prepend_size_ b →
  runs (prepend b data) (λ b', readView b' = Ok (data ++ c) ∧
    (∀ d, append b' d = Fault AssertFailed) ∧ (∀ n, hasWritten b' n = Fault AssertFailed) ∧
    (∀ n, 0 ≤ n < Z.of_nat (length data) → consume b' n = Fault AssertFailed)).
Proof.
  intros (_ & pre & post & Hv) Hpos Hle Hrp. pose proof Hv as [Hb Hr Hw H0 Hs]. unfold prepend, prependable_size.
  destruct (bi_sizes b _ _ _ Hv) as (_ & _ & Esz). unfold kMaxBuf in *.
  rewrite cassert_true, bind_ok by (apply Z.leb_le; lia).
  destruct (split_at pre (length pre - length data)) as (p1 & p2 & -> & Hl); [lia|]. rewrite length_app in *.
  assert (u64 (read_index_ b - Z.of_nat (length data)) = Z.of_nat (length p1)) as Eri by (rewrite Hr, uN_small; lia).
  cbn [buffer_ read_index_ set_read]. rewrite Eri, Hb, <- app_assoc, write_at_ok by lia. rewrite bind_ok. apply runs_ok.
  set (b' := set_buffer _ _).
  assert (buf_is b' p1 (data ++ c) post) as Hv'.
  { split; simpl; [by rewrite <- app_assoc|done|rewrite Hw, length_app; lia|done|].
    unfold buf_size, kMaxBuf. simpl. rewrite !length_app. lia. }
  assert (check_index_validity b' = Fault AssertFailed) as Hck by (apply check_fails; simpl; lia).
  destruct (bi_sizes b' _ _ _ Hv') as (Er' & Ew' & _). rewrite length_app in Er'.
  split_and!; [by eapply read_view|..].
  - intros d. unfold append, appendImp, ensure_appendable, expend. rewrite Hck.
    destruct (writable_size b' <? _) eqn:E; [done|]. apply Z.ltb_ge in E.
    rewrite bind_ok, cassert_true, bind_ok by (by apply Z.leb_le). by rewrite Hck.
  - intros n. unfold hasWritten. destruct (n <=? writable_size b'); [|done]. cbn [cassert]. rewrite bind_ok.
    by rewrite check_fails by (simpl; lia).
  - intros n Hn. unfold consume, move_read_index. rewrite Er'. rewrite cassert_true, bind_ok by (apply Z.leb_le; lia).
    destruct (n <? _); [|by rewrite Hck]. rewrite check_fails; [done|]. simpl. rewrite uN_small; lia.
Qed.

(** Shrinking keeps the contents when the read index is at the prepend
    area; when more bytes than the reserve lie in front of the contents, the
    vector ends before the write index and the contents cannot be read. *)
Theorem shrink_spec b c reserve : contents b c → 0 ≤ reserve → room_for b reserve →
  (read_index_ b = prepend_size_ b → contents (shrink b reserve) c) ∧
  (prepend_size_ b + reserve < read_index_ b → (0 < length c)%nat → readView (shrink b reserve) = Fault OutOfBounds).
Proof.
  intros (Hp & pre & post & Hv) H0 Hroom. pose proof Hv as [Hb Hr Hw H1 Hs].
  destruct (bi_sizes b _ _ _ Hv) as (Er & Ew & Esz). unfold room_for, kMaxBuf in *.
  set (n := Z.of_nat (length c) + reserve + prepend_size_ b).
  assert (shrink b reserve = set_buffer b (resize (buffer_ b) n)) as ->.
  { unfold shrink, n. rewrite Er, uN_small by lia. done. }
  assert (Z.of_nat (length (resize (buffer_ b) n)) = n) as Hlen.
  { unfold resize. rewrite length_app, length_take, length_replicate. lia. }
  split.
  - intros Hrp. split; [simpl; lia|]. exists pre, (drop (length pre + length c) (resize (buffer_ b) n)).
    assert (take (length pre + length c) (resize (buffer_ b) n) = pre ++ c) as Ht.
    { unfold resize. rewrite take_app_le by (rewrite length_take, Hb, !length_app; lia).
      rewrite take_take, Nat.min_l by lia. rewrite Hb, app_assoc. rewrite <- length_app. apply take_app_length. }
    split; simpl; try done.
    + rewrite app_assoc, <- Ht. by rewrite take_drop.
    + unfold buf_size, kMaxBuf. simpl. lia.
  - intros Hgap Hc. unfold readView, read_range. simpl. rewrite Hlen.
    assert ((write_index_ b <=? n) = false) as -> by (apply Z.leb_gt; lia). by rewrite andb_false_r.
Qed.

(** The offset of the first occurrence of the border, or the end. *)
Lemma search_spec border l : (search border l ≤ length l)%nat ∧
  (∀ i, (i < search border l)%nat → starts_with border (drop i l) = false) ∧
  ((search border l < length l)%nat → starts_with border (drop (search border l) l) = true).
Proof.
  induction l as [|x l (IH1 & IH2 & IH3)]; cbn [search].
  - destruct (starts_with border []) eqn:E; (split_and!; simpl; [lia|lia|lia]).
  - destruct (starts_with border (x :: l)) eqn:E.
    + split_and!; [simpl; lia|lia|done].
    + split_and!; [simpl; lia| |].
      * intros [|i] Hi; [done|]. simpl. apply IH2. lia.
      * intros Hl. simpl. apply IH3. simpl in Hl. lia.
Qed.
