(* ===== verification/Descriptors.v ===== *)
(** Descriptors: the socket the server listens on, [main], and the descriptors that
    sockets own.
    Source: src/net/base/fd_wrapper.hpp, src/net/base/socket.hpp and socket.cpp,
    src/main.cpp, src/src/network/redis_server.hpp.

    The answers of the kernel are parameters: the table is the set of descriptors
    that are open. *)
From Stdlib Require Import String.
From stdpp Require Import gmap strings pretty.
From S2P Require Import Prelude.
Local Open Scope Z_scope.

(** What [socket], [setsockopt], [bind] and [listen] answer. *)
Record Answers : Set := mkAnswers { socket_ : option Z; setsockopt_ : bool; bind_ : bool; listen_ : bool }.

(** The result, and the name that [perror] is given. *)
Definition ListenFd (a : Answers) (open : gset Z) : gset Z * Z * option string :=
  match socket_ a with
  | None => (open, -1, Some "socket"%string)
  | Some fd =>
      let open := {[fd]} ∪ open in
      if negb (setsockopt_ a) then (open ∖ {[fd]}, -1, Some "setsockopt"%string) else
      if negb (bind_ a) then (open ∖ {[fd]}, -1, Some "bind"%string) else
      if negb (listen_ a) then (open ∖ {[fd]}, -1, Some "listen"%string) else (open, fd, None)
  end.

(** Nothing stays open when it fails, and its message names the call that did. *)
Theorem ListenFd_spec a open : (∀ fd, socket_ a = Some fd → 0 ≤ fd ∧ fd ∉ open) →
  let '(open', fd, msg) := ListenFd a open in
  if bool_decide (is_Some (socket_ a)) && setsockopt_ a && bind_ a && listen_ a
  then socket_ a = Some fd ∧ open' = {[fd]} ∪ open ∧ msg = None
  else fd = -1 ∧ open' = open ∧ is_Some msg.
Proof.
  intros Hs. unfold ListenFd. destruct a as [[fd|] [] [] []]; cbn; try done.
  all: destruct (Hs fd eq_refl) as [_ Hout]; split_and!; [done|set_solver|done].
Qed.

(** [AddressToString]: [inet_ntop] is a parameter; the port is in network order. *)
Definition ntohs (port : Z) : Z := u16 (Z.lor (Z.shiftl port 8) (Z.shiftr port 8)).
Definition AddressToString (inet_ntop : Z → string) (ip port : Z) : string :=
  (inet_ntop ip ++ ":" ++ pretty (ntohs port))%string.

(** [UringSocket]: [close(-1)] does nothing. *)
Definition close (fd : Z) (open : gset Z) : gset Z := open ∖ {[fd]}.
Definition Close (fd : Z) (open : gset Z) : gset Z * Z := (close fd open, -1).
Definition destroy_socket (fd : Z) (open : gset Z) : gset Z := if negb (fd =? -1) then close fd open else open.

(** A socket that was closed closes nothing in its destructor, although its number
    may belong to another connection by then. *)
Theorem closed_once fd open others : fd ∈ open → -1 ∉ open →
  let '(open1, fd1) := Close fd open in fd ∉ open1 ∧ destroy_socket fd1 (others ∪ open1) = others ∪ open1.
Proof. intros Hin Hneg. unfold Close, close, destroy_socket. cbn. split; [set_solver|done]. Qed.

(** ** The accept loop, and [main] *)

(** What the loop does with an answer of [AsyncAccept]; the descriptor 0 is neither
    served nor closed. *)
Inductive accepted : Set := NewSession (fd : Z) | Ignored | Warned.
Definition accept_result (fd : Z) : accepted := if 0 <? fd then NewSession fd else if fd <? 0 then Warned else Ignored.

Section main.
(** The answer to the [i]-th accept on a descriptor. *)
Context (accept : nat → gset Z → Z → Z).

Definition accept_loop (n : nat) (listen_fd : Z) (open : gset Z) : list accepted := (λ i, accept_result (accept i open listen_fd)) <$> seq 0 n.

(** [main] up to the first [n] connections; the code it returns when there is no
    directory for the log. *)
Definition main (mkdir_ok exists_ : bool) (a : Answers) (n : nat) (open : gset Z) : Z + list accepted :=
  if negb mkdir_ok && negb exists_ then inl 1
  else let '(open, listen_fd, _) := ListenFd a open in inr (accept_loop n listen_fd open).

(** When the server cannot listen it starts all the same, and all that it ever does
    is to fail to accept. *)
Theorem main_serves_nobody exists_ a n open : (∀ i open fd, fd ∉ open → accept i open fd < 0) → -1 ∉ open →
  (∀ fd, socket_ a = Some fd → 0 ≤ fd ∧ fd ∉ open) → socket_ a = None ∨ bind_ a = false ∨ listen_ a = false →
  main true exists_ a n open = inr (replicate n Warned).
Proof.
  intros Hacc Hneg Hs Hfail. unfold main. cbn. pose proof (ListenFd_spec a open Hs) as Hl. destruct (ListenFd a open) as [[open' fd] msg].
  assert (bool_decide (is_Some (socket_ a)) && setsockopt_ a && bind_ a && listen_ a = false) as E
    by (destruct Hfail as [-> |[-> | ->]]; rewrite ?andb_false_r; done).
  rewrite E in Hl. destruct Hl as (-> & -> & _). f_equal. unfold accept_loop. rewrite <- (length_seq n 0) at 2.
  induction (seq 0 n) as [|i l IH]; [done|]. cbn. rewrite IH. f_equal. pose proof (Hacc i open (-1) Hneg). unfold accept_result.
  rewrite (proj2 (Z.ltb_ge _ _)), (proj2 (Z.ltb_lt _ _)) by lia. done.
Qed.
End main.
