(* ===== verification/SessionIo.v ===== *)
(** SessionIo: the write loop of a session with its suspensions, and the end of a
    session.
    Source: src/src/network/redis_server.hpp (SendImp, DoWrite, DoRead),
    src/net/base/socket.hpp and socket.cpp.

    [Server] runs [DoWrite] in one piece. Here the coroutine is suspended in each
    [AsyncWrite]: the kernel reads the bytes at some moment until the completion, and what
    the session does in between can change them. The operations queue of the event
    loop has room. *)
From Stdlib Require Import Ascii.
From Stdlib Require Import Ascii String.
From S2P Require Import Prelude IoBuf IoBufInv.
Local Open Scope Z_scope.

(** A [WriteAwaitable] whose coroutine is suspended: the range it was given, in
    which storage of the buffer, whether there was a descriptor, and the result of
    the kernel. *)
Record Writer : Set := mkWriter { w_from : Z; w_len : Z; w_store : nat; w_fd : bool; w_result : option Z }.

(** [store_] counts how often the vector of the buffer got new storage; [out_] is
    what the kernel has taken; [fd_] is the descriptor or -1. *)
Record Io : Set := mkIo {
  SendBuf_ : IoBuf;
  store_ : nat;
  fd_ : Z;
  reading_ : bool;
  writers_ : list Writer;
  out_ : list ascii;
}.

Definition new_io (fd : Z) : Io := mkIo (new_buf 1024 8) 0 fd true [] [].

Definition set_writers (s : Io) (ws : list Writer) : Io := mkIo (SendBuf_ s) (store_ s) (fd_ s) (reading_ s) ws (out_ s).
Definition set_buf (s : Io) (b : IoBuf) (n : nat) : Io := mkIo b n (fd_ s) (reading_ s) (writers_ s) (out_ s).
Definition set_out (s : Io) (l : list ascii) : Io := mkIo (SendBuf_ s) (store_ s) (fd_ s) (reading_ s) (writers_ s) l.

Definition EBADF : Z := 9.

Definition AsyncWrite (s : Io) : Writer :=
  mkWriter (BeginRead (SendBuf_ s)) (readable_size (SendBuf_ s)) (store_ s) (negb (fd_ s =? -1)) None.

(** [while (SendBuf_.readable_size())]: the write the loop suspends in. *)
Definition loop_head (s : Io) : list Writer := if readable_size (SendBuf_ s) =? 0 then [] else [AsyncWrite s].

(** The task of [SendImp]: [moved] says whether a vector that grows gets new
    storage. *)
Definition on_send (reply : list ascii) (moved : bool) (s : Io) : res Io :=
  b ← append (SendBuf_ s) reply;
  let grown := buf_size (SendBuf_ s) <? buf_size b in
  let s := set_buf s b (if grown && moved then S (store_ s) else store_ s) in
  Ok (set_writers s (writers_ s ++ loop_head s)).

(** The kernel serves the write of the [j]-th coroutine: [r] bytes of it, or an error. *)
Definition on_kernel (j : nat) (r : Z) (s : Io) : res Io :=
  match writers_ s !! j with
  | Some (mkWriter from len store fd None) =>
      let result s r := Ok (set_writers s (<[j := mkWriter from len store fd (Some r)]> (writers_ s))) in
      if negb fd then result s (- EBADF) else
      if r <=? 0 then result s r else
      _ ← (if (store =? store_ s)%nat then Ok tt else Fault UseAfterFree);
      let n := Z.min r len in
      data ← read_range (buffer_ (SendBuf_ s)) from (from + n);
      result (set_out s (out_ s ++ data)) n
  | _ => Ok s
  end.

(** The [j]-th coroutine is resumed with the result of its write. *)
Definition on_written (j : nat) (s : Io) : res Io :=
  match writers_ s !! j with
  | Some (mkWriter _ _ _ _ (Some wr)) =>
      b ← (if 0 <? wr then '(b, _) ← retrieve (SendBuf_ s) wr; Ok b else Ok (SendBuf_ s));
      let s := set_buf s b (store_ s) in
      Ok (set_writers s (take j (writers_ s) ++ loop_head s ++ drop (S j) (writers_ s)))
  | _ => Ok s
  end.

(** [DoRead] is resumed with the result [r] of a read; requests are the matter of
    [Server]. An error is written to the log and the next read is started. *)
Definition Close (s : Io) : Io := mkIo (SendBuf_ s) (store_ s) (-1) (reading_ s) (writers_ s) (out_ s).
Definition on_read_result (r : Z) (s : Io) : Io :=
  if negb (reading_ s) then s else
  if r =? 0 then let s := Close s in mkIo (SendBuf_ s) (store_ s) (fd_ s) false (writers_ s) (out_ s) else s.

Inductive event : Set := Send (reply : list ascii) (moved : bool) | Kernel (j : nat) (r : Z) | Written (j : nat) | ReadDone (r : Z).

Definition exec (e : event) (s : Io) : res Io :=
  match e with
  | Send reply moved => on_send reply moved s
  | Kernel j r => on_kernel j r s
  | Written j => on_written j s
  | ReadDone r => Ok (on_read_result r s)
  end.
Definition exec_all (es : list event) (s : Io) : res Io := rfold exec es s.

(** The first coroutine goes round once. *)
Definition round (r : Z) (s : Io) : res Io := s ← on_kernel 0 r s; on_written 0 s.

(** ** One reply at a time *)

(** A reply is put out only when the one before has been written. *)
Fixpoint disciplined (es : list event) (s : Io) : Prop :=
  match es with
  | [] => True
  | e :: es => match e with Send _ _ => writers_ s = [] | _ => True end ∧ ∀ s', exec e s = Ok s' → disciplined es s'
  end.

Definition reply_of (e : event) : list ascii := match e with Send r _ => r | _ => [] end.
Definition replies (es : list event) : list ascii := es ≫= reply_of.

(** What is still to be sent is [rest]; the buffer holds at most [m] bytes. *)
Definition write_state (s : Io) (rest : list ascii) : Prop :=
  match writers_ s with
  | [] => contents (SendBuf_ s) [] ∧ rest = []
  | [w] => ∃ c, contents (SendBuf_ s) c ∧ c ≠ [] ∧ w_from w = read_index_ (SendBuf_ s) ∧ w_len w = Z.of_nat (length c) ∧
      w_store w = store_ s ∧ (w_fd w = false → fd_ s = -1) ∧
      match w_result w with
      | Some wr => if 0 <? wr then wr ≤ Z.of_nat (length c) ∧ rest = drop (Z.to_nat wr) c else rest = c
      | None => rest = c
      end
  | _ => False
  end.

Record io_inv (s : Io) (all : list ascii) : Prop := {
  io_state : ∃ rest, write_state s rest ∧ all = out_ s ++ rest;
  io_room : prepend_size_ (SendBuf_ s) = 8 ∧ buf_size (SendBuf_ s) ≤ 1032 + Z.of_nat (length all);
}.

(** The loop is entered with [c] in the buffer. *)
Lemma loop_head_spec s c : contents (SendBuf_ s) c → write_state (set_writers s (loop_head s)) c.
Proof.
  intros Hc. pose proof Hc as (Hp & pre & post & Hv). destruct (bi_sizes _ _ _ _ Hv) as (Er & _ & _).
  unfold write_state, loop_head. rewrite Er. destruct (Z.eqb_spec (Z.of_nat (length c)) 0) as [E|Hne]; cbn [writers_ set_writers SendBuf_].
  - assert (c = []) as -> by (apply length_zero_iff_nil; lia). done.
  - exists c. unfold AsyncWrite, BeginRead. cbn [w_from w_len w_store w_fd w_result fd_ store_ set_writers]. rewrite Er.
    split_and!; try done; [intros ->; done|]. intros E%negb_false_iff. by apply Z.eqb_eq.
Qed.

Lemma on_send_spec s all reply moved : io_inv s all → writers_ s = [] → Z.of_nat (length all + length reply) < 2 ^ 61 →
  runs (on_send reply moved s) (λ s', io_inv s' (all ++ reply)).
Proof.
  intros [(rest & Hst & ->) [Hp Hb]] Hw Hlen. unfold write_state in Hst. rewrite Hw in Hst. destruct Hst as [Hc ->]. rewrite app_nil_r in *.
  unfold on_send. rbind (append_spec (SendBuf_ s) [] reply Hc); [unfold room_for, kMaxBuf; lia|]. intros b (Hc' & Hp' & Hb').
  cbn [app] in Hc'. apply runs_ok. set (s1 := set_buf s b _). assert (writers_ s1 = []) as -> by done. cbn [app]. split.
  - exists reply. split; [by apply loop_head_spec|done].
  - cbn. rewrite length_app. split; [congruence|lia].
Qed.

Lemma on_kernel_spec s all j r : io_inv s all → runs (on_kernel j r s) (λ s', io_inv s' all ∧ SendBuf_ s' = SendBuf_ s ∧ fd_ s' = fd_ s).
Proof.
  intros HI. pose proof HI as [(rest & Hst & Eall) Hroom]. unfold on_kernel. destruct (writers_ s !! j) as [[from len store fd [wr|]]|] eqn:Ej; try by apply runs_ok.
  unfold write_state in Hst. destruct (writers_ s) as [|w [|w2 ws]] eqn:Ews; [done| |done]. destruct j; [|done]. injection Ej as ->.
  destruct Hst as (c & Hc & Hne & Ef & El & Est & Hfd & Hr). cbn [w_from w_len w_store w_fd w_result] in *. subst rest.
  assert (∀ s' wr rest', SendBuf_ s' = SendBuf_ s → store_ s' = store_ s → fd_ s' = fd_ s → writers_ s' = [mkWriter from len store fd (Some wr)] →
    all = out_ s' ++ rest' → (if 0 <? wr then wr ≤ Z.of_nat (length c) ∧ rest' = drop (Z.to_nat wr) c else rest' = c) →
    io_inv s' all ∧ SendBuf_ s' = SendBuf_ s ∧ fd_ s' = fd_ s) as Hdone.
  { intros s' wr rest' E1 E2 E3 E4 E5 Hwr. split; [|done]. split; [|by rewrite E1]. exists rest'. split; [|done]. unfold write_state. rewrite E4.
    exists c. cbn [w_from w_len w_store w_fd w_result]. rewrite E1, E2, E3. done. }
  destruct fd; cbn [negb].
  - destruct (Z.leb_spec r 0) as [Hneg|Hpos]; [apply runs_ok; apply (Hdone _ r c); try done; first [by rewrite (proj2 (Z.ltb_ge 0 r))|cbn; by rewrite Ews]|].
    rewrite Est, Nat.eqb_refl, bind_ok. pose proof Hc as (_ & pre & post & [Hb Hri _ _ _]). set (n := Z.min r len).
    assert (c = take (Z.to_nat n) c ++ drop (Z.to_nat n) c) as Ec by (by rewrite take_drop).
    assert (read_range (buffer_ (SendBuf_ s)) from (from + n) = Ok (take (Z.to_nat n) c)) as ->.
    { pose proof (read_range_ok pre (take (Z.to_nat n) c) (drop (Z.to_nat n) c ++ post)) as Hrr. rewrite (app_assoc (take _ c)), take_drop in Hrr.
      rewrite length_take in Hrr. rewrite Hb, Ef, Hri. replace n with (Z.of_nat (Z.to_nat n `min` length c)) at 1 by lia. exact Hrr. }
    rewrite bind_ok. apply runs_ok. apply (Hdone _ n (drop (Z.to_nat n) c)); try done.
    + cbn. by rewrite Ews, Est.
    + cbn. by rewrite <- app_assoc, take_drop.
    + assert (0 < n) by (destruct c; [done|simpl in *; lia]). rewrite (proj2 (Z.ltb_lt 0 n)) by done. split; [lia|done].
  - apply runs_ok. by apply (Hdone _ (- EBADF) c).
Qed.

Lemma on_written_spec s all j : io_inv s all → runs (on_written j s) (λ s', io_inv s' all ∧ fd_ s' = fd_ s).
Proof.
  intros HI. pose proof HI as [(rest & Hst & Eall) [Hp Hb]]. unfold on_written. destruct (writers_ s !! j) as [[from len store fd [wr|]]|] eqn:Ej; try by apply runs_ok.
  unfold write_state in Hst. destruct (writers_ s) as [|w [|w2 ws]] eqn:Ews; [done| |done]. destruct j; [|done]. injection Ej as ->.
  destruct Hst as (c & Hc & Hne & Ef & El & Est & Hfd & Hr). cbn [w_from w_len w_store w_fd w_result] in *.
  assert (runs (if 0 <? wr then '(b, _) ← retrieve (SendBuf_ s) wr; Ok b else Ok (SendBuf_ s)) (λ b, contents b rest ∧ prepend_size_ b = 8 ∧ buf_size b = buf_size (SendBuf_ s))) as Hret.
  { destruct (Z.ltb_spec 0 wr) as [Hpos|_]; [|subst rest; by apply runs_ok]. destruct Hr as [Hle ->]. pose proof Hc as (_ & pre & post & Hv).
    destruct (bi_sizes _ _ _ _ Hv) as (Er & _ & _). unfold retrieve. rewrite Er, (proj2 (Z.leb_le _ _)) by done.
    assert (wr = Z.of_nat (length (take (Z.to_nat wr) c))) as Ewr by (rewrite length_take; lia). rewrite Ewr at 1.
    destruct (move_read_spec (SendBuf_ s) (drop (Z.to_nat wr) c) (take (Z.to_nat wr) c)) as (b1 & -> & Hc1 & Hp1 & Hb1); [by rewrite take_drop|].
    rewrite !bind_ok. apply runs_ok. split_and!; [done|congruence|done]. }
  rbind Hret. intros b (Hcb & Hpb & Hbb). apply runs_ok. set (s1 := set_buf s b _).
  assert (writers_ s1 = [mkWriter from len store fd (Some wr)]) as -> by exact Ews. cbn [take drop app]. rewrite app_nil_r.
  split; [|done]. split; [|cbn; split; [done|lia]]. exists rest. split; [by apply loop_head_spec|done].
Qed.

Lemma on_read_inv s all r : io_inv s all → io_inv (on_read_result r s) all.
Proof.
  intros HI. unfold on_read_result. destruct (reading_ s); [|done]. cbn [negb]. destruct (r =? 0); [|done].
  destruct HI as [(rest & Hst & Eall) Hroom]. split; [|done]. exists rest. split; [|done]. unfold write_state in *. cbn [writers_ Close SendBuf_ store_ fd_].
  destruct (writers_ s) as [|w [|w2 ws]]; [done| |done]. destruct Hst as (c & H1 & H2 & H3 & H4 & H5 & H6 & H7). exists c. done.
Qed.

Lemma io_exec_spec e s all : io_inv s all → match e with Send _ _ => writers_ s = [] | _ => True end → Z.of_nat (length all + length (reply_of e)) < 2 ^ 61 →
  runs (exec e s) (λ s', io_inv s' (all ++ reply_of e)).
Proof.
  intros HI Hd Hlen. destruct e as [reply moved|j r|j|r]; cbn [exec reply_of] in *; rewrite ?app_nil_r.
  - by apply on_send_spec.
  - eapply runs_mono; [by apply (on_kernel_spec s all j r)|]. by intros s' [? _].
  - eapply runs_mono; [by apply (on_written_spec s all j)|]. by intros s' [? _].
  - apply runs_ok. by apply on_read_inv.
Qed.

Lemma io_exec_all_spec es : ∀ s all, io_inv s all → disciplined es s → Z.of_nat (length all + length (replies es)) < 2 ^ 61 →
  runs (exec_all es s) (λ s', io_inv s' (all ++ replies es)).
Proof.
  induction es as [|e es IH]; intros s all HI Hd Hlen; unfold exec_all; cbn [rfold].
  - apply runs_ok. cbn. by rewrite app_nil_r.
  - destruct Hd as [He Hd]. change (replies (e :: es)) with (reply_of e ++ replies es) in *. rewrite length_app in Hlen. destruct (io_exec_spec e s all HI He ltac:(lia)) as (s' & E & HI'). rewrite E, bind_ok.
    rewrite app_assoc. apply IH; [done|by apply Hd|]. rewrite length_app. lia.
Qed.

Lemma new_io_inv fd : io_inv (new_io fd) [].
Proof.
  split; [|by vm_compute]. exists []. split; [|done]. split; [|done]. by apply new_buf_contents.
Qed.

(** No result is waiting to be looked at. *)
Definition unserved (s : Io) : Prop := Forall (λ w, w_result w = None) (writers_ s).

Lemma loop_head_unserved s : Forall (λ w, w_result w = None) (loop_head s).
Proof. unfold loop_head. destruct (readable_size (SendBuf_ s) =? 0); repeat constructor. Qed.

(** A round of the loop: afterwards a write that is under way is a new one; and the
    kernel took something, when it was asked. *)
Lemma write_round_spec s all r : io_inv s all → fd_ s ≠ -1 → 0 < r →
  runs (round r s) (λ s', io_inv s' all ∧ fd_ s' = fd_ s ∧ unserved s' ∧ (length (out_ s) ≤ length (out_ s'))%nat ∧
    (unserved s → writers_ s ≠ [] → (length (out_ s) < length (out_ s'))%nat)).
Proof.
  intros HI Hfd Hr. unfold round. pose proof HI as [(rest & Hst & Eall) _].
  assert ((writers_ s = [] ∧ True) ∨ ∃ w, writers_ s = [w]) as [[Ew _]|[w Ew]].
  { unfold write_state in Hst. destruct (writers_ s) as [|w [|w2 ws]]; [by left|right; by exists w|done]. }
  - unfold on_kernel. rewrite Ew. cbn [lookup list_lookup]. rewrite bind_ok. unfold on_written. rewrite Ew. cbn [lookup list_lookup]. apply runs_ok. split_and!; try done. unfold unserved. by rewrite Ew.
  - destruct (on_kernel_spec s all 0 r HI) as (s1 & E1 & HI1 & Eb & Ef). rewrite E1, bind_ok.
    destruct (on_written_spec s1 all 0 HI1) as (s2 & E2 & HI2 & Ef2). rewrite E2. apply runs_ok.
    assert (out_ s2 = out_ s1 ∧ unserved s2 ∧ (length (out_ s) ≤ length (out_ s1))%nat ∧ (unserved s → (length (out_ s) < length (out_ s1))%nat)) as (Eo & Hu & Hle & Hlt).
    { clear HI2 Ef2. unfold write_state in Hst. rewrite Ew in Hst. destruct Hst as (c & Hc & Hne & _ & El & _ & Hwfd & _). destruct w as [from len store fd res]. cbn in El, Hwfd.
      unfold on_kernel in E1. rewrite Ew in E1. cbn in E1. destruct res as [wr|].
      - injection E1 as <-. unfold on_written in E2. rewrite Ew in E2. cbn [lookup list_lookup] in E2. apply bind_ok_inv in E2 as (b & _ & E2). injection E2 as <-.
        split_and!; [done| |done|].
        + unfold unserved. cbn [writers_ set_writers take drop app]. change (writers_ (set_buf s b (store_ s))) with (writers_ s). rewrite Ew. cbn [drop]. rewrite app_nil_r. apply loop_head_unserved.
        + intros Hus. unfold unserved in Hus. rewrite Ew in Hus. apply Forall_cons in Hus as [Hus _]. done.
      - destruct fd; [|by specialize (Hwfd eq_refl)]. cbn [negb] in E1. rewrite (proj2 (Z.leb_gt r 0)) in E1 by done.
        destruct (store =? store_ s)%nat; [|done]. cbn [mbind res_bind] in E1. apply bind_ok_inv in E1 as (data & Hd & E1). injection E1 as <-.
        unfold on_written in E2. cbn in E2. rewrite Ew in E2. cbn in E2. apply bind_ok_inv in E2 as (b & _ & E2). injection E2 as <-.
        assert (length data = Z.to_nat (Z.min r len)) as Hdl.
        { unfold read_range in Hd. destruct ((0 <=? from) && (from <=? from + Z.min r len) && (from + Z.min r len <=? Z.of_nat (length (buffer_ (SendBuf_ s))))) eqn:Eg; [|done].
          injection Hd as <-. apply andb_true_iff in Eg as [[E3%Z.leb_le E4%Z.leb_le]%andb_true_iff E5%Z.leb_le]. rewrite length_take, length_drop. lia. }
        assert (0 < len) by (destruct c; [done|simpl in *; lia]).
        split_and!; [done| |cbn; rewrite length_app; lia|intros _; cbn; rewrite length_app; lia].
        unfold unserved. cbn [writers_ set_writers]. rewrite app_nil_r. apply loop_head_unserved. }
    rewrite Eo. split_and!; [done|congruence|done|done|]. intros ? _. by apply Hlt.
Qed.

(** As long as there is a descriptor and the kernel takes something each time,
    everything is sent. *)
Lemma rounds_flush rs : ∀ s all, io_inv s all → fd_ s ≠ -1 → unserved s → Forall (λ r, 0 < r) rs →
  (length all ≤ length (out_ s) + length rs)%nat → runs (rfold round rs s) (λ s', writers_ s' = [] ∧ out_ s' = all).
Proof.
  induction rs as [|r rs IH]; intros s all HI Hfd Hu Hr Hlen; cbn [rfold].
  - apply runs_ok. destruct HI as [(rest & Hst & ->) _]. rewrite length_app in Hlen. cbn in Hlen. assert (rest = []) as -> by (apply length_zero_iff_nil; lia).
    split; [|by rewrite app_nil_r]. unfold write_state, unserved in *. destruct (writers_ s) as [|w [|w2 ws]]; [done| |done].
    apply Forall_cons in Hu as [Hu _]. rewrite Hu in Hst. destruct Hst as (c & _ & Hne & _ & _ & _ & _ & E). by subst c.
  - apply Forall_cons in Hr as [Hr Hrs]. destruct (write_round_spec s all r HI Hfd Hr) as (s1 & E & HI1 & Ef & Hu1 & Hle & Hlt). rewrite E, bind_ok.
    apply IH; [done|congruence|done|done|]. cbn in Hlen. destruct (decide (writers_ s = [])) as [Ew|Hne]; [|specialize (Hlt Hu Hne); lia].
    destruct HI as [(rest & Hst & ->) _]. unfold write_state in Hst. rewrite Ew in Hst. destruct Hst as [_ ->]. rewrite app_nil_r. lia.
Qed.

(** (C33) When every reply is put out after the one before has been written, then
    whatever the kernel takes and reports, and even when the client closes its end,
    no byte is lost, repeated or read from storage that was given back: what was sent is
    a prefix of the replies in their order. While the descriptor is open, a kernel
    that takes something each time is soon handed all of them. *)
Theorem replies_in_order es fd : fd ≠ -1 → disciplined es (new_io fd) → Z.of_nat (length (replies es)) < 2 ^ 61 →
  runs (exec_all es (new_io fd)) (λ s, out_ s `prefix_of` replies es ∧ (writers_ s = [] → out_ s = replies es) ∧
    (fd_ s ≠ -1 → ∀ rs, Forall (λ r, 0 < r) rs → (length (replies es) < length rs)%nat →
      runs (rfold round rs s) (λ s', writers_ s' = [] ∧ out_ s' = replies es))).
Proof.
  intros Hfd Hd Hlen. eapply runs_mono; [apply (io_exec_all_spec es _ [] (new_io_inv fd) Hd); simpl; lia|]. cbn [app]. intros s HI.
  pose proof HI as [(rest & Hst & Eall) _]. split_and!; [by exists rest| |].
  - intros Ew. unfold write_state in Hst. rewrite Ew in Hst. destruct Hst as [_ ->]. by rewrite Eall, app_nil_r.
  - intros Hopen rs Hrs Hl. destruct rs as [|r rs]; [simpl in Hl; lia|]. apply Forall_cons in Hrs as [Hr Hrs]. cbn [rfold].
    destruct (write_round_spec s _ r HI Hopen Hr) as (s1 & E & HI1 & Ef & Hu1 & _ & _). rewrite E, bind_ok.
    apply rounds_flush; [done|congruence|done|done|]. cbn in Hl. lia.
Qed.

(** ** Two writes at once *)

(** The second reply starts a second coroutine, which sends what the first one is
    sending. *)
Definition overlap (a b : list ascii) : list event :=
  [Send a false; Send b false; Kernel 0 (Z.of_nat (length a)); Kernel 1 (Z.of_nat (length a + length b))].

Lemma on_kernel_all s j w c pre post : writers_ s !! j = Some w → w_result w = None → w_fd w = true → w_store w = store_ s →
  buffer_ (SendBuf_ s) = pre ++ c ++ post → w_from w = Z.of_nat (length pre) → w_len w = Z.of_nat (length c) → c ≠ [] →
  on_kernel j (Z.of_nat (length c)) s = Ok (set_writers (set_out s (out_ s ++ c)) (<[j := mkWriter (w_from w) (w_len w) (w_store w) true (Some (Z.of_nat (length c)))]> (writers_ s))).
Proof.
  intros Hj Hres Hfd Hst Hb Hf Hl Hne. destruct w as [from len store fd res]. cbn in *. subst. unfold on_kernel. rewrite Hj. cbn [negb].
  assert (0 < Z.of_nat (length c)) by (destruct c; [done|simpl; lia]). rewrite (proj2 (Z.leb_gt _ 0)) by done. rewrite Nat.eqb_refl, bind_ok, Z.min_id, Hb.
  by rewrite read_range_ok, bind_ok.
Qed.

(** (C34) A reply that is put out while the one before is still being written, which
    a client causes that sends its next request without having read the reply:
    the second coroutine of [DoWrite] sends the bytes of the first again. *)
Theorem overlap_repeats a b fd : fd ≠ -1 → a ≠ [] → b ≠ [] → Z.of_nat (length a + length b) ≤ 1024 →
  runs (exec_all (overlap a b) (new_io fd)) (λ s, out_ s = a ++ a ++ b ∧ length (writers_ s) = 2%nat).
Proof.
  intros Hfd Ha Hb Hlen. unfold exec_all, overlap. cbn [rfold exec].
  assert (∀ x s c w, contents (SendBuf_ s) c → prepend_size_ (SendBuf_ s) = 8 → buf_size (SendBuf_ s) = 1032 → read_index_ (SendBuf_ s) = 8 → fd_ s = fd → store_ s = 0%nat → x ≠ [] →
    Z.of_nat (length c + length x) ≤ 1024 → writers_ s = w → out_ s = [] →
    runs (on_send x false s) (λ s', contents (SendBuf_ s') (c ++ x) ∧ prepend_size_ (SendBuf_ s') = 8 ∧ buf_size (SendBuf_ s') = 1032 ∧ read_index_ (SendBuf_ s') = 8 ∧
      fd_ s' = fd ∧ store_ s' = 0%nat ∧ writers_ s' = w ++ [mkWriter 8 (Z.of_nat (length (c ++ x))) 0 true None] ∧ out_ s' = [])) as Hsend.
  { intros x s c w Hc Hp Hsz Hri Hf Hs0 Hx Hl Hw Ho. pose proof Hc as (_ & pre & post & Hv). destruct (bi_sizes _ _ _ _ Hv) as (_ & Ew & Esz).
    pose proof (bi_read _ _ _ _ Hv) as Hpre. destruct (append_fits (SendBuf_ s) pre c post x Hv) as (b' & E & Hv' & Hp'); [lia|lia|].
    unfold on_send. rewrite E, bind_ok. apply runs_ok. destruct (bi_sizes _ _ _ _ Hv') as (Er' & _ & _).
    assert (0 < Z.of_nat (length (c ++ x))) by (rewrite length_app; destruct x; [done|simpl; lia]).
    unfold loop_head, AsyncWrite, BeginRead. cbn [SendBuf_ set_buf set_writers writers_ out_ fd_ store_]. rewrite Er', andb_false_r, Hf, (proj2 (Z.eqb_neq _ 0)) by lia.
    rewrite (proj2 (Z.eqb_neq fd (-1)) Hfd), Hw. pose proof (bi_read _ _ _ _ Hv') as Hr'.
    assert (read_index_ b' = 8) as Eri by lia. rewrite Eri, Hs0. split_and!; try done; [split; [lia|by exists pre, (drop (length x) post)]|congruence|].
    destruct (bi_sizes _ _ _ _ Hv') as (_ & _ & ->). rewrite !length_app, length_drop. lia. }
  destruct (Hsend a (new_io fd) [] []) as (s1 & -> & Hc1 & Hp1 & Hz1 & Hr1 & Hf1 & Hs1 & Hw1 & Ho1); try done; [by apply new_buf_contents|simpl; lia|]. rewrite bind_ok.
  destruct (Hsend b s1 a _ Hc1 Hp1 Hz1 Hr1 Hf1 Hs1 Hb Hlen Hw1 Ho1) as (s2 & -> & (_ & pre & post & Hv2) & _ & _ & Hr2 & Hf2 & Hs2 & Hw2 & Ho2). rewrite bind_ok.
  pose proof (bi_bytes _ _ _ _ Hv2) as Hbytes. pose proof (bi_read _ _ _ _ Hv2) as Hpre. cbn [app] in Hw2.
  rewrite (on_kernel_all s2 0 (mkWriter 8 (Z.of_nat (length a)) 0 true None) a pre (b ++ post)); [|by rewrite Hw2|done..|by rewrite Hbytes, <- app_assoc|cbn; lia|done|done].
  rewrite bind_ok. set (s3 := set_writers _ _). rewrite <- length_app.
  rewrite (on_kernel_all s3 1 (mkWriter 8 (Z.of_nat (length (a ++ b))) 0 true None) (a ++ b) pre post); [|cbn; by rewrite Hw2|done..|cbn; lia|done|by destruct a].
  rewrite bind_ok. apply runs_ok. cbn. by rewrite Ho2, Hw2.
Qed.

(** ** After the end of the connection *)

(** Once the client has closed its end, [DoRead] has closed the descriptor. A
    reply that is not written by then is never given up: the loop of [DoWrite] goes
    round for ever, each time with a write to the descriptor -1, and sends nothing. *)
Theorem closed_writer_spins s c w rs : writers_ s = [w] → w_result w = None → w_fd w = false → fd_ s = -1 →
  contents (SendBuf_ s) c → c ≠ [] →
  runs (rfold round rs s) (λ s', out_ s' = out_ s ∧ SendBuf_ s' = SendBuf_ s ∧ ∃ w', writers_ s' = [w'] ∧ w_result w' = None ∧ w_fd w' = false).
Proof.
  intros Hw Hres Hfd Hclosed Hc Hne. assert (readable_size (SendBuf_ s) ≠ 0) as Hrd.
  { destruct Hc as (_ & pre & post & Hv). destruct (bi_sizes _ _ _ _ Hv) as (-> & _ & _). destruct c; [done|simpl; lia]. }
  assert (∀ r s w, writers_ s = [w] → w_result w = None → w_fd w = false → fd_ s = -1 → readable_size (SendBuf_ s) ≠ 0 →
    runs (round r s) (λ s', out_ s' = out_ s ∧ SendBuf_ s' = SendBuf_ s ∧ fd_ s' = -1 ∧ ∃ w', writers_ s' = [w'] ∧ w_result w' = None ∧ w_fd w' = false)) as Hround.
  { clear. intros r s [from len store fd res] Hw Hres Hfd Hclosed Hrd. cbn in Hres, Hfd. subst res fd. unfold round, on_kernel. rewrite Hw. cbn. apply runs_ok.
    split_and!; [done|done|done|]. unfold loop_head, set_buf, set_writers. cbn. rewrite (proj2 (Z.eqb_neq _ 0) Hrd). eexists. split; [done|]. unfold AsyncWrite. cbn. by rewrite Hclosed. }
  clear Hc Hne. revert s w Hw Hres Hfd Hclosed Hrd. induction rs as [|r rs IH]; intros s w Hw Hres Hfd Hclosed Hrd; cbn [rfold].
  - apply runs_ok. split_and!; [done|done|by exists w].
  - destruct (Hround r s w Hw Hres Hfd Hclosed Hrd) as (s1 & -> & Ho & Eb & Ef & w1 & Hw1 & Hr1 & Hf1). rewrite bind_ok.
    eapply runs_mono; [apply (IH s1 w1); try done; congruence|]. intros s' (H1 & H2 & H3). split_and!; [congruence|congruence|done].
Qed.

(** ** Concrete inputs *)

Definition text (s : string) : list ascii := list_ascii_of_string s.

(** Two replies, the first of which the kernel takes in two pieces. *)
Definition two_replies : list event :=
  [Send (text "+PONG") false; Kernel 0 2; ReadDone 5; Written 0; Kernel 0 100; Written 0; Send (text ":1") false; Kernel 0 1].

Lemma two_replies_disciplined : disciplined two_replies (new_io 5).
Proof.
  split; [reflexivity|]. intros s [= <-]. split; [done|]. intros s [= <-]. split; [done|]. intros s [= <-]. split; [done|].
  intros s Es. vm_compute in Es. injection Es as <-. split; [done|]. intros s Es. vm_compute in Es. injection Es as <-. split; [done|].
  intros s Es. vm_compute in Es. injection Es as <-. split; [reflexivity|]. intros s Es. vm_compute in Es. injection Es as <-. split; [done|]. done.
Qed.

Lemma two_replies_run : (s ← exec_all two_replies (new_io 5); Ok (out_ s)) = Ok (text "+PONG:").
Proof. vm_compute. reflexivity. Qed.

Lemma replies_in_order_witness :
  (s ← exec_all two_replies (new_io 5); Ok (out_ s)) = Ok (text "+PONG:") ∧
  runs (exec_all two_replies (new_io 5)) (λ s, out_ s `prefix_of` text "+PONG:1" ∧ (writers_ s = [] → out_ s = text "+PONG:1") ∧
    (fd_ s ≠ -1 → ∀ rs, Forall (λ r, 0 < r) rs → (7 < List.length rs)%nat →
      runs (rfold round rs s) (λ s', writers_ s' = [] ∧ out_ s' = text "+PONG:1"))).
Proof. split; [exact two_replies_run|]. apply (replies_in_order two_replies 5 ltac:(done) two_replies_disciplined). reflexivity. Defined.

Lemma overlap_repeats_witness :
  runs (exec_all (overlap (text "$2") (text ":1")) (new_io 5)) (λ s, out_ s = text "$2$2:1" ∧ List.length (writers_ s) = 2%nat).
Proof. apply (overlap_repeats (text "$2") (text ":1") 5); discriminate. Defined.

(** The client closes its end while the kernel has taken half of a reply. *)
Definition half_sent : Io :=
  match exec_all [Send (text "+PONG") false; Kernel 0 2; ReadDone 0; Written 0] (new_io 5) with Ok s => s | Fault _ => new_io 5 end.

Lemma half_sent_buffer : buf_is (SendBuf_ half_sent) (replicate 8 NUL ++ text "+P") (text "ONG") (replicate 1019 NUL).
Proof. split; vm_compute; done. Qed.

Lemma closed_writer_spins_witness :
  fd_ half_sent = -1 ∧ out_ half_sent = text "+P" ∧
  runs (rfold round (replicate 100 3) half_sent) (λ s', out_ s' = text "+P" ∧ ∃ w', writers_ s' = [w'] ∧ w_result w' = None ∧ w_fd w' = false).
Proof.
  split; [reflexivity|]. split; [reflexivity|].
  assert (contents (SendBuf_ half_sent) (text "ONG")) as Hc by (split; [discriminate|eexists _, _; exact half_sent_buffer]).
  destruct (closed_writer_spins half_sent (text "ONG") (mkWriter 10 3 0 false None) (replicate 100 3) eq_refl eq_refl eq_refl eq_refl Hc ltac:(discriminate))
    as (s' & E & Ho & _ & Hw).
  exists s'. split; [exact E|]. split; [exact Ho|exact Hw].
Defined.
