(* ===== verification/Resp.v ===== *)
(** Resp: the parser of the requests of a client and the builders of the
    replies, in the wire format of Redis (RESP).
    Source: src/src/redis/facade/resp_buf.hpp, src/src/redis/facade/reply_builder.hpp.

    [ParseRESP] reads the characters between the read and the write index of the
    receive buffer and moves the read index behind a request it has parsed to the
    end. It returns the arguments it has got so far when the request is not
    complete. Each early return of the code is a [None]. *)
From Stdlib Require Import Ascii String.
From stdpp Require Import pretty strings.
From S2P Require Import Prelude IoBuf.
Local Open Scope Z_scope.

Definition CR : ascii := "013"%char.
Definition LF : ascii := "010"%char.

(** [std::isdigit] and [c - '0'] *)
Definition isdigit (c : ascii) : bool := (48 <=? nat_of_ascii c)%nat && (nat_of_ascii c <=? 57)%nat.
Definition digit_val (c : ascii) : Z := Z.of_nat (nat_of_ascii c) - 48.

Definition char_at (data : list ascii) (pos : Z) : res ascii := aget data (Z.to_nat pos).

(** [while (pos < size && std::isdigit(data[pos]))]; returns the number and the
    position behind it. *)
Fixpoint scan_number (fuel : nat) (data : list ascii) (size pos num : Z) : res (Z * Z) :=
  match fuel with
  | O => Fault NoFuel
  | S fuel' =>
      if pos <? size then
        c ← char_at data pos;
        if isdigit c then
          num ← int64 (num * 10 + digit_val c);
          scan_number fuel' data size (u64 (pos + 1)) num
        else Ok (num, pos)
      else Ok (num, pos)
  end.

(** [data[pos] == '\r' && data[pos+1] == '\n'] *)
Definition at_crlf (data : list ascii) (pos : Z) : res bool :=
  c ← char_at data pos;
  if negb (bool_decide (c = CR)) then Ok false else
  c ← char_at data (u64 (pos + 1)); Ok (bool_decide (c = LF)).

(** The loop over the elements. *)
Fixpoint parse_elements (fuel : nat) (data : list ascii) (size num_elements i pos : Z) (result : list string)
    : res (list string * option Z) :=
  match fuel with
  | O => Fault NoFuel
  | S fuel' =>
      if negb (i <? num_elements) then Ok (result, Some pos) else
      if size <=? pos then Ok (result, None) else
      c ← char_at data pos;
      if negb (bool_decide (c = "$"%char)) then Ok (result, None) else
      '(len, pos) ← scan_number (S (length data)) data size (u64 (pos + 1)) 0;
      if (len <? 0) || (size <? u64 (pos + 2)) then Ok (result, None) else
      crlf ← at_crlf data pos;
      if negb crlf then Ok (result, None) else
      let pos := u64 (pos + 2) in
      if size <? u64 (pos + len + 2) then Ok (result, None) else
      s ← read_range data pos (pos + len);
      let result := result ++ [string_of_list_ascii s] in
      let pos := u64 (pos + len) in
      if size <? u64 (pos + 2) then Ok (result, None) else
      crlf ← at_crlf data pos;
      if negb crlf then Ok (result, None) else
      parse_elements fuel' data size num_elements (i + 1) (u64 (pos + 2)) result
  end.

Definition ParseRESP (b : IoBuf) : res (IoBuf * list string) :=
  let data := buffer_ b in
  let size := write_index_ b in
  let pos := read_index_ b in
  if size <=? pos then Ok (b, []) else
  c ← char_at data pos;
  if negb (bool_decide (c = "*"%char)) then Ok (b, []) else
  '(num_elements, pos) ← scan_number (S (length data)) data size (u64 (pos + 1)) 0;
  if (num_elements <=? 0) || (size <? u64 (pos + 2)) then Ok (b, []) else
  crlf ← at_crlf data pos;
  if negb crlf then Ok (b, []) else
  '(result, done) ← parse_elements (S (length data)) data size num_elements 0 (u64 (pos + 2)) [];
  match done with
  | Some pos => b ← consume b (u64 (pos - read_index_ b)); Ok (b, result)
  | None => Ok (b, result)
  end.

(** ** Replies *)

Definition CRLF : string := String CR (String LF EmptyString).

Definition BuildNull : string := ("$-1" +:+ CRLF)%string.
Definition BuildSimpleString (s : string) : string := ("+" +:+ s +:+ CRLF)%string.
Definition BuildError (err : string) : string := ("-ERR " +:+ err +:+ CRLF)%string.
Definition BuildInteger (n : Z) : string := (":" +:+ pretty n +:+ CRLF)%string.
Definition BuildBulkString (s : string) : string :=
  if String.eqb s "" then BuildNull
  else ("$" +:+ pretty (Z.of_nat (String.length s)) +:+ CRLF +:+ s +:+ CRLF)%string.
Definition BuildArray (items : list string) : string :=
  fold_left (λ res item, res +:+ BuildSimpleString item) items
    ("*" +:+ pretty (Z.of_nat (List.length items)) +:+ CRLF)%string.
