(* ===== verification/RespInv.v ===== *)
(** RespInv: the wire format of requests, and the lemmas on the parser. *)
From Stdlib Require Import Ascii String.
From stdpp Require Import pretty strings.
From S2P Require Import Prelude IoBuf IoBufInv Resp.
Local Open Scope Z_scope.

(** ** Decimal numbers *)

Definition bytes (s : string) : list ascii := list_ascii_of_string s.
Definition digits (n : Z) : list ascii := bytes (pretty n).

Definition dec_val (acc : Z) (ds : list ascii) : Z := fold_left (λ a c, a * 10 + digit_val c) ds acc.

Lemma pretty_N_char_digit x : (x < 10)%N → isdigit (pretty_N_char x) = true ∧ digit_val (pretty_N_char x) = Z.of_N x.
Proof. intros Hx. assert (x ∈ [0;1;2;3;4;5;6;7;8;9]%N) as Hin by (set_unfold; lia). set_unfold. by destruct_or! Hin; subst. Qed.

Lemma pretty_N_go_digits x s : ∃ ds, bytes (pretty_N_go x s) = ds ++ bytes s ∧ Forall isdigit ds ∧
  dec_val 0 ds = Z.of_N x ∧ ((0 < x)%N → ds ≠ []).
Proof.
  revert s. induction (N.lt_wf_0 x) as [x _ IH]; intros s.
  destruct (decide (0 < x)%N) as [Hx|Hx].
  - rewrite pretty_N_go_step by done.
    destruct (IH (x `div` 10)%N ltac:(by apply N.div_lt) (String (pretty_N_char (x `mod` 10)) s)) as (ds & E & Hd & Hv & _).
    destruct (pretty_N_char_digit (x `mod` 10)) as [Hc Hcv]; [by apply N.mod_lt|].
    exists (ds ++ [pretty_N_char (x `mod` 10)]). split_and!.
    + rewrite E. simpl. by rewrite <- app_assoc.
    + apply Forall_app; split; [done|]. constructor; [by rewrite Hc|done].
    + unfold dec_val in *. rewrite fold_left_app, Hv. simpl. rewrite Hcv, N2Z.inj_div, N2Z.inj_mod.
      pose proof (Z.div_mod (Z.of_N x) 10). lia.
    + intros _. by destruct ds.
  - assert (x = 0%N) as -> by lia. exists []. rewrite pretty_N_go_0. done.
Qed.

(** What [std::to_string] writes is read back as the number. *)
Lemma digits_spec n : 0 ≤ n → Forall isdigit (digits n) ∧ dec_val 0 (digits n) = n ∧ digits n ≠ [].
Proof.
  intros Hn. unfold digits. destruct n as [|p|p]; [|clear Hn|lia].
  - split_and!; [by repeat constructor|done|done].
  - change (pretty (Z.pos p)) with (pretty_N_go (Npos p) ""). destruct (pretty_N_go_digits (Npos p) "") as (ds & E & Hd & Hv & Hne).
    simpl in E. rewrite app_nil_r in E. unfold bytes in *. rewrite E. split_and!; [done|done|by apply Hne].
Qed.

Lemma digit_range c : isdigit c = true → 0 ≤ digit_val c ≤ 9.
Proof. unfold isdigit, digit_val. intros [H1 H2]%andb_true_iff. apply Nat.leb_le in H1, H2. lia. Qed.

Lemma dec_val_mono ds acc : 0 ≤ acc → Forall isdigit ds → acc ≤ dec_val acc ds.
Proof.
  revert acc. induction ds as [|d ds IH]; intros acc H0 Hd; [done|]. apply Forall_cons in Hd as [Hd Hds].
  apply Is_true_true, digit_range in Hd. simpl. specialize (IH (acc * 10 + digit_val d) ltac:(lia) Hds). unfold dec_val in *. lia.
Qed.

(** ** The wire format of requests *)

Definition crlf : list ascii := [CR; LF].
Definition bulk (s : string) : list ascii :=
  "$"%char :: digits (Z.of_nat (String.length s)) ++ crlf ++ bytes s ++ crlf.
Definition header (n : Z) : list ascii := "*"%char :: digits n ++ crlf.
Definition request (args : list string) : list ascii := header (Z.of_nat (List.length args)) ++ (args ≫= bulk).

Lemma bytes_length s : List.length (bytes s) = String.length s.
Proof. induction s; simpl; auto. Qed.

Lemma string_of_bytes s : string_of_list_ascii (bytes s) = s.
Proof. apply string_of_list_ascii_of_string. Qed.

Lemma bulks_length args : (List.length args ≤ List.length (args ≫= bulk))%nat.
Proof.
  induction args as [|s args IH]; [done|]. change ((s :: args) ≫= bulk) with (bulk s ++ (args ≫= bulk)).
  rewrite length_app. unfold bulk at 1. cbn [List.length]. lia.
Qed.

(** ** Reading at a position *)

Definition at_pos (data : list ascii) (pos : Z) (l : list ascii) : Prop :=
  ∃ pre, data = pre ++ l ∧ pos = Z.of_nat (List.length pre).

Lemma at_pos_app data pos l1 l2 : at_pos data pos (l1 ++ l2) → at_pos data (pos + Z.of_nat (List.length l1)) l2.
Proof. intros (pre & -> & ->). exists (pre ++ l1). rewrite <- app_assoc, length_app. split; [done|lia]. Qed.

Lemma at_pos_cons data pos c l : at_pos data pos (c :: l) → at_pos data (pos + 1) l ∧ char_at data pos = Ok c.
Proof.
  intros Hp. split; [by apply (at_pos_app data pos [c] l)|]. destruct Hp as (pre & -> & ->).
  unfold char_at. rewrite Nat2Z.id. apply aget_some. by apply list_lookup_middle.
Qed.

Lemma at_pos_range data pos l : at_pos data pos l → 0 ≤ pos ∧ pos + Z.of_nat (List.length l) = Z.of_nat (List.length data).
Proof. intros (pre & -> & ->). rewrite length_app. lia. Qed.

Section parse.
Context (data : list ascii) (size : Z).
Context (Hsize : 0 ≤ size ≤ Z.of_nat (List.length data)) (Hmax : Z.of_nat (List.length data) < kMaxBuf).

Lemma scan_digits ds rest pos num fuel : at_pos data pos (ds ++ rest) → Forall isdigit ds →
  (pos + Z.of_nat (List.length ds) < size → ∃ c rest', rest = c :: rest' ∧ isdigit c = false) →
  pos + Z.of_nat (List.length ds) ≤ size → 0 ≤ num → dec_val num ds < 2 ^ 63 → (List.length ds < fuel)%nat →
  scan_number fuel data size pos num = Ok (dec_val num ds, pos + Z.of_nat (List.length ds)).
Proof.
  revert pos num fuel. induction ds as [|d ds IH]; intros pos num fuel Hp Hd Hstop Hle Hnum Hval Hfuel;
    (destruct fuel as [|fuel]; [simpl in Hfuel; lia|]); simpl in *.
  - rewrite Z.add_0_r in *. destruct (Z.ltb_spec pos size) as [Hlt|]; [|done].
    destruct (Hstop Hlt) as (c & rest' & -> & Hc). destruct (at_pos_cons _ _ _ _ Hp) as [_ ->].
    rewrite bind_ok, Hc. done.
  - destruct (at_pos_cons _ _ _ _ Hp) as [Hp' Hc]. apply Forall_cons in Hd as [Hdd Hds].
    apply Is_true_true in Hdd. pose proof (digit_range _ Hdd) as Hdr.
    assert (num * 10 + digit_val d ≤ dec_val (num * 10 + digit_val d) ds) by (apply dec_val_mono; [lia|done]).
    unfold dec_val in *. simpl in *. unfold kMaxBuf in *. pose proof (at_pos_range _ _ _ Hp).
    rewrite (proj2 (Z.ltb_lt pos size)) by lia. rewrite Hc, bind_ok, Hdd. unfold int64.
    rewrite (proj2 (Z.leb_le _ _)), (proj2 (Z.ltb_lt _ _)) by lia. cbn [andb]. rewrite bind_ok, uN_small by lia.
    rewrite (IH (pos + 1)); try done; try lia; [do 2 f_equal; lia|]. intros Hlt. apply Hstop. lia.
Qed.

Lemma at_crlf_ok pos rest : at_pos data pos (crlf ++ rest) → at_crlf data pos = Ok true.
Proof.
  intros Hp. unfold at_crlf. destruct (at_pos_cons _ _ _ _ Hp) as [Hp1 ->]. destruct (at_pos_cons _ _ _ _ Hp1) as [_ Hc].
  rewrite bind_ok. rewrite bool_decide_true by done. cbn [negb]. pose proof (at_pos_range _ _ _ Hp). unfold kMaxBuf in *. rewrite uN_small by lia.
  rewrite Hc, bind_ok. by rewrite bool_decide_true by done.
Qed.

(** A number and the end of its line. *)
Lemma scan_line n rest pos : 0 ≤ n < 2 ^ 63 → at_pos data pos (digits n ++ crlf ++ rest) →
  pos + Z.of_nat (List.length (digits n ++ crlf)) ≤ size →
  scan_number (S (List.length data)) data size pos 0 = Ok (n, pos + Z.of_nat (List.length (digits n))) ∧
  at_crlf data (pos + Z.of_nat (List.length (digits n))) = Ok true.
Proof.
  intros Hn Hp Hle. destruct (digits_spec n) as (Hd & Hv & _); [lia|]. rewrite length_app in Hle.
  split; [|by apply (at_crlf_ok _ rest), at_pos_app].
  pose proof (at_pos_range _ _ _ Hp) as Hr. rewrite length_app in Hr.
  rewrite (scan_digits (digits n) (crlf ++ rest)); try done; rewrite ?Hv; try lia; [done|].
  intros _. by exists CR, (LF :: rest).
Qed.

(** One element. *)
Lemma parse_bulk s rest pos num i result fuel : at_pos data pos (bulk s ++ rest) →
  pos + Z.of_nat (List.length (bulk s)) ≤ size → i < num →
  parse_elements (S fuel) data size num i pos result =
  parse_elements fuel data size num (i + 1) (pos + Z.of_nat (List.length (bulk s))) (result ++ [s]).
Proof.
  intros Hp Hle Hi. cbn [parse_elements]. rewrite (proj2 (Z.ltb_lt i num)) by done. cbn [negb].
  unfold bulk in *. cbn [List.length app] in *. set (n := Z.of_nat (String.length s)) in *.
  destruct (at_pos_cons _ _ _ _ Hp) as [Hp1 Hc]. pose proof (at_pos_range _ _ _ Hp) as Hrange.
  rewrite <- !app_assoc in Hp1. cbn [List.length] in Hrange. unfold kMaxBuf in *.
  rewrite !length_app, bytes_length in *. change (List.length crlf) with 2%nat in *.
  rewrite (proj2 (Z.leb_gt size pos)) by lia. rewrite Hc, bind_ok, bool_decide_true by done. cbn [negb].
  rewrite (uN_small 64 (pos + 1)) by lia.
  destruct (scan_line n (bytes s ++ crlf ++ rest) (pos + 1)) as [Es Ecr]; [lia|done|rewrite length_app; change (List.length crlf) with 2%nat; lia|].
  rewrite Es, bind_ok. cbv beta iota. set (q := pos + 1 + Z.of_nat (List.length (digits n))) in *.
  rewrite (proj2 (Z.ltb_ge n 0)), (uN_small 64 (q + 2)), (proj2 (Z.ltb_ge size _)) by lia. cbn [orb].
  rewrite Ecr, bind_ok. cbn [negb]. rewrite (uN_small 64 (q + 2 + n + 2)), (proj2 (Z.ltb_ge size _)) by lia.
  apply at_pos_app in Hp1. fold q in Hp1. apply at_pos_app in Hp1. change (Z.of_nat (List.length crlf)) with 2 in Hp1.
  assert (read_range data (q + 2) (q + 2 + n) = Ok (bytes s)) as ->.
  { destruct Hp1 as (pre & -> & ->). unfold n. rewrite <- bytes_length. apply read_range_ok. }
  rewrite bind_ok, string_of_bytes. rewrite (uN_small 64 (q + 2 + n)), (uN_small 64 (q + 2 + n + 2)), (proj2 (Z.ltb_ge size _)) by lia.
  apply at_pos_app in Hp1. rewrite bytes_length in Hp1. fold n in Hp1. rewrite (at_crlf_ok _ _ Hp1), bind_ok. cbn [negb]. f_equal. lia.
Qed.

(** A run of elements. *)
Lemma parse_bulks args rest pos num i result fuel : at_pos data pos ((args ≫= bulk) ++ rest) →
  pos + Z.of_nat (List.length (args ≫= bulk)) ≤ size → i + Z.of_nat (List.length args) ≤ num → (List.length args < fuel)%nat →
  ∃ fuel', (0 < fuel')%nat ∧ parse_elements fuel data size num i pos result =
  parse_elements fuel' data size num (i + Z.of_nat (List.length args)) (pos + Z.of_nat (List.length (args ≫= bulk))) (result ++ args).
Proof.
  revert pos i result fuel. induction args as [|s args IH]; intros pos i result fuel Hp Hle Hi Hfuel.
  - exists fuel. rewrite app_nil_r, !Z.add_0_r. simpl in *. split; [lia|done].
  - destruct fuel as [|fuel]; [simpl in Hfuel; lia|]. cbn [mbind list_bind List.length] in *. rewrite <- app_assoc in Hp.
    rewrite length_app in *. rewrite (parse_bulk s ((args ≫= bulk) ++ rest)) by (done || lia).
    destruct (IH (pos + Z.of_nat (List.length (bulk s))) (i + 1) (result ++ [s]) fuel) as (fuel' & Hf & E); [by apply at_pos_app|lia|lia|lia|].
    exists fuel'. split; [done|]. rewrite E, <- app_assoc. cbn [app]. f_equal; lia.
Qed.

(** ** Any contents *)

(** The parser overflows a number, or it stays inside the contents. *)
Definition overflow_or {A} (e : res A) (P : A → Prop) : Prop := e = Fault SignedOverflow ∨ runs e P.

Lemma overflow_bind {A B} (e : res A) (f : A → res B) (P : A → Prop) (Q : B → Prop) :
  overflow_or e P → (∀ a, P a → overflow_or (f a) Q) → overflow_or (e ≫= f) Q.
Proof. intros [->|(a & -> & Ha)] Hf; [by left|]. by apply Hf. Qed.

Lemma char_in pos : 0 ≤ pos < size → ∃ c, char_at data pos = Ok c.
Proof.
  intros Hp. destruct (lookup_lt_is_Some_2 data (Z.to_nat pos)) as [c Hc]; [lia|]. exists c. by apply aget_some.
Qed.

Lemma scan_safe pos num fuel : 0 ≤ pos ≤ size → 0 ≤ num < 2 ^ 63 → size - pos < Z.of_nat fuel →
  overflow_or (scan_number fuel data size pos num) (λ '(n, p), 0 ≤ n < 2 ^ 63 ∧ pos ≤ p ≤ size).
Proof.
  revert pos num. induction fuel as [|fuel IH]; intros pos num Hp Hn Hf; [lia|]. cbn [scan_number].
  destruct (Z.ltb_spec pos size) as [Hlt|]; [|right; apply runs_ok; lia].
  destruct (char_in pos) as [c ->]; [lia|]. rewrite bind_ok. destruct (isdigit c) eqn:Hd; [|right; apply runs_ok; lia].
  apply digit_range in Hd. unfold int64. destruct (_ && _) eqn:Eb; [|by left]. rewrite bind_ok.
  apply andb_true_iff in Eb as [_ Hlt2%Z.ltb_lt]. unfold kMaxBuf in *. rewrite uN_small by lia.
  destruct (IH (pos + 1) (num * 10 + digit_val c)) as [->|(r & -> & HP)]; [lia|lia|lia|by left|].
  right. apply runs_ok. destruct r. lia.
Qed.

Lemma crlf_safe pos : 0 ≤ pos → pos + 2 ≤ size → ∃ b, at_crlf data pos = Ok b.
Proof.
  intros H0 H2. unfold at_crlf. destruct (char_in pos) as [c ->]; [lia|]. rewrite bind_ok. destruct (negb _); [eauto|].
  unfold kMaxBuf in *. rewrite uN_small by lia. destruct (char_in (pos + 1)) as [c' ->]; [lia|]. rewrite bind_ok. eauto.
Qed.

Lemma parse_safe num i pos result fuel : 0 ≤ pos ≤ size → size - pos < Z.of_nat fuel →
  overflow_or (parse_elements fuel data size num i pos result)
    (λ '(r, p), match p with Some p => pos ≤ p ≤ size | None => True end).
Proof.
  revert i pos result. induction fuel as [|fuel IH]; intros i pos result Hp Hf; [lia|]. cbn [parse_elements]. unfold kMaxBuf in *.
  assert (∀ r : list string, overflow_or (Ok (r, @None Z)) (λ '(_, p), match p with Some p => pos ≤ p ≤ size | None => True end)) as Hnone
    by (intros r; right; by apply runs_ok).
  destruct (i <? num); cbn [negb]; [|right; apply runs_ok; lia].
  destruct (Z.leb_spec size pos); [done|]. destruct (char_in pos) as [c ->]; [lia|]. rewrite bind_ok.
  destruct (negb _); [done|]. rewrite (uN_small 64 (pos + 1)) by lia.
  eapply overflow_bind; [apply scan_safe; [lia|lia|lia]|]. intros [len q] [Hlen Hq].
  rewrite (uN_small 64 (q + 2)) by lia. destruct (Z.ltb_spec len 0), (Z.ltb_spec size (q + 2)); cbn [orb]; try done.
  destruct (crlf_safe q) as [b ->]; [lia|lia|]. rewrite bind_ok. destruct b; cbn [negb]; [|done].
  rewrite (uN_small 64 (q + 2 + len + 2)) by lia. destruct (Z.ltb_spec size (q + 2 + len + 2)); [done|].
  unfold read_range at 1. rewrite (proj2 (Z.leb_le 0 _)), !(proj2 (Z.leb_le _ _)) by lia. cbn [andb]. rewrite bind_ok.
  rewrite (uN_small 64 (q + 2 + len)), (uN_small 64 (q + 2 + len + 2)) by lia. rewrite (proj2 (Z.ltb_ge size _)) by lia.
  destruct (crlf_safe (q + 2 + len)) as [b ->]; [lia|lia|]. rewrite bind_ok. destruct b; cbn [negb]; [|done].
  destruct (IH (i + 1) (q + 2 + len + 2) (result ++ [string_of_list_ascii (take (Z.to_nat (q + 2 + len - (q + 2))) (drop (Z.to_nat (q + 2)) data))])) as [->|(r & -> & HP)];
    [lia|lia|by left|]. right. apply runs_ok. destruct r as [r [p|]]; [lia|done].
Qed.
End parse.
