(* ===== verification/RespSpec.v ===== *)
(** RespSpec: the theorems on the request parser and the replies. *)
From Stdlib Require Import Ascii String.
From stdpp Require Import pretty strings.
From S2P Require Import Prelude IoBuf IoBufInv Resp RespInv.
Local Open Scope Z_scope.

(** The parser up to the first element. *)
Lemma ParseRESP_header b n rest : contents b (header n ++ rest) → 0 < n < 2 ^ 63 →
  ∃ pos, at_pos (buffer_ b) pos (rest ++ drop (Z.to_nat (write_index_ b)) (buffer_ b)) ∧
    pos = read_index_ b + Z.of_nat (List.length (header n)) ∧
    pos + Z.of_nat (List.length rest) = write_index_ b ∧ write_index_ b ≤ buf_size b < kMaxBuf ∧
    ParseRESP b = ('(result, done) ← parse_elements (S (List.length (buffer_ b))) (buffer_ b) (write_index_ b) n 0 pos [];
                   match done with
                   | Some pos => b ← consume b (u64 (pos - read_index_ b)); Ok (b, result)
                   | None => Ok (b, result)
                   end).
Proof.
  intros (Hp & pre & post & Hv) Hn. pose proof Hv as [Hb Hr Hw H0 Hs]. destruct (bi_sizes b _ _ _ Hv) as (_ & _ & Esz).
  rewrite length_app in *. unfold kMaxBuf in *.
  assert (at_pos (buffer_ b) (read_index_ b) (header n ++ rest ++ post)) as Hat by (exists pre; by rewrite Hb, <- app_assoc).
  assert (drop (Z.to_nat (write_index_ b)) (buffer_ b) = post) as ->.
  { rewrite Hb, app_assoc. apply drop_app_length'. rewrite !length_app. lia. }
  exists (read_index_ b + Z.of_nat (List.length (header n))). split_and!; [by apply at_pos_app|done|lia|lia|lia|].
  unfold ParseRESP. unfold header in *. cbn [List.length app] in *. destruct (at_pos_cons _ _ _ _ Hat) as [Hat1 Hc].
  rewrite (proj2 (Z.leb_gt _ _)) by lia. rewrite Hc, bind_ok, bool_decide_true by done. cbn [negb].
  rewrite length_app in *. change (List.length crlf) with 2%nat in *. rewrite (uN_small 64 (read_index_ b + 1)) by lia.
  rewrite <- app_assoc in Hat1. unfold buf_size in *.
  destruct (scan_line (buffer_ b) (write_index_ b) ltac:(lia) ltac:(unfold kMaxBuf; lia) n (rest ++ post) (read_index_ b + 1)) as [Es Ecr];
    [lia|done|rewrite length_app; change (List.length crlf) with 2%nat; lia|].
  rewrite Es, bind_ok. cbv beta iota. rewrite (proj2 (Z.leb_gt n 0)) by lia.
  rewrite (uN_small 64 (read_index_ b + 1 + Z.of_nat (List.length (digits n)) + 2)), (proj2 (Z.ltb_ge (write_index_ b) _)) by lia.
  cbn [orb]. rewrite Ecr, bind_ok. cbn [negb].
  replace (read_index_ b + 1 + Z.of_nat (List.length (digits n)) + 2)
    with (read_index_ b + Z.of_nat (S (List.length (digits n) + 2))) by lia. done.
Qed.

Lemma parse_complete b args rest : contents b (request args ++ rest) → args ≠ [] →
  runs (ParseRESP b) (λ '(b', r), r = args ∧ contents b' rest).
Proof.
  intros Hc Hne. unfold request in Hc. rewrite <- app_assoc in Hc. set (n := Z.of_nat (List.length args)) in *.
  pose proof Hc as (_ & pre & post & Hv). destruct (bi_sizes b _ _ _ Hv) as (_ & _ & Esz). pose proof (bi_small _ _ _ _ Hv). pose proof (bi_write _ _ _ _ Hv).
  pose proof (bulks_length args) as Hlen.
  rewrite !length_app in Esz. unfold kMaxBuf in *.
  assert (0 < n) by (unfold n; destruct args; simpl in *; [done|lia]).
  destruct (ParseRESP_header b n ((args ≫= bulk) ++ rest) Hc) as (pos & Hat & Hpos & Hend & Hw & ->); [lia|].
  rewrite length_app in Hend. rewrite <- app_assoc in Hat. unfold buf_size in *.
  destruct (parse_bulks (buffer_ b) (write_index_ b) ltac:(lia) ltac:(unfold kMaxBuf; lia) args
    (rest ++ drop (Z.to_nat (write_index_ b)) (buffer_ b)) pos n 0 [] (S (List.length (buffer_ b)))) as (fuel & Hf & ->); [done|lia|lia|lia|].
  destruct fuel as [|fuel]; [lia|]. cbn [parse_elements app]. rewrite (proj2 (Z.ltb_ge _ n)) by lia. cbn [negb]. rewrite bind_ok. cbv beta iota.
  assert (u64 (pos + Z.of_nat (List.length (args ≫= bulk)) - read_index_ b) = Z.of_nat (List.length (header n ++ (args ≫= bulk)))) as ->.
  { rewrite length_app. rewrite uN_small; lia. }
  eapply runs_bind; [eapply (move_read_spec b rest); by rewrite <- app_assoc|]. intros b' (Hc' & _). by apply runs_ok.
Qed.

(** (C16) Round trip: a complete request in the buffer, whatever follows it, is
    parsed to its arguments and consumed; what follows stays in the buffer. *)
Theorem ParseRESP_roundtrip b args rest : contents b (request args ++ rest) → args ≠ [] →
  runs (ParseRESP b) (λ '(b', r), r = args ∧ contents b' rest).
Proof. apply parse_complete. Qed.

Lemma parse_incomplete b n args : contents b (header n ++ (args ≫= bulk)) → 0 < n < 2 ^ 63 →
  Z.of_nat (List.length args) < n → ParseRESP b = Ok (b, args).
Proof.
  intros Hc Hn Hlt.
  destruct (ParseRESP_header b n (args ≫= bulk) Hc Hn) as (pos & Hat & Hpos & Hend & Hw & ->). unfold buf_size in *.
  pose proof (bulks_length args) as Hlen.
  pose proof Hc as (Hp & pre & post & Hv). pose proof Hv as [Hb Hr Hwr H0 Hs].
  destruct (parse_bulks (buffer_ b) (write_index_ b) ltac:(lia) ltac:(unfold kMaxBuf in *; lia) args
    (drop (Z.to_nat (write_index_ b)) (buffer_ b)) pos n 0 [] (S (List.length (buffer_ b)))) as (fuel & Hf & ->); [done|lia|lia|lia|].
  destruct fuel as [|fuel]; [lia|]. cbn [parse_elements app]. rewrite (proj2 (Z.ltb_lt _ n)) by lia. cbn [negb].
  by rewrite (proj2 (Z.leb_le (write_index_ b) _)) by lia.
Qed.

(** A request of which only the first elements have arrived is answered
    with these elements, and nothing is consumed: the caller cannot tell it from
    a complete request, and sees the same elements again with the next read. *)
Theorem ParseRESP_partial b n args : contents b (header n ++ (args ≫= bulk)) → 0 < n < 2 ^ 63 →
  Z.of_nat (List.length args) < n → ParseRESP b = Ok (b, args).
Proof. apply parse_incomplete. Qed.


Lemma bytes_app s1 s2 : bytes (s1 +:+ s2) = bytes s1 ++ bytes s2.
Proof. induction s1; simpl; [done|]. unfold bytes in *. simpl. by f_equal. Qed.

(** A bulk reply is the wire format of its string, except for the empty string,
    which is sent as the null reply. *)
Lemma BuildBulkString_spec s : (s ≠ "" → bytes (BuildBulkString s) = bulk s) ∧ BuildBulkString "" = BuildNull.
Proof.
  split; [|done]. intros Hne. unfold BuildBulkString. destruct (String.eqb_spec s ""); [done|].
  rewrite !bytes_app. by rewrite app_assoc, <- !app_assoc.
Qed.
