(* ===== verification/CmdArgs.v ===== *)
(** CmdArgs: the parser of command arguments, and the string and number helpers
    of the commands.
    Source: src/src/command_layer/cmd_arg_parser.hpp, src/net/util/Strings.hpp,
    src/net/util/maths.hpp.

    An argument list is a list of strings; the parser is a cursor into it with
    an error flag. Reading [args_[i]] goes through [SafeSV], which yields the
    empty string behind the end. *)
From Stdlib Require Import Ascii String.
From stdpp Require Import strings.
From S2P Require Import Prelude.
Local Open Scope Z_scope.

(** ** util *)

(** [std::tolower] and [std::toupper] in the C locale *)
Definition tolower (c : ascii) : ascii :=
  let n := nat_of_ascii c in
  if (65 <=? n)%nat && (n <=? 90)%nat then ascii_of_nat (n + 32) else c.
Definition toupper (c : ascii) : ascii :=
  let n := nat_of_ascii c in
  if (97 <=? n)%nat && (n <=? 122)%nat then ascii_of_nat (n - 32) else c.

Fixpoint StrToUpper (s : string) : string :=
  match s with EmptyString => EmptyString | String c s' => String (toupper c) (StrToUpper s') end.

(** [std::equal] of two ranges of the same length *)
Fixpoint equal_ci (a b : string) : bool :=
  match a, b with
  | String c1 a', String c2 b' => Ascii.eqb (tolower c1) (tolower c2) && equal_ci a' b'
  | _, _ => true
  end.
Definition EqualsIgnoreCaseStd (a b : string) : bool :=
  if negb (String.length a =? String.length b)%nat then false else equal_ci a b.

(** [isPowerOfTwo] of a [uint32_t] *)
Definition isPowerOfTwo (n : Z) : bool := (0 <? n) && (Z.land n (u32 (n - 1)) =? 0).

(** ** CmdArgParser *)

Record CmdArgParser : Set := mkParser {
  cur_i_ : nat;
  args_ : list string;
  error_ : bool;          (* HAS_ERROR *)
}.

Definition new_parser (args : list string) : CmdArgParser := mkParser 0 args false.

Definition SafeSV (p : CmdArgParser) (i : nat) : string :=
  if (length (args_ p) <=? i)%nat then "" else default "" (args_ p !! i).

Definition Report (p : CmdArgParser) : CmdArgParser := mkParser (length (args_ p)) (args_ p) true.
Definition HasNext (p : CmdArgParser) : bool := (cur_i_ p <? length (args_ p))%nat && negb (error_ p).
Definition HasError (p : CmdArgParser) : bool := error_ p.
Definition HasAtLeast (p : CmdArgParser) (i : nat) : bool :=
  negb (error_ p) && (Z.of_nat i <=? u64 (Z.of_nat (length (args_ p)) - Z.of_nat (cur_i_ p))).
Definition GetCurrentIndex (p : CmdArgParser) : nat := cur_i_ p.
Definition Peek (p : CmdArgParser) : string := SafeSV p (cur_i_ p).
Definition advance (p : CmdArgParser) (n : nat) : CmdArgParser := mkParser (cur_i_ p + n) (args_ p) (error_ p).

(** [std::from_chars] for [int64_t]: an optional minus sign and digits; fails
    when there is no digit or the value does not fit. *)
Fixpoint from_chars_digits (s : string) (acc : Z) (any : bool) : option (Z * string) :=
  match s with
  | String c s' =>
      let n := nat_of_ascii c in
      if (48 <=? n)%nat && (n <=? 57)%nat
      then from_chars_digits s' (acc * 10 + (Z.of_nat n - 48)) true
      else if any then Some (acc, s) else None
  | EmptyString => if any then Some (acc, s) else None
  end.
Definition from_chars (s : string) : option (Z * string) :=
  let '(neg, s') := match s with String "-" s' => (true, s') | _ => (false, s) end in
  match from_chars_digits s' 0 false with
  | Some (v, rest) =>
      let v := if neg : bool then - v else v in
      if (- 2 ^ 63 <=? v) && (v <? 2 ^ 63) then Some (v, rest) else None
  | None => None
  end.

Definition Num (p : CmdArgParser) (idx : nat) : CmdArgParser * Z :=
  match from_chars (SafeSV p idx) with
  | Some (out, EmptyString) => (p, out)
  | _ => (Report p, 0)
  end.

(** [Next<std::string_view>], [Next<int64_t>] and [Next] of several views. *)
Definition Next (p : CmdArgParser) : CmdArgParser * string :=
  if (length (args_ p) <=? cur_i_ p)%nat then (Report p, "") else (advance p 1, SafeSV p (cur_i_ p)).
Definition NextInt (p : CmdArgParser) : CmdArgParser * Z :=
  if (length (args_ p) <=? cur_i_ p)%nat then (Report p, 0) else Num (advance p 1) (cur_i_ p).
Definition NextN (p : CmdArgParser) (n : nat) : CmdArgParser * list string :=
  if (length (args_ p) <=? cur_i_ p + (n - 1))%nat then (Report p, replicate n "")
  else (advance p n, (λ shift, SafeSV p (cur_i_ p + shift)) <$> seq 0 n).
Definition NextOrDefault (p : CmdArgParser) (default_value : string) : CmdArgParser * string :=
  if HasNext p then Next p else (p, default_value).

(** The cases are pairs of a tag and a value. *)
Fixpoint MapImpl {T} (arg : string) (cases : list (string * T)) : option T :=
  match cases with
  | [] => None
  | (tag, value) :: cases' => if EqualsIgnoreCaseStd arg tag then Some value else MapImpl arg cases'
  end.
Definition MapNext {T} (p : CmdArgParser) (cases : list (string * T)) (dflt : T) : CmdArgParser * T :=
  if (length (args_ p) <=? cur_i_ p)%nat then (Report p, dflt) else
  let idx := cur_i_ p in
  let p := advance p 1 in
  match MapImpl (SafeSV p idx) cases with Some v => (p, v) | None => (Report p, dflt) end.
Definition TryMapNext {T} (p : CmdArgParser) (cases : list (string * T)) : CmdArgParser * option T :=
  if (length (args_ p) <=? cur_i_ p)%nat then (p, None) else
  match MapImpl (SafeSV p (cur_i_ p)) cases with Some v => (advance p 1, Some v) | None => (p, None) end.

Definition CheckTag (p : CmdArgParser) (tag : string) : CmdArgParser * bool :=
  if (length (args_ p) <=? cur_i_ p)%nat then (p, false) else
  if negb (EqualsIgnoreCaseStd (SafeSV p (cur_i_ p)) tag) then (p, false) else (advance p 1, true).

Definition Skip (p : CmdArgParser) (n : nat) : CmdArgParser :=
  if (length (args_ p) <? cur_i_ p + n)%nat then Report p else advance p n.
Definition Tail (p : CmdArgParser) : list string := drop (cur_i_ p) (args_ p).

(** ** Properties *)

Lemma land_pred_pow2 n x : (0 ≤ n)%Z → Z.land x (2 ^ n - 1) = x mod 2 ^ n.
Proof. intros Hn. replace (2 ^ n - 1) with (Z.ones n) by (rewrite Z.ones_equiv; lia). by rewrite Z.land_ones. Qed.

(** The cursor of a parser never leaves the list, and an error puts it at the end. *)
Record parser_ok (p : CmdArgParser) : Prop := {
  po_range : (cur_i_ p ≤ length (args_ p))%nat;
  po_error : error_ p = true → cur_i_ p = length (args_ p);
}.

Lemma Report_ok p : parser_ok (Report p).
Proof. by split. Qed.

Lemma advance_ok p n : parser_ok p → (cur_i_ p + n ≤ length (args_ p))%nat → (0 < n)%nat → parser_ok (advance p n).
Proof. intros [H1 H2] Hn Hpos. split; simpl; [done|]. intros He. specialize (H2 He). lia. Qed.

(** [isPowerOfTwo] decides whether a number is a power of two. *)
Lemma isPowerOfTwo_spec n : n < 2 ^ 32 → isPowerOfTwo n = true ↔ ∃ k, 0 ≤ k ∧ n = 2 ^ k.
Proof.
  intros Hn. unfold isPowerOfTwo. rewrite andb_true_iff, Z.ltb_lt, Z.eqb_eq. split.
  - intros [Hpos Hland]. rewrite uN_small in Hland by lia. exists (Z.log2 n). split; [apply Z.log2_nonneg|].
    pose proof (Z.log2_spec n Hpos) as [Hlo Hhi]. destruct (decide (n = 2 ^ Z.log2 n)) as [|Hne]; [done|]. exfalso.
    assert (Z.log2 (n - 1) = Z.log2 n) as Hl.
    { apply Z.log2_unique; [apply Z.log2_nonneg|]. lia. }
    assert (Z.testbit (Z.land n (n - 1)) (Z.log2 n) = true) as Hb; [|by rewrite Hland, Z.testbit_0_l in Hb].
    rewrite Z.land_spec, Z.bit_log2 by done. rewrite <- Hl. apply Z.bit_log2.
    pose proof (Z.pow_pos_nonneg 2 (Z.log2 n) ltac:(lia) (Z.log2_nonneg n)). lia.
  - intros (k & Hk & ->). pose proof (Z.pow_pos_nonneg 2 k ltac:(lia) Hk). split; [lia|].
    rewrite uN_small by lia. rewrite land_pred_pow2 by done. apply Z.mod_same. lia.
Qed.

Definition lower (s : string) : list ascii := tolower <$> list_ascii_of_string s.

(** [EqualsIgnoreCaseStd] compares the texts in lower case. *)
Lemma EqualsIgnoreCaseStd_spec a b : EqualsIgnoreCaseStd a b = true ↔ lower a = lower b.
Proof.
  unfold EqualsIgnoreCaseStd. assert (∀ a b, String.length a = String.length b → equal_ci a b = true ↔ lower a = lower b) as Hci.
  { clear. intros a. induction a as [|c a IH]; intros [|c' b] Hl; try done. simpl in Hl. injection Hl as Hl.
    change (lower (String c a)) with (tolower c :: lower a). change (lower (String c' b)) with (tolower c' :: lower b).
    simpl. rewrite andb_true_iff, Ascii.eqb_eq, (IH b Hl). split; [intros [-> ->]; done|by intros [= -> ->]]. }
  assert (∀ s, length (lower s) = String.length s) as Hlen
    by (intros s; unfold lower; rewrite length_fmap; induction s; simpl; auto).
  destruct (Nat.eqb_spec (String.length a) (String.length b)) as [E|Hne]; simpl; [by apply Hci|].
  split; [done|]. intros E. destruct Hne. by rewrite <- !Hlen, E.
Qed.
