(* ===== verification/Shards.v ===== *)
(** Shards: the set of shards, the namespaces with a slice of databases per
    shard, and the routing of keys to shards.
    Source: src/src/sharding/engine_shard_set.hpp and .cpp, namespaces.hpp and
    .cpp, cluster_support.hpp, src/src/detail/tx_base.hpp and .cpp,
    src/src/transaction_layer/transaction.hpp and .cpp.

    A shard runs the tasks that are added to its queue one after the other on
    its own thread; a task is modelled as a function of the slice it works on.
    A shard is its number; [Threads] has its thread. *)
From Stdlib Require Import Ascii String.
From stdpp Require Import gmap strings.
From S2P Require Import Prelude CompactObj DbSlice CmdArgs.
Local Open Scope Z_scope.

(** ** Namespaces *)

(** [std::vector<std::unique_ptr<DbSlice>>]; [None] is the null pointer. *)
Abbreviation Namespace := (list (option DbSlice)).

Record Namespaces : Type := mkNamespaces {
  namespaces_ : gmap string Namespace;
  default_namespace_ : option string;   (* the key of the namespace it points to *)
}.

Section shards.
Context `{StdLib}.

(** [Namespace()]: every shard builds its own slice. The order in which they do
    so does not matter ([Lifecycle]). *)
Definition build_slice (sid : nat) (ns : Namespace) : res Namespace :=
  sl ← new_slice (Z.of_nat sid); aset ns sid (Some sl).
Definition new_namespace (size : nat) : res Namespace := rfold build_slice (seq 0 size) (replicate size None).

Definition ns_slice (ns : Namespace) (sid : nat) : res DbSlice :=
  p ← aget ns sid; match p with Some sl => Ok sl | None => Fault UseAfterFree end.
Definition ns_update (ns : Namespace) (sid : nat) (sl : DbSlice) : res Namespace := aset ns sid (Some sl).

Definition GetDefaultNamespace (nss : Namespaces) : res Namespace :=
  match default_namespace_ nss ≫= λ k, namespaces_ nss !! k with
  | Some n => Ok n | None => Fault UseAfterFree
  end.
(** The lambda of [Clear] on the thread of shard [sid]: its slice of every
    namespace is destroyed. [Lifecycle] has the whole of [Clear]. *)
Definition reset_slice (sid : nat) (ns : Namespace) : res Namespace :=
  p ← aget ns sid;
  _ ← (match p with Some sl => destroy_slice sl | None => Ok tt end);
  aset ns sid None.
Definition clear_shard (sid : nat) (nss : Namespaces) : res Namespaces :=
  m ← rfold (λ '(name, ns) m, ns ← reset_slice sid ns; Ok (<[name := ns]> m)) (map_to_list (namespaces_ nss)) (namespaces_ nss);
  Ok (mkNamespaces m (default_namespace_ nss)).

(** The destructor of a namespace, and of the map. *)
Definition destroy_namespace (ns : Namespace) : res unit :=
  rfold (λ p _, match p with Some sl => destroy_slice sl | None => Ok tt end) ns tt.
Definition destroy_map (m : gmap string Namespace) : res unit := rfold (λ kv _, destroy_namespace kv.2) (map_to_list m) tt.

(** ** Routing *)

(** [Shard(key)]; the result is a [ShardId], 16 bits wide. *)
Definition Shard (size : Z) (key : string) : Z :=
  let hash := std_hash key in
  if isPowerOfTwo size then u16 (Z.land hash (u32 (size - 1))) else u16 (hash mod size).

(** [KeySlot]: [hash ^= c] sign-extends the character. *)
Definition schar (c : ascii) : Z :=
  let n := Z.of_nat (nat_of_ascii c) in if n <? 128 then n else u64 (n - 256).
Definition hash_step (hash : Z) (c : ascii) : Z := u64 (Z.lxor hash (schar c) * 16777619).
Definition KeySlot (size : Z) (key : string) : Z :=
  u16 (fold_left hash_step (list_ascii_of_string key) 2166136261 mod size).
End shards.

(** ** ShardArgs *)

(** The arguments of a command and the indexes of the keys of one shard. *)
Record ShardArgs : Type := mkShardArgs { slice_ : list string; index_ : list nat }.
(** [ShardArgs::Iterator]: a place in [index_] and an offset. *)
Record ArgIt : Set := mkArgIt { index_it_ : nat; delta_ : nat }.

Definition args_begin : ArgIt := mkArgIt 0 0.
Definition args_end (a : ShardArgs) : ArgIt := mkArgIt (length (index_ a)) 0.
Definition it_index (a : ShardArgs) (i : ArgIt) : res nat := x ← aget (index_ a) (index_it_ i); Ok (x + delta_ i)%nat.
Definition it_deref (a : ShardArgs) (i : ArgIt) : res string := x ← it_index a i; aget (slice_ a) x.
Definition it_next (a : ShardArgs) (i : ArgIt) : res ArgIt :=
  let i := mkArgIt (index_it_ i) (S (delta_ i)) in
  x ← it_index a i;
  y ← aget (index_ a) (index_it_ i);
  Ok (if (y <=? x)%nat then mkArgIt (S (index_it_ i)) 0 else i).
Definition it_eqb (i j : ArgIt) : bool := (index_it_ i =? index_it_ j)%nat && (delta_ i =? delta_ j)%nat.

(** [for (std::string_view key : keys)] *)
Fixpoint for_keys {S} (fuel : nat) (a : ShardArgs) (i : ArgIt) (f : string → S → res S) (st : S) : res S :=
  if it_eqb i (args_end a) then Ok st else
  match fuel with
  | O => Fault NoFuel
  | Datatypes.S fuel' => key ← it_deref a i; st ← f key st; i ← it_next a i; for_keys fuel' a i f st
  end.
Definition each_key {S} (a : ShardArgs) (f : string → S → res S) (st : S) : res S :=
  for_keys (length (index_ a)) a args_begin f st.

(** ** Transaction *)

Record Transaction : Set := mkTx {
  db_cntx_ : DbContext;
  full_args_ : list string;
  unique_shard_id_ : Z;
}.

Section transaction.
Context `{StdLib}.

(** [InitByArgs]; [now] is the clock. *)
Definition InitByArgs (size now : Z) (index : nat) (args : list string) : Transaction :=
  let key := if (1 <? length args)%nat then default "" (args !! 1%nat) else "" in
  mkTx (mkCntx index now) args (Shard size key).
End transaction.

Definition GetShardArgs (tx : Transaction) : ShardArgs := mkShardArgs (full_args_ tx) [1%nat].

(** [Scheduling] of a callback: it runs on the shard of the transaction, on the
    slice of that shard. *)
Definition Scheduling {A} (size : Z) (ns : Namespace) (tx : Transaction) (cb : DbSlice → res (DbSlice * A))
    : res (Namespace * A) :=
  let sid := unique_shard_id_ tx in
  _ ← cassert (sid <? size);
  sl ← ns_slice ns (Z.to_nat sid);
  '(sl, r) ← cb sl;
  ns ← ns_update ns (Z.to_nat sid) sl;
  Ok (ns, r).
