(* ===== verification/Registry.v ===== *)
(** Registry: the command descriptors and the table of commands.
    Source: src/src/command_layer/command_id.hpp and .cpp, command_registry.hpp
    and .cpp.

    A descriptor is generic in the type of its handler. The members that the
    constructor does not set hold whatever the memory held. *)
From Stdlib Require Import String.
From stdpp Require Import gmap strings.
From S2P Require Import Prelude CompactObj.
Local Open Scope Z_scope.

Record CommandId (H : Type) : Type := mkCommandId {
  name_ : string;
  opt_mask_ : Z;
  arity_ : Z;            (* int8_t: positive exact, negative at least *)
  first_key_ : Z;
  last_key_ : Z;
  family_ : Z;           (* size_t *)
  bit_index_ : Z;
  support_async_ : bool;
  handler_ : option H;
}.
Arguments mkCommandId {_} _ _ _ _ _ _ _ _ _.
Arguments name_ {_} _.
Arguments opt_mask_ {_} _.
Arguments arity_ {_} _.
Arguments first_key_ {_} _.
Arguments last_key_ {_} _.
Arguments family_ {_} _.
Arguments bit_index_ {_} _.
Arguments support_async_ {_} _.
Arguments handler_ {_} _.

Section registry.
Context `{StdLib} {F : Type}.
Implicit Types (c : CommandId F).

(** [CI{name, arity, first_key, last_key}] *)
Definition new_command (name : string) (arity first_key last_key : Z) : CommandId F :=
  mkCommandId name (u32 raw_word) arity first_key last_key raw_word raw_word false None.

Definition SetFamily c (fam : Z) : CommandId F :=
  mkCommandId (name_ c) (opt_mask_ c) (arity_ c) (first_key_ c) (last_key_ c) fam (bit_index_ c) (support_async_ c) (handler_ c).
Definition SetBitIndex c (bit : Z) : CommandId F :=
  mkCommandId (name_ c) (opt_mask_ c) (arity_ c) (first_key_ c) (last_key_ c) (family_ c) bit (support_async_ c) (handler_ c).
Definition SetFlag c (flag : Z) : CommandId F :=
  mkCommandId (name_ c) (Z.lor (opt_mask_ c) flag) (arity_ c) (first_key_ c) (last_key_ c) (family_ c) (bit_index_ c) (support_async_ c) (handler_ c).
Definition SetHandler c (f : F) (async_support : bool) : CommandId F :=
  mkCommandId (name_ c) (opt_mask_ c) (arity_ c) (first_key_ c) (last_key_ c) (family_ c) (bit_index_ c) (support_async_ c || async_support) (Some f).
Definition SetAsyncHandler c (f : F) : CommandId F :=
  mkCommandId (name_ c) (opt_mask_ c) (arity_ c) (first_key_ c) (last_key_ c) (family_ c) (bit_index_ c) true (Some f).

(** [Clone]: a descriptor with another name and the same handler; whether it
    supports asynchronous execution is not copied. *)
Definition Clone c (name : string) : CommandId F :=
  let d := new_command name (arity_ c) (first_key_ c) (last_key_ c) in
  mkCommandId (name_ d) (opt_mask_ d) (arity_ d) (first_key_ d) (last_key_ d) (family_ d) (bit_index_ d) (support_async_ d) (handler_ c).

Record CommandRegistry : Type := mkRegistry {
  cmd_map_ : gmap string (CommandId F);
  family_of_commands_ : list (list string);
  reg_bit_index_ : Z;
}.

Definition new_registry : CommandRegistry := mkRegistry ∅ [] raw_word.

(** [operator<<]: [emplace] keeps the entry that is there. *)
Definition add_command (r : CommandRegistry) c : CommandRegistry :=
  let k := name_ c in
  let c := SetFamily c (u64 (Z.of_nat (length (family_of_commands_ r)) - 1)) in
  mkRegistry (match cmd_map_ r !! k with Some _ => cmd_map_ r | None => <[k := c]> (cmd_map_ r) end)
    (family_of_commands_ r) (reg_bit_index_ r).

Definition StartFamily (r : CommandRegistry) : CommandRegistry :=
  mkRegistry (cmd_map_ r) (family_of_commands_ r ++ [[]]) 0.
(** The families are moved out of the registry. *)
Definition GetFamilies (r : CommandRegistry) : CommandRegistry * list (list string) :=
  (mkRegistry (cmd_map_ r) [] (reg_bit_index_ r), family_of_commands_ r).

Definition FindCommand (r : CommandRegistry) (cmd : string) : option (CommandId F) := cmd_map_ r !! cmd.

(** Registering a command under a new name makes it found, and only it. *)
Lemma add_command_find (r : CommandRegistry) c name : FindCommand r (name_ c) = None →
  FindCommand (add_command r c) name =
  if decide (name = name_ c) then Some (SetFamily c (u64 (Z.of_nat (length (family_of_commands_ r)) - 1))) else FindCommand r name.
Proof.
  unfold FindCommand, add_command. simpl. intros ->. case_decide as E; [subst; apply lookup_insert_eq|by apply lookup_insert_ne].
Qed.

(** A command of another name is found as before. *)
Lemma FindCommand_add_ne (r : CommandRegistry) c name : name ≠ name_ c → FindCommand (add_command r c) name = FindCommand r name.
Proof.
  intros Hne. unfold FindCommand, add_command. simpl. destruct (cmd_map_ r !! name_ c); [done|]. by apply lookup_insert_ne.
Qed.

Lemma add_command_keep (r : CommandRegistry) c d : FindCommand r (name_ c) = Some d → cmd_map_ (add_command r c) = cmd_map_ r.
Proof. unfold FindCommand, add_command. simpl. by intros ->. Qed.
End registry.
Arguments CommandRegistry _ : clear implicits.
