(* ===== verification/Commands.v ===== *)
(** Commands: the handlers of the commands and their registration.
    Source: src/src/command_layer/string_family.cpp, generic_family.cpp,
    cmd_support.hpp.

    A handler is a coroutine with one suspension: its callback runs on the shard
    of the key of the transaction, then the reply is sent. It is modelled as a
    function of the namespace of the session that returns the new namespace and
    what the handler sends. [fuel] bounds the loops that need not end. *)
From Stdlib Require Import Ascii String.
From stdpp Require Import gmap strings pretty.
From S2P Require Import Prelude Policy SlotBitmap BucketBase Bucket Segment DashTable CompactObj PrimeTable DbSlice IoBuf Resp CmdArgs Registry Shards.
Local Open Scope Z_scope.

(** What a handler does at its end: it sends a reply, or stops the server. *)
Inductive Reply : Set := SendImp (s : string) | Stop.

Definition SendERROR : Reply := SendImp (BuildError "NULL").
Definition SendInt (n : Z) : Reply := SendImp (BuildInteger n).
Definition SendString (s : string) : Reply := SendImp (BuildBulkString s).
Definition SendStatus (s : string) : Reply := SendImp (BuildSimpleString s).

(** The environment of a handler: the number of shards and its transaction. *)
Record CommandContext : Set := mkCmdCntx { shards_ : Z; tx_ : Transaction }.

Definition Handler : Type := list string → CommandContext → Namespace → res (Namespace * Reply).

(** [co_await cmd::SingleHopT(cb)] *)
Definition SingleHopT {A} (c : CommandContext) (ns : Namespace) (cb : Transaction → DbSlice → res (DbSlice * A))
    : res (Namespace * A) :=
  Scheduling (shards_ c) ns (tx_ c) (cb (tx_ c)).

Section commands.
Context `{StdLib}.
Implicit Types (sl : DbSlice) (cntx : DbContext) (c : CommandContext) (ns : Namespace).

(** ** The string family *)

Definition ReadString (pv : PrimeValue) : res string := ToString (pv_obj pv).

Definition SET_ALWAYS : Z := 0.
Definition SET_KEEP_EXPIRE : Z := 4.
Definition SET_EXPIRE_AFTER_MS : Z := 16.
Record SetParams : Set := mkSetParams { flags_ : Z; expire_after_ms_ : Z }.

(** [prime_value.SetString(value)] on the slot of the iterator. *)
Definition set_slot_string sl (db_ind : nat) (it : TableIterator) (value : string) : res DbSlice :=
  t ← get_db sl db_ind;
  '(t', _) ← update_value t it (λ v, o ← SetString (pv_obj v) value; Ok (mkValue o true, tt));
  Ok (set_db sl db_ind t').

Definition SetExisting sl cntx (params : SetParams) (value : string) (it_upd : ItAndUpdater) : res (DbSlice * OpResult unit) :=
  t ← get_db sl (db_index_ cntx);
  it ← deref_it t (iu_it_ it_upd);
  _ ← it_key t it; _ ← it_value t it;
  let at_ms := if negb (expire_after_ms_ params =? 0) then u64 (expire_after_ms_ params + time_now_ms_ cntx) else 0 in
  sl ← (if Z.land (flags_ params) SET_KEEP_EXPIRE =? 0 then
          if negb (at_ms =? 0) then AddExpire sl (db_index_ cntx) (iu_it_ it_upd) at_ms
          else '(sl, _) ← RemoveExpire sl (db_index_ cntx) (iu_it_ it_upd); Ok sl
        else Ok sl);
  sl ← set_slot_string sl (db_index_ cntx) it value;
  Ok (sl, op_ok tt).

Definition SetAddNew sl cntx (params : SetParams) (i : SliceIt) (value : string) : res DbSlice :=
  obj ← value_of_string value;
  sl ← assign_value sl (db_index_ cntx) i obj;
  if negb (expire_after_ms_ params =? 0)
  then AddExpire sl (db_index_ cntx) i (u64 (expire_after_ms_ params + time_now_ms_ cntx)) else Ok sl.

(** [SetCmd::Set] *)
Definition SetOp (fuel : nat) sl cntx (params : SetParams) (key value : string) : res (DbSlice * OpResult unit) :=
  '(sl, op_res) ← AddOrFind fuel sl cntx key None;
  if negb (is_new_ (v_ op_res)) then SetExisting sl cntx params value (v_ op_res)
  else sl ← SetAddNew sl cntx params (iu_it_ (v_ op_res)) value; Ok (sl, op_ok tt).

Inductive ParseResult : Set := Parsed (p : SetParams) | ErrorReply | NegativeExpire.

(** [while (parser.HasNext())]: only "EX" is consumed. *)
Fixpoint ParseSetParams (fuel : nat) (parser : CmdArgParser) (sparams : SetParams) : res ParseResult :=
  if HasNext parser then
    match fuel with
    | O => Fault NoFuel
    | S fuel' =>
        let '(parser, ex) := CheckTag parser "EX" in
        if ex then
          if HasError parser then Ok ErrorReply
          else ParseSetParams fuel' parser (mkSetParams (Z.lor (flags_ sparams) SET_EXPIRE_AFTER_MS) (expire_after_ms_ sparams))
        else ParseSetParams fuel' parser sparams
    end
  else Ok (Parsed sparams).

Definition CmdSet (fuel : nat) : Handler := λ args c ns,
  args ← (match args with [] => Fault OutOfBounds | _ :: args => Ok args end);
  let '(parser, kv) := NextN (new_parser args) 2 in
  let key := default "" (kv !! 0%nat) in
  let value := default "" (kv !! 1%nat) in
  params ← ParseSetParams fuel parser (mkSetParams SET_ALWAYS 0);
  match params with
  | Parsed sparams =>
      '(ns, result) ← SingleHopT c ns (λ t sl, SetOp fuel sl (db_cntx_ t) sparams key value);
      Ok (ns, if is_ok result then SendStatus "OK" else SendERROR)
  | _ => Fault BadVariant
  end.

(** The callback of [CmdGet]. *)
Definition GetOp sl cntx (key : string) : res (OpResult string) :=
  it_res ← FindReadOnly sl cntx key;
  t ← get_db sl (db_index_ cntx);
  it_res ← launder t it_res;
  match it_ it_res with
  | None => Ok (mkResult KEY_NOTFOUND "")
  | Some it => _ ← it_key t it; v ← it_value t it; s ← ReadString v; Ok (op_ok s)
  end.

Definition CmdGet : Handler := λ args c ns,
  key ← aget args 1;
  '(ns, result) ← SingleHopT c ns (λ t sl, r ← GetOp sl (db_cntx_ t) key; Ok (sl, r));
  Ok (ns, if is_ok result then SendString (v_ result) else SendERROR).

(** ** The generic family *)

(** [IsValid(it.GetInnerIt())] *)
Definition valid_it sl cntx (i : SliceIt) : res bool :=
  t ← get_db sl (db_index_ cntx); i ← launder t i; Ok (bool_decide (it_ i ≠ None)).

Definition OpDel sl cntx (keys : ShardArgs) : res (DbSlice * OpResult Z) :=
  '(sl, r) ← each_key keys (λ key '(sl, r),
    iu ← FindMutable sl cntx key;
    let it := iu_it_ iu in
    ok ← valid_it sl cntx it;
    if negb ok then Ok (sl, r) else
    sl ← Del sl cntx it; Ok (sl, u32 (r + 1))) (sl, 0);
  Ok (sl, op_ok r).

Definition CmdDel : Handler := λ args c ns,
  '(ns, result) ← SingleHopT c ns (λ t sl, '(sl, res) ← OpDel sl (db_cntx_ t) (GetShardArgs t);
                                           Ok (sl, u32 (0 + value_or res 0)));
  Ok (ns, SendInt result).
Definition Delex : Handler := λ args c ns, _ ← cassert (negb (length args =? 0)%nat); CmdDel args c ns.

Definition Ping : Handler := λ args c ns,
  if (1 <? length args)%nat then Ok (ns, SendERROR) else Ok (ns, SendStatus "PONG").

Definition OpExists sl cntx (keys : ShardArgs) : res (OpResult Z) :=
  r ← each_key keys (λ key r, i ← FindReadOnly sl cntx key; ok ← valid_it sl cntx i;
                              Ok (u32 (r + (if ok : bool then 1 else 0)))) 0;
  Ok (op_ok r).
Definition Exists : Handler := λ args c ns,
  '(ns, result) ← SingleHopT c ns (λ t sl, res ← OpExists sl (db_cntx_ t) (GetShardArgs t);
                                           Ok (sl, u32 (0 + value_or res 0)));
  Ok (ns, SendInt result).

(** [std::atoi]: white space, a sign, digits; undefined outside [int]. *)
Fixpoint atoi_digits (s : string) (acc : Z) : Z :=
  match s with
  | String ch s' => if isdigit ch then atoi_digits s' (acc * 10 + digit_val ch) else acc
  | EmptyString => acc
  end.
Definition isspace (ch : ascii) : bool :=
  let n := nat_of_ascii ch in (n =? 32)%nat || ((9 <=? n)%nat && (n <=? 13)%nat).
Fixpoint atoi_space (s : string) : string :=
  match s with String ch s' => if isspace ch then atoi_space s' else s | EmptyString => s end.
Definition atoi (s : string) : res Z :=
  let v := match atoi_space s with
           | String "-" s' => - atoi_digits s' 0
           | String "+" s' => atoi_digits s' 0
           | s' => atoi_digits s' 0
           end in
  if (- 2 ^ 31 <=? v) && (v <? 2 ^ 31) then Ok v else Fault SignedOverflow.

Definition ExpireOp sl cntx (key : string) (sec : Z) : res (DbSlice * OpResult unit) :=
  find_res ← FindMutable sl cntx key;
  ok ← valid_it sl cntx (iu_it_ find_res);
  if negb ok then Ok (sl, mkResult KEY_NOTFOUND tt) else UpdateExpire sl cntx (iu_it_ find_res) sec.
Definition CmdExpire (key : string) (sec : Z) : Handler := λ _ c ns,
  '(ns, res) ← SingleHopT c ns (λ t sl, ExpireOp sl (db_cntx_ t) key sec);
  Ok (ns, if is_ok res then SendStatus "OK" else SendERROR).
(** The key is taken from [args[0]], which is the name of the command. *)
Definition Expire : Handler := λ args c ns,
  key ← aget args 0; sec ← aget args 1; int_arg ← atoi sec; CmdExpire key int_arg args c ns.

(** The key of a valid iterator, with its value checked. *)
Definition ExpireTimeOp sl cntx (key : string) (f : Z → Z) : res (OpResult Z) :=
  i ← FindReadOnly sl cntx key;
  t ← get_db sl (db_index_ cntx);
  i ← launder t i;
  match it_ i with
  | None => Ok (mkResult KEY_NOTFOUND 0)
  | Some it =>
      k ← it_key t it; _ ← it_value t it;
      if negb (HasExpire k) then Ok (mkResult SKIPPED 0) else Ok (op_ok (i64 (f (GetExpireTime k))))
  end.
Definition CmdExpireTime (key : string) : Handler := λ _ c ns,
  '(ns, res) ← SingleHopT c ns (λ t sl, r ← ExpireTimeOp sl (db_cntx_ t) key (λ e, e); Ok (sl, r));
  Ok (ns, if is_ok res then SendInt (v_ res) else SendERROR).
Definition ExpireTime : Handler := λ args c ns, key ← aget args 0; CmdExpireTime key args c ns.
Definition CmdTtl (key : string) : Handler := λ _ c ns,
  '(ns, res) ← SingleHopT c ns (λ t sl, r ← ExpireTimeOp sl (db_cntx_ t) key
                                             (λ e, u64 (e - time_now_ms_ (db_cntx_ t))); Ok (sl, r));
  Ok (ns, if is_ok res then SendInt (v_ res) else SendERROR).
Definition Ttl : Handler := λ args c ns, key ← aget args 0; CmdTtl key args c ns.

Definition Client_Info : Handler := λ args c ns,
  if bool_decide (args = ["CLIENT"; "SETINFO"; "LIB-NAME"; "redis-py"]%string)
  then Ok (ns, SendStatus "OK") else Ok (ns, SendERROR).
Definition ShutDown : Handler := λ _ c ns, Ok (ns, Stop).

(** ** Registration *)

Definition RegisterStringFamily (fuel : nat) (r : CommandRegistry Handler) : CommandRegistry Handler :=
  let r := StartFamily r in
  let r := add_command r (SetAsyncHandler (new_command "SET" (-3) 1 1) (CmdSet fuel)) in
  add_command r (SetAsyncHandler (new_command "GET" 2 1 1) CmdGet).

Definition RegisterGeneric (r : CommandRegistry Handler) : CommandRegistry Handler :=
  let r := StartFamily r in
  let r := add_command r (SetHandler (new_command "DEL" (-2) 1 (-1)) Delex false) in
  let r := add_command r (SetHandler (new_command "PING" (-1) 0 0) Ping false) in
  let r := add_command r (SetHandler (new_command "EXISTS" (-2) 1 (-1)) Exists false) in
  let r := add_command r (SetHandler (new_command "EXPIRE" (-3) 1 1) Expire false) in
  let r := add_command r (SetHandler (new_command "TTL" 2 1 1) Ttl false) in
  let r := add_command r (SetHandler (new_command "CLIENT" (-4) 0 0) Client_Info false) in
  add_command r (SetHandler (new_command "SHUTDOWN" 1 0 0) ShutDown false).

Definition CIs (fuel : nat) : CommandRegistry Handler := RegisterGeneric (RegisterStringFamily fuel new_registry).
End commands.
