(* ===== verification/CommandsInv.v ===== *)
(** CommandsInv: the store that the shards of a namespace hold together, and the
    lemmas on the callbacks of the commands. *)
From Stdlib Require Import Ascii String.
From stdpp Require Import gmap strings pretty.
From S2P Require Import Prelude Policy SlotBitmap BucketBase Bucket Segment SegmentInv SegmentOps SegmentSplit DashTable DashTableInv DashTableGrow DashTableValue DashTableOps DashTableErase DashMap CompactObj PrimeTable DbSlice DbSliceInv DbSliceOps IoBuf Resp CmdArgs Registry Shards Commands.
Local Open Scope Z_scope.

Section routing.
Context `{StdLib}.

(** The route of a key is a shard. *)
Lemma Shard_spec size key : 0 < size ≤ 2 ^ 16 → 0 ≤ Shard size key < size ∧ Shard size key = std_hash key mod size.
Proof.
  intros Hs. pose proof (std_hash_range key). pose proof (Z.mod_pos_bound (std_hash key) size ltac:(lia)).
  assert (Shard size key = std_hash key mod size) as E; [|rewrite E; lia]. unfold Shard.
  destruct (isPowerOfTwo size) eqn:Ep.
  - apply (isPowerOfTwo_spec size ltac:(lia)) in Ep as (k & Hk & ->). rewrite (uN_small 32), land_pred_pow2 by lia.
    apply uN_small. lia.
  - apply uN_small. lia.
Qed.
End routing.

Section store.
Context `{StdLib} (size : nat) (Hsize : 0 < Z.of_nat size ≤ 2 ^ 16).
Implicit Types (m : gmap string string) (key v : string) (sid : nat) (ns : Namespace) (sl : DbSlice).

Definition shard_of key : nat := Z.to_nat (Shard (Z.of_nat size) key).

Lemma shard_of_spec key : (shard_of key < size)%nat ∧ Z.of_nat (shard_of key) = Shard (Z.of_nat size) key.
Proof. unfold shard_of. destruct (Shard_spec (Z.of_nat size) key) as [? _]; [done|lia]. Qed.

(** The part of the store that lives on a shard, as its table denotes it. *)
Definition shard_map sid m : gmap string (option string) := filter (λ kv, shard_of kv.1 = sid) (Some <$> m).

Lemma shard_map_lookup sid m key : shard_of key = sid → shard_map sid m !! key = Some <$> m !! key.
Proof.
  intros Hk. unfold shard_map. destruct (m !! key) as [v|] eqn:E; simpl.
  - apply map_lookup_filter_Some. rewrite lookup_fmap, E. done.
  - apply map_lookup_filter_None. left. by rewrite lookup_fmap, E.
Qed.

Lemma shard_map_insert sid m key v : shard_map sid (<[key := v]> m) =
  if decide (shard_of key = sid) then <[key := Some v]> (shard_map sid m) else shard_map sid m.
Proof.
  unfold shard_map. rewrite fmap_insert. case_decide as Hk.
  - by apply map_filter_insert_True.
  - rewrite map_filter_insert_False by done. apply map_filter_delete_not. intros y _. done.
Qed.

Lemma shard_map_delete sid m key : shard_map sid (delete key m) =
  if decide (shard_of key = sid) then delete key (shard_map sid m) else shard_map sid m.
Proof.
  unfold shard_map. rewrite fmap_delete. case_decide as Hk.
  - by rewrite map_filter_delete.
  - apply map_filter_delete_not. intros y _. done.
Qed.

(** Database [d] of the namespace holds the store [m], spread over the shards. *)
Record ns_rep (fresh : bool) (d : nat) ns m : Prop := {
  ns_length : List.length ns = size;
  ns_slices : ∀ sid, (sid < size)%nat → ∃ sl, ns !! sid = Some (Some sl) ∧ slice_rep fresh sl d (shard_map sid m);
  ns_others : ∀ sid sl, ns !! sid = Some (Some sl) → others_ok sl d;
}.

(** A namespace in which nothing was erased is one in which something may have been. *)
Lemma ns_rep_loose d ns m : ns_rep true d ns m → ns_rep false d ns m.
Proof.
  intros [Hlen Hsh Ho]. split; [done| |done]. intros sid Hs. destruct (Hsh sid Hs) as (sl & E & Hsl).
  exists sl. split; [done|by apply slice_rep_loose].
Qed.

(** A change of the slice of one shard. *)
Lemma ns_rep_upd fresh d ns m m' key sl : ns_rep fresh d ns m →
  slice_rep fresh sl d (shard_map (shard_of key) m') → others_ok sl d →
  (∀ sid, sid ≠ shard_of key → shard_map sid m' = shard_map sid m) →
  ns_rep fresh d (<[shard_of key := Some sl]> ns) m'.
Proof.
  intros [Hl Hns Ho] Hsl Hsl2 Hother. split; [by rewrite length_insert| |].
  - intros sid Hsid. destruct (decide (sid = shard_of key)) as [->|Hne].
    + exists sl. split; [apply list_lookup_insert_eq; lia|done].
    + destruct (Hns sid Hsid) as (sl' & E & Hsl'). exists sl'. rewrite list_lookup_insert_ne by done.
      split; [done|by rewrite Hother].
  - intros sid sl' [(_ & [= <-] & _)|[_ E]]%list_lookup_insert_Some; [done|by apply (Ho sid)].
Qed.

Lemma ns_rep_id fresh d ns m key sl : ns_rep fresh d ns m → ns !! shard_of key = Some (Some sl) →
  <[shard_of key := Some sl]> ns = ns.
Proof. intros _ E. by apply list_insert_id. Qed.

(** The callback of a command runs on the slice of the shard of its key. *)
Lemma hop_spec {A} fresh d ns m key tx (cb : DbSlice → res (DbSlice * A)) (Q : DbSlice → A → Prop) :
  ns_rep fresh d ns m → unique_shard_id_ tx = Shard (Z.of_nat size) key →
  (∀ sl, ns !! shard_of key = Some (Some sl) → slice_rep fresh sl d (shard_map (shard_of key) m) →
         runs (cb sl) (λ '(sl', r), Q sl' r)) →
  runs (Scheduling (Z.of_nat size) ns tx cb) (λ '(ns', r), ∃ sl', ns' = <[shard_of key := Some sl']> ns ∧ Q sl' r).
Proof.
  intros [Hl Hns _] Hsid Hcb. unfold Scheduling. rewrite Hsid. destruct (shard_of_spec key) as [Hlt E].
  rewrite cassert_true, bind_ok by (apply Z.ltb_lt; lia). change (Z.to_nat _) with (shard_of key).
  destruct (Hns _ Hlt) as (sl & Esl & Hsl). unfold ns_slice. rewrite (aget_some _ _ _ Esl), !bind_ok.
  rbind (Hcb sl Esl Hsl). intros [sl' r] HQ. unfold ns_update. rewrite (aset_some _ _ _ _ Esl), bind_ok. apply runs_ok. eauto.
Qed.
End store.

Section callbacks.
Context `{StdLib}.
Implicit Types (sl : DbSlice) (m : gmap string (option string)) (key : string) (cntx : DbContext).

(** The slot of an iterator that points to its key gets a new string. *)
Lemma set_slot_spec fresh sl d t m i it (e : entry string (option string)) v : get_db sl d = Ok t →
  rep (PO:=prime_ok fresh) t m → t_holds t it e → e_key e = key_ i → it_ i = Some it →
  runs (set_slot_string sl d it v) (λ sl', others_kept sl sl' d ∧ slice_rep fresh sl' d (<[key_ i := Some v]> m)).
Proof.
  intros Hdb Hr He Hk Hi. unfold set_slot_string. rewrite Hdb, bind_ok.
  eapply runs_bind; [apply (update_through fresh t m i it e _ (Some v) Hr He Hk Hi); apply (set_value_string_spec v)|].
  intros [t' u] [Hr' _]. apply runs_ok. split; [by apply others_kept_set|]. exists t'. split; [by eapply get_set_db|done].
Qed.

(** [SetCmd::Set] without an expiry time stores the value, new key or not. *)
Lemma SetOp_spec sl cntx m key v params fuel D : slice_rep true sl (db_index_ cntx) m →
  expire_after_ms_ params = 0 → Z.land (flags_ params) SET_KEEP_EXPIRE = 0 →
  (∀ t, get_db sl (db_index_ cntx) = Ok t → fits D t key) → (D < fuel)%nat →
  runs (SetOp fuel sl cntx params key v) (λ '(sl', r), is_ok r = true ∧ others_kept sl sl' (db_index_ cntx) ∧
    slice_rep true sl' (db_index_ cntx) (<[key := Some v]> m)).
Proof.
  intros (t & Hdb & Hr) Hexp Hkeep Hfit Hfuel. unfold SetOp. destruct (m !! key) as [w|] eqn:Hw.
  - destruct (AddOrFind_found true sl cntx t m key w fuel Hdb Hr Hw) as ([sl' r] & -> & -> & _ & Hnew & Hk & Hp).
    rewrite bind_ok, Hnew. cbn [negb]. unfold SetExisting. rewrite Hdb, bind_ok.
    destruct (deref_valid true t m _ Hr Hp) as (it & e & Hi & He & Hke & ->). rewrite bind_ok.
    pose proof Hr as [(G & Hd & _) _].
    rbind (it_key_spec (PO:=prime_ok true) t G it e Hd He). intros _ _.
    rbind (it_value_spec (PO:=prime_ok true) t G it e Hd He). intros _ _.
    rewrite Hexp, Hkeep. cbn [Z.eqb negb].
    destruct (RemoveExpire_spec true sl _ t m _ Hdb Hr Hp) as ([sl2 b] & -> & Ho2 & t2 & Hdb2 & Hr2 & Hp2). rewrite !bind_ok.
    unfold points_to in Hp2. rewrite Hi in Hp2. destruct Hp2 as (e2 & He2 & Hke2).
    rbind (set_slot_spec true sl2 _ t2 m (iu_it_ (v_ r)) it e2 v Hdb2 Hr2 He2 Hke2 Hi). intros sl3 [Ho3 Hsl3]. apply runs_ok.
    split_and!; [done|by eapply others_kept_trans|]. by rewrite Hk in Hsl3.
  - destruct (AddOrFind_new sl cntx t m key fuel D Hdb Hr Hw (Hfit t Hdb) Hfuel) as ([sl' r] & -> & _ & Hnew & Hk & Ho1 & t1 & Hdb1 & Hr1 & Hp1).
    rewrite bind_ok, Hnew. cbn [negb]. unfold SetAddNew.
    destruct (value_of_string v) as [obj|] eqn:Hobj; [|done]. rewrite bind_ok.
    destruct (assign_value_spec sl' _ t1 _ _ v obj Hobj Hdb1 Hr1 Hp1) as (sl2 & -> & Ho2 & t2 & Hdb2 & Hr2 & _). rewrite bind_ok.
    rewrite Hexp. cbn [Z.eqb negb]. rewrite bind_ok. apply runs_ok. split_and!; [done|by eapply others_kept_trans|].
    rewrite Hk, insert_insert_eq in Hr2. by exists t2.
Qed.

Lemma value_text fresh t G it (e : entry string (option string)) w : dir_wf (PO:=prime_ok fresh) t G →
  t_holds t it e → e_val e = Some w → runs (v ← it_value t it; ReadString v) (λ s, s = w).
Proof.
  intros Hd He Ew. rbind (it_value_spec (PO:=prime_ok fresh) t G it e Hd He).
  intros [[[s| |] ex ik tg] wr] [[[Ha Ht] Hwr] Ev]; simpl in *; try done. unfold value_of in Ev. simpl in Ev.
  destruct wr; [|congruence]. rewrite (Hwr eq_refl). unfold ReadString, ToString. simpl. apply runs_ok. congruence.
Qed.

(** The callback of GET reads the value of the key. *)
Lemma GetOp_spec fresh sl cntx m key : slice_rep fresh sl (db_index_ cntx) m →
  (∀ k w, m !! k = Some w → is_Some w) →
  runs (GetOp sl cntx key) (λ r, match m !! key with
    | Some (Some v) => r = op_ok v | _ => st_ r = KEY_NOTFOUND end).
Proof.
  intros (t & Hdb & Hr) Hall. unfold GetOp. pose proof Hr as [(G & Hd & _) _].
  destruct (FindReadOnly_spec fresh sl cntx t m key Hdb Hr) as (i & -> & Hk & HP). rewrite bind_ok, Hdb, bind_ok.
  destruct (m !! key) as [w|] eqn:Hw.
  - destruct (Hall _ _ Hw) as [v ->]. destruct (deref_valid fresh t m i Hr HP) as (it & e & Hi & He & Hke & E).
    unfold deref_it in E. apply bind_ok_inv in E as (i' & -> & E). rewrite bind_ok. destruct (it_ i') as [it'|]; [|done].
    injection E as ->. rbind (it_key_spec (PO:=prime_ok fresh) t G it e Hd He). intros _ _.
    pose proof (holds_lookup fresh t m it e Hr He) as Hm. rewrite Hke, Hk, Hw in Hm. injection Hm as Hm.
    destruct (value_text fresh t G it e v Hd He (eq_sym Hm)) as (s & E & ->).
    apply bind_ok_inv in E as (pv & -> & E). rewrite bind_ok, E, bind_ok. by apply runs_ok.
  - unfold launder. rewrite HP, bind_ok, HP. by apply runs_ok.
Qed.

(** [IsValid] of a repaired iterator. *)
Lemma valid_it_spec fresh sl cntx t m i : get_db sl (db_index_ cntx) = Ok t → rep (PO:=prime_ok fresh) t m →
  points_to t i ∨ it_ i = None → valid_it sl cntx i = Ok (bool_decide (it_ i ≠ None)).
Proof.
  intros Hdb Hr Hi. unfold valid_it. rewrite Hdb, bind_ok. destruct Hi as [Hp|Hn].
  - destruct (deref_valid fresh t m i Hr Hp) as (it & e & Hi & _ & _ & E). unfold deref_it in E.
    apply bind_ok_inv in E as (i' & -> & E). rewrite bind_ok. destruct (it_ i') as [it'|]; [|done]. rewrite Hi. by rewrite !bool_decide_true.
  - unfold launder. by rewrite Hn, bind_ok, Hn.
Qed.

(** The loop over the keys of a shard runs over the arguments at its indexes. *)
Lemma each_key_spec {S} (args : list string) (idx : list nat) (keys : list string) (f : string → S → res S) (st : S) :
  Forall2 (λ x k, args !! x = Some k) idx keys →
  each_key (mkShardArgs args idx) f st = rfold f keys st.
Proof.
  unfold each_key. intros Hf.
  assert (∀ pre rest ks st, idx = pre ++ rest → Forall2 (λ x k, args !! x = Some k) rest ks →
    for_keys (List.length rest) (mkShardArgs args idx) (mkArgIt (List.length pre) 0) f st = rfold f ks st) as Hgen; [|by apply (Hgen [] idx)].
  clear st Hf. intros pre rest. revert pre. induction rest as [|x rest IH]; intros pre ks st Hidx Hks.
  - apply Forall2_nil_inv_l in Hks as ->. simpl. unfold it_eqb. simpl. rewrite Hidx, app_nil_r, Nat.eqb_refl. done.
  - apply Forall2_cons_inv_l in Hks as (k & ks' & Hx & Hks' & ->). cbn [for_keys List.length].
    unfold it_eqb at 1. simpl index_it_. unfold args_end. simpl. rewrite (proj2 (Nat.eqb_neq _ _)) by (rewrite Hidx, length_app; simpl; lia).
    assert (idx !! List.length pre = Some x) as Hat by (rewrite Hidx; by apply list_lookup_middle).
    unfold it_deref, it_index. simpl. rewrite (aget_some _ _ _ Hat), bind_ok, Nat.add_0_r. simpl. rewrite (aget_some _ _ _ Hx), bind_ok.
    destruct (f k st) as [st'|]; [|done]. rewrite !bind_ok. unfold it_next, it_index. simpl.
    rewrite (aget_some _ _ _ Hat), !bind_ok. rewrite (proj2 (Nat.leb_le _ _)) by lia.
    specialize (IH (pre ++ [x]) ks' st'). rewrite length_app, Nat.add_1_r in IH. apply IH; [by rewrite Hidx, <- app_assoc|done].
Qed.

(** The callback of DEL on one key. *)
Lemma OpDel_spec sl cntx m (args : list string) key : slice_rep false sl (db_index_ cntx) m → args !! 1%nat = Some key →
  runs (OpDel sl cntx (mkShardArgs args [1%nat])) (λ '(sl', r),
    r = op_ok (if decide (is_Some (m !! key)) then 1 else 0) ∧ others_kept sl sl' (db_index_ cntx) ∧
    slice_rep false sl' (db_index_ cntx) (delete key m)).
Proof.
  intros (t & Hdb & Hr) Hkey. unfold OpDel. rewrite (each_key_spec args [1%nat] [key]) by (by repeat constructor). cbn [rfold].
  destruct (FindMutable_spec false sl cntx t m key Hdb Hr) as (iu & -> & HP). rewrite bind_ok.
  destruct (m !! key) as [w|] eqn:Hw.
  - destruct HP as (Hp & Hk & _). rewrite (valid_it_spec false sl cntx t m (iu_it_ iu) Hdb Hr (or_introl Hp)), bind_ok.
    destruct (points_in_range false t m (iu_it_ iu) Hr Hp) as (Hin & Hne & Hs). rewrite bool_decide_true by done. cbn [negb].
    destruct (Del_spec sl cntx t m (iu_it_ iu) Hdb Hr Hin Hne Hs) as (sl' & -> & Ho & Hsl'). rewrite !bind_ok.
    apply runs_ok. rewrite Hk in Hsl'. split_and!; [by rewrite decide_True by eauto|done|done].
  - subst iu. rewrite (valid_it_spec false sl cntx t m (iu_it_ no_it) Hdb Hr (or_intror eq_refl)), bind_ok. cbn.
    apply runs_ok. split_and!; [by rewrite decide_False by (by intros [? ?])|done|rewrite delete_id by done; by exists t].
Qed.

(** The callback of EXISTS on one key. *)
Lemma OpExists_spec fresh sl cntx m (args : list string) key : slice_rep fresh sl (db_index_ cntx) m → args !! 1%nat = Some key →
  runs (OpExists sl cntx (mkShardArgs args [1%nat])) (λ r, r = op_ok (if decide (is_Some (m !! key)) then 1 else 0)).
Proof.
  intros (t & Hdb & Hr) Hkey. unfold OpExists. rewrite (each_key_spec args [1%nat] [key]) by (by repeat constructor). cbn [rfold].
  destruct (FindReadOnly_spec fresh sl cntx t m key Hdb Hr) as (i & -> & Hk & HP). rewrite bind_ok.
  destruct (m !! key) as [w|] eqn:Hw.
  - rewrite (valid_it_spec fresh sl cntx t m i Hdb Hr (or_introl HP)), bind_ok.
    destruct (points_in_range fresh t m i Hr HP) as (_ & Hne & _). rewrite bool_decide_true by done. cbn.
    apply runs_ok. by rewrite decide_True by eauto.
  - rewrite (valid_it_spec fresh sl cntx t m i Hdb Hr (or_intror HP)), bind_ok. rewrite HP. cbn.
    apply runs_ok. by rewrite decide_False by (by intros [? ?]).
Qed.
End callbacks.
