(* ===== verification/CommandsSpec.v ===== *)
(** CommandsSpec: the theorems on the commands: what each handler replies and
    what it does to the store that the shards hold together. *)
From Stdlib Require Import Ascii String.
From stdpp Require Import gmap strings pretty.
From S2P Require Import Prelude Policy SlotBitmap BucketBase Bucket Segment SegmentInv SegmentOps SegmentSplit DashTable DashTableInv DashTableGrow DashTableValue DashTableOps DashTableErase DashMap CompactObj PrimeTable DbSlice DbSliceInv DbSliceOps IoBuf Resp CmdArgs Registry Shards Commands CommandsInv.
Local Open Scope Z_scope.

(** ** Routing *)

(** Every key is routed to a shard that exists, for every number of shards
    up to 65536; the shortcut for powers of two agrees with the remainder. *)
Theorem Shard_routes `{StdLib} size key : 0 < size ≤ 2 ^ 16 →
  0 ≤ Shard size key < size ∧ Shard size key = std_hash key mod size.
Proof. apply Shard_spec. Qed.

(** ** The argument parser *)


Definition is_EX (s : string) : Prop := EqualsIgnoreCaseStd s "EX" = true.

(** One turn of the loop over the options. *)
Lemma ParseSetParams_step parser a rest sp fuel : error_ parser = false → drop (cur_i_ parser) (args_ parser) = a :: rest →
  ParseSetParams (S fuel) parser sp =
  if EqualsIgnoreCaseStd a "EX" then ParseSetParams fuel (advance parser 1) (mkSetParams (Z.lor (flags_ sp) SET_EXPIRE_AFTER_MS) (expire_after_ms_ sp))
  else ParseSetParams fuel parser sp.
Proof.
  intros He Hd. assert (args_ parser !! cur_i_ parser = Some a) as Ha.
  { rewrite <- (Nat.add_0_r (cur_i_ parser)), <- lookup_drop, Hd. done. }
  pose proof (lookup_lt_Some _ _ _ Ha) as Hlt. cbn [ParseSetParams].
  unfold HasNext at 1. rewrite (proj2 (Nat.ltb_lt _ _) Hlt), He. cbn [andb negb].
  assert (SafeSV parser (cur_i_ parser) = a) as Hs by (unfold SafeSV; by rewrite (proj2 (Nat.leb_gt _ _) Hlt), Ha).
  unfold CheckTag. rewrite (proj2 (Nat.leb_gt _ _) Hlt), Hs. destruct (EqualsIgnoreCaseStd a "EX"); cbn [negb]; [|done].
  unfold HasError, advance. cbn [error_]. by rewrite He.
Qed.

Lemma ParseSetParams_EX parser sp rest fuel : error_ parser = false → drop (cur_i_ parser) (args_ parser) = rest →
  Forall is_EX rest → (List.length rest ≤ fuel)%nat →
  ∃ f, ParseSetParams fuel parser sp = Ok (Parsed (mkSetParams f (expire_after_ms_ sp))) ∧
       (Z.land (flags_ sp) SET_KEEP_EXPIRE = 0 → Z.land f SET_KEEP_EXPIRE = 0).
Proof.
  revert parser sp fuel. induction rest as [|a rest IH]; intros parser sp fuel He Hd HEX Hf.
  - exists (flags_ sp). assert (HasNext parser = false) as Hn.
    { unfold HasNext. apply (f_equal List.length) in Hd. rewrite length_drop in Hd. simpl in Hd.
      rewrite (proj2 (Nat.ltb_ge _ _)); [done|lia]. }
    destruct fuel; cbn [ParseSetParams]; rewrite Hn; (split; [by destruct sp|done]).
  - destruct fuel as [|fuel]; [simpl in Hf; lia|]. apply Forall_cons in HEX as [Ha HEX].
    rewrite (ParseSetParams_step parser a rest sp fuel He Hd). unfold is_EX in Ha. rewrite Ha.
    destruct (IH (advance parser 1) (mkSetParams (Z.lor (flags_ sp) SET_EXPIRE_AFTER_MS) (expire_after_ms_ sp)) fuel) as (f & E & Hk); try done.
    { simpl. rewrite <- drop_drop, Hd. done. }
    { simpl in Hf. lia. }
    exists f. split; [done|]. intros Hz. apply Hk. simpl. rewrite Z.land_lor_distr_l, Hz. done.
Qed.

(** (C19) The loop over the options of SET ends exactly when every option is EX:
    any other argument, the seconds behind EX included, is looked at for ever. *)
Theorem ParseSetParams_terminates parser sp : error_ parser = false →
  (∃ fuel r, ParseSetParams fuel parser sp = Ok r) ↔ Forall is_EX (Tail parser).
Proof.
  intros He. unfold Tail. split.
  - intros (fuel & r & E). remember (drop (cur_i_ parser) (args_ parser)) as rest eqn:Hd. symmetry in Hd.
    revert parser sp rest He Hd E. induction fuel as [|fuel IH]; intros parser sp rest He Hd E.
    + destruct rest as [|a rest]; [done|]. exfalso. cbn [ParseSetParams] in E. unfold HasNext in E.
      assert (cur_i_ parser < List.length (args_ parser))%nat as Hlt.
      { apply (f_equal List.length) in Hd. rewrite length_drop in Hd. simpl in Hd. lia. }
      rewrite (proj2 (Nat.ltb_lt _ _) Hlt), He in E. done.
    + destruct rest as [|a rest]; [done|]. rewrite (ParseSetParams_step parser a rest sp fuel He Hd) in E.
      destruct (EqualsIgnoreCaseStd a "EX") eqn:Ea.
      * apply Forall_cons. split; [done|]. eapply (IH (advance parser 1)); [done| |exact E]. simpl. by rewrite <- drop_drop, Hd.
      * by eapply (IH parser).
  - intros HEX. destruct (ParseSetParams_EX parser sp _ _ He eq_refl HEX (le_n _)) as (f & E & _). eauto.
Qed.

(** ** The commands *)

Section commands.
Context `{StdLib} (size : nat) (Hsize : 0 < Z.of_nat size ≤ 2 ^ 16) (d : nat) (now : Z).
Implicit Types (m : gmap string string) (key v : string) (ns : Namespace) (args : list string).

(** The context of a command, as the session builds it. *)
Definition cntx_of args : CommandContext := mkCmdCntx (Z.of_nat size) (InitByArgs (Z.of_nat size) now d args).

Definition room_in_shard (D : nat) ns key : Prop :=
  ∀ sl t, ns !! shard_of size key = Some (Some sl) → get_db sl d = Ok t → fits D t key.

Lemma shard_map_all_some sid m : ∀ k w, shard_map size sid m !! k = Some w → is_Some w.
Proof. intros k w [Hw _]%map_lookup_filter_Some. rewrite lookup_fmap in Hw. destruct (m !! k); simpl in Hw; by simplify_eq. Qed.

Lemma CmdSet_run name key v opts ns m fuel D : ns_rep size true d ns m →
  Forall is_EX opts → room_in_shard D ns key → (D < fuel)%nat → (List.length opts ≤ fuel)%nat →
  let args := name :: key :: v :: opts in
  runs (CmdSet fuel args (cntx_of args) ns) (λ '(ns', r), r = SendStatus "OK" ∧ ns_rep size true d ns' (<[key := v]> m)).
Proof.
  intros Hns HEX Hroom Hfuel Hopts args. unfold CmdSet, args. rewrite bind_ok.
  unfold NextN, new_parser. cbn [List.length args_ cur_i_ Nat.leb Nat.add Nat.sub]. cbn -[SetOp shard_of].
  destruct (ParseSetParams_EX (mkParser 2 (key :: v :: opts) false) (mkSetParams SET_ALWAYS 0) opts fuel) as (f & E & Hk); try done.
  unfold advance. cbn [cur_i_ args_ error_ Nat.add]. rewrite E, bind_ok.
  eapply runs_bind; [eapply (hop_spec size Hsize true d ns m key _ _ (λ sl r, is_ok r = true ∧ others_ok sl d ∧
    slice_rep true sl d (<[key := Some v]> (shard_map size (shard_of size key) m))) Hns)|].
  - done.
  - intros sl Esl Hsl. eapply runs_mono; [eapply (SetOp_spec sl (mkCntx d now) _ key v _ fuel D Hsl); [done|by apply Hk| |exact Hfuel]|].
    + intros t Ht. by apply (Hroom sl t).
    + intros [sl' r] (? & Hk' & ?). split_and!; [done| |done]. eapply others_ok_kept; [by eapply (ns_others _ _ _ _ _ Hns)|done].
  - intros [ns' r] (sl' & -> & Hok & Ho & Hsl'). apply runs_ok. rewrite Hok. split; [done|].
    apply (ns_rep_upd size true d ns m); [done|by rewrite shard_map_insert, decide_True|done|].
    intros sid Hne. by rewrite shard_map_insert, decide_False.
Qed.


Lemma CmdGet_run fresh name key rest ns m : ns_rep size fresh d ns m →
  let args := name :: key :: rest in
  runs (CmdGet args (cntx_of args) ns) (λ '(ns', r), ns' = ns ∧
    r = match m !! key with Some v => SendString v | None => SendERROR end).
Proof.
  intros Hns args. unfold CmdGet, args. cbn -[GetOp shard_of].
  eapply runs_bind; [eapply (hop_spec size Hsize fresh d ns m key _ _ (λ sl r, ns !! shard_of size key = Some (Some sl) ∧
    match m !! key with Some v => r = op_ok v | None => st_ r = KEY_NOTFOUND end) Hns)|].
  - done.
  - intros sl Esl Hsl. eapply runs_bind; [apply (GetOp_spec fresh sl (mkCntx d now) _ key Hsl), shard_map_all_some|].
    intros r HP. apply runs_ok. split; [done|]. rewrite (shard_map_lookup size _ m key eq_refl) in HP. by destruct (m !! key).
  - intros [ns' r] (sl' & -> & Esl & HP). apply runs_ok. split; [by apply list_insert_id|].
    destruct (m !! key) as [v|]; [by subst r|]. unfold is_ok. by rewrite HP.
Qed.

(** (C9) GET key sends the value of the key, or an error when there is none, and
    changes nothing. *)
Theorem CmdGet_refines fresh name key rest ns m : ns_rep size fresh d ns m →
  let args := name :: key :: rest in
  runs (CmdGet args (cntx_of args) ns) (λ '(ns', r), ns' = ns ∧
    r = match m !! key with Some v => SendString v | None => SendERROR end).
Proof. apply CmdGet_run. Qed.

(** (C10) DEL removes its first key and replies whether it was there; further
    keys are not looked at. *)
Theorem Delex_refines name key rest ns m : ns_rep size false d ns m →
  let args := name :: key :: rest in
  runs (Delex args (cntx_of args) ns) (λ '(ns', r), ns_rep size false d ns' (delete key m) ∧
    r = SendInt (if decide (is_Some (m !! key)) then 1 else 0)).
Proof.
  intros Hns args. unfold Delex, CmdDel, args. cbn -[OpDel shard_of SendInt].
  eapply runs_bind; [eapply (hop_spec size Hsize false d ns m key _ _ (λ sl r,
    r = (if decide (is_Some (m !! key)) then 1 else 0) ∧ others_ok sl d ∧ slice_rep false sl d (delete key (shard_map size (shard_of size key) m))) Hns)|].
  - done.
  - intros sl Esl Hsl. eapply runs_bind; [eapply (OpDel_spec sl (mkCntx d now) _ (name :: key :: rest) key Hsl); done|].
    intros [sl' r] (-> & Hk' & Hsl'). apply runs_ok. split_and!; [|eapply others_ok_kept; [by eapply (ns_others _ _ _ _ _ Hns)|done]|done].
    rewrite (shard_map_lookup size _ m key eq_refl). by destruct (m !! key).
  - intros [ns' r] (sl' & -> & -> & Ho & Hsl'). apply runs_ok. split; [|done].
    apply (ns_rep_upd size false d ns m); [done|by rewrite shard_map_delete, decide_True|done|].
    intros sid Hne. by rewrite shard_map_delete, decide_False.
Qed.

Lemma Exists_run fresh name key rest ns m : ns_rep size fresh d ns m →
  let args := name :: key :: rest in
  runs (Exists args (cntx_of args) ns) (λ '(ns', r), ns' = ns ∧
    r = SendInt (if decide (is_Some (m !! key)) then 1 else 0)).
Proof.
  intros Hns args. unfold Exists, args. cbn -[OpExists shard_of SendInt].
  eapply runs_bind; [eapply (hop_spec size Hsize fresh d ns m key _ _ (λ sl r, ns !! shard_of size key = Some (Some sl) ∧
    r = (if decide (is_Some (m !! key)) then 1 else 0)) Hns)|].
  - done.
  - intros sl Esl Hsl. eapply runs_bind; [eapply (OpExists_spec fresh sl (mkCntx d now) _ (name :: key :: rest) key Hsl); done|].
    intros r ->. apply runs_ok. split; [done|].
    rewrite (shard_map_lookup size _ m key eq_refl). by destruct (m !! key).
  - intros [ns' r] (sl' & -> & Esl & ->). apply runs_ok. split; [by apply list_insert_id|done].
Qed.

(** EXISTS replies whether its first key is there; further keys are not
    counted, and nothing changes. *)
Theorem Exists_refines fresh name key rest ns m : ns_rep size fresh d ns m →
  let args := name :: key :: rest in
  runs (Exists args (cntx_of args) ns) (λ '(ns', r), ns' = ns ∧
    r = SendInt (if decide (is_Some (m !! key)) then 1 else 0)).
Proof. apply Exists_run. Qed.

(** The callbacks of EXPIRE and TTL find no key of the given name. *)
Lemma ExpireOp_none fresh sl key sec (mm : gmap string (option string)) : slice_rep fresh sl d mm → mm !! key = None →
  ExpireOp sl (mkCntx d now) key sec = Ok (sl, mkResult KEY_NOTFOUND tt).
Proof.
  intros (t & Hdb & Hr) Hnone. unfold ExpireOp.
  destruct (FindMutable_spec fresh sl (mkCntx d now) t mm key Hdb Hr) as (r & -> & HP). rewrite Hnone in HP. subst r.
  rewrite bind_ok. by rewrite (valid_it_spec fresh sl (mkCntx d now) t mm (iu_it_ no_it) Hdb Hr (or_intror eq_refl)).
Qed.

Lemma ExpireTimeOp_none fresh sl key f (mm : gmap string (option string)) : slice_rep fresh sl d mm → mm !! key = None →
  ExpireTimeOp sl (mkCntx d now) key f = Ok (mkResult KEY_NOTFOUND 0).
Proof.
  intros (t & Hdb & Hr) Hnone. unfold ExpireTimeOp.
  destruct (FindReadOnly_spec fresh sl (mkCntx d now) t mm key Hdb Hr) as (i & -> & Hk & HP). rewrite Hnone in HP.
  rewrite bind_ok. change (db_index_ _) with d. rewrite Hdb, bind_ok. unfold launder. by rewrite HP, bind_ok, HP.
Qed.

End commands.
