(* ===== verification/Server.v ===== *)
(** Server: the sessions of the server, from the bytes a client sends to the
    bytes it gets back.
    Source: src/src/network/redis_server.hpp, resp_buf.hpp.

    A session is a coroutine that reads requests, and tasks that are dispatched
    to the thread of the session (the replies) or to the thread of a shard (the
    callbacks). The tasks of a session wait in [pend_] in the order in which they
    were started. An [event] is one uninterrupted piece of work: a read that has
    completed, the callback of a command on its shard, a reply put out. A run of
    the server is a sequence of events; between the events of one session those
    of the others take place in any order. *)
From Stdlib Require Import Ascii String.
From stdpp Require Import gmap strings pretty.
From S2P Require Import Prelude CompactObj DbSlice IoBuf Resp CmdArgs Registry Shards Commands.
Local Open Scope Z_scope.

(** A command that was invoked and whose callback has not run yet, or a reply
    that was dispatched to the thread of the session. *)
Inductive Pending : Set :=
  | Hop (tx : Transaction) (args : list string)
  | Out (s : string).

Record Session : Type := mkSession {
  RecvBuf_ : IoBuf;
  SendBuf_ : IoBuf;
  index_ : nat;
  one_done_ : bool;          (* debug_com_deal_one_Com *)
  pend_ : list Pending;
  sent_ : list ascii;        (* what has been written to the socket *)
}.

Record Server : Type := mkServer {
  ns_ : Namespace;           (* the default namespace *)
  sessions_ : list Session;
  running_ : bool;
}.

Definition new_session : Session := mkSession (new_buf 1024 8) (new_buf 1024 8) 0 true [] [].

Section server.
Context `{StdLib} (fuel : nat) (size : nat).

Definition new_server (clients : nat) : res Server :=
  ns ← new_namespace size; Ok (mkServer ns (replicate clients new_session) true).

(** [DoRead] from the end of a read of [data] to the next one. *)
Definition on_read (now : Z) (s : Session) (data : list ascii) : res Session :=
  recv ← fill (RecvBuf_ s) data;
  recv ← hasWritten recv (Z.of_nat (List.length data));
  _ ← cassert (one_done_ s);
  '(recv, com) ← ParseRESP recv;
  let next p := mkSession recv (SendBuf_ s) (index_ s) false (pend_ s ++ p) (sent_ s) in
  match com with
  | [] => Ok (next [])
  | name :: _ =>
      match FindCommand (CIs fuel) name with
      | None => Ok (next [Out (BuildError "NULL")])
      | Some _ => Ok (next [Hop (InitByArgs (Z.of_nat size) now (index_ s) com) com])
      end
  end.

(** [DoWrite]: [chunks] says how many bytes the kernel takes each time. *)
Fixpoint DoWrite (fuel : nat) (chunks : nat → nat) (b : IoBuf) (out : list ascii) : res (IoBuf * list ascii) :=
  if readable_size b =? 0 then Ok (b, out) else
  match fuel with
  | O => Fault NoFuel
  | S fuel' =>
      let wr := Nat.min (chunks fuel') (Z.to_nat (readable_size b)) in
      v ← readView b;
      if (0 <? wr)%nat then
        '(b, _) ← retrieve b (Z.of_nat wr); DoWrite fuel' chunks b (out ++ take wr v)
      else DoWrite fuel' chunks b out
  end.

(** The task of [SendImp]. *)
Definition on_reply (chunks : nat → nat) (s : Session) (reply : string) (rest : list Pending) : res Session :=
  b ← append (SendBuf_ s) (list_ascii_of_string reply);
  '(b, out) ← DoWrite (Z.to_nat (readable_size b)) chunks b (sent_ s);
  Ok (mkSession (RecvBuf_ s) b (index_ s) true rest out).

Definition set_pend (s : Session) (p : list Pending) : Session :=
  mkSession (RecvBuf_ s) (SendBuf_ s) (index_ s) (one_done_ s) p (sent_ s).

(** [ci->Invoke(args, &cm_txt)] *)
Definition invoke (tx : Transaction) (args : list string) (ns : Namespace) : res (Namespace * Reply) :=
  name ← aget args 0;
  match FindCommand (CIs fuel) name ≫= handler_ with
  | Some f => f args (mkCmdCntx (Z.of_nat size) tx) ns
  | None => Fault UseAfterFree
  end.

Inductive event : Type :=
  | Read (i : nat) (now : Z) (data : list ascii)
  | Run (i : nat)
  | Flush (i : nat) (chunks : nat → nat).

(** The session of an event, and an update of it. *)
Definition with_session (sv : Server) (i : nat) (f : Session → res Session) : res Server :=
  s ← aget (sessions_ sv) i; s ← f s; l ← aset (sessions_ sv) i s; Ok (mkServer (ns_ sv) l (running_ sv)).

Definition exec (e : event) (sv : Server) : res Server :=
  match e with
  | Read i now data => with_session sv i (λ s, on_read now s data)
  | Run i =>
      s ← aget (sessions_ sv) i;
      match pend_ s with
      | Hop tx args :: rest =>
          '(ns, r) ← invoke tx args (ns_ sv);
          match r with
          | SendImp reply => l ← aset (sessions_ sv) i (set_pend s (rest ++ [Out reply])); Ok (mkServer ns l (running_ sv))
          | Stop => l ← aset (sessions_ sv) i (set_pend s rest); Ok (mkServer ns l false)
          end
      | _ => Ok sv
      end
  | Flush i chunks =>
      with_session sv i (λ s, match pend_ s with Out reply :: rest => on_reply chunks s reply rest | _ => Ok s end)
  end.

Definition exec_all (es : list event) (sv : Server) : res Server := rfold exec es sv.
End server.
