(* ===== verification/ServerSpec.v ===== *)
(** ServerSpec: the server refines a key-value store that executes one command
    at a time, for clients that send one complete request and wait for its
    reply; what becomes of clients that do not; and the state the server starts in. *)
From Stdlib Require Import Ascii String.
From stdpp Require Import gmap strings pretty.
From S2P Require Import Prelude Policy SlotBitmap BucketBase Bucket Segment SegmentInv SegmentOps SegmentSplit DashTable DashTableInv DashTableGrow DashTableOps DashTableErase DashMap CompactObj PrimeTable DbSlice DbSliceInv DbSliceOps IoBuf IoBufInv Resp RespInv RespSpec CmdArgs Shards Registry Commands CommandsInv CommandsSpec Server.
Local Open Scope Z_scope.

(** ** The specification *)

Abbreviation store := (gmap string string).

Definition all_EX (opts : list string) : bool := forallb (λ s, EqualsIgnoreCaseStd s "EX") opts.

(** The commands whose meaning is that of a map: the new store and the reply. *)
Definition spec_cmd (args : list string) (m : store) : option (store * string) :=
  match args with
  | [] => None
  | name :: rest =>
      if decide (name = "SET")%string then
        match rest with
        | k :: v :: opts => if all_EX opts then Some (<[k := v]> m, BuildSimpleString "OK") else None
        | _ => None
        end
      else if decide (name = "GET")%string then
        match rest with
        | k :: _ => Some (m, match m !! k with Some v => BuildBulkString v | None => BuildError "NULL" end)
        | [] => None
        end
      else if decide (name = "EXISTS")%string then
        match rest with
        | k :: _ => Some (m, BuildInteger (if decide (is_Some (m !! k)) then 1 else 0))
        | [] => None
        end
      else if decide (name = "PING")%string then
        match rest with [] => Some (m, BuildSimpleString "PONG") | _ => Some (m, BuildError "NULL") end
      else None
  end.

(** The names that are registered. *)
Definition command_names : list string := ["SET"; "GET"; "DEL"; "PING"; "EXISTS"; "EXPIRE"; "TTL"; "CLIENT"; "SHUTDOWN"]%string.

(** What a client sees of its session. *)
Inductive phase : Set := Idle | Waiting (args : list string) | Replying (s : string).
Record ASession : Set := mkASession { phase_ : phase; seen_ : list ascii }.
Record AServer : Type := mkAServer { store_ : store; clients_ : list ASession }.

(** The events, with the request that is read. *)
Inductive aevent : Type :=
  | ARead (i : nat) (now : Z) (args : list string)
  | ARun (i : nat)
  | AFlush (i : nat) (chunks : nat → nat).
Definition conc (e : aevent) : event :=
  match e with ARead i now args => Read i now (request args) | ARun i => Run i | AFlush i chunks => Flush i chunks end.

Definition aread (args : list string) (s : ASession) : ASession :=
  mkASession (if decide (default "" (head args) ∈ command_names) then Waiting args else Replying (BuildError "NULL")) (seen_ s).
Definition aexec (e : aevent) (a : AServer) : AServer :=
  match e with
  | ARead i _ args => mkAServer (store_ a) (alter (aread args) i (clients_ a))
  | ARun i =>
      match clients_ a !! i with
      | Some (mkASession (Waiting args) seen) =>
          match spec_cmd args (store_ a) with
          | Some (m, r) => mkAServer m (<[i := mkASession (Replying r) seen]> (clients_ a))
          | None => a
          end
      | _ => a
      end
  | AFlush i _ =>
      match clients_ a !! i with
      | Some (mkASession (Replying r) seen) =>
          mkAServer (store_ a) (<[i := mkASession Idle (seen ++ bytes r)]> (clients_ a))
      | _ => a
      end
  end.

(** ** The discipline of the clients *)

Section discipline.
Context `{StdLib} (fuel size : nat).

(** There is room for the key of a SET, and fuel for its loops. *)
Definition set_fits (args : list string) (ns : Namespace) : Prop :=
  ∀ k v opts, args = "SET"%string :: k :: v :: opts →
    (List.length opts ≤ fuel)%nat ∧ ∃ D, (D < fuel)%nat ∧
    ∀ sl t, ns !! shard_of size k = Some (Some sl) → get_db sl 0 = Ok t → fits D t k.

(** A client sends a complete request that fits into the receive buffer when it
    has no other one open, with a command of the specification or an unknown
    one. A value that is set finds room in its table, a reply in the memory. *)
Definition allowed (e : aevent) (sv : Server) (a : AServer) : Prop :=
  match e with
  | ARead i _ args => ∃ s c, sessions_ sv !! i = Some s ∧ clients_ a !! i = Some c ∧ phase_ c = Idle ∧
      args ≠ [] ∧ Z.of_nat (List.length (request args)) ≤ writable_size (RecvBuf_ s) ∧
      (default "" (head args) ∈ command_names → is_Some (spec_cmd args ∅))
  | ARun i => ∃ c args, clients_ a !! i = Some c ∧ phase_ c = Waiting args ∧
      set_fits args (ns_ sv)
  | AFlush i chunks => ∃ s c r, sessions_ sv !! i = Some s ∧ clients_ a !! i = Some c ∧ phase_ c = Replying r ∧
      (∀ n, (0 < chunks n)%nat) ∧ room_for (SendBuf_ s) (Z.of_nat (List.length (bytes r)))
  end.

Fixpoint disciplined (es : list aevent) (sv : Server) (a : AServer) : Prop :=
  match es with
  | [] => True
  | e :: es' => allowed e sv a ∧ ∀ sv', exec fuel size (conc e) sv = Ok sv' → disciplined es' sv' (aexec e a)
  end.

(** ** The simulation *)

Record sess_rel (s : Session) (c : ASession) : Prop := {
  sr_recv : contents (RecvBuf_ s) [];
  sr_send : contents (SendBuf_ s) [];
  sr_index : index_ s = 0%nat;
  sr_sent : sent_ s = seen_ c;
  sr_phase : match phase_ c with
             | Idle => one_done_ s = true ∧ pend_ s = []
             | Waiting args => one_done_ s = false ∧ is_Some (spec_cmd args ∅) ∧
                 ∃ now, pend_ s = [Hop (InitByArgs (Z.of_nat size) now 0 args) args]
             | Replying r => one_done_ s = false ∧ pend_ s = [Out r]
             end;
}.

Record sv_rel (sv : Server) (a : AServer) : Prop := {
  sv_ns : ns_rep size true 0 (ns_ sv) (store_ a);
  sv_sess : Forall2 sess_rel (sessions_ sv) (clients_ a);
}.

(** ** The pieces of the simulation *)

Lemma all_EX_spec opts : all_EX opts = true ↔ Forall is_EX opts.
Proof. unfold all_EX. rewrite forallb_forall, Forall_forall. unfold is_EX. by setoid_rewrite list_elem_of_In. Qed.

Lemma spec_known args m m' r : spec_cmd args m = Some (m', r) → default "" (head args) ∈ command_names.
Proof.
  destruct args as [|name rest]; [done|]. unfold spec_cmd. simpl. unfold command_names.
  repeat case_decide; subst; intros; try done; set_solver.
Qed.

Lemma spec_some args m : is_Some (spec_cmd args ∅) → is_Some (spec_cmd args m).
Proof.
  destruct args as [|name rest]; [done|]. unfold spec_cmd. repeat case_decide; try done;
    destruct rest as [|k [|v opts]]; try done; try (intros _; by eexists). destruct (all_EX opts); [intros _; by eexists|done].
Qed.

Lemma command_found name : name ∈ command_names → is_Some (FindCommand (CIs fuel) name ≫= handler_).
Proof.
  unfold command_names. rewrite !elem_of_cons. intros Hin. destruct_or! Hin; subst; try by eexists. by apply elem_of_nil in Hin.
Qed.

Lemma command_unknown name : name ∉ command_names → FindCommand (CIs fuel) name = None.
Proof.
  intros Hn. unfold CIs, RegisterGeneric, RegisterStringFamily. unfold command_names in Hn.
  rewrite !not_elem_of_cons in Hn. destruct_and! Hn. rewrite !FindCommand_add_ne by done.
  change (FindCommand (StartFamily ?r) name) with (FindCommand r name). rewrite !FindCommand_add_ne by done. apply lookup_empty.
Qed.

(** Running a command of the specification on the store of the shards. *)
Lemma invoke_spec (Hsize : 0 < Z.of_nat size ≤ 2 ^ 16) now args ns m m' r : ns_rep size true 0 ns m → spec_cmd args m = Some (m', r) →
  set_fits args ns →
  runs (invoke fuel size (InitByArgs (Z.of_nat size) now 0 args) args ns)
    (λ '(ns', reply), reply = SendImp r ∧ ns_rep size true 0 ns' m').
Proof.
  intros Hns Hspec Hfits. destruct args as [|name rest]; [done|]. unfold spec_cmd in Hspec. unfold invoke. change (aget (name :: rest) 0) with (Ok name). rewrite bind_ok.
  destruct (decide (name = "SET"%string)) as [->|]; [|destruct (decide (name = "GET"%string)) as [->|];
    [|destruct (decide (name = "EXISTS"%string)) as [->|]; [|destruct (decide (name = "PING"%string)) as [->|]; [|done]]]].
  - destruct rest as [|k [|v opts]]; try done. destruct (all_EX opts) eqn:HEX; [|done]. apply all_EX_spec in HEX. injection Hspec as <- <-.
    destruct (Hfits k v opts eq_refl) as (Ho & D & HD & Hroom).
    eapply runs_mono; [apply (CmdSet_run size Hsize 0 now "SET" k v opts ns m fuel D Hns HEX Hroom HD Ho)|].
    intros [ns' reply] [-> ?]. done.
  - destruct rest as [|k rest]; [done|]. injection Hspec as <- <-.
    eapply runs_mono; [apply (CmdGet_run size Hsize 0 now true "GET" k rest ns m Hns)|].
    intros [ns' reply] [-> ->]. split; [by destruct (m !! k)|done].
  - destruct rest as [|k rest]; [done|]. injection Hspec as <- <-.
    eapply runs_mono; [apply (Exists_run size Hsize 0 now true "EXISTS" k rest ns m Hns)|].
    intros [ns' reply] [-> ->]. done.
  - destruct rest; injection Hspec as <- <-; by apply runs_ok.
Qed.

(** Everything that is to be sent is sent, in order, whatever the pieces. *)
Lemma DoWrite_spec (chunks : nat → nat) n b c out : contents b c → (∀ n, (0 < chunks n)%nat) → (List.length c ≤ n)%nat →
  runs (DoWrite n chunks b out) (λ '(b', out'), contents b' [] ∧ out' = out ++ c).
Proof.
  intros Hc Hch. revert b c out Hc. induction n as [|n IH]; intros b c out Hc Hn;
    pose proof Hc as (Hp & pre & post & Hv); destruct (bi_sizes b _ _ _ Hv) as (Er & _ & _); cbn [DoWrite]; rewrite Er.
  - assert (c = []) as -> by (apply length_zero_iff_nil; lia). apply runs_ok. by rewrite app_nil_r.
  - destruct (Z.eqb_spec (Z.of_nat (List.length c)) 0) as [E|Hne].
    + assert (c = []) as -> by (apply length_zero_iff_nil; lia). apply runs_ok. by rewrite app_nil_r.
    + specialize (Hch n). set (wr := Nat.min (chunks n) (Z.to_nat (Z.of_nat (List.length c)))).
      rewrite (read_view b _ _ _ Hv), bind_ok. rewrite (proj2 (Nat.ltb_lt 0 wr)) by lia.
      unfold retrieve. rewrite Er, (proj2 (Z.leb_le _ _)) by lia.
      assert (Z.of_nat wr = Z.of_nat (List.length (take wr c))) as Ewr by (rewrite length_take; lia). rewrite Ewr.
      destruct (move_read_spec b (drop wr c) (take wr c)) as (b1 & -> & Hc1 & _); [by rewrite take_drop|].
      rewrite !bind_ok. eapply runs_mono; [apply (IH b1 (drop wr c) _ Hc1); rewrite length_drop; lia|].
      intros [b' out'] [? ->]. split; [done|]. by rewrite <- app_assoc, take_drop.
Qed.

Lemma on_read_spec now args s c : sess_rel s c → phase_ c = Idle → args ≠ [] →
  Z.of_nat (List.length (request args)) ≤ writable_size (RecvBuf_ s) →
  (default "" (head args) ∈ command_names → is_Some (spec_cmd args ∅)) →
  runs (on_read fuel size now s (request args)) (λ s', sess_rel s' (aread args c)).
Proof.
  intros [Hr Hs Hi Hsent Hph] Hidle Hne Hfit Hknown. rewrite Hidle in Hph. destruct Hph as [Hone Hpend]. unfold on_read.
  destruct (fill_spec (RecvBuf_ s) [] (request args) Hr Hfit) as (b1 & E1 & Hc1 & _).
  apply bind_ok_inv in E1 as (b0 & -> & E1). rewrite bind_ok, E1, bind_ok, Hone. cbn [cassert]. rewrite bind_ok.
  cbn [app] in Hc1. rewrite <- (app_nil_r (request args)) in Hc1.
  rbind (parse_complete b1 args [] Hc1 Hne). intros [b2 com] [-> Hc2].
  destruct args as [|name rest]; [done|]. unfold aread in *. cbn [head default] in *.
  change (default "" (Some name)) with name in *. case_decide as Hin.
  - destruct (command_found name Hin) as [h Hh]. destruct (FindCommand (CIs fuel) name) as [ci|]; [|done].
    apply runs_ok. split; simpl; try done. split; [done|]. split; [by apply Hknown|]. exists now. by rewrite Hpend, Hi.
  - rewrite (command_unknown name Hin). apply runs_ok. split; simpl; try done. by rewrite Hpend.
Qed.

Lemma on_reply_spec chunks s c r : sess_rel s c → phase_ c = Replying r → (∀ n, (0 < chunks n)%nat) →
  room_for (SendBuf_ s) (Z.of_nat (List.length (bytes r))) →
  runs (on_reply chunks s r []) (λ s', sess_rel s' (mkASession Idle (seen_ c ++ bytes r))).
Proof.
  intros [Hr Hs Hi Hsent Hph] Hrep Hch Hroom. unfold on_reply.
  rbind (append_spec (SendBuf_ s) [] (bytes r) Hs Hroom). intros b1 (Hc1 & _). cbn [app] in Hc1.
  pose proof Hc1 as (_ & pre & post & Hv). destruct (bi_sizes b1 _ _ _ Hv) as (Er & _ & _). rewrite Er, Nat2Z.id.
  rbind (DoWrite_spec chunks _ b1 (bytes r) (sent_ s) Hc1 Hch (le_n _)). intros [b2 out] [Hc2 ->]. apply runs_ok.
  split; simpl; try done. by rewrite Hsent.
Qed.

Lemma Forall2_upd {A B} (R : A → B → Prop) l k i x y : Forall2 R l k → R x y → Forall2 R (<[i := x]> l) (<[i := y]> k).
Proof. intros HF HR. by apply Forall2_insert. Qed.

Lemma exec_spec (Hsize : 0 < Z.of_nat size ≤ 2 ^ 16) e sv a : sv_rel sv a → allowed e sv a →
  runs (exec fuel size (conc e) sv) (λ sv', sv_rel sv' (aexec e a) ∧ running_ sv' = running_ sv).
Proof.
  intros [Hns Hsess] Hal. destruct e as [i now args|i|i chunks]; simpl in Hal.
  - destruct Hal as (s & c & Es & Ec & Hidle & Hne & Hfit & Hknown).
    pose proof (Forall2_lookup_lr _ _ _ _ _ _ Hsess Es Ec) as Hrel. cbn [exec conc]. unfold with_session.
    rewrite (aget_some _ _ _ Es), bind_ok. rbind (on_read_spec now args s c Hrel Hidle Hne Hfit Hknown). intros s' Hrel'.
    rewrite (aset_some _ _ _ _ Es), bind_ok. apply runs_ok. split; [|done]. split; [done|]. simpl.
    assert (alter (aread args) i (clients_ a) = <[i := aread args c]> (clients_ a)) as ->.
    { apply list_eq. intros j. destruct (decide (i = j)) as [<-|Hj].
      - rewrite list_lookup_alter_eq, Ec, list_lookup_insert_eq; [done|by eapply lookup_lt_Some].
      - by rewrite list_lookup_alter_ne, list_lookup_insert_ne. }
    by apply Forall2_upd.
  - destruct Hal as (c & args & Ec & Hwait & Hfits). destruct c as [ph seen]. simpl in Hwait. subst ph.
    destruct (Forall2_lookup_r _ _ _ _ _ Hsess Ec) as (s & Es & Hrel). destruct Hrel as [Hr Hs Hi Hsent (Hone & Hspec & now & Hpend)].
    cbn [exec conc]. rewrite (aget_some _ _ _ Es), bind_ok, Hpend.
    destruct (spec_some args (store_ a) Hspec) as [[m' r] Espec].
    rbind (invoke_spec Hsize now args _ _ m' r Hns Espec Hfits). intros [ns' reply] [-> Hns'].
    rewrite (aset_some _ _ _ _ Es), bind_ok. apply runs_ok. cbn [aexec]. rewrite Ec, Espec. split; [|done]. split; [done|]. simpl.
    by apply Forall2_upd.
  - destruct Hal as (s & c & r & Es & Ec & Hrep & Hch & Hroom). destruct c as [ph seen]. simpl in Hrep. subst ph.
    pose proof (Forall2_lookup_lr _ _ _ _ _ _ Hsess Es Ec) as Hrel.
    cbn [exec conc]. unfold with_session. rewrite (aget_some _ _ _ Es), bind_ok.
    pose proof (sr_phase _ _ Hrel) as [_ Hpend]. rewrite Hpend.
    rbind (on_reply_spec chunks s _ r Hrel eq_refl Hch Hroom). intros s' Hrel'.
    rewrite (aset_some _ _ _ _ Es), bind_ok. apply runs_ok. cbn [aexec]. rewrite Ec. split; [|done]. split; [done|]. simpl. by apply Forall2_upd.
Qed.
Lemma disciplined_app es1 es2 sv a : disciplined (es1 ++ es2) sv a → disciplined es1 sv a ∧
  ∀ sv', exec_all fuel size (conc <$> es1) sv = Ok sv' → disciplined es2 sv' (fold_left (λ a e, aexec e a) es1 a).
Proof.
  revert sv a. induction es1 as [|e es1 IH]; intros sv a; cbn [app disciplined].
  - intros Hd. split; [done|]. by intros sv' [= <-].
  - intros [Hal Hd]. split; [split; [done|]; intros sv' E; by apply (IH sv' (aexec e a)), Hd|].
    intros sv' (sv1 & E & E')%bind_ok_inv. by apply (IH sv1 (aexec e a) (Hd sv1 E)).
Qed.

(** A run of a server whose clients keep the discipline. *)
Lemma exec_all_spec (Hsize : 0 < Z.of_nat size ≤ 2 ^ 16) es sv a : sv_rel sv a → disciplined es sv a →
  runs (exec_all fuel size (conc <$> es) sv) (λ sv', sv_rel sv' (fold_left (λ a e, aexec e a) es a) ∧ running_ sv' = running_ sv).
Proof.
  revert sv a. induction es as [|e es IH]; intros sv a Hrel Hdis; [by apply runs_ok|].
  destruct Hdis as [Hal Hnext]. unfold exec_all. cbn [fmap list_fmap rfold fold_left].
  destruct (exec_spec Hsize e sv a Hrel Hal) as (sv' & E & Hrel' & Hup). rewrite E, bind_ok, <- Hup.
  by apply (IH sv' (aexec e a) Hrel' (Hnext sv' E)).
Qed.
End discipline.

Section server.
Context `{StdLib} (fuel size : nat) (Hsize : 0 < Z.of_nat size ≤ 2 ^ 16).


(** (C21) A request of which only the header arrives with the first read leaves
    the session in a state in which any further data aborts the server. *)
Theorem split_request_aborts s n now1 now2 data :
  contents (RecvBuf_ s) [] → one_done_ s = true → 0 < n < 2 ^ 63 →
  Z.of_nat (List.length (header n)) ≤ writable_size (RecvBuf_ s) →
  runs (on_read fuel size now1 s (header n)) (λ s', pend_ s' = pend_ s ∧
    (Z.of_nat (List.length data) ≤ writable_size (RecvBuf_ s') → on_read fuel size now2 s' data = Fault AssertFailed)).
Proof.
  intros Hc Hone Hn Hfit. unfold on_read at 1.
  destruct (fill_spec (RecvBuf_ s) [] (header n) Hc Hfit) as (b1 & E1 & Hc1 & _).
  apply bind_ok_inv in E1 as (b0 & -> & E1). rewrite bind_ok, E1, bind_ok, Hone. cbn [cassert]. rewrite bind_ok.
  cbn [app] in Hc1. rewrite (parse_incomplete b1 n []) by (cbn; rewrite ?app_nil_r; done || lia). rewrite bind_ok.
  apply runs_ok. simpl. split; [by rewrite app_nil_r|]. intros Hfit2. unfold on_read. cbn [RecvBuf_].
  destruct (fill_spec b1 (header n) data Hc1 Hfit2) as (b2 & E2 & _). apply bind_ok_inv in E2 as (b3 & -> & E2).
  by rewrite bind_ok, E2, bind_ok.
Qed.

(** The replies of a session are written to the socket completely and in
    order, for every way in which the kernel takes them in pieces. *)
Theorem DoWrite_flushes (chunks : nat → nat) b c out : contents b c → (∀ n, (0 < chunks n)%nat) →
  runs (DoWrite (List.length c) chunks b out) (λ '(b', out'), contents b' [] ∧ out' = out ++ c).
Proof. intros Hc Hch. by apply DoWrite_spec. Qed.
End server.

(** * The state in which the server starts

    Every shard of the default namespace has an empty database, every session is
    idle. *)

(** ** A new namespace *)

Section fresh.
Context `{StdLib}.

Lemma new_slice_spec index : runs (new_slice index) (λ sl, ∃ t, get_db sl 0 = Ok t ∧
  rep (PO:=prime_ok true) t ∅ ∧ items t = [] ∧ others_ok sl 0).
Proof.
  destruct (new_table_spec (PO:=prime_ok true) 3) as (t & E & Hd & Hi & Hsz); [lia|].
  unfold new_slice, CreateDb, new_db.
  change (aget (db_arr_ (mkSlice index [None])) 0) with (Ok (@None DbTable)). rewrite bind_ok. change kInitSegmentLog with (Z.of_nat 3).
  rewrite E, !bind_ok. set (d := Some _). change (aset (db_arr_ (mkSlice index [None])) 0 d) with (Ok [d]). rewrite bind_ok.
  apply runs_ok. exists t. split_and!; [done| |done|].
  - split; [exists 3%nat; rewrite Hi, Hsz; split_and!; [done|constructor|done]|]. unfold to_map. by rewrite Hi.
  - clearbody d. intros [|d'] t' Hne Hdb; [by destruct Hne|]. unfold get_db, aget in Hdb. cbn in Hdb. discriminate Hdb.
Qed.

(** Every shard of a new namespace has an empty database 0. *)
Lemma new_namespace_spec size : runs (new_namespace size) (λ ns, List.length ns = size ∧
  ∀ sid, (sid < size)%nat → ∃ sl t, ns !! sid = Some (Some sl) ∧ get_db sl 0 = Ok t ∧ rep (PO:=prime_ok true) t ∅ ∧ items t = [] ∧ others_ok sl 0).
Proof.
  unfold new_namespace, build_slice.
  set (ok := λ (ns : Namespace) sid, ∃ sl t, ns !! sid = Some (Some sl) ∧ get_db sl 0 = Ok t ∧
    rep (PO:=prime_ok true) t ∅ ∧ items t = [] ∧ others_ok sl 0).
  eapply runs_mono; [apply (rfold_runs _ (seq 0 size) (λ l ns, List.length ns = size ∧ ∀ sid, sid ∈ l → ok ns sid))|].
  - rewrite length_replicate. split; [done|]. intros sid Hs. by apply elem_of_nil in Hs.
  - intros pre x post ns Hl [Hlen Hok]. destruct (new_slice_spec (Z.of_nat x)) as (sl & -> & t & Ht). rewrite bind_ok.
    assert (x < size)%nat as Hx.
    { assert (x ∈ seq 0 size) as Hin by (rewrite Hl; apply elem_of_app; right; by left). apply elem_of_seq in Hin. lia. }
    destruct (lookup_lt_is_Some_2 ns x) as [y Hy]; [lia|]. rewrite (aset_some _ _ _ _ Hy). apply runs_ok.
    split; [by rewrite length_insert|]. intros sid Hs. destruct (decide (sid = x)) as [->|Hne].
    + exists sl, t. rewrite list_lookup_insert_eq by lia. tauto.
    + apply elem_of_app in Hs as [Hs|Hs]; [|by apply list_elem_of_singleton in Hs].
      destruct (Hok sid Hs) as (sl' & t' & E & Ht'). exists sl', t'. by rewrite list_lookup_insert_ne.
  - intros ns [Hlen Hok]. split; [done|]. intros sid Hs. apply Hok, elem_of_seq. lia.
Qed.

Lemma shard_map_empty size sid : shard_map size sid ∅ = ∅.
Proof. unfold shard_map. by rewrite fmap_empty, map_filter_empty. Qed.

(** A new namespace holds the empty store, and its tables are empty. *)
Lemma new_namespace_rep size : runs (new_namespace size) (λ ns, ns_rep size true 0 ns ∅ ∧
  ∀ sid sl t, ns !! sid = Some (Some sl) → get_db sl 0 = Ok t → items t = []).
Proof.
  eapply runs_mono; [apply new_namespace_spec|]. intros ns [Hlen Hns]. split; [split; [done| |]|].
  - intros sid Hs. destruct (Hns sid Hs) as (sl & t & E & Hdb & Hr & _). exists sl. split; [done|].
    exists t. by rewrite shard_map_empty.
  - intros sid sl E. destruct (Hns sid) as (sl' & t' & E' & _ & _ & _ & Ho); [rewrite <- Hlen; by eapply lookup_lt_Some|].
    rewrite E in E'. by injection E' as <-.
  - intros sid sl t E Hdb. destruct (Hns sid) as (sl' & t' & E' & Hdb' & _ & Hi & _); [rewrite <- Hlen; by eapply lookup_lt_Some|].
    rewrite E in E'. injection E' as <-. rewrite Hdb in Hdb'. by injection Hdb' as <-.
Qed.

(** There is room for any key in an empty table. *)
Lemma fits_empty (t : PrimeTable) key : items t = [] → fits 0 t key.
Proof. intros Hi. unfold fits. rewrite Hi. apply (can_insert_small (PO:=prime_ok true)). vm_compute. lia. Qed.

(** The server starts in the initial state of its specification. *)
Lemma new_server_rel size clients : runs (new_server size clients)
  (λ sv, sv_rel size sv (mkAServer ∅ (replicate clients (mkASession Idle []))) ∧
         sessions_ sv = replicate clients new_session ∧
         ∀ sid sl t, ns_ sv !! sid = Some (Some sl) → get_db sl 0 = Ok t → items t = []).
Proof.
  unfold new_server. rbind (new_namespace_rep size). intros ns [Hns Hi]. apply runs_ok. split_and!; [|done|done].
  split; simpl; [done|]. apply Forall2_replicate. split; simpl; try done; by apply (new_buf_contents 1024).
Qed.
End fresh.
