(* ===== verification/Lifecycle.v ===== *)
(** Lifecycle: the namespaces are built and destroyed by the threads of their
    shards, in whatever order these get to it.
    Source: src/src/sharding/namespaces.cpp, engine_shard_set.cpp,
    db_slice.cpp, db_table.cpp.

    The pool of [Pool] runs the lambdas; its state are the namespaces. The lock of
    the map is held by one thread throughout. *)
From Stdlib Require Import Ascii String.
From stdpp Require Import gmap strings pretty.
From S2P Require Import Prelude Policy SlotBitmap BucketBase Bucket Segment SegmentInv SegmentOps SegmentSplit DashTable DashTableInv DashTableGrow DashTableIter DashTableOps DashTableErase DashTableClear DashMap DashSpec CompactObj PrimeTable DbSlice DbSliceInv DbSliceOps MpmcQueue MpmcInv MpmcSpec TaskQueue Pool PoolSpec IoBuf IoBufInv Resp RespInv CmdArgs Registry Shards Commands CommandsInv CommandsSpec Server ServerSpec.
Local Open Scope Z_scope.

Section lifecycle.
Context `{StdLib}.
Implicit Types (nss : Namespaces) (ns : Namespace) (sl : DbSlice) (p : Pool Namespaces) (order : list nat).

Definition with_state p nss : Pool Namespaces := mkPool (loops_ p) nss (latch_ p).

(** Shard [sid] puts its slice into the namespace [name]. *)
Definition build_in (name : string) (sid : nat) nss : res Namespaces :=
  match namespaces_ nss !! name with
  | Some ns => ns ← build_slice sid ns; Ok (mkNamespaces (<[name := ns]> (namespaces_ nss)) (default_namespace_ nss))
  | None => Fault UseAfterFree
  end.

(** [GetOrInsert(name)] with the constructor of a namespace; the boolean says
    whether it returns. *)
Definition GetOrInsert (size : nat) (name : string) order p : res (Pool Namespaces * bool) :=
  let nss := state_ p in
  match namespaces_ nss !! name with
  | Some _ => Ok (p, true)
  | None =>
      let nss := mkNamespaces (<[name := replicate size None]> (namespaces_ nss)) (default_namespace_ nss) in
      RunBlockingInParallel size (build_in name) (λ _, true) order (with_state p nss)
  end.

(** [Namespaces()] *)
Definition new_namespaces (size : nat) order p : res (Pool Namespaces * bool) :=
  '(p, returned) ← GetOrInsert size "" order (with_state p (mkNamespaces ∅ None));
  Ok (if returned : bool then with_state p (mkNamespaces (namespaces_ (state_ p)) (Some "")) else p, returned).

(** [Clear()]; [~Namespaces()] calls it again. *)
Definition Clear (size : nat) order p : res (Pool Namespaces * bool) :=
  let nss := mkNamespaces (namespaces_ (state_ p)) None in
  if bool_decide (namespaces_ nss = ∅) then Ok (with_state p nss, true) else
  '(p, returned) ← RunBlockingInParallel size clear_shard (λ _, true) order (with_state p nss);
  if returned : bool then
    _ ← destroy_map (namespaces_ (state_ p));
    Ok (with_state p (mkNamespaces ∅ (default_namespace_ (state_ p))), true)
  else Ok (p, false).

(** ** Building *)

#[local] Opaque new_slice.

(** A namespace whose shards in [done] have their slices. *)
Definition built (size : nat) (done : list nat) ns : Prop :=
  List.length ns = size ∧ ∀ sid, (sid < size)%nat → ∃ o, ns !! sid = Some o ∧
    if decide (sid ∈ done) then ∃ sl, o = Some sl ∧ new_slice (Z.of_nat sid) = Ok sl else o = None.

Lemma build_step size done ns sid : built size done ns → (sid < size)%nat → runs (build_slice sid ns) (built size (done ++ [sid])).
Proof.
  intros [Hl Hb] Hs. destruct (new_slice_spec (Z.of_nat sid)) as (sl & E & _). unfold build_slice. rewrite E, bind_ok.
  destruct (lookup_lt_is_Some_2 ns sid) as [o Ho]; [lia|]. rewrite (aset_some _ _ _ _ Ho). apply runs_ok.
  split; [by rewrite length_insert|]. intros i Hi. destruct (decide (i = sid)) as [->|Hne].
  - exists (Some sl). rewrite list_lookup_insert_eq by lia. split; [reflexivity|]. rewrite decide_True by (apply elem_of_app; right; by left).
    exists sl. split; [reflexivity|exact E].
  - rewrite list_lookup_insert_ne by done. destruct (Hb i Hi) as (o' & Ho' & HP). exists o'. split; [exact Ho'|].
    rewrite (decide_ext (i ∈ done ++ [sid]) (i ∈ done)); [exact HP|]. clear -Hne. set_solver.
Qed.

Lemma built_unique size done done' ns ns' : built size done ns → built size done' ns' → (∀ i, i ∈ done ↔ i ∈ done') → ns = ns'.
Proof.
  intros [Hl Hb] [Hl' Hb'] Hd. apply list_eq. intros i. destruct (decide (i < size)%nat) as [Hi|Hi].
  - destruct (Hb i Hi) as (o & -> & HP), (Hb' i Hi) as (o' & -> & HP'). rewrite (decide_ext _ _ _ _ (Hd i)) in HP.
    destruct (decide (i ∈ done')); [|congruence]. destruct HP as (sl & -> & E), HP' as (sl' & -> & E'). congruence.
  - rewrite !lookup_ge_None_2 by lia. done.
Qed.

Lemma built_start size : built size [] (replicate size None).
Proof. split; [apply length_replicate|]. intros i Hi. exists None. rewrite lookup_replicate_2, decide_False by (done || apply not_elem_of_nil). done. Qed.

Lemma build_all size order : order ≡ₚ seq 0 size → runs (rfold build_slice order (replicate size None)) (built size order).
Proof.
  intros Ho. apply rfold_runs; [apply built_start|]. intros pre sid post ns Hp Hb. apply build_step; [done|].
  assert (sid ∈ seq 0 size) as Hin by (rewrite <- Ho, Hp; set_solver). apply elem_of_seq in Hin. lia.
Qed.

(** The order in which the shards build their slices does not matter. *)
Lemma build_any_order size order : order ≡ₚ seq 0 size → rfold build_slice order (replicate size None) = new_namespace size.
Proof.
  intros Ho. destruct (build_all size order Ho) as (ns & -> & Hb). destruct (build_all size (seq 0 size) (Permutation_refl _)) as (ns' & E & Hb').
  unfold new_namespace. rewrite E. f_equal. apply (built_unique _ _ _ _ _ Hb Hb'). intros i. by rewrite Ho.
Qed.

Lemma build_in_all order name m d : ∀ ns ns', rfold build_slice order ns = Ok ns' →
  rfold (build_in name) order (mkNamespaces (<[name := ns]> m) d) = Ok (mkNamespaces (<[name := ns']> m) d).
Proof.
  induction order as [|sid order IH]; intros ns ns'; cbn [rfold]; [by intros [= ->]|]. intros (ns1 & E1 & E)%bind_ok_inv.
  assert (build_in name sid (mkNamespaces (<[name := ns]> m) d) = Ok (mkNamespaces (<[name := ns1]> m) d)) as ->.
  { unfold build_in. cbn [namespaces_ default_namespace_]. by rewrite lookup_insert_eq, E1, bind_ok, insert_insert_eq. }
  rewrite bind_ok. by apply IH.
Qed.

(** ** Destroying *)

(** Every database of the slice is a table that stands for a map. *)
Definition slice_ok sl : Prop := ∀ d t, get_db sl d = Ok t → ∃ m, rep (PO:=prime_ok false) t m.

(** The namespace has a slice for every shard that is not in [done]. *)
Definition ns_ok (size : nat) (done : list nat) ns : Prop :=
  List.length ns = size ∧ ∀ sid o, ns !! sid = Some o → match o with Some sl => sid ∉ done ∧ slice_ok sl | None => True end.

Lemma destroy_slice_ok sl : slice_ok sl → destroy_slice sl = Ok tt.
Proof.
  intros Hs. apply rfold_tt, Forall_forall. intros db [d Hd]%list_elem_of_lookup_1. destruct db as [[t ix]|]; [|done]. cbn [reset_db prime_].
  destruct (Hs d t) as [m Hr]; [unfold get_db; by rewrite (aget_some _ _ _ Hd)|].
  destruct (destroy_table_rep (PO:=prime_ok false) (DO:=prime_destroy_ok) t m Hr) as (t' & -> & _). by rewrite bind_ok.
Qed.

Lemma reset_slice_ok size done ns sid : ns_ok size done ns → (sid < size)%nat → runs (reset_slice sid ns) (ns_ok size (done ++ [sid])).
Proof.
  intros [Hl Hn] Hs. destruct (lookup_lt_is_Some_2 ns sid) as [o Ho]; [lia|]. unfold reset_slice. rewrite (aget_some _ _ _ Ho), bind_ok.
  assert ((match o with Some sl => destroy_slice sl | None => Ok tt end) = Ok tt) as -> by (destruct o; [by apply destroy_slice_ok, (Hn _ _ Ho)|done]).
  rewrite bind_ok, (aset_some _ _ _ _ Ho). apply runs_ok. split; [by rewrite length_insert|].
  intros i o' [(<- & <- & _)|[Hne Hi]]%list_lookup_insert_Some; [done|]. specialize (Hn i o' Hi). destruct o'; [|done]. set_solver.
Qed.

Definition all_ok (size : nat) (done : list nat) nss : Prop := ∀ name ns, namespaces_ nss !! name = Some ns → ns_ok size done ns.

Lemma clear_shard_ok size done nss sid : all_ok size done nss → (sid < size)%nat →
  runs (clear_shard sid nss) (λ nss', all_ok size (done ++ [sid]) nss' ∧ default_namespace_ nss' = default_namespace_ nss).
Proof.
  intros Ha Hs. unfold clear_shard. set (l := map_to_list _).
  rbind (rfold_runs (λ '(name, ns) m, ns ← reset_slice sid ns; Ok (<[name := ns]> m)) l (λ pre (m : gmap string Namespace), ∀ name ns, m !! name = Some ns →
    if decide (name ∈ pre.*1) then ns_ok size (done ++ [sid]) ns else namespaces_ nss !! name = Some ns)).
  - intros name ns E. by rewrite decide_False by apply not_elem_of_nil.
  - intros pre [name ns] post m Hl Hm. assert ((name, ns) ∈ l) as Hin by (rewrite Hl; set_solver). apply elem_of_map_to_list in Hin.
    rbind (reset_slice_ok size done ns sid (Ha _ _ Hin) Hs). intros ns' Hns'. apply runs_ok.
    intros name1 ns1. rewrite fmap_app. cbn. destruct (decide (name1 = name)) as [->|Hne].
    + rewrite lookup_insert_eq, decide_True by set_solver. by intros [= <-].
    + rewrite lookup_insert_ne by done. intros E. specialize (Hm _ _ E). by rewrite (decide_ext (name1 ∈ pre.*1 ++ [name]) (name1 ∈ pre.*1)) by set_solver.
  - intros m Hm. apply runs_ok. split; [|done]. intros name ns E. specialize (Hm _ _ E). destruct (decide _) as [|Hn]; [done|].
    destruct Hn. apply list_elem_of_fmap. exists (name, ns). split; [done|]. by apply elem_of_map_to_list.
Qed.

Lemma clear_all size order nss : order ≡ₚ seq 0 size → all_ok size [] nss →
  runs (rfold clear_shard order nss) (λ nss', all_ok size order nss' ∧ default_namespace_ nss' = default_namespace_ nss).
Proof.
  intros Ho Ha. apply (rfold_runs _ order (λ pre nss', all_ok size pre nss' ∧ default_namespace_ nss' = default_namespace_ nss)); [done|].
  intros pre sid post nss1 Hp [H1 <-]. eapply clear_shard_ok; [done|].
  assert (sid ∈ seq 0 size) as Hin by (rewrite <- Ho, Hp; set_solver). apply elem_of_seq in Hin. lia.
Qed.

(** Then there is nothing left for the destructor of the map. *)
Lemma destroy_map_none size order nss : order ≡ₚ seq 0 size → all_ok size order nss → destroy_map (namespaces_ nss) = Ok tt.
Proof.
  intros Ho Ha. apply rfold_tt, Forall_forall. intros [name ns] [Hl Hn]%elem_of_map_to_list%Ha. apply rfold_tt, Forall_forall.
  intros o [i Hi]%list_elem_of_lookup_1. specialize (Hn i o Hi). destruct o; [|done]. destruct Hn as [Hn _]. destruct Hn. rewrite Ho.
  apply lookup_lt_Some in Hi. cbn [snd] in Hi. apply elem_of_seq. lia.
Qed.

(** Slices of a namespace that holds a store can be destroyed. *)
Lemma ns_rep_ok size fresh d ns m : ns_rep size fresh d ns m → ns_ok size [] ns.
Proof.
  intros [Hl Hs Ho]. split; [done|]. intros sid [sl|] E; [|done]. split; [apply not_elem_of_nil|]. intros d' t Hdb.
  destruct (decide (d' = d)) as [->|Hne]; [|by apply (Ho sid sl E d')].
  destruct (Hs sid) as (sl' & E' & Hsl); [rewrite <- Hl; by eapply lookup_lt_Some|]. rewrite E in E'. injection E' as <-.
  assert (slice_rep false sl d (shard_map size sid m)) as (t' & Hdb' & Hr) by (destruct fresh; [by apply slice_rep_loose|done]).
  rewrite Hdb in Hdb'. injection Hdb' as <-. eauto.
Qed.

(** ** The pool *)

Section pool.
Context (k : nat) (Hk : (1 ≤ k ≤ 32)%nat) (size : nat).

(** The lambda runs on every shard, and its caller returns. *)
Lemma on_all_shards f order p nss nss' pos : loops_hold k p (λ _, []) pos → length (loops_ p) = size → pos + Z.of_nat size < kMaxPos →
  order ≡ₚ seq 0 size → rfold f order nss = Ok nss' →
  runs (RunBlockingInParallel size f (λ _, true) order (with_state p nss)) (λ '(p', returned), returned = true ∧ state_ p' = nss' ∧
    length (loops_ p') = size ∧ loops_hold k p' (λ _, []) (pos + Z.of_nat size)).
Proof.
  intros Hp Hl Hpos Ho Hf. unfold RunBlockingInParallel. rewrite filter_true by done.
  pose proof (parallel_spec k Hk f (seq 0 size) order (mkPool (loops_ p) nss (Z.of_nat size)) pos nss' Hp) as H1.
  rewrite length_seq in *. cbn [loops_ state_ latch_ with_state] in *. rewrite Hl in H1. apply H1; [done|apply NoDup_seq| |done..].
  apply Forall_forall. intros i Hi%elem_of_seq. lia.
Qed.

Lemma new_namespaces_spec order p pos : loops_hold k p (λ _, []) pos → length (loops_ p) = size → pos + Z.of_nat size < kMaxPos →
  order ≡ₚ seq 0 size →
  runs (new_namespaces size order p) (λ '(p', returned), returned = true ∧
    (∃ ns, new_namespace size = Ok ns ∧ state_ p' = mkNamespaces {["" := ns]} (Some "")) ∧
    length (loops_ p') = size ∧ loops_hold k p' (λ _, []) (pos + Z.of_nat size)).
Proof.
  intros Hp Hl Hpos Ho. destruct (build_all size order Ho) as (ns & E & _). unfold new_namespaces, GetOrInsert. cbn [state_ with_state namespaces_ default_namespace_].
  change ((∅ : gmap string Namespace) !! "") with (@None Namespace). cbv beta iota.
  rbind (on_all_shards (build_in "") order p _ _ pos Hp Hl Hpos Ho (build_in_all order "" ∅ None _ _ E)).
  intros [p1 r] (-> & E1 & Hl1 & Hh1). apply runs_ok. split_and!; [done| |done|done]. exists ns. split; [by rewrite <- (build_any_order size order Ho)|].
  cbn [with_state state_]. by rewrite E1.
Qed.

Lemma namespaces_Clear_spec order p pos : loops_hold k p (λ _, []) pos → length (loops_ p) = size → pos + Z.of_nat size < kMaxPos →
  order ≡ₚ seq 0 size → all_ok size [] (state_ p) →
  runs (Clear size order p) (λ '(p', returned), returned = true ∧ state_ p' = mkNamespaces ∅ None ∧
    length (loops_ p') = size ∧ ∃ pos', pos' ≤ pos + Z.of_nat size ∧ loops_hold k p' (λ _, []) pos').
Proof.
  intros Hp Hl Hpos Ho Ha. unfold Clear. cbv zeta. cbn [namespaces_]. case_bool_decide as He.
  - apply runs_ok. cbn [with_state state_ loops_]. rewrite He. split_and!; [done..|]. exists pos. split; [lia|exact Hp].
  - destruct (clear_all size order (mkNamespaces (namespaces_ (state_ p)) None) Ho Ha) as (nss & E & Hok & Hd).
    rbind (on_all_shards clear_shard order p _ _ pos Hp Hl Hpos Ho E). intros [p1 r] (-> & E1 & Hl1 & Hh1). cbv iota.
    rewrite E1, (destroy_map_none size order nss Ho Hok), bind_ok, Hd. apply runs_ok. split_and!; [done..|]. by exists (pos + Z.of_nat size).
Qed.

(** Once they are cleared, destroying them does nothing more, and nothing finds
    the default namespace. *)
Lemma Clear_again order p : state_ p = mkNamespaces ∅ None →
  Clear size order p = Ok (with_state p (mkNamespaces ∅ None), true) ∧ GetDefaultNamespace (state_ p) = Fault UseAfterFree.
Proof. intros E. unfold Clear, GetDefaultNamespace. by rewrite E. Qed.
End pool.

(** ** From the start to the end of the server *)

End lifecycle.
