(* ===== verification/System.v ===== *)
(** System: the running server: connections are accepted and given to the event
    loops, commands hop to the shards through their task queues, and replies come
    back through the queues of the loops.
    Source: src/src/network/redis_server.hpp, src/src/transaction_layer/
    transaction.cpp, src/src/sharding/engine_shard_set.hpp.

    Where [Server] keeps the waiting tasks of each session in a list of its own,
    they are here in the queues that the code puts them in, those of [TaskQueue]
    and [MpmcQueue]. An event is one task of one thread. *)
From Stdlib Require Import Ascii String.
From stdpp Require Import gmap strings pretty.
From S2P Require Import Prelude MpmcQueue EventCount TaskQueue Pool CompactObj DbSlice IoBuf Resp CmdArgs Registry Shards Commands Server.
Local Open Scope Z_scope.

(** A task for a shard: the callback of the command of a session, and behind it
    the rest of its coroutine. *)
Record ShardJob : Set := mkShardJob { job_sess : nat; job_tx : Transaction; job_args : list string }.

(** A task for an event loop: the first read of a session, or a reply. *)
Inductive LoopJob : Set := StartRead (i : nat) | SendReply (i : nat) (s : string).
Definition loop_sess (job : LoopJob) : nat := match job with StartRead i | SendReply i _ => i end.

(** A connection: not accepted yet, given to a loop, or read by that loop. *)
Inductive conn : Set := NotYet | Starting (j : nat) | Open (j : nat).
#[global] Instance conn_eq_dec : EqDecision conn.
Proof. solve_decision. Defined.

(** [socket_.Proactor()] *)
Definition proactor_of (c : conn) : option nat := match c with NotYet => None | Starting j | Open j => Some j end.

Record System : Type := mkSystem {
  nspace_ : Namespace;
  sess_ : list Session;      (* [pend_] is not used *)
  conns_ : list conn;
  workers_ : list (TaskQueue ShardJob);
  procs_ : list (Queue LoopJob);
  next_ : Z;                 (* NextProIndex_ *)
  up_ : bool;                (* isRuning *)
}.

Definition set_nspace (y : System) ns : System := mkSystem ns (sess_ y) (conns_ y) (workers_ y) (procs_ y) (next_ y) (up_ y).
Definition set_sess (y : System) l : System := mkSystem (nspace_ y) l (conns_ y) (workers_ y) (procs_ y) (next_ y) (up_ y).
Definition set_conns (y : System) l : System := mkSystem (nspace_ y) (sess_ y) l (workers_ y) (procs_ y) (next_ y) (up_ y).
Definition set_workers (y : System) l : System := mkSystem (nspace_ y) (sess_ y) (conns_ y) l (procs_ y) (next_ y) (up_ y).
Definition set_procs (y : System) l : System := mkSystem (nspace_ y) (sess_ y) (conns_ y) (workers_ y) l (next_ y) (up_ y).
Definition set_next (y : System) n : System := mkSystem (nspace_ y) (sess_ y) (conns_ y) (workers_ y) (procs_ y) n (up_ y).
Definition set_down (y : System) : System := mkSystem (nspace_ y) (sess_ y) (conns_ y) (workers_ y) (procs_ y) (next_ y) false.

(** The commands that answer without a hop. *)
Definition direct (args : list string) : bool :=
  bool_decide (default "" (head args) ∈ ["PING"; "CLIENT"; "SHUTDOWN"])%string.

Section system.
Context `{StdLib} (fuel size : nat) (cont : nat → EventCount → res EventCount).

Definition kRingDepth : Z := 4096.

(** [RedisServer(listenFd, size)] and the part of [Start] before the connections. *)
Definition new_system (clients : nat) : res System :=
  ns ← new_namespace size;
  match new_task_queue kQueueLen, new_queue kRingDepth with
  | Some w, Some q => Ok (mkSystem ns (replicate clients new_session) (replicate clients NotYet) (replicate size w) (replicate size q) 0 true)
  | _, _ => Fault AssertFailed
  end.

(** [p->DispatchBrief(job)] on loop [j]; the result is not looked at. *)
Definition dispatch (j : nat) (job : LoopJob) (y : System) : res System :=
  q ← aget (procs_ y) j; '(q, _) ← try_enqueue q job; l ← aset (procs_ y) j q; Ok (set_procs y l).

(** [shard_set->Add(sid, job)]: what becomes of the coroutine of [Add] is not
    looked at. *)
Definition add_job (sid : Z) (job : ShardJob) (y : System) : res System :=
  _ ← cassert (sid <? Z.of_nat size);
  q ← aget (workers_ y) (Z.to_nat sid);
  '(q, _) ← TaskQueue.Add (S fuel) (S fuel) q job (job_sess job);
  l ← aset (workers_ y) (Z.to_nat sid) q; Ok (set_workers y l).

(** The accept loop: the next connection goes to [NextProactor()]. *)
Definition on_accept (y : System) : res System :=
  match list_find (NotYet =.) (conns_ y) with
  | None => Ok y
  | Some (i, _) =>
      let '(next, j) := NextProactor (Z.of_nat size) (next_ y) in
      l ← aset (conns_ y) i (Starting (Z.to_nat j));
      dispatch (Z.to_nat j) (StartRead i) (set_next (set_conns y l) next)
  end.

(** What a handler does at its end, for session [i]. *)
Definition finish (i : nat) (r : Reply) (y : System) : res System :=
  match r with
  | SendImp s =>
      c ← aget (conns_ y) i;
      match proactor_of c with Some j => dispatch j (SendReply i s) y | None => Fault NullPointer end
  | Stop => Ok (set_down y)
  end.

Definition run_command (i : nat) (tx : Transaction) (args : list string) (y : System) : res System :=
  '(ns, r) ← invoke fuel size tx args (nspace_ y); finish i r (set_nspace y ns).

(** A read of session [i] completes, up to the next one. *)
Definition on_data (i : nat) (now : Z) (data : list ascii) (y : System) : res System :=
  c ← aget (conns_ y) i;
  match c with
  | Open j =>
      s ← aget (sess_ y) i;
      s' ← on_read fuel size now s data;
      l ← aset (sess_ y) i (set_pend s' []);
      let y := set_sess y l in
      match pend_ s' with
      | Hop tx args :: _ =>
          if direct args then run_command i tx args y else add_job (unique_shard_id_ tx) (mkShardJob i tx args) y
      | Out s :: _ => dispatch j (SendReply i s) y
      | [] => Ok y
      end
  | _ => Ok y
  end.

(** A round of the worker of shard [sid]. *)
Definition shard_turn (sid : nat) (y : System) : res System :=
  q ← aget (workers_ y) sid;
  '(q, r) ← run_round (S fuel) cont q;
  l ← aset (workers_ y) sid q;
  let y := set_workers y l in
  match r with
  | Runs job => run_command (job_sess job) (job_tx job) (job_args job) y
  | _ => Ok y
  end.

(** Loop [j] takes its next task. *)
Definition loop_turn (j : nat) (chunks : nat → nat) (y : System) : res System :=
  q ← aget (procs_ y) j;
  '(q, r) ← try_dequeue q;
  l ← aset (procs_ y) j q;
  let y := set_procs y l in
  match r with
  | Some (StartRead i) => l ← aset (conns_ y) i (Open j); Ok (set_conns y l)
  | Some (SendReply i reply) =>
      s ← aget (sess_ y) i; s ← on_reply chunks s reply []; l ← aset (sess_ y) i s; Ok (set_sess y l)
  | None => Ok y
  end.

Inductive sevent : Type :=
  | Accept
  | Data (i : nat) (now : Z) (data : list ascii)
  | ShardTurn (sid : nat)
  | LoopTurn (j : nat) (chunks : nat → nat).

(** After SHUTDOWN nothing of this happens any more; [Pool.Shutdown] is the rest. *)
Definition sexec (e : sevent) (y : System) : res System :=
  if up_ y then
    match e with
    | Accept => on_accept y
    | Data i now data => on_data i now data y
    | ShardTurn sid => shard_turn sid y
    | LoopTurn j chunks => loop_turn j chunks y
    end
  else Ok y.

Definition sexec_all (es : list sevent) (y : System) : res System := rfold sexec es y.

(** ** The events of [Server] that an event stands for *)

Definition front_job (q : TaskQueue ShardJob) : option ShardJob :=
  match run_round (S fuel) cont q with Ok (_, Runs job) => Some job | _ => None end.
Definition front_task (q : Queue LoopJob) : option LoopJob :=
  match try_dequeue q with Ok (_, r) => r | _ => None end.

(** A command that needs no hop runs at once. *)
Definition ran_now (i : nat) (now : Z) (data : list ascii) (y : System) : list Server.event :=
  match s ← sess_ y !! i; (match on_read fuel size now s data with Ok s' => Some (pend_ s') | _ => None end) with
  | Some (Hop _ args :: _) => if direct args then [Run i] else []
  | _ => []
  end.

Definition events_of (e : sevent) (y : System) : list Server.event :=
  if up_ y then
    match e with
    | Accept => []
    | Data i now data => match conns_ y !! i with Some (Open _) => Read i now data :: ran_now i now data y | _ => [] end
    | ShardTurn sid => match workers_ y !! sid ≫= front_job with Some job => [Run (job_sess job)] | None => [] end
    | LoopTurn j chunks => match procs_ y !! j ≫= front_task with Some (SendReply i _) => [Flush i chunks] | _ => [] end
    end
  else [].

(** The events of [Server] that a run of the system stands for. *)
Fixpoint trace (es : list sevent) (y : System) : list Server.event :=
  match es with
  | [] => []
  | e :: es' => events_of e y ++ match sexec e y with Ok y' => trace es' y' | Fault _ => [] end
  end.
End system.
