(* ===== verification/SystemLive.v ===== *)
(** SystemLive: when every thread goes on taking its turn, every client gets the
    reply it waits for. *)
From Stdlib Require Import Ascii String.
From stdpp Require Import gmap strings pretty.
From S2P Require Import Prelude SpinLock ThreadEvent MpmcQueue MpmcInv MpmcSpec EventCount EventCountSpec TaskQueue Pool CompactObj PrimeTable DbSlice DbSliceInv DbSliceOps IoBuf IoBufInv Resp RespInv CmdArgs Registry Shards Commands CommandsInv CommandsSpec RespSpec Server ServerSpec System SystemSpec.
Local Open Scope Z_scope.

(** ** The work that is left *)

Definition weight (s : Session) : nat := match pend_ s with [] => 0 | Hop _ _ :: _ => 2 | Out _ :: _ => 1 end.
Definition is_starting (c : conn) : Prop := match c with Starting _ => True | _ => False end.
#[export] Instance is_starting_dec c : Decision (is_starting c).
Proof. destruct c; apply _. Defined.

Definition work (y : System) (sv : Server) : nat :=
  sum_list_with weight (sessions_ sv) + length (filter is_starting (conns_ y)).

Lemma filter_insert_drop {A} (P : A → Prop) `{∀ x, Decision (P x)} l i x y : l !! i = Some x → P x → ¬ P y →
  (length (filter P (<[i := y]> l)) < length (filter P l))%nat.
Proof.
  intros Hi HP HnP. rewrite <- (take_drop_middle _ _ _ Hi) at 2. rewrite (insert_take_drop _ _ _ (lookup_lt_Some _ _ _ Hi)).
  rewrite !filter_app, !filter_cons, !length_app. rewrite (decide_True (P:=P x)), (decide_False (P:=P y)) by done. simpl. lia.
Qed.

Section live.
Context `{StdLib} (fuel size : nat) (Hsize : 0 < Z.of_nat size ≤ 2 ^ 16) (cont : nat → EventCount → res EventCount).
Implicit Types (y : System) (sv : Server) (s : Session) (n : Z) (e : sevent) (es : list sevent).

Definition turn e : Prop := match e with ShardTurn sid => (sid < size)%nat | LoopTurn j _ => (j < size)%nat | _ => False end.

(** The thread of [e] finds a task. *)
Definition busy e y : Prop :=
  match e with
  | ShardTurn sid => is_Some (workers_ y !! sid ≫= front_job fuel cont)
  | LoopTurn j _ => is_Some (procs_ y !! j ≫= front_task)
  | _ => False
  end.

(** ** What a command leaves alone *)

Lemma dispatch_frame j job y y' : dispatch j job y = Ok y' → conns_ y' = conns_ y ∧ workers_ y' = workers_ y ∧ length (procs_ y') = length (procs_ y).
Proof.
  unfold dispatch. intros (q & _ & H1)%bind_ok_inv. apply bind_ok_inv in H1 as ([q' r] & _ & H1).
  apply bind_ok_inv in H1 as (l & Hl & [= <-]). split_and!; try done. unfold aset in Hl. destruct (_ !! _); [injection Hl as <-|done]. apply length_insert.
Qed.

Lemma run_command_frame i tx args y y' : run_command fuel size i tx args y = Ok y' → conns_ y' = conns_ y.
Proof.
  unfold run_command. intros ([ns r] & _ & H1)%bind_ok_inv. destruct r; cbn [finish] in H1; [|by injection H1 as <-].
  apply bind_ok_inv in H1 as (c & _ & H1). destruct (proactor_of c); [|done]. by apply dispatch_frame in H1 as [-> _].
Qed.

(** ** Turns of threads that find a task *)

Lemma after_weight i s r sv tx args : sessions_ sv !! i = Some s → pend_ s = [Hop tx args] →
  (sum_list_with weight (sessions_ (after i s r sv)) < sum_list_with weight (sessions_ sv))%nat.
Proof.
  intros Hs Hp. destruct r as [reply|]; cbn [after sessions_].
  - pose proof (sum_insert weight _ i s (set_pend s [Out reply]) Hs) as E. unfold weight in E at 2 4. rewrite Hp in E. simpl in E. lia.
  - pose proof (sum_insert weight _ i s (set_pend s []) Hs) as E. unfold weight in E at 2 4. rewrite Hp in E. simpl in E. lia.
Qed.

(** A turn does work if there is some, and otherwise leaves that of others. *)
Definition turn_ok e y sv y' sv' : Prop :=
  (busy e y ∧ (work y' sv' < work y sv)%nat) ∨ (¬ busy e y ∧ work y' sv' = work y sv ∧ ∀ e', busy e' y → busy e' y').

Lemma shard_live n y sv sid y' : related size n y sv → n < kMaxPos → up_ y = true → (sid < size)%nat →
  shard_turn fuel size cont sid y = Ok y' →
  ∃ sv', exec_all fuel size (events_of fuel size cont (ShardTurn sid) y) sv = Ok sv' ∧ related size (n + 1) y' sv' ∧ turn_ok (ShardTurn sid) y sv y' sv'.
Proof.
  intros Hrel Hn Hrun Hsid Hturn. pose proof (shard_step fuel size Hsize cont n y sv sid Hrel Hn Hrun Hsid) as Hstep.
  rewrite Hturn in Hstep. destruct Hstep as (sv' & E & Hrel'). exists sv'. split_and!; [done|done|].
  destruct Hrel as (hops & outs & HR). pose proof HR as [Hns Hup Hsess Hsm Hnx HS HQ].
  destruct (lookup_lt_is_Some_2 (workers_ y) sid) as [q Hq]; [rewrite (qr_workers _ _ _ _ _ _ HQ); lia|].
  pose proof (round_spec fuel size cont n y hops outs sid q HQ Hn Hq) as Er. unfold events_of in E. rewrite Hrun, Hq in E. cbn [mbind option_bind] in E.
  unfold front_job in E. unfold shard_turn in Hturn. rewrite (aget_some _ _ _ Hq), bind_ok in Hturn.
  assert (busy (ShardTurn sid) y ↔ is_Some (front_job fuel cont q)) as Hbusy by (unfold busy; by rewrite Hq).
  unfold turn_ok. rewrite Hbusy. unfold front_job.
  destruct (hops sid) as [|job l] eqn:El.
  - rewrite Er, bind_ok, (aset_some _ _ _ _ Hq), bind_ok, (list_insert_id _ _ _ Hq) in Hturn. rewrite Er in E |- *. right.
    injection E as <-. replace y' with y by (injection Hturn as <-; by destruct y). rewrite is_Some_alt. by split_and!; [intros []| |].
  - destruct Er as (q' & Er & HQ'). rewrite Er in E |- *. rewrite Er, bind_ok, (aset_some _ _ _ _ Hq), bind_ok in Hturn. left. split; [done|].
    assert (hop_at (sessions_ sv) sid job) as (s & Hs & Hp & _) by (apply (fam_mem _ _ _ (ss_hops _ _ _ _ _ HS)); rewrite El; left).
    unfold exec_all in E. cbn [rfold] in E. rewrite (exec_run fuel size _ s _ _ _ Hs Hp) in E. apply run_command_frame in Hturn.
    apply bind_ok_inv in E as (sv1 & E & [= <-]). apply bind_ok_inv in E as ([ns r] & _ & [= <-]).
    unfold work. rewrite Hturn. cbn [conns_ set_workers].
    pose proof (after_weight (job_sess job) s r (mkServer ns (sessions_ sv) (running_ sv)) _ _ Hs Hp) as Hw. cbn [sessions_] in Hw. lia.
Qed.

(** The queue of another loop does not change. *)
Lemma busy_other j y q e' : busy e' y → ¬ is_Some (procs_ y !! j ≫= front_task) → busy e' (set_procs y (<[j := q]> (procs_ y))).
Proof.
  destruct e' as [| |sid|j' chunks']; try done. simpl. intros Hb Hj. destruct (decide (j = j')) as [<-|Hne]; [done|].
  by rewrite list_lookup_insert_ne.
Qed.

Lemma loop_live n y sv j chunks y' : related size n y sv → n < kMaxPos → up_ y = true → (j < size)%nat →
  loop_turn j chunks y = Ok y' →
  ∃ sv', exec_all fuel size (events_of fuel size cont (LoopTurn j chunks) y) sv = Ok sv' ∧ related size (n + 1) y' sv' ∧ turn_ok (LoopTurn j chunks) y sv y' sv'.
Proof.
  intros Hrel Hn Hrun Hj Hturn. pose proof (loop_step fuel size cont n y sv j chunks Hrel Hn Hrun Hj) as Hstep.
  rewrite Hturn in Hstep. destruct Hstep as (sv' & E & Hrel'). exists sv'. split_and!; [done|done|].
  destruct Hrel as (hops & outs & HR). pose proof HR as [Hns Hup Hsess Hsm Hnx HS HQ].
  destruct (lookup_lt_is_Some_2 (procs_ y) j) as [q Hq]; [rewrite (qr_procs _ _ _ _ _ _ HQ); lia|].
  destruct (take_spec size n y hops outs j q HQ Hn Hq) as (q' & Er & HQ'). unfold events_of in E. rewrite Hrun, Hq in E. cbn [mbind option_bind] in E.
  assert (front_task q = head (outs j)) as Ef by (unfold front_task; by rewrite Er). rewrite Ef in E.
  unfold loop_turn in Hturn. rewrite (aget_some _ _ _ Hq), bind_ok, Er, bind_ok, (aset_some _ _ _ _ Hq), bind_ok in Hturn.
  assert (busy (LoopTurn j chunks) y ↔ is_Some (head (outs j))) as Hbusy by (unfold busy; rewrite Hq; cbn; by rewrite Ef). unfold turn_ok. rewrite Hbusy.
  destruct (outs j) as [|[i|i r] l] eqn:El; cbn [head] in *.
  - right. injection E as <-. injection Hturn as <-. split_and!; [by intros [? ?]|done|]. intros e' He'. apply busy_other; [done|].
    change (¬ busy (LoopTurn j chunks) y). rewrite Hbusy. by intros [? ?].
  - left. split; [done|]. injection E as <-. apply bind_ok_inv in Hturn as (cs & Hcs & [= <-]). cbn [conns_ set_procs] in Hcs.
    assert (conns_ y !! i = Some (Starting j)) as Hc by (apply (fam_mem _ _ _ (ss_outs _ _ _ _ _ HS) j (StartRead i)); rewrite El; left).
    rewrite (aset_some _ _ _ _ Hc) in Hcs. injection Hcs as <-. unfold work. cbn [conns_ set_conns].
    pose proof (filter_insert_drop is_starting (conns_ y) i _ (Open j) Hc I ltac:(by intros [])). lia.
  - left. split; [done|]. assert (task_at (sessions_ sv) (conns_ y) j (SendReply i r)) as (Hc & s & Hs & Hp)
      by (apply (fam_mem _ _ _ (ss_outs _ _ _ _ _ HS)); rewrite El; left).
    unfold exec_all in E. cbn [rfold exec] in E. unfold with_session in E. rewrite (aget_some _ _ _ Hs), bind_ok, Hp in E.
    apply bind_ok_inv in E as (sv1 & E & [= <-]). apply bind_ok_inv in E as (s' & Es & E). rewrite (aset_some _ _ _ _ Hs) in E. injection E as <-.
    assert (pend_ s' = []) as Hp'.
    { unfold on_reply in Es. apply bind_ok_inv in Es as (b & _ & Es). apply bind_ok_inv in Es as ([b1 out] & _ & Es). by injection Es as <-. }
    apply bind_ok_inv in Hturn as (s1 & _ & Hturn). apply bind_ok_inv in Hturn as (s2 & _ & Hturn). apply bind_ok_inv in Hturn as (l2 & _ & [= <-]).
    unfold work. cbn [conns_ set_sess set_procs sessions_]. pose proof (sum_insert weight _ i s s' Hs) as Es'. unfold weight in Es' at 2 4. rewrite Hp, Hp' in Es'. lia.
Qed.

Lemma turn_live n y sv e y' : related size n y sv → n < kMaxPos → up_ y = true → turn e → sexec fuel size cont e y = Ok y' →
  ∃ sv', exec_all fuel size (events_of fuel size cont e y) sv = Ok sv' ∧ related size (n + 1) y' sv' ∧ turn_ok e y sv y' sv'.
Proof.
  intros Hrel Hn Hrun He Hturn. unfold sexec in Hturn. rewrite Hrun in Hturn.
  destruct e as [| |sid|j chunks]; [done|done|by apply (shard_live n)|by apply (loop_live n)].
Qed.

(** ** Work that is left is found by some thread *)

Definition covers es : Prop :=
  (∀ sid, (sid < size)%nat → ShardTurn sid ∈ es) ∧ (∀ j, (j < size)%nat → ∃ chunks, LoopTurn j chunks ∈ es).

Lemma work_found n y sv es : related size n y sv → n < kMaxPos → (0 < work y sv)%nat → covers es → ∃ e, e ∈ es ∧ busy e y.
Proof.
  intros (hops & outs & HR) Hn Hw [Hsh Hlo]. pose proof HR as [Hns Hup Hsess Hsm Hnx HS HQ].
  assert (∀ j x, task_at (sessions_ sv) (conns_ y) j x → (j < size)%nat → ∃ e, e ∈ es ∧ busy e y) as Hloop.
  { intros j x Hx Hj. destruct (Hlo j Hj) as [chunks Hin]. exists (LoopTurn j chunks). split; [done|]. simpl.
    destruct (lookup_lt_is_Some_2 (procs_ y) j) as [q Hq]; [rewrite (qr_procs _ _ _ _ _ _ HQ); lia|]. rewrite Hq. cbn.
    destruct (take_spec size n y hops outs j q HQ Hn Hq) as (q' & E & _). unfold front_task. rewrite E.
    apply (fam_mem _ _ _ (ss_outs _ _ _ _ _ HS)) in Hx. destruct (outs j); [by apply elem_of_nil in Hx|done]. }
  unfold work in Hw. destruct (decide (0 < sum_list_with weight (sessions_ sv))%nat) as [Hp|Hp].
  - apply sum_pos in Hp as (i & s & Hs & Hwt). unfold weight in Hwt.
    destruct (ss_ok _ _ _ _ _ HS i s Hs) as [E|(_ & [j Hc] & [[r E]|(tx & args & E & Hsid)])]; [rewrite E in Hwt; lia| |].
    + apply (Hloop j (SendReply i r)); [split; [done|by exists s]|]. by apply (ss_loop _ _ _ _ _ HS i _ j Hc).
    + set (sid := Z.to_nat (unique_shard_id_ tx)). assert (sid < size)%nat as Hlt by lia. exists (ShardTurn sid). split; [by apply Hsh|]. simpl.
      destruct (lookup_lt_is_Some_2 (workers_ y) sid) as [q Hq]; [rewrite (qr_workers _ _ _ _ _ _ HQ); lia|]. rewrite Hq. cbn.
      pose proof (round_spec fuel size cont n y hops outs sid q HQ Hn Hq) as Er. unfold front_job.
      assert (mkShardJob i tx args ∈ hops sid) as Hin by (apply (fam_mem _ _ _ (ss_hops _ _ _ _ _ HS)); by exists s).
      destruct (hops sid); [by apply elem_of_nil in Hin|]. by destruct Er as (q' & -> & _).
  - assert (0 < length (filter is_starting (conns_ y)))%nat as Hf by lia.
    destruct (filter is_starting (conns_ y)) as [|c cs] eqn:E; [simpl in Hf; lia|].
    assert (c ∈ filter is_starting (conns_ y)) as [Hc Hin]%list_elem_of_filter by (rewrite E; left).
    apply list_elem_of_lookup in Hin as [i Hi]. destruct c as [|j|j]; try done.
    apply (Hloop j (StartRead i)); [done|]. by apply (ss_loop _ _ _ _ _ HS i _ j Hi).
Qed.

(** ** Rounds of turns *)

Lemma related_up n y sv : related size n y sv → up_ y = running_ sv.
Proof. intros (hops & outs & HR). apply (sy_up _ _ _ _ _ _ HR). Qed.

Lemma sexec_up e y y' : sexec fuel size cont e y = Ok y' → up_ y' = true → up_ y = true.
Proof. unfold sexec. destruct (up_ y) eqn:E; [done|]. intros [= <-]. congruence. Qed.

Lemma sexec_all_up es y y' : sexec_all fuel size cont es y = Ok y' → up_ y' = true → up_ y = true.
Proof.
  revert y. induction es as [|e es IH]; intros y; unfold sexec_all; cbn [rfold]; [by intros [= ->]|].
  intros (y1 & H1 & H2)%bind_ok_inv Hup. eapply sexec_up; [done|]. by apply IH.
Qed.

(** Some turns leave no more work than there was, and less if one of them finds a task. *)
Lemma turns_live es : ∀ n y sv y', related size n y sv → n + Z.of_nat (length es) < kMaxPos → Forall turn es →
  sexec_all fuel size cont es y = Ok y' → up_ y' = true →
  ∃ sv', exec_all fuel size (trace fuel size cont es y) sv = Ok sv' ∧ related size (n + Z.of_nat (length es)) y' sv' ∧
    (work y' sv' ≤ work y sv)%nat ∧ ((∃ e, e ∈ es ∧ busy e y) → (work y' sv' < work y sv)%nat).
Proof.
  induction es as [|e es IH]; intros n y sv y' Hrel Hn Hes Hrun Hup; unfold sexec_all in Hrun; cbn [rfold trace length] in *.
  - injection Hrun as <-. exists sv. rewrite Z.add_0_r. split_and!; [done|done|done|]. by intros (e & ?%elem_of_nil & _).
  - apply Forall_cons in Hes as [He Hes]. apply bind_ok_inv in Hrun as (y1 & H1 & Hrun).
    pose proof (sexec_up _ _ _ H1 (sexec_all_up _ _ _ Hrun Hup)) as Hup0.
    destruct (turn_live n y sv e y1 Hrel ltac:(lia) Hup0 He H1) as (sv1 & E1 & Hrel1 & Hok).
    destruct (IH (n + 1) y1 sv1 y' Hrel1 ltac:(lia) Hes Hrun Hup) as (sv' & E' & Hrel' & Hle & Hlt). exists sv'.
    replace (n + Z.of_nat (S (length es))) with (n + 1 + Z.of_nat (length es)) by lia.
    rewrite H1. unfold exec_all in *. rewrite rfold_app, E1, bind_ok. split_and!; [done|done|destruct Hok as [[_ ?]|(_ & ? & _)]; lia|].
    intros (e' & Hin & Hb). destruct Hok as [[_ ?]|(Hnb & Ew & Hkeep)]; [lia|]. apply elem_of_cons in Hin as [->|Hin]; [done|].
    rewrite <- Ew. apply Hlt. eauto.
Qed.

Definition round_ok es : Prop := Forall turn es ∧ covers es.

Lemma trace_app es1 es2 y y1 : sexec_all fuel size cont es1 y = Ok y1 →
  trace fuel size cont (es1 ++ es2) y = trace fuel size cont es1 y ++ trace fuel size cont es2 y1.
Proof.
  revert y. induction es1 as [|e es1 IH]; intros y; unfold sexec_all; cbn [rfold trace app]; [by intros [= ->]|].
  intros (y2 & H1 & H2)%bind_ok_inv. by rewrite H1, (IH y2 H2), <- app_assoc.
Qed.

Lemma rounds_live rounds : ∀ n y sv y', related size n y sv → n + Z.of_nat (length (concat rounds)) < kMaxPos → Forall round_ok rounds →
  sexec_all fuel size cont (concat rounds) y = Ok y' → up_ y' = true → (work y sv ≤ length rounds)%nat →
  ∃ sv', exec_all fuel size (trace fuel size cont (concat rounds) y) sv = Ok sv' ∧
    related size (n + Z.of_nat (length (concat rounds))) y' sv' ∧ work y' sv' = 0%nat.
Proof.
  induction rounds as [|r rounds IH]; intros n y sv y' Hrel Hn Hr Hrun Hup Hw; cbn [concat length] in *.
  - injection Hrun as <-. exists sv. rewrite Z.add_0_r. split_and!; [done|done|lia].
  - apply Forall_cons in Hr as [[Hturns Hcov] Hr]. rewrite length_app in *. unfold sexec_all in Hrun. rewrite rfold_app in Hrun.
    apply bind_ok_inv in Hrun as (y1 & H1 & Hrun).
    destruct (turns_live r n y sv y1 Hrel ltac:(lia) Hturns H1 (sexec_all_up _ _ _ Hrun Hup)) as (sv1 & E1 & Hrel1 & Hle & Hlt).
    assert (work y1 sv1 ≤ length rounds)%nat as Hw1.
    { destruct (decide (0 < work y sv)%nat) as [Hp|]; [|lia]. specialize (Hlt (work_found n y sv r Hrel ltac:(lia) Hp Hcov)). lia. }
    destruct (IH _ y1 sv1 y' Hrel1 ltac:(lia) Hr Hrun Hup Hw1) as (sv' & E' & Hrel' & Hz). exists sv'.
    rewrite (trace_app _ _ _ _ H1). unfold exec_all in *. rewrite rfold_app, E1, bind_ok.
    replace (n + Z.of_nat (length r + length (concat rounds))) with (n + Z.of_nat (length r) + Z.of_nat (length (concat rounds))) by lia. done.
Qed.

Lemma work_bound n y sv : related size n y sv → (work y sv ≤ 3 * length (sessions_ sv))%nat.
Proof.
  intros Hrel. pose proof (related_conns size n y sv Hrel) as Hl. unfold work.
  assert (sum_list_with weight (sessions_ sv) ≤ 2 * length (sessions_ sv))%nat as H1
    by (apply sum_le; intros s; unfold weight; destruct (pend_ s) as [|[] ?]; lia).
  pose proof (length_filter is_starting (conns_ y)). lia.
Qed.

Lemma no_work y sv : work y sv = 0%nat → ∀ i s, sessions_ sv !! i = Some s → weight s = 0%nat.
Proof.
  unfold work. intros Hw i s Hs. assert (weight s ≤ sum_list_with weight (sessions_ sv))%nat; [|lia].
  clear Hw. revert i Hs. induction (sessions_ sv) as [|x l IH]; intros [|i]; simpl; try done; [intros [= ->]; lia|].
  intros Hs. specialize (IH i Hs). lia.
Qed.

End live.
