(* ===== verification/StoreWitness.v ===== *)
(** StoreWitness: the theorems on the store, the parsers and the server, applied
    to concrete inputs, from the start of the namespaces to their end. *)
From Stdlib Require Import Ascii String.
From stdpp Require Import gmap strings pretty.
From stdpp Require Import gmap strings.
From S2P Require Import Prelude Policy SlotBitmap BucketBase Bucket Segment SegmentInv SegmentOps SegmentSplit DashTable DashTableInv DashTableGrow DashTableOps DashTableErase DashMap CompactObj PrimeTable DbSlice DbSliceInv DbSliceOps DbSpec Sample MpmcQueue MpmcInv MpmcSpec TaskQueue Pool PoolSpec IoBuf IoBufInv IoBufSpec Resp RespInv RespSpec CmdArgs Shards Registry Commands CommandsInv CommandsSpec Server ServerSpec Lifecycle.
Local Open Scope Z_scope.

#[local] Instance L : StdLib := SampleLib (λ _, "").

(** ** Objects and slots *)

Lemma move_assign_branches_witness : obj_ok (new_obj true) ∧
  move_assign (new_obj true) (SetInt (new_obj false) 5) = Ok (SetInt (new_obj true) 5).
Proof.
  split; [by left|]. apply (move_assign_branches (new_obj true) (SetInt (new_obj false) 5)); [by left|done].
Defined.

(** A segment with one entry. *)
Definition one_entry : res (Segment CompactObj PrimeValue) :=
  '(s, _) ← InsertUniq (new_segment 0 0) (FromQuery "k") value_default (HashFnQ "k") true; Ok s.
Definition key_in_slot_0 (i : nat) (r : res (Segment CompactObj PrimeValue)) : option string :=
  match r with Ok s => b ← bucket_ s !! i; e_key <$> (slot_at b 0 : option (entry string (option string))) | Fault _ => None end.

Lemma one_entry_wf : runs one_entry (λ s, seg_wf (PO:=prime_ok false) s).
Proof.
  unfold one_entry. destruct (new_segment_wf (PO:=prime_ok true) 0 0) as [Hw Hi].
  rbind (InsertUniq_spec (PO:=prime_ok true) (AO:=prime_assign_ok) (new_segment 0 0) (FromQuery "k") value_default true Hw I).
  - simpl. split; [|done]. split; [done|by right].
  - intros [s [it|]] Hr; apply runs_ok.
    + apply seg_wf_loose, Hr.
    + destruct Hr as [-> _]. by apply seg_wf_loose.
Qed.


(** ** Databases *)

Definition cntx0 : DbContext := mkCntx 0 0.

(** A slice with the key "k", and the iterator that inserted it. *)
Definition slice_with_k : res (DbSlice * SliceIt) :=
  sl ← new_slice 0; '(sl, r) ← AddOrFind 1 sl cntx0 "k" None; Ok (sl, iu_it_ (v_ r)).

Lemma new_slice_fits : runs (new_slice 0) (λ sl, slice_rep true sl 0 ∅ ∧
  ∀ t key, get_db sl 0 = Ok t → fits 0 t key).
Proof.
  eapply runs_mono; [apply new_slice_spec|]. intros sl (t & Hdb & Hr & Hi & _). split; [by exists t|].
  intros t' key Ht'. rewrite Hdb in Ht'. injection Ht' as <-. by apply fits_empty.
Qed.

Lemma slice_with_k_spec : runs slice_with_k (λ '(sl, i), ∃ t, get_db sl 0 = Ok t ∧
  rep (PO:=prime_ok false) t {["k" := None]} ∧ points_to t i ∧ key_ i = "k").
Proof.
  unfold slice_with_k. rbind new_slice_fits. intros sl [(t & Hdb & Hr) Hfit].
  rbind (AddOrFind_new sl cntx0 t ∅ "k" 1 0 Hdb Hr); [done|by apply Hfit|lia|].
  intros [sl' r] (_ & _ & Hk & _ & t' & Hdb' & Hr' & Hp). apply runs_ok. exists t'.
  rewrite insert_empty in Hr'. split_and!; [done|by apply rep_loose|done|done].
Qed.


Lemma launder_repairs_witness : runs ('(sl, i) ← slice_with_k; t ← get_db sl 0; launder t i)
  (λ i', key_ i' = "k" ∧ it_ i' ≠ None).
Proof.
  rbind slice_with_k_spec. intros [sl i] (t & Hdb & Hr & Hp & Hk). rewrite Hdb, bind_ok.
  destruct (points_in_range false t _ i Hr Hp) as (Hin & Hne & Hm).
  eapply runs_mono; [apply (launder_repairs false sl 0 t _ i (ex_intro _ t (conj Hdb Hr)) Hdb Hin)|].
  intros i' [-> HP]. split; [done|]. destruct (it_ i'); [done|]. destruct HP as [HP|HP]; [done|].
  rewrite HP in Hm. by destruct Hm.
Defined.

Lemma Del_refines_witness : runs ('(sl, i) ← slice_with_k; Del sl cntx0 i) (λ sl, slice_rep false sl 0 ∅).
Proof.
  rbind slice_with_k_spec. intros [sl i] (t & Hdb & Hr & Hp & Hk).
  destruct (points_in_range false t _ i Hr Hp) as (Hin & Hne & Hm).
  eapply runs_mono; [apply (Del_refines sl cntx0 _ i (ex_intro _ t (conj Hdb Hr)) Hin Hne Hm)|].
  intros sl' [_ Hr']. by rewrite Hk, delete_singleton_eq in Hr'.
Defined.

(** With libstdc++ a string is empty after it was moved to itself. *)
Lemma AddExpire_self_move_witness : runs slice_with_k (λ '(sl, i), ∀ k : CompactObj, prime_key_ok true k →
  str_of (cell k) = "k" → ∃ k', SetExpireTime k 1000 = Ok k' ∧ cell k' = Live "").
Proof.
  eapply runs_mono; [apply slice_with_k_spec|]. intros [sl i] (t & Hdb & Hr & Hp & Hk).
  destruct (AddExpire_self_move sl 0 t _ i 1000 (ex_intro _ t (conj Hdb Hr)) Hdb Hp) as [_ HP].
  intros k Hok Es. rewrite <- Hk in Es. destruct (HP k Hok Es) as (k' & E & Hc & _). by exists k'.
Defined.

(** ** Buffers and requests *)

Definition ping : list ascii := request ["PING"].

Lemma small_buf : contents (new_buf 1024 8) [].
Proof. by apply (new_buf_contents 1024). Qed.

(** A buffer into which [data] was read. *)
Definition buf_with (data : list ascii) : res IoBuf := append (new_buf 1024 8) data.
Lemma buf_with_spec data : Z.of_nat (List.length data) < 2 ^ 40 → runs (buf_with data) (λ b, contents b data).
Proof.
  intros Hl. eapply runs_mono; [apply (append_spec (new_buf 1024 8) [] data small_buf)|by intros b [? _]].
  unfold room_for. change (buf_size (new_buf 1024 8)) with 1032. change (prepend_size_ (new_buf 1024 8)) with 8. unfold kMaxBuf. lia.
Qed.

Lemma io_buf_refines_witness :
  runs (rfold run_op [DoAppend ["a"%char; "b"%char]; DoFill ["c"%char]; DoConsume 1; DoUnwrite 1] (new_buf 1024 8))
       (λ b, readView b = Ok ["b"%char]).
Proof.
  eapply runs_mono; [eapply io_buf_refines; [apply small_buf|reflexivity|by vm_compute]|]. by intros b [_ E].
Defined.

Lemma prepend_breaks_checks_witness :
  runs (prepend (new_buf 1024 8) ["x"%char]) (λ b, append b [] = Fault AssertFailed).
Proof.
  eapply runs_mono; [apply (prepend_breaks_checks (new_buf 1024 8) [] ["x"%char] small_buf); [simpl; lia|vm_compute; discriminate|done]|].
  intros b (_ & Ha & _). apply Ha.
Defined.

Lemma ParseRESP_roundtrip_witness : runs (b ← buf_with (ping ++ ping); ParseRESP b) (λ '(b, r), r = ["PING"] ∧ contents b ping).
Proof.
  rbind (buf_with_spec (ping ++ ping)); [by vm_compute|]. intros b Hc.
  by apply (ParseRESP_roundtrip b ["PING"] ping Hc).
Defined.

Lemma ParseRESP_partial_witness : runs (b ← buf_with (header 2 ++ (["DEL"] ≫= bulk)); '(_, r) ← ParseRESP b; Ok r) (λ r, r = ["DEL"]).
Proof.
  rbind (buf_with_spec (header 2 ++ (["DEL"] ≫= bulk))); [by vm_compute|]. intros b Hc.
  rewrite (ParseRESP_partial b 2 ["DEL"] Hc); [by apply runs_ok|lia|simpl; lia].
Defined.


(** ** Commands *)

Lemma Shard_routes_witness : 0 ≤ Shard 6 "k" < 6.
Proof. apply (Shard_routes 6 "k"); lia. Defined.


Lemma ParseSetParams_terminates_witness :
  ¬ ∃ fuel r, ParseSetParams fuel (mkParser 2 ["k"; "v"; "EX"; "10"] false) (mkSetParams SET_ALWAYS 0) = Ok r.
Proof.
  intros HE. apply ParseSetParams_terminates in HE; [|done]. apply Forall_cons in HE as [_ HE].
  apply Forall_cons in HE as [HE _]. done.
Defined.

Lemma two_shards : 0 < Z.of_nat 2 ≤ 2 ^ 16.
Proof. lia. Qed.

Lemma new_namespace_room size : runs (new_namespace size) (λ ns, ns_rep size true 0 ns ∅ ∧
  ∀ key, room_in_shard size 0 0 ns key).
Proof.
  eapply runs_mono; [apply new_namespace_rep|]. intros ns [Hns Hempty]. split; [done|].
  intros key sl t E Hdb. apply fits_empty. by eapply Hempty.
Qed.

Definition run_cmd (f : list string → CommandContext → Namespace → res (Namespace * Reply)) args (ns : Namespace) :=
  f args (cntx_of 2 0 0 args) ns.


Lemma one_key : runs (ns ← new_namespace 2; '(ns, _) ← run_cmd (CmdSet 1) ["SET"; "k"; "v"] ns; Ok ns)
  (λ ns, ns_rep 2 true 0 ns {["k" := "v"]}).
Proof.
  rbind (new_namespace_room 2). intros ns [Hns Hroom].
  eapply runs_bind; [apply (CmdSet_run 2 two_shards 0 0 "SET" "k" "v" [] ns ∅ 1 0 Hns); [done|apply Hroom|lia|simpl; lia]|].
  intros [ns' r] [_ Hns']. rewrite insert_empty in Hns'. by apply runs_ok.
Qed.

Lemma CmdGet_refines_witness :
  runs (ns ← (ns ← new_namespace 2; '(ns, _) ← run_cmd (CmdSet 1) ["SET"; "k"; "v"] ns; Ok ns); run_cmd CmdGet ["GET"; "k"] ns)
       (λ '(_, r), r = SendString "v").
Proof.
  rbind one_key. intros ns Hns.
  eapply runs_mono; [apply (CmdGet_refines 2 two_shards 0 0 true "GET" "k" [] ns _ Hns)|]. by intros [ns' r] [_ ->].
Defined.

Lemma Delex_refines_witness :
  runs (ns ← (ns ← new_namespace 2; '(ns, _) ← run_cmd (CmdSet 1) ["SET"; "k"; "v"] ns; Ok ns); run_cmd Delex ["DEL"; "k"; "x"] ns)
       (λ '(ns', r), r = SendInt 1 ∧ ns_rep 2 false 0 ns' ∅).
Proof.
  rbind one_key. intros ns Hns%ns_rep_loose.
  eapply runs_mono; [apply (Delex_refines 2 two_shards 0 0 "DEL" "k" ["x"] ns _ Hns)|].
  intros [ns' r] [Hns' ->]. by rewrite delete_singleton_eq in Hns'.
Defined.

Lemma Exists_refines_witness : runs (ns ← new_namespace 2; run_cmd Exists ["EXISTS"; "k"] ns) (λ '(_, r), r = SendInt 0).
Proof.
  rbind (new_namespace_rep 2). intros ns [Hns _].
  eapply runs_mono; [apply (Exists_refines 2 two_shards 0 0 true "EXISTS" "k" [] ns ∅ Hns)|]. by intros [ns' r] [_ ->].
Defined.


(** ** The server *)

(** Two shards, two clients: the first one sets a key that the second one reads. *)
Definition outcome (r : res Server) : Server := match r with Ok sv => sv | Fault _ => mkServer [] [] false end.
Definition server0 : Server := outcome (new_server 2 2).
Definition trace : list aevent :=
  [ARead 0 0 ["SET"; "k"; "v"]; ARead 1 0 ["GET"; "k"]; ARun 0; ARun 1; AFlush 1 (λ _, 3%nat); AFlush 0 (λ _, 1024%nat)].

(** The sessions have room for any short request and reply. *)
Definition room_left (n : Z) (s : Session) : bool :=
  (n <=? writable_size (RecvBuf_ s)) && (buf_size (SendBuf_ s) <=? 4096) && (prepend_size_ (SendBuf_ s) =? 8).
Definition roomy (n : Z) (sv : Server) : bool := (List.length (sessions_ sv) =? 2)%nat && forallb (room_left n) (sessions_ sv).

Lemma roomy_session n sv i : roomy n sv = true → (i < 2)%nat → ∃ s, sessions_ sv !! i = Some s ∧ room_left n s = true.
Proof.
  intros [Hl Ha]%andb_prop Hi. apply Nat.eqb_eq in Hl. destruct (lookup_lt_is_Some_2 (sessions_ sv) i) as [s Es]; [lia|].
  exists s. split; [done|]. rewrite forallb_forall in Ha. apply Ha, list_elem_of_In. by eapply list_elem_of_lookup_2.
Qed.

Lemma allow_read n sv a i c now args : roomy n sv = true → (i < 2)%nat → clients_ a !! i = Some c → phase_ c = Idle →
  args ≠ [] → Z.of_nat (List.length (request args)) ≤ n → is_Some (spec_cmd args ∅) → allowed 1 2 (ARead i now args) sv a.
Proof.
  intros Hr Hi Hc Hp Hne Hl Hs. destruct (roomy_session n sv i Hr Hi) as (s & Es & Hroom).
  apply andb_prop in Hroom as [[Hroom _]%andb_prop _]. apply Z.leb_le in Hroom. exists s, c. split_and!; try done. lia.
Qed.

Lemma allow_flush n sv a i c r chunks : roomy n sv = true → (i < 2)%nat → clients_ a !! i = Some c → phase_ c = Replying r →
  (∀ j, (0 < chunks j)%nat) → Z.of_nat (List.length (bytes r)) ≤ 4096 → allowed 1 2 (AFlush i chunks) sv a.
Proof.
  intros Hr Hi Hc Hp Hch Hl. destruct (roomy_session n sv i Hr Hi) as (s & Es & Hroom).
  apply andb_prop in Hroom as [[_ Hb%Z.leb_le]%andb_prop Hp8%Z.eqb_eq]. exists s, c, r. split_and!; try done.
  unfold room_for, kMaxBuf. rewrite Hp8. lia.
Qed.

Lemma server0_rel : sv_rel 2 server0 (mkAServer ∅ (replicate 2 (mkASession Idle []))) ∧
  ∀ sid sl t, ns_ server0 !! sid = Some (Some sl) → get_db sl 0 = Ok t → items t = [].
Proof. destruct (new_server_rel 2 2) as (sv & E & Hrel & _ & Hi). unfold server0. rewrite E. split; [exact Hrel|exact Hi]. Qed.

Lemma trace_disciplined : disciplined 1 2 trace server0 (mkAServer ∅ (replicate 2 (mkASession Idle []))).
Proof.
  assert (∀ e sv sv', exec 1 2 e sv = Ok sv' → sv' = outcome (exec 1 2 e sv)) as Hout by (intros e sv sv' ->; done).
  unfold trace. cbn [disciplined conc].
  split; [eapply (allow_read 64); [vm_compute; reflexivity|lia|done|done|done|by vm_compute|by eexists]|]. intros sv1 ->%Hout.
  split; [eapply (allow_read 64); [vm_compute; reflexivity|lia|done|done|done|by vm_compute|by eexists]|]. intros sv2 ->%Hout.
  split.
  { eexists _, _. split_and!; [done|done|]. intros k v opts [= <- <- <-]. split; [simpl; lia|]. exists 0%nat. split; [lia|].
    intros sl t E Hdb. apply fits_empty. eapply (proj2 server0_rel); [|exact Hdb].
    match type of E with ns_ ?s !! ?i = _ => assert (ns_ s = ns_ server0) as Hns by (vm_compute; reflexivity) end.
    rewrite Hns in E. exact E. }
  intros sv3 ->%Hout. split; [eexists _, _; split_and!; [done|done|]; intros k v opts [=]|]. intros sv4 ->%Hout.
  split; [eapply (allow_flush 0); [vm_compute; reflexivity|lia|done|done|intros; lia|by vm_compute]|]. intros sv5 ->%Hout.
  split; [eapply (allow_flush 0); [vm_compute; reflexivity|lia|done|done|intros; lia|by vm_compute]|]. done.
Qed.


Lemma split_request_aborts_witness :
  runs (on_read 1 2 0 new_session (header 2)) (λ s', pend_ s' = [] ∧
    (Z.of_nat 3 ≤ writable_size (RecvBuf_ s') → on_read 1 2 0 s' ["$"%char; "1"%char; CR] = Fault AssertFailed)).
Proof.
  eapply runs_mono; [apply (split_request_aborts 1 2 new_session 2 0 0 ["$"%char; "1"%char; CR]); [apply small_buf|done|lia|by vm_compute]|].
  intros s' [Hp Ha]. done.
Defined.

Lemma DoWrite_flushes_witness : runs (b ← buf_with ping; DoWrite (List.length ping) (λ _, 1%nat) b []) (λ '(_, out), out = ping).
Proof.
  rbind (buf_with_spec ping); [by vm_compute|]. intros b Hc.
  eapply runs_mono; [apply (DoWrite_flushes (λ _, 1%nat) b ping [] Hc); lia|]. by intros [b' out] [_ ->].
Defined.

(** * The life of the namespaces of a server of two shards *)

#[local] Existing Instance StoreWitness.L.

Definition queue2_ns : Queue (Job Namespaces) := mkQueue [mkCell 0 None; mkCell 1 None] 1 0 0.
Definition loops2 : Pool Namespaces := mkPool [queue2_ns; queue2_ns] (mkNamespaces ∅ None) 0.

Lemma one_ok2 : (1 ≤ 1 ≤ 32)%nat.
Proof. lia. Qed.

Lemma loops2_hold : loops_hold 1 loops2 (λ _, []) 0.
Proof.
  assert (MpmcSpec.holds 1 queue2_ns []) as Hh by (apply (holds_new 1 one_ok2); reflexivity).
  intros [|[|i]] q; intros [= <-]; by split.
Qed.

Lemma server0_eq sv : new_server 2 2 = Ok sv → sv = server0.
Proof. unfold server0. by intros ->. Qed.

