(* ===== verification/SystemWitness.v ===== *)
(** SystemWitness: a run of the whole system with two clients on two shards, and
    the theorems on the system applied to it. *)
From Stdlib Require Import Ascii String.
From stdpp Require Import gmap strings pretty.
From S2P Require Import Prelude MpmcQueue MpmcInv EventCount TaskQueue Pool CompactObj PrimeTable DbSlice DbSliceOps IoBuf Resp RespInv RespSpec CmdArgs Registry Shards Commands CommandsInv Sample Server ServerSpec System SystemSpec SystemLive StoreWitness.
Local Open Scope Z_scope.

#[local] Existing Instance StoreWitness.L.

Definition no_cont (w : nat) (ec : EventCount) : res EventCount := Ok ec.

(** Two clients connect and send one request each; then the shard of the key
    runs both commands, and each loop sends the reply of its client. *)
Definition started (r : res System) : System :=
  match r with Ok y => y | Fault _ => mkSystem [] [] [] [] [] 0 false end.
Definition system0 : System := started (new_system 2 2).
Definition requests : list sevent :=
  [Accept; Accept; LoopTurn 1 (λ _, 1%nat); LoopTurn 0 (λ _, 1%nat);
   Data 0 0 (request ["SET"; "k"; "v"]); Data 1 0 (request ["GET"; "k"])]%string.
Definition key_shard : nat := shard_of 2 "k".
Definition first_round : list sevent :=
  [ShardTurn key_shard; ShardTurn key_shard; ShardTurn (1 - key_shard); LoopTurn 0 (λ _, 3%nat); LoopTurn 1 (λ _, 1024%nat)].
Definition idle_round : list sevent := [ShardTurn 0; ShardTurn 1; LoopTurn 0 (λ _, 1%nat); LoopTurn 1 (λ _, 1%nat)].
Definition rounds : list (list sevent) := first_round :: replicate 5 idle_round.
Abbreviation system1 := (started (sexec_all 1 2 no_cont requests system0)).

Definition aserver0 : AServer := mkAServer ∅ (replicate 2 (mkASession Idle [])).

Lemma system0_related : related 2 0 system0 server0 ∧ up_ system0 = true.
Proof.
  destruct (new_system_related 2 two_shards 2 ltac:(lia)) as (y & Ey & sv & Esv & Hrel & Hup).
  change (related 2 0 (started (new_system 2 2)) (outcome (new_server 2 2)) ∧ up_ (started (new_system 2 2)) = true).
  rewrite Ey, Esv. exact (conj Hrel Hup).
Qed.

Lemma run_in_range : Forall (in_range 2 (length (sessions_ server0))) requests ∧ Forall (in_range 2 (length (sessions_ server0))) (concat rounds).
Proof. replace (length (sessions_ server0)) with 2%nat by (by vm_compute). split; repeat constructor; by vm_compute. Qed.

Lemma run_trace : conc <$> StoreWitness.trace = System.trace 1 2 no_cont (requests ++ concat rounds) system0.
Proof. vm_compute. reflexivity. Qed.


Lemma requests_run : match sexec_all 1 2 no_cont requests system0 with Ok _ => True | Fault _ => False end.
Proof. vm_compute. exact I. Qed.

(** The system and the server with lists compute the same; here without a fault. *)
Lemma system_simulates_witness : match sexec_all 1 2 no_cont requests system0 with
  | Ok y => runs (exec_all 1 2 (System.trace 1 2 no_cont requests system0) server0) (λ sv, nspace_ y = ns_ sv)
  | Fault _ => False
  end.
Proof.
  pose proof (system_simulates 1 2 two_shards no_cont requests 0 system0 server0 (proj1 system0_related)) as Hsim.
  destruct (sexec_all 1 2 no_cont requests system0) as [y|f] eqn:E.
  - destruct Hsim as (sv & Esv & Hns & _); [by vm_compute|by apply run_in_range|]. exists sv. split; [exact Esv|exact Hns].
  - exfalso. pose proof requests_run as Hrun. rewrite E in Hrun. exact Hrun.
Defined.

(** The two machines when both requests wait. *)
Abbreviation server1 := (outcome (exec_all 1 2 (System.trace 1 2 no_cont requests system0) server0)).
Definition aserver1 : AServer := fold_left (λ a e, aexec e a) (take 2 StoreWitness.trace) aserver0.

Lemma requests_few : 0 + Z.of_nat (length requests) < kMaxPos.
Proof. by vm_compute. Qed.

Lemma requests_simulated : simulates 2 (0 + Z.of_nat (length requests)) (sexec_all 1 2 no_cont requests system0)
  (exec_all 1 2 (System.trace 1 2 no_cont requests system0) server0).
Proof. exact (run_simulates 1 2 two_shards no_cont requests 0 system0 server0 (proj1 system0_related) requests_few (proj1 run_in_range)). Qed.

Lemma simulates_started n (r : res System) (e : res Server) : simulates 2 n r e → match r with Ok _ => True | Fault _ => False end →
  related 2 n (started r) (outcome e).
Proof. unfold simulates. destruct r as [y|f]; [|done]. intros (sv & -> & Hr) _. exact Hr. Qed.

Lemma system1_related : related 2 (0 + Z.of_nat (length requests)) system1 server1.
Proof. exact (simulates_started _ _ _ requests_simulated requests_run). Qed.

Lemma requests_trace : System.trace 1 2 no_cont requests system0 = conc <$> take 2 StoreWitness.trace.
Proof. vm_compute. reflexivity. Qed.

Lemma server1_rel : sv_rel 2 server1 aserver1 ∧ disciplined 1 2 (drop 2 StoreWitness.trace) server1 aserver1.
Proof.
  unfold aserver1. rewrite requests_trace. pose proof trace_disciplined as Hdis. fold aserver0 in Hdis.
  rewrite <- (take_drop 2 StoreWitness.trace) in Hdis. apply disciplined_app in Hdis as [Hd1 Hd2].
  destruct (exec_all_spec 1 2 two_shards _ server0 aserver0 (proj1 server0_rel) Hd1) as (sv & E & Hrel & _).
  rewrite E. exact (conj Hrel (Hd2 sv E)).
Qed.

Lemma rounds_ok : Forall (round_ok 2) rounds.
Proof.
  assert (∀ (es : list sevent), Forall (turn 2) es → ShardTurn 0 ∈ es → ShardTurn 1 ∈ es → (∃ c, LoopTurn 0 c ∈ es) → (∃ c, LoopTurn 1 c ∈ es) → round_ok 2 es) as Hok.
  { intros es Ht H0 H1 L0 L1. split; [done|]. split; intros [|[|i]] Hi; done || lia. }
  apply Forall_cons. split; [|apply Forall_replicate]; (apply Hok; [repeat constructor; vm_compute; lia| | | |]).
  all: try eexists; vm_compute; repeat first [apply list_elem_of_here|apply list_elem_of_further].
Qed.

